(* ===== verification/_CoqProject ===== *)
-Q . S2P
Prelude.v
Machine.v
SslContext.v
RawBuffer.v
RawBufferTests.v
InternalMessage.v
SimpleLineFramer.v
LineSplit.v
FramerCorrect.v
FramerTheorems.v
WriteQueueSG.v
WriteQueueTheorems.v
PluginBundle.v
SessionManager.v
TaskPool.v
TaskPoolSpec.v
TaskPoolCounters.v
TaskPoolTheorems.v
TaskPoolRaces.v
TaskPoolSubmit.v
TaskPoolCallbacks.v
TaskPoolRest.v
TaskPoolSettles.v
TaskFuture.v
TaskPoolFutures.v
TaskFutureAnswers.v
PoolTests.v
Channel.v
ChannelPool.v
ChannelSettles.v
Session.v
SessionTheorems.v
SessionDrains.v
SessionQueue.v
SessionRelay.v
SessionLines.v
TcpClient.v
TcpClientTheorems.v
ClientLines.v
ClientExample.v
TcpAcceptorLoop.v
TcpAcceptorTheorems.v
TcpServer.v
TcpServerTheorems.v
Controller.v
ControllerTheorems.v
LogAdapter.v
LogTheorems.v
LogShutdown.v
TlsProvider.v
