(* ===== verification/Prelude.v ===== *)
(** * Vectro: a verification library (root file)

    Vectro is a C++17 framework for TCP servers and clients on asio and Abseil:
    sockets are read through a framer into messages, messages go through
    channels, each a worker pool, to a router and back to sessions, and sessions
    write through a scatter/gather queue.  This development models its parts one
    by one, in the order in which they carry the program's logic, and proves what
    makes each of them correct, or shows the run in which it is not.

    ** The parts, and where they are

    Paths are under src/src/vectro/.

    - frame/raw_buffer: [RawBuffer.v].  The class on its three members; objects
      live in a store, blocks in the heap of [Machine.v].  Any sequence of
      operations keeps every object empty or the only owner of a live block.
      [RawBufferTests.v] has its unit tests (../../tests/frame/rawbuffer).
    - frame/internal_message, frame/framer_base: [InternalMessage.v].  The data,
      and [FramerBase] as a type class with the read protocol its comment gives.
    - frame/simple_line_framer.h: [SimpleLineFramer.v] is the class;
      [LineSplit.v] is the specification (splitting a byte stream at newlines);
      [FramerCorrect.v] has the lemmas and [FramerTheorems.v] the theorems.
    - stream/write_queue_sg.h: [WriteQueueSG.v], [WriteQueueTheorems.v].
    - plugin/plugin_bundle: [PluginBundle.v].
    - session_manager.h: [SessionManager.v].
    - pool/task_multi_processor.h: [TaskPool.v] is the machine (one program
      counter per thread), [TaskPoolSpec.v] the abstract pool and the simulation,
      [TaskPoolCounters.v] the invariants of counters, lock and sleepers,
      [TaskPoolTheorems.v] the theorems, [TaskPoolRaces.v] which accesses race,
      [TaskPoolSubmit.v] what becomes of a submission, [TaskPoolCallbacks.v] what
      the callbacks have done, [TaskPoolRest.v] that one worker comes to rest,
      [TaskPoolSettles.v] that several can, [TaskFuture.v] the submissions with a
      deadline, a token or a future, [TaskPoolFutures.v] the futures on the pool,
      [TaskFutureAnswers.v] that each can be had.
    - channel.h: [Channel.v] (its pool is the sequence of calls made on it),
      [ChannelPool.v], the channel on the pool itself, and [ChannelSettles.v], that
      everything queued on it can be handled.
    - session.h: [Session.v], [SessionTheorems.v], [SessionDrains.v] (the graceful close
      of direct writes).  [SessionRelay.v] states what a session expects of its framer as a class, and what it does with it;
      [SessionLines.v] is a session on the line framer, [SessionQueue.v] a session
      on its write queue.
    - tcp/tcp_client.h: [TcpClient.v], [TcpClientTheorems.v]; [ClientLines.v] is a
      client on the line framer.
    - tcp/tcp_acceptor_loop.h: [TcpAcceptorLoop.v], the strand's handlers as a
      queue, with [TcpAcceptorTheorems.v].
    - tcp/tcp_server.h, tcp/tcp_acceptor_interface.h: [TcpServer.v], the server
      against the interface of its loops, a type class that the accept loop
      implements; [TcpServerTheorems.v].
    - controller.h: [Controller.v], over the registry and the channel managers;
      [ControllerTheorems.v].
    - log/log_adapter.h: [LogAdapter.v], threads as program counters;
      [LogTheorems.v] has its invariants, [LogShutdown.v] its end, registration
      and the witnesses.
    - tls/: [SslContext.v] has the context's operations as a class, the stream
      trait and the three client providers; [TlsProvider.v] the reloadable one.
    - ../../tests/pool: [PoolTests.v], the pool's test cases over every schedule.
    - ../../examples/tcp/client_main_example.h: [ClientExample.v].

    They interact as the code's classes do: the framer makes its buffers with
    [RawBuffer.Make] and its messages with [InternalMessage]; a session reads
    through its framer, looks its interceptor up in a [PluginBundle] and closes
    its write queue; a channel drives a pool; the registry closes sessions under
    its lock; the controller keeps sessions in the registry and dispatches to
    channel managers; a server drives its accept loops through their interface.

    ** How the code is modelled

    A member function is a computation [M S A] (below): it returns, throws with
    the state reached so far, or has undefined behaviour, which is a result of
    its own, so that a theorem that a call returns excludes it.  Where the order
    of things is the point (the strand of the write queue, the threads of the
    pool, the handlers of a session or a client) the component is a step
    function on a state and labels, and theorems are about every run.
    [size_t] and [uint64_t] are integers in [Z], wrapped by [u64] where the code
    computes; the pool's counters really wrap.  Hash maps are [gmap]s with their
    iteration order left open.  Clocks give whatever the label says.  asio's
    sockets, timers and strands, the allocator, user callbacks, framers other
    than the line framer and plugins are parameters or events: what the code
    does to them is logged, what they may answer is not restricted, except by
    the hypotheses a theorem names.

    ** What the theorems show

    - Framing: where reads append to what is held, the framer delivers exactly the lines
      of the stream over any chunking that leaves room; with the documented read protocol
      (every read at [data()], which all callers follow) it does so for reads of whole
      lines, and a line over two reads is undefined; an empty line throws, a long partial
      line is dropped.
    - Buffers: no double free, no leak (but for size 0); all unit tests pass.
    - Write queue: one write at a time, in order, nothing lost, bounded, drained;
      dead after an error; a graceful close has no effect; a send after a forced
      close overlaps the write that is being cancelled.
    - Pool: a simulation by a bag of queues, from which conservation and FIFO
      order follow; the value of [tasks_in_queue_]; no sleeper forgotten on
      submission, hence no task stranded; the circuit breaker's bound; no
      undefined behaviour of its own but its data races; and the schedules of three faults (the
      counter wraps, shutting down abandons tasks, destruction can hang).
    - Pool, from end to end: everything submitted is finished, in hand, queued,
      being submitted or refused; once the pool is at rest the callbacks have
      been called with everything not refused; a pool of one worker comes to rest in
      a number of steps that is computed, and from every state of a running pool
      of any number of workers a bounded number of steps leads to rest; a future
      is settled once, by its own task, and is left unset only by a task that is
      still under way or was refused, and every other can be had; the data races are of three
      kinds; the affinity function is never used.  Five of the pool's test cases
      pass in every schedule, two depend on it.
    - Plugin bundle and registry: they are the maps their histories describe;
      closing reaches every session; re-entering the registry deadlocks.
    - Channel: its pool is destroyed twice; a manager can never dispatch.  On the
      pool, its hooks see enqueues and processing one at a time, every message
      once, in order in FIFO mode; from every state of a channel in use everything
      queued can be handled within a bounded number of steps.
    - Session: one disconnection and nothing after it; the graceful drain of
      direct writes while nothing fails; an error leaves the socket open.
    - Session and framer together: on reads that end at line ends the handler is
      given exactly the stream's lines, whatever else happens.
    - Session and write queue together: what is queued, written and reported adds
      up; a graceful close on the queue never closes the session.
    - Client: every request settled exactly once or pending, with its timer if framing
      does not throw; on the line framer, with reads of whole lines, every line goes to
      its response handler or the message handler, once, in order; a client that was shut
      down cannot be connected again; closing it twice by force throws, and destroying it
      when its socket is not open ends the program.
    - Accept loop: one chain of accepts per start, every connection decided once
      and in order, the gates of draining and stopping; an exception ends a
      chain, and may leave a session that nobody knows.
    - Server: [Stop] reaches every loop and takes effect; its mode is that of its
      loops; starting a port twice orphans a loop.
    - Controller: sessions are registered and stay; nothing can be routed.
    - Log: delivered in order, none lost, bounded, no wake-up lost, and after the
      destructor's signal the worker ends, if its callbacks can be called; a disturbed
      registration is lost.
    - TLS: the reloadable provider keeps the last context it could load.

    ** Bounds and fuel

    No definition needs fuel: loops are structural in a list or a count (the
    framer's loop in the bytes to look at, [std::max_element] in the sizes).
    The log worker's termination has a measure, [log_work], that bounds its steps;
    an accept loop's stop takes effect after as many handlers as are queued; a
    pool's only worker sleeps within [steps_left] steps; several workers come to
    rest within [to_return], [to_release] and then [distance] steps.
    Reads through a session are whole lines of up to 4096 bytes a read; a stream
    cut in any way is bounded by 3072 bytes.
    Theorems that would need more than 2^64 tasks or requests to fail say so in
    a hypothesis ([length (pushed s) < 2^64], [2 + length es < 2^64]); the circuit
    breaker's bound asks for limits up to 2^63 and as many threads.

    ** What is not modelled

    Failure of the containers' own allocations, and of a timer's [cancel]; the length of the backoff sleep
    in the pool; user callbacks that call back into the pool from a worker's thread (a
    submission from such a callback is a submission of another thread here);
    TLS handshakes beyond their result.  An interleaving model says which
    accesses race, not what a race does: where the pool races (a steal's look at
    the sizes, task_multi_processor.h:305, two workers that report drops,
    [UpdateConfig] and the setters) the steps stand for an execution without
    tearing or reordering.

    Also left out: the logging macros and the process-wide adapter of
    log_adapter.h:330-355 (they only call [Log]); what the TLS providers print;
    the construction of a loop in tcp_server.h:80, whose arguments fit no
    constructor, and user code of the accept loop that calls the loop back (it
    is a computation on a world of its own); [TcpClient::RegisterPlugin] and the
    backpressure plugin, types the repository does not have; the example client
    after its first heartbeat, which is undefined, and the example server, which
    does not compile.  A server's loops, their sessions and a controller's registry
    are not put together as one system: what the server passes to its loops fits
    no constructor, and what the controller would route with does not exist; each
    is modelled against the others' interfaces instead.  That several workers come
    to rest is shown to be always possible, not to happen under every scheduler:
    [mutex_] is not fair, and a worker with work may be kept from it for ever by
    others that go round.

    ** This file

    The monad with its rules for total correctness ([wp]) and for what every
    ending of a computation does to the state ([keeps]), 64-bit arithmetic, and
    lemmas on lists updated in one place. *)
From Corelib Require Export ssreflect.
From stdpp Require Export base gmap sets list strings numbers.

#[global] Open Scope general_if_scope.
#[export] Set Default Goal Selector "!".

(** ** C++ exceptions and undefined behaviour

    An exception carries what the code puts in it.  Undefined behaviour is an
    outcome of its own: a theorem that a call returns therefore also says that
    the call is free of the undefined behaviour the model can express.  So is the end
    of the program by [std::terminate]. *)
Inductive exn :=
  | invalid_argument (what : string)
  | bad_alloc
  | runtime_error (what : string)
  | other_exception (tag : Z).

Inductive ub :=
  | null_dereference
  | out_of_bounds
  | uninitialised_read
  | use_after_free
  | bad_free
  | division_by_zero
  | outside_lifetime
  | broken_precondition
  | signed_overflow
  | relock
  | data_race
  | std_terminate.

Inductive outcome (S A : Type) :=
  | Ret (a : A) (s : S)
  | Throw (e : exn) (s : S)
  | Undef (u : ub).
Arguments Ret {S A} a s.
Arguments Throw {S A} e s.
Arguments Undef {S A} u.

#[export] Instance exn_eq_dec : EqDecision exn.
Proof. solve_decision. Defined.
#[export] Instance ub_eq_dec : EqDecision ub.
Proof. solve_decision. Defined.

(** ** The state-and-error monad

    A throw keeps the state reached so far, as a C++ throw does. *)
Definition M (S A : Type) : Type := S → outcome S A.

#[export] Instance M_ret S : MRet (M S) := λ A a s, Ret a s.
#[export] Instance M_bind S : MBind (M S) := λ A B f m s,
  match m s with
  | Ret a s' => f a s'
  | Throw e s' => Throw e s'
  | Undef u => Undef u
  end.

Definition throw {S A} (e : exn) : M S A := λ s, Throw e s.
Definition undef {S A} (u : ub) : M S A := λ _, Undef u.
Definition get {S} : M S S := λ s, Ret s s.
Definition put {S} (s : S) : M S () := λ _, Ret () s.
Definition modify {S} (f : S → S) : M S () := λ s, Ret () (f s).
Definition gets {S A} (f : S → A) : M S A := λ s, Ret (f s) s.

(** [catch m h]: a [catch] clause, or the unwinding of a scope: [h] runs in the
    state the throw left. *)
Definition catch {S A} (m : M S A) (h : exn → M S A) : M S A := λ s,
  match m s with
  | Throw e s' => h e s'
  | r => r
  end.

(** Run a computation on the second component of the state. *)
Definition on_snd {S T A} (m : M T A) : M (S * T) A := λ st,
  match m st.2 with
  | Ret a t => Ret a (st.1, t)
  | Throw e t => Throw e (st.1, t)
  | Undef u => Undef u
  end.

Fixpoint for_each {S A} (f : A → M S ()) (l : list A) : M S () :=
  match l with
  | [] => mret ()
  | x :: l => f x ;; for_each f l
  end.

(** ** Total correctness

    [wp m Q E s]: from [s], [m] has no undefined behaviour; if it returns, [Q]
    holds of the value and the state, and if it throws, [E] holds of the
    exception and the state. *)
Definition wp {S A} (m : M S A) (Q : A → S → Prop) (E : exn → S → Prop)
    (s : S) : Prop :=
  match m s with
  | Ret a s' => Q a s'
  | Throw e s' => E e s'
  | Undef _ => False
  end.

Definition no_throw {S} : exn → S → Prop := λ _ _, False.

Section wp_rules.
Context {S A B : Type}.
Implicit Types (Q : A → S → Prop) (E : exn → S → Prop) (s : S).

Lemma wp_ret (a : A) Q E s : Q a s → wp (mret a) Q E s.
Proof. done. Qed.

Lemma wp_bind (m : M S A) (f : A → M S B) (Q : B → S → Prop) E s :
  wp m (λ a s', wp (f a) Q E s') E s → wp (m ≫= f) Q E s.
Proof. rw /wp /mbind /M_bind. by destruct (m s). Qed.

Lemma wp_throw e Q E s : E e s → wp (throw e) Q E s.
Proof. done. Qed.

Lemma wp_get (Q : S → S → Prop) E s : Q s s → wp get Q E s.
Proof. done. Qed.

Lemma wp_gets (f : S → A) Q E s : Q (f s) s → wp (gets f) Q E s.
Proof. done. Qed.

Lemma wp_put (Q : () → S → Prop) E s s' : Q () s' → wp (put s') Q E s.
Proof. done. Qed.

Lemma wp_modify f (Q : () → S → Prop) E s : Q () (f s) → wp (modify f) Q E s.
Proof. done. Qed.

Lemma wp_mono (m : M S A) Q Q' (E E' : exn → S → Prop) s :
  wp m Q E s → (∀ a s', Q a s' → Q' a s') → (∀ e s', E e s' → E' e s') →
  wp m Q' E' s.
Proof. rw /wp. destruct (m s); naive_solver. Qed.

Lemma wp_catch (m : M S A) h Q E s :
  wp m Q (λ e s', wp (h e) Q E s') s → wp (catch m h) Q E s.
Proof. rw /wp /catch. by destruct (m s). Qed.

Lemma wp_on_snd {T} (m : M T A) (Q : A → S * T → Prop)
    (E : exn → S * T → Prop) (s : S) (t : T) :
  wp m (λ a t', Q a (s, t')) (λ e t', E e (s, t')) t →
  wp (on_snd m) Q E (s, t).
Proof. rw /wp /on_snd /=. by destruct (m t). Qed.

(** A computation that returns, as an equation. *)
Lemma wp_returns (m : M S A) Q s :
  wp m Q no_throw s → ∃ a s', m s = Ret a s' ∧ Q a s'.
Proof. rw /wp. destruct (m s) as [a s'|e s'|u]; [by eauto|done..]. Qed.

Lemma wp_of_ret (m : M S A) Q E s a s' : m s = Ret a s' → Q a s' → wp m Q E s.
Proof. rw /wp. by intros ->. Qed.

Lemma wp_of_throw (m : M S A) Q E s e s' :
  m s = Throw e s' → E e s' → wp m Q E s.
Proof. rw /wp. by intros ->. Qed.
End wp_rules.

(** [wp_step]: take apart the head of a [wp] goal. *)
Ltac wp_step :=
  lazymatch goal with
  | |- wp (mret _) _ _ _ => apply wp_ret
  | |- wp (_ ≫= _) _ _ _ => apply wp_bind
  | |- wp (throw _) _ _ _ => apply wp_throw
  | |- wp get _ _ _ => apply wp_get
  | |- wp (gets _) _ _ _ => apply wp_gets
  | |- wp (put _) _ _ _ => apply wp_put
  | |- wp (modify _) _ _ _ => apply wp_modify
  | |- wp (catch _ _) _ _ _ => apply wp_catch
  | |- wp (on_snd _) _ _ (_, _) => apply wp_on_snd
  end.
Ltac wp_steps := repeat (wp_step; cbn beta zeta).

(** ** What a computation does to its state, however it ends

    [keeps R m]: where [m] returns or throws, [R] relates the state before to the
    state after. *)
Definition keeps {S A} (R : relation S) (m : M S A) : Prop :=
  ∀ s, match m s with Ret _ s' | Throw _ s' => R s s' | Undef _ => True end.

Section keeps_rules.
Context {S : Type} (R : relation S) `{!PreOrder R}.

Lemma keeps_ret {A} (a : A) : keeps R (mret a).
Proof. intros s. rw /=. reflexivity. Qed.

Lemma keeps_throw {A} e : keeps R (throw (A := A) e).
Proof. intros s. rw /=. reflexivity. Qed.

Lemma keeps_gets {A} (f : S → A) : keeps R (gets f).
Proof. intros s. rw /=. reflexivity. Qed.

Lemma keeps_modify f : (∀ s, R s (f s)) → keeps R (modify f).
Proof. intros Hf s. apply Hf. Qed.

Lemma keeps_bind {A B} (m : M S A) (f : A → M S B) :
  keeps R m → (∀ a, keeps R (f a)) → keeps R (m ≫= f).
Proof.
  intros Hm Hf s. specialize (Hm s). rw /mbind /M_bind. destruct (m s) as [a s1|e s1|u]; [|done..].
  specialize (Hf a s1). destruct (f a s1); [by etrans..|done].
Qed.

Lemma keeps_catch {A} (m : M S A) h :
  keeps R m → (∀ e, keeps R (h e)) → keeps R (catch m h).
Proof.
  intros Hm Hh s. specialize (Hm s). rw /catch. destruct (m s) as [a s1|e s1|u]; [done| |done].
  specialize (Hh e s1). destruct (h e s1); [by etrans..|done].
Qed.

Lemma keeps_for_each {A} (f : A → M S ()) l : (∀ x, keeps R (f x)) → keeps R (for_each f l).
Proof.
  intros Hf. induction l as [|x l IH]; [apply keeps_ret|]. by apply keeps_bind.
Qed.
End keeps_rules.

Create HintDb keeps.
#[export] Hint Resolve keeps_ret keeps_throw keeps_gets keeps_modify keeps_bind keeps_catch
  keeps_for_each : keeps.

(** ** [size_t]: 64-bit unsigned arithmetic, wrapped where the code computes *)
Definition u64 (z : Z) : Z := z `mod` 2 ^ 64.
Definition add64 (a b : Z) : Z := u64 (a + b).
Definition sub64 (a b : Z) : Z := u64 (a - b).

Definition int64 (z : Z) : bool := ((- 2 ^ 63 <=? z) && (z <? 2 ^ 63))%Z.
Definition is_u64 (z : Z) : Prop := (0 ≤ z < 2 ^ 64)%Z.

Lemma u64_small z : is_u64 z → u64 z = z.
Proof. rw /is_u64 /u64. intros. by apply Z.mod_small. Qed.

Lemma u64_range z : is_u64 (u64 z).
Proof. rw /is_u64 /u64. by apply Z.mod_pos_bound. Qed.

Lemma add64_small a b : is_u64 (a + b) → add64 a b = (a + b)%Z.
Proof. apply u64_small. Qed.

Lemma sub64_small a b : is_u64 (a - b) → sub64 a b = (a - b)%Z.
Proof. apply u64_small. Qed.

Lemma sub64_borrow a b :
  is_u64 a → is_u64 b → (a < b)%Z → sub64 a b = (2 ^ 64 + a - b)%Z.
Proof.
  rw /is_u64 /sub64 /u64. intros.
  replace (a - b)%Z with ((2 ^ 64 + a - b) + (-1) * 2 ^ 64)%Z by lia.
  rw Z_mod_plus_full. apply Z.mod_small. lia.
Qed.

Lemma u64_add_idemp_l a b : u64 (u64 a + b) = u64 (a + b).
Proof. rw /u64. by rw Zplus_mod_idemp_l. Qed.

Lemma u64_sub_idemp_l a b : u64 (u64 a - b) = u64 (a - b).
Proof. rw /u64. by rw Zminus_mod_idemp_l. Qed.

(** ** Lists updated in one place *)
Section list_update.
Context {A : Type}.
Implicit Types (l : list A) (x y : A).

Lemma sum_list_with_insert (f : A → nat) l i x y :
  l !! i = Some x →
  sum_list_with f (<[i := y]> l) + f x = sum_list_with f l + f y.
Proof.
  induction l as [|z l IH] in i |- *; [done|].
  destruct i as [|i]; intros Hi; simplify_eq/=; [lia|].
  specialize (IH i Hi). lia.
Qed.

Lemma sum_list_with_elem (f : A → nat) l i x :
  l !! i = Some x → f x ≤ sum_list_with f l.
Proof.
  intros Hi. pose proof (sum_list_with_insert f l i x x Hi) as Hs.
  induction l as [|z l IH] in i, Hi, Hs |- *; [done|].
  destruct i as [|i]; simplify_eq/=; [lia|].
  pose proof (IH i Hi (sum_list_with_insert f l i x x Hi)). lia.
Qed.

Lemma sum_list_with_zero (f : A → nat) l :
  sum_list_with f l = 0 → ∀ i x, l !! i = Some x → f x = 0.
Proof. intros H0 i x Hi. pose proof (sum_list_with_elem f l i x Hi). lia. Qed.

Lemma sum_list_with_le (f g : A → nat) l :
  (∀ i x, l !! i = Some x → f x ≤ g x) → sum_list_with f l ≤ sum_list_with g l.
Proof.
  induction l as [|z l IH]; intros Hle; rw /=; [lia|].
  pose proof (Hle 0 z eq_refl). assert (sum_list_with f l ≤ sum_list_with g l); [|lia].
  apply IH. intros i x. exact (Hle (S i) x).
Qed.

Lemma sum_list_with_positive (f : A → nat) l :
  sum_list_with f l ≠ 0 → ∃ i x, l !! i = Some x ∧ f x ≠ 0.
Proof.
  induction l as [|z l IH]; intros H0; [done|].
  destruct (decide (f z = 0)) as [Hz|]; [|by exists 0, z].
  destruct IH as (i & x & Hi & Hx); [cbn in H0; lia|by exists (S i), x].
Qed.

Lemma sum_list_with_bound (f : A → nat) l k :
  (∀ i x, l !! i = Some x → f x ≤ k) → sum_list_with f l ≤ k * length l.
Proof.
  induction l as [|z l IH]; intros Hle; cbn; [lia|].
  pose proof (Hle 0 z eq_refl). assert (sum_list_with f l ≤ k * length l); [|lia].
  apply IH. intros i x. exact (Hle (S i) x).
Qed.

End list_update.

Lemma concat_insert {A} (ls : list (list A)) i x y :
  ls !! i = Some x → concat (<[i := y]> ls) ++ x ≡ₚ concat ls ++ y.
Proof.
  induction ls as [|z ls IH] in i |- *; [done|].
  destruct i as [|i]; intros Hi; simplify_eq/=.
  - rw -!app_assoc. rw (Permutation_app_comm (concat ls)) (Permutation_app_comm (concat ls)).
    rw !app_assoc. by rw (Permutation_app_comm x y).
  - by rw -!app_assoc (IH i Hi).
Qed.

Lemma concat_insert_add {A} (ls : list (list A)) i q1 q2 t :
  ls !! i = Some (q1 ++ q2) → concat (<[i := q1 ++ t :: q2]> ls) ≡ₚ t :: concat ls.
Proof.
  intros Hi. apply (Permutation_app_inv_r (q1 ++ q2)). rw (concat_insert _ _ _ _ Hi).
  by rw -!Permutation_middle.
Qed.

Lemma concat_insert_remove {A} (ls : list (list A)) i q1 q2 t :
  ls !! i = Some (q1 ++ t :: q2) → concat ls ≡ₚ t :: concat (<[i := q1 ++ q2]> ls).
Proof.
  intros Hi. rw -(concat_insert_add (<[i := q1 ++ q2]> ls) i).
  - by rw list_lookup_insert_eq; [eapply lookup_lt_Some|].
  - by rw list_insert_insert_eq list_insert_id.
Qed.

Lemma sublist_all {A} (l1 l2 : list A) : l1 `sublist_of` l2 → length l1 = length l2 → l1 = l2.
Proof.
  induction 1 as [|x l1 l2 _ IH|x l1 l2 Hl _]; rw /=; [done| |].
  - intros Hlen. by rw IH; [lia|].
  - apply sublist_length in Hl. lia.
Qed.

Lemma concat_nils {A} n : concat (replicate n ([] : list A)) = [].
Proof. by induction n. Qed.

Lemma length_concat_sum {A} (ls : list (list A)) :
  length (concat ls) = sum_list_with length ls.
Proof. induction ls; rw /= ?length_app; lia. Qed.

Lemma filter_ne_id {A} `{!EqDecision A} (k : A) (l : list A) : k ∉ l → filter (.≠ k) l = l.
Proof.
  induction l as [|x l IH]; [done|]. intros [Hx Hl]%not_elem_of_cons.
  by rw list.filter_cons decide_True ?IH.
Qed.
Lemma filter_ne_Permutation {A} `{!EqDecision A} (k : A) (l : list A) :
  NoDup l → k ∈ l → l ≡ₚ k :: filter (.≠ k) l.
Proof.
  intros Hnd (l1 & l2 & ->)%list_elem_of_split.
  assert ((k ∉ l1) ∧ k ∉ l2) as [H1 H2].
  { apply list.NoDup_app in Hnd as (_ & Hd & Hnd). apply list.NoDup_cons in Hnd as [? _].
    split; [|done]. intros Hin. by apply (Hd k Hin), list_elem_of_here. }
  rw list.filter_app (filter_ne_id _ l1 H1) list.filter_cons decide_False; [by intros []|].
  by rw (filter_ne_id _ l2 H2) Permutation_middle.
Qed.

(** ** Booleans of the code as propositions *)
Ltac simp_bools :=
  repeat match goal with
  | H : _ && _ = true |- _ => apply andb_true_iff in H as [? ?]
  | H : _ || _ = false |- _ => apply orb_false_iff in H as [? ?]
  | H : negb _ = true |- _ => apply negb_true_iff in H
  | H : negb _ = false |- _ => apply negb_false_iff in H
  | H : bool_decide _ = true |- _ => apply bool_decide_eq_true in H
  | H : bool_decide _ = false |- _ => apply bool_decide_eq_false in H
  | H : ¬ is_Some _ |- _ => apply eq_None_not_Some in H
  | H : is_Some _ |- _ => destruct H as [? H]
  end; simpl in *.
