(* ===== verification/Machine.v ===== *)
(** * Machine: the parts of the C++ run time the buffers use

    The heap behind [::operator new] / [::operator delete], [std::memcpy] and
    [std::memmove] on it, and the steady clock.  None of this is code of
    src/: it is the meaning of the language and its standard library.

    A heap block is a list of cells, [None] for an indeterminate byte.  A block
    is reached by its address [loc] and an offset, so an access past the end of
    a block, to a freed block, or to an indeterminate byte is an [Undef]
    outcome.  The allocator may fail: [oom k] says whether the [k]-th
    allocation does.  [clock k] is the [k]-th reading of the steady clock. *)
From S2P Require Import Prelude.
From Stdlib Require Strings.Byte.

Abbreviation byte := Byte.byte.

Abbreviation loc := positive.
Abbreviation block := (list (option Byte.byte)).

#[export] Instance byte_eq_decision : EqDecision byte := Byte.byte_eq_dec.

Record mach := Mach {
  heap : gmap loc block;
  nallocs : nat;
  oom : nat → bool;
  nreads : nat;
  clock : nat → Z
}.

Definition set_heap (h : gmap loc block) (m : mach) : mach :=
  Mach h (nallocs m) (oom m) (nreads m) (clock m).

(** [::operator new(s)]: a fresh block of [s] indeterminate bytes, or
    [std::bad_alloc].  The address of a freed block may be used again. *)
Definition op_new (s : Z) : M mach loc := λ m,
  let m' := Mach (heap m) (S (nallocs m)) (oom m) (nreads m) (clock m) in
  if oom m (nallocs m) then Throw bad_alloc m'
  else
    let l := fresh (dom (heap m)) in
    Ret l (set_heap (<[l := replicate (Z.to_nat s) None]> (heap m)) m').

(** Sized [::operator delete(p, s)]: [p] must be live and of size [s]. *)
Definition op_delete (l : loc) (s : Z) : M mach () := λ m,
  match heap m !! l with
  | Some b =>
      if decide (Z.of_nat (length b) = s)
      then Ret () (set_heap (delete l (heap m)) m)
      else Undef bad_free
  | None => Undef bad_free
  end.

(** [std::chrono::steady_clock::now()]. *)
Definition now : M mach Z := λ m,
  Ret (clock m (nreads m))
      (Mach (heap m) (nallocs m) (oom m) (S (nreads m)) (clock m)).

(** One byte read: [p[off]]. *)
Definition mem_load (l : loc) (off : Z) : M mach byte := λ m,
  match heap m !! l with
  | None => Undef use_after_free
  | Some b =>
      match b !! Z.to_nat off with
      | Some (Some x) => Ret x m
      | Some None => Undef uninitialised_read
      | None => Undef out_of_bounds
      end
  end.

(** Copying out of and into a block.  Copying indeterminate bytes is allowed;
    looking at them ([mem_load]) is not. *)
Definition mem_read (l : loc) (off len : Z) : M mach block := λ m,
  match heap m !! l with
  | None => Undef use_after_free
  | Some b =>
      if decide (off + len ≤ Z.of_nat (length b))%Z
      then Ret (take (Z.to_nat len) (drop (Z.to_nat off) b)) m
      else Undef out_of_bounds
  end.

Definition splice (off : nat) (c b : block) : block :=
  take off b ++ c ++ drop (off + length c) b.

Definition mem_write (l : loc) (off : Z) (c : block) : M mach () := λ m,
  match heap m !! l with
  | None => Undef use_after_free
  | Some b =>
      if decide (off + Z.of_nat (length c) ≤ Z.of_nat (length b))%Z
      then Ret () (set_heap (<[l := splice (Z.to_nat off) c b]> (heap m)) m)
      else Undef out_of_bounds
  end.

(** [std::memmove(dst + doff, src + soff, len)]; [std::memcpy] is the same on
    two different blocks. *)
Definition memmove (dst : loc) (doff : Z) (src : loc) (soff len : Z) : M mach () :=
  c ← mem_read src soff len; mem_write dst doff c.

(** A machine on which no allocation fails. *)
Definition never_oom (m : mach) : Prop := ∀ k, oom m k = false.

Definition mach0 : mach := Mach ∅ 0 (λ _, false) 0 Z.of_nat.

(** ** Lemmas *)

Lemma length_splice off c b :
  off + length c ≤ length b → length (splice off c b) = length b.
Proof.
  intros. rw /splice !length_app length_take length_drop. lia.
Qed.

Lemma take_splice_0 c b : take (length c) (splice 0 c b) = c.
Proof. rw /splice take_0 /=. by rw take_app_length. Qed.

Lemma splice_at off c b :
  off ≤ length b → take (off + length c) (splice off c b) = take off b ++ c.
Proof.
  intros. rw /splice app_assoc. rw take_app_length' //.
  rw length_app length_take. lia.
Qed.

Lemma lookup_splice_ge off c b i :
  off ≤ length b → off + length c ≤ i → splice off c b !! i = b !! i.
Proof.
  intros. rw /splice app_assoc lookup_app_r; rw length_app length_take; [lia|].
  rw lookup_drop. f_equal. lia.
Qed.

(** Writing what is there changes nothing. *)
Lemma splice_same c b : take (length c) b = c → splice 0 c b = b.
Proof. intros Hc. rw /splice take_0 /= -{1}Hc. apply take_drop. Qed.

Lemma wp_op_new s m Q E :
  never_oom m →
  (∀ l, heap m !! l = None →
     Q l (Mach (<[l := replicate (Z.to_nat s) None]> (heap m))
           (S (nallocs m)) (oom m) (nreads m) (clock m))) →
  wp (op_new s) Q E m.
Proof.
  intros Hoom HQ. rw /wp /op_new Hoom. apply HQ.
  apply not_elem_of_dom, is_fresh.
Qed.

Lemma wp_op_delete l b s m (Q : () → mach → Prop) E :
  heap m !! l = Some b → Z.of_nat (length b) = s →
  Q () (set_heap (delete l (heap m)) m) → wp (op_delete l s) Q E m.
Proof. intros Hl Hs HQ. rw /wp /op_delete Hl. by rw decide_True. Qed.

Lemma wp_mem_load l b off x m Q E :
  heap m !! l = Some b → b !! Z.to_nat off = Some (Some x) →
  Q x m → wp (mem_load l off) Q E m.
Proof. intros Hl Hx HQ. by rw /wp /mem_load Hl Hx. Qed.

Lemma wp_mem_read l b off len m Q E :
  heap m !! l = Some b → (off + len ≤ Z.of_nat (length b))%Z →
  Q (take (Z.to_nat len) (drop (Z.to_nat off) b)) m →
  wp (mem_read l off len) Q E m.
Proof. intros Hl Hx HQ. rw /wp /mem_read Hl. by rw decide_True. Qed.

Lemma wp_mem_write l b off c m (Q : () → mach → Prop) E :
  heap m !! l = Some b →
  (off + Z.of_nat (length c) ≤ Z.of_nat (length b))%Z →
  Q () (set_heap (<[l := splice (Z.to_nat off) c b]> (heap m)) m) →
  wp (mem_write l off c) Q E m.
Proof. intros Hl Hx HQ. rw /wp /mem_write Hl. by rw decide_True. Qed.
