(* ===== verification/SslContext.v ===== *)
(** * TLS contexts as asio has them, and the client providers

    The operations of [asio::ssl::context] that the providers call are third-party
    code: a class of computations on a world [W], each of which may throw.  What
    the providers print is left out.

    The three client providers (tls/default_, ca_verified_ and
    self_signed_tls_client_context_provider.cc) make a context in their
    constructors and hand it out. *)
From S2P Require Import Prelude.

(** ** The stream type (tls/detail/stream_traits.h) *)
Inductive StreamType :=
  | OtherStream
  | SslStream (next_layer : StreamType).

Definition is_tls_stream_v (t : StreamType) : bool :=
  match t with SslStream _ => true | OtherStream => false end.

(** ** Contexts *)
Inductive ssl_method := tlsv12_server | tlsv12_client.
Inductive verify_mode := verify_none | verify_peer.

Class SslContext (Ctx W : Type) := {
  make_context : ssl_method → M W Ctx;
  use_certificate_chain_file : string → Ctx → M W ();
  use_private_key_file : string → Ctx → M W ();
  set_verify_mode : verify_mode → Ctx → M W ();
  load_verify_file : string → Ctx → M W ();
  set_default_workarounds : Ctx → M W ()
}.

(** [catch (const std::exception&)] lets other exceptions through. *)
Definition is_std (e : exn) : bool := match e with other_exception _ => false | _ => true end.

Section ClientProviders.
Context {Ctx W : Type} `{!SslContext Ctx W}.

(** The [catch] clauses print and throw on, and what is not a
    [std::exception] passes by them. *)
Definition print_and_throw (e : exn) : M W Ctx := throw e.

Definition DefaultTlsClientContextProvider : M W Ctx :=
  catch (ctx ← make_context tlsv12_client;
         set_verify_mode verify_none ctx ;;
         set_default_workarounds ctx ;;
         mret ctx) print_and_throw.

Definition CaVerifiedTlsClientContextProvider (ca_bundle_path : string) : M W Ctx :=
  catch (ctx ← make_context tlsv12_client;
         set_verify_mode verify_peer ctx ;;
         load_verify_file ca_bundle_path ctx ;;
         set_default_workarounds ctx ;;
         mret ctx) print_and_throw.

Definition SelfSignedTlsClientContextProvider (trusted_cert_path : string) : M W Ctx :=
  catch (ctx ← make_context tlsv12_client;
         set_verify_mode verify_peer ctx ;;
         load_verify_file trusted_cert_path ctx ;;
         set_default_workarounds ctx ;;
         mret ctx) print_and_throw.

(** [GetContext]: the provider is its context. *)
Definition client_GetContext (ctx_ : Ctx) : Ctx := ctx_.

Lemma print_and_throw_same (m : M W Ctx) w : catch m print_and_throw w = m w.
Proof. rw /catch /print_and_throw. by destruct (m w). Qed.

(** What a client may trust: [checks ctx w] says that the peers of [ctx] are
    verified, [trusts p ctx w] that the certificates of file [p] are loaded. *)
Section Trust.
Context (checks : Ctx → W → Prop) (trusts : string → Ctx → W → Prop).
Context (set_checks : ∀ ctx w w', set_verify_mode verify_peer ctx w = Ret () w' → checks ctx w').
Context (load_checks : ∀ p ctx w w', load_verify_file p ctx w = Ret () w' → checks ctx w → checks ctx w').
Context (load_trusts : ∀ p ctx w w', load_verify_file p ctx w = Ret () w' → trusts p ctx w').
Context (options_keep : ∀ ctx w w', set_default_workarounds ctx w = Ret () w' →
  (checks ctx w → checks ctx w') ∧ ∀ p, trusts p ctx w → trusts p ctx w').

Lemma ca_context_verifies p ctx w w' :
  CaVerifiedTlsClientContextProvider p w = Ret ctx w' →
  checks (client_GetContext ctx) w' ∧ trusts p (client_GetContext ctx) w'.
Proof.
  rw /CaVerifiedTlsClientContextProvider print_and_throw_same /mbind /M_bind.
  destruct (make_context tlsv12_client w) as [c w1|e w1|u] eqn:H1; [|done..].
  destruct (set_verify_mode verify_peer c w1) as [[] w2|e w2|u] eqn:H2; [|done..].
  destruct (load_verify_file p c w2) as [[] w3|e w3|u] eqn:H3; [|done..].
  destruct (set_default_workarounds c w3) as [[] w4|e w4|u] eqn:H4; [|done..].
  intros Hr. injection Hr as <- <-. destruct (options_keep _ _ _ H4) as [Hc Ht].
  split; [by eapply Hc, load_checks, set_checks|by eapply Ht, load_trusts].
Qed.
End Trust.
End ClientProviders.
