(* ===== verification/RawBuffer.v ===== *)
(** * RawBuffer: the owning byte buffer (frame/raw_buffer.h, raw_buffer.cc)

    [RawBuffer] is the class's three members.  The member functions of one
    object are functions on the record; [operator_assign] and the sequences of
    operations of a client are on a [store] of objects, because move assignment
    compares addresses and a client moves between objects.  The allocator and
    the deleter are the caller's function pointers: functions on the machine. *)
From S2P Require Import Prelude Machine.

Definition DeleterFn : Type := loc → Z → M mach ().
Definition AllocFn : Type := Z → M mach (option loc).

Record RawBuffer := RB {
  data_ : option loc;
  size_ : Z;
  deleter_ : option DeleterFn
}.

(** [RawBuffer() = default]. *)
Definition empty_buffer : RawBuffer := RB None 0 None.

Definition RawBuffer_data (b : RawBuffer) : option loc := data_ b.
Definition RawBuffer_size (b : RawBuffer) : Z := size_ b.
Definition RawBuffer_valid (b : RawBuffer) : bool :=
  match data_ b with Some _ => (0 <? size_ b)%Z | None => false end.

(** [RawBuffer(void* data, std::size_t size, DeleterFn deleter)]. *)
Definition RawBuffer_ctor {S} (data : option loc) (size : Z)
    (deleter : option DeleterFn) : M S RawBuffer :=
  match data, (size =? 0)%Z, deleter with
  | Some _, false, Some _ => mret (RB data size deleter)
  | _, _, _ => throw (invalid_argument "RawBuffer: invalid construction arguments.")
  end.

(** [RawBuffer::Make]. *)
Definition Make (size : Z) (alloc : option AllocFn) (deleter : option DeleterFn) :
    M mach RawBuffer :=
  match alloc, deleter with
  | Some alloc, Some del =>
      ptr ← alloc size;
      match ptr with
      | None => throw bad_alloc
      | Some _ => RawBuffer_ctor ptr size (Some del)
      end
  | _, _ => throw (invalid_argument
                     "RawBuffer: allocator and deleter must be provided.")
  end.

Definition Reset (b : RawBuffer) : M mach RawBuffer :=
  match data_ b, deleter_ b with
  | Some p, Some del => del p (size_ b)
  | _, _ => mret ()
  end ;;
  mret empty_buffer.

(** [~RawBuffer()]. *)
Definition RawBuffer_dtor (b : RawBuffer) : M mach () := Reset b ;; mret ().

(** [MoveFrom]: the new [*this] and the new [other]. *)
Definition MoveFrom (this other : RawBuffer) : RawBuffer * RawBuffer :=
  (RB (data_ other) (size_ other) (deleter_ other), RB None 0 None).

(** [RawBuffer(RawBuffer&& other)]. *)
Definition move_ctor (other : RawBuffer) : RawBuffer * RawBuffer :=
  MoveFrom empty_buffer other.

(** The body of move assignment for [this != &other]. *)
Definition assign_distinct (this other : RawBuffer) : M mach (RawBuffer * RawBuffer) :=
  this' ← Reset this; mret (MoveFrom this' other).

(** The allocator and deleter SimpleLineFramer passes, and a client may pass. *)
Definition new_alloc : AllocFn := λ s, l ← op_new s; mret (Some l).
Definition new_deleter : DeleterFn := λ p s, op_delete p s.

(** ** A client's objects *)
Definition obj : Type := nat.
Definition store : Type := gmap obj RawBuffer * mach.

Definition get_obj (x : obj) : M store RawBuffer := λ st,
  match st.1 !! x with
  | Some b => Ret b st
  | None => Undef outside_lifetime
  end.
Definition set_obj (x : obj) (b : RawBuffer) : M store () :=
  modify (λ st, (<[x := b]> st.1, st.2)).
Definition drop_obj (x : obj) : M store () :=
  modify (λ st, (delete x st.1, st.2)).

(** [operator=(RawBuffer&& other)]. *)
Definition operator_assign (this other : obj) : M store () :=
  if decide (this = other) then get_obj this ;; mret ()
  else
    b ← get_obj this;
    o ← get_obj other;
    r ← on_snd (assign_distinct b o);
    set_obj this r.1 ;; set_obj other r.2.

Inductive rb_op :=
  | ODefault (x : obj)
  | OMake (x : obj) (size : Z)
  | OMove (x y : obj)
  | OAssign (x y : obj)
  | OReset (x : obj)
  | ODestroy (x : obj).

Definition run_op (o : rb_op) : M store () :=
  match o with
  | ODefault x => set_obj x empty_buffer
  | OMake x size =>
      b ← on_snd (Make size (Some new_alloc) (Some new_deleter)); set_obj x b
  | OMove x y =>
      o ← get_obj y; let r := move_ctor o in set_obj x r.1 ;; set_obj y r.2
  | OAssign x y => operator_assign x y
  | OReset x => b ← get_obj x; b' ← on_snd (Reset b); set_obj x b'
  | ODestroy x => b ← get_obj x; on_snd (RawBuffer_dtor b) ;; drop_obj x
  end.

(** An operation a client may perform: constructors make new objects, the
    other operations act on live ones. *)
Definition op_enabled (o : rb_op) (st : store) : bool :=
  let live x := bool_decide (is_Some (st.1 !! x)) in
  match o with
  | ODefault x => negb (live x)
  | OMake x size => negb (live x) && bool_decide (is_u64 size)
  | OMove x y => negb (live x) && live y
  | OAssign x y => live x && live y
  | OReset x | ODestroy x => live x
  end.

(** The store after an operation, whether it returned or threw. *)
Definition state_after {S A} (r : outcome S A) : option S :=
  match r with Ret _ s | Throw _ s => Some s | Undef _ => None end.

(** A client program: operations in sequence, exceptions caught by the client.
    An operation the language does not let a client perform (a second
    construction, a use of an object that is not alive) is left out; [None] is
    undefined behaviour. *)
Fixpoint run_ops (ops : list rb_op) (st : store) : option store :=
  match ops with
  | [] => Some st
  | o :: ops =>
      if op_enabled o st
      then st' ← state_after (run_op o st); run_ops ops st'
      else run_ops ops st
  end.

Definition makes_empty_buffer (o : rb_op) : bool :=
  match o with OMake _ size => (size =? 0)%Z | _ => false end.

Definition store0 (m : mach) : store := (∅, m).

(** ** Ownership

    [owned os h]: every object of [os] is empty or owns a live block of its
    size, which it frees with [::operator delete], and no two objects own the
    same block.  [no_leak os h]: every live block has an owner. *)
Definition buffer_ok (h : gmap loc block) (b : RawBuffer) : Prop :=
  b = empty_buffer ∨
  ∃ p blk, b = RB (Some p) (Z.of_nat (length blk)) (Some new_deleter)
           ∧ h !! p = Some blk ∧ blk ≠ [].

Definition owned (os : gmap obj RawBuffer) (h : gmap loc block) : Prop :=
  (∀ x b, os !! x = Some b → buffer_ok h b) ∧
  (∀ x y b c p, os !! x = Some b → os !! y = Some c →
     data_ b = Some p → data_ c = Some p → x = y).

Definition no_leak (os : gmap obj RawBuffer) (h : gmap loc block) : Prop :=
  ∀ p, is_Some (h !! p) → ∃ x b, os !! x = Some b ∧ data_ b = Some p.

Definition release (b : RawBuffer) (h : gmap loc block) : gmap loc block :=
  match data_ b with Some p => delete p h | None => h end.

(** An object that holds nothing: none, or an empty one. *)
Definition holds_nothing (os : gmap obj RawBuffer) (x : obj) : Prop :=
  ∀ b, os !! x = Some b → data_ b = None.

Section ownership_lemmas.
Implicit Types (os : gmap obj RawBuffer) (h : gmap loc block) (b : RawBuffer).

Lemma buffer_ok_empty h : buffer_ok h empty_buffer.
Proof. by left. Qed.

Lemma buffer_ok_insert h b p blk :
  h !! p = None → buffer_ok h b → buffer_ok (<[p := blk]> h) b.
Proof.
  intros Hp [->|(q & bq & -> & Hq & Hne)]; [by left|right].
  exists q, bq. split_and!; [done| |done].
  rw lookup_insert_ne; [congruence|done].
Qed.

Lemma buffer_ok_delete h b p :
  data_ b ≠ Some p → buffer_ok h b → buffer_ok (delete p h) b.
Proof.
  intros Hp [->|(q & bq & -> & Hq & Hne)]; [by left|right].
  exists q, bq. split_and!; [done| |done].
  rw lookup_delete_ne; [|done]. intros ->. by apply Hp.
Qed.

Lemma owned_empty h : owned ∅ h.
Proof. split; intros *; by rw lookup_empty. Qed.

Lemma owned_leak os h p blk :
  h !! p = None → owned os h → owned os (<[p := blk]> h).
Proof. intros Hp [H1 H2]. split; [|done]. eauto using buffer_ok_insert. Qed.

Lemma owned_alloc os h x p blk :
  os !! x = None → h !! p = None → blk ≠ [] → owned os h →
  owned (<[x := RB (Some p) (Z.of_nat (length blk)) (Some new_deleter)]> os)
        (<[p := blk]> h).
Proof.
  intros Hx Hp Hne [H1 H2].
  assert (Hnot : ∀ y c, os !! y = Some c → data_ c ≠ Some p).
  { intros y c Hy Hc. destruct (H1 y c Hy) as [->|(q&bq&->&Hq&_)]; [done|].
    by simplify_eq/=. }
  split.
  - intros y b Hy. destruct (decide (x = y)) as [->|Hxy].
    + rw lookup_insert_eq in Hy. simplify_eq. right.
      exists p, blk. by rw lookup_insert_eq.
    + rw lookup_insert_ne in Hy; [done|]. eauto using buffer_ok_insert.
  - intros y z b c q. rw !lookup_insert.
    repeat case_decide; naive_solver.
Qed.

Lemma owned_set_empty os h x :
  owned os h → owned (<[x := empty_buffer]> os) h.
Proof.
  intros [H1 H2]. split.
  - intros y b. rw lookup_insert. case_decide; [|eauto].
    intros. simplify_eq. by left.
  - intros y z b c q. rw !lookup_insert.
    repeat case_decide; naive_solver.
Qed.

Lemma owned_drop os h x : owned os h → owned (delete x os) h.
Proof.
  intros [H1 H2]. split.
  - intros y b [_ Hy]%lookup_delete_Some. eauto.
  - intros y z b c q [_ ?]%lookup_delete_Some [_ ?]%lookup_delete_Some. eauto.
Qed.

Lemma owned_release os h x b :
  os !! x = Some b → owned os h →
  owned (<[x := empty_buffer]> os) (release b h).
Proof.
  intros Hx [H1 H2]. rw /release.
  destruct (data_ b) as [p|] eqn:Hp; [|by apply owned_set_empty].
  split.
  - intros y c. rw lookup_insert. case_decide; intros Hy; [simplify_eq; by left|].
    apply buffer_ok_delete; [|eauto]. intros Hc. naive_solver.
  - apply (owned_set_empty os h x (conj H1 H2)).
Qed.

Lemma owned_move os h x y b :
  os !! y = Some b → x ≠ y → holds_nothing os x → owned os h →
  owned (<[y := empty_buffer]> (<[x := b]> os)) h.
Proof.
  intros Hy Hxy Hx [H1 H2]. split.
  - intros z c. rw !lookup_insert. repeat case_decide; intros; simplify_eq.
    all: eauto using buffer_ok_empty.
  - intros z w c d q. rw !lookup_insert.
    repeat case_decide; intros; simplify_eq; try done; naive_solver.
Qed.

Lemma owned_dtor os h x b :
  os !! x = Some b → owned os h → owned (delete x os) (release b h).
Proof.
  intros Hx Ho. rw -(delete_insert_eq os x empty_buffer).
  by apply owned_drop, owned_release.
Qed.

Lemma owned_assign os h x y a b :
  os !! x = Some a → os !! y = Some b → x ≠ y → owned os h →
  owned (<[y := empty_buffer]> (<[x := b]> os)) (release a h).
Proof.
  intros Hx Hy Hxy Ho. rw -(insert_insert_eq os x b empty_buffer).
  apply owned_move; [by rw lookup_insert_ne|done| |by apply owned_release].
  intros c. rw lookup_insert_eq. intros. by simplify_eq.
Qed.
End ownership_lemmas.

(** The invariant: [owned], and [no_leak] when [strict]. *)
Definition ownership (strict : bool) (os : gmap obj RawBuffer)
    (h : gmap loc block) : Prop :=
  owned os h ∧ (strict = true → no_leak os h).

Section no_leak_lemmas.
Implicit Types (os : gmap obj RawBuffer) (h : gmap loc block) (b : RawBuffer).

Lemma no_leak_set os h x b :
  holds_nothing os x → no_leak os h → no_leak (<[x := b]> os) h.
Proof.
  intros Hx Hl p Hp. destruct (Hl p Hp) as (y & c & Hy & Hc).
  exists y, c. split; [|done]. rw lookup_insert_ne; [|done].
  intros ->. specialize (Hx c Hy). congruence.
Qed.

Lemma no_leak_drop os h x :
  holds_nothing os x → no_leak os h → no_leak (delete x os) h.
Proof.
  intros Hx Hl p Hp. destruct (Hl p Hp) as (y & c & Hy & Hc).
  exists y, c. split; [|done]. rw lookup_delete_ne; [|done].
  intros ->. specialize (Hx c Hy). congruence.
Qed.

Lemma no_leak_alloc os h x b p blk :
  holds_nothing os x → data_ b = Some p → no_leak os h →
  no_leak (<[x := b]> os) (<[p := blk]> h).
Proof.
  intros Hx Hb Hl q. rw lookup_insert. case_decide as Hpq; intros Hq.
  - subst q. exists x, b. by rw lookup_insert_eq.
  - exact (no_leak_set os h x b Hx Hl q Hq).
Qed.

Lemma no_leak_release os h x b :
  os !! x = Some b → no_leak os h →
  no_leak (<[x := empty_buffer]> os) (release b h).
Proof.
  intros Hx Hl q Hq.
  assert (Hh : is_Some (h !! q) ∧ data_ b ≠ Some q).
  { rw /release in Hq. destruct (data_ b) as [p|]; [|by split].
    rw lookup_delete in Hq. case_decide; [by destruct Hq|].
    split; [done|congruence]. }
  destruct Hh as [Hh Hb]. destruct (Hl q Hh) as (y & c & Hy & Hc).
  exists y, c. split; [|done]. rw lookup_insert_ne; [|done].
  intros ->. congruence.
Qed.

Lemma no_leak_move os h x y b :
  os !! y = Some b → x ≠ y → holds_nothing os x → no_leak os h →
  no_leak (<[y := empty_buffer]> (<[x := b]> os)) h.
Proof.
  intros Hy Hxy Hx Hl p Hp. destruct (Hl p Hp) as (z & c & Hz & Hc).
  destruct (decide (z = y)) as [->|Hzy].
  - assert (c = b) as -> by congruence. exists x, b. split; [|done].
    rw lookup_insert_ne; [done|]. apply lookup_insert_eq.
  - exists z, c. split; [|done]. rw lookup_insert_ne; [done|].
    rw lookup_insert_ne; [|done]. intros ->. specialize (Hx c Hz). congruence.
Qed.

Lemma no_leak_assign os h x y a b :
  os !! x = Some a → os !! y = Some b → x ≠ y → no_leak os h →
  no_leak (<[y := empty_buffer]> (<[x := b]> os)) (release a h).
Proof.
  intros Hx Hy Hxy Ho. rw -(insert_insert_eq os x b empty_buffer).
  apply no_leak_move; [by rw lookup_insert_ne|done| |by apply no_leak_release].
  intros c. rw lookup_insert_eq. intros. by simplify_eq.
Qed.

Lemma no_leak_dtor os h x b :
  os !! x = Some b → no_leak os h → no_leak (delete x os) (release b h).
Proof.
  intros Hx Hl. rw -(delete_insert_eq os x empty_buffer).
  apply no_leak_drop; [|by apply no_leak_release].
  intros c. rw lookup_insert_eq. intros. by simplify_eq.
Qed.
End no_leak_lemmas.

Lemma holds_nothing_None (os : gmap obj RawBuffer) x :
  os !! x = None → holds_nothing os x.
Proof. intros Hx b. congruence. Qed.

Lemma holds_nothing_empty (os : gmap obj RawBuffer) x :
  os !! x = Some empty_buffer → holds_nothing os x.
Proof. intros Hx b ?. by simplify_eq. Qed.

Create HintDb ownership discriminated.
#[export] Hint Resolve holds_nothing_None holds_nothing_empty owned_leak
  owned_alloc owned_set_empty owned_release owned_move owned_assign owned_dtor
  no_leak_set no_leak_alloc no_leak_release no_leak_move no_leak_assign
  no_leak_dtor : ownership.

Lemma wp_Reset b m Q E :
  buffer_ok (heap m) b →
  Q empty_buffer (set_heap (release b (heap m)) m) → wp (Reset b) Q E m.
Proof.
  intros [->|(p & blk & -> & Hp & _)] HQ; rw /Reset /=; wp_steps.
  - by destruct m.
  - by eapply wp_op_delete.
Qed.

Lemma wp_new_alloc s m Q (E : exn → mach → Prop) :
  (∀ l m', heap m !! l = None →
     heap m' = <[l := replicate (Z.to_nat s) None]> (heap m) → Q (Some l) m') →
  (∀ m', heap m' = heap m → E bad_alloc m') →
  wp (new_alloc s) Q E m.
Proof.
  intros HQ HE. rw /new_alloc. wp_step. rw /wp /op_new.
  destruct (oom m (nallocs m)); [by apply HE|]. rw /=.
  apply HQ; [|done]. apply not_elem_of_dom, is_fresh.
Qed.

(** [Make] with the global allocator: it returns an owner of a fresh block,
    or throws; with size 0 it throws and the block it allocated stays. *)
Lemma wp_Make_new s m Q (E : exn → mach → Prop) :
  is_u64 s →
  (∀ l m' blk, heap m !! l = None → blk = replicate (Z.to_nat s) None →
     s = Z.of_nat (length blk) → blk ≠ [] → heap m' = <[l := blk]> (heap m) →
     Q (RB (Some l) (Z.of_nat (length blk)) (Some new_deleter)) m') →
  (∀ m', heap m' = heap m → E bad_alloc m') →
  (∀ l m', s = 0%Z → heap m !! l = None → heap m' = <[l := []]> (heap m) →
     E (invalid_argument "RawBuffer: invalid construction arguments.") m') →
  wp (Make s (Some new_alloc) (Some new_deleter)) Q E m.
Proof.
  rw /is_u64. intros Hs HQ Hbad Hzero. rw /Make. wp_step.
  apply wp_new_alloc; [|done]. intros l m' Hl Hm'. rw /RawBuffer_ctor.
  destruct (Z.eqb_spec s 0) as [->|Hne]; wp_step.
  - by eapply Hzero.
  - assert (Hlen : s = Z.of_nat (length (replicate (Z.to_nat s) (@None byte))))
      by (rw length_replicate; lia).
    rw {1}Hlen. eapply HQ; [done|done|done| |done].
    destruct (Z.to_nat s) eqn:?; [lia|done].
Qed.

(** [Make] when the allocation succeeds, as equations. *)
Lemma Make_new_positive s m :
  oom m (nallocs m) = false → (0 < s)%Z →
  ∃ l m', Make s (Some new_alloc) (Some new_deleter) m
            = Ret (RB (Some l) s (Some new_deleter)) m'
          ∧ heap m !! l = None
          ∧ heap m' = <[l := replicate (Z.to_nat s) None]> (heap m)
          ∧ oom m' = oom m.
Proof.
  intros Hoom Hs. exists (fresh (dom (heap m))). eexists. split_and!.
  - rw /Make /new_alloc /mbind /M_bind /op_new Hoom /= /RawBuffer_ctor.
    destruct (Z.eqb_spec s 0); [lia|done].
  - apply not_elem_of_dom, is_fresh.
  - done.
  - done.
Qed.

Lemma Make_new_zero m :
  oom m (nallocs m) = false →
  ∃ l m', Make 0 (Some new_alloc) (Some new_deleter) m
            = Throw (invalid_argument
                       "RawBuffer: invalid construction arguments.") m'
          ∧ heap m !! l = None ∧ heap m' = <[l := []]> (heap m)
          ∧ oom m' = oom m.
Proof.
  intros Hoom. exists (fresh (dom (heap m))). eexists. split_and!.
  - by rw /Make /new_alloc /mbind /M_bind /op_new Hoom.
  - apply not_elem_of_dom, is_fresh.
  - done.
  - done.
Qed.

Lemma owned_buffer_ok os h x b : owned os h → os !! x = Some b → buffer_ok h b.
Proof. intros [H _]. apply H. Qed.

Lemma wp_get_obj x b (os : gmap obj RawBuffer) m Q E :
  os !! x = Some b → Q b (os, m) → wp (get_obj x) Q E (os, m).
Proof. intros Hx HQ. by rw /wp /get_obj /= Hx. Qed.

Lemma RawBuffer_eta b : RB (data_ b) (size_ b) (deleter_ b) = b.
Proof. by destruct b. Qed.

(** Every enabled operation keeps the ownership invariant, and has no
    undefined behaviour. *)
Lemma run_op_ownership strict o os m :
  op_enabled o (os, m) = true →
  (strict = true → makes_empty_buffer o = false) →
  ownership strict os (heap m) →
  wp (run_op o) (λ _ st, ownership strict st.1 (heap st.2))
     (λ _ st, ownership strict st.1 (heap st.2)) (os, m).
Proof.
  intros Hen Hz [Ho Hl]. destruct o as [x|x s|x y|x y|x|x]; rw /= in Hen; simp_bools.
  - apply wp_modify. split; eauto with ownership.
  - wp_step. apply wp_on_snd, wp_Make_new; [done| | |]; cbn.
    + intros l m' blk Hfresh _ Hs Hne Hm'. rw Hm'. split; eauto with ownership.
    + intros m' Hm'. by rw Hm'.
    + intros l m' -> Hfresh Hm'. rw Hm'. split; [eauto with ownership|].
      by intros Hst%Hz.
  - assert (x ≠ y) by congruence.
    wp_step. eapply wp_get_obj; [done|]. wp_steps. cbn. rw RawBuffer_eta.
    split; eauto with ownership.
  - rw /operator_assign. case_decide as Hxy; wp_step; (eapply wp_get_obj; [done|]).
    + done.
    + wp_step. eapply wp_get_obj; [done|]. wp_step. apply wp_on_snd.
      rw /assign_distinct. wp_step. apply wp_Reset; [eauto using owned_buffer_ok|].
      wp_steps. cbn. rw RawBuffer_eta. split; eauto with ownership.
  - wp_step. eapply wp_get_obj; [done|]. wp_step. apply wp_on_snd, wp_Reset.
    + eauto using owned_buffer_ok.
    + split; cbn; eauto with ownership.
  - wp_step. eapply wp_get_obj; [done|]. wp_step. apply wp_on_snd.
    rw /RawBuffer_dtor. wp_step. apply wp_Reset; [eauto using owned_buffer_ok|].
    split; cbn; eauto with ownership.
Qed.

Lemma state_after_wp {S A} (m : M S A) (P : S → Prop) s :
  wp m (λ _, P) (λ _, P) s → ∃ s', state_after (m s) = Some s' ∧ P s'.
Proof. rw /wp. destruct (m s); naive_solver. Qed.

Lemma run_ops_ownership strict ops os m :
  (strict = true → Forall (λ o, makes_empty_buffer o = false) ops) →
  ownership strict os (heap m) →
  ∃ st, run_ops ops (os, m) = Some st ∧ ownership strict st.1 (heap st.2).
Proof.
  revert os m. induction ops as [|o ops IH]; intros os m Hz Ho; [by eauto|].
  assert (Hz1 : strict = true → makes_empty_buffer o = false).
  { intros Hst. by apply Hz, Forall_cons_1 in Hst as [? _]. }
  assert (Hz2 : strict = true → Forall (λ o, makes_empty_buffer o = false) ops).
  { intros Hst. by apply Hz, Forall_cons_1 in Hst as [_ ?]. }
  rw /=. destruct (op_enabled o (os, m)) eqn:Hen; [|by apply IH].
  destruct (state_after_wp _ (λ st, ownership strict st.1 (heap st.2)) _
              (run_op_ownership strict o os m Hen Hz1 Ho)) as ([os' m'] & Hst' & ?).
  rw Hst' /=. by apply IH.
Qed.

(** ** Properties *)

(** C22: no sequence of client operations (construction, allocation, move
    construction, move assignment and self-assignment, reset, destruction, with
    allocations failing or not) reaches undefined behaviour such as a double
    free, and afterwards every object is empty or is the only owner of a live
    block of its size. *)
Theorem raw_buffer_safe (ops : list rb_op) (m : mach) :
  ∃ st, run_ops ops (store0 m) = Some st ∧ owned st.1 (heap st.2).
Proof.
  destruct (run_ops_ownership false ops ∅ m) as (st & ? & ? & _); [done| |by eauto].
  by split; [apply owned_empty|].
Qed.

(** When no buffer of size 0 is made, a client that has destroyed all its
    objects has freed every block. *)
Theorem raw_buffer_no_leak (ops : list rb_op) (m : mach) (st : store)
    (Hheap : heap m = ∅)
    (Hops : Forall (λ o, makes_empty_buffer o = false) ops)
    (Hrun : run_ops ops (store0 m) = Some st)
    (Hend : st.1 = ∅) :
  heap st.2 = ∅.
Proof.
  destruct (run_ops_ownership true ops ∅ m) as (st' & Hst' & _ & Hl); [done| |].
  { split; [apply owned_empty|]. intros _ p [? Hp]. by rw Hheap in Hp. }
  rw Hrun in Hst'. simplify_eq. apply map_empty. intros p.
  apply eq_None_not_Some. intros Hp.
  destruct (Hl eq_refl p Hp) as (x & b & Hx & _). by rw Hend lookup_empty in Hx.
Qed.

Definition witness_ops : list rb_op :=
  [OMake 0 16; OMake 1 8; OMove 2 0; OAssign 1 2; OAssign 1 1; OReset 0;
   ODefault 3; OAssign 3 1; ODestroy 0; ODestroy 1; ODestroy 2; ODestroy 3].

Lemma raw_buffer_no_leak_witness :
  ∃ st, run_ops witness_ops (store0 mach0) = Some st ∧ st.1 = ∅ ∧ heap st.2 = ∅.
Proof.
  destruct (run_ops witness_ops (store0 mach0)) as [st|] eqn:Hrun.
  - exists st. split; [done|].
    assert (Hend : st.1 = ∅) by (vm_compute in Hrun; by simplify_eq).
    split; [done|].
    apply (raw_buffer_no_leak witness_ops mach0 st); [done| |done|done].
    by repeat constructor.
  - by vm_compute in Hrun.
Defined.

(** [Make(0, ...)] with the global allocator throws, and the block it has
    allocated stays allocated although nothing owns it. *)
Theorem make_zero_leaks (m : mach) (Hoom : oom m (nallocs m) = false) :
  ∃ l m', Make 0 (Some new_alloc) (Some new_deleter) m
            = Throw (invalid_argument
                       "RawBuffer: invalid construction arguments.") m'
          ∧ heap m !! l = None ∧ heap m' = <[l := []]> (heap m).
Proof.
  destruct (Make_new_zero m Hoom) as (l & m' & ? & ? & ? & _). by exists l, m'.
Qed.

Lemma make_zero_leaks_witness :
  oom mach0 (nallocs mach0) = false ∧
  ∃ l m', Make 0 (Some new_alloc) (Some new_deleter) mach0
            = Throw (invalid_argument
                       "RawBuffer: invalid construction arguments.") m'
          ∧ heap mach0 !! l = None ∧ heap m' = <[l := []]> (heap mach0).
Proof. split; [done|]. by apply (make_zero_leaks mach0). Defined.
