(* ===== verification/RawBufferTests.v ===== *)
(** * The buffer's own tests (tests/frame/rawbuffer/rawbuffer_test.cc)

    Each test case as a program on the modelled class: its local objects, their
    destruction at the end of their scopes, [std::malloc] and [std::free], and the
    static [dele_called], a byte in memory that the test's deleter sets.  A
    requirement that does not hold throws, as Catch2's does.  Every test case passes
    on every machine whose allocations succeed, and gives all memory back. *)
From S2P Require Import Prelude Machine RawBuffer.

(** ** The run time *)

(** [std::malloc(n)], [std::free(p)] for [p] not null. *)
Definition malloc (n : Z) : M mach (option loc) := λ m,
  match op_new n m with
  | Ret l m' => Ret (Some l) m'
  | Throw _ m' => Ret None m'
  | Undef u => Undef u
  end.

Definition free (p : loc) : M mach () := λ m,
  match heap m !! p with
  | Some _ => Ret () (set_heap (delete p (heap m)) m)
  | None => Undef bad_free
  end.

(** A failed requirement ends the test case. *)
Definition test_failure : exn := other_exception 1.

Definition REQUIRE {S} (b : bool) : M S () := if b then mret () else throw test_failure.
Definition REQUIRE_FALSE {S} (b : bool) : M S () := REQUIRE (negb b).

Definition REQUIRE_THROWS_AS {S A} (m : M S A) (expected : exn → bool) : M S () := λ s,
  match m s with
  | Ret _ s' => Throw test_failure s'
  | Throw e s' => if expected e then Ret () s' else Throw test_failure s'
  | Undef u => Undef u
  end.

Definition is_invalid_argument (e : exn) : bool :=
  match e with invalid_argument _ => true | _ => false end.
Definition is_bad_alloc (e : exn) : bool := match e with bad_alloc => true | _ => false end.

Definition REQUIRE_NOTHROW {S} (m : M S ()) : M S () := catch m (λ _, throw test_failure).

(** A byte on the stack for the time of [body]. *)
Definition with_char {A} (body : loc → M mach A) : M mach A := λ m,
  let l := fresh (dom (heap m)) in
  (a ← catch (body l) (λ e, modify (λ m, set_heap (delete l (heap m)) m) ;; throw e);
   modify (λ m, set_heap (delete l (heap m)) m) ;; mret a)
    (set_heap (<[l := [None]]> (heap m)) m).

Section Tests.
(** [static bool dele_called]. *)
Context (dele_called : loc).

Definition set_dele_called (b : bool) : M mach () :=
  mem_write dele_called 0 [Some (if b then Byte.x01 else Byte.x00)].
Definition get_dele_called : M mach bool :=
  x ← mem_load dele_called 0; mret (bool_decide (x ≠ Byte.x00)).

Definition test_alloc : AllocFn := malloc.
Definition test_deleter : DeleterFn := λ p _, set_dele_called true ;; free p.

(** ** A test's local objects *)
Definition declare (x : obj) (make : M mach RawBuffer) : M store () :=
  b ← on_snd make; set_obj x b.

(** The object [x] is destroyed when [body] ends or throws. *)
Definition scope (x : obj) (body : M store ()) : M store () :=
  catch body (λ e, run_op (ODestroy x) ;; throw e) ;; run_op (ODestroy x).

Definition valid (x : obj) : M store bool := b ← get_obj x; mret (RawBuffer_valid b).
Definition data (x : obj) : M store (option loc) := b ← get_obj x; mret (RawBuffer_data b).
Definition size (x : obj) : M store Z := b ← get_obj x; mret (RawBuffer_size b).

Definition is_null (p : option loc) : bool := match p with None => true | Some _ => false end.

Definition buf : obj := 0.
Definition a : obj := 1.
Definition b : obj := 2.

(** ["Default-constructed RawBuffer is empty"]. *)
Definition default_test : M store () :=
  run_op (ODefault buf) ;;
  scope buf
    (v ← valid buf; REQUIRE_FALSE v ;;
     p ← data buf; REQUIRE (is_null p) ;;
     n ← size buf; REQUIRE (n =? 0)%Z).

(** ["Reset on default RawBuffer is no-op"]. *)
Definition reset_test : M store () :=
  run_op (ODefault buf) ;;
  scope buf
    (on_snd (set_dele_called false) ;;
     run_op (OReset buf) ;;
     d ← on_snd get_dele_called; REQUIRE_FALSE d).

Definition make (n : Z) : M mach RawBuffer := Make n (Some test_alloc) (Some test_deleter).

(** ["Make() allocates memory and Reset() releases it"]. *)
Definition make_test : M store () :=
  on_snd (set_dele_called false) ;;
  declare buf (make 16) ;;
  scope buf
    (v ← valid buf; REQUIRE v ;;
     n ← size buf; REQUIRE (n =? 16)%Z ;;
     p ← data buf; REQUIRE (negb (is_null p)) ;;
     p ← data buf;
     match p with
     | None => undef null_dereference
     | Some p =>
         on_snd (mem_write p 0 [Some Byte.xab]) ;;
         x ← on_snd (mem_load p 0); REQUIRE (bool_decide (x = Byte.xab))
     end ;;
     run_op (OReset buf) ;;
     v ← valid buf; REQUIRE_FALSE v ;;
     d ← on_snd get_dele_called; REQUIRE d ;;
     p ← data buf; REQUIRE (is_null p) ;;
     n ← size buf; REQUIRE (n =? 0)%Z).

(** ["Destructor calls deleter on scope exit"]. *)
Definition scope_test : M store () :=
  on_snd (set_dele_called false) ;;
  declare buf (make 8) ;;
  scope buf (d ← on_snd get_dele_called; REQUIRE_FALSE d) ;;
  d ← on_snd get_dele_called; REQUIRE d.

(** ["Raw-pointer constructor works and Reset() frees"]. *)
Definition raw_test : M store () :=
  on_snd (set_dele_called false) ;;
  ptr ← on_snd (malloc 4);
  declare buf (RawBuffer_ctor ptr 4 (Some test_deleter)) ;;
  scope buf
    (v ← valid buf; REQUIRE v ;;
     n ← size buf; REQUIRE (n =? 4)%Z ;;
     run_op (OReset buf) ;;
     d ← on_snd get_dele_called; REQUIRE d).

(** ["Constructor rejects invalid inputs"]. *)
Definition reject_test : M store () :=
  on_snd (with_char (λ dummy,
    REQUIRE_THROWS_AS (RawBuffer_ctor None 1 (Some test_deleter)) is_invalid_argument ;;
    REQUIRE_THROWS_AS (RawBuffer_ctor (Some dummy) 0 (Some test_deleter)) is_invalid_argument ;;
    REQUIRE_THROWS_AS (RawBuffer_ctor (Some dummy) 1 None) is_invalid_argument)).

(** ["Make() rejects null funcs or alloc failure"]. *)
Definition null_alloc : AllocFn := λ _, mret None.

Definition make_reject_test : M store () :=
  on_snd (REQUIRE_THROWS_AS (Make 8 None (Some test_deleter)) is_invalid_argument) ;;
  on_snd (REQUIRE_THROWS_AS (Make 8 (Some test_alloc) None) is_invalid_argument) ;;
  on_snd (REQUIRE_THROWS_AS (Make 8 (Some null_alloc) (Some test_deleter)) is_bad_alloc).

(** ["Move constructor transfers ownership"]. *)
Definition move_test : M store () :=
  declare a (make 12) ;;
  scope a
    (run_op (OMove b a) ;;
     scope b
       (v ← valid b; REQUIRE v ;;
        v ← valid a; REQUIRE_FALSE v)).

(** ["Move assignment transfers and resets previous"]. *)
Definition assign_test : M store () :=
  declare a (make 3) ;;
  scope a
    (declare b (make 1) ;;
     scope b
       (on_snd (set_dele_called false) ;;
        run_op (OAssign b a) ;;
        v ← valid b; REQUIRE v ;;
        v ← valid a; REQUIRE_FALSE v)).

(** ["Self move-assignment is safe"]. *)
Definition self_test : M store () :=
  declare buf (make 5) ;;
  scope buf
    (REQUIRE_NOTHROW (run_op (OAssign buf buf)) ;;
     v ← valid buf; REQUIRE v ;;
     n ← size buf; REQUIRE (n =? 5)%Z).

Definition raw_buffer_tests : list (M store ()) :=
  [default_test; reset_test; make_test; scope_test; raw_test; reject_test; make_reject_test;
   move_test; assign_test; self_test].
End Tests.

Section Passing.
Context (dele_called : loc).
Implicit Types (m : mach) (F : gmap loc block) (f : bool).

(** The flag is [f] and the rest of the heap [F]; allocations succeed. *)
Record memory F f m : Prop := {
  memory_heap : heap m = <[dele_called := [Some (if f then Byte.x01 else Byte.x00)]]> F;
  memory_flag : F !! dele_called = None;
  memory_room : never_oom m
}.

Lemma memory_lookup F f m l blk : memory F f m → F !! l = Some blk → heap m !! l = Some blk.
Proof. intros [-> Hf _] Hl. rw lookup_insert_ne; [congruence|done]. Qed.

Lemma memory_set F f m l blk :
  memory F f m → is_Some (F !! l) → memory (<[l := blk]> F) f (set_heap (<[l := blk]> (heap m)) m).
Proof.
  intros [Hh Hf Hr] [blk' Hl]. assert (l ≠ dele_called) by congruence.
  split; [by rw /= Hh insert_insert_ne|by rw lookup_insert_ne|done].
Qed.

Lemma memory_free F f m l :
  memory F f m → is_Some (F !! l) → memory (delete l F) f (set_heap (delete l (heap m)) m).
Proof.
  intros [Hh Hf Hr] [blk Hl]. assert (l ≠ dele_called) by congruence.
  split; [by rw /= Hh delete_insert_ne|by rw lookup_delete_ne|done].
Qed.

Lemma wp_set_dele_called F f f' m (Q : () → mach → Prop) E :
  memory F f m → (∀ m', memory F f' m' → Q () m') → wp (set_dele_called dele_called f') Q E m.
Proof.
  intros [Hh Hf Hr] HQ. rw /set_dele_called. eapply wp_mem_write; [by rw Hh lookup_insert_eq|done|].
  apply HQ. split; [|done|done]. by rw /= Hh insert_insert_eq.
Qed.

Lemma wp_get_dele_called F f m (Q : bool → mach → Prop) E :
  memory F f m → Q f m → wp (get_dele_called dele_called) Q E m.
Proof.
  intros [Hh Hf Hr] HQ. rw /get_dele_called. wp_step. eapply wp_mem_load; [by rw Hh lookup_insert_eq|done|].
  wp_step. by destruct f.
Qed.

Lemma wp_malloc F f m n (Q : option loc → mach → Prop) E :
  memory F f m →
  (∀ l m', F !! l = None → memory (<[l := replicate (Z.to_nat n) None]> F) f m' → Q (Some l) m') →
  wp (malloc n) Q E m.
Proof.
  intros [Hh Hf Hr] HQ. rw /wp /malloc /op_new Hr. set (l := fresh _).
  assert (Hl : heap m !! l = None) by apply not_elem_of_dom, is_fresh. clearbody l.
  rw Hh lookup_insert in Hl. case_decide; [done|].
  apply HQ; [done|]. split; [by rw /= Hh insert_insert_ne|by rw lookup_insert_ne|done].
Qed.

Lemma wp_make F f m n (Q : RawBuffer → mach → Prop) E :
  memory F f m → (0 < n)%Z →
  (∀ l m', F !! l = None → memory (<[l := replicate (Z.to_nat n) None]> F) f m' →
     Q (RB (Some l) n (Some (test_deleter dele_called))) m') →
  wp (make dele_called n) Q E m.
Proof.
  intros Hm Hn HQ. rw /make /Make. wp_step. apply (wp_malloc F f); [done|].
  intros l m' Hl Hm'. rw /RawBuffer_ctor. destruct (Z.eqb_spec n 0); [lia|]. by apply HQ.
Qed.

Lemma wp_Reset_test F f m l n (Q : RawBuffer → mach → Prop) E :
  memory F f m → is_Some (F !! l) → (∀ m', memory (delete l F) true m' → Q empty_buffer m') →
  wp (Reset (RB (Some l) n (Some (test_deleter dele_called)))) Q E m.
Proof.
  intros Hm Hl HQ. rw /Reset /=. wp_step. rw /test_deleter. wp_step.
  apply (wp_set_dele_called F f); [done|]. intros m1 Hm1. rw /wp /free.
  destruct Hl as [blk Hl]. rw (memory_lookup F true m1 l blk) //.
  apply HQ, memory_free; [done|by exists blk].
Qed.

(** A test case passes: whatever the flag is, it ends with its objects destroyed
    and all its memory given back. *)
Definition passes (t : M store ()) : Prop := ∀ F f m,
  memory F f m → wp t (λ _ st, st.1 = ∅ ∧ ∃ f', memory F f' st.2) no_throw (∅, m).

Lemma wp_REQUIRE {S} (c : bool) (Q : () → S → Prop) E s : c = true → Q () s → wp (REQUIRE c) Q E s.
Proof. by intros ->. Qed.

Lemma wp_scope x body (Q : () → store → Prop) E st :
  wp body (λ _ st', wp (run_op (ODestroy x)) Q E st') no_throw st → wp (scope x body) Q E st.
Proof.
  intros Hb. rw /scope. wp_step. wp_step. eapply wp_mono; [exact Hb|done|done].
Qed.

Lemma wp_declare x make (os : gmap obj RawBuffer) m Q E :
  wp make (λ c m', Q () (<[x := c]> os, m')) (λ e m', E e (os, m')) m → wp (declare x make) Q E (os, m).
Proof. intros Hm. rw /declare. wp_step. wp_step. eapply wp_mono; [exact Hm|done|done]. Qed.

Lemma wp_on_object {A} x (g : RawBuffer → A) c (os : gmap obj RawBuffer) m Q E :
  os !! x = Some c → Q (g c) (os, m) → wp (b ← get_obj x; mret (g b)) Q E (os, m).
Proof. intros Hx HQ. wp_step. eapply wp_get_obj; [done|]. by wp_step. Qed.

Lemma wp_OReset x c (os : gmap obj RawBuffer) m Q E :
  os !! x = Some c → wp (Reset c) (λ c' m', Q () (<[x := c']> os, m')) (λ e m', E e (os, m')) m →
  wp (run_op (OReset x)) Q E (os, m).
Proof.
  intros Hx Hr. rw /run_op. wp_step. eapply wp_get_obj; [done|]. do 2 wp_step.
  eapply wp_mono; [exact Hr|done|done].
Qed.

Lemma wp_ODestroy x c (os : gmap obj RawBuffer) m Q E :
  os !! x = Some c → wp (Reset c) (λ _ m', Q () (delete x os, m')) (λ e m', E e (os, m')) m →
  wp (run_op (ODestroy x)) Q E (os, m).
Proof.
  intros Hx Hr. rw /run_op. wp_step. eapply wp_get_obj; [done|]. do 2 wp_step. rw /RawBuffer_dtor.
  wp_step. eapply wp_mono; [exact Hr|done|done].
Qed.

Lemma wp_Reset_none m (Q : RawBuffer → mach → Prop) E :
  Q empty_buffer m → wp (Reset empty_buffer) Q E m.
Proof. done. Qed.

Lemma wp_ODefault x (os : gmap obj RawBuffer) m Q E :
  Q () (<[x := empty_buffer]> os, m) → wp (run_op (ODefault x)) Q E (os, m).
Proof. done. Qed.

Lemma wp_OMove x y c (os : gmap obj RawBuffer) m Q E :
  os !! y = Some c → Q () (<[y := empty_buffer]> (<[x := c]> os), m) →
  wp (run_op (OMove x y)) Q E (os, m).
Proof.
  intros Hy HQ. rw /run_op. wp_step. eapply wp_get_obj; [done|]. cbv zeta.
  rw /set_obj. wp_steps. by destruct c.
Qed.

Lemma wp_OAssign x y c d (os : gmap obj RawBuffer) m Q E :
  x ≠ y → os !! x = Some c → os !! y = Some d →
  wp (Reset c) (λ _ m', Q () (<[y := empty_buffer]> (<[x := d]> os), m')) (λ e m', E e (os, m')) m →
  wp (run_op (OAssign x y)) Q E (os, m).
Proof.
  intros Hxy Hx Hy Hr. rw /run_op /operator_assign decide_False //.
  wp_step. eapply wp_get_obj; [done|]. wp_step. eapply wp_get_obj; [done|].
  wp_steps. rw /assign_distinct. wp_step. eapply wp_mono; [exact Hr| |done].
  intros c' m' HQ. rw /set_obj. wp_steps. by destruct d.
Qed.

Lemma wp_OAssign_self x c (os : gmap obj RawBuffer) m Q E :
  os !! x = Some c → Q () (os, m) → wp (run_op (OAssign x x)) Q E (os, m).
Proof.
  intros Hx HQ. rw /run_op /operator_assign decide_True //. wp_step. by eapply wp_get_obj.
Qed.

Lemma wp_RawBuffer_ctor l n d m (Q : RawBuffer → mach → Prop) E :
  n ≠ 0%Z → Q (RB (Some l) n (Some d)) m → wp (RawBuffer_ctor (Some l) n (Some d)) Q E m.
Proof. intros Hn HQ. rw /RawBuffer_ctor. by destruct (Z.eqb_spec n 0). Qed.

Lemma wp_write_first l x blk F f m (Q : () → mach → Prop) E :
  memory (<[l := blk]> F) f m → blk ≠ [] →
  (∀ m', memory (<[l := Some x :: tail blk]> F) f m' → Q () m') → wp (mem_write l 0 [Some x]) Q E m.
Proof.
  intros Hm Hne HQ. destruct blk as [|c blk]; [done|].
  eapply wp_mem_write; [eapply memory_lookup; [done|apply lookup_insert_eq]|cbn; lia|].
  apply HQ. rw /splice /= drop_0.
  pose proof (memory_set _ _ _ l (Some x :: blk) Hm) as Hs. rw insert_insert_eq lookup_insert_eq in Hs.
  apply Hs. by eexists.
Qed.

Lemma wp_load_first l x blk F f m (Q : byte → mach → Prop) E :
  memory (<[l := Some x :: blk]> F) f m → Q x m → wp (mem_load l 0) Q E m.
Proof.
  intros Hm HQ. by eapply wp_mem_load; [eapply memory_lookup; [done|apply lookup_insert_eq]|done|].
Qed.

(** [test_step]: one call of a test; [object]: which objects there are. *)
Ltac object := first [by rw lookup_insert_eq | by rw lookup_insert_ne; [done|rw lookup_insert_eq]].
Ltac test_step :=
  cbn beta iota delta [RawBuffer_data data_]; lazymatch goal with
  | |- wp (scope _ _) _ _ _ => apply wp_scope
  | |- wp (declare _ _) _ _ _ => apply wp_declare
  | |- wp (REQUIRE_FALSE _) _ _ _ => apply wp_REQUIRE; [done|]
  | |- wp (REQUIRE _) _ _ _ => apply wp_REQUIRE; [done|]
  | |- wp (valid _) _ _ _ => eapply wp_on_object; [object|]
  | |- wp (data _) _ _ _ => eapply wp_on_object; [object|]
  | |- wp (size _) _ _ _ => eapply wp_on_object; [object|]
  | |- wp (run_op (ODefault _)) _ _ _ => apply wp_ODefault
  | |- wp (run_op (OMove _ _)) _ _ _ => eapply wp_OMove; [object|]
  | |- wp (run_op (OAssign ?x ?x)) _ _ _ => eapply wp_OAssign_self; [object|]
  | |- wp (run_op (OAssign _ _)) _ _ _ => eapply wp_OAssign; [done|object|object|]
  | |- wp (mem_write _ _ _) _ _ _ => eapply wp_write_first; [eassumption|done|intros ? ?]
  | |- wp (mem_load _ _) _ _ _ => eapply wp_load_first; [eassumption|]
  | |- wp (RawBuffer_ctor (Some _) _ (Some _)) _ _ _ => apply wp_RawBuffer_ctor; [lia|]
  | |- wp (REQUIRE_NOTHROW _) _ _ _ => apply wp_catch
  | |- wp (malloc _) _ _ _ => eapply wp_malloc; [eassumption|intros ? ? ? ?]
  | |- wp (run_op (OReset _)) _ _ _ => eapply wp_OReset; [object|]
  | |- wp (run_op (ODestroy _)) _ _ _ => eapply wp_ODestroy; [object|]
  | |- wp (Reset empty_buffer) _ _ _ => apply wp_Reset_none
  | |- wp (set_dele_called _ _) _ _ _ => eapply wp_set_dele_called; [eassumption|intros ? ?]
  | |- wp (get_dele_called _) _ _ _ => eapply wp_get_dele_called; [eassumption|]
  | |- wp (make _ _) _ _ _ => eapply wp_make; [eassumption|lia|intros ? ? ? ?]
  | |- wp (Reset (RB (Some _) _ _)) _ _ _ =>
      eapply wp_Reset_test; [eassumption|rw lookup_insert_eq; by eexists|rw delete_insert_id //; intros ? ?]
  | _ => wp_step
  end.
Ltac test_over := split; [done|by eexists].

Lemma default_test_passes : passes default_test.
Proof. intros F f m Hm. rw /default_test. repeat test_step. test_over. Qed.

Lemma reset_test_passes : passes (reset_test dele_called).
Proof. intros F f m Hm. rw /reset_test. repeat test_step. test_over. Qed.

Lemma make_test_passes : passes (make_test dele_called).
Proof.
  intros F f m Hm. rw /make_test. repeat test_step. test_over.
Qed.

Lemma scope_test_passes : passes (scope_test dele_called).
Proof. intros F f m Hm. rw /scope_test. repeat test_step. test_over. Qed.

Lemma raw_test_passes : passes (raw_test dele_called).
Proof. intros F f m Hm. rw /raw_test. repeat test_step. test_over. Qed.

Lemma move_test_passes : passes (move_test dele_called).
Proof. intros F f m Hm. rw /move_test. repeat test_step. test_over. Qed.

Lemma assign_test_passes : passes (assign_test dele_called).
Proof. intros F f m Hm. rw /assign_test. repeat test_step. test_over. Qed.

Lemma self_test_passes : passes (self_test dele_called).
Proof. intros F f m Hm. rw /self_test. repeat test_step. test_over. Qed.
(** The byte on the stack is gone again. *)
Lemma wp_with_char (body : loc → M mach ()) F f m (Q : () → mach → Prop) :
  memory F f m →
  (∀ l m1, F !! l = None → memory (<[l := [None]]> F) f m1 →
     wp (body l) (λ _ m2, memory (<[l := [None]]> F) f m2) no_throw m1) →
  (∀ m', memory F f m' → Q () m') → wp (with_char body) Q no_throw m.
Proof.
  intros [Hh Hf Hr] Hbody HQ. rw /with_char /wp.
  set (l := fresh _). assert (Hl : heap m !! l = None) by apply not_elem_of_dom, is_fresh. clearbody l.
  rw Hh lookup_insert in Hl. case_decide; [done|].
  specialize (Hbody l (set_heap (<[l := [None]]> (heap m)) m) Hl).
  rw /wp in Hbody. rw {1}/mbind /M_bind /catch.
  destruct (body l _) as [[] m2|e m2|u]; cbn in *.
  - apply HQ. destruct Hbody as [Hh2 _ Hr2].
    { split; [by rw /= Hh insert_insert_ne|by rw lookup_insert_ne|done]. }
    split; [|done|done]. rw /= Hh2 delete_insert_ne // delete_insert_id //.
  - apply Hbody. split; [by rw /= Hh insert_insert_ne|by rw lookup_insert_ne|done].
  - apply Hbody. split; [by rw /= Hh insert_insert_ne|by rw lookup_insert_ne|done].
Qed.

Lemma reject_test_passes : passes (reject_test dele_called).
Proof.
  intros F f m Hm. rw /reject_test. test_step. apply (wp_with_char _ F f); [done|done|].
  intros m' Hm'. test_over.
Qed.

Lemma make_reject_test_passes : passes (make_reject_test dele_called).
Proof. intros F f m Hm. split; [done|by exists f]. Qed.

(** Every test case of the file passes: on any machine whose allocations succeed,
    with any other memory in use, and whatever the test cases before have left in
    [dele_called], no requirement fails, nothing is undefined, every object is
    destroyed and every block freed. *)
Theorem raw_buffer_tests_pass F f m t :
  memory F f m → t ∈ raw_buffer_tests dele_called →
  ∃ st, t (∅, m) = Ret () st ∧ st.1 = ∅ ∧ ∃ f', memory F f' st.2.
Proof.
  intros Hm Ht. assert (passes t) as Hp.
  { revert t Ht. apply list.Forall_forall. rw /raw_buffer_tests.
    repeat (apply list.Forall_cons; split); [..|by apply list.Forall_nil].
    - exact default_test_passes.
    - exact reset_test_passes.
    - exact make_test_passes.
    - exact scope_test_passes.
    - exact raw_test_passes.
    - exact reject_test_passes.
    - exact make_reject_test_passes.
    - exact move_test_passes.
    - exact assign_test_passes.
    - exact self_test_passes. }
  destruct (wp_returns _ _ _ (Hp F f m Hm)) as ([] & st & Hrun & He & Hf).
  by exists st.
Qed.
End Passing.

(** ** Witness: the static flag at address 1, and a block of someone else's. *)
Definition test_machine : mach := set_heap {[1%positive := [Some Byte.x00]; 7%positive := [None]]} mach0.

Lemma raw_buffer_tests_pass_witness :
  (∃ st, make_test 1 (∅, test_machine) = Ret () st ∧ st.1 = ∅
     ∧ ∃ f', memory 1 {[7%positive := [None]]} f' st.2)
  ∧ length (raw_buffer_tests 1) = 10.
Proof.
  split; [|done].
  apply (raw_buffer_tests_pass 1 {[7%positive := [None]]} false test_machine).
  - split; [by vm_compute|by vm_compute|done].
  - rw /raw_buffer_tests. do 2 right. left.
Defined.
