(* ===== verification/InternalMessage.v ===== *)
(** * InternalMessage (frame/internal_message.h, internal_message.cc) and the
    interface of a framer (frame/framer_base.h) *)
From S2P Require Import Prelude Machine RawBuffer.

Inductive MessageOrigin := kUnknown | kServer | kClient.

(** The enumerators' values. *)
Definition MessageOrigin_value (o : MessageOrigin) : Z :=
  match o with kUnknown => 0 | kServer => 1 | kClient => 2 end.

Record InternalMessageMeta := Meta_ {
  trace_id : Z;
  connection_id : Z;
  timestamp : Z;
  tag : option string;
  remote_ip : string;
  remote_port : Z;
  local_port : Z;
  route_hint : option string;
  is_behind_reverse_proxy : bool;
  is_can_get_real_ip : bool;
  origin : MessageOrigin
}.

(** The default member initialisers; a default [time_point] is the clock's
    epoch. *)
Definition default_meta : InternalMessageMeta :=
  Meta_ 0 0 0 None EmptyString 0 0 None false true kUnknown.

Definition with_timestamp (t : Z) (m : InternalMessageMeta) : InternalMessageMeta :=
  Meta_ (trace_id m) (connection_id m) t (tag m) (remote_ip m) (remote_port m)
    (local_port m) (route_hint m) (is_behind_reverse_proxy m)
    (is_can_get_real_ip m) (origin m).

Record InternalMessage := IM {
  meta_ : InternalMessageMeta;
  buffer_ : RawBuffer
}.

(** [InternalMessage() = default]. *)
Definition default_message : InternalMessage := IM default_meta empty_buffer.

(** [InternalMessage(InternalMessageMeta meta, RawBuffer buffer)]: the message
    and what is left of the argument. *)
Definition InternalMessage_ctor (meta : InternalMessageMeta) (buffer : RawBuffer) :
    InternalMessage * RawBuffer :=
  let r := move_ctor buffer in (IM meta r.1, r.2).

Definition Message_Meta (m : InternalMessage) : InternalMessageMeta := meta_ m.
Definition Message_buffer (m : InternalMessage) : RawBuffer := buffer_ m.
Definition Message_valid (m : InternalMessage) : bool := RawBuffer_valid (buffer_ m).

(** The implicit destructor. *)
Definition message_dtor (m : InternalMessage) : M mach () := RawBuffer_dtor (buffer_ m).

(** [FramerBase]: the state [F] of a framer and its two virtual functions.
    [PrepareRead] gives the buffer the caller reads into. *)
Class FramerBase (F : Type) := {
  PrepareRead : M (F * mach) RawBuffer;
  OnData : Z → M (F * mach) (list InternalMessage)
}.

(** What FramerBase's header tells the caller to do with a framer: read into
    [PrepareRead()] from [data()] on, then call [OnData] with the number of
    bytes read.  [bs] is what the socket delivers. *)
Definition caller_read {F} `{FramerBase F} (bs : list byte) :
    M (F * mach) (list InternalMessage) :=
  buf ← PrepareRead;
  match RawBuffer_data buf with
  | None => undef null_dereference
  | Some p =>
      on_snd (mem_write p 0 (Some <$> bs)) ;;
      OnData (Z.of_nat (length bs))
  end.
