(* ===== verification/SimpleLineFramer.v ===== *)
(** * SimpleLineFramer (frame/simple_line_framer.h) *)
From S2P Require Import Prelude Machine RawBuffer InternalMessage.
From Stdlib Require Strings.Byte.

Record SimpleLineFramer := SLF {
  scratch_ : RawBuffer;
  write_pos_ : Z
}.

Definition framer_state : Type := SimpleLineFramer * mach.

Definition set_scratch (b : RawBuffer) : M framer_state () :=
  modify (λ st, (SLF b (write_pos_ st.1), st.2)).
Definition set_write_pos (z : Z) : M framer_state () :=
  modify (λ st, (SLF (scratch_ st.1) z, st.2)).

(** The allocation all of the class's [Make] calls share. *)
Definition make_scratch (size : Z) : M mach RawBuffer :=
  Make size (Some new_alloc) (Some new_deleter).

Definition SimpleLineFramer_ctor : M mach SimpleLineFramer :=
  b ← make_scratch 4096; mret (SLF b 0).

Definition framer_PrepareRead : M framer_state RawBuffer :=
  fr ← gets fst;
  (if (sub64 (RawBuffer_size (scratch_ fr)) (write_pos_ fr) <? 1024)%Z
   then
     s ← on_snd (Reset (scratch_ fr));
     set_scratch s ;;
     tmp ← on_snd (make_scratch (add64 (write_pos_ fr) 4096));
     r ← on_snd (assign_distinct s tmp);
     set_scratch r.1 ;;
     on_snd (RawBuffer_dtor r.2) ;;
     set_write_pos 0
   else mret ()) ;;
  gets (λ st, scratch_ st.1).

Definition newline : byte := Byte.x0a.

(** [data[i]] on the pointer [scratch_.data()]. *)
Definition load_at (data : option loc) (i : Z) : M mach byte :=
  match data with
  | None => undef null_dereference
  | Some p => mem_load p i
  end.

Definition copy_to (dst : option loc) (doff : Z) (src : option loc)
    (soff len : Z) : M mach () :=
  match dst, src with
  | Some d, Some s => memmove d doff s soff len
  | _, _ => undef null_dereference
  end.

(** One message: allocate [len] bytes, copy them from [data + start], stamp. *)
Definition make_message (data : option loc) (start len : Z) : M mach InternalMessage :=
  msgbuf ← make_scratch len;
  copy_to (RawBuffer_data msgbuf) 0 data start len ;;
  t ← now;
  let r := InternalMessage_ctor (with_timestamp t default_meta) msgbuf in
  mret r.1.

(** The loop over [data[0 .. write_pos_)]: [k] iterations are left.  A throw
    unwinds [out], which frees the messages collected so far. *)
Fixpoint scan (data : option loc) (k : nat) (i start : Z)
    (out : list InternalMessage) : M mach (Z * list InternalMessage) :=
  match k with
  | O => mret (start, out)
  | S k =>
      c ← load_at data i;
      if Byte.eqb c newline then
        msg ← catch (make_message data start (sub64 i start))
                    (λ e, for_each message_dtor out ;; throw e);
        scan data k (i + 1) (i + 1) (out ++ [msg])
      else scan data k (i + 1) start out
  end.

(** The end of [OnData]: move the bytes from [start] on to the front. *)
Definition keep_rest (data : option loc) (start : Z) : M framer_state () :=
  fr ← gets fst;
  let wp := write_pos_ fr in
  if (start <? wp)%Z
  then
    on_snd (copy_to data 0 data start (sub64 wp start)) ;;
    set_write_pos (sub64 wp start)
  else set_write_pos 0.

Definition framer_OnData (n : Z) : M framer_state (list InternalMessage) :=
  fr ← gets fst;
  let wp := add64 (write_pos_ fr) n in
  set_write_pos wp ;;
  let data := RawBuffer_data (scratch_ fr) in
  r ← on_snd (scan data (Z.to_nat wp) 0 0 []);
  let '(start, out) := r in
  keep_rest data start ;;
  mret out.

#[export] Instance SimpleLineFramer_FramerBase : FramerBase SimpleLineFramer := {
  PrepareRead := framer_PrepareRead;
  OnData := framer_OnData
}.
