(* ===== verification/LineSplit.v ===== *)
(** * LineSplit: what a line-oriented framer has to compute

    The reference definition the framer is compared with: splitting a byte
    sequence at newlines into the complete lines and the unfinished rest. *)
From S2P Require Import Prelude Machine SimpleLineFramer.

Fixpoint split_lines (bs : list byte) : list (list byte) * list byte :=
  match bs with
  | [] => ([], [])
  | c :: bs =>
      let '(ls, r) := split_lines bs in
      if Byte.eqb c newline then ([] :: ls, r)
      else match ls with
           | [] => ([], c :: r)
           | l :: ls => ((c :: l) :: ls, r)
           end
  end.

Definition join_lines (ls : list (list byte)) (r : list byte) : list byte :=
  concat ((λ l, l ++ [newline]) <$> ls) ++ r.

(** A line: no newline in it. *)
Definition no_newline (l : list byte) : Prop := Forall (λ c, Byte.eqb c newline = false) l.

Definition nonempty_lines (bs : list byte) : bool :=
  forallb (λ l, match l with [] => false | _ => true end) (split_lines bs).1.

(** The lines of a stream that arrives in chunks, and what is left over. *)
Fixpoint feed_lines (pend : list byte) (chunks : list (list byte)) :
    list (list (list byte)) * list byte :=
  match chunks with
  | [] => ([], pend)
  | c :: chunks =>
      let '(ls, r) := split_lines (pend ++ c) in
      let '(lss, r') := feed_lines r chunks in (ls :: lss, r')
  end.

(** ** Lemmas *)
Lemma split_lines_no_newline l bs :
  no_newline l →
  split_lines (l ++ bs) =
    match split_lines bs with
    | ([], r) => ([], l ++ r)
    | (l' :: ls, r) => ((l ++ l') :: ls, r)
    end.
Proof.
  induction 1 as [|c l Hc Hl IH]; rw /=; [by destruct (split_lines bs) as [[]]|].
  rw IH Hc. by destruct (split_lines bs) as [[]].
Qed.

Lemma split_lines_line l bs :
  no_newline l →
  split_lines (l ++ newline :: bs) = (l :: (split_lines bs).1, (split_lines bs).2).
Proof.
  intros Hl. rw (split_lines_no_newline l) //. rw /=.
  destruct (split_lines bs). by rw app_nil_r.
Qed.

Lemma split_lines_rest r : no_newline r → split_lines r = ([], r).
Proof.
  intros Hr. rw -{1}(app_nil_r r) (split_lines_no_newline r) //=. by rw app_nil_r.
Qed.

(** Splitting and joining are inverse to each other. *)
Lemma split_lines_join ls r :
  Forall no_newline ls → no_newline r → split_lines (join_lines ls r) = (ls, r).
Proof.
  intros Hls Hr. rw /join_lines. induction Hls as [|l ls Hl Hls IH]; rw /=.
  - by apply split_lines_rest.
  - rw -!app_assoc /=. rw (split_lines_line l) //. by rw IH.
Qed.

Lemma join_split_lines bs :
  let '(ls, r) := split_lines bs in
  join_lines ls r = bs ∧ Forall no_newline ls ∧ no_newline r.
Proof.
  induction bs as [|c bs IH]; rw /=; [by repeat constructor|].
  destruct (split_lines bs) as [ls r], IH as (IH & Hls & Hr).
  destruct (Byte.eqb c newline) eqn:Hc.
  - apply Byte.byte_dec_bl in Hc as ->. split_and!; [|constructor|done].
    + rw -IH /join_lines /=. done.
    + constructor.
    + done.
  - destruct ls as [|l ls].
    + split_and!; [|done|by constructor]. rw -IH. done.
    + apply Forall_cons_1 in Hls as [Hl Hls].
      split_and!; [by rw -IH|repeat constructor; done|done].
Qed.

Lemma split_lines_elim bs :
  ∃ ls r, split_lines bs = (ls, r) ∧ bs = join_lines ls r
          ∧ Forall no_newline ls ∧ no_newline r.
Proof.
  pose proof (join_split_lines bs) as H. destruct (split_lines bs) as [ls r].
  destruct H as (? & ? & ?). by exists ls, r.
Qed.

(** A stream may be split anywhere: the lines of the pieces, with the rest of
    one piece put in front of the next, are the lines of the whole. *)
Lemma split_lines_app a b :
  split_lines (a ++ b) =
    ((split_lines a).1 ++ (split_lines ((split_lines a).2 ++ b)).1,
     (split_lines ((split_lines a).2 ++ b)).2).
Proof.
  destruct (split_lines_elim a) as (ls & r & Ha & -> & Hls & Hr). rw Ha /=.
  clear Ha. induction Hls as [|l ls Hl Hls IH]; rw /join_lines /=.
  - by destruct (split_lines (r ++ b)).
  - rw -!app_assoc /=. rw (split_lines_line l) //.
    rw /join_lines -app_assoc in IH. by rw IH.
Qed.

Lemma split_lines_rest_no_newline bs : no_newline (split_lines bs).2.
Proof. by destruct (split_lines_elim bs) as (ls & r & -> & _ & _ & ?). Qed.

Lemma feed_lines_concat pend chunks :
  no_newline pend →
  (concat (feed_lines pend chunks).1, (feed_lines pend chunks).2)
  = split_lines (pend ++ concat chunks).
Proof.
  revert pend. induction chunks as [|c chunks IH]; intros pend Hp; rw /=.
  - by rw app_nil_r split_lines_rest.
  - pose proof (split_lines_rest_no_newline (pend ++ c)) as Hr.
    rw app_assoc (split_lines_app (pend ++ c)).
    destruct (split_lines (pend ++ c)) as [ls r]. rw /= in Hr *.
    rw -(IH r Hr). by destruct (feed_lines r chunks).
Qed.
