(* ===== verification/FramerCorrect.v ===== *)
(** * FramerCorrect: SimpleLineFramer computes the lines of the bytes it holds *)
From S2P Require Import Prelude Machine RawBuffer InternalMessage SimpleLineFramer LineSplit.
From Stdlib Require Strings.Byte.

(** ** What the framer delivers

    A delivered line: the block that holds it, its bytes and its time stamp. *)
Record delivered := Delivered {
  d_loc : loc;
  d_line : list byte;
  d_time : Z
}.

Definition cells (bs : list byte) : block := Some <$> bs.

Definition message_of (d : delivered) : InternalMessage :=
  IM (with_timestamp (d_time d) default_meta)
     (RB (Some (d_loc d)) (Z.of_nat (length (d_line d))) (Some new_deleter)).

(** The heap [h] and the blocks of the messages [ds], which are new. *)
Definition with_messages (ds : list delivered) (h : gmap loc block) : gmap loc block :=
  foldr (λ d, <[d_loc d := cells (d_line d)]>) h ds.

Definition fresh_messages (ds : list delivered) (h : gmap loc block) : Prop :=
  NoDup (d_loc <$> ds) ∧ Forall (λ d, h !! d_loc d = None) ds.

Section messages.
Implicit Types (ds : list delivered) (h : gmap loc block).

Lemma lookup_with_messages_ne ds h q :
  q ∉ d_loc <$> ds → with_messages ds h !! q = h !! q.
Proof.
  induction ds as [|d ds IH]; rw /= ?fmap_cons; [done|].
  intros [Hq ?]%not_elem_of_cons. rw lookup_insert_ne //. by apply IH.
Qed.

Lemma with_messages_insert ds h q b :
  q ∉ d_loc <$> ds → with_messages ds (<[q := b]> h) = <[q := b]> (with_messages ds h).
Proof.
  induction ds as [|d ds IH]; rw /= ?fmap_cons; [done|].
  intros [Hq ?]%not_elem_of_cons. rw IH //. by apply insert_insert_ne.
Qed.

Lemma fresh_messages_nil h : fresh_messages [] h.
Proof. split; constructor. Qed.

Lemma fresh_not_elem ds h q b : fresh_messages ds h → h !! q = Some b → q ∉ d_loc <$> ds.
Proof.
  intros [_ Hf] Hq (d & -> & Hd)%list_elem_of_fmap.
  rw list.Forall_forall in Hf. specialize (Hf d Hd). congruence.
Qed.

(** A message made first, then the others. *)
Lemma fresh_messages_cons d ds h b :
  h !! d_loc d = None → fresh_messages ds (<[d_loc d := b]> h) →
  fresh_messages (d :: ds) h.
Proof.
  intros Hd Hf. pose proof (fresh_not_elem _ _ (d_loc d) b Hf) as Hnot.
  rw lookup_insert_eq in Hnot. specialize (Hnot eq_refl).
  destruct Hf as [Hnd Hf]. split; [by constructor|].
  constructor; [done|]. eapply Forall_impl; [|exact Hf].
  intros d' [? _]%lookup_insert_None. done.
Qed.

Lemma with_messages_cons d ds h :
  fresh_messages ds (<[d_loc d := cells (d_line d)]> h) →
  with_messages ds (<[d_loc d := cells (d_line d)]> h) = with_messages (d :: ds) h.
Proof.
  intros Hf. apply with_messages_insert.
  eapply fresh_not_elem; [done|]. apply lookup_insert_eq.
Qed.

Lemma with_messages_None ds h q :
  with_messages ds h !! q = None → h !! q = None ∧ q ∉ d_loc <$> ds.
Proof.
  intros Hq. assert (Hnot : q ∉ d_loc <$> ds).
  { induction ds as [|d ds IH]; rw /= ?fmap_cons; [set_solver|].
    rw /= in Hq. apply lookup_insert_None in Hq as [Hq Hne].
    apply not_elem_of_cons. split; [done|]. by apply IH. }
  split; [|done]. by rw -(lookup_with_messages_ne ds).
Qed.

Lemma with_messages_snoc ds d h :
  with_messages (ds ++ [d]) h = with_messages ds (<[d_loc d := cells (d_line d)]> h).
Proof. by rw /with_messages foldr_app. Qed.

(** A message made after the others. *)
Lemma fresh_messages_snoc ds d h :
  fresh_messages ds h → with_messages ds h !! d_loc d = None →
  fresh_messages (ds ++ [d]) h.
Proof.
  intros [Hnd Hf] [Hd Hnot]%with_messages_None. split.
  - rw fmap_app. apply list.NoDup_app. split_and!; [done| |apply NoDup_singleton].
    intros q Hq ->%list_elem_of_singleton. done.
  - apply Forall_app. by repeat constructor.
Qed.

Lemma fresh_messages_insert ds h q b :
  q ∉ d_loc <$> ds → fresh_messages ds h → fresh_messages ds (<[q := b]> h).
Proof.
  intros Hq [Hnd Hf]. split; [done|]. apply list.Forall_forall. intros d Hd.
  rw list.Forall_forall in Hf. rw lookup_insert_ne; [|by apply Hf].
  intros ->. apply Hq, list_elem_of_fmap. by exists d.
Qed.

(** Unwinding frees exactly the collected messages. *)
Lemma wp_destroy_messages ds h m (Q : () → mach → Prop) E :
  fresh_messages ds h → heap m = with_messages ds h →
  (∀ m', heap m' = h → oom m' = oom m → Q () m') →
  wp (for_each message_dtor (message_of <$> ds)) Q E m.
Proof.
  revert m. induction ds as [|d ds IH]; intros m [Hnd Hf] Hm HQ; rw /=.
  - apply wp_ret. by apply HQ.
  - rw fmap_cons in Hnd. apply list.NoDup_cons in Hnd as [Hd Hnd].
    apply list.Forall_cons in Hf as [Hdh Hf].
    wp_step. rw /message_dtor /RawBuffer_dtor /Reset /=. wp_steps.
    eapply wp_op_delete.
    + by rw Hm /= lookup_insert_eq.
    + by rw /cells length_fmap.
    + wp_steps. apply IH; [by split| |done].
      rw /= Hm /= delete_insert_id //. by rw lookup_with_messages_ne.
Qed.
End messages.

#[local] Arguments load_at : simpl never.
#[local] Arguments copy_to : simpl never.
#[local] Arguments make_message : simpl never.

(** ** The loop *)
Section scan.
Context (l : loc).

Lemma load_at_cell bs blk j c m :
  heap m !! l = Some blk → take (length bs) blk = cells bs →
  bs !! j = Some c → load_at (Some l) (Z.of_nat j) m = Ret c m.
Proof.
  intros Hl Htake Hj. rw /load_at /mem_load Hl Nat2Z.id.
  assert (Hb : take (length bs) blk !! j = Some (Some c)).
  { by rw Htake /cells list_lookup_fmap Hj. }
  rw lookup_take_Some in Hb. by destruct Hb as [-> _].
Qed.

(** Over bytes that are no newlines the loop only counts. *)
Lemma scan_skip bs blk pre line post k start out m :
  heap m !! l = Some blk → take (length bs) blk = cells bs →
  bs = pre ++ line ++ post → no_newline line →
  scan (Some l) (length line + k) (Z.of_nat (length pre)) start out m =
  scan (Some l) k (Z.of_nat (length pre + length line)) start out m.
Proof.
  intros Hl Htake Hbs Hline. revert pre Hbs.
  induction Hline as [|c line Hc Hline IH]; intros pre Hbs; rw /=.
  - by rw Nat.add_0_r.
  - assert (Hj : bs !! length pre = Some c).
    { rw Hbs. by apply list_lookup_middle. }
    rw /mbind /M_bind (load_at_cell bs blk _ c m Hl Htake Hj) Hc.
    rw (_ : (Z.of_nat (length pre) + 1)%Z = Z.of_nat (length (pre ++ [c]))).
    { rw length_app /=. lia. }
    rw IH; [by rw Hbs -!app_assoc|]. rw length_app /=. do 2 f_equal. lia.
Qed.
End scan.

(** ** One message *)
Lemma wp_make_message l blk start line m Q E :
  heap m !! l = Some blk → take (length line) (drop start blk) = cells line →
  line ≠ [] → never_oom m →
  (∀ d m', d_line d = line → heap m !! d_loc d = None →
     heap m' = <[d_loc d := cells line]> (heap m) → never_oom m' →
     Q (message_of d) m') →
  wp (make_message (Some l) (Z.of_nat start) (Z.of_nat (length line))) Q E m.
Proof.
  intros Hl Hline Hne Hoom HQ.
  assert (Hpos : 0 < length line) by (destruct line; [done|cbn; lia]).
  destruct (Make_new_positive (Z.of_nat (length line)) m)
    as (p & m1 & Hmake & Hp & Hm1 & Hoom1); [done|lia|].
  assert (Hlen : start + length line ≤ length blk).
  { apply (f_equal length) in Hline. rw length_take length_drop /cells length_fmap in Hline.
    lia. }
  rw /make_message. wp_step. eapply wp_of_ret; [exact Hmake|].
  wp_step. rw /copy_to /= /memmove. wp_step.
  eapply (wp_mem_read _ blk); [|lia|].
  { rw Hm1 lookup_insert_ne //. congruence. }
  rw !Nat2Z.id Hline. eapply wp_mem_write.
  { by rw Hm1 lookup_insert_eq. }
  { rw length_replicate /cells length_fmap. lia. }
  wp_steps. rw /wp /now. cbn.
  eapply (HQ (Delivered p line _)); cbn; [done|done| |by rw /never_oom Hoom1].
  rw Hm1 insert_insert_eq /splice /=. f_equal.
  rw drop_ge; [|by rw app_nil_r].
  rw length_replicate /cells length_fmap. lia.
Qed.

Lemma make_message_empty l start m :
  never_oom m →
  ∃ q m', make_message (Some l) start 0 m
            = Throw (invalid_argument "RawBuffer: invalid construction arguments.") m'
          ∧ heap m !! q = None ∧ heap m' = <[q := []]> (heap m) ∧ never_oom m'.
Proof.
  intros Hoom. destruct (Make_new_zero m) as (q & m' & Hmake & Hq & Hm' & Ho); [done|].
  exists q, m'. split_and!; [|done|done|by rw /never_oom Ho].
  by rw /make_message /make_scratch /mbind /M_bind Hmake.
Qed.

(** ** The loop over whole lines *)
Lemma join_lines_cons line ls r :
  join_lines (line :: ls) r = line ++ newline :: join_lines ls r.
Proof. by rw /join_lines /= -!app_assoc. Qed.

Lemma take_drop_slice bs blk pre line post :
  take (length bs) blk = cells bs → bs = pre ++ line ++ post →
  take (length line) (drop (length pre) blk) = cells line.
Proof.
  intros Htake Hbs. rw -(take_drop (length bs) blk) Htake Hbs /cells !fmap_app.
  rw -!app_assoc drop_app_length'; [by rw length_fmap|].
  rw take_app_length' //. by rw length_fmap.
Qed.

Section scan_lines.
Context (l : loc) (blk : block) (bs : list byte).
Hypothesis (Htake : take (length bs) blk = cells bs).
Hypothesis (Hbound : is_u64 (Z.of_nat (length bs))).

(** One line: skip to its newline, make its message, go on after it. *)
Lemma scan_one_line pre line post k out m :
  heap m !! l = Some blk → bs = pre ++ line ++ newline :: post →
  no_newline line →
  let at_ n := Z.of_nat n in
  scan (Some l) (length line + S k) (at_ (length pre)) (at_ (length pre)) out m =
  (msg ← catch (make_message (Some l) (at_ (length pre)) (at_ (length line)))
               (λ e, for_each message_dtor out ;; throw e);
   scan (Some l) k (at_ (length (pre ++ line ++ [newline])))
     (at_ (length (pre ++ line ++ [newline]))) (out ++ [msg])) m.
Proof.
  intros Hl Hbs Hline at_. subst at_. cbn beta.
  rw (scan_skip l bs blk pre line (newline :: post)) //.
  assert (Hnl : bs !! (length pre + length line) = Some newline).
  { rw Hbs app_assoc. apply list_lookup_middle. by rw length_app. }
  rw /= {1}/mbind {1}/M_bind (load_at_cell l bs blk _ newline) //=.
  assert (Hs : sub64 (Z.of_nat (length pre + length line)) (Z.of_nat (length pre))
               = Z.of_nat (length line)).
  { pose proof Hbound as Hb. rw Hbs !length_app /is_u64 in Hb.
    rw sub64_small /is_u64; lia. }
  assert (Hn : (Z.of_nat (length pre + length line) + 1)%Z
               = Z.of_nat (length (pre ++ line ++ [newline]))).
  { rw !length_app /=. lia. }
  by rw Hs Hn.
Qed.

Lemma wp_scan_lines ls r pre out m Q E :
  heap m !! l = Some blk → bs = pre ++ join_lines ls r →
  Forall no_newline ls → no_newline r → Forall (λ x, x ≠ []) ls → never_oom m →
  (∀ ds m', d_line <$> ds = ls → fresh_messages ds (heap m) →
     heap m' = with_messages ds (heap m) → never_oom m' →
     Q (Z.of_nat (length bs - length r), out ++ (message_of <$> ds)) m') →
  wp (scan (Some l) (length (join_lines ls r)) (Z.of_nat (length pre))
        (Z.of_nat (length pre)) out) Q E m.
Proof.
  revert pre out m Q. induction ls as [|line ls IH]; intros pre out m Q Hl Hbs Hls Hr Hne Hoom HQ.
  - rw /join_lines /= in Hbs *. rw -(Nat.add_0_r (length r)).
    rw /wp (scan_skip l bs blk pre r []) ?app_nil_r //=.
    specialize (HQ [] m). rw /= app_nil_r Hbs length_app in HQ.
    rw (_ : length pre + length r - length r = length pre) in HQ; [lia|].
    by apply HQ; [|apply fresh_messages_nil| |].
  - apply list.Forall_cons in Hls as [Hline Hls].
    apply list.Forall_cons in Hne as [Hn Hne].
    rw join_lines_cons in Hbs *. rw length_app /=.
    rw /wp (scan_one_line pre line (join_lines ls r)) //. apply wp_bind, wp_catch.
    eapply wp_make_message; [done| |done|done|].
    { eapply take_drop_slice; [done|exact Hbs]. }
    intros d m1 Hd Hdl Hm1 Hoom1. apply IH; [|by rw Hbs -!app_assoc|done..|].
    { rw Hm1 lookup_insert_ne //. congruence. }
    intros ds m' Hds Hfresh Hm' Hoom'. rw -app_assoc. rw Hm1 -Hd in Hfresh Hm'.
    apply (HQ (d :: ds)); [by rw fmap_cons Hd Hds| | |done].
    + by eapply fresh_messages_cons.
    + by rw -with_messages_cons.
Qed.

(** An empty line: the throw frees the messages made so far and leaves the
    block of size 0. *)
Lemma wp_scan_empty_line ls ls' r pre ds h m Q (E : exn → mach → Prop) :
  heap m = with_messages ds h → fresh_messages ds h →
  heap m !! l = Some blk → bs = pre ++ join_lines (ls ++ [] :: ls') r →
  Forall no_newline ls → Forall (λ x, x ≠ []) ls → never_oom m →
  (∀ q m', h !! q = None → heap m' = <[q := []]> h → never_oom m' →
     E (invalid_argument "RawBuffer: invalid construction arguments.") m') →
  wp (scan (Some l) (length (join_lines (ls ++ [] :: ls') r))
        (Z.of_nat (length pre)) (Z.of_nat (length pre)) (message_of <$> ds)) Q E m.
Proof.
  revert pre ds m. induction ls as [|line ls IH];
    intros pre ds m Hm Hf Hl Hbs Hls Hne Hoom HE.
  - change (length (join_lines ([] ++ [] :: ls') r))
      with (length (@nil byte) + S (length (join_lines ls' r))).
    rw /= (join_lines_cons []) in Hbs.
    rw /wp (scan_one_line pre [] (join_lines ls' r)) //; [by constructor|].
    apply wp_bind, wp_catch.
    destruct (make_message_empty l (Z.of_nat (length pre)) m)
      as (q & m1 & Hmake & Hq & Hm1 & Hoom1); [done|].
    eapply wp_of_throw; [exact Hmake|]. wp_step.
    rw Hm in Hq. apply with_messages_None in Hq as [Hq Hnot].
    eapply wp_destroy_messages; [by apply (fresh_messages_insert _ h q [])| |].
    { by rw Hm1 Hm with_messages_insert. }
    intros m2 Hm2 Hoom2. wp_step. apply (HE q m2 Hq Hm2). by rw /never_oom Hoom2.
  - apply list.Forall_cons in Hls as [Hline Hls].
    apply list.Forall_cons in Hne as [Hn Hne].
    rw /= join_lines_cons in Hbs *. rw length_app /=.
    rw /wp (scan_one_line pre line (join_lines (ls ++ [] :: ls') r)) //.
    apply wp_bind, wp_catch.
    eapply wp_make_message; [done| |done|done|].
    { eapply take_drop_slice; [done|exact Hbs]. }
    intros d m1 Hd Hdl Hm1 Hoom1. rw (_ : [message_of d] = message_of <$> [d]) //.
    rw -fmap_app. rw Hm in Hdl. apply IH; [| | |by rw Hbs -!app_assoc|done..].
    + rw Hm1 Hm -Hd with_messages_snoc with_messages_insert //.
      by apply with_messages_None in Hdl as [_ ?].
    + by apply fresh_messages_snoc.
    + rw Hm1 lookup_insert_ne //. rw Hm in Hl. congruence.
Qed.
End scan_lines.

(** ** The framer's state

    [framer_has fr h n bs]: the scratch block starts with the bytes [bs], the
    last [n] of which [write_pos_] does not count yet. *)
Definition framer_has (fr : SimpleLineFramer) (h : gmap loc block) (n : nat)
    (bs : list byte) : Prop :=
  ∃ l blk,
    scratch_ fr = RB (Some l) (Z.of_nat (length blk)) (Some new_deleter)
    ∧ h !! l = Some blk ∧ is_u64 (Z.of_nat (length blk))
    ∧ take (length bs) blk = cells bs ∧ length bs ≤ length blk
    ∧ n ≤ length bs ∧ write_pos_ fr = Z.of_nat (length bs - n).

Abbreviation framer_holds fr h bs := (framer_has fr h 0 bs).

Lemma join_lines_length ls r : length r ≤ length (join_lines ls r).
Proof. rw /join_lines length_app. lia. Qed.

Lemma join_lines_suffix ls r : ∃ pre, join_lines ls r = pre ++ r.
Proof. by eexists. Qed.

(** The end of [OnData]: moving the rest to the front. *)
Lemma wp_keep_rest l blk bs r fr m Q E :
  heap m !! l = Some blk → is_u64 (Z.of_nat (length blk)) →
  take (length bs) blk = cells bs → length bs ≤ length blk →
  (∃ pre, bs = pre ++ r) → write_pos_ fr = Z.of_nat (length bs) →
  (∀ m', heap m' = <[l := splice 0 (cells r) blk]> (heap m) → oom m' = oom m →
     Q () (SLF (scratch_ fr) (Z.of_nat (length r)), m')) →
  wp (keep_rest (Some l) (Z.of_nat (length bs - length r))) Q E (fr, m).
Proof.
  intros Hl Hu Htake Hle [pre Hbs] Hwp HQ.
  assert (Hlen : length bs = length pre + length r) by (by rw Hbs length_app).
  rw /is_u64 in Hu.
  rw /keep_rest. wp_step. apply wp_gets. rw /= Hwp.
  assert (Hsub : sub64 (Z.of_nat (length bs)) (Z.of_nat (length bs - length r))
                 = Z.of_nat (length r)).
  { rw sub64_small /is_u64; lia. }
  rw Hsub. clear Hsub.
  destruct (Z.ltb_spec (Z.of_nat (length bs - length r)) (Z.of_nat (length bs))).
  - wp_step. apply wp_on_snd. rw /copy_to /memmove. wp_step.
    eapply wp_mem_read; [done|lia|].
    rw (_ : Z.to_nat (Z.of_nat (length bs - length r)) = length pre); [lia|].
    rw Nat2Z.id (take_drop_slice bs blk pre r []) ?app_nil_r //.
    eapply wp_mem_write; [done|rw /cells length_fmap; lia|].
    wp_steps. by apply HQ.
  - destruct r; [|cbn in *; lia]. wp_steps. apply (HQ m); [|done].
    by rw splice_same ?insert_id ?take_0.
Qed.

Lemma wp_OnData fr m n bs Q E :
  framer_has fr (heap m) n bs → nonempty_lines bs = true → never_oom m →
  (∀ ds fr' m', d_line <$> ds = (split_lines bs).1 →
     fresh_messages ds (heap m) → framer_holds fr' (heap m') (split_lines bs).2 →
     scratch_ fr' = scratch_ fr →
     (∀ p, Some p ≠ data_ (scratch_ fr) →
        heap m' !! p = with_messages ds (heap m) !! p) →
     never_oom m' → Q (message_of <$> ds) (fr', m')) →
  wp (OnData (Z.of_nat n)) Q E (fr, m).
Proof.
  intros (l & blk & Hs & Hl & Hu & Htake & Hle & Hn & Hwp) Hne Hoom HQ.
  destruct (split_lines_elim bs) as (ls & r & Hsplit & Hbs & Hls & Hr).
  rw /nonempty_lines Hsplit /= in Hne HQ.
  assert (Hub : is_u64 (Z.of_nat (length bs))) by (rw /is_u64 in Hu *; lia).
  assert (Hadd : add64 (write_pos_ fr) (Z.of_nat n) = Z.of_nat (length bs)).
  { rw /is_u64 in Hub. rw Hwp add64_small /is_u64; lia. }
  rw /OnData /= /framer_OnData /set_write_pos. wp_steps.
  rw Hadd Hs /= Nat2Z.id {1}Hbs.
  apply (wp_scan_lines l blk bs Htake Hub ls r []); [done|by rw Hbs|done|done| |done|].
  { apply list.Forall_forall. intros x Hx. rw forallb_forall in Hne.
    apply list_elem_of_In, Hne in Hx. by destruct x. }
  intros ds m1 Hds Hf Hm1 Hoom1. cbn beta iota. rw app_nil_l. wp_step.
  assert (Hl1 : heap m1 !! l = Some blk).
  { rw Hm1 lookup_with_messages_ne //. by eapply fresh_not_elem. }
  eapply wp_keep_rest; [done|done|exact Htake|done| |done|].
  { rw Hbs. apply join_lines_suffix. }
  intros m2. set (blk' := splice _ _ _). intros Hm2 Hoom2. wp_steps. rw /= -Hs.
  pose proof (join_lines_length ls r) as Hrl. rw -Hbs in Hrl.
  assert (Hlen : length blk' = length blk).
  { rw length_splice //. rw /cells length_fmap. lia. }
  eapply HQ; [done|done| |done| |by rw /never_oom Hoom2].
  - exists l, blk'. rw /= Hm2 lookup_insert_eq Hlen Nat.sub_0_r.
    split_and!; [done|done|done| |lia|lia|done].
    rw -(length_fmap Some r). apply take_splice_0.
  - intros p Hp. rw Hm2 lookup_insert_ne; [|by rw Hm1].
    intros ->. by rw Hs in Hp.
Qed.

Lemma wp_OnData_empty_line fr m n bs ls ls' r Q (E : exn → framer_state → Prop) :
  framer_has fr (heap m) n bs → never_oom m →
  split_lines bs = (ls ++ [] :: ls', r) → Forall (λ x, x ≠ []) ls →
  (∀ q m', heap m !! q = None → heap m' = <[q := []]> (heap m) → never_oom m' →
     E (invalid_argument "RawBuffer: invalid construction arguments.")
       (SLF (scratch_ fr) (Z.of_nat (length bs)), m')) →
  wp (OnData (Z.of_nat n)) Q E (fr, m).
Proof.
  intros (l & blk & Hs & Hl & Hu & Htake & Hle & Hn & Hwp) Hoom Hsplit Hne HE.
  pose proof (join_split_lines bs) as Hj. rw Hsplit in Hj.
  destruct Hj as (Hbs & Hls & Hr).
  assert (Hub : is_u64 (Z.of_nat (length bs))) by (rw /is_u64 in Hu *; lia).
  assert (Hadd : add64 (write_pos_ fr) (Z.of_nat n) = Z.of_nat (length bs)).
  { rw /is_u64 in Hub. rw Hwp add64_small /is_u64; lia. }
  rw /OnData /= /framer_OnData /set_write_pos. wp_steps.
  rw Hadd Hs /= Nat2Z.id -{1}Hbs.
  apply (wp_scan_empty_line l blk bs Htake Hub ls ls' r [] [] (heap m));
    [done|apply fresh_messages_nil|done|by rw Hbs| |done|done|].
  { by apply list.Forall_app in Hls as [? _]. }
  intros q m' Hq Hm' Hoom'. rw -Hs. by apply (HE q).
Qed.

(** ** PrepareRead *)
Definition has_room (fr : SimpleLineFramer) (bs : list byte) : bool :=
  (1024 <=? size_ (scratch_ fr) - Z.of_nat (length bs))%Z.

Lemma framer_room_test fr h bs :
  framer_holds fr h bs →
  (sub64 (RawBuffer_size (scratch_ fr)) (write_pos_ fr) <? 1024)%Z
  = negb (has_room fr bs).
Proof.
  intros (l & blk & Hs & _ & Hu & _ & Hle & _ & Hwp).
  rw /has_room Hwp Hs /RawBuffer_size /= Nat.sub_0_r.
  rw /is_u64 in Hu. rw sub64_small; [rw /is_u64; lia|].
  by rw Z.leb_antisym negb_involutive.
Qed.

Lemma PrepareRead_room fr m bs :
  framer_holds fr (heap m) bs → has_room fr bs = true →
  PrepareRead (fr, m) = Ret (scratch_ fr) (fr, m).
Proof.
  intros Hf Hroom. rw /PrepareRead /= /framer_PrepareRead /mbind /M_bind /=.
  by rw (framer_room_test _ _ _ Hf) Hroom.
Qed.

(** Without room the scratch buffer is replaced: its bytes are gone. *)
Lemma PrepareRead_no_room fr m bs :
  framer_holds fr (heap m) bs → has_room fr bs = false → never_oom m →
  is_u64 (Z.of_nat (length bs) + 4096) →
  ∃ fr' m', PrepareRead (fr, m) = Ret (scratch_ fr') (fr', m')
    ∧ size_ (scratch_ fr') = (Z.of_nat (length bs) + 4096)%Z
    ∧ framer_holds fr' (heap m') [] ∧ never_oom m'.
Proof.
  intros Hf Hroom Hoom Hu.
  pose proof (framer_room_test _ _ _ Hf) as Htest. rw Hroom /= in Htest.
  destruct Hf as (l & blk & Hs & Hl & _ & _ & Hle & _ & Hwp).
  destruct (Make_new_positive (Z.of_nat (length bs) + 4096)
              (set_heap (delete l (heap m)) m)) as (p & m1 & Hmake & Hp & Hm1 & Ho1);
    [apply Hoom|lia|].
  exists (SLF (RB (Some p) (Z.of_nat (length bs) + 4096) (Some new_deleter)) 0), m1.
  split_and!; [|done| |by rw /never_oom Ho1].
  - rw /PrepareRead /= /framer_PrepareRead /mbind /M_bind /= Htest.
    rw Hs /on_snd /Reset /= /new_deleter /op_delete /mbind /M_bind /= Hl.
    rw decide_True //= /make_scratch Hwp Nat.sub_0_r add64_small //.
    by rw Hmake.
  - exists p, (replicate (Z.to_nat (Z.of_nat (length bs) + 4096)) None).
    rw /= Hm1 lookup_insert_eq length_replicate Z2Nat.id; [lia|].
    split_and!; [done..|lia|lia|done].
Qed.

(** ** A connection: reads in sequence

    [off] says where in the scratch buffer a read puts its bytes: the protocol
    of FramerBase's header puts them at offset 0 ([caller_read]); what the
    framer needs is an append at [write_pos_]. *)
Definition read_at (off : SimpleLineFramer → Z) (bs : list byte) :
    M framer_state (list InternalMessage) :=
  buf ← PrepareRead;
  fr ← gets fst;
  match RawBuffer_data buf with
  | None => undef null_dereference
  | Some p =>
      on_snd (mem_write p (off fr) (cells bs)) ;; OnData (Z.of_nat (length bs))
  end.

Fixpoint reads (off : SimpleLineFramer → Z) (chunks : list (list byte)) :
    M framer_state (list (list InternalMessage)) :=
  match chunks with
  | [] => mret []
  | c :: chunks =>
      ms ← read_at off c; mss ← reads off chunks; mret (ms :: mss)
  end.

Definition at_front : SimpleLineFramer → Z := λ _, 0%Z.

Lemma caller_read_at_front bs st : caller_read bs st = read_at at_front bs st.
Proof.
  rw /caller_read /read_at /mbind /M_bind /gets.
  by destruct (PrepareRead st).
Qed.

(** The block of a delivered line is in the heap. *)
Definition in_heap (h : gmap loc block) (d : delivered) : Prop :=
  h !! d_loc d = Some (cells (d_line d)).

Lemma with_messages_in_heap ds h :
  fresh_messages ds h → Forall (in_heap (with_messages ds h)) ds.
Proof.
  intros [Hnd _]. induction ds as [|d ds IH]; [done|].
  rw fmap_cons in Hnd. apply list.NoDup_cons in Hnd as [Hd Hnd].
  constructor; [apply lookup_insert_eq|].
  apply list.Forall_forall. intros d' Hd'.
  specialize (IH Hnd). rw list.Forall_forall in IH.
  rw /in_heap /= lookup_insert_ne; [|by apply IH].
  intros Heq. apply Hd. rw Heq. apply list_elem_of_fmap. by exists d'.
Qed.

Lemma wp_read_at off fr m pend c Q E :
  framer_holds fr (heap m) pend → has_room fr pend = true → never_oom m →
  off fr = Z.of_nat (length pend) →
  (Z.of_nat (length (pend ++ c)) ≤ size_ (scratch_ fr))%Z →
  nonempty_lines (pend ++ c) = true →
  (∀ ds fr' m', d_line <$> ds = (split_lines (pend ++ c)).1 →
     framer_holds fr' (heap m') (split_lines (pend ++ c)).2 →
     scratch_ fr' = scratch_ fr → never_oom m' →
     Forall (in_heap (heap m')) ds →
     Forall (λ d, Some (d_loc d) ≠ data_ (scratch_ fr)) ds →
     (∀ p b, Some p ≠ data_ (scratch_ fr) → heap m !! p = Some b →
        heap m' !! p = Some b) →
     Q (message_of <$> ds) (fr', m')) →
  wp (read_at off c) Q E (fr, m).
Proof.
  intros Hf Hroom Hoom Hoff Hfit Hne HQ.
  pose proof (PrepareRead_room _ _ _ Hf Hroom) as Hprep.
  destruct Hf as (l & blk & Hs & Hl & Hu & Htake & Hle & _ & Hwp).
  rw length_app Hs /= in Hfit.
  rw /read_at. wp_step. eapply wp_of_ret; [exact Hprep|]. cbn beta.
  wp_step. apply wp_gets. rw Hs /= Hoff. wp_step. apply wp_on_snd.
  eapply wp_mem_write; [done|rw /cells length_fmap; lia|].
  rw Nat2Z.id. set (blk' := splice _ _ _).
  assert (Hlen : length blk' = length blk).
  { rw length_splice //. rw /cells length_fmap. lia. }
  eapply (wp_OnData _ _ _ (pend ++ c)); [|done|done|].
  { exists l, blk'. rw /= lookup_insert_eq Hlen !length_app.
    split_and!; [done|done|done| |lia|lia|rw Hwp; f_equal; lia].
    rw /blk' -(length_fmap Some c) splice_at; [lia|].
    by rw Htake /cells fmap_app. }
  cbn [heap set_heap]. intros ds fr' m' Hlines Hfresh Hf' Hs' Hframe Hoom'.
  assert (Hdl : ∀ d, d ∈ ds → Some (d_loc d) ≠ data_ (scratch_ fr)).
  { intros d Hd. rw Hs /=. intros [= Heq].
    eapply (fresh_not_elem _ _ l blk' Hfresh); [apply lookup_insert_eq|].
    rw -Heq. apply list_elem_of_fmap. by exists d. }
  apply HQ; [done|done|done|done| | |].
  - pose proof (with_messages_in_heap _ _ Hfresh) as Hin.
    rw !list.Forall_forall in Hin *. intros d Hd.
    rw /in_heap Hframe; [by apply Hdl|]. by apply Hin.
  - by apply list.Forall_forall.
  - intros p b Hp Hb. rw Hframe //. rw lookup_with_messages_ne.
    + eapply (fresh_not_elem _ _ p b Hfresh). rw lookup_insert_ne //.
      intros ->. by rw Hs in Hp.
    + rw lookup_insert_ne //. intros ->. by rw Hs in Hp.
Qed.

(** Where a read puts its bytes. *)
Definition read_offset (front : bool) : SimpleLineFramer → Z :=
  if front then at_front else write_pos_.

(** The chunks keep to what the framer can take: room for a read, no empty
    line, and, for reads at the front, nothing pending when a read starts. *)
Fixpoint chunks_fit (front : bool) (cap : Z) (pend : list byte)
    (chunks : list (list byte)) : bool :=
  match chunks with
  | [] => true
  | c :: chunks =>
      (1024 <=? cap - Z.of_nat (length pend))%Z
      && (Z.of_nat (length (pend ++ c)) <=? cap)%Z
      && nonempty_lines (pend ++ c)
      && (negb front || bool_decide (pend = []))
      && chunks_fit front cap (split_lines (pend ++ c)).2 chunks
  end.

Definition messages_of (dss : list (list delivered)) : list (list InternalMessage) :=
  map (map message_of) dss.
Definition lines_of (dss : list (list delivered)) : list (list (list byte)) :=
  map (map d_line) dss.

Lemma wp_reads front fr m pend chunks Q E :
  framer_holds fr (heap m) pend → never_oom m →
  chunks_fit front (size_ (scratch_ fr)) pend chunks = true →
  (∀ dss fr' m',
     lines_of dss = (feed_lines pend chunks).1 →
     framer_holds fr' (heap m') (feed_lines pend chunks).2 →
     Forall (in_heap (heap m')) (concat dss) →
     (∀ p b, Some p ≠ data_ (scratch_ fr) → heap m !! p = Some b →
        heap m' !! p = Some b) →
     Q (messages_of dss) (fr', m')) →
  wp (reads (read_offset front) chunks) Q E (fr, m).
Proof.
  revert fr m pend Q. induction chunks as [|c chunks IH];
    intros fr m pend Q Hf Hoom Hfit HQ; rw /=.
  - wp_step. apply (HQ []); [done|done|by constructor|done].
  - rw /= in Hfit. simp_bools. rw /has_room.
    assert (Hoff : read_offset front fr = Z.of_nat (length pend)).
    { destruct front; simpl in *; simp_bools.
      - by subst pend.
      - destruct Hf as (?&?&?&?&?&?&?&?&->). by rw Nat.sub_0_r. }
    wp_step. eapply wp_read_at; [done|done|done|done|lia|done|].
    intros ds fr1 m1 Hds Hf1 Hs1 Hoom1 Hin1 Hdl1 Hframe1.
    wp_step. eapply (IH _ _ _ _ Hf1 Hoom1); [by rw Hs1|].
    intros dss fr2 m2 Hdss Hf2 Hin2 Hframe2. wp_steps.
    rw /= in HQ. destruct (split_lines (pend ++ c)) as [ls r]. rw /= in Hds Hdss Hf2.
    destruct (feed_lines r chunks) as [lss r']. rw /= in HQ Hdss Hf2.
    apply (HQ (ds :: dss)); [exact (f_equal2 cons Hds Hdss)|done| |].
    + rw /=. apply list.Forall_app. split; [|done].
      rw !list.Forall_forall in Hin1 Hdl1 *. intros d Hd.
      apply Hframe2; [rw Hs1; by apply Hdl1|by apply Hin1].
    + intros p b Hp Hb. apply Hframe2; [by rw Hs1|by apply Hframe1].
Qed.

(** ** A line that arrives in two reads *)
Lemma scan_app data k1 k2 i start out m :
  scan data (k1 + k2) i start out m =
  (r ← scan data k1 i start out; scan data k2 (i + Z.of_nat k1) r.1 r.2) m.
Proof.
  revert i start out m. induction k1 as [|k1 IH]; intros i start out m.
  - by rw /= Z.add_0_r.
  - rw /= /mbind /M_bind. destruct (load_at data i m) as [c m1| |]; [|done..].
    destruct (Byte.eqb c newline).
    + destruct (catch _ _ m1) as [msg m2| |]; [|done..].
      rw IH /mbind /M_bind. destruct (scan data k1 _ _ _ m2) as [[] ?| |]; [|done..].
      rw /=. f_equal. lia.
    + rw IH /mbind /M_bind. destruct (scan data k1 _ _ _ m1) as [[] ?| |]; [|done..].
      rw /=. f_equal. lia.
Qed.

(** Looking at a byte that was never written. *)
Lemma OnData_uninitialised fr m n l blk bs :
  scratch_ fr = RB (Some l) (Z.of_nat (length blk)) (Some new_deleter) →
  heap m !! l = Some blk → is_u64 (Z.of_nat (length blk)) →
  take (length bs) blk = cells bs → nonempty_lines bs = true →
  blk !! length bs = Some None → never_oom m →
  is_u64 (write_pos_ fr + Z.of_nat n) →
  (Z.of_nat (length bs) < write_pos_ fr + Z.of_nat n)%Z →
  OnData (Z.of_nat n) (fr, m) = Undef uninitialised_read.
Proof.
  intros Hs Hl Hu Htake Hne Hnone Hoom Hwp Hlt.
  destruct (split_lines_elim bs) as (ls & r & Hsplit & Hbs & Hls & Hr).
  rw /nonempty_lines Hsplit /= in Hne. apply lookup_lt_Some in Hnone as Hlen.
  rw /OnData /= /framer_OnData /mbind /M_bind /= /on_snd /= Hs add64_small //=.
  destruct (Z.to_nat (write_pos_ fr + Z.of_nat n)) as [|k] eqn:Hk; [lia|].
  assert (Hscan : scan (Some l) (S k) 0 0 [] m = Undef uninitialised_read);
    [|by rw Hscan].
  rw (_ : S k = length bs + S (k - length bs)); [lia|]. rw scan_app /mbind /M_bind.
  assert (Hfirst : wp (scan (Some l) (length bs) 0 0 [])
                     (λ _ m', heap m' !! l = Some blk) no_throw m).
  { rw {1}Hbs. apply (wp_scan_lines l blk bs Htake) with (pre := []);
      [rw /is_u64 in Hu *; lia|done|by rw Hbs|done|done| |done|].
    - apply list.Forall_forall. intros x Hx. rw forallb_forall in Hne.
      apply list_elem_of_In, Hne in Hx. by destruct x.
    - intros ds m' _ Hf Hm' _. rw Hm' lookup_with_messages_ne //.
      by eapply fresh_not_elem. }
  apply wp_returns in Hfirst as (res & m' & -> & Hl').
  by rw /= /mbind /M_bind /load_at /mem_load Hl' Nat2Z.id Hnone.
Qed.

(** Bytes without a newline stay where they are. *)
Lemma wp_OnData_no_newline fr m n bs Q E :
  framer_has fr (heap m) n bs → no_newline bs → never_oom m →
  (∀ m', heap m' = heap m → never_oom m' →
     Q [] (SLF (scratch_ fr) (Z.of_nat (length bs)), m')) →
  wp (OnData (Z.of_nat n)) Q E (fr, m).
Proof.
  intros (l & blk & Hs & Hl & Hu & Htake & Hle & Hn & Hwp) Hno Hoom HQ.
  assert (Hub : is_u64 (Z.of_nat (length bs))) by (rw /is_u64 in Hu *; lia).
  assert (Hadd : add64 (write_pos_ fr) (Z.of_nat n) = Z.of_nat (length bs)).
  { rw /is_u64 in Hub. rw Hwp add64_small /is_u64; lia. }
  rw /OnData /= /framer_OnData /set_write_pos. wp_steps. rw Hadd Hs /= Nat2Z.id.
  apply (wp_scan_lines l blk bs Htake Hub [] bs []); [done|done|done|done|done|done|].
  intros ds m1 Hds _ Hm1 Hoom1. apply fmap_nil_inv in Hds as ->.
  rw /= in Hm1. cbn beta iota. wp_step.
  eapply (wp_keep_rest l blk bs bs); [by rw Hm1|done|done|done|by exists []|done|].
  intros m2 Hm2 Hoom2. wp_steps. rw /= -Hs. apply HQ; [|by rw /never_oom Hoom2].
  rw Hm2 Hm1 splice_same ?insert_id //. by rw length_fmap.
Qed.

(** The scratch buffer of a framer, spelled out. *)
Definition framer_block (fr : SimpleLineFramer) (h : gmap loc block) (l : loc)
    (blk : block) : Prop :=
  scratch_ fr = RB (Some l) (Z.of_nat (length blk)) (Some new_deleter)
  ∧ h !! l = Some blk ∧ is_u64 (Z.of_nat (length blk)).

Lemma ctor_fresh_framer m :
  never_oom m →
  ∃ l fr m', SimpleLineFramer_ctor m = Ret fr m'
    ∧ framer_block fr (heap m') l (replicate (Z.to_nat 4096) None)
    ∧ write_pos_ fr = 0%Z ∧ never_oom m'.
Proof.
  intros Hoom. destruct (Make_new_positive 4096 m) as (l & m' & Hmake & _ & Hm' & Ho);
    [done|lia|].
  exists l, (SLF (RB (Some l) 4096 (Some new_deleter)) 0), m'. split_and!.
  - by rw /SimpleLineFramer_ctor /make_scratch /mbind /M_bind Hmake.
  - rw /framer_block Hm' lookup_insert_eq length_replicate Z2Nat.id; [lia|].
    by rw /is_u64.
  - done.
  - by rw /never_oom Ho.
Qed.

Lemma framer_block_holds_nil fr h l blk :
  framer_block fr h l blk → write_pos_ fr = 0%Z → framer_holds fr h [].
Proof.
  intros (Hs & Hl & Hu) Hwp. exists l, blk. rw Hwp take_0 /=.
  split_and!; [done|done|done|done|lia|lia|done].
Qed.

Lemma wp_first_read fr m l blk c Q E :
  framer_block fr (heap m) l blk → write_pos_ fr = 0%Z → never_oom m →
  no_newline c → 1024 ≤ length blk → length c ≤ length blk →
  (∀ m', framer_block fr (heap m') l (splice 0 (cells c) blk) → never_oom m' →
     Q [] (SLF (scratch_ fr) (Z.of_nat (length c)), m')) →
  wp (read_at at_front c) Q E (fr, m).
Proof.
  intros Hb Hwp Hoom Hno Hroom Hfit HQ.
  pose proof (framer_block_holds_nil _ _ _ _ Hb Hwp) as Hf.
  destruct Hb as (Hs & Hl & Hu).
  rw /read_at. wp_step. eapply wp_of_ret.
  { eapply PrepareRead_room; [done|]. apply Z.leb_le. rw Hs. cbn [size_ length]. lia. }
  cbn beta. wp_step. apply wp_gets. rw Hs /=. wp_step. apply wp_on_snd.
  assert (Hlen : length (splice 0 (cells c) blk) = length blk).
  { rw length_splice //. rw /cells length_fmap. lia. }
  eapply wp_mem_write; [done|rw /cells length_fmap /at_front; lia|].
  rw /at_front /=. eapply (wp_OnData_no_newline _ _ _ c); [|done|done|].
  - exists l, (splice 0 (cells c) blk). rw /= lookup_insert_eq Hlen Hwp.
    split_and!; [done|done|done| |lia|lia|f_equal; lia].
    rw -{1}(length_fmap Some c). apply take_splice_0.
  - intros m' Hm' Hoom'. apply HQ; [|done]. rw /framer_block Hm' /= Hlen.
    by rw lookup_insert_eq.
Qed.

(** The bytes a second read at the front leaves: its own, then what of the
    first read it did not overwrite. *)
Definition overlay (c1 c2 : list byte) : list byte := c2 ++ drop (length c2) c1.

Lemma second_read_undefined fr m l c1 c2 blk0 :
  framer_block fr (heap m) l (splice 0 (cells c1) blk0) →
  write_pos_ fr = Z.of_nat (length c1) → never_oom m →
  blk0 = replicate (Z.to_nat 4096) None →
  c1 ≠ [] → c2 ≠ [] → nonempty_lines (overlay c1 c2) = true →
  length c1 + length c2 ≤ 3072 →
  read_at at_front c2 (fr, m) = Undef uninitialised_read.
Proof.
  intros (Hs & Hl & Hu) Hwp Hoom Hblk Hc1 Hc2 Hne Hsum.
  assert (H1 : 0 < length c1) by (destruct c1; [done|cbn; lia]).
  assert (H2 : 0 < length c2) by (destruct c2; [done|cbn; lia]).
  assert (H0 : length blk0 = Z.to_nat 4096) by (by rw Hblk length_replicate).
  set (blk1 := splice 0 (cells c1) blk0) in *.
  assert (Hlen1 : length blk1 = Z.to_nat 4096).
  { rw length_splice //. rw /cells length_fmap H0. lia. }
  assert (Hlo : length (overlay c1 c2) = length c1 `max` length c2).
  { rw /overlay length_app length_drop. lia. }
  assert (Htake1 : take (length c1) blk1 = cells c1).
  { rw -{1}(length_fmap Some c1). apply take_splice_0. }
  assert (Hf : framer_holds fr (heap m) c1).
  { exists l, blk1. split_and!; [done|done|done|done|lia|lia|rw Hwp; f_equal; lia]. }
  assert (Hroom : has_room fr c1 = true).
  { apply Z.leb_le. rw Hs. cbn [size_]. lia. }
  set (blk2 := splice 0 (cells c2) blk1).
  assert (Hlen2 : length blk2 = length blk1).
  { rw length_splice //. rw /cells length_fmap. lia. }
  rw /read_at /mbind /M_bind (PrepareRead_room fr m c1 Hf Hroom) /gets /= Hs /=.
  rw /on_snd /mem_write /= Hl decide_True /at_front; [rw /cells length_fmap; lia|].
  rw /= -/blk2.
  apply (OnData_uninitialised _ _ _ l blk2 (overlay c1 c2));
    [by rw Hlen2|apply lookup_insert_eq|by rw Hlen2| |done| |done| |].
  - rw /overlay /cells fmap_app fmap_drop Hlo.
    rw /blk2 /splice take_0 /= -(length_fmap Some c2).
    rw take_app take_ge ?length_fmap; [lia|]. f_equal.
    change (Some <$> c1) with (cells c1). rw -Htake1 take_drop_commute.
    destruct (decide (length c2 ≤ length c1)).
    + f_equal. f_equal. lia.
    + rw !drop_ge ?length_take //; lia.
  - rw /blk2 /blk1 !lookup_splice_ge ?length_fmap ?Hlo; [lia|lia|lia|lia|].
    rw Hblk lookup_replicate_2 //. lia.
  - rw /= Hwp /is_u64. rw /is_u64 in Hu. lia.
  - rw /= Hwp Hlo. lia.
Qed.
