(* ===== verification/FramerTheorems.v ===== *)
(** * FramerTheorems: what SimpleLineFramer promises, and where its callers'
    protocol breaks it *)
From S2P Require Import Prelude Machine RawBuffer InternalMessage SimpleLineFramer LineSplit FramerCorrect.
From Stdlib Require Strings.Byte.

(** Bytes of an ASCII string, for the concrete inputs of the witnesses. *)
Definition bytes (s : string) : list byte := String.list_byte_of_string s.
Definition nl : list byte := [newline].

(** C16: [OnData(n)] on a framer whose scratch buffer starts with [bs] (the last
    [n] bytes just read) and holds no empty line returns one message per
    complete line of [bs], in order, each in a block of its own with exactly the
    line's bytes; the framer keeps exactly the unfinished rest, and every other
    block of the heap is untouched. *)
Theorem on_data_lines fr m n bs
    (Hf : framer_has fr (heap m) n bs)
    (Hne : nonempty_lines bs = true) (Hoom : never_oom m) :
  ∃ ds fr' m',
    OnData (Z.of_nat n) (fr, m) = Ret (map message_of ds) (fr', m')
    ∧ map d_line ds = (split_lines bs).1
    ∧ framer_holds fr' (heap m') (split_lines bs).2
    ∧ fresh_messages ds (heap m)
    ∧ (∀ p, Some p ≠ data_ (scratch_ fr) →
         heap m' !! p = with_messages ds (heap m) !! p).
Proof.
  assert (Hw : wp (OnData (Z.of_nat n)) (λ out st', ∃ ds, out = map message_of ds
    ∧ map d_line ds = (split_lines bs).1
    ∧ framer_holds st'.1 (heap st'.2) (split_lines bs).2 ∧ fresh_messages ds (heap m)
    ∧ (∀ p, Some p ≠ data_ (scratch_ fr) →
         heap st'.2 !! p = with_messages ds (heap m) !! p)) no_throw (fr, m)).
  { eapply wp_OnData; [done..|]. intros ds fr' m' ? ? ? ? ? ?. by exists ds. }
  apply wp_returns in Hw as (out & [fr' m'] & Hret & ds & -> & ? & ? & ? & ?).
  by exists ds, fr', m'.
Qed.

Definition demo_block (bs : list byte) : block := cells bs ++ [None; None].
Definition demo_mach (bs : list byte) : mach :=
  set_heap {[ 1%positive := demo_block bs ]} mach0.
Definition demo_framer (bs : list byte) (wp : Z) : SimpleLineFramer :=
  SLF (RB (Some 1%positive) (Z.of_nat (length (demo_block bs))) (Some new_deleter)) wp.
Definition demo_bytes : list byte := bytes "ab" ++ nl ++ bytes "c" ++ nl ++ bytes "de".

Lemma demo_has n : n ≤ 7 →
  framer_has (demo_framer demo_bytes (7 - Z.of_nat n)) (heap (demo_mach demo_bytes)) n demo_bytes.
Proof.
  intros Hn. exists 1%positive, (demo_block demo_bytes).
  split_and!; [done|done|done|done|cbn; lia|done|cbn; lia].
Qed.

Lemma on_data_lines_witness :
  ∃ ds fr' m',
    OnData 4 (demo_framer demo_bytes 3, demo_mach demo_bytes)
      = Ret (map message_of ds) (fr', m')
    ∧ map d_line ds = [bytes "ab"; bytes "c"].
Proof.
  destruct (on_data_lines (demo_framer demo_bytes 3) (demo_mach demo_bytes) 4 demo_bytes)
    as (ds & fr' & m' & Hret & Hlines & _); [|done|done|].
  - apply (demo_has 4). lia.
  - exists ds, fr', m'. split; [exact Hret|exact Hlines].
Defined.

(** Reads from a new framer on. *)
Definition session_reads (front : bool) (chunks : list (list byte)) :
    M mach (list (list InternalMessage) * SimpleLineFramer) := λ m,
  match SimpleLineFramer_ctor m with
  | Ret fr m1 =>
      match reads (read_offset front) chunks (fr, m1) with
      | Ret mss (fr', m') => Ret (mss, fr') m'
      | Throw e (_, m') => Throw e m'
      | Undef u => Undef u
      end
  | Throw e m1 => Throw e m1
  | Undef u => Undef u
  end.

Lemma session_reads_ok front chunks m :
  never_oom m → chunks_fit front 4096 [] chunks = true →
  ∃ dss fr' m', session_reads front chunks m = Ret (messages_of dss, fr') m'
    ∧ lines_of dss = (feed_lines [] chunks).1
    ∧ concat (lines_of dss) = (split_lines (concat chunks)).1
    ∧ framer_holds fr' (heap m') (split_lines (concat chunks)).2
    ∧ Forall (in_heap (heap m')) (concat dss).
Proof.
  intros Hoom Hfit.
  destruct (ctor_fresh_framer m Hoom) as (l & fr & m1 & Hctor & Hb & Hwp & Hoom1).
  pose proof (framer_block_holds_nil _ _ _ _ Hb Hwp) as Hf.
  destruct Hb as (Hs & _).
  pose proof (feed_lines_concat [] chunks) as Hfeed.
  assert (Hw : wp (reads (read_offset front) chunks) (λ mss st', ∃ dss,
      mss = messages_of dss ∧ lines_of dss = (feed_lines [] chunks).1
      ∧ framer_holds st'.1 (heap st'.2) (feed_lines [] chunks).2
      ∧ Forall (in_heap (heap st'.2)) (concat dss)) no_throw (fr, m1)).
  { eapply wp_reads; [done|done| |].
    - rw Hs /size_ length_replicate Z2Nat.id; [lia|done].
    - intros dss fr' m' ? ? ? _. by exists dss. }
  apply wp_returns in Hw as (mss & [fr' m'] & Hret & dss & -> & Hl & Hf' & Hin).
  exists dss, fr', m'. rw /session_reads Hctor Hret. cbn [fst snd] in *.
  rw -(Hfeed) /=; [by constructor|]. by rw Hl.
Qed.


Definition demo_chunks : list (list byte) :=
  [bytes "GET"; bytes " a" ++ nl ++ bytes "PU"; bytes "T b" ++ nl].


(** A short stream fits however it is cut. *)
Lemma short_stream_fits pend chunks :
  nonempty_lines (pend ++ concat chunks) = true → length (pend ++ concat chunks) ≤ 3072 →
  chunks_fit false 4096 pend chunks = true.
Proof.
  induction chunks as [|c chunks IH] in pend |- *; intros Hne Hlen; [done|].
  rw /= app_assoc in Hne Hlen. rw /= !andb_true_iff. rw !length_app in Hlen.
  rw /nonempty_lines split_lines_app /= forallb_app in Hne. simp_bools.
  assert (Hrest : length (split_lines (pend ++ c)).2 ≤ length (pend ++ c)).
  { destruct (split_lines_elim (pend ++ c)) as (ls & r & Hs & Hj & _).
    rw Hs Hj /join_lines length_app /=. lia. }
  split_and!; [by apply Z.leb_le; lia|apply Z.leb_le; rw length_app; lia|done|done|].
  apply IH; [done|]. rw length_app in Hrest. rw length_app. lia.
Qed.

(** Reads of whole lines, as they are sent together: each gives back its own lines. *)
Definition sent (ls : list (list byte)) : list byte := join_lines ls [].

Definition sendable (ls : list (list byte)) : Prop := Forall (.≠ []) ls ∧ Forall no_newline ls.

Lemma split_sent ls : sendable ls → split_lines (sent ls) = (ls, []).
Proof. intros [_ Hls]. apply split_lines_join; [done|by constructor]. Qed.

Lemma sendable_nonempty ls r : sendable ls → no_newline r → nonempty_lines (join_lines ls r) = true.
Proof.
  intros [Hne Hls] Hr. rw /nonempty_lines split_lines_join //. apply forallb_forall.
  intros [|c l] Hl; [|done]. by specialize (proj1 (List.Forall_forall _ _) Hne _ Hl).
Qed.

Lemma sent_fits batches :
  Forall sendable batches → Forall (λ ls, length (sent ls) ≤ 4096) batches →
  chunks_fit true 4096 [] (sent <$> batches) = true.
Proof.
  intros Hb Hlen. induction Hb as [|ls batches Hls _ IH]; [done|].
  apply list.Forall_cons in Hlen as [Hl Hlen]. rw /= (split_sent ls Hls) /= (IH Hlen).
  rw !andb_true_r /= sendable_nonempty //; [by constructor|]. rw andb_true_r. apply Z.leb_le. lia.
Qed.

Lemma feed_sent batches : Forall sendable batches → feed_lines [] (sent <$> batches) = (batches, []).
Proof.
  intros Hb. induction Hb as [|ls batches Hls _ IH]; [done|].
  rw /= (split_sent ls Hls). by rw /= in IH; rw IH.
Qed.

Lemma sendable_concat batches : Forall sendable batches → sendable (concat batches).
Proof.
  intros Hb. split; apply Forall_concat; (eapply Forall_impl; [|exact Hb]); by intros ls [].
Qed.

(** C29: framing is a round trip, for each of the two places a read may start.  Lines
    without a newline in them, none empty, are sent each with a newline behind it.  Where
    each read starts at [data()], as the repository's callers read, and takes a batch of
    whole lines of up to 4096 bytes, it gives back its own batch, byte for byte and in
    order (a line over two reads would be undefined, [split_line_undefined]).  Where a
    read appends to what is held, which no caller does, the stream may be cut into reads
    in any way, up to 3072 bytes: exactly the lines come out, and what was sent of a
    further line is held. *)
Theorem lines_roundtrip m (batches : list (list (list byte))) r chunks
    (Hoom : never_oom m) (Hls : Forall sendable batches) (Hr : no_newline r) :
  (Forall (λ ls, length (sent ls) ≤ 4096) batches →
   ∃ dss fr' m',
     session_reads true (sent <$> batches) m = Ret (messages_of dss, fr') m'
     ∧ lines_of dss = batches ∧ framer_holds fr' (heap m') []
     ∧ Forall (in_heap (heap m')) (concat dss))
  ∧ (concat chunks = join_lines (concat batches) r →
     length (join_lines (concat batches) r) ≤ 3072 →
     ∃ dss fr' m',
       session_reads false chunks m = Ret (messages_of dss, fr') m'
       ∧ concat (lines_of dss) = concat batches ∧ framer_holds fr' (heap m') r
       ∧ Forall (in_heap (heap m')) (concat dss)).
Proof.
  split.
  - intros Hlen.
    destruct (session_reads_ok true _ m Hoom (sent_fits batches Hls Hlen))
      as (dss & fr' & m' & Hret & Hl & Hall & Hf & Hin).
    pose proof (feed_lines_concat [] (sent <$> batches) ltac:(by constructor)) as Hfeed.
    rw app_nil_l in Hfeed. rw -Hfeed (feed_sent batches Hls) in Hl Hf. by exists dss, fr', m'.
  - intros Hcut Hlen. pose proof (sendable_concat batches Hls) as Hs.
    assert (Hfit : chunks_fit false 4096 [] chunks = true).
    { apply short_stream_fits; rw app_nil_l Hcut; [by apply sendable_nonempty|done]. }
    destruct (session_reads_ok false chunks m Hoom Hfit)
      as (dss & fr' & m' & Hret & _ & Hl & Hf & Hin).
    rw Hcut (split_lines_join _ r (proj2 Hs) Hr) in Hl Hf. by exists dss, fr', m'.
Qed.

Definition demo_batches : list (list (list byte)) :=
  [[bytes "HELO"; bytes "x"]; []; [bytes "GET a"]].

Lemma lines_roundtrip_witness :
  (∃ dss fr' m', session_reads true (sent <$> demo_batches) mach0 = Ret (messages_of dss, fr') m'
     ∧ lines_of dss = demo_batches)
  ∧ ∃ dss fr' m', session_reads false [bytes "HE"; bytes "LO" ++ nl ++ bytes "x" ++ nl ++ bytes "GE";
                                       bytes "T a" ++ nl ++ bytes "QU"] mach0
                  = Ret (messages_of dss, fr') m'
      ∧ concat (lines_of dss) = [bytes "HELO"; bytes "x"; bytes "GET a"].
Proof.
  destruct (lines_roundtrip mach0 demo_batches (bytes "QU")
    [bytes "HE"; bytes "LO" ++ nl ++ bytes "x" ++ nl ++ bytes "GE"; bytes "T a" ++ nl ++ bytes "QU"])
    as [H1 H2]; [done|by repeat constructor|by repeat constructor|]. split.
  - destruct H1 as (dss & fr' & m' & Hret & Hl & _); [repeat constructor; cbn; lia|].
    exists dss, fr', m'. split; [exact Hret|exact Hl].
  - destruct H2 as (dss & fr' & m' & Hret & Hl & _); [by vm_compute|cbn; lia|].
    exists dss, fr', m'. split; [exact Hret|exact Hl].
Defined.

(** With the read protocol the framer's base class documents (every read
    starts at [data()]), the framer is correct as long as every read ends at the
    end of a line: each read delivers exactly its own lines. *)
Theorem whole_line_reads m chunks
    (Hoom : never_oom m) (Hfit : chunks_fit true 4096 [] chunks = true) :
  ∃ dss fr' m',
    session_reads true chunks m = Ret (messages_of dss, fr') m'
    ∧ lines_of dss = (feed_lines [] chunks).1
    ∧ concat (lines_of dss) = (split_lines (concat chunks)).1
    ∧ framer_holds fr' (heap m') (split_lines (concat chunks)).2
    ∧ Forall (in_heap (heap m')) (concat dss).
Proof. by apply session_reads_ok. Qed.

Lemma whole_line_reads_witness :
  ∃ dss fr' m',
    session_reads true [bytes "a" ++ nl ++ bytes "b" ++ nl; bytes "c" ++ nl] mach0
      = Ret (messages_of dss, fr') m'
    ∧ lines_of dss = [[bytes "a"; bytes "b"]; [bytes "c"]].
Proof.
  destruct (whole_line_reads mach0 [bytes "a" ++ nl ++ bytes "b" ++ nl; bytes "c" ++ nl])
    as (dss & fr' & m' & Hret & Hl & _); [done|by vm_compute|].
  exists dss, fr', m'. split; [exact Hret|exact Hl].
Defined.

(** With the documented read protocol, a line that arrives in two reads is
    undefined behaviour: the second read overwrites the start of the first and
    [OnData] then examines bytes that were never written. *)
Theorem split_line_undefined m c1 c2
    (Hoom : never_oom m) (H1 : c1 ≠ []) (H2 : c2 ≠ []) (Hno : no_newline c1)
    (Hne : nonempty_lines (overlay c1 c2) = true)
    (Hsum : length c1 + length c2 ≤ 3072) :
  session_reads true [c1; c2] m = Undef uninitialised_read.
Proof.
  destruct (ctor_fresh_framer m Hoom) as (l & fr & m1 & Hctor & Hb & Hwp & Hoom1).
  assert (Hw : wp (read_at at_front c1) (λ out st', out = []
      ∧ st'.1 = SLF (scratch_ fr) (Z.of_nat (length c1))
      ∧ framer_block fr (heap st'.2) l
          (splice 0 (cells c1) (replicate (Z.to_nat 4096) None))
      ∧ never_oom st'.2) no_throw (fr, m1)).
  { eapply wp_first_read; [done|done|done|done| | |].
    - rw length_replicate. lia.
    - rw length_replicate. lia.
    - by intros m' Hb' Hoom'. }
  apply wp_returns in Hw as (out & [fr' m'] & Hret & -> & Hfr & Hb' & Hoom').
  cbn [fst snd] in *. subst fr'.
  rw /session_reads Hctor /= /mbind /M_bind Hret.
  by rw (second_read_undefined (SLF (scratch_ fr) (Z.of_nat (length c1)))
           m' l c1 c2 _ Hb').
Qed.

Lemma split_line_undefined_witness :
  session_reads true [bytes "hel"; bytes "lo" ++ nl] mach0 = Undef uninitialised_read.
Proof.
  apply (split_line_undefined mach0 (bytes "hel") (bytes "lo" ++ nl));
    [done|done|done|by repeat constructor|done|cbn; lia].
Defined.

(** An empty line among the bytes makes [OnData] throw: the messages of the
    lines before it are freed and lost, one block of size 0 is leaked, and the
    framer still counts all its bytes, so it has not moved past the empty line. *)
Theorem empty_line_throws fr m n bs ls ls' r
    (Hf : framer_has fr (heap m) n bs) (Hoom : never_oom m)
    (Hsplit : split_lines bs = (ls ++ [] :: ls', r))
    (Hls : Forall (λ x, x ≠ []) ls) :
  ∃ q m', OnData (Z.of_nat n) (fr, m)
      = Throw (invalid_argument "RawBuffer: invalid construction arguments.")
          (SLF (scratch_ fr) (Z.of_nat (length bs)), m')
    ∧ heap m !! q = None ∧ heap m' = <[q := []]> (heap m).
Proof.
  assert (Hw : wp (OnData (Z.of_nat n)) (λ _ _, False) (λ e st', ∃ q,
      e = invalid_argument "RawBuffer: invalid construction arguments."
      ∧ st'.1 = SLF (scratch_ fr) (Z.of_nat (length bs))
      ∧ heap m !! q = None ∧ heap st'.2 = <[q := []]> (heap m)) (fr, m)).
  { eapply wp_OnData_empty_line; [done..|]. intros q m' ? ? ?. by exists q. }
  rw /wp in Hw. destruct (OnData _ _) as [| e [fr' m'] |]; [done| |done].
  destruct Hw as (q & -> & Hfr & ? & ?). cbn [fst snd] in *. subst fr'.
  by exists q, m'.
Qed.

Definition demo_empty : list byte := bytes "ab" ++ nl ++ nl ++ bytes "c".

Lemma empty_line_throws_witness :
  ∃ q m', OnData 5 (demo_framer demo_empty 0, demo_mach demo_empty)
      = Throw (invalid_argument "RawBuffer: invalid construction arguments.")
          (SLF (scratch_ (demo_framer demo_empty 0)) 5, m')
    ∧ heap (demo_mach demo_empty) !! q = None
    ∧ heap m' = <[q := []]> (heap (demo_mach demo_empty)).
Proof.
  apply (empty_line_throws (demo_framer demo_empty 0) (demo_mach demo_empty) 5 demo_empty
           [bytes "ab"] [] (bytes "c")); [|done|done|by repeat constructor].
  exists 1%positive, (demo_block demo_empty).
  split_and!; [done|done|done|done|cbn; lia|cbn; lia|done].
Defined.

(** After [PrepareRead] at least 1024 bytes are free behind [write_pos_];
    with less room than that it gives a new buffer and the bytes the framer held
    are lost. *)
Theorem prepare_read_room fr m bs
    (Hf : framer_holds fr (heap m) bs) (Hoom : never_oom m)
    (Hu : is_u64 (Z.of_nat (length bs) + 4096)) :
  ∃ fr' m', PrepareRead (fr, m) = Ret (scratch_ fr') (fr', m')
    ∧ (1024 ≤ size_ (scratch_ fr') - write_pos_ fr')%Z
    ∧ framer_holds fr' (heap m')
        (if (1024 <=? size_ (scratch_ fr) - write_pos_ fr)%Z then bs else []).
Proof.
  assert (Hwp : write_pos_ fr = Z.of_nat (length bs)).
  { destruct Hf as (?&?&?&?&?&?&?&?&->). by rw Nat.sub_0_r. }
  rw Hwp -/(has_room fr bs). destruct (has_room fr bs) eqn:Hroom.
  - exists fr, m. split_and!; [by eapply PrepareRead_room| |done].
    rw Hwp. by apply Z.leb_le in Hroom.
  - destruct (PrepareRead_no_room fr m bs Hf Hroom Hoom Hu)
      as (fr' & m' & Hret & Hsize & Hf' & _).
    exists fr', m'. split_and!; [done| |done].
    destruct Hf' as (?&?&?&?&?&?&?&?&->). rw Hsize /=. lia.
Qed.

Lemma prepare_read_room_witness :
  ∃ fr' m', PrepareRead (demo_framer demo_bytes 7, demo_mach demo_bytes)
      = Ret (scratch_ fr') (fr', m')
    ∧ (1024 ≤ size_ (scratch_ fr') - write_pos_ fr')%Z
    ∧ framer_holds fr' (heap m') [].
Proof.
  apply (prepare_read_room (demo_framer demo_bytes 7) (demo_mach demo_bytes) demo_bytes);
    [|done|by rw /is_u64].
  apply (demo_has 0). lia.
Defined.
