(* ===== verification/WriteQueueSG.v ===== *)
(** * WriteQueueSG: the scatter/gather write queue (stream/write_queue_sg.h)

    Every member function posts a lambda to the object's strand, so the lambdas
    run one at a time; a step here is one lambda, except that the completion
    lambda of [async_write] is two steps, because it calls the caller's handler
    in the middle and a handler may call back into the queue, which runs inline
    ([SComplete], the handler's own calls, then [SResume]).

    The stream and its operations are asio's.  What the queue does to them is
    logged, and the writes asio has accepted and not yet completed are
    [in_flight]; a completion takes one of them, with an error or without. *)
From S2P Require Import Prelude.

Section WriteQueue.
Context {B H : Type}.

(** A queued element: the buffers and the optional completion handler. *)
Definition element : Type := B * option H.

Inductive effect :=
  | CallHandler (h : H) (ok : bool)
  | AsyncWrite (e : element)
  | StreamCancel.

Record WriteQueueSG := WQ {
  write_queue_ : list element;
  max_queue_size_ : Z;
  max_queue_enabled_ : bool;
  writing_ : bool;
  graceful_shutdown_ : bool
}.

Definition WriteQueueSG_ctor (max_queue : Z) : WriteQueueSG :=
  WQ [] max_queue true false false.

(** The queue and what is around it: asio's pending writes, the completion
    lambda that has called its handler and not gone on yet (with its error
    flag), and the log. *)
Record world := World {
  queue : WriteQueueSG;
  in_flight : list element;
  completing : option bool;
  log : list effect
}.

Definition world0 (max_queue : Z) : world := World (WriteQueueSG_ctor max_queue) [] None [].

Definition set_queue (q : WriteQueueSG) (w : world) : world :=
  World q (in_flight w) (completing w) (log w).
Definition emit (e : effect) (w : world) : world :=
  World (queue w) (in_flight w) (completing w) (log w ++ [e]).
Definition set_completing (c : option bool) (w : world) : world :=
  World (queue w) (in_flight w) c (log w).
Definition set_in_flight (l : list element) (w : world) : world :=
  World (queue w) l (completing w) (log w).

(** [if (handler) handler(ok)]. *)
Definition call_handler (h : option H) (ok : bool) (w : world) : world :=
  match h with Some h => emit (CallHandler h ok) w | None => w end.

(** The stream's [async_write]. *)
Definition start_write (e : element) (w : world) : world :=
  emit (AsyncWrite e) (set_in_flight (in_flight w ++ [e]) w).

Definition with_queue (l : list element) (writing : bool) (q : WriteQueueSG) : WriteQueueSG :=
  WQ l (max_queue_size_ q) (max_queue_enabled_ q) writing (graceful_shutdown_ q).

Definition DoWrite (w : world) : world :=
  let q := queue w in
  match write_queue_ q with
  | [] =>
      let q := with_queue (write_queue_ q) false q in
      set_queue (if graceful_shutdown_ q then with_queue [] (writing_ q) q else q) w
  | e :: rest => start_write e (set_queue (with_queue rest true q) w)
  end.

Definition EnableMaxQueue (enable : bool) (w : world) : world :=
  let q := queue w in
  set_queue (WQ (write_queue_ q) (max_queue_size_ q) enable (writing_ q)
               (graceful_shutdown_ q)) w.

(** The backpressure test. *)
Definition rejects (q : WriteQueueSG) : bool :=
  max_queue_enabled_ q
  && (max_queue_size_ q <=? Z.of_nat (length (write_queue_ q)))%Z.

Definition AsyncSend (buffers : B) (handler : option H) (w : world) : world :=
  let q := queue w in
  if rejects q then call_handler handler false w
  else
    let w' := set_queue (with_queue (write_queue_ q ++ [(buffers, handler)])
                           (writing_ q) q) w in
    if writing_ q then w' else DoWrite w'.

Definition Close (force : bool) (w : world) : world :=
  let q := queue w in
  if force then set_queue (with_queue [] false q) (emit StreamCancel w)
  else set_queue (WQ (write_queue_ q) (max_queue_size_ q) (max_queue_enabled_ q)
                    (writing_ q) true) w.

(** The completion lambda: up to and with the handler's call ... *)
Definition complete (i : nat) (ec : bool) (w : world) : option world :=
  match completing w, in_flight w !! i with
  | None, Some e =>
      Some (call_handler e.2 (negb ec)
              (set_completing (Some ec) (set_in_flight (delete i (in_flight w)) w)))
  | _, _ => None
  end.

(** ... and after it. *)
Definition resume (w : world) : option world :=
  match completing w with
  | None => None
  | Some ec =>
      let w' := set_completing None w in
      Some (if ec then set_queue (with_queue [] (writing_ (queue w)) (queue w)) w'
            else DoWrite w')
  end.

Inductive label :=
  | SEnable (enable : bool)
  | SSend (buffers : B) (handler : option H)
  | SClose (force : bool)
  | SComplete (i : nat) (ec : bool)
  | SResume.

Definition step (w : world) (l : label) : option world :=
  match l with
  | SEnable b => Some (EnableMaxQueue b w)
  | SSend b h => Some (AsyncSend b h w)
  | SClose f => Some (Close f w)
  | SComplete i ec => complete i ec w
  | SResume => resume w
  end.

Fixpoint run (w : world) (ls : list label) : option world :=
  match ls with
  | [] => Some w
  | l :: ls => w' ← step w l; run w' ls
  end.

(** ** What a run did *)
Definition started (w : world) : list element :=
  omap (λ e, match e with AsyncWrite x => Some x | _ => None end) (log w).
Definition calls (w : world) : list (H * bool) :=
  omap (λ e, match e with CallHandler h ok => Some (h, ok) | _ => None end) (log w).

(** What a handler, if there is one, is told. *)
Definition told (h : option H) (ok : bool) : list (H * bool) :=
  match h with Some h => [(h, ok)] | None => [] end.

(** The handlers called with success. *)
Definition successes (w : world) : list H :=
  omap (λ c : H * bool, if c.2 then Some c.1 else None) (calls w).

(** The element a step puts in the queue. *)
Definition accepts (w : world) (l : label) : list element :=
  match l with
  | SSend b h => if rejects (queue w) then [] else [(b, h)]
  | _ => []
  end.

(** The elements the sends of a run put in the queue, in order. *)
Fixpoint accepted (w : world) (ls : list label) : list element :=
  match ls with
  | [] => []
  | l :: ls =>
      match step w l with
      | None => []
      | Some w' => accepts w l ++ accepted w' ls
      end
  end.

Definition is_force (l : label) : bool :=
  match l with SClose true => true | _ => false end.
Definition is_error (l : label) : bool :=
  match l with SComplete _ true => true | _ => false end.
Definition disables (l : label) : bool :=
  match l with SEnable false => true | _ => false end.

(** ** Lemmas on the log *)
Lemma started_emit e w :
  started (emit e w) = started w ++ match e with AsyncWrite x => [x] | _ => [] end.
Proof. rw /started /= omap_app. by destruct e. Qed.

Lemma started_call h ok w : started (call_handler h ok w) = started w.
Proof. destruct h; [|done]. by rw /= started_emit app_nil_r. Qed.

Lemma calls_call h ok w :
  calls (call_handler h ok w) = calls w ++ told h ok.
Proof. destruct h; rw /calls /= ?omap_app ?app_nil_r //. Qed.

Lemma started_Close f w : started (Close f w) = started w.
Proof.
  destruct f; [|done].
  rw -[RHS]app_nil_r. exact (started_emit StreamCancel w).
Qed.

Lemma queue_call h ok w : queue (call_handler h ok w) = queue w.
Proof. by destruct h. Qed.
Lemma in_flight_call h ok w : in_flight (call_handler h ok w) = in_flight w.
Proof. by destruct h. Qed.
Lemma completing_call h ok w : completing (call_handler h ok w) = completing w.
Proof. by destruct h. Qed.

(** The clear of an empty queue does nothing. *)
Lemma DoWrite_eq w :
  DoWrite w =
  match write_queue_ (queue w) with
  | [] => set_queue (with_queue [] false (queue w)) w
  | e :: rest => start_write e (set_queue (with_queue rest true (queue w)) w)
  end.
Proof.
  rw /DoWrite. destruct (write_queue_ (queue w)) as [|e rest] eqn:Hq; [|done].
  rw /with_queue /=. by destruct (graceful_shutdown_ (queue w)).
Qed.

(** ** Invariants

    A property of a world and of the elements accepted so far that every step
    keeps holds after every run. *)
Lemma run_invariant (I : world → list element → Prop) (ok : label → Prop) :
  (∀ w l w' acc, ok l → step w l = Some w' → I w acc → I w' (acc ++ accepts w l)) →
  ∀ ls w w' acc, Forall ok ls → run w ls = Some w' → I w acc →
    I w' (acc ++ accepted w ls).
Proof.
  intros Hstep ls. induction ls as [|l ls IH]; intros w w' acc Hok Hrun HI.
  - simplify_eq/=. by rw app_nil_r.
  - apply list.Forall_cons in Hok as [Hl Hok]. rw /= in Hrun *.
    destruct (step w l) as [w1|] eqn:Hs; [|done].
    rw app_assoc. eapply IH; [done|done|by eapply Hstep].
Qed.

(** At most one write is in flight or completing, and only while [writing_]. *)
Definition single_writer (w : world) : Prop :=
  length (in_flight w) + (if completing w is Some _ then 1 else 0) ≤ 1
  ∧ (writing_ (queue w) = false → in_flight w = [] ∧ completing w = None).

(** Elements wait only while a write is out (or has failed). *)
Definition waits_only_writing (w : world) : Prop :=
  writing_ (queue w) = false → write_queue_ (queue w) = [].

Lemma step_waits w l w' :
  step w l = Some w' → waits_only_writing w → waits_only_writing w'.
Proof.
  rw /waits_only_writing. intros Hs Hw. destruct l as [b|b h|f|i ec|]; simplify_eq/=.
  - done.
  - rw /AsyncSend. destruct (rejects _); [by rw queue_call|].
    destruct (writing_ (queue w)) eqn:Hwr; rw /=; [congruence|].
    by rw DoWrite_eq /= Hw.
  - by destruct f.
  - rw /complete in Hs. repeat case_match; simplify_eq/=. by rw queue_call.
  - rw /resume in Hs. case_match; simplify_eq/=. case_match; rw /=; [done|].
    rw DoWrite_eq /=. by destruct (write_queue_ (queue w)).
Qed.

Lemma step_single_writer w l w' :
  is_force l = false → step w l = Some w' → single_writer w → single_writer w'.
Proof.
  intros Hf Hs [Hone Hidle]. destruct l as [b|b h|f|i ec|]; simplify_eq/=.
  - done.
  - rw /AsyncSend. destruct (rejects _).
    { by rw /single_writer queue_call in_flight_call completing_call. }
    destruct (writing_ (queue w)) eqn:Hwr; [by split; rw /= ?Hwr|].
    destruct (Hidle eq_refl) as [Hfl Hc].
    rw DoWrite_eq /=. destruct (write_queue_ (queue w)); by split; rw /= ?Hfl ?Hc.
  - by destruct f.
  - rw /complete in Hs. repeat case_match; simplify_eq/=.
    rw /single_writer queue_call in_flight_call completing_call /=.
    match goal with H : in_flight w !! i = Some _ |- _ => rename H into Hi end.
    pose proof (lookup_lt_Some _ _ _ Hi). rw length_delete //.
    split; [lia|]. intros Hwr. destruct (Hidle Hwr) as [Hfl _]. by rw Hfl in Hi.
  - rw /resume in Hs. case_match; simplify_eq/=.
    destruct (in_flight w) eqn:Hfl; [|cbn in Hone; lia].
    case_match; simplify_eq/=.
    + split; rw /= Hfl; [cbn; lia|done].
    + rw DoWrite_eq /=. destruct (write_queue_ (queue w)); split; rw /= ?Hfl; (done || (cbn; lia)).
Qed.

(** The order of the writes: what has been started and what waits comes from
    the accepted elements, in their order. *)
Definition in_order (w : world) (acc : list element) : Prop :=
  sublist (started w ++ write_queue_ (queue w)) acc.

Lemma started_DoWrite w :
  started (DoWrite w) ++ write_queue_ (queue (DoWrite w))
  = started w ++ write_queue_ (queue w).
Proof.
  rw DoWrite_eq. destruct (write_queue_ (queue w)) as [|e rest] eqn:Hq; [done|].
  rw /start_write started_emit /= -app_assoc. done.
Qed.

Lemma step_in_order w l w' acc :
  step w l = Some w' → in_order w acc → in_order w' (acc ++ accepts w l).
Proof.
  rw /in_order. intros Hs Hsub. destruct l as [b|b h|f|i ec|]; simplify_eq/=;
    rw ?app_nil_r.
  - done.
  - rw /AsyncSend. destruct (rejects _).
    { by rw started_call queue_call app_nil_r. }
    destruct (writing_ (queue w)); rw ?started_DoWrite /= app_assoc;
      (apply sublist_app; [done|reflexivity]).
  - rw started_Close. destruct f; [|done]. etrans; [|exact Hsub].
    rw /= app_nil_r. by apply sublist_inserts_r.
  - rw /complete in Hs. repeat case_match; simplify_eq/=.
    by rw started_call queue_call.
  - rw /resume in Hs. case_match; simplify_eq/=. case_match; rw ?started_DoWrite //=.
    etrans; [|exact Hsub]. rw app_nil_r. by apply sublist_inserts_r.
Qed.

(** Runs without a forced close and without a write error. *)
Definition smooth (l : label) : Prop := is_force l = false ∧ is_error l = false.

(** Nothing is lost: what was accepted is completed with success (its handler
    told so), in flight or completing, or waiting, in this order. *)
Definition accounted (w : world) (acc : list element) : Prop :=
  single_writer w ∧ completing w ≠ Some true ∧
  ∃ finished, started w = finished ++ in_flight w
              ∧ started w ++ write_queue_ (queue w) = acc
              ∧ successes w = omap snd finished.

Lemma calls_emit e w :
  calls (emit e w) = calls w ++ match e with CallHandler h ok => [(h, ok)] | _ => [] end.
Proof. rw /calls /= omap_app. by destruct e. Qed.

Lemma successes_call h ok w :
  successes (call_handler h ok w)
  = successes w ++ (if ok then match h with Some h => [h] | None => [] end else []).
Proof. rw /successes calls_call omap_app. by destruct h, ok. Qed.

Lemma successes_DoWrite w : successes (DoWrite w) = successes w.
Proof.
  rw DoWrite_eq. destruct (write_queue_ (queue w)); [done|].
  rw /successes /start_write calls_emit omap_app /= app_nil_r. done.
Qed.

Lemma started_in_flight_DoWrite w finished :
  started w = finished ++ in_flight w →
  started (DoWrite w) = finished ++ in_flight (DoWrite w).
Proof.
  rw DoWrite_eq. destruct (write_queue_ (queue w)); [done|].
  rw /start_write started_emit /= app_assoc. by intros <-.
Qed.

Lemma completing_DoWrite w : completing (DoWrite w) = completing w.
Proof. rw DoWrite_eq. by destruct (write_queue_ (queue w)). Qed.

Lemma step_accounted w l w' acc :
  smooth l → step w l = Some w' → accounted w acc → accounted w' (acc ++ accepts w l).
Proof.
  intros [Hf He] Hs (Hsw & Hc & fin & Hfl & Hacc & Hsucc).
  split; [by eapply step_single_writer|].
  destruct l as [b|b h|f|i ec|]; simplify_eq/=; rw ?app_nil_r.
  - split; [done|by exists fin].
  - rw /AsyncSend. destruct (rejects _).
    { rw completing_call. split; [done|]. exists fin.
      by rw started_call queue_call in_flight_call successes_call !app_nil_r. }
    destruct (writing_ (queue w)); rw ?completing_DoWrite; (split; [done|]); exists fin.
    + by rw /= app_assoc.
    + split_and!; [by apply started_in_flight_DoWrite| |by rw successes_DoWrite].
      by rw started_DoWrite /= app_assoc.
  - destruct f; [done|]. split; [done|by exists fin].
  - rw /complete in Hs. repeat case_match; simplify_eq/=.
    rw completing_call. split; [done|].
    match goal with E : in_flight w !! i = Some ?x |- _ => rename E into Hi, x into el end.
    destruct Hsw as [Hone _]. pose proof (lookup_lt_Some _ _ _ Hi) as Hlt.
    destruct (in_flight w) as [|e' [|]] eqn:Hw; cbn in Hone, Hlt; [lia| |lia].
    destruct i; [|lia]. simplify_eq/=. exists (fin ++ [el]).
    rw started_call queue_call in_flight_call successes_call /= app_nil_r.
    split_and!; [done|done|]. rw omap_app /=. rw /successes /= in Hsucc *.
    by destruct el as [? []]; rw /= -Hsucc.
  - rw /resume in Hs. case_match; simplify_eq/=. case_match; [done|].
    simplify_eq/=. rw completing_DoWrite. split; [done|]. exists fin.
    split_and!; [by apply started_in_flight_DoWrite|by rw started_DoWrite|
                 by rw successes_DoWrite].
Qed.

(** The queue's length while backpressure is on. *)
Definition bounded (w : world) : Prop :=
  max_queue_enabled_ (queue w) = true
  ∧ (Z.of_nat (length (write_queue_ (queue w))) ≤ max_queue_size_ (queue w))%Z
  ∧ (0 ≤ max_queue_size_ (queue w))%Z.

Lemma bounded_DoWrite w :
  max_queue_enabled_ (queue w) = true →
  (Z.of_nat (length (write_queue_ (queue w))) ≤ max_queue_size_ (queue w))%Z →
  (0 ≤ max_queue_size_ (queue w))%Z →
  bounded (DoWrite w) ∧ max_queue_size_ (queue (DoWrite w)) = max_queue_size_ (queue w).
Proof.
  rw /bounded DoWrite_eq. destruct (write_queue_ (queue w)); intros; split_and!; cbn in *; (done || lia).
Qed.

Lemma step_bounded w l w' :
  disables l = false → step w l = Some w' → bounded w →
  bounded w' ∧ max_queue_size_ (queue w') = max_queue_size_ (queue w).
Proof.
  intros Hd Hs (Hen & Hlen & Hpos). destruct l as [b|b h|f|i ec|]; simplify_eq/=.
  - by destruct b.
  - rw /AsyncSend. destruct (rejects _) eqn:Hr.
    { by rw /bounded queue_call. }
    rw /rejects Hen /= in Hr. apply Z.leb_gt in Hr.
    assert (Hsnoc : (Z.of_nat (length (write_queue_ (queue w) ++ [(b, h)]))
                     ≤ max_queue_size_ (queue w))%Z).
    { rw length_app /=. lia. }
    destruct (writing_ (queue w)); [by rw /bounded|].
    by apply (bounded_DoWrite
      (set_queue (with_queue (write_queue_ (queue w) ++ [(b, h)]) false (queue w)) w)).
  - destruct f; by rw /bounded /=.
  - rw /complete in Hs. repeat case_match; simplify_eq/=. by rw /bounded queue_call.
  - rw /resume in Hs. case_match; simplify_eq/=.
    case_match; [by rw /bounded /=|by apply (bounded_DoWrite (set_completing None w))].
Qed.

(** After a failed write: [writing_] with nothing in flight. *)
Definition stuck (w : world) : Prop :=
  writing_ (queue w) = true ∧ in_flight w = [] ∧ completing w = None.

Lemma step_stuck w l w' :
  is_force l = false → step w l = Some w' → stuck w →
  stuck w' ∧ started w' = started w ∧ successes w' = successes w.
Proof.
  intros Hf Hs (Hwr & Hfl & Hc). destruct l as [b|b h|f|i ec|]; simplify_eq/=.
  - done.
  - rw /AsyncSend Hwr. destruct (rejects _); [|by rw /stuck].
    rw /stuck queue_call in_flight_call completing_call started_call successes_call.
    by rw app_nil_r.
  - by destruct f.
  - by rw /complete Hc Hfl in Hs.
  - by rw /resume Hc in Hs.
Qed.

(** One successful completion. *)
Lemma complete_ok_one w e :
  in_flight w = [e] → completing w = None →
  ∃ w', run w [SComplete 0 false; SResume] = Some w'
    ∧ write_queue_ (queue w') = tail (write_queue_ (queue w))
    ∧ in_flight w' = take 1 (write_queue_ (queue w))
    ∧ writing_ (queue w') = (if write_queue_ (queue w) is _ :: _ then true else false)
    ∧ completing w' = None
    ∧ started w' = started w ++ take 1 (write_queue_ (queue w))
    ∧ successes w' = successes w ++ omap snd [e].
Proof.
  intros Hfl Hc. eexists. split.
  { by rw /= /complete Hc Hfl /= /resume completing_call /=. }
  set (w1 := set_completing None _).
  assert (Hq : queue w1 = queue w) by (by rw /w1 /= queue_call).
  assert (Hf1 : in_flight w1 = []) by (by rw /w1 /= in_flight_call).
  assert (Hs1 : started w1 = started w) by (exact (started_call e.2 true _)).
  assert (Hu1 : successes w1 = successes w ++ omap snd [e]).
  { etrans; [exact (successes_call e.2 true _)|]. by destruct e as [? []]. }
  assert (Hc1 : completing w1 = None) by done.
  clearbody w1. rw successes_DoWrite completing_DoWrite Hu1.
  rw DoWrite_eq Hq. destruct (write_queue_ (queue w)) as [|x rest] eqn:Hw; rw /=.
  - rw app_nil_r. split_and!; (done || exact Hs1).
  - rw Hf1 /start_write started_emit. split_and!; [done..| |done].
    change (started w1 ++ [x] = started w ++ [x]). by rw Hs1.
Qed.
End WriteQueue.
