(* ===== verification/WriteQueueTheorems.v ===== *)
(** * What the write queue guarantees, and where it does not

    Theorems about runs of [WriteQueueSG] from construction, over any
    interleaving of sends, closes and completions. *)
From S2P Require Import Prelude WriteQueueSG.

Section WriteQueueRuns.
Context {B H : Type}.
Implicit Types (w : world (B := B) (H := H)) (ls : list (label (B := B) (H := H))).

Lemma run_app w ls1 ls2 : run w (ls1 ++ ls2) = (w' ← run w ls1; run w' ls2).
Proof.
  induction ls1 as [|l ls1 IH] in w |- *; [done|].
  rw /=. destruct (step w l) as [w1|]; [apply IH|done].
Qed.

Lemma run_single_writer max ls w :
  Forall (λ l, is_force l = false) ls → run (world0 max) ls = Some w → single_writer w.
Proof.
  intros Hok Hrun.
  refine (run_invariant (λ w _, single_writer w) (λ l, is_force l = false)
            _ _ _ _ [] Hok Hrun _); [|by split; [cbn; lia|]].
  intros. by eapply step_single_writer.
Qed.

Lemma run_waits max ls w : run (world0 max) ls = Some w → waits_only_writing w.
Proof.
  intros Hrun.
  refine (run_invariant (λ w _, waits_only_writing w) (λ _, True)
            _ _ _ _ [] _ Hrun _); [|by apply list.Forall_forall|done].
  intros. by eapply step_waits.
Qed.

Lemma run_accounted max ls w :
  Forall smooth ls → run (world0 max) ls = Some w →
  accounted w (accepted (world0 max) ls).
Proof.
  intros Hok Hrun.
  refine (run_invariant accounted smooth _ _ _ _ [] Hok Hrun _).
  - intros. by eapply step_accounted.
  - split; [by split; [cbn; lia|]|]. by split; [done|exists []].
Qed.

(** [writing_] only while a write is out: true as long as no write has failed. *)
Definition busy w : Prop :=
  writing_ (queue w) = true → in_flight w ≠ [] ∨ completing w ≠ None.

Lemma busy_DoWrite w : busy (DoWrite w).
Proof.
  rw /busy DoWrite_eq. destruct (write_queue_ (queue w)); [done|].
  intros _. left. cbn. by destruct (in_flight w).
Qed.

Lemma step_busy w l w' :
  smooth l → completing w ≠ Some true → step w l = Some w' → busy w → busy w'.
Proof.
  intros [Hf He] Hc Hs Hb. destruct l as [b|b h|f|i ec|]; simplify_eq/=.
  - done.
  - rw /AsyncSend. destruct (rejects _); [by destruct h|].
    destruct (writing_ (queue w)) eqn:Hwr; [|apply busy_DoWrite].
    intros _. exact (Hb Hwr).
  - by destruct f.
  - rw /complete in Hs. repeat case_match; simplify_eq/=.
    rw /busy completing_call /=. by right.
  - rw /resume in Hs. case_match; simplify_eq/=. case_match; [done|]. apply busy_DoWrite.
Qed.

Lemma run_busy max ls w : Forall smooth ls → run (world0 max) ls = Some w → busy w.
Proof.
  intros Hok Hrun.
  refine (proj2 (run_invariant (λ w acc, accounted w acc ∧ busy w) smooth
                   _ _ _ _ [] Hok Hrun _)).
  - intros w1 l w2 acc Hl Hs [Ha Hb]. split; [by eapply step_accounted|].
    eapply step_busy; [done| |done..]. apply Ha.
  - split; [|done]. split; [by split; [cbn; lia|]|]. by split; [done|exists []].
Qed.

(** ** One write at a time, in order *)

(** C18: without a forced close at most one write is ever in flight or
    completing, and an element waits in the queue only while [writing_] is
    set, whatever is sent, rejected and completed in whatever order. *)
Theorem wq_single_writer max ls w :
  Forall (λ l, is_force l = false) ls → run (world0 max) ls = Some w →
  length (in_flight w) + (if completing w is Some _ then 1 else 0) ≤ 1
  ∧ (writing_ (queue w) = false →
       in_flight w = [] ∧ completing w = None ∧ write_queue_ (queue w) = []).
Proof.
  intros Hok Hrun. destruct (run_single_writer max ls w Hok Hrun) as [Hone Hidle].
  split; [done|]. intros Hwr. destruct (Hidle Hwr).
  split_and!; [done..|]. by apply (run_waits max ls).
Qed.

(** In every run, with forced closes and errors too, the elements handed to
    the stream followed by those that wait are a subsequence of the accepted
    ones: no element is written twice, none that was rejected is written, and
    the order of the sends is kept. *)
Theorem wq_fifo max ls w :
  run (world0 max) ls = Some w →
  sublist (started w ++ write_queue_ (queue w)) (accepted (world0 max) ls).
Proof.
  intros Hrun.
  refine (run_invariant in_order (λ _, True) _ _ _ _ [] _ Hrun _);
    [|by apply list.Forall_forall|apply sublist_nil_l].
  intros. by eapply step_in_order.
Qed.

(** In a run without a forced close and without a write error every
    accepted element is finished, in flight (or completing) or waiting, in the
    order of the sends, and the handlers told of success are exactly those of
    the finished elements, in order. *)
Theorem wq_accounted max ls w :
  Forall smooth ls → run (world0 max) ls = Some w →
  ∃ finished,
    accepted (world0 max) ls = finished ++ in_flight w ++ write_queue_ (queue w)
    ∧ started w = finished ++ in_flight w
    ∧ successes w = omap snd finished.
Proof.
  intros Hok Hrun.
  destruct (run_accounted max ls w Hok Hrun) as (_ & _ & fin & Hst & Hacc & Hsucc).
  exists fin. split_and!; [|done|done]. by rw -Hacc Hst app_assoc.
Qed.

(** While the backpressure is enabled the queue never holds more than
    [max_queue_size_] elements. *)
Theorem wq_bounded max ls w :
  (0 ≤ max)%Z → Forall (λ l, disables l = false) ls → run (world0 max) ls = Some w →
  (Z.of_nat (length (write_queue_ (queue w))) ≤ max)%Z.
Proof.
  intros Hmax Hok Hrun.
  assert (Hb : bounded w ∧ max_queue_size_ (queue w) = max).
  { refine (run_invariant (λ w _, bounded w ∧ max_queue_size_ (queue w) = max)
              (λ l, disables l = false) _ _ _ _ [] Hok Hrun _); [|done].
    intros w1 l w2 _ Hl Hs [Hb1 <-]. by eapply step_bounded. }
  destruct Hb as [(_ & Hlen & _) Hm]. by rw -Hm.
Qed.
(** ** Draining *)

(** [n] successful completions, each handled to its end. *)
Definition completions (n : nat) : list (label (B := B) (H := H)) :=
  concat (replicate n [SComplete 0 false; SResume]).

Lemma drain_all n : ∀ w e,
  in_flight w = [e] → completing w = None → length (write_queue_ (queue w)) = n →
  ∃ w', run w (completions (S n)) = Some w'
    ∧ write_queue_ (queue w') = [] ∧ in_flight w' = []
    ∧ writing_ (queue w') = false ∧ completing w' = None
    ∧ started w' = started w ++ write_queue_ (queue w)
    ∧ successes w' = successes w ++ omap snd (e :: write_queue_ (queue w)).
Proof.
  induction n as [|n IH]; intros w e Hfl Hc Hn;
    destruct (complete_ok_one w e Hfl Hc)
      as (w1 & Hrun & Hq & Hfl1 & Hwr & Hc1 & Hst & Hsu);
    destruct (write_queue_ (queue w)) as [|x rest] eqn:Hqueue; try done.
  - exists w1. split_and!; try done.
  - rw /= in Hfl1 Hq Hn. destruct (IH w1 x Hfl1 Hc1) as (w2 & Hrun2 & ? & ? & ? & ? & Hst2 & Hsu2).
    { by rw Hq; injection Hn. }
    exists w2. split.
    { change (completions (S (S n)))
        with ([SComplete (B := B) (H := H) 0 false; SResume] ++ completions (S n)).
      rw run_app Hrun. exact Hrun2. }
    split_and!; [done..| |].
    + by rw Hst2 Hst Hq /= -app_assoc.
    + rw Hsu2 Hsu Hq -app_assoc. f_equal.
      change (e :: x :: rest) with ([e] ++ x :: rest). by rw omap_app.
Qed.

(** C3: the queue drains.  From any point of a run without a forced close and
    without errors, when the writes that are out complete one after the other,
    one completion per element outstanding, the queue ends idle and empty,
    every accepted element has been handed to the stream in order, and every
    handler has been told of success, once and in order. *)
Theorem wq_drains max ls w :
  Forall smooth ls → run (world0 max) ls = Some w → completing w = None →
  ∃ w', run w (completions (length (in_flight w ++ write_queue_ (queue w)))) = Some w'
    ∧ in_flight w' = [] ∧ write_queue_ (queue w') = [] ∧ writing_ (queue w') = false
    ∧ started w' = accepted (world0 max) ls
    ∧ successes w' = omap snd (accepted (world0 max) ls).
Proof.
  intros Hok Hrun Hc.
  destruct (run_accounted max ls w Hok Hrun)
    as ([Hone Hidle] & _ & fin & Hst & Hacc & Hsucc).
  rw -Hacc. destruct (in_flight w) as [|e [|]] eqn:Hfl; [| |cbn in Hone; lia].
  - assert (Hwr : writing_ (queue w) = false).
    { destruct (writing_ (queue w)) eqn:Hwr; [|done].
      by destruct (run_busy max ls w Hok Hrun Hwr). }
    assert (Hq : write_queue_ (queue w) = []) by exact (run_waits max ls w Hrun Hwr).
    exists w. rw app_nil_r in Hst. by rw Hq Hfl Hsucc Hst !app_nil_r.
  - destruct (drain_all _ w e Hfl Hc eq_refl)
      as (w' & Hrun' & Hq' & Hfl' & Hwr' & _ & Hst' & Hsu').
    exists w'. split_and!; [done..|].
    by rw Hsu' Hsucc Hst -app_assoc omap_app.
Qed.

(** ** A write error *)

Lemma stuck_queue w l w' :
  is_force l = false → step w l = Some w' → stuck w →
  write_queue_ (queue w') = write_queue_ (queue w) ++ accepts w l.
Proof.
  intros Hf Hs (Hwr & Hfl & Hc). destruct l as [b|b h|f|i ec|]; simplify_eq/=;
    rw ?app_nil_r //.
  - rw /AsyncSend Hwr. destruct (rejects _); by rw ?queue_call ?app_nil_r.
  - by destruct f.
  - by rw /complete Hc Hfl in Hs.
  - by rw /resume Hc in Hs.
Qed.

(** Once a write has failed the queue is dead: [writing_] stays set with
    nothing in flight, so whatever is sent, enabled, closed gracefully or
    completed afterwards, no write is ever started and no handler is ever told
    of success; what is accepted waits for ever. *)
Theorem wq_error_is_final max ls w w1 ls' w2 :
  Forall (λ l, is_force l = false) ls → run (world0 max) ls = Some w →
  completing w = Some true → step w SResume = Some w1 →
  Forall (λ l, is_force l = false) ls' → run w1 ls' = Some w2 →
  in_flight w2 = [] ∧ started w2 = started w1 ∧ successes w2 = successes w1
  ∧ write_queue_ (queue w2) = accepted w1 ls'.
Proof.
  intros Hok Hrun Hc Hs Hok' Hrun'.
  destruct (run_single_writer max ls w Hok Hrun) as [Hone Hidle].
  rw Hc in Hone Hidle. destruct (in_flight w) eqn:Hfl; [|cbn in Hone; lia].
  assert (Hst : stuck w1 ∧ write_queue_ (queue w1) = []).
  { rw /= /resume Hc in Hs. simplify_eq/=. rw /stuck /= Hfl. split; [|done].
    split_and!; [|done..]. destruct (writing_ (queue w)); [done|].
    by destruct (Hidle eq_refl). }
  refine ((λ Hgoal, _) (run_invariant
    (λ v acc, (stuck v ∧ started v = started w1 ∧ successes v = successes w1)
              ∧ write_queue_ (queue v) = acc)
    (λ l, is_force l = false) _ ls' w1 w2 [] Hok' Hrun' _)).
  - destruct Hgoal as [((_ & ? & _) & ? & ?) ?]. done.
  - intros v l v' acc Hl Hv [(Hsv & <- & <-) <-].
    split; [by apply (step_stuck v l)|by apply (stuck_queue v l)].
  - by destruct Hst.
Qed.

(** ** The two ways to close *)

(** Worlds that differ in [graceful_shutdown_] only. *)
Definition but_graceful w v : Prop :=
  ∃ g, v = set_queue (WQ (write_queue_ (queue w)) (max_queue_size_ (queue w))
                        (max_queue_enabled_ (queue w)) (writing_ (queue w)) g) w.

Lemma step_but_graceful l w v w' :
  but_graceful w v → step w l = Some w' →
  ∃ v', step v l = Some v' ∧ but_graceful w' v' ∧ accepts v l = accepts w l.
Proof.
  intros [g ->] Hs. destruct w as [[q m en wr gw] fl c lg].
  destruct l as [b|b h|f|i ec|]; rw /= in Hs *; simplify_eq/=.
  - eexists. split_and!; [done|by exists g|done].
  - eexists. split_and!; [done| |done]. exists g. rw /AsyncSend /rejects /=.
    destruct (_ && _); [by destruct h|]. destruct wr; [done|].
    rw !DoWrite_eq /=. by destruct q.
  - destruct f; eexists; (split_and!; [done| |done]); [by exists g|by exists true].
  - rw /complete /= in Hs *. repeat case_match; simplify_eq/=.
    eexists. split_and!; [done| |done]. exists g. by destruct (_.2).
  - rw /resume /= in Hs *. repeat case_match; simplify_eq/=; eexists;
      (split_and!; [done| |done]); exists g; [done|].
    rw !DoWrite_eq /=. by destruct q.
Qed.

Lemma run_but_graceful ls : ∀ w v w',
  but_graceful w v → run w ls = Some w' →
  ∃ v', run v ls = Some v' ∧ but_graceful w' v' ∧ accepted v ls = accepted w ls.
Proof.
  induction ls as [|l ls IH]; intros w v w' Hwv Hrun; simplify_eq/=; [by exists v|].
  destruct (step w l) as [w1|] eqn:Hs; [|done].
  destruct (step_but_graceful l w v w1 Hwv Hs) as (v1 & Hv1 & Hwv1 & Hacc).
  destruct (IH w1 v1 w' Hwv1 Hrun) as (v' & Hv' & Hwv' & Hacc').
  exists v'. by rw Hv1 Hacc Hacc'.
Qed.

(** C40: a graceful close changes nothing.  Whatever a run does after
    [Close(false)] it does without it too: the same elements are accepted, new
    sends included, the same writes are started, the same handlers are called
    with the same result, and the stream is never cancelled or closed for it. *)
Theorem wq_graceful_close_inert w ls w' :
  run w ls = Some w' →
  ∃ v', run w (SClose false :: ls) = Some v' ∧ log v' = log w'
    ∧ in_flight v' = in_flight w' ∧ write_queue_ (queue v') = write_queue_ (queue w')
    ∧ accepted w (SClose false :: ls) = accepted w ls.
Proof.
  intros Hrun. rw /=.
  destruct (run_but_graceful ls w (Close false w) w') as (v' & Hv & [g ->] & Hacc);
    [by exists true|done|].
  by exists (set_queue (WQ (write_queue_ (queue w')) (max_queue_size_ (queue w'))
                        (max_queue_enabled_ (queue w')) (writing_ (queue w')) g) w').
Qed.

(** A forced close clears [writing_] while the aborted write's completion is
    still to come, so a send after it starts a second write on the stream while
    the first is in flight; when the first one's completion then reports the
    abort it clears the queue and drops what was sent since, whose handlers are
    never called. *)
Theorem wq_force_close_then_send (a b c : element (B := B) (H := H)) max :
  (1 ≤ max)%Z →
  ∃ w w', run (world0 max) [SSend a.1 a.2; SClose true; SSend b.1 b.2; SSend c.1 c.2] = Some w
    ∧ in_flight w = [a; b] ∧ write_queue_ (queue w) = [c]
    ∧ run w [SComplete 0 true; SResume; SComplete 0 false; SResume] = Some w'
    ∧ in_flight w' = [] ∧ write_queue_ (queue w') = [] ∧ started w' = [a; b]
    ∧ calls w' = told a.2 false ++ told b.2 true.
Proof.
  intros Hmax. destruct a as [ab ah], b as [bb bh], c as [cb ch].
  assert (H0 : (max <=? 0)%Z = false) by (apply Z.leb_gt; lia).
  eexists _, _. rw /= /AsyncSend /rejects /= !H0 /=.
  split; [done|]. rw /= /complete /=.
  destruct ah, bh; done.
Qed.
End WriteQueueRuns.

(** ** Witnesses *)

(** Three sends, one of them rejected, while the first write is out; then it
    completes. *)
Definition demo_run : list (label (B := string) (H := nat)) :=
  [SSend "a" (Some 1); SSend "b" None; SSend "c" (Some 3); SSend "d" (Some 4);
   SComplete 0 false; SResume].

Definition demo_world : world (B := string) (H := nat) :=
  World (WQ [("c", Some 3)] 2 true true false) [("b", None)] None
    [AsyncWrite ("a", Some 1); CallHandler 4 false; CallHandler 1 true; AsyncWrite ("b", None)].

Lemma demo_runs : run (world0 2) demo_run = Some demo_world.
Proof. reflexivity. Qed.

Lemma demo_smooth : Forall smooth demo_run.
Proof. by repeat (apply list.Forall_cons; split; [by split|]). Qed.

Lemma wq_single_writer_witness :
  length (in_flight demo_world) + 0 ≤ 1
  ∧ (writing_ (queue demo_world) = false → in_flight demo_world = []
       ∧ completing demo_world = None ∧ write_queue_ (queue demo_world) = []).
Proof.
  apply (wq_single_writer 2 demo_run); [|exact demo_runs].
  by repeat (apply list.Forall_cons; split; [done|]).
Defined.

Lemma wq_fifo_witness :
  sublist [("a", Some 1); ("b", None); ("c", Some 3)] (accepted (world0 2) demo_run)
  ∧ accepted (world0 2) demo_run = [("a", Some 1); ("b", None); ("c", Some 3)].
Proof. split; [exact (wq_fifo 2 demo_run demo_world demo_runs)|reflexivity]. Defined.

Lemma wq_accounted_witness :
  ∃ finished,
    accepted (world0 2) demo_run = finished ++ [("b", None)] ++ [("c", Some 3)]
    ∧ started demo_world = finished ++ [("b", None)] ∧ [1] = omap snd finished.
Proof. exact (wq_accounted 2 demo_run demo_world demo_smooth demo_runs). Defined.

Lemma wq_bounded_witness : (Z.of_nat (length (write_queue_ (queue demo_world))) ≤ 2)%Z.
Proof.
  apply (wq_bounded 2 demo_run); [lia| |exact demo_runs].
  by repeat (apply list.Forall_cons; split; [done|]).
Defined.

Lemma wq_drains_witness :
  ∃ w', run demo_world (completions 2) = Some w'
    ∧ in_flight w' = [] ∧ write_queue_ (queue w') = [] ∧ writing_ (queue w') = false
    ∧ started w' = [("a", Some 1); ("b", None); ("c", Some 3)] ∧ successes w' = [1; 3].
Proof. exact (wq_drains 2 demo_run demo_world demo_smooth demo_runs eq_refl). Defined.

(** A failed write, then two sends and a completion that cannot happen. *)
Definition failed_world : world (B := string) (H := nat) :=
  World (WQ [("b", Some 2)] 2 true true false) [] (Some true)
    [AsyncWrite ("a", Some 1); CallHandler 1 false].

Definition dead_world : world (B := string) (H := nat) :=
  World (WQ [("c", Some 3)] 2 true true true) [] None
    [AsyncWrite ("a", Some 1); CallHandler 1 false].

Lemma wq_error_is_final_witness :
  in_flight dead_world = [] ∧ started dead_world = [("a", Some 1)]
  ∧ successes dead_world = [] ∧ [("c", Some 3)] = [("c", Some 3)].
Proof.
  apply (wq_error_is_final 2 [SSend "a" (Some 1); SSend "b" (Some 2); SComplete 0 true]
           failed_world
           (World (WQ [] 2 true true false) [] None
              [AsyncWrite ("a", Some 1); CallHandler 1 false])
           [SSend "c" (Some 3); SClose false] dead_world); try reflexivity;
    by repeat (apply list.Forall_cons; split; [done|]).
Defined.

Lemma wq_graceful_close_inert_witness :
  ∃ v', run (world0 2) (SClose false :: demo_run) = Some v' ∧ log v' = log demo_world
    ∧ in_flight v' = in_flight demo_world
    ∧ write_queue_ (queue v') = write_queue_ (queue demo_world)
    ∧ accepted (world0 2) (SClose false :: demo_run) = accepted (world0 2) demo_run.
Proof. exact (wq_graceful_close_inert (world0 2) demo_run demo_world demo_runs). Defined.

Lemma wq_force_close_then_send_witness :
  ∃ w w', run (world0 1024) [SSend "a" (Some 1); SClose true; SSend "b" (Some 2); SSend "c" (Some 3)]
            = Some w
    ∧ in_flight w = [("a", Some 1); ("b", Some 2)] ∧ write_queue_ (queue w) = [("c", Some 3)]
    ∧ run w [SComplete 0 true; SResume; SComplete 0 false; SResume] = Some w'
    ∧ in_flight w' = [] ∧ write_queue_ (queue w') = []
    ∧ started w' = [("a", Some 1); ("b", Some 2)] ∧ calls w' = [(1, false); (2, true)].
Proof.
  exact (wq_force_close_then_send ("a", Some 1) ("b", Some 2) ("c", Some 3) 1024 ltac:(lia)).
Defined.
