(* ===== verification/PluginBundle.v ===== *)
(** * PluginBundle: the plugins of a session, client or server
    (plugin/plugin_bundle.{h,cc}, plugin/plugin_key.h)

    A bundle maps keys to [std::shared_ptr<PluginBase>]; a pointer is [None]
    when null, else it names a plugin object.  The map itself is
    [absl::node_hash_map], whose iteration order is its own affair: a loop over
    a bundle runs over an [order] of its entries, some permutation of them. *)
From S2P Require Import Prelude.

Definition kRateLimiter : string := "ratelimiter".
Definition kOverloadShedder : string := "shedder".
Definition kSessionTagger : string := "tagger".
Definition kInterceptor : string := "interceptor".
Definition kHeartbeatEmitter : string := "heartbeat".

Section Bundle.
Context {P : Type}.

(** [shared_ptr<PluginBase>]. *)
Definition PluginPtr : Type := option P.
Definition PluginBundle : Type := gmap string PluginPtr.

Context (order : PluginBundle → list (string * PluginPtr)).
Hypothesis order_entries : ∀ b, order b ≡ₚ map_to_list b.

Implicit Types (b : PluginBundle) (k : string) (p : PluginPtr).

Definition bundle_Set k p b : PluginBundle := <[k := p]> b.

Definition bundle_Get k b : PluginPtr :=
  match b !! k with Some p => p | None => None end.

(** A reference into the map, or to the static null pointer. *)
Definition bundle_GetRef k b : PluginPtr :=
  match b !! k with Some p => p | None => None end.

Definition bundle_Remove k b : PluginBundle := delete k b.
Definition bundle_Has k b : bool := bool_decide (is_Some (b !! k)).

(** [insert] of an associative container: an entry that is there stays. *)
Definition bundle_insert (kv : string * PluginPtr) b : PluginBundle :=
  match b !! kv.1 with Some _ => b | None => <[kv.1 := kv.2]> b end.

Definition MergeFrom (fallback : PluginBundle) b : PluginBundle :=
  foldl (λ b kv, bundle_insert kv b) b (order fallback).

Definition OverlayWith (upper : PluginBundle) b : PluginBundle :=
  foldl (λ result kv, <[kv.1 := kv.2]> result) b (order upper).

Definition bundle_IsEmpty b : bool := bool_decide (b = ∅).

(** [dynamic_pointer_cast<T>] succeeds on the plugins whose dynamic type is a
    [T]: [cast] says which. *)
Definition GetTypedPlugin {T} (cast : P → option T) b k : option T :=
  match bundle_Get k b with Some x => cast x | None => None end.

(** ** The loops, key by key *)
Lemma foldl_bundle_insert l b k :
  NoDup l.*1 →
  foldl (λ b kv, bundle_insert kv b) b l !! k
  = match b !! k with Some p => Some p | None => (list_to_map l : PluginBundle) !! k end.
Proof.
  intros Hnd. induction l as [|[k' p'] l IH] in b, Hnd |- *.
  { rw /= lookup_empty. by destruct (b !! k). }
  apply list.NoDup_cons in Hnd as [Hni Hnd]. rw /= IH // /bundle_insert /=.
  destruct (decide (k = k')) as [->|Hk].
  - rw lookup_insert_eq. destruct (b !! k') eqn:Hb; [by rw Hb|by rw lookup_insert_eq].
  - rw (lookup_insert_ne _ _ _ _ (not_eq_sym Hk)).
    destruct (b !! k'); [done|]. by rw lookup_insert_ne.
Qed.

Lemma foldl_overwrite l b k :
  NoDup l.*1 →
  foldl (λ b (kv : string * PluginPtr), <[kv.1 := kv.2]> b) b l !! k
  = match (list_to_map l : PluginBundle) !! k with Some p => Some p | None => b !! k end.
Proof.
  intros Hnd. induction l as [|[k' p'] l IH] in b, Hnd |- *; [by rw /= lookup_empty|].
  apply list.NoDup_cons in Hnd as [Hni Hnd]. rw /= IH //.
  destruct (decide (k = k')) as [->|Hk].
  - by rw !lookup_insert_eq not_elem_of_list_to_map_1.
  - by rw !(lookup_insert_ne _ _ _ _ (not_eq_sym Hk)).
Qed.

Lemma order_nodup b : NoDup (order b).*1.
Proof. rw order_entries. apply NoDup_fst_map_to_list. Qed.

Lemma order_list_to_map b : list_to_map (order b) = b.
Proof.
  rw (list_to_map_proper _ _ (order_nodup b) (order_entries b)).
  apply list_to_map_to_list.
Qed.

Lemma lookup_MergeFrom fallback b k :
  MergeFrom fallback b !! k = match b !! k with Some p => Some p | None => fallback !! k end.
Proof. by rw /MergeFrom foldl_bundle_insert ?order_list_to_map //; apply order_nodup. Qed.

Lemma lookup_OverlayWith upper b k :
  OverlayWith upper b !! k = match upper !! k with Some p => Some p | None => b !! k end.
Proof. by rw /OverlayWith foldl_overwrite ?order_list_to_map //; apply order_nodup. Qed.

(** ** A bundle over time *)
Inductive bundle_op :=
  | OSet (k : string) (p : PluginPtr)
  | ORemove (k : string)
  | OMergeFrom (fallback : PluginBundle)
  | OOverlayWith (upper : PluginBundle).

Definition bundle_step b (o : bundle_op) : PluginBundle :=
  match o with
  | OSet k p => bundle_Set k p b
  | ORemove k => bundle_Remove k b
  | OMergeFrom fb => MergeFrom fb b
  | OOverlayWith up => OverlayWith up b
  end.

(** What an operation means for one key: set it, drop it, fill it when it is
    missing, override it. *)
Definition key_step k (e : option PluginPtr) (o : bundle_op) : option PluginPtr :=
  match o with
  | OSet k' p => if decide (k = k') then Some p else e
  | ORemove k' => if decide (k = k') then None else e
  | OMergeFrom fb => if e is Some p then Some p else fb !! k
  | OOverlayWith up => if up !! k is Some p then Some p else e
  end.

Lemma bundle_step_key b o k : bundle_step b o !! k = key_step k (b !! k) o.
Proof.
  destruct o as [k' p|k'|fb|up]; rw /=.
  - rw /bundle_Set. case_decide as Hk; [by rw Hk lookup_insert_eq|by rw lookup_insert_ne].
  - rw /bundle_Remove. case_decide as Hk; [by rw Hk lookup_delete_eq|by rw lookup_delete_ne].
  - apply lookup_MergeFrom.
  - apply lookup_OverlayWith.
Qed.

Lemma bundle_history_key ops b k :
  foldl bundle_step b ops !! k = foldl (key_step k) (b !! k) ops.
Proof.
  induction ops as [|o ops IH] in b |- *; [done|]. by rw /= IH bundle_step_key.
Qed.
End Bundle.

Section BundleTheorems.
Context {P : Type}.
Implicit Types (b : PluginBundle (P := P)) (order : PluginBundle (P := P) → list (string * PluginPtr (P := P))).

(** C32: whatever order the hash map iterates in, a bundle behaves, key by key,
    as the history of its operations says: [Set] and [Remove] act on their key
    only, [MergeFrom] fills the missing keys and never overwrites,
    [OverlayWith] overrides; [Has], [Get], [GetRef], [IsEmpty] and
    [GetTypedPlugin] report that history, and a key that was set to null is
    present with a null plugin. *)
Theorem bundle_refines_history order (Horder : ∀ b, order b ≡ₚ map_to_list b) ops :
  let b := foldl (bundle_step order) ∅ ops in
  let entry k := foldl (key_step k) None ops in
  (∀ k, bundle_Has k b = bool_decide (is_Some (entry k)))
  ∧ (∀ k, bundle_Get k b = default None (entry k))
  ∧ (∀ k, bundle_GetRef k b = bundle_Get k b)
  ∧ (bundle_IsEmpty b = true ↔ ∀ k, entry k = None)
  ∧ (∀ T (cast : P → option T) k, GetTypedPlugin cast b k = default None (entry k) ≫= cast).
Proof.
  intros b entry.
  assert (Hentry : ∀ k, b !! k = entry k).
  { intros k. by rw /b /entry (bundle_history_key order Horder) lookup_empty. }
  split_and!.
  - intros k. by rw /bundle_Has Hentry.
  - intros k. rw /bundle_Get Hentry. by destruct (entry k).
  - done.
  - rw /bundle_IsEmpty bool_decide_eq_true. split.
    + intros Hb k. by rw -Hentry Hb lookup_empty.
    + intros Hnone. apply (map_eq (M := gmap string)). intros k. by rw Hentry Hnone lookup_empty.
  - intros T cast k. rw /GetTypedPlugin /bundle_Get Hentry. by destruct (entry k) as [[]|].
Qed.

(** [OverlayWith] and [MergeFrom] are the two readings of one layering:
    overlaying [b] with [upper] is [upper] with [b] merged in as a fallback;
    the empty bundle is its unit, it is associative and idempotent, and it
    does not depend on the iteration order. *)
Theorem bundle_layering order (Horder : ∀ b, order b ≡ₚ map_to_list b)
    order' (Horder' : ∀ b, order' b ≡ₚ map_to_list b) b1 b2 b3 :
  OverlayWith order b2 b1 = MergeFrom order' b1 b2
  ∧ OverlayWith order ∅ b1 = b1 ∧ OverlayWith order b1 ∅ = b1
  ∧ OverlayWith order b3 (OverlayWith order b2 b1)
    = OverlayWith order (OverlayWith order b3 b2) b1
  ∧ OverlayWith order b1 b1 = b1
  ∧ OverlayWith order b2 b1 = OverlayWith order' b2 b1.
Proof.
  split_and!; apply (map_eq (M := gmap string)); intros k;
    rw ?(lookup_OverlayWith order Horder) ?(lookup_MergeFrom order' Horder')
       ?(lookup_OverlayWith order' Horder') ?(lookup_OverlayWith order Horder) ?lookup_empty //.
  all: by repeat case_match; simplify_eq.
Qed.
End BundleTheorems.

Lemma bundle_refines_history_witness :
  let b := foldl (bundle_step map_to_list) (∅ : PluginBundle (P := nat))
             [OSet kInterceptor (Some 1); OSet kHeartbeatEmitter None;
              OMergeFrom {[kInterceptor := Some 2; kSessionTagger := Some 3]};
              ORemove kSessionTagger] in
  bundle_Get kInterceptor b = Some 1 ∧ bundle_Has kHeartbeatEmitter b = true
  ∧ bundle_Get kHeartbeatEmitter b = None ∧ bundle_Has kSessionTagger b = false.
Proof.
  destruct (bundle_refines_history (P := nat) map_to_list (λ b, reflexivity _)
    [OSet kInterceptor (Some 1); OSet kHeartbeatEmitter None;
     OMergeFrom {[kInterceptor := Some 2; kSessionTagger := Some 3]};
     ORemove kSessionTagger]) as (Hhas & Hget & _).
  split_and!; [exact (Hget kInterceptor)|exact (Hhas kHeartbeatEmitter)|
               exact (Hget kHeartbeatEmitter)|exact (Hhas kSessionTagger)].
Defined.

Lemma bundle_layering_witness :
  OverlayWith map_to_list {["a" := Some 2]} ({["a" := Some 1; "b" := None]} : PluginBundle)
  = MergeFrom (reverse ∘ map_to_list) {["a" := Some 1; "b" := None]} {["a" := Some 2]}.
Proof.
  apply (bundle_layering map_to_list (λ b, reflexivity _) (reverse ∘ map_to_list)
           (λ b, reverse_Permutation _) {["a" := Some 1; "b" := None]}
           {["a" := Some 2]} ∅).
Defined.
