(* ===== verification/SessionManager.v ===== *)
(** * SessionManager: the registry of active sessions (session_manager.h)

    The registry is a map from session ids to shared pointers ([None] is the
    null pointer, [Some s] names a session object), behind a
    [std::mutex].  Every member function locks the mutex for its whole body;
    locking a [std::mutex] again in the thread that holds it is undefined
    behaviour, so the model keeps whether it is held.  The callbacks that run
    under the lock ([ForEach]'s function, the sessions' [Close]) are
    computations on the registry and on the world [W] around it. *)
From S2P Require Import Prelude.

Section Manager.
Context {S W : Type}.

Definition SessionPtr : Type := option S.

Record SessionManager := SM {
  mutex_held : bool;
  sessions_ : gmap Z SessionPtr
}.

Definition new_manager : SessionManager := SM false ∅.

Abbreviation Mgr := (M (SessionManager * W)).

(** The iteration order of the hash map. *)
Context (order : gmap Z SessionPtr → list (Z * SessionPtr)).

(** [std::lock_guard<std::mutex> lock(mutex_)] over [body]: released on every
    way out. *)
Definition set_held (h : bool) (st : SessionManager * W) : SessionManager * W :=
  (SM h (sessions_ st.1), st.2).

Definition locked {A} (body : Mgr A) : Mgr A := λ st,
  if mutex_held st.1 then Undef relock
  else match body (set_held true st) with
       | Ret a st' => Ret a (set_held false st')
       | Throw e st' => Throw e (set_held false st')
       | Undef u => Undef u
       end.

Definition get_sessions : Mgr (gmap Z SessionPtr) := gets (λ st, sessions_ st.1).
Definition set_sessions (m : gmap Z SessionPtr) : Mgr () :=
  modify (λ st, (SM (mutex_held st.1) m, st.2)).

(** [emplace]: an id that is there keeps its session. *)
Definition Add (id : Z) (session : SessionPtr) : Mgr () :=
  locked (m ← get_sessions;
          match m !! id with
          | Some _ => mret ()
          | None => set_sessions (<[id := session]> m)
          end).

Definition Remove (id : Z) : Mgr () :=
  locked (m ← get_sessions; set_sessions (delete id m)).

Definition Get (id : Z) : Mgr SessionPtr :=
  locked (m ← get_sessions;
          mret (match m !! id with Some p => p | None => None end)).

Definition All : Mgr (list SessionPtr) :=
  locked (m ← get_sessions; mret (order m).*2).

Definition ForEach (fn : SessionPtr → Mgr ()) : Mgr () :=
  locked (m ← get_sessions; for_each (λ kv, fn kv.2) (order m)).

Definition Count : Mgr Z :=
  locked (m ← get_sessions; mret (Z.of_nat (size m))).

(** The sessions' own [Close(force)], an operation of the class's template
    parameter. *)
Context (session_Close : bool → S → Mgr ()).

Definition close_one (force : bool) (kv : Z * SessionPtr) : Mgr () :=
  match kv.2 with Some s => session_Close force s | None => mret () end.

Definition DrainGraceful : Mgr () :=
  locked (m ← get_sessions; for_each (close_one false) (order m)).

Definition DrainForce : Mgr () :=
  locked (m ← get_sessions; for_each (close_one true) (order m) ;; set_sessions ∅).

Definition manager_Close (force : bool) : Mgr () :=
  if force then DrainForce else DrainGraceful.
End Manager.

Section ManagerTheorems.
Context {S W : Type}.
Implicit Types (m : gmap Z (SessionPtr (S := S))) (w : W).

(** Registrations over time. *)
Inductive registry_op := RAdd (id : Z) (s : SessionPtr (S := S)) | RRemove (id : Z).

Definition registry_step (o : registry_op) : M (SessionManager * W) () :=
  match o with RAdd id s => Add id s | RRemove id => Remove id end.

(** What an operation means for one id. *)
Definition id_step (id : Z) (e : option (SessionPtr (S := S))) (o : registry_op)
    : option (SessionPtr (S := S)) :=
  match o with
  | RAdd id' s => if decide (id = id') then Some (default s e) else e
  | RRemove id' => if decide (id = id') then None else e
  end.

Lemma registry_run ops m w :
  ∃ m', for_each registry_step ops (SM false m, w) = Ret () (SM false m', w)
        ∧ ∀ id, m' !! id = foldl (id_step id) (m !! id) ops.
Proof.
  induction ops as [|o ops IH] in m |- *; [by exists m|].
  assert (Ho : ∃ m1, registry_step o (SM false m, w) = Ret () (SM false m1, w)
                     ∧ ∀ id, m1 !! id = id_step id (m !! id) o).
  { destruct o as [id s|id].
    - rw /registry_step /Add /locked /=.
      rw /mbind /M_bind /= /get_sessions /gets /=. destruct (m !! id) as [p|] eqn:Hm.
      + exists m. split; [done|]. intros id'. case_decide as Hid; [|done].
        by rw Hid Hm.
      + exists (<[id := s]> m). split; [done|]. intros id'. case_decide as Hid.
        * by rw Hid Hm lookup_insert_eq.
        * by rw lookup_insert_ne.
    - exists (delete id m). split; [done|]. intros id'. rw /=. case_decide as Hid.
      + by rw Hid lookup_delete_eq.
      + by rw lookup_delete_ne. }
  destruct Ho as (m1 & Ho & Hm1). destruct (IH m1) as (m' & Hrun & Hm').
  exists m'. split.
  - rw /= /mbind /M_bind Ho. exact Hrun.
  - intros id. by rw /= Hm' Hm1.
Qed.

(** The sessions of the entries that have one. *)
Definition live_sessions (l : list (Z * SessionPtr (S := S))) : list S :=
  omap (λ kv : Z * option S, kv.2) l.

Lemma for_each_held (close : bool → S → M W ()) force
    (l : list (Z * SessionPtr (S := S))) mgr w :
  for_each (close_one (λ f s, on_snd (close f s)) force) l (mgr, w)
  = on_snd (for_each (close force) (live_sessions l)) (mgr, w).
Proof.
  induction l as [|[id [s|]] l IH] in w |- *; [done| |exact (IH w)].
  rw /= /mbind /M_bind /close_one /on_snd /live_sessions /=. destruct (close force s w) as [[] w'|e w'|u]; [|done..].
  exact (IH w').
Qed.
End ManagerTheorems.

Section ManagerProperties.
Context {S W : Type}.
Implicit Types (m : gmap Z (SessionPtr (S := S))) (w : W)
  (order : gmap Z (SessionPtr (S := S)) → list (Z * SessionPtr (S := S))).

(** C27: over any history of registrations the registry is the map that history
    says: the first session registered under an id stays until the id is
    removed, [Get] gives that session or null, [Count] is the number of ids and
    [All] has one entry per id, in whatever order the hash map iterates. *)
Theorem manager_refines_history order (Horder : ∀ m, order m ≡ₚ map_to_list m) ops w :
  let entry id := foldl (id_step (S := S) id) None ops in
  ∃ m, for_each registry_step ops (new_manager, w) = Ret () (SM false m, w)
    ∧ (∀ id, m !! id = entry id)
    ∧ (∀ id, Get id (SM false m, w) = Ret (default None (entry id)) (SM false m, w))
    ∧ Count (SM false m, w) = Ret (Z.of_nat (size m)) (SM false m, w)
    ∧ ∃ l, All order (SM false m, w) = Ret l (SM false m, w) ∧ l ≡ₚ (map_to_list m).*2.
Proof.
  intros entry. destruct (registry_run ops ∅ w) as (m & Hrun & Hm).
  exists m. split; [exact Hrun|].
  assert (Hentry : ∀ id, m !! id = entry id) by (intros id; by rw Hm lookup_empty).
  split; [done|]. split_and!.
  - intros id. rw /Get /locked /= /mbind /M_bind /get_sessions /gets /= Hentry.
    by destruct (entry id).
  - done.
  - exists (order m).*2. split; [done|]. by rw Horder.
Qed.

(** Closing the registry calls [Close(force)] once on every session that is
    not null and on nothing else; a forced close then empties the registry and
    a graceful one leaves it as it is; when a session's [Close] throws, the
    exception leaves with the mutex released and the registry unchanged, and
    the sessions after that one are not closed. *)
Theorem manager_close_all order (Horder : ∀ m, order m ≡ₚ map_to_list m)
    (close : bool → S → M W ()) force m w :
  ∃ live, live ≡ₚ live_sessions (map_to_list m)
    ∧ manager_Close order (λ f s, on_snd (close f s)) force (SM false m, w)
      = match for_each (close force) live w with
        | Ret _ w' => Ret () (SM false (if force then ∅ else m), w')
        | Throw e w' => Throw e (SM false m, w')
        | Undef u => Undef u
        end.
Proof.
  exists (live_sessions (order m)). split; [by rw /live_sessions Horder|].
  rw /manager_Close /DrainForce /DrainGraceful /locked /=.
  destruct force; rw /mbind /M_bind /get_sessions /gets /=;
    rw for_each_held /on_snd /=; by destruct (for_each _ _ w) as [[] ?|?|?].
Qed.

(** A session whose [Close] unregisters itself, as the automatic removal
    the header asks for would, cannot be closed by the registry: the session's
    [Remove] locks the mutex the drain holds, with a graceful and with a forced
    close. *)
Theorem manager_close_reentered order (Horder : ∀ m, order m ≡ₚ map_to_list m)
    (close : bool → S → M W ()) (id_of : S → Z) force m w :
  (∀ f s w, ∃ w', close f s w = Ret () w') →
  (∃ id s, m !! id = Some (Some s)) →
  manager_Close order (λ f s, on_snd (close f s) ;; Remove (id_of s)) force (SM false m, w)
  = Undef relock.
Proof.
  intros Hclose (id & s & Hs).
  assert (Hl : (id, Some s) ∈ order m) by (by rw Horder; apply elem_of_map_to_list).
  assert (Hloop : ∀ l w, (id, Some s) ∈ l →
    for_each (close_one (λ f s, on_snd (close f s) ;; Remove (id_of s)) force) l (SM true m, w)
    = Undef relock).
  { clear Hl w. intros l. induction l as [|[id' [s'|]] l IH]; intros w Hin.
    - by apply not_elem_of_nil in Hin.
    - destruct (Hclose force s' w) as [w' Hw].
      by rw /= /mbind /M_bind /close_one /on_snd /= Hw.
    - apply (IH w). by apply elem_of_cons in Hin as [|]. }
  destruct force; rw /manager_Close /DrainForce /DrainGraceful /locked /=;
    by rw /mbind /M_bind /get_sessions /gets /= /set_held /= Hloop.
Qed.
End ManagerProperties.

(** ** Witnesses *)
Lemma manager_refines_history_witness :
  ∃ m, for_each registry_step [RAdd 7 (Some "a"); RAdd 7 (Some "b"); RAdd 8 None; RRemove 8]
         (new_manager, ()) = Ret () (SM false m, ())
    ∧ (∀ id, m !! id = foldl (id_step id) None
               [RAdd 7 (Some "a"); RAdd 7 (Some "b"); RAdd 8 None; RRemove 8])
    ∧ Get 7 (SM false m, ()) = Ret (Some "a") (SM false m, ()).
Proof.
  destruct (manager_refines_history map_to_list (λ m, reflexivity _)
    [RAdd 7 (Some "a"); RAdd 7 (Some "b"); RAdd 8 None; RRemove 8] ())
    as (m & Hrun & Hm & Hget & _).
  exists m. split_and!; [exact Hrun|exact Hm|exact (Hget 7%Z)].
Defined.

(** Sessions that log how they are closed. *)
Definition logging_close (f : bool) (s : string) : M (list (string * bool)) () :=
  modify (λ log, log ++ [(s, f)]).

Lemma manager_close_all_witness :
  ∃ live, live ≡ₚ live_sessions (map_to_list ({[7%Z := Some "a"; 8%Z := None; 9%Z := Some "c"]} : gmap Z _))
    ∧ manager_Close map_to_list (λ f s, on_snd (logging_close f s)) true
        (SM false {[7%Z := Some "a"; 8%Z := None; 9%Z := Some "c"]}, [])
      = match for_each (logging_close true) live [] with
        | Ret _ w' => Ret () (SM false ∅, w')
        | Throw e w' => Throw e (SM false {[7%Z := Some "a"; 8%Z := None; 9%Z := Some "c"]}, w')
        | Undef u => Undef u
        end.
Proof. exact (manager_close_all map_to_list (λ m, reflexivity _) logging_close true _ []). Defined.

Lemma manager_close_reentered_witness :
  manager_Close map_to_list (λ f s, on_snd (logging_close f s) ;; Remove 7) false
    (SM false {[7%Z := Some "a"]}, []) = Undef relock.
Proof.
  apply (manager_close_reentered map_to_list (λ m, reflexivity _) logging_close (λ _, 7%Z)).
  - intros f s w. by eexists.
  - exists 7%Z, "a". reflexivity.
Defined.
