(* ===== verification/TaskPool.v ===== *)
(** * TaskMultiProcessor: the worker pool (pool/task_multi_processor.h)

    An interleaving model of the pool: every thread (the workers, the threads
    that submit, the thread that destroys the pool) is a program counter, and a
    step runs one thread up to the end of its next access to shared state.  A
    critical section of a queue's mutex is one step, and so is the raising of
    [high_water_mark_] (a compare-exchange loop that stops when the mark is at
    least the queue's length); [mutex_] and [cb_mu_], which are held over
    several steps, have their holder in the state.  The atomics are sequentially
    consistent, as the code's are but for three release stores and two relaxed
    loads; so are the accesses the code makes without a lock it should hold
    ([queues_[i].size()], [last_drop_notification_], [cfg_]).

    [bound] records the processor each worker was bound to and [err_out] what was
    printed on [stderr].  The user's callbacks are computations on a world [W] of the user's; one call
    is one step.  [pushed], [taken] and [finished] are history: what was put in
    which queue, which worker took what, and whose processing is over. *)
From S2P Require Import Prelude.

Section Pool.
Context {T W : Type}.

Inductive ScheduleMode := FIFO | RoundRobin | WorkStealing.

#[export] Instance ScheduleMode_eq_dec : EqDecision ScheduleMode.
Proof. solve_decision. Defined.

(** The configuration.  Durations are integers, [backoff_duration] what
    [ToInt64Milliseconds] makes of it; [jitter] is the product
    [base * jitter_fraction], cut to an integer by the code. *)
Record TaskProcessorConfig := Cfg {
  id : string;
  num_threads : nat;
  mode : ScheduleMode;
  steal_policy : option (list nat → nat);
  max_queue_size : Z;
  backpressure_threshold : Z;
  backoff_duration : Z;
  jitter : Z;
  drop_notification_interval : Z;
  shutdown_timeout : Z;
  enable_circuit_breaker : bool;
  enable_backoff : bool;
  bind_threads : bool;
  enable_drain_on_shutdown : bool
}.

(** The defaults of the struct, for a machine with [n] hardware threads; a mode
    chosen by the caller. *)
Definition default_cfg (n : nat) (m : ScheduleMode) : TaskProcessorConfig :=
  Cfg "TaskProcessor" n m None 10000 5000 10 1 1000 5000 true true false true.

Definition Callback : Type := T → M W ().
Definition AffinityFn : Type := nat → M W ().

Record TaskItem := Task { payload : T; wrappers : list Callback }.

(** ** Program counters

    A worker, in the order of [ProcessLoop]. *)
Inductive wpc :=
  | WTop
  | WLock
  | WCheckRunning
  | WCheckTasks
  | WWait
  | WAsleep
  | WWoken
  | WOwn
  | WSizes (sizes : list nat)
  | WSteal (vic : nat)
  | WSub (t : TaskItem)
  | WProcessed (t : TaskItem)
  | WCbLock (t : TaskItem)
  | WGlobal (t : TaskItem) (rest : list Callback)
  | WWrap (t : TaskItem) (rest : list Callback)
  | WDrops
  | WNotify (d : Z)
  | WExit
  | WStopping
  | WDone.

(** A thread in [SubmitImpl]; [SIdle]: not submitting. *)
Inductive spc :=
  | SIdle
  | SLoad (t : TaskItem)
  | SDrop
  | SBackoff (t : TaskItem)
  | SIndex (t : TaskItem)
  | SPush (idx : nat) (t : TaskItem)
  | SCount
  | SSignal.

(** The destructor. *)
Inductive dpc :=
  | DLive
  | DSignal
  | DDrain (start : Z)
  | DJoin (k : nat)
  | DWaitActive
  | DFinal
  | DDead.

Record Pool := MkPool {
  cfg_ : TaskProcessorConfig;
  running_ : bool;
  stopped_ : bool;
  active_workers_ : Z;
  queues_ : list (list TaskItem);
  workers_ : list wpc;
  mutex_ : option nat;
  cb_mu_ : option nat;
  global_callbacks_ : list Callback;
  tasks_in_queue_ : Z;
  dropped_count_ : Z;
  high_water_mark_ : Z;
  processed_count_ : Z;
  stolen_count_ : Z;
  rr_index_ : Z;
  last_drop_notification_ : Z;
  steal_policy_ : list nat → nat;
  thread_affinity_ : option AffinityFn;
  final_callback_ : option (M W ());
  destructor : dpc;
  submitters : list spc;
  bound : list (nat * nat);
  err_out : list (string * Z);
  user : W;
  pushed : list (nat * TaskItem);
  taken : list (nat * TaskItem);
  finished : list TaskItem
}.

Definition set_cfg (v : TaskProcessorConfig) (s : Pool) : Pool :=
  MkPool v (running_ s) (stopped_ s) (active_workers_ s) (queues_ s) (workers_ s) (mutex_ s)
    (cb_mu_ s) (global_callbacks_ s) (tasks_in_queue_ s) (dropped_count_ s)
    (high_water_mark_ s) (processed_count_ s) (stolen_count_ s) (rr_index_ s)
    (last_drop_notification_ s) (steal_policy_ s) (thread_affinity_ s)
    (final_callback_ s) (destructor s) (submitters s) (bound s) (err_out s) (user s)
    (pushed s) (taken s) (finished s).
Definition set_running (v : bool) (s : Pool) : Pool :=
  MkPool (cfg_ s) v (stopped_ s) (active_workers_ s) (queues_ s) (workers_ s) (mutex_ s)
    (cb_mu_ s) (global_callbacks_ s) (tasks_in_queue_ s) (dropped_count_ s)
    (high_water_mark_ s) (processed_count_ s) (stolen_count_ s) (rr_index_ s)
    (last_drop_notification_ s) (steal_policy_ s) (thread_affinity_ s)
    (final_callback_ s) (destructor s) (submitters s) (bound s) (err_out s) (user s)
    (pushed s) (taken s) (finished s).
Definition set_stopped (v : bool) (s : Pool) : Pool :=
  MkPool (cfg_ s) (running_ s) v (active_workers_ s) (queues_ s) (workers_ s) (mutex_ s)
    (cb_mu_ s) (global_callbacks_ s) (tasks_in_queue_ s) (dropped_count_ s)
    (high_water_mark_ s) (processed_count_ s) (stolen_count_ s) (rr_index_ s)
    (last_drop_notification_ s) (steal_policy_ s) (thread_affinity_ s)
    (final_callback_ s) (destructor s) (submitters s) (bound s) (err_out s) (user s)
    (pushed s) (taken s) (finished s).
Definition set_active_workers (v : Z) (s : Pool) : Pool :=
  MkPool (cfg_ s) (running_ s) (stopped_ s) v (queues_ s) (workers_ s) (mutex_ s) (cb_mu_ s)
    (global_callbacks_ s) (tasks_in_queue_ s) (dropped_count_ s) (high_water_mark_ s)
    (processed_count_ s) (stolen_count_ s) (rr_index_ s) (last_drop_notification_ s)
    (steal_policy_ s) (thread_affinity_ s) (final_callback_ s) (destructor s)
    (submitters s) (bound s) (err_out s) (user s) (pushed s) (taken s) (finished s).
Definition set_queues (v : list (list TaskItem)) (s : Pool) : Pool :=
  MkPool (cfg_ s) (running_ s) (stopped_ s) (active_workers_ s) v (workers_ s) (mutex_ s)
    (cb_mu_ s) (global_callbacks_ s) (tasks_in_queue_ s) (dropped_count_ s)
    (high_water_mark_ s) (processed_count_ s) (stolen_count_ s) (rr_index_ s)
    (last_drop_notification_ s) (steal_policy_ s) (thread_affinity_ s)
    (final_callback_ s) (destructor s) (submitters s) (bound s) (err_out s) (user s)
    (pushed s) (taken s) (finished s).
Definition set_workers (v : list wpc) (s : Pool) : Pool :=
  MkPool (cfg_ s) (running_ s) (stopped_ s) (active_workers_ s) (queues_ s) v (mutex_ s)
    (cb_mu_ s) (global_callbacks_ s) (tasks_in_queue_ s) (dropped_count_ s)
    (high_water_mark_ s) (processed_count_ s) (stolen_count_ s) (rr_index_ s)
    (last_drop_notification_ s) (steal_policy_ s) (thread_affinity_ s)
    (final_callback_ s) (destructor s) (submitters s) (bound s) (err_out s) (user s)
    (pushed s) (taken s) (finished s).
Definition set_mutex (v : option nat) (s : Pool) : Pool :=
  MkPool (cfg_ s) (running_ s) (stopped_ s) (active_workers_ s) (queues_ s) (workers_ s) v
    (cb_mu_ s) (global_callbacks_ s) (tasks_in_queue_ s) (dropped_count_ s)
    (high_water_mark_ s) (processed_count_ s) (stolen_count_ s) (rr_index_ s)
    (last_drop_notification_ s) (steal_policy_ s) (thread_affinity_ s)
    (final_callback_ s) (destructor s) (submitters s) (bound s) (err_out s) (user s)
    (pushed s) (taken s) (finished s).
Definition set_cb_mu (v : option nat) (s : Pool) : Pool :=
  MkPool (cfg_ s) (running_ s) (stopped_ s) (active_workers_ s) (queues_ s) (workers_ s)
    (mutex_ s) v (global_callbacks_ s) (tasks_in_queue_ s) (dropped_count_ s)
    (high_water_mark_ s) (processed_count_ s) (stolen_count_ s) (rr_index_ s)
    (last_drop_notification_ s) (steal_policy_ s) (thread_affinity_ s)
    (final_callback_ s) (destructor s) (submitters s) (bound s) (err_out s) (user s)
    (pushed s) (taken s) (finished s).
Definition set_global_callbacks (v : list Callback) (s : Pool) : Pool :=
  MkPool (cfg_ s) (running_ s) (stopped_ s) (active_workers_ s) (queues_ s) (workers_ s)
    (mutex_ s) (cb_mu_ s) v (tasks_in_queue_ s) (dropped_count_ s) (high_water_mark_ s)
    (processed_count_ s) (stolen_count_ s) (rr_index_ s) (last_drop_notification_ s)
    (steal_policy_ s) (thread_affinity_ s) (final_callback_ s) (destructor s)
    (submitters s) (bound s) (err_out s) (user s) (pushed s) (taken s) (finished s).
Definition set_tasks_in_queue (v : Z) (s : Pool) : Pool :=
  MkPool (cfg_ s) (running_ s) (stopped_ s) (active_workers_ s) (queues_ s) (workers_ s)
    (mutex_ s) (cb_mu_ s) (global_callbacks_ s) v (dropped_count_ s)
    (high_water_mark_ s) (processed_count_ s) (stolen_count_ s) (rr_index_ s)
    (last_drop_notification_ s) (steal_policy_ s) (thread_affinity_ s)
    (final_callback_ s) (destructor s) (submitters s) (bound s) (err_out s) (user s)
    (pushed s) (taken s) (finished s).
Definition set_dropped_count (v : Z) (s : Pool) : Pool :=
  MkPool (cfg_ s) (running_ s) (stopped_ s) (active_workers_ s) (queues_ s) (workers_ s)
    (mutex_ s) (cb_mu_ s) (global_callbacks_ s) (tasks_in_queue_ s) v
    (high_water_mark_ s) (processed_count_ s) (stolen_count_ s) (rr_index_ s)
    (last_drop_notification_ s) (steal_policy_ s) (thread_affinity_ s)
    (final_callback_ s) (destructor s) (submitters s) (bound s) (err_out s) (user s)
    (pushed s) (taken s) (finished s).
Definition set_high_water_mark (v : Z) (s : Pool) : Pool :=
  MkPool (cfg_ s) (running_ s) (stopped_ s) (active_workers_ s) (queues_ s) (workers_ s)
    (mutex_ s) (cb_mu_ s) (global_callbacks_ s) (tasks_in_queue_ s) (dropped_count_ s) v
    (processed_count_ s) (stolen_count_ s) (rr_index_ s) (last_drop_notification_ s)
    (steal_policy_ s) (thread_affinity_ s) (final_callback_ s) (destructor s)
    (submitters s) (bound s) (err_out s) (user s) (pushed s) (taken s) (finished s).
Definition set_processed_count (v : Z) (s : Pool) : Pool :=
  MkPool (cfg_ s) (running_ s) (stopped_ s) (active_workers_ s) (queues_ s) (workers_ s)
    (mutex_ s) (cb_mu_ s) (global_callbacks_ s) (tasks_in_queue_ s) (dropped_count_ s)
    (high_water_mark_ s) v (stolen_count_ s) (rr_index_ s) (last_drop_notification_ s)
    (steal_policy_ s) (thread_affinity_ s) (final_callback_ s) (destructor s)
    (submitters s) (bound s) (err_out s) (user s) (pushed s) (taken s) (finished s).
Definition set_stolen_count (v : Z) (s : Pool) : Pool :=
  MkPool (cfg_ s) (running_ s) (stopped_ s) (active_workers_ s) (queues_ s) (workers_ s)
    (mutex_ s) (cb_mu_ s) (global_callbacks_ s) (tasks_in_queue_ s) (dropped_count_ s)
    (high_water_mark_ s) (processed_count_ s) v (rr_index_ s)
    (last_drop_notification_ s) (steal_policy_ s) (thread_affinity_ s)
    (final_callback_ s) (destructor s) (submitters s) (bound s) (err_out s) (user s)
    (pushed s) (taken s) (finished s).
Definition set_rr_index (v : Z) (s : Pool) : Pool :=
  MkPool (cfg_ s) (running_ s) (stopped_ s) (active_workers_ s) (queues_ s) (workers_ s)
    (mutex_ s) (cb_mu_ s) (global_callbacks_ s) (tasks_in_queue_ s) (dropped_count_ s)
    (high_water_mark_ s) (processed_count_ s) (stolen_count_ s) v
    (last_drop_notification_ s) (steal_policy_ s) (thread_affinity_ s)
    (final_callback_ s) (destructor s) (submitters s) (bound s) (err_out s) (user s)
    (pushed s) (taken s) (finished s).
Definition set_last_drop_notification (v : Z) (s : Pool) : Pool :=
  MkPool (cfg_ s) (running_ s) (stopped_ s) (active_workers_ s) (queues_ s) (workers_ s)
    (mutex_ s) (cb_mu_ s) (global_callbacks_ s) (tasks_in_queue_ s) (dropped_count_ s)
    (high_water_mark_ s) (processed_count_ s) (stolen_count_ s) (rr_index_ s) v
    (steal_policy_ s) (thread_affinity_ s) (final_callback_ s) (destructor s)
    (submitters s) (bound s) (err_out s) (user s) (pushed s) (taken s) (finished s).
Definition set_thread_affinity (v : option AffinityFn) (s : Pool) : Pool :=
  MkPool (cfg_ s) (running_ s) (stopped_ s) (active_workers_ s) (queues_ s) (workers_ s)
    (mutex_ s) (cb_mu_ s) (global_callbacks_ s) (tasks_in_queue_ s) (dropped_count_ s)
    (high_water_mark_ s) (processed_count_ s) (stolen_count_ s) (rr_index_ s)
    (last_drop_notification_ s) (steal_policy_ s) v (final_callback_ s) (destructor s)
    (submitters s) (bound s) (err_out s) (user s) (pushed s) (taken s) (finished s).
Definition set_final_callback (v : option (M W ())) (s : Pool) : Pool :=
  MkPool (cfg_ s) (running_ s) (stopped_ s) (active_workers_ s) (queues_ s) (workers_ s)
    (mutex_ s) (cb_mu_ s) (global_callbacks_ s) (tasks_in_queue_ s) (dropped_count_ s)
    (high_water_mark_ s) (processed_count_ s) (stolen_count_ s) (rr_index_ s)
    (last_drop_notification_ s) (steal_policy_ s) (thread_affinity_ s) v (destructor s)
    (submitters s) (bound s) (err_out s) (user s) (pushed s) (taken s) (finished s).
Definition set_destructor (v : dpc) (s : Pool) : Pool :=
  MkPool (cfg_ s) (running_ s) (stopped_ s) (active_workers_ s) (queues_ s) (workers_ s)
    (mutex_ s) (cb_mu_ s) (global_callbacks_ s) (tasks_in_queue_ s) (dropped_count_ s)
    (high_water_mark_ s) (processed_count_ s) (stolen_count_ s) (rr_index_ s)
    (last_drop_notification_ s) (steal_policy_ s) (thread_affinity_ s)
    (final_callback_ s) v (submitters s) (bound s) (err_out s) (user s) (pushed s)
    (taken s) (finished s).
Definition set_submitters (v : list spc) (s : Pool) : Pool :=
  MkPool (cfg_ s) (running_ s) (stopped_ s) (active_workers_ s) (queues_ s) (workers_ s)
    (mutex_ s) (cb_mu_ s) (global_callbacks_ s) (tasks_in_queue_ s) (dropped_count_ s)
    (high_water_mark_ s) (processed_count_ s) (stolen_count_ s) (rr_index_ s)
    (last_drop_notification_ s) (steal_policy_ s) (thread_affinity_ s)
    (final_callback_ s) (destructor s) v (bound s) (err_out s) (user s) (pushed s)
    (taken s) (finished s).
Definition set_bound (v : list (nat * nat)) (s : Pool) : Pool :=
  MkPool (cfg_ s) (running_ s) (stopped_ s) (active_workers_ s) (queues_ s) (workers_ s)
    (mutex_ s) (cb_mu_ s) (global_callbacks_ s) (tasks_in_queue_ s) (dropped_count_ s)
    (high_water_mark_ s) (processed_count_ s) (stolen_count_ s) (rr_index_ s)
    (last_drop_notification_ s) (steal_policy_ s) (thread_affinity_ s)
    (final_callback_ s) (destructor s) (submitters s) v (err_out s) (user s) (pushed s)
    (taken s) (finished s).
Definition set_err_out (v : list (string * Z)) (s : Pool) : Pool :=
  MkPool (cfg_ s) (running_ s) (stopped_ s) (active_workers_ s) (queues_ s) (workers_ s)
    (mutex_ s) (cb_mu_ s) (global_callbacks_ s) (tasks_in_queue_ s) (dropped_count_ s)
    (high_water_mark_ s) (processed_count_ s) (stolen_count_ s) (rr_index_ s)
    (last_drop_notification_ s) (steal_policy_ s) (thread_affinity_ s)
    (final_callback_ s) (destructor s) (submitters s) (bound s) v (user s) (pushed s)
    (taken s) (finished s).
Definition set_user (v : W) (s : Pool) : Pool :=
  MkPool (cfg_ s) (running_ s) (stopped_ s) (active_workers_ s) (queues_ s) (workers_ s)
    (mutex_ s) (cb_mu_ s) (global_callbacks_ s) (tasks_in_queue_ s) (dropped_count_ s)
    (high_water_mark_ s) (processed_count_ s) (stolen_count_ s) (rr_index_ s)
    (last_drop_notification_ s) (steal_policy_ s) (thread_affinity_ s)
    (final_callback_ s) (destructor s) (submitters s) (bound s) (err_out s) v (pushed s)
    (taken s) (finished s).
Definition set_pushed (v : list (nat * TaskItem)) (s : Pool) : Pool :=
  MkPool (cfg_ s) (running_ s) (stopped_ s) (active_workers_ s) (queues_ s) (workers_ s)
    (mutex_ s) (cb_mu_ s) (global_callbacks_ s) (tasks_in_queue_ s) (dropped_count_ s)
    (high_water_mark_ s) (processed_count_ s) (stolen_count_ s) (rr_index_ s)
    (last_drop_notification_ s) (steal_policy_ s) (thread_affinity_ s)
    (final_callback_ s) (destructor s) (submitters s) (bound s) (err_out s) (user s) v
    (taken s) (finished s).
Definition set_taken (v : list (nat * TaskItem)) (s : Pool) : Pool :=
  MkPool (cfg_ s) (running_ s) (stopped_ s) (active_workers_ s) (queues_ s) (workers_ s)
    (mutex_ s) (cb_mu_ s) (global_callbacks_ s) (tasks_in_queue_ s) (dropped_count_ s)
    (high_water_mark_ s) (processed_count_ s) (stolen_count_ s) (rr_index_ s)
    (last_drop_notification_ s) (steal_policy_ s) (thread_affinity_ s)
    (final_callback_ s) (destructor s) (submitters s) (bound s) (err_out s) (user s)
    (pushed s) v (finished s).
Definition set_finished (v : list TaskItem) (s : Pool) : Pool :=
  MkPool (cfg_ s) (running_ s) (stopped_ s) (active_workers_ s) (queues_ s) (workers_ s)
    (mutex_ s) (cb_mu_ s) (global_callbacks_ s) (tasks_in_queue_ s) (dropped_count_ s)
    (high_water_mark_ s) (processed_count_ s) (stolen_count_ s) (rr_index_ s)
    (last_drop_notification_ s) (steal_policy_ s) (thread_affinity_ s)
    (final_callback_ s) (destructor s) (submitters s) (bound s) (err_out s) (user s)
    (pushed s) (taken s) v.

(** ** Steps *)
Inductive result := Next (s : Pool) | Blocked | Crash (u : ub).

(** [size_t] counters. *)
Definition fetch_add_tasks (s : Pool) : Pool := set_tasks_in_queue (add64 (tasks_in_queue_ s) 1) s.
Definition fetch_sub_tasks (s : Pool) : Pool := set_tasks_in_queue (sub64 (tasks_in_queue_ s) 1) s.

Definition at_worker (i : nat) (pc : wpc) (s : Pool) : Pool :=
  set_workers (<[i := pc]> (workers_ s)) s.
Definition at_submitter (c : nat) (pc : spc) (s : Pool) : Pool :=
  set_submitters (<[c := pc]> (submitters s)) s.
Definition set_queue_at (k : nat) (q : list TaskItem) (s : Pool) : Pool :=
  set_queues (<[k := q]> (queues_ s)) s.

(** [cv_.SignalAll()]: the waiters go on to take [mutex_] again. *)
Definition wake (pc : wpc) : wpc := match pc with WAsleep => WWoken | _ => pc end.
Definition SignalAll (s : Pool) : Pool := set_workers (wake <$> workers_ s) s.

(** A call of the user's code inside [try { ... } catch (...) {}]. *)
Definition call_swallowed (m : M W ()) (s : Pool) : result :=
  match m (user s) with
  | Ret _ w | Throw _ w => Next (set_user w s)
  | Undef u => Crash u
  end.

Definition and_then (r : result) (k : Pool → result) : result :=
  match r with Next s => k s | r => r end.

(** [std::max_element]: the first of the largest; [DefaultStealPolicy] is its
    index. *)
Fixpoint max_from (best : nat) (best_size i : nat) (sizes : list nat) : nat :=
  match sizes with
  | [] => best
  | x :: sizes =>
      if best_size <? x then max_from i x (S i) sizes
      else max_from best best_size (S i) sizes
  end.

Definition DefaultStealPolicy (sizes : list nat) : nat :=
  match sizes with [] => 0 | x :: sizes => max_from 0 x 1 sizes end.

(** ** [SubmitImpl] *)
Definition breaker_open (cfg : TaskProcessorConfig) (curr : Z) : bool :=
  enable_circuit_breaker cfg && negb (max_queue_size cfg =? 0)%Z
  && (max_queue_size cfg <=? curr)%Z.

Definition backs_off (cfg : TaskProcessorConfig) (curr : Z) : bool :=
  enable_backoff cfg && negb (backpressure_threshold cfg =? 0)%Z
  && (backpressure_threshold cfg <=? curr)%Z.

(** [queues_[idx].push_back(...)] and the high-water mark. *)
Definition push_task (idx : nat) (t : TaskItem) (s : Pool) : result :=
  match queues_ s !! idx with
  | None => Crash out_of_bounds
  | Some q =>
      let q := q ++ [t] in
      Next (set_high_water_mark (Z.max (high_water_mark_ s) (Z.of_nat (length q)))
             (set_pushed (pushed s ++ [(idx, t)]) (set_queue_at idx q s)))
  end.

Definition SubmitImpl_step (c : nat) (s : Pool) : result :=
  match submitters s !! c with
  | None | Some SIdle => Blocked
  | Some (SLoad t) =>
      let curr := tasks_in_queue_ s in
      Next (at_submitter c
             (if breaker_open (cfg_ s) curr then SDrop
              else if backs_off (cfg_ s) curr then SBackoff t else SIndex t) s)
  | Some SDrop =>
      Next (at_submitter c SIdle (set_dropped_count (add64 (dropped_count_ s) 1) s))
  | Some (SBackoff t) => Blocked
  | Some (SIndex t) =>
      match mode (cfg_ s) with
      | FIFO => Next (at_submitter c (SPush 0 t) s)
      | _ =>
          let n := num_threads (cfg_ s) in
          let rr := rr_index_ s in
          let s := set_rr_index (add64 rr 1) s in
          if n =? 0 then Crash division_by_zero
          else Next (at_submitter c (SPush (Z.to_nat (rr `mod` Z.of_nat n)) t) s)
      end
  | Some (SPush idx t) => and_then (push_task idx t s) (λ s, Next (at_submitter c SCount s))
  | Some SCount => Next (at_submitter c SSignal (fetch_add_tasks s))
  | Some SSignal =>
      match mutex_ s with
      | Some _ => Blocked
      | None => Next (at_submitter c SIdle (SignalAll s))
      end
  end.

(** The backoff: [r] is what the thread's generator draws, [None] when its first
    use makes [std::random_device] throw, which leaves [SubmitImpl].  How long
    the thread then sleeps is left to the interleaving. *)
Definition Backoff_step (c : nat) (r : option Z) (s : Pool) : result :=
  match submitters s !! c with
  | Some (SBackoff t) =>
      let base := backoff_duration (cfg_ s) in
      let jit := jitter (cfg_ s) in
      if negb (int64 jit) then Crash broken_precondition else
      match r with
      | None => Next (at_submitter c SIdle s)
      | Some d =>
          if (jit <? 0)%Z then Crash broken_precondition
          else if ((- jit <=? d) && (d <=? jit))%Z then
            if int64 (base + d) then Next (at_submitter c (SIndex t) s)
            else Crash signed_overflow
          else Blocked
      end
  | _ => Blocked
  end.

(** ** [ProcessLoop] *)

(** [dq.front()], [dq.pop_front()] of the worker's own queue. *)
Definition pop_own (i : nat) (s : Pool) : result :=
  match queues_ s !! i with
  | None => Crash out_of_bounds
  | Some [] =>
      Next (at_worker i (if decide (mode (cfg_ s) = WorkStealing) then WSizes [] else WDrops) s)
  | Some (t :: q) =>
      Next (at_worker i (WSub t) (set_taken (taken s ++ [(i, t)]) (set_queue_at i q s)))
  end.

(** [dq.back()], [dq.pop_back()] of the victim's queue. *)
Definition steal_from (i vic : nat) (s : Pool) : result :=
  match queues_ s !! vic with
  | None => Crash out_of_bounds
  | Some q =>
      match list.last q with
      | None => Next (at_worker i WDrops s)
      | Some t =>
          Next (at_worker i (WSub t)
                 (set_stolen_count (add64 (stolen_count_ s) 1)
                   (set_taken (taken s ++ [(i, t)]) (set_queue_at vic (removelast q) s))))
      end
  end.

Definition acquire_mutex (i : nat) (s : Pool) : result :=
  match mutex_ s with
  | Some _ => Blocked
  | None => Next (at_worker i WCheckRunning (set_mutex (Some i) s))
  end.

(** [now] is what [Now()] gives, where the step asks. *)
Definition ProcessLoop_step (i : nat) (now : Z) (s : Pool) : result :=
  match workers_ s !! i with
  | None | Some WAsleep | Some WDone => Blocked
  | Some WTop => Next (at_worker i (if running_ s then WLock else WExit) s)
  | Some WLock | Some WWoken => acquire_mutex i s
  | Some WCheckRunning =>
      Next (if running_ s then at_worker i WCheckTasks s
            else at_worker i WOwn (set_mutex None s))
  | Some WCheckTasks =>
      Next (if (tasks_in_queue_ s =? 0)%Z then at_worker i WWait s
            else at_worker i WOwn (set_mutex None s))
  | Some WWait => Next (at_worker i WAsleep (set_mutex None s))
  | Some WOwn => pop_own i s
  | Some (WSizes sizes) =>
      if length sizes <? num_threads (cfg_ s) then
        match queues_ s !! length sizes with
        | None => Crash out_of_bounds
        | Some q => Next (at_worker i (WSizes (sizes ++ [length q])) s)
        end
      else Next (at_worker i (WSteal (steal_policy_ s sizes)) s)
  | Some (WSteal vic) => steal_from i vic s
  | Some (WSub t) => Next (at_worker i (WProcessed t) (fetch_sub_tasks s))
  | Some (WProcessed t) =>
      Next (at_worker i (WCbLock t) (set_processed_count (add64 (processed_count_ s) 1) s))
  | Some (WCbLock t) =>
      match cb_mu_ s with
      | Some _ => Blocked
      | None => Next (at_worker i (WGlobal t (global_callbacks_ s)) (set_cb_mu (Some i) s))
      end
  | Some (WGlobal t (g :: rest)) =>
      and_then (call_swallowed (g (payload t)) s) (λ s, Next (at_worker i (WGlobal t rest) s))
  | Some (WGlobal t []) => Next (at_worker i (WWrap t (wrappers t)) (set_cb_mu None s))
  | Some (WWrap t (w :: rest)) =>
      and_then (call_swallowed (w (payload t)) s) (λ s, Next (at_worker i (WWrap t rest) s))
  | Some (WWrap t []) => Next (at_worker i WDrops (set_finished (finished s ++ [t]) s))
  | Some WDrops =>
      let d := dropped_count_ s in
      let s := set_dropped_count 0 s in
      Next (at_worker i (if (d =? 0)%Z then WTop else WNotify d) s)
  | Some (WNotify d) =>
      let s := if (drop_notification_interval (cfg_ s) <=? now - last_drop_notification_ s)%Z
               then set_last_drop_notification now
                      (set_err_out (err_out s ++ [(id (cfg_ s), d)]) s)
               else s in
      Next (at_worker i WTop s)
  | Some WExit =>
      Next (at_worker i WStopping (set_active_workers (sub64 (active_workers_ s) 1) s))
  | Some WStopping => Next (at_worker i WDone (set_stopped true s))
  end.

(** ** [~TaskMultiProcessor] *)
Definition destructor_step (now : Z) (s : Pool) : result :=
  match destructor s with
  | DLive => Next (set_destructor DSignal (set_running false s))
  | DSignal =>
      Next (set_destructor (if enable_drain_on_shutdown (cfg_ s) then DDrain now else DJoin 0)
             (SignalAll s))
  | DDrain start =>
      Next (if ((0 <? tasks_in_queue_ s) && (now - start <? shutdown_timeout (cfg_ s)))%Z
            then s else set_destructor (DJoin 0) s)
  | DJoin k =>
      match workers_ s !! k with
      | None => Next (set_destructor DWaitActive s)
      | Some WDone => Next (set_destructor (DJoin (S k)) s)
      | Some _ => Blocked
      end
  | DWaitActive =>
      Next (if (0 <? active_workers_ s)%Z then s else set_destructor DFinal (set_stopped true s))
  | DFinal =>
      and_then (match final_callback_ s with Some f => call_swallowed f s | None => Next s end)
        (λ s, Next (set_destructor DDead s))
  | DDead => Blocked
  end.

(** ** Members that are one access *)
Definition UpdateConfig (cfg : TaskProcessorConfig) (s : Pool) : Pool := set_cfg cfg s.
Definition SetThreadAffinity (fn : AffinityFn) (s : Pool) : Pool := set_thread_affinity (Some fn) s.
Definition SetFinalCallback (cb : M W ()) (s : Pool) : Pool := set_final_callback (Some cb) s.
Definition RegisterCallback (cb : Callback) (s : Pool) : result :=
  match cb_mu_ s with
  | Some _ => Blocked
  | None => Next (set_global_callbacks (global_callbacks_ s ++ [cb]) s)
  end.
Definition GetQueueSize (s : Pool) : Z := tasks_in_queue_ s.
Definition GetDroppedCount (s : Pool) : Z * Pool := (dropped_count_ s, set_dropped_count 0 s).
Definition GetHighWaterMark (s : Pool) : Z := high_water_mark_ s.
Definition GetProcessedCount (s : Pool) : Z := processed_count_ s.
Definition GetStolenCount (s : Pool) : Z := stolen_count_ s.

(** ** Runs *)
Inductive label :=
  | LSubmit (c : nat) (t : TaskItem)
  | LSubmitter (c : nat)
  | LBackoff (c : nat) (r : option Z)
  | LWorker (i : nat) (now : Z)
  | LSpurious (i : nat)
  | LDestructor (now : Z)
  | LUpdateConfig (cfg : TaskProcessorConfig)
  | LSetThreadAffinity (fn : AffinityFn)
  | LSetFinalCallback (cb : M W ())
  | LRegisterCallback (cb : Callback)
  | LGetDroppedCount.

(** A call of [SubmitImpl] by thread [c]. *)
Definition Submit_call (c : nat) (t : TaskItem) (s : Pool) : result :=
  match submitters s !! c with
  | Some SIdle => Next (at_submitter c (SLoad t) s)
  | _ => Blocked
  end.

Definition spurious_wakeup (i : nat) (s : Pool) : result :=
  match workers_ s !! i with
  | Some WAsleep => Next (at_worker i WWoken s)
  | _ => Blocked
  end.

(** After the destructor has returned the object is gone. *)
Definition gone (s : Pool) : bool := match destructor s with DDead => true | _ => false end.

Definition pool_step (s : Pool) (l : label) : result :=
  if gone s then Crash use_after_free else
  match l with
  | LSubmit c t => Submit_call c t s
  | LSubmitter c => SubmitImpl_step c s
  | LBackoff c r => Backoff_step c r s
  | LWorker i now => ProcessLoop_step i now s
  | LSpurious i => spurious_wakeup i s
  | LDestructor now => destructor_step now s
  | LUpdateConfig cfg => Next (UpdateConfig cfg s)
  | LSetThreadAffinity fn => Next (SetThreadAffinity fn s)
  | LSetFinalCallback cb => Next (SetFinalCallback cb s)
  | LRegisterCallback cb => RegisterCallback cb s
  | LGetDroppedCount => Next (GetDroppedCount s).2
  end.

Fixpoint pool_run (s : Pool) (ls : list label) : result :=
  match ls with
  | [] => Next s
  | l :: ls => and_then (pool_step s l) (λ s, pool_run s ls)
  end.

(** The constructor, with [k] threads that may submit and [hw] hardware threads
    ([std::thread::hardware_concurrency()], which may be 0).  Its member
    initialisers and vectors, with the workers at the top of their loops: *)
Definition members (cfg : TaskProcessorConfig) (now : Z) (k : nat) (w : W) : Pool :=
  let n := num_threads cfg in
  MkPool cfg true false (Z.of_nat n) (replicate n []) (replicate n WTop) None None [] 0 0 0 0 0 0
    now (default DefaultStealPolicy (steal_policy cfg)) None None DLive (replicate k SIdle) [] []
    w [] [] [].

(** The processor worker [i] is bound to. *)
Definition DefaultAffinity (hw i : nat) (s : Pool) : result :=
  if hw =? 0 then Crash division_by_zero else Next (set_bound (bound s ++ [(i, i mod hw)]) s).

(** The binding of the workers from [i] on; [thread_affinity_], which only a
    constructed pool can be given, is empty here. *)
Fixpoint bind_workers (hw i count : nat) (s : Pool) : result :=
  match count with
  | 0 => Next s
  | S count => and_then (DefaultAffinity hw i s) (bind_workers hw (S i) count)
  end.

Definition TaskMultiProcessor (hw : nat) (cfg : TaskProcessorConfig) (now : Z) (k : nat) (w : W)
    : result :=
  let s := members cfg now k w in
  if bind_threads cfg then bind_workers hw 0 (num_threads cfg) s else Next s.
End Pool.
