(* ===== verification/TaskPoolSpec.v ===== *)
(** * What the worker pool promises: a bag of queues

    The abstract pool knows queues, the task each worker has in hand, and the
    history; it says nothing of locks, signals and counters.  Every step of the
    detailed model is a step of the abstract one or invisible to it, as long as
    the pool's shape (number of queues, number of workers, indices in range) is
    kept. *)
From S2P Require Import Prelude TaskPool.

Section Spec.
Context {T W : Type}.
Implicit Types (s : Pool (T := T) (W := W)) (t : TaskItem (T := T) (W := W)).

Record Bag := MkBag {
  bag_queues : list (list (TaskItem (T := T) (W := W)));
  bag_hands : list (list (TaskItem (T := T) (W := W)));
  bag_pushed : list (nat * TaskItem (T := T) (W := W));
  bag_taken : list (nat * TaskItem (T := T) (W := W));
  bag_finished : list (TaskItem (T := T) (W := W))
}.

(** A task is put at the end of a queue (the first one in FIFO mode), taken by
    an idle worker from the front of its own queue or, when stealing, from the
    back of any queue, and finished by the worker that has it. *)
Inductive bag_step (m : ScheduleMode) : Bag → Bag → Prop :=
  | bag_push Q H P K F idx t q :
      Q !! idx = Some q → (m = FIFO → idx = 0) →
      bag_step m (MkBag Q H P K F) (MkBag (<[idx := q ++ [t]]> Q) H (P ++ [(idx, t)]) K F)
  | bag_pop Q H P K F i t q :
      Q !! i = Some (t :: q) → H !! i = Some [] →
      bag_step m (MkBag Q H P K F)
        (MkBag (<[i := q]> Q) (<[i := [t]]> H) P (K ++ [(i, t)]) F)
  | bag_steal Q H P K F i vic t q :
      m = WorkStealing → Q !! vic = Some (q ++ [t]) → H !! i = Some [] →
      bag_step m (MkBag Q H P K F)
        (MkBag (<[vic := q]> Q) (<[i := [t]]> H) P (K ++ [(i, t)]) F)
  | bag_finish Q H P K F i t :
      H !! i = Some [t] →
      bag_step m (MkBag Q H P K F) (MkBag Q (<[i := []]> H) P K (F ++ [t])).

(** The task a worker has taken and not finished. *)
Definition hand (pc : wpc (T := T) (W := W)) : list (TaskItem (T := T) (W := W)) :=
  match pc with
  | WSub t | WProcessed t | WCbLock t | WGlobal t _ | WWrap t _ => [t]
  | _ => []
  end.

Definition bag s : Bag :=
  MkBag (queues_ s) (hand <$> workers_ s) (pushed s) (taken s) (finished s).

(** ** The pool's shape *)
Definition spc_ok (n : nat) (m : ScheduleMode) (pc : spc (T := T) (W := W)) : Prop :=
  match pc with SPush idx _ => idx < n ∧ (m = FIFO → idx = 0) | _ => True end.

Definition wpc_ok (n : nat) (m : ScheduleMode) (pc : wpc (T := T) (W := W)) : Prop :=
  match pc with
  | WSizes sizes => m = WorkStealing ∧ length sizes ≤ n
  | WSteal vic => m = WorkStealing ∧ vic < n
  | _ => True
  end.

(** A steal policy that picks one of the queues it is shown. *)
Definition policy_ok (n : nat) (p : list nat → nat) : Prop :=
  ∀ sizes, length sizes = n → p sizes < n.

(** What the constructor is given. *)
Record setup_ok (cfg : TaskProcessorConfig) : Prop := {
  some_threads : 0 < num_threads cfg;
  some_policy : policy_ok (num_threads cfg) (default DefaultStealPolicy (steal_policy cfg))
}.

Definition cfg_ok (n : nat) (m : ScheduleMode) (c : TaskProcessorConfig) : Prop :=
  num_threads c = n ∧ mode c = m.

(** Reconfigurations keep the number of threads and the mode. *)
Definition label_ok (n : nat) (m : ScheduleMode) (l : label (T := T) (W := W)) : Prop :=
  match l with LUpdateConfig c => cfg_ok n m c | _ => True end.

Record shape (n : nat) (m : ScheduleMode) s : Prop := {
  shape_cfg : cfg_ok n m (cfg_ s);
  shape_policy : policy_ok n (steal_policy_ s);
  shape_queues : length (queues_ s) = n;
  shape_workers : length (workers_ s) = n;
  shape_submitters : Forall (spc_ok n m) (submitters s);
  shape_pcs : Forall (wpc_ok n m) (workers_ s)
}.

Lemma max_from_range sizes : ∀ best best_size i,
  best < i → max_from best best_size i sizes < i + length sizes.
Proof.
  induction sizes as [|x sizes IH]; intros best bs i Hb; rw /=; [lia|].
  destruct (bs <? x); [pose proof (IH i x (S i))|pose proof (IH best bs (S i))]; lia.
Qed.

Lemma DefaultStealPolicy_range n sizes :
  0 < n → length sizes = n → DefaultStealPolicy sizes < n.
Proof.
  intros Hn Hl. destruct sizes as [|x sizes]; rw /= in Hl *; [lia|].
  pose proof (max_from_range sizes 0 x 1). lia.
Qed.

Lemma bind_workers_bound hw s' : ∀ count i s,
  bind_workers hw i count s = Next s' → ∃ b, s' = set_bound b s.
Proof.
  induction count as [|count IH]; intros i s; rw /=.
  { intros [= <-]. exists (bound s). by destruct s. }
  rw /DefaultAffinity. destruct (hw =? 0); rw /=; [done|].
  intros [b ->]%IH. by exists b.
Qed.

(** A constructed pool is its members, whatever the workers are bound to. *)
Lemma constructed hw cfg now k w s :
  TaskMultiProcessor hw cfg now k w = Next s → ∃ b, s = set_bound b (members cfg now k w).
Proof.
  rw /TaskMultiProcessor. destruct (bind_threads cfg).
  - apply bind_workers_bound.
  - intros [= <-]. by exists [].
Qed.

Lemma shape_new hw cfg now k w s :
  setup_ok cfg → TaskMultiProcessor hw cfg now k w = Next s →
  shape (num_threads cfg) (mode cfg) s.
Proof.
  intros [_ Hp] [b ->]%constructed. split; rw /= ?length_replicate //;
    apply list.Forall_forall; intros x Hx; by apply elem_of_replicate in Hx as [-> _].
Qed.

Lemma and_then_Next (r : result (T := T) (W := W)) k s' :
  and_then r k = Next s' → ∃ s1, r = Next s1 ∧ k s1 = Next s'.
Proof. destruct r; [by eauto|done..]. Qed.

(** The user's world after a call whose exception is swallowed. *)
Definition after {X} (m : M X ()) (w : X) : X :=
  match m w with Ret _ w' | Throw _ w' => w' | Undef _ => w end.

Lemma call_swallowed_Next (m : M W ()) s s' :
  call_swallowed m s = Next s' → s' = set_user (after m (user s)) s.
Proof. rw /call_swallowed /after. by destruct (m (user s)); intros; simplify_eq. Qed.
End Spec.

(** [pool_cases H]: all the ways a step, unfolded in [H], can give its result. *)
Ltac pool_cases H :=
  rw /pool_step /Submit_call /SubmitImpl_step /ProcessLoop_step /spurious_wakeup
     /destructor_step /Backoff_step /acquire_mutex /pop_own /steal_from /push_task /RegisterCallback
     /GetDroppedCount in H;
  repeat first
    [ progress simplify_eq/=
    | match type of H with and_then _ _ = Next _ =>
        apply and_then_Next in H as (? & ? & H) end
    | match goal with Hc : call_swallowed _ _ = Next _ |- _ =>
        apply call_swallowed_Next in Hc as -> end
    | case_match ].

Section Refine.
Context {T W : Type}.
Implicit Types (s : Pool (T := T) (W := W)) (t : TaskItem (T := T) (W := W)).

Lemma hand_wake (pc : wpc (T := T) (W := W)) : hand (wake pc) = hand pc.
Proof. by destruct pc. Qed.

Lemma hands_SignalAll (ws : list (wpc (T := T) (W := W))) :
  hand <$> (wake <$> ws) = hand <$> ws.
Proof. rw -list_fmap_compose. apply list_fmap_ext. intros. apply hand_wake. Qed.

Lemma hands_same i pc pc' (ws : list (wpc (T := T) (W := W))) :
  ws !! i = Some pc → hand pc' = hand pc → hand <$> <[i := pc']> ws = hand <$> ws.
Proof.
  intros Hi Hh. rw list_fmap_insert Hh. apply list_insert_id. by rw list_lookup_fmap Hi.
Qed.

Lemma wpc_ok_wake n m (pc : wpc (T := T) (W := W)) : wpc_ok n m pc → wpc_ok n m (wake pc).
Proof. by destruct pc. Qed.

Lemma shape_at_worker n m i pc s : wpc_ok n m pc → shape n m s → shape n m (at_worker i pc s).
Proof.
  intros Hpc []. split; rw /= ?length_insert //. by apply Forall_insert.
Qed.

Lemma shape_at_submitter n m c pc s :
  spc_ok n m pc → shape n m s → shape n m (at_submitter c pc s).
Proof.
  intros Hpc []. split; rw /= ?length_insert //. by apply Forall_insert.
Qed.

Lemma shape_set_queue_at n m k q s : shape n m s → shape n m (set_queue_at k q s).
Proof. intros []. split; rw /= ?length_insert //. Qed.

Lemma shape_SignalAll n m s : shape n m s → shape n m (SignalAll s).
Proof.
  intros []. split; rw /= ?length_fmap //.
  apply Forall_fmap. eapply Forall_impl; [|eassumption]. apply wpc_ok_wake.
Qed.

(** The fields the shape does not look at. *)
Lemma shape_same n m s s' :
  cfg_ s' = cfg_ s → steal_policy_ s' = steal_policy_ s → queues_ s' = queues_ s → workers_ s' = workers_ s →
  submitters s' = submitters s → shape n m s → shape n m s'.
Proof. intros Hc Hp Hq Hw Hs []. by split; rw ?Hc ?Hp ?Hq ?Hw ?Hs. Qed.

Lemma rr_range (rr : Z) n : 0 < n → Z.to_nat (rr `mod` Z.of_nat n) < n.
Proof.
  intros Hn. pose proof (Z.mod_pos_bound rr (Z.of_nat n)).
  apply Nat2Z.inj_lt. rw Z2Nat.id; lia.
Qed.

Lemma pool_step_shape n m s l s' :
  0 < n → label_ok n m l → shape n m s → pool_step s l = Next s' → shape n m s'.
Proof.
  intros Hn Hl Hsh Hs. pose proof Hsh as [[Hcn Hcm] Hcp Hq Hw Hsub Hpc].
  destruct l as [c t|c|c r|i now|i|now|cfg|fn|cb|cb|]; pool_cases Hs.
  all: repeat first
    [ done
    | apply shape_at_worker; [done|]
    | apply shape_at_submitter; [done|]
    | match goal with
      | |- context [set_queue_at ?k ?q ?s0] =>
          apply (shape_same _ _ (set_queue_at k q s0)); [done..|by apply shape_set_queue_at]
      | |- context [SignalAll ?s0] =>
          apply (shape_same _ _ (SignalAll s0)); [done..|by apply shape_SignalAll]
      end
    | match goal with Hsh : shape _ _ ?s0 |- _ => by apply (shape_same _ _ s0) end ].
  - apply shape_at_submitter; [|by apply (shape_same _ _ s)].
    by split; [apply rr_range|].
  - apply shape_at_submitter; [|by apply (shape_same _ _ s)].
    by split; [apply rr_range|].
  - apply shape_at_worker; [|done]. split; [done|cbn; lia].
  - apply shape_at_worker; [|done].
    pose proof (proj1 (list.Forall_lookup _ _) Hpc i _ ltac:(eassumption)) as [Hm Hlen].
    split; [done|]. rw length_app /=. apply Nat.ltb_lt in H1. lia.
  - apply shape_at_worker; [|done].
    pose proof (proj1 (list.Forall_lookup _ _) Hpc i _ ltac:(eassumption)) as [Hm Hlen].
    split; [done|]. apply Hcp. apply Nat.ltb_ge in H1. lia.
Qed.
End Refine.

Section BagRefinement.
Context {T W : Type}.
Implicit Types (s : Pool (T := T) (W := W)) (t : TaskItem (T := T) (W := W)).

Lemma pool_step_bag n m s l s' :
  shape n m s → pool_step s l = Next s' → bag s' = bag s ∨ bag_step m (bag s) (bag s').
Proof.
  intros Hsh Hs. pose proof Hsh as [[Hcn Hcm] Hcp Hq Hw Hsub Hpc].
  destruct l as [c t|c|c r|i now|i|now|cfg|fn|cb|cb|]; pool_cases Hs.
  all: try (by left).
  all: try (left; by rw /bag /= hands_SignalAll).
  all: try (match goal with H : workers_ _ !! _ = Some ?pc |- _ =>
         left; rw /bag /=; by rw (hands_same _ pc) end).
  - right. eapply bag_push; [done|].
    by pose proof (proj1 (list.Forall_lookup _ _) Hsub c _ ltac:(eassumption)) as [_ ?].
  - right. rw /bag /= list_fmap_insert. eapply bag_pop; [done|].
    by rw list_lookup_fmap_Some; eexists; split; [|eassumption].
  - right. rw /bag /= list_fmap_insert.
    match goal with E : list.last _ = Some _ |- _ => apply last_Some in E as [q ->] end.
    rw removelast_last. eapply bag_steal; [|done|].
    + by pose proof (proj1 (list.Forall_lookup _ _) Hpc i _ ltac:(eassumption)) as [? _].
    + by rw list_lookup_fmap_Some; eexists; split; [|eassumption].
  - right. rw /bag /= list_fmap_insert. eapply bag_finish.
    by rw list_lookup_fmap_Some; eexists; split; [|eassumption].
Qed.

(** ** The abstract pool's invariants *)
Definition conserved (b : Bag (T := T) (W := W)) : Prop :=
  (bag_pushed b).*2 ≡ₚ (bag_taken b).*2 ++ concat (bag_queues b)
  ∧ (bag_taken b).*2 ≡ₚ bag_finished b ++ concat (bag_hands b).

Lemma bag_step_conserved m b b' : bag_step (T := T) (W := W) m b b' → conserved b → conserved b'.
Proof.
  rw /conserved. intros Hst [HP HK].
  destruct Hst as [Q H P K F idx t q Hq _|Q H P K F i t q Hq Hh
                  |Q H P K F i vic t q _ Hq Hh|Q H P K F i t Hh]; cbn in *.
  - split; [|done].
    rw fmap_app /= HP (concat_insert_add _ _ q []) ?app_nil_r // -app_assoc.
    by rw (Permutation_app_comm _ [t]).
  - rw !fmap_app /=. split.
    + by rw HP (concat_insert_remove _ _ [] q t Hq) -app_assoc.
    + rw HK (concat_insert_add _ _ [] [] t Hh) -app_assoc. by rw (Permutation_app_comm _ [t]).
  - rw !fmap_app /=. split.
    + by rw HP (concat_insert_remove _ _ q [] t Hq) app_nil_r -app_assoc.
    + rw HK (concat_insert_add _ _ [] [] t Hh) -app_assoc. by rw (Permutation_app_comm _ [t]).
  - split; [done|]. by rw HK (concat_insert_remove _ _ [] [] t Hh) -app_assoc.
Qed.

(** In FIFO mode everything goes through the first queue and the first worker. *)
Record in_line (b : Bag (T := T) (W := W)) : Prop := {
  line_pushed : (bag_pushed b).*2 = (bag_taken b).*2 ++ default [] (bag_queues b !! 0);
  line_queues : ∀ k q, bag_queues b !! S k = Some q → q = [];
  line_taken : (bag_taken b).*2 = bag_finished b ++ default [] (bag_hands b !! 0);
  line_hands : ∀ k h, bag_hands b !! S k = Some h → h = [];
  line_worker : Forall (λ k, k.1 = 0) (bag_taken b)
}.

Lemma bag_step_in_line b b' : bag_step (T := T) (W := W) FIFO b b' → in_line b → in_line b'.
Proof.
  intros Hst [HP HQ HK HH HF].
  destruct Hst as [Q H P K F idx t q Hq Hidx|Q H P K F i t q Hq Hh
                  |Q H P K F i vic t q ? Hq Hh|Q H P K F i t Hh]; cbn in *; [| |done|].
  - rw (Hidx eq_refl) in Hq *. rw Hq /= in HP. split; cbn; [|..|done|done|done].
    + rw fmap_app HP list_lookup_insert_eq /=; [by eapply lookup_lt_Some|by rw app_assoc].
    + intros k q'. rw list_lookup_insert_ne //. apply HQ.
  - destruct i as [|i]; [|by apply HQ in Hq].
    rw Hq /= in HP. rw Hh /= app_nil_r in HK. split; cbn.
    + rw HP fmap_app list_lookup_insert_eq /=; [by eapply lookup_lt_Some|by rw -app_assoc].
    + intros k q'. rw list_lookup_insert_ne //. apply HQ.
    + rw fmap_app HK list_lookup_insert_eq //=. by eapply lookup_lt_Some.
    + intros k h. rw list_lookup_insert_ne //. apply HH.
    + apply list.Forall_app. by split; [|apply list.Forall_cons].
  - destruct i as [|i]; [|by apply HH in Hh].
    rw Hh /= in HK. split; cbn; [done..| | |done].
    + rw HK list_lookup_insert_eq /=; [by eapply lookup_lt_Some|by rw app_nil_r].
    + intros k h. rw list_lookup_insert_ne //. apply HH.
Qed.

(** ** Runs *)
Lemma pool_run_invariant (I : Pool (T := T) (W := W) → Prop) (ok : label → Prop) :
  (∀ s l s', ok l → I s → pool_step s l = Next s' → I s') →
  ∀ ls s s', Forall ok ls → I s → pool_run s ls = Next s' → I s'.
Proof.
  intros Hstep ls. induction ls as [|l ls IH]; intros s s' Hok HI Hrun; simplify_eq/=; [done|].
  apply list.Forall_cons in Hok as [Hl Hok].
  apply and_then_Next in Hrun as (s1 & Hs & Hrun). by eapply IH; [|eapply Hstep|].
Qed.

Lemma pool_run_bag n m (I : Bag → Prop) ls s s' :
  0 < n → (∀ b b', bag_step m b b' → I b → I b') →
  Forall (label_ok n m) ls → shape n m s → I (bag s) → pool_run s ls = Next s' →
  shape n m s' ∧ I (bag s').
Proof.
  intros Hn Hstep Hok Hsh HI Hrun.
  refine (pool_run_invariant (λ s, shape n m s ∧ I (bag s)) _ _ _ _ _ Hok (conj Hsh HI) Hrun).
  intros s1 l s2 Hl [Hsh1 HI1] Hs. split; [by eapply pool_step_shape|].
  destruct (pool_step_bag n m s1 l s2 Hsh1 Hs) as [->|Hb]; [done|by eapply Hstep].
Qed.

Lemma bag_new hw cfg now k w s :
  TaskMultiProcessor (T := T) (W := W) hw cfg now k w = Next s →
  conserved (bag s) ∧ in_line (bag s).
Proof.
  intros [bd ->]%constructed.
  rw /bag /= fmap_replicate /=. split.
  - by rw /conserved /= !concat_nils.
  - split; cbn; [by destruct (num_threads cfg)| |by destruct (num_threads cfg)| |done].
    + by intros k0 q [-> _]%lookup_replicate.
    + by intros k0 h [-> _]%lookup_replicate.
Qed.
End BagRefinement.
