(* ===== verification/TaskPoolCounters.v ===== *)
(** * The pool's counters, locks and sleepers

    What [tasks_in_queue_] counts, who holds [mutex_], why a sleeping worker is
    not forgotten, and what shutting down leaves undone. *)
From S2P Require Import Prelude TaskPool TaskPoolSpec.

Section Counters.
Context {T W : Type}.
Abbreviation pool := (Pool (T := T) (W := W)).
Abbreviation worker_pc := (wpc (T := T) (W := W)).
Abbreviation submitter_pc := (spc (T := T) (W := W)).

(** A task taken from a queue and not yet subtracted from the counter. *)
Definition popped (pc : worker_pc) : nat := match pc with WSub _ => 1 | _ => 0 end.
(** A task pushed and not yet added to the counter. *)
Definition counting (pc : submitter_pc) : nat := match pc with SCount => 1 | _ => 0 end.

Definition in_queues (s : pool) : nat := sum_list_with length (queues_ s).
Definition in_pop (s : pool) : nat := sum_list_with popped (workers_ s).
Definition in_count (s : pool) : nat := sum_list_with counting (submitters s).

(** The value [tasks_in_queue_] stands for, before wrapping. *)
Definition tasks_counted (s : pool) : Z :=
  (Z.of_nat (in_queues s) + Z.of_nat (in_pop s) - Z.of_nat (in_count s))%Z.

Definition counters_ok (s : pool) : Prop := tasks_in_queue_ s = u64 (tasks_counted s).

Lemma popped_wake (pc : worker_pc) : popped (wake pc) = popped pc.
Proof. by destruct pc. Qed.

Lemma sum_wake (f : worker_pc → nat) (ws : list worker_pc) :
  (∀ pc, f (wake pc) = f pc) → sum_list_with f (wake <$> ws) = sum_list_with f ws.
Proof. intros Hf. induction ws as [|pc ws IH]; [done|]. by rw /= Hf IH. Qed.

Lemma worker_sum (f : worker_pc → nat) i pc pc' (ws : list worker_pc) :
  ws !! i = Some pc →
  Z.of_nat (sum_list_with f (<[i := pc']> ws))
  = (Z.of_nat (sum_list_with f ws) - Z.of_nat (f pc) + Z.of_nat (f pc'))%Z.
Proof. intros Hi. pose proof (sum_list_with_insert f ws i pc pc' Hi). lia. Qed.

Lemma submitter_sum (f : submitter_pc → nat) c pc pc' (ss : list submitter_pc) :
  ss !! c = Some pc →
  Z.of_nat (sum_list_with f (<[c := pc']> ss))
  = (Z.of_nat (sum_list_with f ss) - Z.of_nat (f pc) + Z.of_nat (f pc'))%Z.
Proof. intros Hi. pose proof (sum_list_with_insert f ss c pc pc' Hi). lia. Qed.

Lemma queue_sum k q q' (Q : list (list (TaskItem (T := T) (W := W)))) :
  Q !! k = Some q →
  Z.of_nat (sum_list_with length (<[k := q']> Q))
  = (Z.of_nat (sum_list_with length Q) - Z.of_nat (length q) + Z.of_nat (length q'))%Z.
Proof. intros Hi. pose proof (sum_list_with_insert length Q k q q' Hi). lia. Qed.
End Counters.

(** [pool_sums]: the sums over the threads and queues of the new state, in terms
    of the old one's. *)
Ltac pool_sums :=
  repeat match goal with
  | H : workers_ ?s !! ?i = Some ?pc |- context [sum_list_with ?f (<[?i := ?pc']> (workers_ ?s))] =>
      rw (worker_sum f i pc pc' (workers_ s) H)
  | H : submitters ?s !! ?c = Some ?pc |- context [sum_list_with ?f (<[?c := ?pc']> (submitters ?s))] =>
      rw (submitter_sum f c pc pc' (submitters s) H)
  | H : queues_ ?s !! ?k = Some ?q |- context [sum_list_with length (<[?k := ?q']> (queues_ ?s))] =>
      rw (queue_sum k q q' (queues_ s) H)
  end.

Section CounterSteps.
Context {T W : Type}.
Implicit Types (s : Pool (T := T) (W := W)).

Lemma pool_step_counters s l s' :
  pool_step s l = Next s' → counters_ok s → counters_ok s'.
Proof.
  rw /counters_ok /tasks_counted /in_queues /in_pop /in_count. intros Hs Hc.
  destruct l as [c t|c|c r|i now|i|now|cfg|fn|cb|cb|]; pool_cases Hs; cbn; pool_sums;
    rw ?(sum_wake popped) //; try exact popped_wake; cbn;
    try (rw Hc; f_equal; lia).
  - rw Hc length_app /=. f_equal. lia.
  - rw Hc /add64 u64_add_idemp_l. f_equal. lia.
  - match goal with E : list.last _ = Some _ |- _ => apply last_Some in E as [q ->] end.
    rw Hc removelast_last length_app /=. f_equal. lia.
  - rw Hc /sub64 u64_sub_idemp_l. f_equal. lia.
Qed.

(** ** The metrics *)

(** A task taken and not yet counted as processed. *)
Definition uncounted (pc : wpc (T := T) (W := W)) : nat :=
  match pc with WSub _ | WProcessed _ => 1 | _ => 0 end.

(** What [processed_count_] and [high_water_mark_] say. *)
Record metrics_ok s : Prop := {
  metrics_processed : processed_count_ s
    = u64 (Z.of_nat (length (taken s)) - Z.of_nat (sum_list_with uncounted (workers_ s)));
  metrics_mark : Forall (λ q, (Z.of_nat (length q) ≤ high_water_mark_ s)%Z) (queues_ s);
  metrics_pushed : pushed s ≠ [] → (1 ≤ high_water_mark_ s)%Z
}.

Lemma uncounted_wake (pc : wpc (T := T) (W := W)) : uncounted (wake pc) = uncounted pc.
Proof. by destruct pc. Qed.

Lemma pool_step_metrics s l s' : pool_step s l = Next s' → metrics_ok s → metrics_ok s'.
Proof.
  intros Hs [Hp Hm Hpu].
  destruct l as [c t|c|c r|i now|i|now|cfg|fn|cb|cb|]; pool_cases Hs; split; cbn; try done;
    pool_sums; rw ?(sum_wake uncounted) //; try exact uncounted_wake; cbn;
    try (rw Hp; f_equal; lia).
  - apply Forall_insert; [|lia]. eapply Forall_impl; [|exact Hm]. cbn. lia.
  - intros _. rw length_app /=. lia.
  - rw Hp length_app /=. f_equal. lia.
  - apply Forall_insert; [done|].
    pose proof (proj1 (list.Forall_lookup _ _) Hm _ _ ltac:(eassumption)) as Hi. cbn in Hi. lia.
  - rw Hp length_app /=. f_equal. lia.
  - match goal with E : list.last _ = Some _ |- _ => apply last_Some in E as [q ->] end.
    rw removelast_last. apply Forall_insert; [done|].
    pose proof (proj1 (list.Forall_lookup _ _) Hm _ _ ltac:(eassumption)) as Hi. cbn in Hi.
    rw length_app in Hi. lia.
  - rw Hp /add64 u64_add_idemp_l. f_equal. lia.
Qed.

(** ** [mutex_] and the sleepers *)

(** A worker inside the critical section of [mutex_]. *)
Definition holding (pc : wpc (T := T) (W := W)) : nat :=
  match pc with WCheckRunning | WCheckTasks | WWait => 1 | _ => 0 end.
(** A worker that waits, or is about to. *)
Definition dozing (pc : wpc (T := T) (W := W)) : nat :=
  match pc with WWait | WAsleep => 1 | _ => 0 end.
(** A submission that will still signal. *)
Definition signalling (pc : spc (T := T) (W := W)) : nat :=
  match pc with SCount | SSignal => 1 | _ => 0 end.

Definition mutex_ok s : Prop :=
  sum_list_with holding (workers_ s) = (if mutex_ s is Some _ then 1 else 0).

(** A worker sleeps only while there is nothing to do, a signal is coming, or
    the pool is shutting down. *)
Definition sleepers_ok s : Prop :=
  running_ s = true →
  sum_list_with dozing (workers_ s) = 0 ∨ tasks_in_queue_ s = 0%Z
  ∨ 1 ≤ sum_list_with signalling (submitters s).

Lemma holding_wake (pc : wpc (T := T) (W := W)) : holding (wake pc) = holding pc.
Proof. by destruct pc. Qed.

Lemma pool_step_mutex s l s' : pool_step s l = Next s' → mutex_ok s → mutex_ok s'.
Proof.
  rw /mutex_ok. intros Hs Hm.
  destruct l as [c t|c|c r|i now|i|now|cfg|fn|cb|cb|]; pool_cases Hs;
    rw ?(sum_wake holding) //; try exact holding_wake;
    try match goal with H : workers_ s !! ?i = Some ?pc |- context [<[?i := ?pc']> _] =>
          pose proof (sum_list_with_insert holding _ _ _ pc' H);
          pose proof (sum_list_with_elem holding _ _ _ H) end;
    cbn in *; try lia. all: try (case_match; try lia).
Qed.

Lemma length_bag_queues s : conserved (bag s) →
  in_queues s + in_pop s ≤ length (pushed s).
Proof.
  intros [HP HK]. apply Permutation_length in HP, HK.
  rw !length_app !length_fmap !length_concat_sum /= in HP HK. rw /in_queues /in_pop.
  assert (sum_list_with popped (workers_ s) ≤ sum_list_with length (hand <$> workers_ s)).
  { clear. induction (workers_ s) as [|pc ws IH]; [done|]. rw /=.
    apply Nat.add_le_mono; [destruct pc; cbn; lia|exact IH]. }
  lia.
Qed.

Lemma dozing_wake (ws : list (wpc (T := T) (W := W))) :
  sum_list_with dozing (wake <$> ws) ≤ sum_list_with holding ws.
Proof.
  induction ws as [|pc ws IH]; [done|]. rw /=.
  apply Nat.add_le_mono; [destruct pc; cbn; lia|exact IH].
Qed.

Lemma dozing_wake_le (ws : list (wpc (T := T) (W := W))) :
  sum_list_with dozing (wake <$> ws) ≤ sum_list_with dozing ws.
Proof.
  induction ws as [|pc ws IH]; [done|].
  apply Nat.add_le_mono; [destruct pc; cbn; lia|exact IH].
Qed.

Lemma counting_signalling (ss : list (spc (T := T) (W := W))) :
  sum_list_with counting ss ≤ sum_list_with signalling ss.
Proof.
  induction ss as [|pc ss IH]; [done|].
  apply Nat.add_le_mono; [destruct pc; cbn; lia|exact IH].
Qed.

Lemma pool_step_sleepers s l s' :
  pool_step s l = Next s' → mutex_ok s → counters_ok s → conserved (bag s) →
  (Z.of_nat (length (pushed s)) < 2 ^ 64)%Z → sleepers_ok s → sleepers_ok s'.
Proof.
  rw /sleepers_ok. intros Hs Hm Hc Hcons Hbound Hsl.
  destruct l as [c t|c|c r|i now|i|now|cfg|fn|cb|cb|]; pool_cases Hs; try done;
    intros Hrun; cbn in Hrun; specialize (Hsl ltac:(congruence));
    try match goal with H : workers_ s !! ?i = Some ?pc |- context [<[?i := ?pc']> _] =>
          pose proof (sum_list_with_insert dozing _ _ _ pc' H);
          pose proof (sum_list_with_elem dozing _ _ _ H) end;
    try match goal with H : submitters s !! ?i = Some ?pc |- context [<[?i := ?pc']> _] =>
          pose proof (sum_list_with_insert signalling _ _ _ pc' H);
          pose proof (sum_list_with_elem signalling _ _ _ H) end;
    cbn in *; try lia.
  - left. rw /mutex_ok H1 in Hm. pose proof (dozing_wake (workers_ s)). lia.
  - pose proof (counting_signalling (submitters s)). pose proof (length_bag_queues s Hcons).
    assert (1 ≤ in_pop s) by exact (sum_list_with_elem popped _ _ _ H0).
    destruct (decide (sum_list_with signalling (submitters s) = 0)) as [H0s|]; [|lia].
    rw /counters_ok /tasks_counted in Hc. rw u64_small in Hc; [rw /is_u64 /in_count; lia|].
    rw /in_count in Hc. lia.
  - pose proof (dozing_wake_le (workers_ s)). lia.
Qed.

(** ** Shutting down *)

(** A worker that may still take a task once [running_] is false. *)
Definition may_take (pc : wpc (T := T) (W := W)) : nat :=
  match pc with
  | WLock | WCheckRunning | WCheckTasks | WWait | WAsleep | WWoken | WOwn | WSizes _ | WSteal _ => 1
  | _ => 0
  end.

Lemma may_take_wake (pc : wpc (T := T) (W := W)) : may_take (wake pc) = may_take pc.
Proof. by destruct pc. Qed.

Lemma may_take_workers s : sum_list_with may_take (workers_ s) ≤ length (workers_ s).
Proof.
  induction (workers_ s) as [|pc ws IH]; [done|]. rw /=.
  apply (Nat.add_le_mono _ 1); [destruct pc; cbn; lia|exact IH].
Qed.

Lemma pool_step_stopping s l s' :
  pool_step s l = Next s' → running_ s = false →
  running_ s' = false
  ∧ length (taken s') + sum_list_with may_take (workers_ s')
    ≤ length (taken s) + sum_list_with may_take (workers_ s).
Proof.
  intros Hs Hrun.
  destruct l as [c t|c|c r|i now|i|now|cfg|fn|cb|cb|]; pool_cases Hs; try done; (split; [done|]);
    rw ?(sum_wake may_take) //; try exact may_take_wake;
    try match goal with H : workers_ s !! ?i = Some ?pc |- context [<[?i := ?pc']> _] =>
          pose proof (sum_list_with_insert may_take _ _ _ pc' H) end;
    rw ?length_app; cbn in *; lia.
Qed.

(** ** The circuit breaker *)

(** A submission that has passed the breaker and not pushed yet. *)
Definition passed (pc : spc (T := T) (W := W)) : nat :=
  match pc with SBackoff _ | SIndex _ | SPush _ _ => 1 | _ => 0 end.

Definition elsewhere (pc : spc (T := T) (W := W)) : nat := 1 - passed pc - counting pc.

Lemma submitters_partition (ss : list (spc (T := T) (W := W))) :
  sum_list_with passed ss + sum_list_with counting ss + sum_list_with elsewhere ss = length ss.
Proof.
  induction ss as [|pc ss IH]; [done|]. rw /=.
  assert (passed pc + counting pc + elsewhere pc = 1) by (destruct pc; done).
  change (foldr (plus ∘ passed) 0 ss) with (sum_list_with passed ss).
  lia.
Qed.

Definition queue_bounded (max : Z) (k : nat) s : Prop :=
  length (submitters s) = k
  ∧ (Z.of_nat (in_queues s + in_pop s + sum_list_with passed (submitters s)) < max + Z.of_nat k)%Z.

Definition breaker_cfg (max : Z) (cfg : TaskProcessorConfig) : Prop :=
  enable_circuit_breaker cfg = true ∧ max_queue_size cfg = max ∧ (0 < max ≤ 2 ^ 63)%Z.

Definition no_reconfig (l : label (T := T) (W := W)) : Prop :=
  match l with LUpdateConfig _ => False | _ => True end.

Lemma pool_step_cfg s l s' : no_reconfig l → pool_step s l = Next s' → cfg_ s' = cfg_ s.
Proof. intros Hl Hs. destruct l as [c t|c|c r|i now|i|now|cfg|fn|cb|cb|]; by pool_cases Hs. Qed.

(** A submission that passes the breaker has seen fewer than [max] tasks. *)
Lemma breaker_passed max k s :
  breaker_cfg max (cfg_ s) → counters_ok s → (Z.of_nat k ≤ 2 ^ 63)%Z → queue_bounded max k s →
  breaker_open (cfg_ s) (tasks_in_queue_ s) = false →
  (Z.of_nat (in_queues s + in_pop s) - Z.of_nat (in_count s) < max)%Z.
Proof.
  intros (Hen & Hmax & Hpos) Hc Hk [Hlen Hb] Hopen.
  pose proof (submitters_partition (submitters s)) as Hpart.
  rw /breaker_open Hen Hmax /= in Hopen.
  assert (H0 : (max =? 0)%Z = false) by (apply Z.eqb_neq; lia).
  rw H0 /= in Hopen. apply Z.leb_gt in Hopen. rw Hc /u64 /tasks_counted in Hopen.
  rw /in_count in Hopen *.
  destruct (decide (Z.of_nat (in_queues s) + Z.of_nat (in_pop s)
                    < Z.of_nat (sum_list_with counting (submitters s)))%Z); [lia|].
  rw Z.mod_small in Hopen; lia.
Qed.

Lemma pool_step_bounded max k s l s' :
  no_reconfig l → breaker_cfg max (cfg_ s) → (Z.of_nat k ≤ 2 ^ 63)%Z →
  pool_step s l = Next s' → counters_ok s → queue_bounded max k s → queue_bounded max k s'.
Proof.
  intros Hl Hcfg Hk Hs Hc Hq. pose proof (breaker_passed max k s Hcfg Hc Hk Hq) as Hpass.
  destruct Hq as [Hlen Hb]. pose proof (submitters_partition (submitters s)) as Hpart.
  rw /queue_bounded /in_queues /in_pop /in_count in Hb Hpass *.
  destruct l as [c t|c|c r|i now|i|now|cfg|fn|cb|cb|]; pool_cases Hs; try done;
    rw ?length_insert ?(sum_wake popped) //; try exact popped_wake; (split; [done|]);
    rw !Nat2Z.inj_add; pool_sums; cbn; try lia.
  - pose proof (sum_list_with_elem elsewhere _ _ _ H0) as He. cbn in He.
    specialize (Hpass eq_refl). lia.
  - pose proof (sum_list_with_elem elsewhere _ _ _ H0) as He. cbn in He.
    specialize (Hpass eq_refl). lia.
  - rw length_app /=. lia.
  - match goal with E : list.last _ = Some _ |- _ => apply last_Some in E as [q ->] end.
    rw removelast_last length_app /=. lia.
Qed.
End CounterSteps.
