(* ===== verification/TaskPoolTheorems.v ===== *)
(** * What the worker pool guarantees, and where it does not

    Theorems about every interleaving of the pool's threads, from construction:
    no task is lost or run twice, FIFO order, no forgotten sleeper, bounds; and
    the schedules that show what shutting down and the counter do not give. *)
From S2P Require Import Prelude TaskPool TaskPoolSpec TaskPoolCounters.

Section Invariants.
Context {T W : Type}.
Implicit Types (s : Pool (T := T) (W := W)) (ls : list (label (T := T) (W := W))).

Record pool_ok (n : nat) (m : ScheduleMode) s : Prop := {
  ok_shape : shape n m s;
  ok_conserved : conserved (bag s);
  ok_counters : counters_ok s;
  ok_mutex : mutex_ok s;
  ok_sleepers : (Z.of_nat (length (pushed s)) < 2 ^ 64)%Z → sleepers_ok s
}.

Lemma pushed_grows m s s' :
  bag s' = bag s ∨ bag_step m (bag s) (bag s') → length (pushed s) ≤ length (pushed s').
Proof.
  change (pushed s') with (bag_pushed (bag s')). change (pushed s) with (bag_pushed (bag s)).
  intros [->|Hb]; [done|]. destruct Hb; rw /= ?length_app; lia.
Qed.

Lemma pool_step_ok n m s l s' :
  0 < n → label_ok n m l → pool_step s l = Next s' → pool_ok n m s → pool_ok n m s'.
Proof.
  intros Hn Hl Hs [Hsh Hcons Hc Hm Hsl].
  pose proof (pool_step_bag n m s l s' Hsh Hs) as Hb. pose proof (pushed_grows m s s' Hb).
  split.
  - by eapply pool_step_shape.
  - destruct Hb as [->|Hb]; [done|by eapply bag_step_conserved].
  - by eapply pool_step_counters.
  - by eapply pool_step_mutex.
  - intros Hbound. eapply pool_step_sleepers; [done..|lia|apply Hsl; lia].
Qed.

Lemma sum_replicate_zero {A} (f : A → nat) n x : f x = 0 → sum_list_with f (replicate n x) = 0.
Proof. intros Hf. induction n as [|n IH]; [done|]. by rw /= Hf IH. Qed.

Lemma pool_ok_new hw cfg now k w s :
  setup_ok cfg → TaskMultiProcessor hw cfg now k w = Next s →
  pool_ok (num_threads cfg) (mode cfg) s.
Proof.
  intros Hp Hnew. pose proof (shape_new hw cfg now k w s Hp Hnew).
  pose proof (proj1 (bag_new hw cfg now k w s Hnew)).
  apply constructed in Hnew as [b ->]. split; [done|done|..].
  - rw /counters_ok /tasks_counted /in_queues /in_pop /in_count /=.
    by rw !sum_replicate_zero.
  - rw /mutex_ok /=. by rw sum_replicate_zero.
  - intros _ _. left. by rw /= sum_replicate_zero.
Qed.

Lemma pool_run_ok n m ls s s' :
  0 < n → Forall (label_ok n m) ls → pool_run s ls = Next s' → pool_ok n m s → pool_ok n m s'.
Proof.
  intros Hn Hok Hrun H0.
  refine (pool_run_invariant (pool_ok n m) (label_ok n m) _ _ _ _ Hok H0 Hrun).
  intros. by eapply pool_step_ok.
Qed.

(** A running pool in which nothing moves has nothing left to do. *)
Lemma asleep_drained n m s :
  0 < n → pool_ok n m s → running_ s = true → (Z.of_nat (length (pushed s)) < 2 ^ 64)%Z →
  Forall (eq SIdle) (submitters s) → Forall (eq WAsleep) (workers_ s) →
  concat (queues_ s) = [] ∧ finished s ≡ₚ (pushed s).*2.
Proof.
  intros Hn [Hsh Hcons Hc _ Hsl] Hr Hbound Hidle Hasleep. specialize (Hsl Hbound Hr).
  pose proof (length_bag_queues s Hcons) as Hlen.
  assert (Hw : workers_ s = replicate n WAsleep).
  { rw -(shape_workers _ _ _ Hsh). symmetry; by apply replicate_as_Forall_2. }
  assert (Hs : submitters s = replicate (length (submitters s)) SIdle).
  { symmetry; by apply replicate_as_Forall_2. }
  rw Hs sum_replicate_zero // Hw in Hsl.
  assert (Hd : sum_list_with dozing (replicate n (WAsleep (T := T) (W := W))) ≠ 0).
  { by destruct n; [lia|]. }
  destruct Hsl as [?|[H0|?]]; [done| |lia].
  rw /counters_ok /tasks_counted /in_pop /in_count Hs Hw !sum_replicate_zero // H0 in Hc.
  rw u64_small in Hc; [rw /is_u64; lia|].
  assert (Hq : concat (queues_ s) = []).
  { apply nil_length_inv. rw length_concat_sum. change (in_queues s = 0). lia. }
  split; [done|]. destruct Hcons as [HP HK]. rw HP /= HK /= Hw Hq app_nil_r fmap_replicate /=.
  clear. induction n as [|n IH]; [by rw /= app_nil_r|done].
Qed.

Lemma pool_ok_set_user n m s w : pool_ok n m s → pool_ok n m (set_user w s).
Proof. intros [[] ? ? ? ?]. by split; [split|..]. Qed.

Lemma pool_run_app s ls1 ls2 :
  pool_run s (ls1 ++ ls2) = and_then (pool_run s ls1) (λ s', pool_run s' ls2).
Proof.
  induction ls1 as [|l ls1 IH] in s |- *; [done|]. rw /=.
  destruct (pool_step s l) as [s1| |u]; [apply IH|done..].
Qed.
End Invariants.

Section Guarantees.
Context {T W : Type}.
Implicit Types (s : Pool (T := T) (W := W)) (ls : list (label (T := T) (W := W))).

(** A constructed pool, and the runs from it that keep the number of threads and
    the mode. *)
Context (hw : nat) (cfg : TaskProcessorConfig) (now : Z) (k : nat) (w : W) (s0 : Pool (T := T) (W := W)).
Context (Hsetup : setup_ok cfg) (Hnew : TaskMultiProcessor hw cfg now k w = Next s0).

Lemma pool_reaches_ok ls s :
  Forall (label_ok (num_threads cfg) (mode cfg)) ls → pool_run s0 ls = Next s →
  pool_ok (num_threads cfg) (mode cfg) s.
Proof.
  intros Hok Hrun. eapply pool_run_ok; [by apply some_threads|exact Hok|exact Hrun|].
  by eapply pool_ok_new.
Qed.

(** C30: the pool implements a bag of queues: in every interleaving, with any
    number of workers and of submitting threads, what the pool does to its
    queues and to the tasks in its workers' hands is a sequence of the four
    abstract operations (push, pop, steal when stealing, finish). *)
Theorem pool_refines_bag ls s :
  Forall (label_ok (num_threads cfg) (mode cfg)) ls →
  pool_run s0 ls = Next s →
  rtc (bag_step (mode cfg)) (bag s0) (bag s).
Proof.
  intros Hok Hrun.
  refine (proj2 (pool_run_bag (num_threads cfg) (mode cfg)
    (λ b, rtc (bag_step (mode cfg)) (bag s0) b)
    _ _ _ (some_threads _ Hsetup) _ Hok (shape_new _ _ _ _ _ _ Hsetup Hnew) (rtc_refl _ _) Hrun)).
  intros b b' Hb Hrtc. by eapply rtc_r.
Qed.

(** No task is lost and none is run twice: in every interleaving the tasks
    pushed are, up to order, the finished ones, the ones in the workers' hands
    and the ones still queued. *)
Theorem pool_conserves_tasks ls s :
  Forall (label_ok (num_threads cfg) (mode cfg)) ls →
  pool_run s0 ls = Next s →
  (pushed s).*2 ≡ₚ finished s ++ concat (hand <$> workers_ s) ++ concat (queues_ s).
Proof.
  intros Hok Hrun. destruct (pool_reaches_ok ls s Hok Hrun) as [_ [HP HK] _ _ _].
  by rw HP /= HK /= -app_assoc.
Qed.

(** C17: in FIFO mode the tasks are run in the order they were pushed, one at a
    time: what was pushed is what is finished, then the task in hand, then the
    queue; and however many threads the pool has, only the first one ever takes
    a task. *)
Theorem pool_fifo_order ls s :
  mode cfg = FIFO →
  Forall (label_ok (num_threads cfg) FIFO) ls →
  pool_run s0 ls = Next s →
  (pushed s).*2 = finished s ++ default [] (hand <$> workers_ s !! 0)
                    ++ default [] (queues_ s !! 0)
  ∧ (∀ i pc, workers_ s !! S i = Some pc → hand pc = [])
  ∧ Forall (λ k, k.1 = 0) (taken s).
Proof.
  intros Hm Hok Hrun. pose proof (shape_new _ _ _ _ _ _ Hsetup Hnew) as Hsh. rw Hm in Hsh.
  destruct (pool_run_bag _ FIFO in_line _ _ _ (some_threads _ Hsetup) bag_step_in_line Hok Hsh
              (proj2 (bag_new _ _ _ _ _ _ Hnew)) Hrun) as [_ [HP _ HK HH HF]].
  cbn in *. split_and!; [|intros i pc Hi|done].
  - by rw HP HK list_lookup_fmap -app_assoc.
  - apply (HH i). by rw list_lookup_fmap Hi.
Qed.

(** What [tasks_in_queue_] counts: the tasks in the queues plus the ones
    taken but not yet subtracted, minus the ones pushed but not yet added,
    modulo 2^64. *)
Theorem pool_counter_value ls s :
  Forall (label_ok (num_threads cfg) (mode cfg)) ls →
  pool_run s0 ls = Next s →
  GetQueueSize s = u64 (Z.of_nat (in_queues s) + Z.of_nat (in_pop s) - Z.of_nat (in_count s)).
Proof.
  intros Hok Hrun. exact (ok_counters _ _ _ (pool_reaches_ok ls s Hok Hrun)).
Qed.

(** C2: no task is stranded: when the pool is running, no submission is in
    progress and every worker is asleep, every queue is empty and every task
    that was pushed has been processed. *)
Theorem pool_no_task_stranded ls s :
  Forall (label_ok (num_threads cfg) (mode cfg)) ls →
  pool_run s0 ls = Next s →
  running_ s = true → (Z.of_nat (length (pushed s)) < 2 ^ 64)%Z →
  Forall (eq SIdle) (submitters s) → Forall (eq WAsleep) (workers_ s) →
  concat (queues_ s) = [] ∧ finished s ≡ₚ (pushed s).*2.
Proof.
  intros Hok Hrun. apply (asleep_drained (num_threads cfg) (mode cfg)); [by apply some_threads|].
  exact (pool_reaches_ok ls s Hok Hrun).
Qed.
End Guarantees.

Section Behaviours.
Context {T W : Type}.
Implicit Types (s : Pool (T := T) (W := W)) (ls : list (label (T := T) (W := W)))
  (t : TaskItem (T := T) (W := W)) (cfg : TaskProcessorConfig).

(** A backoff whose arithmetic is defined whatever is drawn. *)
Definition backoff_ok (c : TaskProcessorConfig) : Prop :=
  (0 ≤ jitter c)%Z ∧ (- 2 ^ 63 ≤ backoff_duration c - jitter c)%Z
  ∧ (backoff_duration c + jitter c < 2 ^ 63)%Z.

Lemma backoff_defined c : backoff_ok c →
  int64 (jitter c) = true ∧ (jitter c <? 0)%Z = false
  ∧ ∀ d, ((- jitter c <=? d) && (d <=? jitter c))%Z = true → int64 (backoff_duration c + d) = true.
Proof.
  intros (H0 & Hlo & Hhi). rw /int64. split_and!.
  - apply andb_true_iff. rw Z.leb_le Z.ltb_lt. lia.
  - apply Z.ltb_ge. lia.
  - intros d. rw !andb_true_iff !Z.leb_le Z.ltb_lt. lia.
Qed.

Definition backoff_label (l : label (T := T) (W := W)) : Prop :=
  match l with LUpdateConfig c => backoff_ok c | _ => True end.

Lemma pool_step_backoff s l s' :
  backoff_label l → backoff_ok (cfg_ s) → pool_step s l = Next s' → backoff_ok (cfg_ s').
Proof.
  intros Hl Hb Hs. destruct l as [c t|c|c r|i now|i|now|cfg|fn|cb|cb|]; by pool_cases Hs.
Qed.

(** The next step of [s] under [l] runs code of the user's that is undefined. *)
Definition user_crash s (l : label (T := T) (W := W)) (u : ub) : Prop :=
  ∃ m : M W (), m (user s) = Undef u ∧
    match l with
    | LWorker i _ => ∃ t g rest, m = g (payload t)
        ∧ (workers_ s !! i = Some (WGlobal t (g :: rest))
           ∨ workers_ s !! i = Some (WWrap t (g :: rest)))
    | LDestructor _ => final_callback_ s = Some m
    | _ => False
    end.

Lemma and_then_Crash (r : result (T := T) (W := W)) k u :
  and_then r k = Crash u → r = Crash u ∨ ∃ s, r = Next s ∧ k s = Crash u.
Proof. destruct r; naive_solver. Qed.

Lemma call_swallowed_Crash (m : M W ()) s u :
  call_swallowed m s = Crash u → m (user s) = Undef u.
Proof. rw /call_swallowed. destruct (m (user s)); naive_solver. Qed.

Lemma pool_step_crash n m s l u :
  0 < n → shape n m s → backoff_ok (cfg_ s) → pool_step s l = Crash u →
  (gone s = true ∧ u = use_after_free) ∨ user_crash s l u.
Proof.
  intros Hn [[Hcn Hcm] Hcp Hq Hw Hsub Hpc] Hback Hs.
  assert (Hqi : ∀ i, i < n → queues_ s !! i ≠ None).
  { intros i Hi Hge%lookup_ge_None. lia. }
  assert (Hwi : ∀ i pc, workers_ s !! i = Some pc → i < n).
  { intros i pc Hi. rw -Hw. by eapply lookup_lt_Some. }
  rw /pool_step in Hs. destruct (gone s) eqn:Hg; [left; naive_solver|right].
  destruct l as [c t|c|c r|i now|i|now|cfg|fn|cb|cb|];
    rw /Submit_call /SubmitImpl_step /ProcessLoop_step /spurious_wakeup
     /destructor_step /Backoff_step /acquire_mutex /pop_own /steal_from /push_task /RegisterCallback in Hs;
    repeat first
      [ progress simplify_eq/=
      | match type of Hs with and_then _ _ = Crash _ =>
          apply and_then_Crash in Hs as [Hs|(? & _ & Hs)] end
      | case_match ].
  - apply Nat.eqb_eq in H1. lia.
  - apply Nat.eqb_eq in H1. lia.
  - pose proof (proj1 (list.Forall_lookup _ _) Hsub c _ H) as [Hi _]. by apply Hqi in Hi.
  - by rw (proj1 (backoff_defined _ Hback)) in H0.
  - by rw (proj1 (proj2 (backoff_defined _ Hback))) in H1.
  - by rw (proj2 (proj2 (backoff_defined _ Hback)) z H2) in H3.
  - by apply Hwi, Hqi in H.
  - apply Nat.ltb_lt in H0. by apply Hqi in H0.
  - pose proof (proj1 (list.Forall_lookup _ _) Hpc i _ H) as [_ Hi]. by apply Hqi in Hi.
  - apply call_swallowed_Crash in Hs. rw /user_crash. naive_solver.
  - apply call_swallowed_Crash in Hs. rw /user_crash. naive_solver.
  - apply call_swallowed_Crash in Hs. rw /user_crash. naive_solver.
Qed.

Lemma pool_run_crash ls s u :
  pool_run s ls = Crash u →
  ∃ ls1 l ls2 s1, ls = ls1 ++ l :: ls2 ∧ pool_run s ls1 = Next s1 ∧ pool_step s1 l = Crash u.
Proof.
  induction ls as [|l ls IH] in s |- *; [done|]. rw /=.
  intros [Hs|(s1 & Hs & Hrun)]%and_then_Crash.
  - by exists [], l, ls, s.
  - destruct (IH s1 Hrun) as (ls1 & l1 & ls2 & s2 & -> & Hrun1 & Hs2).
    exists (l :: ls1), l1, ls2, s2. by rw /= Hs.
Qed.

Lemma bind_workers_binds hw s' : ∀ count i s,
  bind_workers hw i count s = Next s' →
  bound s' = bound s ++ ((λ i, (i, i mod hw)) <$> seq i count).
Proof.
  induction count as [|count IH]; intros i s; rw /=.
  { intros [= <-]. by rw app_nil_r. }
  rw /DefaultAffinity. destruct (hw =? 0); rw /=; [done|].
  intros ->%IH. by rw /= -app_assoc.
Qed.

Lemma constructor_returns hw cfg now k (w : W) :
  (bind_threads cfg = true → 0 < hw) → ∃ s, TaskMultiProcessor (T := T) hw cfg now k w = Next s.
Proof.
  rw /TaskMultiProcessor. destruct (bind_threads cfg); [|by eexists].
  intros Hhw. specialize (Hhw eq_refl). generalize (members (T := T) cfg now k w) as s.
  generalize 0 as i. induction (num_threads cfg) as [|n IH]; intros i s; [by eexists|].
  rw /= /DefaultAffinity. destruct (Nat.eqb_spec hw 0); [lia|]. apply IH.
Qed.


(** The workers stay bound to the processors the constructor chose:
    [SetThreadAffinity] has no effect, its function is only read by a constructor
    that is over when it can be called. *)
Theorem pool_affinity_fixed hw cfg now k w s0 ls s :
  TaskMultiProcessor hw cfg now k w = Next s0 → pool_run s0 ls = Next s →
  bound s = if bind_threads cfg then (λ i, (i, i mod hw)) <$> seq 0 (num_threads cfg) else [].
Proof.
  intros Hnew Hrun.
  assert (Hb0 : bound s0 = if bind_threads cfg
                           then (λ i, (i, i mod hw)) <$> seq 0 (num_threads cfg) else []).
  { rw /TaskMultiProcessor in Hnew. destruct (bind_threads cfg); [|by simplify_eq].
    by rw (bind_workers_binds _ _ _ _ _ Hnew). }
  refine (pool_run_invariant (λ s, bound s = _) (λ _, True) _ ls s0 s _ Hb0 Hrun);
    [|by apply list.Forall_forall].
  intros s1 l s2 _ <- Hs. destruct l as [c t|c|c r|i now'|i|now'|cfg'|fn|cb|cb|]; by pool_cases Hs.
Qed.

(** C21: the circuit breaker bounds the pool: with [k] submitting threads the
    queues hold at most [max_queue_size + k - 1] tasks in every interleaving
    ([max_queue_size] with one thread), since a thread tests the counter before
    it pushes and the others may be past the test. *)
Theorem pool_queue_bound hw cfg now k w s0 ls s :
  TaskMultiProcessor hw cfg now k w = Next s0 → enable_circuit_breaker cfg = true →
  (0 < max_queue_size cfg ≤ 2 ^ 63)%Z → 0 < k → (Z.of_nat k ≤ 2 ^ 63)%Z →
  Forall no_reconfig ls →
  pool_run s0 ls = Next s →
  (Z.of_nat (length (concat (queues_ s))) ≤ max_queue_size cfg + Z.of_nat k - 1)%Z.
Proof.
  intros [b ->]%constructed Hen Hmax Hk Hk63 Hok Hrun.
  assert (HI : cfg_ s = cfg ∧ counters_ok s ∧ queue_bounded (max_queue_size cfg) k s).
  { refine (pool_run_invariant
      (λ s, cfg_ s = cfg ∧ counters_ok s ∧ queue_bounded (max_queue_size cfg) k s)
      no_reconfig _ _ _ _ Hok _ Hrun).
    - intros s1 l s2 Hl (Hcfg & Hc & Hq) Hs. split_and!.
      + by rw (pool_step_cfg s1 l s2).
      + by eapply pool_step_counters.
      + eapply (pool_step_bounded _ _ s1 l); [done| |done..]. by rw Hcfg.
    - split; [done|]. split.
      + rw /counters_ok /tasks_counted /in_queues /in_pop /in_count /=.
        by rw !sum_replicate_zero.
      + rw /queue_bounded /in_queues /in_pop /= length_replicate !sum_replicate_zero //.
        split; [done|lia]. }
  destruct HI as (_ & _ & _ & Hb). rw length_concat_sum. rw /in_queues in Hb. lia.
Qed.

(** C36: draining on shutdown does not happen: once the destructor has cleared
    [running_], whatever is queued and however long it waits for
    [tasks_in_queue_] to reach zero, the workers take at most one more task
    each; the others stay in the queues. *)
Theorem pool_shutdown_abandons hw cfg now k w s0 ls s now' s1 ls' s2 :
  setup_ok cfg → TaskMultiProcessor hw cfg now k w = Next s0 →
  Forall (label_ok (num_threads cfg) (mode cfg)) (ls ++ ls') →
  pool_run s0 ls = Next s →
  destructor s = DLive → pool_step s (LDestructor now') = Next s1 →
  pool_run s1 ls' = Next s2 →
  length (taken s2) ≤ length (taken s) + num_threads cfg
  ∧ length (pushed s2) = length (taken s2) + length (concat (queues_ s2)).
Proof.
  intros Hsetup Hnew Hok Hrun Hd Hs Hrun'. pose proof (some_threads _ Hsetup) as Hn.
  apply list.Forall_app in Hok as [Hok Hok'].
  pose proof (pool_reaches_ok hw cfg now k w s0 Hsetup Hnew ls s Hok Hrun) as Hinv.
  pose proof (pool_step_ok _ _ _ (LDestructor now') _ Hn I Hs Hinv) as Hinv1.
  assert (Hs1 : running_ s1 = false ∧ taken s1 = taken s ∧ workers_ s1 = workers_ s).
  { rw /pool_step /gone Hd /= /destructor_step Hd in Hs. by simplify_eq/=. }
  destruct Hs1 as (Hr1 & Ht1 & Hw1). split.
  - assert (HI : running_ s2 = false ∧
      length (taken s2) + sum_list_with may_take (workers_ s2)
      ≤ length (taken s) + num_threads cfg).
    { refine (pool_run_invariant (λ v, running_ v = false ∧
        length (taken v) + sum_list_with may_take (workers_ v)
        ≤ length (taken s) + num_threads cfg) (λ _, True) _ ls' s1 s2 _ _ Hrun').
      - intros v l v' _ [Hrv Hle] Hv.
        destruct (pool_step_stopping v l v' Hv Hrv) as [? Hle']. split; [done|lia].
      - by apply list.Forall_forall.
      - split; [done|]. rw Ht1 Hw1. pose proof (may_take_workers s) as Hm.
        rw (shape_workers _ _ _ (ok_shape _ _ _ Hinv)) in Hm. lia. }
    lia.
  - destruct (ok_conserved _ _ _ (pool_run_ok _ _ _ _ _ Hn Hok' Hrun' Hinv1)) as [HP _].
    apply Permutation_length in HP. by rw length_app !length_fmap /= in HP.
Qed.
End Behaviours.

Section Schedules.
Context {T W : Type}.
Implicit Types (s : Pool (T := T) (W := W)) (ls : list (label (T := T) (W := W)))
  (t : TaskItem (T := T) (W := W)) (cfg : TaskProcessorConfig).

(** The state a run reaches. *)
Definition reached s ls : Pool := match pool_run s ls with Next s' => s' | _ => s end.

(** The steps of a worker from the top of its loop to its queue, when the
    counter is not zero; of a submitter from its call to its push. *)
Definition worker_to_queue (i : nat) : list (label (T := T) (W := W)) :=
  replicate 4 (LWorker i 0).
Definition submit_to_push (c : nat) t : list (label (T := T) (W := W)) :=
  LSubmit c t :: replicate 3 (LSubmitter c).

(** Two submissions are pushed, one of them is counted, both workers pass the
    test, take their task and subtract. *)
Definition underflow_schedule t1 t2 : list (label (T := T) (W := W)) :=
  submit_to_push 0 t1 ++ submit_to_push 1 t2 ++ [LSubmitter 0]
  ++ worker_to_queue 0 ++ worker_to_queue 1
  ++ [LWorker 0 0; LWorker 0 0; LWorker 1 0; LWorker 1 0].

(** The counter is not what its name says: with two workers a task may be
    taken and subtracted before its submitter has added it, which wraps
    [tasks_in_queue_] to 2^64 - 1; a submission in that window finds the circuit
    breaker open and is dropped although both queues are empty. *)
Theorem pool_counter_underflow now w t1 t2 t3 :
  ∃ s s', pool_run (members (default_cfg 2 RoundRobin) now 3 w)
            (underflow_schedule t1 t2) = Next s
    ∧ GetQueueSize s = (2 ^ 64 - 1)%Z ∧ queues_ s = [[]; []]
    ∧ pool_run s [LSubmit 2 t3; LSubmitter 2; LSubmitter 2] = Next s'
    ∧ dropped_count_ s' = 1%Z ∧ pushed s' = [(0, t1); (1, t2)].
Proof.
  set (s0 := members _ _ _ _). exists (reached s0 (underflow_schedule t1 t2)).
  exists (reached (reached s0 (underflow_schedule t1 t2))
            [LSubmit 2 t3; LSubmitter 2; LSubmitter 2]).
  by vm_compute.
Qed.

(** The worker finds nothing to do and is about to wait when the destructor
    stores [running_] and signals; then it waits. *)
Definition lost_wakeup_schedule : list (label (T := T) (W := W)) :=
  replicate 4 (LWorker 0 0) ++ [LDestructor 0; LDestructor 0; LWorker 0 0; LDestructor 0].

(** The destructor waits for a worker that sleeps, and nobody will signal. *)
Definition deadlocked (k : nat) s : Prop :=
  destructor s = DJoin k ∧ workers_ s !! k = Some WAsleep ∧ Forall (eq SIdle) (submitters s).

Definition nobody_helps (l : label (T := T) (W := W)) : Prop :=
  match l with LSubmit _ _ | LSpurious _ => False | _ => True end.

Lemma pool_step_deadlocked k s l s' :
  nobody_helps l → pool_step s l = Next s' → deadlocked k s → deadlocked k s'.
Proof.
  intros Hl Hs (Hd & Hk & Hsub).
  assert (Hidle : ∀ c pc, submitters s !! c = Some pc → pc = SIdle).
  { intros c pc Hc. symmetry. exact (proj1 (list.Forall_lookup _ _) Hsub c pc Hc). }
  rw /deadlocked.
  destruct l as [c t|c|c r|i now|i|now|cfg|fn|cb|cb|]; pool_cases Hs;
    try (match goal with H : submitters s !! _ = Some _ |- _ => by apply Hidle in H end);
    try done.
  all: split; [done|]; (rw list_lookup_insert_ne; [congruence|done]).
Qed.

(** Destroying the pool may never return: the destructor signals without
    holding [mutex_], between a worker's test of [running_] and its wait, and
    from then on the worker sleeps and the destructor joins it, whatever the
    other threads do, unless the condition variable wakes up spuriously. *)
Theorem pool_destructor_hangs now w :
  ∃ s, pool_run (members (default_cfg 1 FIFO) now 1 w) lost_wakeup_schedule = Next s
    ∧ deadlocked 0 s
    ∧ ∀ ls s', Forall nobody_helps ls → pool_run s ls = Next s' → deadlocked 0 s'.
Proof.
  set (s0 := members _ _ _ _). exists (reached s0 lost_wakeup_schedule).
  assert (Hd : deadlocked 0 (reached s0 lost_wakeup_schedule)).
  { split_and!; [by vm_compute..|]. by repeat constructor. }
  split_and!; [by vm_compute|done|]. intros ls s' Hok Hrun.
  refine (pool_run_invariant (deadlocked 0) nobody_helps _ ls _ s' Hok Hd Hrun).
  intros. by eapply pool_step_deadlocked.
Qed.
End Schedules.

(** ** Witnesses

    A pool of two workers in FIFO mode whose callback logs the payload. *)
Definition log_payload (x : nat) : M (list nat) () := modify (λ log, log ++ [x]).

Definition demo_pool : Pool (T := nat) (W := list nat) :=
  members (default_cfg 2 FIFO) 0 1 [].

(** The constructor has nothing to bind. *)
Lemma demo_constructed : TaskMultiProcessor 4 (default_cfg 2 FIFO) 0 1 [] = Next demo_pool.
Proof. done. Qed.

(** One task is submitted and run; then both workers go to sleep. *)
Definition demo_labels : list (label (T := nat) (W := list nat)) :=
  [LRegisterCallback log_payload; LSubmit 0 (Task 7 [log_payload])]
  ++ replicate 5 (LSubmitter 0) ++ replicate 18 (LWorker 0 0) ++ replicate 5 (LWorker 1 0).

Definition demo_end := reached demo_pool demo_labels.

Lemma demo_pool_runs : pool_run demo_pool demo_labels = Next demo_end.
Proof. by vm_compute. Qed.

Lemma demo_setup : setup_ok (default_cfg 2 FIFO).
Proof. split; [cbn; lia|]. intros sizes Hl. apply DefaultStealPolicy_range; [cbn; lia|done]. Qed.

Lemma demo_labels_ok (cfg : TaskProcessorConfig) n m : cfg = default_cfg n m →
  Forall (label_ok (num_threads cfg) (mode cfg)) demo_labels.
Proof. intros _. by repeat (apply list.Forall_cons; split; [done|]). Qed.

Lemma pool_refines_bag_witness :
  rtc (bag_step FIFO) (bag demo_pool) (bag demo_end).
Proof.
  apply (pool_refines_bag 4 (default_cfg 2 FIFO) 0 1 [] demo_pool demo_setup demo_constructed
           demo_labels); [exact (demo_labels_ok _ _ _ eq_refl)|exact demo_pool_runs].
Defined.

Lemma pool_conserves_tasks_witness :
  (pushed demo_end).*2 ≡ₚ finished demo_end ++ concat (hand <$> workers_ demo_end)
                              ++ concat (queues_ demo_end).
Proof.
  apply (pool_conserves_tasks 4 (default_cfg 2 FIFO) 0 1 [] demo_pool demo_setup demo_constructed
           demo_labels); [exact (demo_labels_ok _ _ _ eq_refl)|exact demo_pool_runs].
Defined.

Lemma pool_fifo_order_witness :
  (pushed demo_end).*2 = finished demo_end ++ default [] (hand <$> workers_ demo_end !! 0)
                             ++ default [] (queues_ demo_end !! 0)
  ∧ (∀ i pc, workers_ demo_end !! S i = Some pc → hand pc = [])
  ∧ Forall (λ k, k.1 = 0) (taken demo_end).
Proof.
  apply (pool_fifo_order 4 (default_cfg 2 FIFO) 0 1 [] demo_pool demo_setup demo_constructed
           demo_labels); [done|exact (demo_labels_ok _ _ _ eq_refl)|exact demo_pool_runs].
Defined.

Lemma pool_counter_value_witness :
  GetQueueSize demo_end = u64 (Z.of_nat (in_queues demo_end) + Z.of_nat (in_pop demo_end)
             - Z.of_nat (in_count demo_end)).
Proof.
  apply (pool_counter_value 4 (default_cfg 2 FIFO) 0 1 [] demo_pool demo_setup demo_constructed
           demo_labels); [exact (demo_labels_ok _ _ _ eq_refl)|exact demo_pool_runs].
Defined.

Lemma pool_no_task_stranded_witness :
  concat (queues_ demo_end) = [] ∧ finished demo_end ≡ₚ (pushed demo_end).*2.
Proof.
  apply (pool_no_task_stranded 4 (default_cfg 2 FIFO) 0 1 [] demo_pool demo_setup demo_constructed
           demo_labels); [exact (demo_labels_ok _ _ _ eq_refl)|exact demo_pool_runs
    |by vm_compute|by vm_compute| |]; vm_compute; by repeat constructor.
Defined.

(** A callback with undefined behaviour of its own. *)
Definition bad_callback (x : nat) : M (list nat) () := undef null_dereference.

Definition bad_labels : list (label (T := nat) (W := list nat)) :=
  LSubmit 0 (Task 7 [bad_callback]) :: replicate 5 (LSubmitter 0) ++ replicate 10 (LWorker 0 0).


Lemma pool_queue_bound_witness :
  (Z.of_nat (length (concat (queues_ demo_end))) ≤ 10000 + 1 - 1)%Z.
Proof.
  apply (pool_queue_bound 4 (default_cfg 2 FIFO) 0 1 [] demo_pool demo_labels);
    [exact demo_constructed|done|cbn; lia|lia|lia| |exact demo_pool_runs].
  by repeat (apply list.Forall_cons; split; [done|]).
Defined.

(** Three tasks are queued and nobody has taken one when the destructor runs to
    the end of its drain; the first worker is let through and takes one. *)
Definition queued_labels : list (label (T := nat) (W := list nat)) :=
  concat (replicate 3 (LSubmit 0 (Task 7 []) :: replicate 5 (LSubmitter 0)))
  ++ [LWorker 0 0].
Definition queued_end := reached demo_pool queued_labels.
Definition stopping_start := reached queued_end [LDestructor 0].
Definition stopping_labels : list (label (T := nat) (W := list nat)) :=
  [LDestructor 0; LDestructor 10000] ++ replicate 12 (LWorker 0 0) ++ replicate 3 (LWorker 1 0)
  ++ replicate 5 (LDestructor 10000).
Definition stopping_end := reached stopping_start stopping_labels.

Lemma pool_shutdown_abandons_witness :
  length (taken stopping_end) ≤ length (taken queued_end) + 2
  ∧ length (pushed stopping_end) = length (taken stopping_end) + length (concat (queues_ stopping_end))
  ∧ length (pushed stopping_end) = 3 ∧ destructor stopping_end = DDead
  ∧ length (concat (queues_ stopping_end)) = 2.
Proof.
  assert (Hgoal : length (taken stopping_end) ≤ length (taken queued_end) + 2
    ∧ length (pushed stopping_end) = length (taken stopping_end) + length (concat (queues_ stopping_end))).
  { apply (pool_shutdown_abandons 4 (default_cfg 2 FIFO) 0 1 [] demo_pool queued_labels queued_end 0
             stopping_start stopping_labels stopping_end);
      [exact demo_setup|exact demo_constructed| |by vm_compute..].
    by repeat (apply list.Forall_cons; split; [done|]). }
  destruct Hgoal. split_and!; [done|done|by vm_compute..].
Defined.

Definition bound_pool : Pool (T := nat) (W := list nat) :=
  match TaskMultiProcessor 2 (Cfg "p" 3 FIFO None 0 0 0 0 0 0 true true true true) 0 1 [] with
  | Next s => s
  | _ => demo_pool
  end.

Lemma pool_affinity_fixed_witness :
  bound (SetThreadAffinity (λ _, mret ()) bound_pool) = [(0, 0); (1, 1); (2, 0)].
Proof.
  exact (pool_affinity_fixed 2 (Cfg "p" 3 FIFO None 0 0 0 0 0 0 true true true true) 0 1 []
           bound_pool [LSetThreadAffinity (λ _, mret ())] _ eq_refl eq_refl).
Defined.
