(* ===== verification/TaskPoolRaces.v ===== *)
(** * The pool's data races

    The interleaving model takes every access to shared memory as one step.
    Here is what it says about the accesses that are not atomic: which of them
    two threads can be about to make at the same time, one of them a write,
    without a common lock, which C++ leaves undefined.  There are three kinds and
    no other, and runs that lead to each. *)
From S2P Require Import Prelude TaskPool TaskPoolSpec TaskPoolCounters TaskPoolTheorems.

(** The members that are neither atomic nor a lock and may change after the
    construction. *)
Inductive location :=
  | LocCfg
  | LocQueue (k : nat)
  | LocCallbacks
  | LocLastDrop
  | LocAffinity
  | LocFinal.

(** [qmutexes_[k]] and [cb_mu_]. *)
Inductive pool_lock := QueueLock (k : nat) | CallbackLock.

#[export] Instance location_eq_dec : EqDecision location.
Proof. solve_decision. Defined.
#[export] Instance pool_lock_eq_dec : EqDecision pool_lock.
Proof. solve_decision. Defined.

Record access := Access { loc : location; writes : bool; under : option pool_lock }.

Definition common_lock (a b : access) : bool :=
  match under a, under b with Some l1, Some l2 => bool_decide (l1 = l2) | _, _ => false end.

Definition conflict (a b : access) : bool :=
  bool_decide (loc a = loc b) && (writes a || writes b) && negb (common_lock a b).

Section Races.
Context {T W : Type}.
Implicit Types (s : Pool (T := T) (W := W)) (l : label (T := T) (W := W)).

Definition reads_cfg : access := Access LocCfg false None.

Definition submitter_accesses (pc : spc (T := T) (W := W)) : list access :=
  match pc with
  | SLoad _ | SBackoff _ | SIndex _ => [reads_cfg]
  | SPush k _ => [Access (LocQueue k) true (Some (QueueLock k))]
  | _ => []
  end.

Definition worker_accesses (i : nat) (now : Z) (s : Pool (T := T) (W := W))
    (pc : wpc (T := T) (W := W)) : list access :=
  match pc with
  | WOwn =>
      Access (LocQueue i) true (Some (QueueLock i))
      :: match queues_ s !! i with Some [] => [reads_cfg] | _ => [] end
  | WSizes sizes =>
      reads_cfg :: (if length sizes <? num_threads (cfg_ s)
                    then [Access (LocQueue (length sizes)) false None] else [])
  | WSteal vic => [Access (LocQueue vic) true (Some (QueueLock vic))]
  | WCbLock _ | WGlobal _ _ => [Access LocCallbacks false (Some CallbackLock)]
  | WNotify _ =>
      [reads_cfg; Access LocLastDrop false None]
      ++ (if (drop_notification_interval (cfg_ s) <=? now - last_drop_notification_ s)%Z
          then [Access LocLastDrop true None] else [])
  | _ => []
  end.

Definition destructor_accesses (pc : dpc) : list access :=
  match pc with
  | DSignal | DDrain _ => [reads_cfg]
  | DFinal => [Access LocFinal false None]
  | _ => []
  end.

(** What a thread's next step reads and writes. *)
Definition accesses (s : Pool (T := T) (W := W)) (l : label (T := T) (W := W)) : list access :=
  match l with
  | LSubmitter c | LBackoff c _ =>
      match submitters s !! c with Some pc => submitter_accesses pc | None => [] end
  | LWorker i now =>
      match workers_ s !! i with Some pc => worker_accesses i now s pc | None => [] end
  | LDestructor _ => destructor_accesses (destructor s)
  | LUpdateConfig _ => [Access LocCfg true None]
  | LSetThreadAffinity _ => [Access LocAffinity true None]
  | LSetFinalCallback _ => [Access LocFinal true None]
  | LRegisterCallback _ => [Access LocCallbacks true (Some CallbackLock)]
  | LSubmit _ _ | LSpurious _ | LGetDroppedCount => []
  end.

(** Steps of different threads.  A member called from outside is called by a
    thread that is none of the others. *)
Definition other_thread (l1 l2 : label (T := T) (W := W)) : bool :=
  match l1, l2 with
  | LWorker i _, LWorker j _ => negb (i =? j)
  | (LSubmitter c | LBackoff c _), (LSubmitter d | LBackoff d _) => negb (c =? d)
  | LDestructor _, LDestructor _ => false
  | _, _ => true
  end.

Definition enabled (s : Pool (T := T) (W := W)) (l : label (T := T) (W := W)) : bool :=
  match pool_step s l with Blocked => false | _ => true end.

Definition race (s : Pool (T := T) (W := W)) (l1 l2 : label (T := T) (W := W)) : bool :=
  other_thread l1 l2 && enabled s l1 && enabled s l2
  && existsb (λ a, existsb (conflict a) (accesses s l2)) (accesses s l1).

(** The members that are set without a lock. *)
Definition reconfigures (l : label (T := T) (W := W)) : bool :=
  match l with
  | LUpdateConfig _ | LSetThreadAffinity _ | LSetFinalCallback _ => true
  | _ => false
  end.

(** A worker that looks at the queues' sizes before stealing; one that is about
    to report drops. *)
Definition sizing s l : Prop :=
  ∃ i now sizes, l = LWorker i now ∧ workers_ s !! i = Some (WSizes sizes).
Definition noticing s l : Prop :=
  ∃ i now d, l = LWorker i now ∧ workers_ s !! i = Some (WNotify d).

(** What an access says of its step. *)
Definition explained s l (a : access) : Prop :=
  match loc a with
  | LocCfg | LocFinal => writes a = true → reconfigures l = true
  | LocAffinity => reconfigures l = true
  | LocQueue k => under a = Some (QueueLock k) ∨ sizing s l
  | LocCallbacks => under a = Some CallbackLock
  | LocLastDrop => noticing s l
  end.

Lemma accesses_explained s l : Forall (explained s l) (accesses s l).
Proof.
  destruct l as [c t|c|c r|i now|i|now|cfg|fn|cb|cb|]; rw /=; try (by repeat constructor).
  - destruct (submitters s !! c) as [[]|]; repeat constructor; done.
  - destruct (submitters s !! c) as [[]|]; repeat constructor; done.
  - destruct (workers_ s !! i) as [pc|] eqn:Hi; [|done].
    assert (Hn : ∀ d, pc = WNotify d → noticing s (LWorker i now)).
    { intros d ->. by exists i, now, d. }
    assert (Hz : ∀ sizes, pc = WSizes sizes → sizing s (LWorker i now)).
    { intros sizes ->. by exists i, now, sizes. }
    destruct pc; rw /=; repeat case_match; repeat (apply list.Forall_cons; split);
      rw ?list.Forall_nil /explained /=; eauto.
  - destruct (destructor s); repeat constructor; done.
Qed.

(** The table leaves no write out: what a step may write of these members is among
    its accesses. *)
Definition unchanged (x : location) s s' : Prop :=
  match x with
  | LocCfg => cfg_ s' = cfg_ s
  | LocQueue k => queues_ s' !! k = queues_ s !! k
  | LocCallbacks => global_callbacks_ s' = global_callbacks_ s
  | LocLastDrop => last_drop_notification_ s' = last_drop_notification_ s
  | LocAffinity => thread_affinity_ s' = thread_affinity_ s
  | LocFinal => final_callback_ s' = final_callback_ s
  end.

Definition written (x : location) (a : access) : bool := bool_decide (loc a = x) && writes a.

Lemma unchanged_refl x s : unchanged x s s.
Proof. by destruct x. Qed.

Lemma unchanged_set_queue k q x s :
  written x (Access (LocQueue k) true (Some (QueueLock k))) = false →
  unchanged x s (set_queue_at k q s).
Proof.
  rw /written andb_true_r. intros Hne%bool_decide_eq_false_1.
  destruct x as [|k'| | | |]; [done| |done..].
  rw /= list_lookup_insert_ne; [|done]. by intros ->.
Qed.

(** A step that changes a counter, a lock or a program counter only. *)
Ltac leaves_members :=
  intros; repeat case_match; simplify_eq/=;
  by match goal with x : location |- _ => destruct x end.

Lemma submitter_complete c s s' x pc :
  submitters s !! c = Some pc → SubmitImpl_step c s = Next s' →
  existsb (written x) (submitter_accesses pc) = false → unchanged x s s'.
Proof.
  intros Hpc. rw /SubmitImpl_step Hpc. destruct pc as [| | |t|t|idx t| |]; try leaves_members.
  rw /= orb_false_r /push_task. destruct (queues_ s !! idx) as [q|]; [|done].
  intros [= <-] Hw%(unchanged_set_queue idx (q ++ [t]) x s). by destruct x.
Qed.

Lemma backoff_complete c r s s' x : Backoff_step c r s = Next s' → unchanged x s s'.
Proof. rw /Backoff_step. leaves_members. Qed.

Lemma call_complete (m : M W ()) (k : Pool (T := T) (W := W) → Pool (T := T) (W := W)) s s' x :
  (∀ w, unchanged x s (k (set_user w s))) →
  and_then (call_swallowed m s) (λ s, Next (k s)) = Next s' → unchanged x s s'.
Proof. intros Hk. rw /call_swallowed. destruct (m (user s)) => //= -[= <-]; apply Hk. Qed.

Lemma worker_complete i now s s' x pc :
  workers_ s !! i = Some pc → ProcessLoop_step i now s = Next s' →
  existsb (written x) (worker_accesses i now s pc) = false → unchanged x s s'.
Proof.
  intros Hpc. rw /ProcessLoop_step Hpc.
  destruct pc as [| | | | | | | |sizes|vic|t|t|t|t gs|t gs| |d| | |]; try leaves_members.
  1,2: rw /acquire_mutex; leaves_members.
  - rw /pop_own. destruct (queues_ s !! i) as [[|t q]|] eqn:Hq; [leaves_members| |done].
    intros [= <-]. rw /= Hq /= orb_false_r.
    intros Hw%(unchanged_set_queue i q x s). by destruct x.
  - rw /steal_from /= orb_false_r. destruct (queues_ s !! vic) as [q|]; [|done].
    destruct (list.last q) as [t|]; [|leaves_members].
    intros [= <-] Hw%(unchanged_set_queue vic (removelast q) x s). by destruct x.
  - destruct gs as [|g gs]; [leaves_members|].
    intros Hc _. refine (call_complete _ (at_worker i (WGlobal t gs)) s s' x _ Hc). by destruct x.
  - destruct gs as [|g gs]; [leaves_members|].
    intros Hc _. refine (call_complete _ (at_worker i (WWrap t gs)) s s' x _ Hc). by destruct x.
  - intros [= <-]. rw /=. destruct (_ <=? _)%Z; [|by destruct x].
    rw /written /=. by destruct x.
Qed.

Lemma destructor_complete now s s' x : destructor_step now s = Next s' → unchanged x s s'.
Proof.
  rw /destructor_step. destruct (destructor s); try leaves_members.
  destruct (final_callback_ s) as [f|]; [|leaves_members].
  intros Hc. refine (call_complete _ (set_destructor DDead) s s' x _ Hc). by destruct x.
Qed.

Lemma accesses_complete s l s' x :
  pool_step s l = Next s' → existsb (written x) (accesses s l) = false → unchanged x s s'.
Proof.
  rw /pool_step. destruct (gone s); [done|].
  destruct l as [c t|c|c r|i now|i|now|cfg|fn|cb|cb|]; rw /=.
  - rw /Submit_call. leaves_members.
  - destruct (submitters s !! c) as [pc|] eqn:Hc; [by apply submitter_complete|].
    by rw /SubmitImpl_step Hc.
  - intros Hs _. by eapply backoff_complete.
  - destruct (workers_ s !! i) as [pc|] eqn:Hi; [by apply worker_complete|].
    by rw /ProcessLoop_step Hi.
  - rw /spurious_wakeup. leaves_members.
  - intros Hs _. by eapply destructor_complete.
  - intros [= <-]. by destruct x.
  - intros [= <-]. by destruct x.
  - intros [= <-]. by destruct x.
  - rw /RegisterCallback. destruct (cb_mu_ s); [done|]. intros [= <-]. by destruct x.
  - intros [= <-]. by destruct x.
Qed.

Lemma conflict_elim a b :
  conflict a b = true →
  loc a = loc b ∧ (writes a = true ∨ writes b = true)
  ∧ ∀ k, under a = Some k → under b = Some k → False.
Proof.
  rw /conflict /common_lock !andb_true_iff bool_decide_eq_true orb_true_iff negb_true_iff.
  intros [[Hl Hw] Hc]. split_and!; [done|done|]. intros k Ha Hb. rw Ha Hb in Hc.
  by apply bool_decide_eq_false_1 in Hc.
Qed.

(** C34: the pool has three kinds of data race and no other: in every reachable
    state, two steps of different threads that conflict without a common lock
    are a member set without a lock (the configuration, the affinity function,
    the final callback) against any use of it; a stealing worker that reads the
    size of a queue; or two workers that report dropped tasks at the same time.
    With one worker, without stealing and without reconfiguration the pool is
    free of data races. *)
Theorem pool_races hw cfg now k w s0 ls s l1 l2 :
  setup_ok cfg → TaskMultiProcessor hw cfg now k w = Next s0 →
  Forall (label_ok (num_threads cfg) (mode cfg)) ls → pool_run s0 ls = Next s →
  race s l1 l2 = true →
  reconfigures l1 || reconfigures l2 = true
  ∨ (mode cfg = WorkStealing ∧ (sizing s l1 ∨ sizing s l2))
  ∨ (1 < num_threads cfg ∧ noticing s l1 ∧ noticing s l2).
Proof.
  intros Hsetup Hnew Hok Hrun. pose proof (pool_reaches_ok hw cfg now k w s0 Hsetup Hnew ls s Hok Hrun) as Hinv.
  destruct (ok_shape _ _ _ Hinv) as [_ _ _ Hlen _ Hpcs].
  assert (Hsteal : ∀ l, sizing s l → mode cfg = WorkStealing).
  { intros l (i & n & sizes & -> & Hi). by destruct (proj1 (list.Forall_lookup _ _) Hpcs i _ Hi). }
  rw /race !andb_true_iff. intros [[[Hother _] _] Hex].
  apply existsb_exists in Hex as (a & Ha%list_elem_of_In & Hex).
  apply existsb_exists in Hex as (b & Hb%list_elem_of_In & Hc).
  pose proof (proj1 (list.Forall_forall _ _) (accesses_explained s l1) a Ha) as He1.
  pose proof (proj1 (list.Forall_forall _ _) (accesses_explained s l2) b Hb) as He2.
  apply conflict_elim in Hc as (Hloc & Hw & Hlock). rw /explained -Hloc in He1 He2.
  rw orb_true_iff. destruct (loc a) as [|q| | | |].
  - left. destruct Hw; auto.
  - destruct He1 as [He1|He1]; [destruct He2 as [He2|He2]; [by destruct (Hlock _ He1 He2)|]|].
    all: by right; left; split; [eapply Hsteal|auto].
  - by destruct (Hlock _ He1 He2).
  - right; right. split; [|done].
    destruct He1 as (i & n1 & d1 & -> & Hi), He2 as (j & n2 & d2 & -> & Hj).
    apply lookup_lt_Some in Hi, Hj. rw /= in Hother.
    apply negb_true_iff, Nat.eqb_neq in Hother. lia.
  - by left; left.
  - left. destruct Hw; auto.
Qed.
End Races.

(** ** A run that leads to each kind

    A worker that looks at the size of the queue a submitter is about to push to. *)
Definition stealing_cfg : TaskProcessorConfig := default_cfg 2 WorkStealing.

Definition stealing_pool : Pool (T := nat) (W := ()) := members stealing_cfg 0 1 ().

Definition stealing_labels : list (label (T := nat) (W := ())) :=
  LSubmit 0 (Task 7 []) :: replicate 5 (LSubmitter 0) ++ replicate 6 (LWorker 1 0)
  ++ LSubmit 0 (Task 8 []) :: replicate 2 (LSubmitter 0).

(** The breaker is open from one task on; a worker is about to report a drop when
    a second task is dropped, which the other worker finds. *)
Definition noticing_cfg : TaskProcessorConfig :=
  Cfg "p" 2 FIFO None 1 0 0 0 1000 0 true false false true.

Definition noticing_pool : Pool (T := nat) (W := ()) := members noticing_cfg 0 1 ().

Definition dropped_submit : list (label (T := nat) (W := ())) :=
  LSubmit 0 (Task 8 []) :: replicate 2 (LSubmitter 0).

Definition noticing_labels : list (label (T := nat) (W := ())) :=
  LSubmit 0 (Task 7 []) :: replicate 5 (LSubmitter 0)
  ++ replicate 4 (LWorker 0 0) ++ replicate 5 (LWorker 1 0)
  ++ dropped_submit ++ [LWorker 1 0] ++ dropped_submit ++ replicate 7 (LWorker 0 0).

Lemma stealing_setup : setup_ok stealing_cfg.
Proof. split; [cbn; lia|]. intros sizes Hl. apply DefaultStealPolicy_range; [cbn; lia|done]. Qed.

(** Each of the three kinds happens. *)
Theorem pool_races_happen :
  race (reached stealing_pool stealing_labels) (LWorker 1 0) (LSubmitter 0) = true
  ∧ race (reached noticing_pool noticing_labels) (LWorker 0 5000) (LWorker 1 5000) = true
  ∧ race (reached stealing_pool [LSubmit 0 (Task 7 [])])
      (LUpdateConfig stealing_cfg) (LSubmitter 0) = true.
Proof. split_and!; by vm_compute. Qed.

Lemma pool_races_witness :
  sizing (reached stealing_pool stealing_labels) (LWorker 1 0).
Proof.
  destruct (pool_races 4 stealing_cfg 0 1 () stealing_pool stealing_labels
              (reached stealing_pool stealing_labels) (LWorker 1 0) (LSubmitter 0))
    as [Hr|[[_ [Hs|Hs]]|[_ [_ Hn]]]];
    [exact stealing_setup|done| |by vm_compute|by vm_compute|done|exact Hs| |].
  - by repeat (apply list.Forall_cons; split; [done|]).
  - by destruct Hs as (i & now & sizes & Hl & _).
  - by destruct Hn as (i & now & d & Hl & _).
Defined.
