(* ===== verification/TaskPoolSubmit.v ===== *)
(** * From a submission to its callbacks

    What becomes of everything that is submitted: it is pushed, still with its
    thread, or refused, and nothing else; and, for a pool whose tasks have
    nothing but the registered callbacks, what the callbacks have done by the
    time the pool is at rest. *)
From S2P Require Import Prelude TaskPool TaskPoolSpec TaskPoolCounters TaskPoolTheorems.

Section Submissions.
Context {T W : Type}.
Implicit Types (s : Pool (T := T) (W := W)) (t : TaskItem (T := T) (W := W))
  (ls : list (label (T := T) (W := W))).

Definition submitted ls : list (TaskItem (T := T) (W := W)) :=
  omap (λ l, match l with LSubmit _ t => Some t | _ => None end) ls.

(** The task of a thread that has called [SubmitImpl] and not pushed yet. *)
Definition carried (pc : spc (T := T) (W := W)) : list (TaskItem (T := T) (W := W)) :=
  match pc with SLoad t | SBackoff t | SIndex t | SPush _ t => [t] | _ => [] end.

(** The task a step turns away: the breaker is open, or the backoff throws. *)
Definition turned_away s (l : label (T := T) (W := W)) : list (TaskItem (T := T) (W := W)) :=
  match l with
  | LSubmitter c =>
      match submitters s !! c with
      | Some (SLoad t) => if breaker_open (cfg_ s) (tasks_in_queue_ s) then [t] else []
      | _ => []
      end
  | LBackoff c None => match submitters s !! c with Some pc => carried pc | None => [] end
  | _ => []
  end.

Fixpoint refused s ls : list (TaskItem (T := T) (W := W)) :=
  match ls with
  | [] => []
  | l :: ls =>
      turned_away s l ++ match pool_step s l with Next s' => refused s' ls | _ => [] end
  end.

Definition carrying s : list (TaskItem (T := T) (W := W)) := concat (carried <$> submitters s).

Lemma carrying_at c pc pc' (ss : list (spc (T := T) (W := W))) :
  ss !! c = Some pc → carried pc' = carried pc →
  concat (carried <$> <[c := pc']> ss) = concat (carried <$> ss).
Proof.
  intros Hc Hp. rw list_fmap_insert Hp list_insert_id; [by rw list_lookup_fmap Hc|done].
Qed.

Lemma carrying_add c pc pc' t (ss : list (spc (T := T) (W := W))) :
  ss !! c = Some pc → carried pc = [] → carried pc' = [t] →
  concat (carried <$> <[c := pc']> ss) ≡ₚ concat (carried <$> ss) ++ [t].
Proof.
  intros Hc Hp Hp'. rw list_fmap_insert Hp' (concat_insert_add _ c [] []).
  { by rw list_lookup_fmap Hc /= Hp. }
  by rw Permutation_cons_append.
Qed.

Lemma carrying_remove c pc pc' t (ss : list (spc (T := T) (W := W))) :
  ss !! c = Some pc → carried pc = [t] → carried pc' = [] →
  concat (carried <$> ss) ≡ₚ concat (carried <$> <[c := pc']> ss) ++ [t].
Proof.
  intros Hc Hp Hp'. rw list_fmap_insert Hp' (concat_insert_remove (carried <$> ss) c [] [] t).
  { by rw list_lookup_fmap Hc /= Hp. }
  by rw -Permutation_cons_append.
Qed.

Lemma pool_step_submissions s l s' :
  pool_step s l = Next s' →
  (pushed s').*2 ++ carrying s' ++ turned_away s l ≡ₚ (pushed s).*2 ++ carrying s ++ submitted [l].
Proof.
  intros Hs. rw /carrying.
  destruct l as [c t|c|c r|i now|i|now|cfg|fn|cb|cb|]; pool_cases Hs; rw ?app_nil_r //.
  all: try (by rw (carrying_at _ _ _ _ ltac:(eassumption))).
  all: try (rw (carrying_add _ _ _ _ _ ltac:(eassumption)); done).
  all: try (by rw -(carrying_remove _ _ _ _ _ ltac:(eassumption))).
  rw (carrying_remove _ _ SCount t _ ltac:(eassumption)); [done..|].
  rw fmap_app -app_assoc. by rw (Permutation_app_comm [t]).
Qed.

Lemma submitted_cons l ls : submitted (l :: ls) = submitted [l] ++ submitted ls.
Proof. by destruct l. Qed.

Lemma pool_run_submissions ls s s' :
  pool_run s ls = Next s' →
  (pushed s').*2 ++ carrying s' ++ refused s ls ≡ₚ (pushed s).*2 ++ carrying s ++ submitted ls.
Proof.
  induction ls as [|l ls IH] in s |- *; [by intros [= <-]|].
  intros (s1 & Hs & Hrun)%and_then_Next. rw submitted_cons /= Hs.
  pose proof (pool_step_submissions s l s1 Hs) as Hstep. specialize (IH s1 Hrun).
  trans (((pushed s').*2 ++ carrying s' ++ refused s1 ls) ++ turned_away s l).
  { by rw -!app_assoc (Permutation_app_comm (turned_away s l)). }
  rw IH. trans (((pushed s1).*2 ++ carrying s1 ++ turned_away s l) ++ submitted ls).
  { by rw -!app_assoc (Permutation_app_comm (submitted ls)). }
  by rw Hstep -!app_assoc.
Qed.

(** ** One submitting thread

    Its tasks are pushed in the order it submits them. *)
Lemma pool_step_order s l s' :
  length (submitters s) = 1 → pool_step s l = Next s' →
  length (submitters s') = 1
  ∧ (pushed s').*2 ++ carrying s' `sublist_of` (pushed s).*2 ++ carrying s ++ submitted [l].
Proof.
  intros Hone Hs. destruct (submitters s) as [|pc [|? ?]] eqn:Hsub; try done.
  rw /carrying Hsub.
  destruct l as [c t|c|c r|i now|i|now|cfg|fn|cb|cb|]; pool_cases Hs; rw ?Hsub /= ?app_nil_r //.
  all: match goal with Hsub : submitters _ = _, H : submitters _ !! ?c = Some _ |- _ =>
    rw Hsub in H; destruct c; [|done]; injection H as ->; cbn end.
  all: split; [done|]; rw ?fmap_app /= ?app_nil_r; try done.
  all: by apply sublist_inserts_r.
Qed.

Lemma pool_run_order ls s s' :
  length (submitters s) = 1 → pool_run s ls = Next s' →
  (pushed s').*2 ++ carrying s' `sublist_of` (pushed s).*2 ++ carrying s ++ submitted ls.
Proof.
  induction ls as [|l ls IH] in s |- *; [by intros _ [= <-]; rw app_nil_r|].
  intros Hone (s1 & Hs & Hrun)%and_then_Next. rw submitted_cons.
  destruct (pool_step_order s l s1 Hone Hs) as [Hone1 Hsub].
  etrans; [by apply IH|]. rw !app_assoc. apply sublist_app; [|done]. by rw -(app_assoc _ (carrying s)).
Qed.

(** Nothing is reconfigured, and the random device works. *)
Definition steady (l : label (T := T) (W := W)) : Prop :=
  match l with LUpdateConfig _ | LBackoff _ None => False | _ => True end.

(** The breaker does not open below [n] tasks. *)
Definition roomy (cfg : TaskProcessorConfig) (n : nat) : Prop :=
  enable_circuit_breaker cfg = true → max_queue_size cfg = 0%Z ∨ (Z.of_nat n ≤ max_queue_size cfg)%Z.

Lemma not_turned_away s l n :
  length (submitters s) = 1 → counters_ok s → conserved (bag s) → steady l →
  roomy (cfg_ s) n → length (pushed s) + length (carrying s) ≤ n → turned_away s l = [].
Proof.
  intros Hone Hc Hcons Hl Hroom Hn. pose proof (length_bag_queues s Hcons) as Hlen.
  destruct l as [c t|c|c [r|]|i now|i|now|cfg|fn|cb|cb|]; try done. cbn.
  destruct (submitters s) as [|pc [|? ?]] eqn:Hsub; try done.
  destruct c as [|c]; [|done]. destruct pc as [|t| | | | | |]; try done. cbn.
  rw /carrying Hsub /= in Hn.
  rw /counters_ok /tasks_counted /in_count Hsub /= Z.sub_0_r in Hc.
  pose proof (Z.mod_le (Z.of_nat (in_queues s) + Z.of_nat (in_pop s)) (2 ^ 64)) as Hmod.
  rw /u64 in Hc. rw /breaker_open. destruct (enable_circuit_breaker (cfg_ s)) eqn:He; [|done].
  destruct (Hroom He) as [->|Hmax]; [done|].
  assert ((max_queue_size (cfg_ s) <=? tasks_in_queue_ s)%Z = false) as ->; [|by rw andb_false_r].
  apply Z.leb_gt. lia.
Qed.

Lemma pool_run_accepts n m ls s s' :
  0 < n → pool_ok n m s → length (submitters s) = 1 → Forall steady ls →
  roomy (cfg_ s) (length (pushed s) + length (carrying s) + length (submitted ls)) →
  pool_run s ls = Next s' → refused s ls = [].
Proof.
  induction ls as [|l ls IH] in s |- *; [done|].
  intros Hn Hok Hone Hst Hroom (s1 & Hs & Hrun)%and_then_Next.
  apply list.Forall_cons in Hst as [Hl Hst].
  destruct (pool_step_order s l s1 Hone Hs) as [Hone1 Hsub%sublist_length].
  rw !length_app !length_fmap in Hsub. rw submitted_cons length_app in Hroom.
  rw /= Hs (not_turned_away s l _ Hone (ok_counters _ _ _ Hok) (ok_conserved _ _ _ Hok) Hl Hroom)
    ; [lia|].
  eapply IH; [done| |done..| |done].
  - eapply pool_step_ok; [done| |done..]. by destruct l.
  - rw (pool_step_cfg s l s1 _ Hs); [by destruct l|].
    intros He. destruct (Hroom He); [by left|right; lia].
Qed.

(** C8: every submission is accounted for: in every interleaving, with any number
    of submitting threads and of workers, the tasks submitted are, up to order,
    the finished ones, the ones in the workers' hands, the ones queued, the
    ones whose thread is still in [SubmitImpl], and the ones refused by the open
    breaker or by a backoff that throws. *)
Theorem pool_accounts_submissions hw cfg now k w s0 ls s :
  setup_ok cfg → TaskMultiProcessor hw cfg now k w = Next s0 →
  Forall (label_ok (num_threads cfg) (mode cfg)) ls → pool_run s0 ls = Next s →
  submitted ls ≡ₚ finished s ++ concat (hand <$> workers_ s) ++ concat (queues_ s)
                    ++ concat (carried <$> submitters s) ++ refused s0 ls.
Proof.
  intros Hsetup Hnew Hok Hrun.
  destruct (ok_conserved _ _ _ (pool_reaches_ok hw cfg now k w s0 Hsetup Hnew ls s Hok Hrun))
    as [HP HK].
  pose proof (pool_run_submissions ls s0 s Hrun) as Hsub.
  apply constructed in Hnew as [b ->]. rw /carrying /= fmap_replicate concat_nils /= in Hsub.
  rw -Hsub HP /= HK /=. by rw -!app_assoc.
Qed.
End Submissions.

(** ** Witness: with room for one task, two threads submit at the same time; both
    find the breaker closed; a third submission is refused, a fourth is still
    with its thread. *)
Definition small_cfg : TaskProcessorConfig :=
  Cfg "p" 2 FIFO None 1 0 0 0 1000 0 true false false true.

Definition small_pool : Pool (T := nat) (W := ()) := members small_cfg 0 2 ().

Definition small_labels : list (label (T := nat) (W := ())) :=
  [LSubmit 0 (Task 7 []); LSubmit 1 (Task 8 []); LSubmitter 0; LSubmitter 1]
  ++ replicate 4 (LSubmitter 1) ++ replicate 4 (LSubmitter 0) ++ replicate 6 (LWorker 0 0)
  ++ LSubmit 0 (Task 9 []) :: replicate 2 (LSubmitter 0) ++ [LSubmit 1 (Task 10 [])].

Definition small_end := reached small_pool small_labels.

Lemma pool_accounts_submissions_witness :
  submitted small_labels ≡ₚ finished small_end ++ concat (hand <$> workers_ small_end)
    ++ concat (queues_ small_end) ++ concat (carried <$> submitters small_end)
    ++ refused small_pool small_labels
  ∧ hand <$> workers_ small_end = [[Task 8 []]; []] ∧ queues_ small_end = [[Task 7 []]; []]
  ∧ submitters small_end = [SIdle; SLoad (Task 10 [])] ∧ refused small_pool small_labels = [Task 9 []].
Proof.
  split; [|by vm_compute].
  apply (pool_accounts_submissions 4 small_cfg 0 2 () small_pool small_labels small_end).
  - split; [cbn; lia|]. intros sizes Hl. apply DefaultStealPolicy_range; [cbn; lia|done].
  - done.
  - by repeat (apply list.Forall_cons; split; [done|]).
  - by vm_compute.
Defined.
