(* ===== verification/TaskPoolCallbacks.v ===== *)
(** * What the registered callbacks have done

    A pool whose tasks carry no wrappers of their own and whose callbacks are
    not changed any more: in every interleaving the user's world is what the
    callbacks make of the tasks one after the other, whole calls and the part of
    the one in progress. *)
From S2P Require Import Prelude TaskPool TaskPoolSpec TaskPoolCounters TaskPoolTheorems TaskPoolSubmit.

Section Plain.
Context {T W : Type}.
Implicit Types (s : Pool (T := T) (W := W)) (t : TaskItem (T := T) (W := W)).

(** A task of [Submit] or [SubmitWithTimeout]. *)
Definition plain t : Prop := wrappers t = [].

Definition plain_submitter (pc : spc (T := T) (W := W)) : Prop :=
  match pc with SLoad t | SBackoff t | SIndex t | SPush _ t => plain t | _ => True end.

Lemma plain_last q t : list.last q = Some t → Forall plain q → plain t ∧ Forall plain (removelast q).
Proof.
  intros [q' ->]%last_Some Hq. apply list.Forall_app in Hq as [? Ht].
  rw removelast_last. by apply list.Forall_cons in Ht as [? _].
Qed.

(** In FIFO mode the worker with a task is the first. *)
Lemma first_worker s i pc :
  in_line (bag s) → workers_ s !! i = Some pc → hand pc ≠ [] → i = 0.
Proof.
  intros Hl Hi Hh. destruct i as [|i]; [done|]. exfalso. apply Hh.
  apply (line_hands _ Hl i). by rw /= list_lookup_fmap Hi.
Qed.

(** A function of the workers' program counters that takes a task's calls to be
    over at some point: the tasks whose calls are over, in any mode and in FIFO
    mode, where only the first worker has any. *)
Context (f : wpc (T := T) (W := W) → list (TaskItem (T := T) (W := W))).
Definition done_tasks s := finished s ++ concat (f <$> workers_ s).
Definition first_done s := finished s ++ default [] (f <$> workers_ s !! 0).

(** [ts]: the tasks whose calls a step has ended. *)
Definition done_more (m : ScheduleMode) (ts : list (TaskItem (T := T) (W := W))) s s' : Prop :=
  done_tasks s' ≡ₚ done_tasks s ++ ts ∧ (m = FIFO → first_done s' = first_done s ++ ts).

Lemma done_same m s s' :
  finished s' = finished s → f <$> workers_ s' = f <$> workers_ s → done_more m [] s s'.
Proof.
  intros Hf Hr. rw /done_more /done_tasks /first_done !app_nil_r Hf Hr -!list_lookup_fmap Hr. done.
Qed.

Lemma done_wakes (ws : list (wpc (T := T) (W := W))) :
  (∀ pc, f (wake pc) = f pc) → f <$> (wake <$> ws) = f <$> ws.
Proof. intros Hw. rw -list_fmap_compose. apply list_fmap_ext. intros. apply Hw. Qed.

Lemma done_at i pc pc' (ws : list (wpc (T := T) (W := W))) :
  ws !! i = Some pc → f pc' = f pc → f <$> <[i := pc']> ws = f <$> ws.
Proof.
  intros Hi Hr. rw list_fmap_insert Hr. apply list_insert_id. by rw list_lookup_fmap Hi.
Qed.

(** A worker ends its task's calls; it finishes the task. *)
Lemma done_call m s s' i pc pc' t :
  (m = FIFO → in_line (bag s)) → workers_ s !! i = Some pc →
  hand pc = [t] → f pc = [] → f pc' = [t] →
  finished s' = finished s → workers_ s' = <[i := pc']> (workers_ s) → done_more m [t] s s'.
Proof.
  intros Hl Hi Hh Hf Hf' Hfin Hws. split.
  - rw /done_tasks Hfin Hws list_fmap_insert Hf' -app_assoc (concat_insert_add _ i [] []).
    { by rw list_lookup_fmap Hi /= Hf. }
    by rw -Permutation_cons_append.
  - intros Hm. assert (i = 0) as -> by by apply (first_worker s i pc (Hl Hm) Hi); rw Hh.
    rw /first_done Hfin Hws list_lookup_insert_eq; [by eapply lookup_lt_Some|].
    by rw Hi /= Hf Hf' app_nil_r.
Qed.

Lemma done_finish m s s' i pc pc' t :
  (m = FIFO → in_line (bag s)) → workers_ s !! i = Some pc →
  hand pc = [t] → f pc = [t] → f pc' = [] →
  finished s' = finished s ++ [t] → workers_ s' = <[i := pc']> (workers_ s) → done_more m [] s s'.
Proof.
  intros Hl Hi Hh Hf Hf' Hfin Hws. split.
  - rw /done_tasks Hfin Hws list_fmap_insert Hf' app_nil_r
      (concat_insert_remove (f <$> workers_ s) i [] [] t).
    { by rw list_lookup_fmap Hi /= Hf. }
    by rw -app_assoc.
  - intros Hm. assert (i = 0) as -> by by apply (first_worker s i pc (Hl Hm) Hi); rw Hh.
    rw /first_done Hfin Hws list_lookup_insert_eq; [by eapply lookup_lt_Some|].
    by rw Hi /= Hf Hf' !app_nil_r.
Qed.
End Plain.

(** [plain_lookup]: the invariants of the threads and queues a step looks at. *)
Ltac plain_lookup :=
  repeat match goal with
  | H : ?l !! _ = Some _, Hf : Forall _ ?l |- _ =>
      let Hp := fresh "Hp" in
      pose proof (proj1 (list.Forall_lookup _ _) Hf _ _ H) as Hp; clear H
  end.

Section Callbacks.
Context {T W : Type}.
Context (cbs : list (Callback (T := T) (W := W))).
Implicit Types (s : Pool (T := T) (W := W)) (t : TaskItem (T := T) (W := W)).

Definition plain_worker (pc : wpc (T := T) (W := W)) : Prop :=
  match pc with
  | WSub t | WProcessed t | WCbLock t => plain t
  | WGlobal t rest => plain t ∧ ∃ gs, cbs = gs ++ rest
  | WWrap t rest => plain t ∧ rest = []
  | _ => True
  end.

(** The pool has these callbacks and nothing else to call. *)
Record serves s : Prop := {
  serves_callbacks : global_callbacks_ s = cbs;
  serves_final : final_callback_ s = None;
  serves_queues : Forall (Forall plain) (queues_ s);
  serves_workers : Forall plain_worker (workers_ s);
  serves_submitters : Forall plain_submitter (submitters s)
}.

(** Steps that leave it so. *)
Definition serving (n : nat) (m : ScheduleMode) (l : label (T := T) (W := W)) : Prop :=
  match l with
  | LSubmit _ t => plain t
  | LUpdateConfig cfg => cfg_ok n m cfg
  | LSetFinalCallback _ | LRegisterCallback _ => False
  | _ => True
  end.

Lemma serving_ok n m l : serving n m l → label_ok n m l.
Proof. by destruct l. Qed.

Lemma plain_wakes (ws : list (wpc (T := T) (W := W))) :
  Forall plain_worker ws → Forall plain_worker (wake <$> ws).
Proof. intros Hw. apply Forall_fmap. eapply Forall_impl; [|exact Hw]. by intros []. Qed.

Lemma pool_step_serves n m s l s' :
  serving n m l → pool_step s l = Next s' → serves s → serves s'.
Proof.
  intros Hl Hs [Hcb Hfin Hq Hw Hsub].
  destruct l as [c t|c|c r|i now|i|now|cfg|fn|cb|cb|]; try done; pool_cases Hs; try congruence;
    split; cbn; try done; try (by apply plain_wakes); plain_lookup;
    try (apply Forall_insert; [done|]); cbn in *; try done; try (destruct_and!; done).
  all: try match goal with E : list.last _ = Some _, Hp : Forall plain _ |- _ =>
         by destruct (plain_last _ _ E Hp) end.
  - apply list.Forall_app. by rw list.Forall_singleton.
  - match goal with H : Forall plain (_ :: _) |- _ => by apply list.Forall_cons in H as [_ ?] end.
  - match goal with H : Forall plain (_ :: _) |- _ => by apply list.Forall_cons in H as [? _] end.
  - split; [done|by exists []].
  - destruct Hp as [? [gs ->]]. split; [done|]. exists (gs ++ [c]). by rw -app_assoc.
Qed.

(** ** The user's world

    The calls of some callbacks with a task's payload; all that the pool's
    callbacks make of a list of tasks. *)
Definition calls (gs : list (Callback (T := T) (W := W))) t (w : W) : W :=
  foldl (λ w g, after (g (payload t)) w) w gs.
Definition answer (w : W) (hist : list (TaskItem (T := T) (W := W))) : W :=
  foldl (λ w t, calls cbs t w) w hist.

(** A task all callbacks have been called with, and that is not finished. *)
Definition called (pc : wpc (T := T) (W := W)) : list (TaskItem (T := T) (W := W)) :=
  match pc with WWrap t _ => [t] | _ => [] end.

Definition not_calling (pc : wpc (T := T) (W := W)) : Prop :=
  match pc with WGlobal _ _ => False | _ => True end.

(** Whoever is calling has [cb_mu_], and has made the first of the calls. *)
Definition in_turn (w : W) (hist : list (TaskItem (T := T) (W := W))) s : Prop :=
  (Forall not_calling (workers_ s) → user s = answer w hist)
  ∧ ∀ i t rest, workers_ s !! i = Some (WGlobal t rest) →
      cb_mu_ s = Some i ∧ ∃ gs, cbs = gs ++ rest ∧ user s = calls gs t (answer w hist).

Lemma in_turn_at w hist s s' i pc0 pc :
  in_turn w hist s → cb_mu_ s' = cb_mu_ s → user s' = user s →
  workers_ s !! i = Some pc0 → workers_ s' = <[i := pc]> (workers_ s) →
  not_calling pc0 → not_calling pc → in_turn w hist s'.
Proof.
  intros [Hfree Hheld] Hl Hu Hi Hws Hpc0 Hpc. rw /in_turn Hl Hu Hws. split.
  - intros Hn. apply Hfree. rw -(list_insert_id _ _ _ Hi) -(list_insert_insert_eq _ i pc0 pc).
    by apply Forall_insert.
  - intros j t rest Hj. destruct (decide (i = j)) as [->|Hne].
    + rw list_lookup_insert_Some in Hj. by destruct Hj as [(_ & -> & _)|[? _]].
    + rw list_lookup_insert_ne // in Hj. by apply Hheld.
Qed.

Lemma in_turn_wake w hist s s' :
  in_turn w hist s → cb_mu_ s' = cb_mu_ s → user s' = user s →
  workers_ s' = wake <$> workers_ s → in_turn w hist s'.
Proof.
  intros [Hfree Hheld] Hl Hu Hws. rw /in_turn Hl Hu Hws. split.
  - rw Forall_fmap. intros Hn. apply Hfree. eapply Forall_impl; [|exact Hn]. by intros [].
  - intros j t rest. rw list_lookup_fmap_Some. intros (pc & Hpc & Hj). apply Hheld.
    by destruct pc; simplify_eq/=.
Qed.

Lemma in_turn_calls w hist s s' i pc0 t gs rest :
  (∀ j t rest, workers_ s !! j = Some (WGlobal t rest) → i = j) → workers_ s !! i = Some pc0 →
  cbs = gs ++ rest → user s' = calls gs t (answer w hist) → cb_mu_ s' = Some i →
  workers_ s' = <[i := WGlobal t rest]> (workers_ s) → in_turn w hist s'.
Proof.
  intros Honly Hi Hgs Hu Hl Hws. apply lookup_lt_Some in Hi. rw /in_turn Hl Hws. split.
  - intros Hn. by destruct (proj1 (list.Forall_lookup _ _) Hn i _ (list_lookup_insert_eq _ _ _ Hi)).
  - intros j t' rest' Hj. destruct (decide (i = j)) as [<-|Hne].
    + rw list_lookup_insert_Some in Hj. destruct Hj as [(_ & Heq & _)|[? _]]; [|done].
      injection Heq as <- <-. by split; [|exists gs].
    + rw list_lookup_insert_ne // in Hj. by apply Honly in Hj.
Qed.

(** A step ends the calls of at most one task. *)
Lemma pool_step_in_turn n m w hist s l s' :
  serving n m l → serves s → (m = FIFO → in_line (bag s)) → in_turn w hist s →
  pool_step s l = Next s' → ∃ ts, done_more called m ts s s' ∧ in_turn w (hist ++ ts) s'.
Proof.
  intros Hl [Hcb Hfin Hq Hw Hsub] Hline Ht Hs.
  destruct l as [c t|c|c r|i now|i|now|cfg|fn|cb|cb|]; try done; pool_cases Hs; try congruence.
  all: try (exists []; rw app_nil_r; split; [by apply done_same|done]).
  all: try (exists []; rw app_nil_r; split;
    [apply done_same; [done|by apply done_wakes; intros []]|by apply (in_turn_wake _ _ s)]).
  all: try match goal with Hi : workers_ _ !! ?i = Some ?pc |- context [at_worker ?i ?pc'] =>
    exists []; rw app_nil_r; split;
    [by apply done_same; [done|apply (done_at _ i pc)]|by apply (in_turn_at _ _ s _ i pc pc')] end.
  all: pose proof Ht as [Hfree Hheld].
  - exists []. rw app_nil_r. split.
    { apply done_same; [done|]. by apply (done_at _ i (WCbLock t)). }
    apply (in_turn_calls _ _ s _ i (WCbLock t) t [] (global_callbacks_ s)); [|done..| |done|done].
    + intros j t' rest [Hj _]%Hheld. congruence.
    + apply Hfree, list.Forall_lookup. intros j pc Hj. destruct pc; try done.
      apply Hheld in Hj as [Hj _]. congruence.
  - exists [t]. destruct (Hheld _ _ _ H0) as [Hl0 (gs & Hgs & Hu)]. split.
    { by apply (done_call called m s _ i (WGlobal t []) (WWrap t (wrappers t)) t). }
    rw app_nil_r in Hgs. split; [intros _; by rw /= Hu /answer foldl_app /= -Hgs|].
    intros j t' rest Hj. exfalso. rw /= list_lookup_insert_Some in Hj.
    destruct Hj as [(_ & ? & _)|[Hne [Hj _]%Hheld]]; [done|congruence].
  - exists []. rw app_nil_r. destruct (Hheld _ _ _ H0) as [Hl0 (gs & Hgs & Hu)]. split.
    { apply done_same; [done|]. by apply (done_at _ i (WGlobal t (c :: l))). }
    apply (in_turn_calls _ _ s _ i (WGlobal t (c :: l)) t (gs ++ [c]) l); [|done|by rw -app_assoc| |done..].
    + intros j t' rest [Hj _]%Hheld. congruence.
    + by rw /calls foldl_app /= Hu.
  - exists []. rw app_nil_r. split.
    { by apply (done_finish called m s _ i (WWrap t []) WDrops t). }
    by apply (in_turn_at _ _ s _ i (WWrap t []) WDrops).
  - pose proof (proj1 (list.Forall_lookup _ _) Hw _ _ H0) as [_ ?]. done.
Qed.

(** ** Runs *)
Record answers (n : nat) (m : ScheduleMode) (w : W) (hist : list (TaskItem (T := T) (W := W))) s
    : Prop := {
  answers_pool : pool_ok n m s;
  answers_line : m = FIFO → in_line (bag s);
  answers_serves : serves s;
  answers_turn : in_turn w hist s;
  answers_done : hist ≡ₚ done_tasks called s;
  answers_first : m = FIFO → hist = first_done called s
}.

Lemma pool_step_answers n m w hist s l s' :
  0 < n → serving n m l → pool_step s l = Next s' → answers n m w hist s →
  ∃ hist', answers n m w hist' s'.
Proof.
  intros Hn Hl Hs [Hp Hline Hsv Ht Hd Hf].
  destruct (pool_step_in_turn n m w hist s l s' Hl Hsv Hline Ht Hs) as (ts & [Hr Hrf] & Ht').
  exists (hist ++ ts). split; [| | |done| |].
  - eapply pool_step_ok; [done|by apply serving_ok|done..].
  - intros Hm. destruct (pool_step_bag _ _ _ _ _ (ok_shape _ _ _ Hp) Hs) as [->|Hb]; [by apply Hline|].
    rw Hm in Hb. by eapply bag_step_in_line; [|apply Hline].
  - by eapply pool_step_serves.
  - by rw Hr Hd.
  - intros Hm. by rw (Hrf Hm) (Hf Hm).
Qed.

Lemma pool_run_answers n m w ls : ∀ hist s s',
  0 < n → Forall (serving n m) ls → pool_run s ls = Next s' → answers n m w hist s →
  ∃ hist', answers n m w hist' s'.
Proof.
  induction ls as [|l ls IH]; intros hist s s' Hn Hok Hrun H0; simplify_eq/=; [by exists hist|].
  apply list.Forall_cons in Hok as [Hl Hok]. apply and_then_Next in Hrun as (s1 & Hs & Hrun).
  destruct (pool_step_answers n m w hist s l s1 Hn Hl Hs H0) as [hist1 H1].
  exact (IH hist1 s1 s' Hn Hok Hrun H1).
Qed.

(** The callbacks are registered before anything is submitted. *)
Definition registered hw cfg now k (w : W) s : Prop :=
  ∃ s0, TaskMultiProcessor hw cfg now k w = Next s0
    ∧ pool_run s0 (LRegisterCallback <$> cbs) = Next s.

Lemma register_all (gs : list (Callback (T := T) (W := W))) s s' :
  pool_run s (LRegisterCallback <$> gs) = Next s' →
  s' = set_global_callbacks (global_callbacks_ s ++ gs) s.
Proof.
  induction gs as [|g gs IH] in s |- *; rw /=.
  { intros [= <-]. rw app_nil_r. by destruct s. }
  intros (s1 & Hs & Hrun)%and_then_Next. pool_cases Hs. apply IH in Hrun as ->.
  by rw /= -app_assoc.
Qed.

Lemma answers_new hw cfg now k w s :
  setup_ok cfg → registered hw cfg now k w s →
  answers (num_threads cfg) (mode cfg) w [] s
  ∧ cfg_ s = cfg ∧ pushed s = [] ∧ submitters s = replicate k SIdle.
Proof.
  intros Hsetup (s0 & Hnew & Hreg).
  pose proof (pool_ok_new _ _ _ _ _ _ Hsetup Hnew) as Hp.
  pose proof (proj2 (bag_new _ _ _ _ _ _ Hnew)) as Hline.
  assert (Hok : pool_ok (num_threads cfg) (mode cfg) s).
  { eapply pool_run_ok; [by apply some_threads| |exact Hreg|done].
    apply list.Forall_forall. intros l (g & -> & _)%list_elem_of_fmap. done. }
  apply register_all in Hreg as ->. apply constructed in Hnew as [b ->].
  split; [|done]. split; [done|done| | | |].
  - split; cbn; try done; apply Forall_replicate; [constructor|done..].
  - split; [done|]. intros i t rest. by intros [? _]%lookup_replicate.
  - by rw /done_tasks /= fmap_replicate concat_nils.
  - intros _. rw /first_done /=. by destruct (num_threads cfg).
Qed.

(** Nothing moves any more, and the pool is not shutting down. *)
Record at_rest s : Prop := {
  rest_running : running_ s = true;
  rest_submitters : Forall (eq SIdle) (submitters s);
  rest_workers : Forall (eq WAsleep) (workers_ s)
}.

Lemma rest_nothing {A} (f : wpc (T := T) (W := W) → list A) (ws : list (wpc (T := T) (W := W))) :
  f WAsleep = [] → Forall (eq WAsleep) ws → concat (f <$> ws) = [].
Proof. intros Hf Hws. induction Hws as [|pc ws <- _ IH]; [done|]. by rw /= Hf. Qed.

Lemma rest_carrying s : at_rest s → carrying s = [].
Proof.
  intros [_ Hidle _]. rw /carrying. induction Hidle as [|pc ss <- _ IH]; [done|exact IH].
Qed.

(** A pool at rest has called and dropped every task pushed, in order in FIFO mode. *)
Lemma rest_done n m (f : wpc (T := T) (W := W) → list (TaskItem (T := T) (W := W))) s :
  0 < n → pool_ok n m s → at_rest s → (Z.of_nat (length (pushed s)) < 2 ^ 64)%Z → f WAsleep = [] →
  done_tasks f s ≡ₚ (pushed s).*2 ∧ (in_line (bag s) → first_done f s = (pushed s).*2).
Proof.
  intros Hn Hp [Hr Hidle Hasleep] Hb Hnil.
  destruct (asleep_drained _ _ s Hn Hp Hr Hb Hidle Hasleep) as [Hq Hfin]. split.
  - by rw /done_tasks (rest_nothing f) // app_nil_r.
  - intros [HP _ HK _ _]. cbn in HP, HK.
    rw HP HK /first_done !list_lookup_fmap -app_assoc. f_equal.
    assert (default [] (queues_ s !! 0) = []) as ->.
    { by destruct (queues_ s) as [|q Q]; [|apply app_eq_nil in Hq as [-> _]]. }
    rw app_nil_r. destruct (workers_ s !! 0) as [pc|] eqn:Hpc; [|done].
    by rw -(proj1 (list.Forall_lookup _ _) Hasleep 0 pc Hpc).
Qed.

Lemma answers_at_rest n m w hist s :
  0 < n → answers n m w hist s → at_rest s → (Z.of_nat (length (pushed s)) < 2 ^ 64)%Z →
  user s = answer w hist ∧ hist ≡ₚ (pushed s).*2 ∧ (m = FIFO → hist = (pushed s).*2).
Proof.
  intros Hn [Hp Hline Hsv [Hfree Hheld] Hd Hf] Hrest Hb.
  destruct (rest_done n m called s Hn Hp Hrest Hb eq_refl) as [Hall Hfirst]. split_and!.
  - apply Hfree. eapply Forall_impl; [|exact (rest_workers s Hrest)]. by intros pc <-.
  - by rw Hd.
  - intros Hm. rw (Hf Hm). by apply Hfirst, Hline.
Qed.

(** C4: what is submitted is answered: in every interleaving of submitting threads
    and workers, once a pool of running workers is at rest (no submission in
    progress, every worker asleep), the user's world is what the registered
    callbacks make of some sequence of tasks, called one task at a time and in
    the order of registration, an exception of one not keeping the next from
    being called; the sequence is, up to order, everything that was submitted and
    not refused; in FIFO mode it is the order in which the tasks were pushed, and
    when a single thread submits, the order in which it submitted them. *)
Theorem pool_answers_submissions hw cfg now k w s0 ls s :
  setup_ok cfg → registered hw cfg now k w s0 →
  Forall (serving (num_threads cfg) (mode cfg)) ls → pool_run s0 ls = Next s →
  at_rest s → (Z.of_nat (length (pushed s)) < 2 ^ 64)%Z →
  ∃ hist, user s = answer w hist ∧ submitted ls ≡ₚ hist ++ refused s0 ls
    ∧ (mode cfg = FIFO → hist = (pushed s).*2)
    ∧ (mode cfg = FIFO → k = 1 → hist `sublist_of` submitted ls).
Proof.
  intros Hsetup Hreg Hok Hrun Hrest Hb. pose proof (some_threads _ Hsetup) as Hn.
  destruct (answers_new hw cfg now k w s0 Hsetup Hreg) as (H0 & _ & Hp0 & Hs0).
  destruct (pool_run_answers _ _ _ _ _ _ _ Hn Hok Hrun H0) as [hist Hans].
  destruct (answers_at_rest _ _ _ _ _ Hn Hans Hrest Hb) as (Hu & Hd & Hfifo).
  assert (Hcarry0 : carrying s0 = []) by by rw /carrying Hs0 fmap_replicate concat_nils.
  pose proof (pool_run_submissions ls s0 s Hrun) as Hsub.
  pose proof (pool_run_order ls s0 s) as Hord.
  rw (rest_carrying s Hrest) Hcarry0 Hp0 ?app_nil_r /= in Hsub Hord.
  exists hist. split_and!; [done|by rw -Hsub Hd|done|].
  intros Hm ->. rw (Hfifo Hm). apply Hord; [by rw Hs0|done].
Qed.

(** With room for all of them, and a random device that works, everything a
    single thread submits is answered. *)
Lemma answers_everything hw cfg now w s0 ls s :
  setup_ok cfg → registered hw cfg now 1 w s0 →
  Forall (serving (num_threads cfg) (mode cfg)) ls → Forall steady ls →
  roomy cfg (length (submitted ls)) → (Z.of_nat (length (submitted ls)) < 2 ^ 64)%Z →
  pool_run s0 ls = Next s → at_rest s →
  ∃ hist, answers (num_threads cfg) (mode cfg) w hist s ∧ user s = answer w hist
    ∧ submitted ls ≡ₚ hist ∧ (mode cfg = FIFO → hist = submitted ls)
    ∧ (pushed s).*2 = submitted ls.
Proof.
  intros Hsetup Hreg Hok Hst Hroom Hb Hrun Hrest. pose proof (some_threads _ Hsetup) as Hn.
  destruct (answers_new hw cfg now 1 w s0 Hsetup Hreg) as (H0 & Hcfg & Hp0 & Hs0).
  destruct (pool_run_answers _ _ _ _ _ _ _ Hn Hok Hrun H0) as [hist Hans].
  pose proof (pool_run_order ls s0 s) as Hord. pose proof (pool_run_submissions ls s0 s Hrun) as Hsub.
  rw (pool_run_accepts _ _ ls s0 s Hn (answers_pool _ _ _ _ _ H0) _ Hst _ Hrun) in Hsub.
  { by rw Hs0. }
  { by rw Hcfg Hp0 /carrying Hs0. }
  rw (rest_carrying s Hrest) Hp0 ?/carrying Hs0 ?app_nil_r /= in Hsub Hord.
  specialize (Hord eq_refl Hrun).
  assert (Heq : (pushed s).*2 = submitted ls).
  { apply sublist_all; [done|]. by rw -(Permutation_length Hsub). }
  destruct (answers_at_rest _ _ _ _ _ Hn Hans Hrest) as (Hu & Hd & Hfifo).
  { by rw -(length_fmap snd) Heq. }
  exists hist. by rw -Heq.
Qed.
End Callbacks.

(** ** Witness: two callbacks, the first of which throws for 7; two tasks, two
    workers. *)
Definition picky (x : nat) : M (list nat) () :=
  if x =? 7 then throw (runtime_error "seven") else modify (λ log, log ++ [100 + x]).

Definition served_pool : Pool (T := nat) (W := list nat) :=
  set_global_callbacks [picky; log_payload] (members (default_cfg 2 FIFO) 0 1 []).

Definition served_labels : list (label (T := nat) (W := list nat)) :=
  LSubmit 0 (Task 7 []) :: replicate 5 (LSubmitter 0) ++ replicate 6 (LWorker 0 0)
  ++ LSubmit 0 (Task 8 []) :: replicate 5 (LSubmitter 0)
  ++ replicate 25 (LWorker 0 0) ++ replicate 5 (LWorker 1 0).

Definition served_end := reached served_pool served_labels.

Lemma pool_answers_submissions_witness :
  (∃ hist, user served_end = answer [picky; log_payload] [] hist
    ∧ submitted served_labels ≡ₚ hist ++ refused served_pool served_labels
    ∧ (mode (default_cfg 2 FIFO) = FIFO → hist = (pushed served_end).*2)
    ∧ (mode (default_cfg 2 FIFO) = FIFO → 1 = 1 → hist `sublist_of` submitted served_labels))
  ∧ user served_end = [7; 108; 8] ∧ refused served_pool served_labels = [].
Proof.
  split; [|by vm_compute].
  apply (pool_answers_submissions [picky; log_payload] 4 (default_cfg 2 FIFO) 0 1 [] served_pool
           served_labels).
  - exact demo_setup.
  - exists (members (default_cfg 2 FIFO) 0 1 []). by split.
  - by repeat (apply list.Forall_cons; split; [done|]).
  - by vm_compute.
  - split; vm_compute; by repeat constructor.
  - by vm_compute.
Defined.
