(* ===== verification/TaskPoolRest.v ===== *)
(** * A worker alone brings its pool to rest

    When no submission is in progress, a pool of one worker comes to rest: each
    step the worker can make brings it nearer, by a measure of the tasks queued,
    the calls left and the way to the next sleep, and it can always make one. *)
From S2P Require Import Prelude TaskPool TaskPoolSpec TaskPoolCounters TaskPoolTheorems TaskPoolSubmit TaskPoolCallbacks.

Section Rest.
Context {T W : Type}.
Implicit Types (s : Pool (T := T) (W := W)) (t : TaskItem (T := T) (W := W)).

(** ** Who holds [cb_mu_]; no worker leaves while the pool is running *)
Definition calling (pc : wpc (T := T) (W := W)) : nat := match pc with WGlobal _ _ => 1 | _ => 0 end.
Definition leaving (pc : wpc (T := T) (W := W)) : nat :=
  match pc with WExit | WStopping | WDone => 1 | _ => 0 end.

Definition held (m : option nat) : nat := match m with Some _ => 1 | None => 0 end.

Definition callback_lock_ok s : Prop := sum_list_with calling (workers_ s) = held (cb_mu_ s).
Definition none_leaves s : Prop := running_ s = true → sum_list_with leaving (workers_ s) = 0.
Definition still_alive s : Prop := running_ s = true → destructor s = DLive.

Lemma calling_wake (pc : wpc (T := T) (W := W)) : calling (wake pc) = calling pc.
Proof. by destruct pc. Qed.
Lemma leaving_wake (pc : wpc (T := T) (W := W)) : leaving (wake pc) = leaving pc.
Proof. by destruct pc. Qed.

Lemma pool_step_callback_lock s l s' :
  pool_step s l = Next s' → callback_lock_ok s → callback_lock_ok s'.
Proof.
  rw /callback_lock_ok. intros Hs Hc.
  destruct l as [c t|c|c r|i now|i|now|cfg|fn|cb|cb|]; pool_cases Hs;
    rw ?(sum_wake calling) //; try exact calling_wake;
    try match goal with H : workers_ s !! ?i = Some ?pc |- context [<[?i := ?pc']> _] =>
          pose proof (sum_list_with_insert calling _ _ _ pc' H);
          pose proof (sum_list_with_elem calling _ _ _ H) end;
    try match goal with H : cb_mu_ s = _ |- _ => rw H in Hc end;
    destruct (cb_mu_ s); simplify_eq/=; lia.
Qed.

Lemma pool_step_none_leaves s l s' : pool_step s l = Next s' → none_leaves s → none_leaves s'.
Proof.
  rw /none_leaves. intros Hs Hl.
  destruct l as [c t|c|c r|i now|i|now|cfg|fn|cb|cb|]; pool_cases Hs;
    rw ?(sum_wake leaving) //; try exact leaving_wake;
    try match goal with H : workers_ s !! ?i = Some ?pc |- context [<[?i := ?pc']> _] =>
          pose proof (sum_list_with_insert leaving _ _ _ pc' H);
          pose proof (sum_list_with_elem leaving _ _ _ H) end;
    cbn in *; try done; intros Hr; try congruence; specialize (Hl ltac:(congruence)); lia.
Qed.

Lemma pool_step_alive s l s' : pool_step s l = Next s' → still_alive s → still_alive s'.
Proof.
  rw /still_alive. intros Hs Ha.
  destruct l as [c t|c|c r|i now|i|now|cfg|fn|cb|cb|]; pool_cases Hs; try done;
    intros Hr; try congruence; specialize (Ha ltac:(congruence)); congruence.
Qed.

(** ** The measure

    How far a worker is from its next sleep, at most: [g] callbacks are
    registered, the pool has [n] workers; [busy]: its queue is not empty, so that
    it has to come round to it again. *)
Definition stage (g n : nat) (busy : bool) (pc : wpc (T := T) (W := W)) : nat :=
  let round := if busy then 9 + n else 0 in
  match pc with
  | WSub t => 24 + n + g + length (wrappers t)
  | WProcessed t => 23 + n + g + length (wrappers t)
  | WCbLock t => 22 + n + g + length (wrappers t)
  | WGlobal t rest => 21 + n + length rest + length (wrappers t)
  | WWrap t rest => 20 + n + length rest
  | WOwn => 13 + n
  | WSizes sizes => 12 + (n - length sizes) + round
  | WSteal _ => 11 + round
  | WDrops => 10 + round
  | WNotify _ => 9 + round
  | WTop => 8 + round
  | WLock | WWoken => 7 + round
  | WCheckRunning => 6 + round
  | WCheckTasks => 5 + round
  | WWait => 4
  | WAsleep | WExit | WStopping | WDone => 0
  end.

Definition task_cost (g n : nat) t : nat := 25 + n + g + length (wrappers t).

Definition to_sleep (g : nat) (q : list (TaskItem (T := T) (W := W))) (pc : wpc (T := T) (W := W)) : nat :=
  sum_list_with (task_cost g 1) q + stage g 1 (negb (bool_decide (q = []))) pc.

Definition steps_left s : nat :=
  let g := length (global_callbacks_ s) in
  sum_list_with (task_cost g 1) (concat (queues_ s))
  + sum_list_with (stage g 1 (negb (bool_decide (concat (queues_ s) = [])))) (workers_ s).

Lemma steps_left_one s pc q :
  workers_ s = [pc] → queues_ s = [q] → steps_left s = to_sleep (length (global_callbacks_ s)) q pc.
Proof. intros Hw Hq. by rw /steps_left Hw Hq /= app_nil_r /to_sleep Nat.add_0_r. Qed.

(** Steps of the threads that are in the pool, without new calls. *)
Definition unprompted (l : label (T := T) (W := W)) : Prop :=
  match l with LSubmitter _ | LBackoff _ _ | LWorker _ _ => True | _ => False end.

(** ** What the workers call

    What is left alone by the threads in the pool, and keeps the calls the workers
    make from being undefined. *)
Class Callable (J : Pool (T := T) (W := W) → Prop) : Prop := {
  callable_step s l s' : unprompted l → pool_step s l = Next s' → J s → J s';
  callable_defined s i t g rest u :
    J s → workers_ s !! i = Some (WGlobal t (g :: rest)) ∨ workers_ s !! i = Some (WWrap t (g :: rest)) →
    g (payload t) (user s) ≠ Undef u
}.

(** Callbacks without undefined behaviour of their own. *)
Definition defined (g : T → M W ()) : Prop := ∀ x w, if g x w is Undef _ then False else True.

Lemma serves_callable cbs : Forall defined cbs → Callable (serves cbs).
Proof.
  intros Hdef. split.
  - intros s l s' Hl. apply (pool_step_serves cbs 0 FIFO). by destruct l.
  - intros s i t g rest u [_ _ _ Hw _] Hi Hu. destruct Hi as [Hi|Hi];
      pose proof (proj1 (list.Forall_lookup _ _) Hw _ _ Hi) as Hp; cbn in Hp; destruct Hp as [_ Hp]; [|done].
    destruct Hp as [gs ->]. apply list.Forall_app in Hdef as [_ Hg]. apply list.Forall_cons in Hg as [Hg _].
    specialize (Hg (payload t) (user s)). by rw Hu in Hg.
Qed.

Section Quiet.
Context (J : Pool (T := T) (W := W) → Prop) `{HJ : !Callable J}.

Lemma call_next s i t g rest :
  J s → workers_ s !! i = Some (WGlobal t (g :: rest)) ∨ workers_ s !! i = Some (WWrap t (g :: rest)) →
  call_swallowed (g (payload t)) s = Next (set_user (after (g (payload t)) (user s)) s).
Proof.
  intros Hs Hi. pose proof (λ u, callable_defined s i t g rest u Hs Hi) as Hu.
  rw /call_swallowed /after. destruct (g (payload t) (user s)); [done|done|by destruct (Hu u)].
Qed.

(** A running pool of [n] workers, with nobody in [SubmitImpl]. *)
Record quiet (n : nat) (m : ScheduleMode) s : Prop := {
  quiet_ok : pool_ok n m s;
  quiet_calls : J s;
  quiet_lock : callback_lock_ok s;
  quiet_stays : none_leaves s;
  quiet_alive : still_alive s;
  quiet_running : running_ s = true;
  quiet_idle : Forall (eq SIdle) (submitters s);
  quiet_pushed : (Z.of_nat (length (pushed s)) < 2 ^ 64)%Z
}.

(** It counts its tasks right, and nobody dozes with a task in a queue. *)
Lemma quiet_counter n m s :
  quiet n m s → tasks_in_queue_ s = (Z.of_nat (in_queues s) + Z.of_nat (in_pop s))%Z
    ∧ (sum_list_with dozing (workers_ s) = 0 ∨ tasks_in_queue_ s = 0%Z).
Proof.
  intros [Hp _ _ _ _ Hr Hidle Hb].
  pose proof (length_bag_queues s (ok_conserved _ _ _ Hp)) as Hlen.
  assert (Hs : ∀ f : spc (T := T) (W := W) → nat, f SIdle = 0 → sum_list_with f (submitters s) = 0).
  { intros f Hf. clear -Hidle Hf. induction Hidle as [|pc ss <- _ IH]; [done|]. by rw /= Hf IH. }
  split.
  - rw (ok_counters _ _ _ Hp) /tasks_counted /in_count (Hs counting) // Z.sub_0_r.
    apply u64_small. rw /is_u64. lia.
  - destruct (ok_sleepers _ _ _ Hp Hb Hr) as [?|[?|Hsig]]; [by left|by right|].
    rw (Hs signalling) // in Hsig. lia.
Qed.

(** A worker's step leaves the rest of the pool alone. *)
Lemma worker_step_frame i now s s' :
  pool_step s (LWorker i now) = Next s' →
  running_ s' = running_ s ∧ submitters s' = submitters s ∧ pushed s' = pushed s
  ∧ global_callbacks_ s' = global_callbacks_ s.
Proof. intros Hs. pool_cases Hs; done. Qed.

Lemma quiet_step n m i now s s' :
  0 < n → quiet n m s → pool_step s (LWorker i now) = Next s' →
  quiet n m s' ∧ pushed s' = pushed s.
Proof.
  intros Hn [Hok Hsv Hl Hle Ha Hrun Hidle Hb] Hs.
  destruct (worker_step_frame i now s s' Hs) as (Hr & Hsub & Hp & _). split; [|done].
  split; [| | | | |by rw Hr|by rw Hsub|by rw Hp].
  - exact (pool_step_ok n m s (LWorker i now) s' Hn I Hs Hok).
  - by apply (callable_step s (LWorker i now)).
  - by eapply pool_step_callback_lock.
  - by eapply pool_step_none_leaves.
  - by eapply pool_step_alive.
Qed.

(** ** One worker *)

(** [closer pc q]: the step leads to this program counter and queue, and nearer
    to sleep. *)
Tactic Notation "closer" uconstr(pc) uconstr(q) :=
  eexists; split; [reflexivity|];
  refine (eq_ind_r (λ n, n < _) _ (steps_left_one _ pc q _ _)); rw /to_sleep; cbn;
  repeat match goal with H : queues_ _ = _ |- _ => rw H | H : workers_ _ = _ |- _ => rw H end;
  cbn; repeat case_bool_decide; simplify_eq/=; rw ?sum_list_with_app ?length_app /=;
  try (rw /task_cost; lia); try done.

Lemma one_progress m now s :
  quiet 1 m s → workers_ s ≠ [WAsleep] →
  ∃ s', pool_step s (LWorker 0 now) = Next s' ∧ steps_left s' < steps_left s.
Proof.
  intros Hone Hawake. pose proof (quiet_counter 1 m s Hone) as [Hc Hdoze].
  destruct Hone as [[[[Hcn Hcm] Hpol Hlq Hlw _ Hpc] _ _ Hm _] Hcalls Hl Hle Ha Hr _ _].
  specialize (Hle Hr). specialize (Ha Hr).
  rw /callback_lock_ok in Hl. rw /mutex_ok in Hm. rw /in_queues /in_pop in Hc.
  destruct (workers_ s) as [|pc [|? ?]] eqn:Hws; try done.
  destruct (queues_ s) as [|q [|? ?]] eqn:Hqs; try done.
  apply list.Forall_cons in Hpc as [Hpc _].
  rw (steps_left_one s pc q) // /pool_step /gone Ha /ProcessLoop_step Hws /=.
  destruct pc as [| | | | | | | |sizes|vic|t|t|t|t rest|t rest| |d| | |]; cbn in Hle, Hl, Hm, Hc, Hdoze;
    try lia; try (by destruct Hawake).
  - rw Hr. closer WLock q.
  - rw /acquire_mutex. destruct (mutex_ s); [lia|]. closer WCheckRunning q.
  - rw Hr. closer WCheckTasks q.
  - destruct (Z.eqb_spec (tasks_in_queue_ s) 0); [closer WWait q|]. destruct q as [|t q]; [cbn in Hc; lia|].
    closer WOwn (t :: q).
  - closer WAsleep q.
  - rw /acquire_mutex. destruct (mutex_ s); [lia|]. closer WCheckRunning q.
  - rw /pop_own Hqs /=. destruct q as [|t q]; [|closer (WSub t) q].
    destruct (decide _); [closer (WSizes []) []|closer WDrops []].
  - rw Hcn Hqs. destruct sizes as [|n [|? ?]]; cbn in Hpc; [|closer (WSteal (steal_policy_ s [n])) q|lia].
    closer (WSizes [length q]) q.
  - rw /steal_from Hqs. destruct Hpc as [_ Hvic]. destruct vic as [|vic]; [|lia]. cbn.
    destruct (list.last q) as [t|] eqn:Hlast.
    + apply last_Some in Hlast as [q' ->]. rw removelast_last. closer (WSub t) q'.
    + apply last_None in Hlast as ->. closer WDrops [].
  - closer (WProcessed t) q.
  - closer (WCbLock t) q.
  - destruct (cb_mu_ s); [done|]. closer (WGlobal t (global_callbacks_ s)) q.
  - destruct rest as [|g rest]; [closer (WWrap t (wrappers t)) q|].
    rw (call_next s 0 t g rest Hcalls); [by left; rw Hws|]. cbn. closer (WGlobal t rest) q.
  - destruct rest as [|g rest]; [closer WDrops q|].
    rw (call_next s 0 t g rest Hcalls); [by right; rw Hws|]. cbn. closer (WWrap t rest) q.
  - destruct (dropped_count_ s =? 0)%Z; [closer WTop q|closer (WNotify (dropped_count_ s)) q].
  - destruct (_ <=? _)%Z; closer WTop q.
Qed.

Lemma asleep_or_not (ws : list (wpc (T := T) (W := W))) : ws = [WAsleep] ∨ ws ≠ [WAsleep].
Proof. destruct ws as [|pc [|? ?]]; [by right| |by right]. destruct pc; first [by left|by right]. Qed.

Lemma one_rests m now s :
  quiet 1 m s → ∃ n s', n ≤ steps_left s ∧ pool_run s (replicate n (LWorker 0 now)) = Next s'
    ∧ at_rest s' ∧ pushed s' = pushed s.
Proof.
  remember (steps_left s) as fuel eqn:Hf. assert (Hle : steps_left s ≤ fuel) by lia. clear Hf.
  revert s Hle. induction fuel as [|fuel IH]; intros s Hle Hone;
    (destruct (asleep_or_not (workers_ s)) as [Hws|Hws];
     [exists 0, s; split_and!; [lia|done| |done]; destruct Hone; split; [done|done|];
      rw Hws; by repeat constructor|]);
    destruct (one_progress m now s Hone Hws) as (s1 & Hs & Hlt); [lia|].
  destruct (quiet_step 1 m 0 now s s1 Nat.lt_0_1 Hone Hs) as [Hone1 Hp].
  destruct (IH s1 ltac:(lia) Hone1) as (n & s' & Hn & Hrun & Hrest & Hp').
  exists (S n), s'. split_and!; [lia| |done|congruence]. by rw /= Hs.
Qed.

End Quiet.

(** ** From construction on *)
Context (cbs : list (T → M W ())) (Hdefined : Forall defined cbs).

Record steady_workers s : Prop := {
  steady_lock : callback_lock_ok s;
  steady_none_leaves : none_leaves s;
  steady_alive : still_alive s
}.

Lemma pool_run_steady ls s s' : pool_run s ls = Next s' → steady_workers s → steady_workers s'.
Proof.
  intros Hrun H0. refine (pool_run_invariant steady_workers (λ _, True) _ ls s s' _ H0 Hrun).
  - intros s1 l s2 _ [] Hs. split.
    + by eapply pool_step_callback_lock.
    + by eapply pool_step_none_leaves.
    + by eapply pool_step_alive.
  - by apply list.Forall_forall.
Qed.

Lemma steady_new hw cfg now k w s : registered cbs hw cfg now k w s → steady_workers s.
Proof.
  intros (s0 & Hnew & Hreg). apply register_all in Hreg as ->. apply constructed in Hnew as [b ->].
  split; [|intros _|done]; rw /callback_lock_ok /=; by rw sum_replicate_zero.
Qed.

(** A run that ends with nobody in [SubmitImpl] leaves a quiet pool. *)
Lemma quiet_reached hw cfg now k w s0 ls s :
  setup_ok cfg → registered cbs hw cfg now k w s0 →
  Forall (serving (num_threads cfg) (mode cfg)) ls → pool_run s0 ls = Next s → running_ s = true →
  Forall (eq SIdle) (submitters s) → (Z.of_nat (length (pushed s)) < 2 ^ 64)%Z →
  quiet (serves cbs) (num_threads cfg) (mode cfg) s.
Proof.
  intros Hsetup Hreg Hok Hrun Hr Hidle Hb.
  destruct (answers_new cbs hw cfg now k w s0 Hsetup Hreg) as (H0 & _).
  destruct (pool_run_answers cbs _ _ _ _ _ _ _ (some_threads _ Hsetup) Hok Hrun H0) as [hist []].
  by destruct (pool_run_steady ls s0 s Hrun (steady_new _ _ _ _ _ _ Hreg)).
Qed.

(** What the callbacks have done when the pool has come to rest by more steps [ks]
    of which none pushes a task. *)
Lemma answered_at_rest hw cfg now k w s0 ls s ks s' :
  setup_ok cfg → registered cbs hw cfg now k w s0 →
  Forall (serving (num_threads cfg) (mode cfg)) ls → pool_run s0 ls = Next s →
  Forall (eq SIdle) (submitters s) → (Z.of_nat (length (pushed s)) < 2 ^ 64)%Z →
  Forall (serving (num_threads cfg) (mode cfg)) ks → pool_run s ks = Next s' →
  at_rest s' → pushed s' = pushed s →
  ∃ hist, user s' = answer cbs w hist ∧ submitted ls ≡ₚ hist ++ refused s0 ls
    ∧ (mode cfg = FIFO → hist = (pushed s).*2).
Proof.
  intros Hsetup Hreg Hok Hrun Hidle Hb Hks Hrun' Hrest Hp.
  pose proof (some_threads _ Hsetup) as Hn.
  destruct (answers_new cbs hw cfg now k w s0 Hsetup Hreg) as (H0 & _ & Hp0 & Hs0).
  destruct (pool_run_answers cbs _ _ _ _ _ _ _ Hn Hok Hrun H0) as [hist Hans].
  destruct (pool_run_answers cbs _ _ _ _ _ _ _ Hn Hks Hrun' Hans) as [hist' Hans'].
  destruct (answers_at_rest cbs _ _ _ _ _ Hn Hans' Hrest) as (Hu & Hd & Hfifo); [by rw Hp|].
  pose proof (pool_run_submissions ls s0 s Hrun) as Hsub.
  rw /carrying Hs0 fmap_replicate concat_nils Hp0 /= in Hsub.
  exists hist'. split_and!; [done| |by rw -Hp].
  rw -Hsub Hd Hp. assert (concat (carried <$> submitters s) = []) as ->; [|done].
  clear -Hidle. induction Hidle as [|pc ss <- _ IH]; [done|exact IH].
Qed.

(** A pool of one worker answers everything and comes to rest: after any
    interleaving of submitting threads and the worker, when no submission is in
    progress and the callbacks have no undefined behaviour of their own, the worker,
    running by itself, goes to sleep after at most [steps_left] steps (counted
    from the tasks queued, the callbacks and where the worker is), never blocked on
    the way; and then the user's world is what the callbacks make, one task at a time,
    of everything that was submitted and not refused, in the order of the
    pushes in FIFO mode. *)
Theorem one_worker_answers hw cfg now k w s0 ls s now' :
  setup_ok cfg → num_threads cfg = 1 → registered cbs hw cfg now k w s0 →
  Forall (serving 1 (mode cfg)) ls → pool_run s0 ls = Next s → running_ s = true →
  Forall (eq SIdle) (submitters s) → (Z.of_nat (length (pushed s)) < 2 ^ 64)%Z →
  ∃ n s' hist, n ≤ steps_left s ∧ pool_run s (replicate n (LWorker 0 now')) = Next s'
    ∧ at_rest s' ∧ user s' = answer cbs w hist ∧ submitted ls ≡ₚ hist ++ refused s0 ls
    ∧ (mode cfg = FIFO → hist = (pushed s).*2).
Proof.
  intros Hsetup Hone Hreg Hok Hrun Hr Hidle Hb. rw -Hone in Hok.
  pose proof (quiet_reached _ _ _ _ _ _ _ _ Hsetup Hreg Hok Hrun Hr Hidle Hb) as Hq. rw Hone in Hq.
  pose proof (serves_callable cbs Hdefined) as Hcalls.
  destruct (one_rests (serves cbs) (mode cfg) now' s Hq) as (n & s' & Hn & Hrun' & Hrest & Hp).
  destruct (answered_at_rest _ _ _ _ _ _ _ _ _ _ Hsetup Hreg Hok Hrun Hidle Hb
              (Forall_replicate (serving _ _) n (LWorker 0 now') I) Hrun' Hrest Hp) as [hist H].
  by exists n, s', hist.
Qed.
End Rest.

(** ** Witness: a task queued while the worker is between two rounds. *)
Definition lone_cfg : TaskProcessorConfig := default_cfg 1 WorkStealing.

Definition lone_pool : Pool (T := nat) (W := list nat) :=
  set_global_callbacks [picky; log_payload] (members lone_cfg 0 1 []).

Definition lone_labels : list (label (T := nat) (W := list nat)) :=
  LSubmit 0 (Task 7 []) :: replicate 5 (LSubmitter 0) ++ replicate 13 (LWorker 0 0)
  ++ LSubmit 0 (Task 8 []) :: replicate 5 (LSubmitter 0).

Lemma one_worker_answers_witness :
  let s := reached lone_pool lone_labels in
  (∃ n s' hist, n ≤ steps_left s ∧ pool_run s (replicate n (LWorker 0 5)) = Next s'
    ∧ at_rest s' ∧ user s' = answer [picky; log_payload] [] hist
    ∧ submitted lone_labels ≡ₚ hist ++ refused lone_pool lone_labels
    ∧ (mode lone_cfg = FIFO → hist = (pushed s).*2))
  ∧ user s = [7] ∧ workers_ s = [WTop] ∧ queues_ s = [[Task 8 []]] ∧ steps_left s = 46.
Proof.
  cbv zeta. split; [|by vm_compute].
  apply (one_worker_answers [picky; log_payload]) with (hw := 4) (now := 0%Z) (k := 1);
    [|split; [cbn; lia|]|done| | | |by vm_compute..| |by vm_compute].
  - repeat (apply list.Forall_cons; split); [|done|by apply list.Forall_nil].
    intros x w. rw /picky. by destruct (x =? 7).
  - intros sizes Hl. apply DefaultStealPolicy_range; [cbn; lia|done].
  - exists (members lone_cfg 0 1 []). by split.
  - by repeat (apply list.Forall_cons; split; [done|]).
  - by vm_compute.
  - vm_compute. by repeat constructor.
Defined.
