(* ===== verification/TaskPoolSettles.v ===== *)
(** * A pool of any number of workers can come to rest

    With several workers the one that finds no task keeps going round while
    another has one, so no measure goes down with every step.  What goes down is
    the work: the tasks queued and in hand and the way of the workers that have
    some; a worker without work matters only where it holds [mutex_], and then
    until it lets go of it; and when there is no work left, the way of every
    worker to its sleep.  Before that the submissions in progress end, each after
    its own steps and those of whoever holds [mutex_] when it signals.  So from
    every reachable state of a running pool a bounded number of steps of the
    threads that are in it brings it to rest: no lock, no wait and no order of
    submissions keeps it from getting there. *)
From S2P Require Import Prelude TaskPool TaskPoolSpec TaskPoolCounters TaskPoolTheorems TaskPoolSubmit TaskPoolCallbacks TaskPoolRest.

Section Work.
Context {T W : Type}.
Abbreviation task := (TaskItem (T := T) (W := W)).
Abbreviation worker_pc := (wpc (T := T) (W := W)).
Implicit Types (s : Pool (T := T) (W := W)) (t : task) (q : list task) (pc : worker_pc)
  (Q : list (list task)) (P : list worker_pc).

(** A worker with an empty queue and nothing in hand. *)
Definition free q pc : bool := bool_decide (q = []) && bool_decide (hand pc = []).

(** The work of a worker and its queue, and of all of them. *)
Definition load (g n : nat) q pc : nat :=
  sum_list_with (task_cost g n) q
  + if free q pc then 0 else stage g n (negb (bool_decide (q = []))) pc.

Fixpoint loads (g n : nat) Q P : nat :=
  match Q, P with
  | q :: Q, pc :: P => load g n q pc + loads g n Q P
  | _, _ => 0
  end.

Definition work s : nat :=
  loads (length (global_callbacks_ s)) (length (workers_ s)) (queues_ s) (workers_ s).

(** How far a worker is from letting go of [mutex_]. *)
Definition release pc : nat :=
  match pc with WCheckRunning => 3 | WCheckTasks => 2 | WWait => 1 | _ => 0 end.

Definition to_release s : nat := sum_list_with release (workers_ s).
Definition to_doze s : nat := sum_list_with (stage 0 (length (workers_ s)) false) (workers_ s).

(** The number of steps that are enough. *)
Definition distance s : nat :=
  let n := length (workers_ s) in
  S ((13 + n) * n) * work s + if work s =? 0 then to_doze s else to_release s.

Lemma loads_worker g n i q pc pc' : ∀ Q P, Q !! i = Some q → P !! i = Some pc →
  loads g n Q (<[i := pc']> P) + load g n q pc = loads g n Q P + load g n q pc'.
Proof.
  induction i as [|i IH]; intros [|q0 Q] [|pc0 P] HQ HP; simplify_eq/=; [lia|].
  specialize (IH Q P HQ HP). lia.
Qed.

Lemma loads_queue g n i q q' pc : ∀ Q P, Q !! i = Some q → P !! i = Some pc →
  loads g n (<[i := q']> Q) P + load g n q pc = loads g n Q P + load g n q' pc.
Proof.
  induction i as [|i IH]; intros [|q0 Q] [|pc0 P] HQ HP; simplify_eq/=; [lia|].
  specialize (IH Q P HQ HP). lia.
Qed.

(** A task less at either end of a queue is its cost less, whoever took it. *)
Definition one_less q q' t : Prop := q = q' ++ [t] ∨ q = t :: q'.

Lemma load_remove g n q q' t pc : one_less q q' t → load g n q' pc + task_cost g n t ≤ load g n q pc.
Proof.
  rw /load /free. intros [-> | ->]; rw ?sum_list_with_app /=; repeat case_bool_decide; simplify_eq/=;
    try lia; try (by destruct q'); destruct pc; cbn; lia.
Qed.

Lemma load_zero g n q pc : load g n q pc = 0 → free q pc = true.
Proof.
  rw /load. destruct q as [|t q]; [|cbn; rw /task_cost; lia].
  destruct pc; cbn; try done; lia.
Qed.

Lemma load_free g n pc : hand pc = [] → load g n [] pc = 0.
Proof. intros Hh. by rw /load /free Hh. Qed.

Lemma loads_zero g n : ∀ Q P i q pc, loads g n Q P = 0 → Q !! i = Some q → P !! i = Some pc →
  free q pc = true.
Proof.
  induction Q as [|q0 Q IH]; intros [|pc0 P] i q pc H0 HQ HP; simplify_eq/=.
  destruct i as [|i]; simplify_eq/=; [apply (load_zero g n); lia|apply (IH P i); [lia|done..]].
Qed.

Lemma loads_positive g n : ∀ Q P, length Q = length P → loads g n Q P ≠ 0 →
  ∃ i q pc, Q !! i = Some q ∧ P !! i = Some pc ∧ free q pc = false.
Proof.
  induction Q as [|q0 Q IH]; intros [|pc0 P] Hlen H0; simplify_eq/=.
  destruct (free q0 pc0) eqn:Hf; [|by exists 0, q0, pc0].
  destruct (IH P Hlen) as (i & q & pc & ? & ? & ?); [|by exists (S i), q, pc].
  rw /free andb_true_iff !bool_decide_eq_true in Hf. destruct Hf as [-> Hh].
  rw load_free // in H0.
Qed.

(** A step that moves worker [i] on, without touching a queue. *)
Lemma work_worker i q pc pc' s s' :
  queues_ s !! i = Some q → workers_ s !! i = Some pc →
  queues_ s' = queues_ s → workers_ s' = <[i := pc']> (workers_ s) →
  global_callbacks_ s' = global_callbacks_ s →
  let g := length (global_callbacks_ s) in let n := length (workers_ s) in
  work s' + load g n q pc = work s + load g n q pc'.
Proof.
  intros Hq Hpc Hqs Hws Hg. cbv zeta. rw /work Hqs Hws Hg length_insert. by apply loads_worker.
Qed.

(** A step with which worker [i] takes the task [t] from queue [vic]. *)
Lemma work_take i pc vic qv qv' t s s' :
  length (queues_ s) = length (workers_ s) → workers_ s !! i = Some pc →
  queues_ s !! vic = Some qv → one_less qv qv' t →
  queues_ s' = <[vic := qv']> (queues_ s) → workers_ s' = <[i := WSub t]> (workers_ s) →
  global_callbacks_ s' = global_callbacks_ s → work s' < work s.
Proof.
  intros Hlen Hpc Hvic Hless Hqs Hws Hg. rw /work Hqs Hws Hg length_insert.
  set (g := length _). set (n := length _).
  destruct (lookup_lt_is_Some_2 (workers_ s) vic) as [pcv Hpcv].
  { rw -Hlen. by eapply lookup_lt_Some. }
  pose proof (loads_queue g n vic qv qv' pcv _ _ Hvic Hpcv) as Hq.
  pose proof (load_remove g n qv qv' t pcv Hless) as Hr.
  destruct (lookup_lt_is_Some_2 (<[vic := qv']> (queues_ s)) i) as [qi Hqi].
  { rw length_insert Hlen. by eapply lookup_lt_Some. }
  pose proof (loads_worker g n i qi pc (WSub t) _ _ Hqi Hpc) as Hw.
  assert (Hsub : load g n qi (WSub t) < task_cost g n t + load g n qi pc).
  { rw /load /free andb_false_r /task_cost /=. lia. }
  lia.
Qed.
End Work.

Section Steps.
Context {T W : Type}.
Implicit Types (s : Pool (T := T) (W := W)).
Context (J : Pool (T := T) (W := W) → Prop) `{HJ : !Callable J}.

(** A step that moves worker [i] on with less of its load left. *)
Lemma lighter_worker i q pc pc' s s' :
  queues_ s !! i = Some q → workers_ s !! i = Some pc →
  queues_ s' = queues_ s → workers_ s' = <[i := pc']> (workers_ s) →
  global_callbacks_ s' = global_callbacks_ s →
  load (length (global_callbacks_ s)) (length (workers_ s)) q pc'
    < load (length (global_callbacks_ s)) (length (workers_ s)) q pc →
  work s' < work s.
Proof.
  intros Hq Hpc Hqs Hws Hg Hlt. pose proof (work_worker i q pc pc' s s' Hq Hpc Hqs Hws Hg) as Hw.
  cbv zeta in Hw. lia.
Qed.

(** [lighter pc]: the step leads to this program counter, and leaves less work. *)
Tactic Notation "lighter" uconstr(pc') :=
  eexists; split; [reflexivity|];
  match goal with
  | Hq : queues_ ?s !! ?i = Some ?q, Hpc : workers_ ?s !! ?i = Some ?pc |- _ =>
      eapply (lighter_worker i q pc pc' s _ Hq Hpc); [reflexivity|reflexivity|reflexivity|]
  end;
  rw /load; cbn; rw ?andb_false_r;
  match goal with Hb : free _ _ = false |- _ => rw ?Hb; rw /free /= ?andb_true_r ?andb_false_r in Hb end;
  try (rw /free /=);
  try match goal with Hb : bool_decide _ = false |- _ => rw ?Hb end;
  repeat case_bool_decide; simplify_eq/=; rw ?length_app /=; try lia.

(** A worker that has work, and is not kept waiting by a lock, gets on with it. *)
Lemma busy_step n m i now s q pc :
  quiet J n m s → workers_ s !! i = Some pc → queues_ s !! i = Some q → free q pc = false →
  (pc = WLock ∨ pc = WWoken → mutex_ s = None) → (∀ t, pc = WCbLock t → cb_mu_ s = None) →
  ∃ s', pool_step s (LWorker i now) = Next s' ∧ work s' < work s.
Proof.
  intros Hquiet Hpc Hq Hbusy Hmutex Hcbmu. pose proof (quiet_counter _ n m s Hquiet) as [Hc Hdoze].
  destruct Hquiet as [[[[Hcn Hcm] Hpol Hlq Hlw _ Hpcs] _ _ _ _] Hcalls _ Hle Ha Hr _ _].
  pose proof (proj1 (list.Forall_lookup _ _) Hpcs _ _ Hpc) as Hok.
  pose proof (sum_list_with_elem dozing _ _ _ Hpc) as Hd.
  pose proof (sum_list_with_elem leaving _ _ _ Hpc) as Hlv. rw (Hle Hr) in Hlv.
  assert (Hfull : hand pc = [] → 1 ≤ length q ∧ tasks_in_queue_ s ≠ 0%Z).
  { intros Hh. rw /free Hh andb_true_r in Hbusy.
    pose proof (sum_list_with_elem length _ _ _ Hq) as Hlen. rw /in_queues in Hc.
    destruct q; [done|]. cbn in Hlen |- *. lia. }
  rw /pool_step /gone (Ha Hr) /ProcessLoop_step Hpc.
  destruct pc as [| | | | | | | |sizes|vic|t|t|t|t rest|t rest| |d| | |]; cbn in Hd, Hlv, Hfull;
    try specialize (Hfull eq_refl); try lia.
  - rw Hr. lighter WLock.
  - rw /acquire_mutex Hmutex; [by left|]. lighter WCheckRunning.
  - rw Hr. lighter WCheckTasks.
  - destruct (Z.eqb_spec (tasks_in_queue_ s) 0); [lia|lighter WOwn].
  - rw /acquire_mutex Hmutex; [by right|]. lighter WCheckRunning.
  - rw /pop_own Hq. destruct q as [|t q]; [cbn in Hfull; lia|].
    eexists. split; [reflexivity|]. apply (work_take i WOwn i (t :: q) q t s); try done; [congruence|by right].
  - rw Hcn. destruct (Nat.ltb_spec (length sizes) n) as [Hlt|]; [|lighter (WSteal (steal_policy_ s sizes))].
    destruct (lookup_lt_is_Some_2 (queues_ s) (length sizes)) as [q' Hq']; [lia|]. rw Hq'.
    lighter (WSizes (sizes ++ [length q'])).
  - destruct Hok as [_ Hvic]. destruct (lookup_lt_is_Some_2 (queues_ s) vic) as [qv Hqv]; [lia|].
    rw /steal_from Hqv. destruct (list.last qv) as [t|] eqn:Hlast; [|lighter WDrops].
    apply last_Some in Hlast as [qv' ->]. rw removelast_last.
    eexists. split; [reflexivity|].
    apply (work_take i (WSteal vic) vic (qv' ++ [t]) qv' t s); try done; [congruence|by left].
  - lighter (WProcessed t).
  - lighter (WCbLock t).
  - rw (Hcbmu t) //. lighter (WGlobal t (global_callbacks_ s)).
  - destruct rest as [|g rest]; [lighter (WWrap t (wrappers t))|].
    rw (call_next J s i t g rest Hcalls (or_introl Hpc)). cbn. lighter (WGlobal t rest).
  - destruct rest as [|g rest]; [lighter WDrops|].
    rw (call_next J s i t g rest Hcalls (or_intror Hpc)). cbn. lighter (WWrap t rest).
  - destruct (dropped_count_ s =? 0)%Z; [lighter WTop|lighter (WNotify (dropped_count_ s))].
  - destruct (_ <=? _)%Z; lighter WTop.
Qed.
(** A step with which a worker without work goes on without any. *)
Lemma free_worker i q pc pc' s s' :
  queues_ s !! i = Some q → workers_ s !! i = Some pc → free q pc = true → hand pc' = [] →
  queues_ s' = queues_ s → workers_ s' = <[i := pc']> (workers_ s) →
  global_callbacks_ s' = global_callbacks_ s → work s' = work s.
Proof.
  intros Hq Hpc Hfree Hh Hqs Hws Hg. pose proof (work_worker i q pc pc' s s' Hq Hpc Hqs Hws Hg) as Hw.
  rw /free andb_true_iff !bool_decide_eq_true in Hfree. destruct Hfree as [-> Hh'].
  rw /= !load_free // in Hw. lia.
Qed.

(** A worker that holds [mutex_] comes nearer to letting it go, and touches nothing else. *)
Lemma mutex_step i now s pc :
  running_ s = true → still_alive s → workers_ s !! i = Some pc → holding pc = 1 →
  ∃ s' pc', pool_step s (LWorker i now) = Next s' ∧ to_release s' < to_release s
    ∧ hand pc' = [] ∧ workers_ s' = <[i := pc']> (workers_ s) ∧ queues_ s' = queues_ s
    ∧ global_callbacks_ s' = global_callbacks_ s ∧ submitters s' = submitters s.
Proof.
  intros Hr Ha Hpc Hh. pose proof (λ pc', sum_list_with_insert release _ _ _ pc' Hpc) as Hrel.
  rw /pool_step /gone (Ha Hr) /ProcessLoop_step Hpc.
  destruct pc; try discriminate Hh; rw ?Hr; try destruct (tasks_in_queue_ s =? 0)%Z;
    (eexists _, _; split; [reflexivity|]; split; [|split; [|by split_and!]; done]; rw /to_release; cbn;
     match goal with |- context [<[i := ?pc']> _] => specialize (Hrel pc') end; cbn in Hrel; lia).
Qed.

Lemma holder_step n m i now s q pc :
  quiet J n m s → workers_ s !! i = Some pc → queues_ s !! i = Some q → free q pc = true →
  holding pc = 1 →
  ∃ s', pool_step s (LWorker i now) = Next s' ∧ work s' = work s ∧ to_release s' < to_release s.
Proof.
  intros [_ _ _ _ Ha Hr _ _] Hpc Hq Hfree Hh.
  destruct (mutex_step i now s pc Hr Ha Hpc Hh) as (s' & pc' & Hs & Hlt & Hh' & Hws & Hqs & Hg & _).
  exists s'. split_and!; [done| |done]. by eapply free_worker.
Qed.

(** ** When there is no work *)
Lemma no_work i q pc s :
  work s = 0 → queues_ s !! i = Some q → workers_ s !! i = Some pc → q = [] ∧ hand pc = [].
Proof.
  intros H0 Hq Hpc. pose proof (loads_zero _ _ _ _ _ _ _ H0 Hq Hpc) as Hf.
  by rw /free andb_true_iff !bool_decide_eq_true in Hf.
Qed.

Lemma no_work_worker n m i pc s : quiet J n m s → work s = 0 → workers_ s !! i = Some pc → hand pc = [].
Proof.
  intros [[[_ _ Hlq Hlw _ _] _ _ _ _] _ _ _ _ _ _ _] H0 Hpc.
  destruct (lookup_lt_is_Some_2 (queues_ s) i) as [q Hq].
  { rw Hlq -Hlw. by eapply lookup_lt_Some. }
  by destruct (no_work i q pc s H0 Hq Hpc).
Qed.

Lemma no_work_queue n m k q s : quiet J n m s → work s = 0 → queues_ s !! k = Some q → q = [].
Proof.
  intros [[[_ _ Hlq Hlw _ _] _ _ _ _] _ _ _ _ _ _ _] H0 Hq.
  destruct (lookup_lt_is_Some_2 (workers_ s) k) as [pc Hpc].
  { rw Hlw -Hlq. by eapply lookup_lt_Some. }
  by destruct (no_work k q pc s H0 Hq Hpc).
Qed.

Lemma no_work_counter n m s : quiet J n m s → work s = 0 → tasks_in_queue_ s = 0%Z.
Proof.
  intros Hq H0. destruct (quiet_counter J n m s Hq) as [-> _].
  assert (in_queues s ≤ 0 * length (queues_ s)).
  { apply sum_list_with_bound. intros k q Hk. by rw (no_work_queue n m k q s Hq H0 Hk). }
  assert (in_pop s ≤ 0 * length (workers_ s)); [|lia].
  apply sum_list_with_bound. intros i pc Hi. pose proof (no_work_worker n m i pc s Hq H0 Hi).
  by destruct pc.
Qed.

(** [drowsier pc]: the step leads to this program counter, nearer to sleep, and
    makes no work. *)
Tactic Notation "drowsier" uconstr(pc') :=
  eexists; split; [reflexivity|];
  match goal with
  | H0 : work ?s = 0, Hq : queues_ ?s !! ?i = Some [], Hpc : workers_ ?s !! ?i = Some ?pc,
    Hn : length (workers_ ?s) = ?n |- _ =>
      split; [rw -H0; eapply (free_worker i [] pc pc' s _ Hq Hpc);
              [rw /free; by apply bool_decide_eq_true|done|reflexivity..]
             |pose proof (sum_list_with_insert (stage 0 n false) _ _ _ pc' Hpc) as Hstage;
              rw /to_doze; cbn; rw length_insert Hn; cbn in Hstage; rw ?length_app /= in Hstage; lia]
  end.

(** A worker that is awake, and not kept waiting for [mutex_], goes to sleep. *)
Lemma doze_step n m i now s pc :
  quiet J n m s → work s = 0 → workers_ s !! i = Some pc → pc ≠ WAsleep →
  (pc = WLock ∨ pc = WWoken → mutex_ s = None) →
  ∃ s', pool_step s (LWorker i now) = Next s' ∧ work s' = 0 ∧ to_doze s' < to_doze s.
Proof.
  intros Hquiet H0 Hpc Hawake Hmutex. pose proof (no_work_counter n m s Hquiet H0) as Hc.
  pose proof (no_work_worker n m i pc s Hquiet H0 Hpc) as Hh.
  pose proof (λ k q, no_work_queue n m k q s Hquiet H0) as Hempty.
  destruct Hquiet as [[[[Hcn Hcm] Hpol Hlq Hlw _ Hpcs] _ _ _ _] _ _ Hle Ha Hr _ _].
  pose proof (proj1 (list.Forall_lookup _ _) Hpcs _ _ Hpc) as Hok.
  pose proof (sum_list_with_elem leaving _ _ _ Hpc) as Hlv. rw (Hle Hr) in Hlv.
  assert (Hsome : ∀ k, k < n → queues_ s !! k = Some []).
  { intros k Hk. destruct (lookup_lt_is_Some_2 (queues_ s) k) as [q Hq]; [lia|].
    by rw Hq (Hempty k q Hq). }
  assert (Hi : i < n) by (rw -Hlw; by eapply lookup_lt_Some). pose proof (Hsome i Hi) as Hq.
  rw /pool_step /gone (Ha Hr) /ProcessLoop_step Hpc.
  destruct pc as [| | | | | | | |sizes|vic|t|t|t|t rest|t rest| |d| | |]; cbn in Hlv; try discriminate Hh;
    try lia; try done.
  - rw Hr. drowsier WLock.
  - rw /acquire_mutex Hmutex; [by left|]. drowsier WCheckRunning.
  - rw Hr. drowsier WCheckTasks.
  - rw Hc /=. drowsier WWait.
  - drowsier WAsleep.
  - rw /acquire_mutex Hmutex; [by right|]. drowsier WCheckRunning.
  - rw /pop_own Hq. destruct (decide _); [drowsier (WSizes [])|drowsier WDrops].
  - destruct Hok as [_ Hok]. rw Hcn.
    destruct (Nat.ltb_spec (length sizes) n) as [Hlt|]; [|drowsier (WSteal (steal_policy_ s sizes))].
    rw (Hsome _ Hlt). drowsier (WSizes (sizes ++ [0])).
  - destruct Hok as [_ Hvic]. rw /steal_from (Hsome _ Hvic) /=. drowsier WDrops.
  - destruct (dropped_count_ s =? 0)%Z; [drowsier WTop|drowsier (WNotify (dropped_count_ s))].
  - destruct (_ <=? _)%Z; drowsier WTop.
Qed.
(** ** Nearer with every step *)
Lemma to_release_bound s : to_release s ≤ 3 * length (workers_ s).
Proof. apply sum_list_with_bound. intros i pc _. destruct pc; cbn; lia. Qed.

Lemma to_doze_bound n m s : quiet J n m s → work s = 0 → to_doze s ≤ (13 + n) * n.
Proof.
  intros Hq H0. pose proof (λ i pc, no_work_worker n m i pc s Hq H0) as Hfree.
  destruct Hq as [[[_ _ _ Hlw _ _] _ _ _ _] _ _ _ _ _ _ _]. rw /to_doze Hlw. rw -{3}Hlw.
  apply sum_list_with_bound. intros i pc Hpc. specialize (Hfree i pc Hpc).
  destruct pc; cbn; try done; lia.
Qed.

(** The three ways to come nearer: less work; as much, and nearer to the release of
    [mutex_]; none, and nearer to sleep. *)
Definition nearer s s' : Prop :=
  work s' < work s
  ∨ (work s' = work s ∧ work s ≠ 0 ∧ to_release s' < to_release s)
  ∨ (work s = 0 ∧ work s' = 0 ∧ to_doze s' < to_doze s).

Lemma nearer_distance n m s s' :
  0 < n → quiet J n m s → quiet J n m s' → nearer s s' → distance s' < distance s.
Proof.
  intros Hn Hq Hq' Hnear.
  assert (Hb : (if work s' =? 0 then to_doze s' else to_release s') ≤ (13 + n) * n).
  { destruct (Nat.eqb_spec (work s') 0) as [H0|]; [by apply (to_doze_bound n m)|].
    pose proof (to_release_bound s') as Hb.
    rw (shape_workers _ _ _ (ok_shape _ _ _ (quiet_ok _ _ _ _ Hq'))) in Hb. nia. }
  rw /distance (shape_workers _ _ _ (ok_shape _ _ _ (quiet_ok _ _ _ _ Hq)))
    (shape_workers _ _ _ (ok_shape _ _ _ (quiet_ok _ _ _ _ Hq'))).
  set (B := (13 + n) * n) in *. clearbody B.
  destruct Hnear as [Hlt|[(Heq & Hne & Hlt)|(H0 & H0' & Hlt)]]; [nia| |].
  - rw Heq. by destruct (Nat.eqb_spec (work s) 0); [|lia].
  - rw H0 H0' /=. lia.
Qed.

(** Who holds a lock can go on. *)
Lemma mutex_holder s h :
  mutex_ok s → mutex_ s = Some h → ∃ i pc, workers_ s !! i = Some pc ∧ holding pc = 1.
Proof.
  rw /mutex_ok. intros Hm Hh. rw Hh in Hm.
  destruct (sum_list_with_positive holding (workers_ s)) as (i & pc & Hi & Hpc); [lia|].
  exists i, pc. split; [done|]. by destruct pc.
Qed.

Lemma callback_lock_holder s h :
  callback_lock_ok s → cb_mu_ s = Some h → ∃ i t rest, workers_ s !! i = Some (WGlobal t rest).
Proof.
  rw /callback_lock_ok. intros Hm Hh. rw Hh /= in Hm.
  destruct (sum_list_with_positive calling (workers_ s)) as (i & pc & Hi & Hpc); [lia|].
  destruct pc as [| | | | | | | | | | | | |t rest| | | | | |]; try done. by exists i, t, rest.
Qed.

Lemma queue_of n m i pc s : quiet J n m s → workers_ s !! i = Some pc → ∃ q, queues_ s !! i = Some q.
Proof.
  intros [[[_ _ Hlq Hlw _ _] _ _ _ _] _ _ _ _ _ _ _] Hpc.
  apply lookup_lt_is_Some_2. rw Hlq -Hlw. by eapply lookup_lt_Some.
Qed.

Lemma holder_nearer n m i now s pc :
  quiet J n m s → work s ≠ 0 → workers_ s !! i = Some pc → holding pc = 1 →
  ∃ s', pool_step s (LWorker i now) = Next s' ∧ nearer s s'.
Proof.
  intros Hquiet Hne Hpc Hh. destruct (queue_of n m i pc s Hquiet Hpc) as [q Hq].
  destruct (free q pc) eqn:Hfree.
  - destruct (holder_step n m i now s q pc Hquiet Hpc Hq Hfree Hh) as (s' & Hs & Heq & Hlt).
    exists s'. split; [done|]. right. by left.
  - destruct (busy_step n m i now s q pc Hquiet Hpc Hq Hfree) as (s' & Hs & Hlt).
    { by intros [-> | ->]. }
    { by intros t ->. }
    exists s'. split; [done|by left].
Qed.

Lemma awake (ws : list (wpc (T := T) (W := W))) :
  Forall (eq WAsleep) ws ∨ ∃ i pc, ws !! i = Some pc ∧ pc ≠ WAsleep.
Proof.
  induction ws as [|pc ws [IH|(i & pc' & Hi & Hpc)]]; [by left| |right; by exists (S i), pc'].
  destruct pc; try (right; by eexists 0, _). left. by constructor.
Qed.

(** A worker at the door of a held lock waits; who holds it goes on instead. *)
Lemma progress_busy n m now s :
  quiet J n m s → work s ≠ 0 → ∃ i s', pool_step s (LWorker i now) = Next s' ∧ nearer s s'.
Proof.
  intros Hquiet Hne. pose proof (quiet_ok _ _ _ _ Hquiet) as [[_ _ Hlq Hlw _ _] _ _ Hm _].
  destruct (loads_positive _ _ _ _ (eq_trans Hlq (eq_sym Hlw)) Hne) as (i & q & pc & Hq & Hpc & Hbusy).
  destruct (mutex_ s) as [h|] eqn:Hmu.
  { destruct (mutex_holder s h Hm Hmu) as (j & pcj & Hj & Hh).
    exists j. by apply (holder_nearer n m j now s pcj). }
  destruct (cb_mu_ s) as [h|] eqn:Hcb.
  - destruct (callback_lock_holder s h (quiet_lock _ _ _ _ Hquiet) Hcb) as (j & t & rest & Hj).
    destruct (queue_of n m j _ s Hquiet Hj) as [qj Hqj].
    destruct (busy_step n m j now s qj _ Hquiet Hj Hqj) as (s' & Hs & Hlt); [by rw /free andb_false_r| | |].
    { by intros [?|?]. }
    { done. }
    exists j, s'. split; [done|by left].
  - destruct (busy_step n m i now s q pc Hquiet Hpc Hq Hbusy) as (s' & Hs & Hlt); [done..|].
    exists i, s'. split; [done|by left].
Qed.

Lemma progress_idle n m now s :
  quiet J n m s → work s = 0 → ¬ Forall (eq WAsleep) (workers_ s) →
  ∃ i s', pool_step s (LWorker i now) = Next s' ∧ nearer s s'.
Proof.
  intros Hquiet H0 Hawake.
  assert (∃ i pc, workers_ s !! i = Some pc ∧ pc ≠ WAsleep ∧ (pc = WLock ∨ pc = WWoken → mutex_ s = None))
    as (i & pc & Hi & Hpc & Hmu).
  { destruct (mutex_ s) as [h|] eqn:Hmu.
    - destruct (mutex_holder s h (ok_mutex _ _ _ (quiet_ok _ _ _ _ Hquiet)) Hmu) as (i & pc & Hi & Hh).
      exists i, pc. split; [done|]. split; [by intros ->|by intros [-> | ->]].
    - destruct (awake (workers_ s)) as [?|(i & pc & Hi & Hpc)]; [done|by exists i, pc]. }
  destruct (doze_step n m i now s pc Hquiet H0 Hi Hpc Hmu) as (s' & Hs & H0' & Hlt).
  exists i, s'. split; [done|]. right. by right.
Qed.

(** ** To rest *)
Lemma settles n m now s :
  0 < n → quiet J n m s →
  ∃ turns s', length turns ≤ distance s ∧ pool_run s ((λ i, LWorker i now) <$> turns) = Next s'
    ∧ at_rest s' ∧ pushed s' = pushed s.
Proof.
  intros Hn. remember (distance s) as fuel eqn:Hf. assert (Hle : distance s ≤ fuel) by lia. clear Hf.
  revert s Hle. induction fuel as [|fuel IH]; intros s Hle Hquiet;
    (destruct (awake (workers_ s)) as [Hall|(j & pc & Hj & Hpc)];
     [exists [], s; split_and!; [cbn; lia|done|by destruct Hquiet|done]|]);
    (assert (∃ i s1, pool_step s (LWorker i now) = Next s1 ∧ nearer s s1) as (i & s1 & Hs & Hnear);
     [destruct (decide (work s = 0)); [|by apply (progress_busy n m)]; apply (progress_idle n m); try done;
      intros Hall; by destruct (Hpc (eq_sym (proj1 (list.Forall_lookup _ _) Hall _ _ Hj)))|]);
    destruct (quiet_step J n m i now s s1 Hn Hquiet Hs) as [Hquiet1 Hp];
    pose proof (nearer_distance n m s s1 Hn Hquiet Hquiet1 Hnear); [lia|].
  destruct (IH s1 ltac:(lia) Hquiet1) as (turns & s' & Hlen & Hrun & Hrest & Hp').
  exists (i :: turns), s'. split_and!; [cbn; lia| |done|congruence]. by rw /= Hs.
Qed.
End Steps.

Section Returns.
Context {T W : Type}.
Implicit Types (s : Pool (T := T) (W := W)).

(** ** The submissions in progress

    How far a thread is from the end of its [SubmitImpl]. *)
Definition submitting (pc : spc (T := T) (W := W)) : nat :=
  match pc with
  | SIdle => 0
  | SLoad _ => 6
  | SBackoff _ => 5
  | SIndex _ => 4
  | SPush _ _ => 3
  | SCount => 2
  | SDrop | SSignal => 1
  end.

Definition to_return s : nat := sum_list_with submitting (submitters s).

Record live (n : nat) (m : ScheduleMode) s : Prop := {
  live_shape : shape n m s;
  live_mutex : mutex_ok s;
  live_alive : still_alive s;
  live_running : running_ s = true;
  live_backoff : backoff_ok (cfg_ s)
}.

Lemma live_step n m s l s' :
  0 < n → unprompted l → pool_step s l = Next s' → live n m s → live n m s'.
Proof.
  intros Hn Hl Hs [Hsh Hm Ha Hr Hb]. split.
  - apply (pool_step_shape n m s l); [done| |done|done]. by destruct l.
  - by eapply pool_step_mutex.
  - by eapply pool_step_alive.
  - destruct l; try done; pool_cases Hs; done.
  - apply (pool_step_backoff s l); [by destruct l|done|done].
Qed.

(** [returning pc]: the thread goes on to this program counter. *)
Tactic Notation "returning" uconstr(pc') :=
  eexists; split; [by left|]; split; [reflexivity|];
  match goal with H : submitters ?s !! ?c = Some _ |- _ =>
    pose proof (sum_list_with_insert submitting _ _ _ pc' H) as Hsum end;
  split; [rw /to_return; cbn in *; lia|rw /to_release; cbn].

(** A thread that is submitting can go on, unless it waits for [mutex_] to signal. *)
Lemma submitter_step n m s c pc :
  0 < n → live n m s → submitters s !! c = Some pc → pc ≠ SIdle → (pc = SSignal → mutex_ s = None) →
  ∃ l s', (l = LSubmitter c ∨ l = LBackoff c (Some 0%Z)) ∧ pool_step s l = Next s'
    ∧ to_return s' < to_return s ∧ to_release s' = to_release s.
Proof.
  intros Hn [[[Hcn Hcm] Hpol Hlq Hlw Hsub _] Hm Ha Hr Hb] Hc Hidle Hmutex.
  pose proof (proj1 (list.Forall_lookup _ _) Hsub _ _ Hc) as Hok.
  destruct (backoff_defined _ Hb) as (Hj & Hj0 & Hsum0).
  destruct pc as [|t| |t|t|idx t| |]; try done.
  all: lazymatch goal with
    | H : _ = Some (SBackoff _) |- _ => exists (LBackoff c (Some 0%Z)); rw /pool_step /gone (Ha Hr) /Backoff_step Hc
    | _ => exists (LSubmitter c); rw /pool_step /gone (Ha Hr) /SubmitImpl_step Hc
    end.
  - destruct (breaker_open _ _); [returning SDrop; done|].
    destruct (backs_off _ _); [returning (SBackoff t)|returning (SIndex t)]; done.
  - returning SIdle. done.
  - assert (H0 : ((- jitter (cfg_ s) <=? 0) && (0 <=? jitter (cfg_ s)))%Z = true) by lia.
    rw Hj Hj0 H0 (Hsum0 0%Z H0) /=. eexists. split; [by right|]. split; [reflexivity|].
    pose proof (sum_list_with_insert submitting _ _ _ (SIndex t) Hc). rw /to_return /to_release.
    cbn in *. split; [lia|done].
  - destruct (mode (cfg_ s)); [returning (SPush 0 t); done|..];
      rw Hcn; destruct (Nat.eqb_spec n 0); try lia;
      returning (SPush (Z.to_nat (rr_index_ s `mod` Z.of_nat n)) t); done.
  - destruct Hok as [Hidx _]. destruct (lookup_lt_is_Some_2 (queues_ s) idx) as [q Hq]; [lia|].
    rw /push_task Hq /=. returning SCount. done.
  - returning SSignal. done.
  - rw (Hmutex eq_refl). returning SIdle. apply (sum_wake release). by intros [].
Qed.

Lemma idle_or_not (ss : list (spc (T := T) (W := W))) :
  Forall (eq SIdle) ss ∨ ∃ c pc, ss !! c = Some pc ∧ pc ≠ SIdle.
Proof.
  induction ss as [|pc ss [IH|(c & pc' & Hc & Hpc)]]; [by left| |right; by exists (S c), pc'].
  destruct pc; try (right; by eexists 0, _). left. by constructor.
Qed.

Lemma return_step n m (now : Z) s :
  0 < n → live n m s → ¬ Forall (eq SIdle) (submitters s) →
  ∃ l s', unprompted l ∧ pool_step s l = Next s' ∧ to_return s' + to_release s' < to_return s + to_release s.
Proof.
  intros Hn Hlive Hidle. destruct (idle_or_not (submitters s)) as [?|(c & pc & Hc & Hpc)]; [done|].
  destruct (mutex_ s) as [h|] eqn:Hmu.
  - destruct (mutex_holder s h (live_mutex _ _ _ Hlive) Hmu) as (i & pci & Hi & Hh).
    destruct (mutex_step i now s pci (live_running _ _ _ Hlive) (live_alive _ _ _ Hlive) Hi Hh)
      as (s' & pc' & Hs & Hlt & _ & _ & _ & _ & Hsub).
    exists (LWorker i now), s'. split_and!; [done|done|]. rw {1}/to_return Hsub -/(to_return s). lia.
  - destruct (submitter_step n m s c pc Hn Hlive Hc Hpc (λ _, Hmu)) as (l & s' & Hl & Hs & Hlt & Heq).
    exists l, s'. split_and!; [by destruct Hl as [-> | ->]|done|lia].
Qed.

(** The submissions in progress can end. *)
Lemma returns n m (now : Z) s :
  0 < n → live n m s →
  ∃ ks s', length ks ≤ to_return s + to_release s ∧ Forall unprompted ks ∧ pool_run s ks = Next s'
    ∧ Forall (eq SIdle) (submitters s') ∧ running_ s' = true.
Proof.
  intros Hn. remember (to_return s + to_release s) as fuel eqn:Hf.
  assert (Hle : to_return s + to_release s ≤ fuel) by lia. clear Hf.
  revert s Hle. induction fuel as [|fuel IH]; intros s Hle Hlive;
    (destruct (idle_or_not (submitters s)) as [Hall|(c & pc & Hc & Hpc)];
     [exists [], s; split_and!; [cbn; lia|done|done|done|by destruct Hlive]|]);
    (destruct (return_step n m now s Hn Hlive) as (l & s1 & Hl & Hs & Hlt);
     [intros Hall; by destruct (Hpc (eq_sym (proj1 (list.Forall_lookup _ _) Hall _ _ Hc)))|]); [lia|].
  destruct (IH s1 ltac:(lia) (live_step n m s l s1 Hn Hl Hs Hlive)) as (ks & s' & Hlen & Hks & Hrun & Hrest).
  exists (l :: ks), s'. split_and!; [cbn; lia|by constructor| |by destruct Hrest..]. by rw /= Hs.
Qed.

(** What is in [SubmitImpl] can be pushed, and nothing more. *)
Lemma unprompted_submits ks : Forall unprompted ks → submitted (T := T) (W := W) ks = [].
Proof. intros Hks. by induction Hks as [|[] ks Hl _ IH]. Qed.

Lemma unprompted_pushes s ks s' :
  Forall unprompted ks → pool_run s ks = Next s' →
  length (pushed s') ≤ length (pushed s) + length (carrying s).
Proof.
  intros Hks Hrun. pose proof (pool_run_submissions ks s s' Hrun) as Hp.
  rw (unprompted_submits ks Hks) app_nil_r in Hp. apply Permutation_length in Hp.
  rw !length_app !length_fmap in Hp. lia.
Qed.

(** ** A reached state of a running pool, and the way to rest from it *)
Record under_way (n : nat) (m : ScheduleMode) s : Prop := {
  way_pool : pool_ok n m s;
  way_steady : steady_workers s;
  way_backoff : backoff_ok (cfg_ s)
}.

Lemma under_way_user n m w s : under_way n m s → under_way n m (set_user w s).
Proof. intros [Hp [] Hb]. by split; [apply pool_ok_set_user|split|]. Qed.

Lemma under_way_step n m s l s' :
  0 < n → label_ok n m l → backoff_label l → pool_step s l = Next s' → under_way n m s → under_way n m s'.
Proof.
  intros Hn Hl Hbl Hs [Hp Hst Hb]. split.
  - by eapply pool_step_ok.
  - apply (pool_run_steady [l] s s'); [by rw /= Hs|done].
  - by eapply pool_step_backoff.
Qed.

Lemma under_way_run n m s ks s' :
  0 < n → Forall unprompted ks → pool_run s ks = Next s' → under_way n m s → under_way n m s'.
Proof.
  intros Hn Hks Hrun H0. refine (pool_run_invariant (under_way n m) unprompted _ ks s s' Hks H0 Hrun).
  intros s1 l s2 Hl H1 Hs. by apply (under_way_step n m s1 l); destruct l.
Qed.

Lemma unprompted_serving n m ks : Forall unprompted ks → Forall (serving (T := T) (W := W) n m) ks.
Proof. intros Hks. eapply Forall_impl; [|exact Hks]. by intros []. Qed.

Lemma unprompted_turns now turns :
  Forall unprompted ((λ i, LWorker (T := T) (W := W) i now) <$> turns).
Proof. apply list.Forall_fmap, list.Forall_forall. by intros. Qed.

Lemma comes_to_rest (J : Pool (T := T) (W := W) → Prop) `{!Callable J} n m now s :
  0 < n → under_way n m s → J s → running_ s = true →
  (Z.of_nat (length (pushed s) + length (carrying s)) < 2 ^ 64)%Z →
  ∃ ks s1 turns s', length ks ≤ to_return s + to_release s ∧ Forall unprompted ks
    ∧ pool_run s ks = Next s1 ∧ Forall (eq SIdle) (submitters s1)
    ∧ (Z.of_nat (length (pushed s1)) < 2 ^ 64)%Z
    ∧ length turns ≤ distance s1 ∧ pool_run s1 ((λ i, LWorker i now) <$> turns) = Next s'
    ∧ at_rest s' ∧ pushed s' = pushed s1.
Proof.
  intros Hn Hway HJ Hr Hb. pose proof Hway as [[Hsh _ _ Hm _] [_ _ Ha] Hback].
  destruct (returns n m now s Hn (Build_live _ _ _ Hsh Hm Ha Hr Hback))
    as (ks & s1 & Hlen & Hks & Hrun & Hidle & Hr1).
  pose proof (unprompted_pushes s ks s1 Hks Hrun) as Hpush.
  destruct (under_way_run n m s ks s1 Hn Hks Hrun Hway) as [Hp1 [Hl1 Hle1 Ha1] _].
  assert (HJ1 : J s1).
  { refine (pool_run_invariant J unprompted _ ks s s1 Hks HJ Hrun).
    intros s2 l s3 Hl H2 Hs. by apply (callable_step s2 l). }
  destruct (settles J n m now s1 Hn) as (turns & s' & Hlen' & Hrun' & Hrest & Hp'); [split; try done; lia|].
  exists ks, s1, turns, s'. split_and!; try done. lia.
Qed.

(** A pool with its callbacks. *)
Lemma registered_under_way (cbs : list (T → M W ())) hw cfg now k w s0 ls s :
  setup_ok cfg → registered cbs hw cfg now k w s0 → backoff_ok cfg → Forall backoff_label ls →
  Forall (label_ok (num_threads cfg) (mode cfg)) ls → pool_run s0 ls = Next s →
  under_way (num_threads cfg) (mode cfg) s.
Proof.
  intros Hsetup Hreg Hback Hbl Hok Hrun. pose proof (some_threads _ Hsetup) as Hn.
  destruct (answers_new cbs hw cfg now k w s0 Hsetup Hreg) as ([Hp _ _ _ _ _] & _).
  pose proof (proj2 (list.Forall_and _ _) (conj Hok Hbl)) as Hboth.
  refine (pool_run_invariant (under_way _ _) _ _ ls s0 s Hboth _ Hrun).
  - intros s1 l s2 [? ?] H1 Hs. by eapply under_way_step.
  - split; [done|by eapply steady_new|].
    destruct Hreg as (s1 & Hnew & Hreg). apply register_all in Hreg as ->.
    by apply constructed in Hnew as [b ->].
Qed.
End Returns.

Section Answers.
Context {T W : Type}.
Implicit Types (s : Pool (T := T) (W := W)).
Context (cbs : list (T → M W ())) (Hdefined : Forall defined cbs).

(** C5: nothing keeps a pool from answering everything: from every state that any
    interleaving of submitting threads and any number of workers reaches in a running
    pool, when the backoffs are defined and the callbacks have no undefined behaviour
    of their own, there is a way to rest for the threads that are in it, whatever locks
    are held and whoever waits for them: in at most [to_return] and [to_release] steps
    the submissions in progress end, and then at most [distance] turns of the workers
    (counted from the tasks queued and in hand, the callbacks and where the workers
    are) put every one of them to sleep; and then the user's world is what the
    callbacks make, one task at a time, of everything that was submitted and not
    refused, in the order of the pushes in FIFO mode.  No state of the running pool is
    a deadlock, a lost wake-up or a lost task. *)
Theorem pool_settles_answered hw cfg now k w s0 ls s now' :
  setup_ok cfg → registered cbs hw cfg now k w s0 → backoff_ok cfg → Forall backoff_label ls →
  Forall (serving (num_threads cfg) (mode cfg)) ls → pool_run s0 ls = Next s → running_ s = true →
  (Z.of_nat (length (pushed s) + length (carrying s)) < 2 ^ 64)%Z →
  ∃ ks s1 turns s' hist,
    length ks ≤ to_return s + to_release s ∧ Forall unprompted ks ∧ pool_run s ks = Next s1
    ∧ length turns ≤ distance s1 ∧ pool_run s1 ((λ i, LWorker i now') <$> turns) = Next s'
    ∧ at_rest s' ∧ user s' = answer cbs w hist ∧ submitted ls ≡ₚ hist ++ refused s0 (ls ++ ks)
    ∧ (mode cfg = FIFO → hist = (pushed s').*2).
Proof.
  intros Hsetup Hreg Hback Hbl Hok Hrun Hr Hb. pose proof (some_threads _ Hsetup) as Hn.
  pose proof (serves_callable cbs Hdefined) as Hcalls.
  assert (Hok' : Forall (label_ok (num_threads cfg) (mode cfg)) ls).
  { eapply Forall_impl; [|exact Hok]. apply serving_ok. }
  pose proof (registered_under_way cbs _ _ _ _ _ _ _ _ Hsetup Hreg Hback Hbl Hok' Hrun) as Hway.
  destruct (answers_new cbs hw cfg now k w s0 Hsetup Hreg) as ([_ _ Hsv0 _ _ _] & _).
  assert (Hsv : serves cbs s).
  { refine (pool_run_invariant (serves cbs) (serving (num_threads cfg) (mode cfg)) _ ls s0 s Hok Hsv0 Hrun).
    intros s1 l s2 Hl H1 Hs. by eapply pool_step_serves. }
  destruct (comes_to_rest (serves cbs) _ _ now' s Hn Hway Hsv Hr Hb)
    as (ks & s1 & turns & s' & Hlen & Hks & Hrun1 & Hidle & Hb1 & Hlen' & Hrun' & Hrest & Hp).
  assert (Hall : pool_run s0 (ls ++ ks) = Next s1) by by rw pool_run_app Hrun.
  destruct (answered_at_rest cbs hw cfg now k w s0 (ls ++ ks) s1 _ s' Hsetup Hreg
              (proj2 (list.Forall_app _ _ _) (conj Hok (unprompted_serving _ _ ks Hks))) Hall Hidle Hb1
              (unprompted_serving _ _ _ (unprompted_turns now' turns)) Hrun' Hrest Hp) as (hist & Hu & Hsub & Hf).
  rw /submitted omap_app -/(submitted ls) -/(submitted ks) (unprompted_submits ks Hks) app_nil_r in Hsub.
  exists ks, s1, turns, s', hist. by rw Hp.
Qed.
End Answers.

(** ** Witness: two workers and two submitting threads; one worker has a task, the other
    [mutex_], and a thread waits for it to signal its task. *)
Definition pair_cfg : TaskProcessorConfig := default_cfg 2 WorkStealing.

Definition pair_pool : Pool (T := nat) (W := list nat) :=
  set_global_callbacks [picky; log_payload] (members pair_cfg 0 2 []).

Definition pair_labels : list (label (T := nat) (W := list nat)) :=
  [LWorker 0 0; LWorker 1 0; LWorker 0 0]
  ++ LSubmit 0 (Task 6 []) :: replicate 4 (LSubmitter 0)
  ++ [LWorker 0 0; LWorker 0 0; LWorker 0 0; LSubmitter 0]
  ++ LSubmit 1 (Task 8 []) :: replicate 4 (LSubmitter 1) ++ [LWorker 1 0].

Lemma pool_settles_answered_witness :
  let s := reached pair_pool pair_labels in
  (∃ ks s1 turns s' hist,
    length ks ≤ to_return s + to_release s ∧ Forall unprompted ks ∧ pool_run s ks = Next s1
    ∧ length turns ≤ distance s1 ∧ pool_run s1 ((λ i, LWorker i 5) <$> turns) = Next s'
    ∧ at_rest s' ∧ user s' = answer [picky; log_payload] [] hist
    ∧ submitted pair_labels ≡ₚ hist ++ refused pair_pool (pair_labels ++ ks)
    ∧ (mode pair_cfg = FIFO → hist = (pushed s').*2))
  ∧ workers_ s = [WSub (Task 6 []); WCheckRunning] ∧ submitters s = [SIdle; SSignal]
  ∧ mutex_ s = Some 1 ∧ queues_ s = [[]; [Task 8 []]] ∧ user s = [].
Proof.
  cbv zeta. split; [|by vm_compute].
  apply (pool_settles_answered [picky; log_payload]) with (hw := 4) (now := 0%Z) (k := 2);
    [|split; [cbn; lia|]| |rw /backoff_ok /=; lia| | |by vm_compute..].
  - repeat (apply list.Forall_cons; split); [|done|by apply list.Forall_nil].
    intros x w. rw /picky. by destruct (x =? 7).
  - intros sizes Hl. apply DefaultStealPolicy_range; [cbn; lia|done].
  - exists (members pair_cfg 0 2 []). by split.
  - by repeat (apply list.Forall_cons; split; [done|]).
  - by repeat (apply list.Forall_cons; split; [done|]).
Defined.
