(* ===== verification/TaskFuture.v ===== *)
(** * Submitting with a deadline, a token or a future
    (pool/task_multi_processor.h, SubmitWithTimeout and SubmitWithResult)

    A promise and its future share a state; the submitted task carries a wrapper
    that holds the promise and sets it when a worker runs the task.  The user's
    world is here the shared states, the cancellation tokens and the rest [U]. *)
From S2P Require Import Prelude TaskPool TaskPoolSpec TaskPoolTheorems.

Section Futures.
Context {T U R : Type}.

Inductive shared_state :=
  | Pending
  | HasValue (r : R)
  | HasException (e : exn).

Record Futures := MkFutures {
  promises : gmap nat shared_state;
  tokens : gmap nat bool
}.

Abbreviation World := (Futures * U)%type.

Definition set_promise (p : nat) (v : shared_state) (w : World) : World :=
  (MkFutures (<[p := v]> (promises w.1)) (tokens w.1), w.2).

(** [std::future_error(promise_already_satisfied)]. *)
Definition already_satisfied : exn := other_exception 0.

(** [p->set_value], [p->set_exception]. *)
Definition fulfil (p : nat) (v : shared_state) : M World () := λ w,
  match promises w.1 !! p with
  | Some Pending => Ret () (set_promise p v w)
  | Some _ => Throw already_satisfied w
  | None => Undef use_after_free
  end.

(** [token && token->load()]. *)
Definition token_set (token : option nat) (w : World) : bool :=
  match token with Some k => default false (tokens w.1 !! k) | None => false end.

(** The wrapper of [SubmitWithResult]; without a token it is the first
    overload's. *)
Definition result_wrapper (fn : T → M World R) (p : nat) (token : option nat) : T → M World () :=
  λ t, catch
    (cancelled ← gets (token_set token);
     if cancelled : bool then
       fulfil p (HasException (runtime_error "Task canceled before execution"))
     else r ← fn t; fulfil p (HasValue r))
    (λ e, fulfil p (HasException e)).

Abbreviation FPool := (Pool (T := T) (W := World)).

(** [make_shared<promise>] and [get_future]. *)
Definition new_promise (s : FPool) : nat * FPool :=
  let p := fresh (dom (promises (user s).1)) in
  (p, set_user (set_promise p Pending (user s)) s).

(** The future, and the pool after the call of [SubmitImpl], if it is made. *)
Definition SubmitWithResult (c : nat) (item : T) (fn : T → M World R) (token : option nat)
    (s : FPool) : nat * result :=
  let '(p, s) := new_promise s in
  if token_set token (user s) then
    (p, Next (set_user (set_promise p
           (HasException (runtime_error "Task canceled before enqueue")) (user s)) s))
  else (p, Submit_call c (Task item [result_wrapper fn p token]) s).

(** The two overloads of [SubmitWithTimeout]; the first one has no token. *)
Definition SubmitWithTimeout (c : nat) (item : T) (now deadline : Z) (token : option nat)
    (s : FPool) : bool * result :=
  if token_set token (user s) || (deadline <=? now)%Z then (false, Next s)
  else (true, Submit_call c (Task item []) s).

(** What the future of a task becomes when it is run in world [w]. *)
Definition outcome_of (fn : T → M World R) (t : T) (token : option nat) (w : World)
    : option (shared_state * World) :=
  if token_set token w then
    Some (HasException (runtime_error "Task canceled before execution"), w)
  else match fn t w with
       | Ret r w' => Some (HasValue r, w')
       | Throw e w' => Some (HasException e, w')
       | Undef _ => None
       end.

Lemma result_wrapper_runs fn p token t (w w' : World) v :
  promises w.1 !! p = Some Pending → outcome_of fn t token w = Some (v, w') →
  promises w'.1 !! p = Some Pending →
  result_wrapper fn p token t w = Ret () (set_promise p v w').
Proof.
  rw /outcome_of /result_wrapper /catch /mbind /M_bind /gets /fulfil. intros Hp Hout Hp'.
  destruct (token_set token w); simplify_eq/=; [by rw Hp|].
  destruct (fn t w) as [r w1|e w1|u]; simplify_eq/=; by rw Hp'.
Qed.
End Futures.

Section FutureTheorems.
Context {T U R : Type}.
Implicit Types (s : Pool (T := T) (W := Futures (R := R) * U)).

(** A submission met by an open circuit breaker: dropped and counted. *)
Lemma breaker_drops s c t :
  gone s = false → submitters s !! c = Some SIdle →
  breaker_open (cfg_ s) (tasks_in_queue_ s) = true →
  ∃ s1 s2, Submit_call c t s = Next s1 ∧ pool_run s1 [LSubmitter c; LSubmitter c] = Next s2
    ∧ bag s2 = bag s ∧ submitters s2 = submitters s ∧ user s2 = user s
    ∧ dropped_count_ s2 = add64 (dropped_count_ s) 1.
Proof.
  intros Hg Hc Hb. pose proof (lookup_lt_Some _ _ _ Hc) as Hlt. rw /Submit_call Hc.
  set (s1 := at_submitter c _ _). exists s1.
  assert (H1 : pool_step s1 (LSubmitter c) = Next (at_submitter c SDrop s1)).
  { rw /pool_step. change (gone s1) with (gone s).
    by rw Hg /SubmitImpl_step /= list_lookup_insert_eq // Hb. }
  set (s2 := at_submitter c SDrop s1) in H1.
  assert (H2 : pool_step s2 (LSubmitter c)
               = Next (at_submitter c SIdle (set_dropped_count (add64 (dropped_count_ s) 1) s2))).
  { rw /pool_step. change (gone s2) with (gone s).
    by rw Hg /SubmitImpl_step /= list_lookup_insert_eq ?length_insert. }
  eexists. split; [done|]. rw /= H1 /= H2. split_and!; [done|done| |done|done].
  rw /= !list_insert_insert_eq. by apply list_insert_id.
Qed.

(** [SubmitWithTimeout] returns [true] for a task that the open circuit breaker drops:
    the result says that the deadline had not passed, not that the task was taken. *)
Theorem submit_with_timeout_dropped s c item now deadline token :
  gone s = false → submitters s !! c = Some SIdle →
  breaker_open (cfg_ s) (tasks_in_queue_ s) = true →
  token_set token (user s) = false → (now < deadline)%Z →
  ∃ s1 s2, SubmitWithTimeout c item now deadline token s = (true, Next s1)
    ∧ pool_run s1 [LSubmitter c; LSubmitter c] = Next s2
    ∧ bag s2 = bag s ∧ dropped_count_ s2 = add64 (dropped_count_ s) 1.
Proof.
  intros Hg Hc Hb Ht Hd. rw /SubmitWithTimeout Ht.
  destruct (Z.leb_spec deadline now) as [|_]; [lia|].
  destruct (breaker_drops s c (Task item []) Hg Hc Hb) as (s1 & s2 & -> & Hrun & ? & _ & _ & ?).
  by exists s1, s2.
Qed.

(** A future gets what its function does: when a worker runs the wrapper,
    the promise is set to the value returned, to the exception thrown, or, if
    the token was set meanwhile, to the cancellation error; nothing escapes to
    the worker, which goes on to the task's next wrapper, and no other promise
    and no other part of the pool changes but what the function itself does. *)
Theorem future_outcome s i now t fn p token rest v w' :
  gone s = false →
  workers_ s !! i = Some (WWrap t (result_wrapper fn p token :: rest)) →
  promises (user s).1 !! p = Some Pending →
  outcome_of fn (payload t) token (user s) = Some (v, w') →
  promises w'.1 !! p = Some Pending →
  pool_step s (LWorker i now)
  = Next (at_worker i (WWrap t rest) (set_user (set_promise p v w') s)).
Proof.
  intros Hg Hi Hp Hout Hp'.
  by rw /pool_step Hg /ProcessLoop_step Hi /call_swallowed (result_wrapper_runs _ _ _ _ _ w' v).
Qed.

(** The three ways of a submission with a future: cancelled before it is
    enqueued, the future holds the cancellation error and the pool is as it
    was; met by an open circuit breaker, the task is dropped and counted, its
    promise stays unset (the future's [get] then ends in a broken promise) and
    no queue changes; else the task is on its way to a queue with its promise
    pending. *)
Theorem submit_with_result_paths s c item fn token p r :
  gone s = false → submitters s !! c = Some SIdle →
  SubmitWithResult c item fn token s = (p, r) →
  promises (user s).1 !! p = None ∧
  ∃ s1, r = Next s1 ∧ bag s1 = bag s ∧
    if token_set token (user s) then
      promises (user s1).1 !! p
        = Some (HasException (runtime_error "Task canceled before enqueue"))
      ∧ submitters s1 = submitters s
    else
      promises (user s1).1 !! p = Some Pending ∧
      if breaker_open (cfg_ s) (tasks_in_queue_ s) then
        ∃ s2, pool_run s1 [LSubmitter c; LSubmitter c] = Next s2
          ∧ bag s2 = bag s ∧ submitters s2 = submitters s
          ∧ dropped_count_ s2 = add64 (dropped_count_ s) 1
          ∧ promises (user s2).1 !! p = Some Pending
      else
        ∃ s2, pool_run s1 [LSubmitter c] = Next s2
          ∧ submitters s2 !! c
            = Some ((if backs_off (cfg_ s) (tasks_in_queue_ s) then SBackoff else SIndex)
                      (Task item [result_wrapper fn p token])).
Proof.
  intros Hg Hc. rw /SubmitWithResult /new_promise.
  set (q := fresh _). assert (Hq : promises (user s).1 !! q = None).
  { apply not_elem_of_dom, is_fresh. }
  assert (Htok : token_set token (user (set_user (set_promise q Pending (user s)) s))
                 = token_set token (user s)) by done.
  rw Htok. clearbody q. destruct (token_set token (user s)); intros; simplify_eq.
  - split; [done|]. eexists. split_and!; [done|done| |done].
    by rw /= lookup_insert_eq.
  - split; [done|]. rw /Submit_call /= Hc. eexists. split_and!; [done|done|..].
    { by rw /= lookup_insert_eq. }
    destruct (breaker_open (cfg_ s) (tasks_in_queue_ s)) eqn:Hb.
    + set (s0 := set_user _ s).
      destruct (breaker_drops s0 c (Task item [result_wrapper fn p token]) Hg Hc Hb)
        as (s1 & s2 & Hs1 & Hrun & Hbag & Hsub & Hu & Hd).
      rw /Submit_call Hc in Hs1. injection Hs1 as Hs1. rw -Hs1 in Hrun.
      exists s2. split_and!; [done..|]. by rw Hu /= lookup_insert_eq.
    + pose proof (lookup_lt_Some _ _ _ Hc) as Hlt. set (s1 := at_submitter c _ _).
      eexists. split.
      { rw /= /pool_step. change (gone s1) with (gone s). by rw Hg /SubmitImpl_step /= list_lookup_insert_eq. }
      rw /= list_lookup_insert_eq ?length_insert // Hb. by destruct (backs_off _ _).
Qed.
End FutureTheorems.

(** ** Witnesses: a pool of one worker; the task doubles its payload. *)
Definition double (x : nat) : M (Futures (R := nat) * ()) nat := mret (2 * x).

Definition future_pool : Pool (T := nat) (W := Futures (R := nat) * ()) :=
  members (default_cfg 1 FIFO) 0 1 (MkFutures ∅ {[5 := false]}, ()).

(** After the call of [SubmitImpl]. *)
Definition future_submitted : Pool :=
  match SubmitWithResult 0 21 double (Some 5) future_pool with
  | (_, Next s) => s
  | _ => future_pool
  end.

(** The submission to its end, and the worker up to the task's wrapper. *)
Definition future_running : Pool :=
  reached future_submitted (replicate 5 (LSubmitter 0) ++ replicate 9 (LWorker 0 0)).

Lemma future_outcome_witness :
  pool_step future_running (LWorker 0 0)
  = Next (at_worker 0 (WWrap (Task 21 [result_wrapper double 0 (Some 5)]) [])
            (set_user (set_promise 0 (HasValue 42) (user future_running)) future_running)).
Proof.
  by apply (future_outcome future_running 0 0 (Task 21 [result_wrapper double 0 (Some 5)])
              double 0 (Some 5) [] (HasValue 42) (user future_running)); vm_compute.
Defined.

Lemma submit_with_result_paths_witness :
  promises (user future_pool).1 !! 0 = None ∧
  ∃ s1, Next future_submitted = Next s1 ∧ bag s1 = bag future_pool
    ∧ promises (user s1).1 !! 0 = Some Pending
    ∧ ∃ s2, pool_run s1 [LSubmitter 0] = Next s2
        ∧ submitters s2 !! 0 = Some (SIndex (Task 21 [result_wrapper double 0 (Some 5)])).
Proof.
  exact (submit_with_result_paths future_pool 0 21 double (Some 5) 0 (Next future_submitted)
           ltac:(by vm_compute) ltac:(by vm_compute) ltac:(by vm_compute)).
Defined.
