(* ===== verification/TaskPoolFutures.v ===== *)
(** * Futures on the pool (pool/task_multi_processor.h, SubmitWithResult on its workers)

    [TaskFuture.v] has the two ends of a future: its promise made and its task on
    the way, and the wrapper run by a worker.  Here they are put together on the
    whole pool, in any interleaving of submitting threads, workers and whoever sets
    the tokens: each promise is set at most once, by its own task, to what its
    function has done or to the cancellation; it is unset only while its task is
    still under way, or for good if the task was refused, which the caller sees as a
    broken promise. *)
From S2P Require Import Prelude TaskPool TaskPoolSpec TaskPoolCounters TaskPoolTheorems TaskPoolSubmit TaskPoolCallbacks TaskFuture.
From AAC_tactics Require Import AAC.

(** Lists up to order, for [aac_reflexivity]. *)
#[local] Instance app_perm_assoc {A} : AAC.Associative (≡ₚ@{A}) (++).
Proof. intros x y z. by rw app_assoc. Qed.
#[local] Instance app_perm_comm {A} : AAC.Commutative (≡ₚ@{A}) (++).
Proof. intros x y. apply Permutation_app_comm. Qed.
#[local] Instance app_perm_lift {A} : AAC.AAC_lift (≡ₚ@{A}) (≡ₚ@{A}).
Proof. split; [apply _|]. intros x y Hxy x' y' Hxy'. by rw Hxy Hxy'. Qed.

(** ** The calls of the tasks' own wrappers that are still to come *)
Section OpenCalls.
Context {T W : Type}.
Implicit Types (s : Pool (T := T) (W := W)) (t : TaskItem (T := T) (W := W)).

Definition own_calls t : list (T * Callback (T := T) (W := W)) := pair (payload t) <$> wrappers t.

Definition submitter_calls (pc : spc (T := T) (W := W)) : list (T * Callback) :=
  concat (own_calls <$> carried pc).

Definition queue_calls (q : list (TaskItem (T := T) (W := W))) : list (T * Callback) :=
  concat (own_calls <$> q).

Definition worker_calls (pc : wpc (T := T) (W := W)) : list (T * Callback) :=
  match pc with
  | WSub t | WProcessed t | WCbLock t | WGlobal t _ => own_calls t
  | WWrap t rest => pair (payload t) <$> rest
  | _ => []
  end.

Definition open_calls s : list (T * Callback) :=
  concat (submitter_calls <$> submitters s) ++ concat (queue_calls <$> queues_ s)
  ++ concat (worker_calls <$> workers_ s).

(** The call a step makes. *)
Definition call_made s (l : label (T := T) (W := W)) : list (T * Callback) :=
  match l with
  | LWorker i _ => match workers_ s !! i with Some (WWrap t (w :: _)) => [(payload t, w)] | _ => [] end
  | _ => []
  end.

(** The sum over a list of lists in one place. *)
Lemma concat_map_insert {A B} (f : A → list B) i x y (l : list A) :
  l !! i = Some x → concat (f <$> <[i := y]> l) ++ f x ≡ₚ concat (f <$> l) ++ f y.
Proof. intros Hi. rw list_fmap_insert. apply concat_insert. by rw list_lookup_fmap Hi. Qed.

Lemma concat_map_same {A B} (f : A → list B) i x y (l : list A) :
  l !! i = Some x → f y = f x → concat (f <$> <[i := y]> l) = concat (f <$> l).
Proof. intros Hi Hf. rw list_fmap_insert Hf list_insert_id; [by rw list_lookup_fmap Hi|done]. Qed.

Lemma concat_map_wake (ws : list (wpc (T := T) (W := W))) :
  concat (worker_calls <$> (wake <$> ws)) = concat (worker_calls <$> ws).
Proof. f_equal. rw -list_fmap_compose. apply list_fmap_ext. by intros i []. Qed.

Lemma queue_calls_app q1 q2 : queue_calls (q1 ++ q2) = queue_calls q1 ++ queue_calls q2.
Proof. by rw /queue_calls fmap_app concat_app. Qed.

Lemma queue_calls_one t : queue_calls [t] = own_calls t.
Proof. by rw /queue_calls /= app_nil_r. Qed.

(** What leaves the submitters, the queues and the workers, and what comes. *)
Lemma parts_move {A} (X X' x y Y Y' v w Z Z' a b out new : list A) :
  X' ++ x ≡ₚ X ++ y → Y' ++ v ≡ₚ Y ++ w → Z' ++ a ≡ₚ Z ++ b →
  y ++ w ++ b ++ out ≡ₚ x ++ v ++ a ++ new →
  (X' ++ Y' ++ Z') ++ out ≡ₚ (X ++ Y ++ Z) ++ new.
Proof.
  intros HX HY HZ Hall. apply (Permutation_app_inv_r (x ++ v ++ a)).
  trans ((X' ++ x) ++ (Y' ++ v) ++ (Z' ++ a) ++ out); [aac_reflexivity|].
  rw HX HY HZ. trans ((X ++ Y ++ Z) ++ (y ++ w ++ b ++ out)); [aac_reflexivity|].
  rw Hall. aac_reflexivity.
Qed.

(** [parts]: the part of the calls in each list a step updates. *)
Ltac part f :=
  match goal with
  | H : ?l !! ?i = Some ?x |- context [f <$> <[?i := ?y]> ?l] => exact (concat_map_insert f i x y l H)
  | _ => exact (reflexivity (_ ++ []))
  end.
Ltac parts :=
  rw /open_calls; cbn [submitters queues_ workers_ at_submitter at_worker set_submitters set_workers set_queue_at];
  eapply parts_move; [part submitter_calls|part queue_calls|part worker_calls|];
  cbn; rw ?queue_calls_app ?queue_calls_one ?app_nil_r //.

Lemma queue_calls_concat (Q : list (list (TaskItem (T := T) (W := W)))) :
  concat (queue_calls <$> Q) = queue_calls (concat Q).
Proof. induction Q as [|q Q IH]; [done|]. by rw /= queue_calls_app IH. Qed.

Lemma open_calls_step s l s' :
  pool_step s l = Next s' →
  open_calls s' ++ call_made s l ++ queue_calls (turned_away s l)
  ≡ₚ open_calls s ++ queue_calls (submitted [l]).
Proof.
  intros Hs. rw /open_calls.
  destruct l as [c t|c|c r|i now|i|now|cfg|fn|cb|cb|]; pool_cases Hs;
    rw ?concat_map_wake //.
  all: try (by rw (concat_map_same _ _ _ _ _ ltac:(eassumption))).
  all: parts; rw ?app_nil_r /=.
  - apply Permutation_app_comm.
  - apply Permutation_app_comm.
  - match goal with H : list.last _ = Some _ |- _ => apply last_Some in H as [q ->] end.
    by rw removelast_last queue_calls_app queue_calls_one.
  - by rw -Permutation_cons_append.
Qed.
End OpenCalls.

(** ** The pool and its futures *)
Section FuturePool.
Context {T U R : Type}.

Abbreviation World := (Futures (R := R) * U)%type.
Abbreviation FPool := (Pool (T := T) (W := World)).

(** What [SubmitWithResult] is called with. *)
Record Job := MkJob {
  job_item : T;
  job_fn : T → M World R;
  job_token : option nat
}.

(** The pool, and as history which call made which promise. *)
Record FutureSys := MkSys { pool_ : FPool; issued : gmap nat Job }.

Inductive future_event :=
  | EResult (c : nat) (j : Job)
  | EToken (k : nat) (b : bool)
  | EPool (l : label (T := T) (W := World)).

(** [std::make_shared<std::atomic<bool>>(b)], [token->store(b)]. *)
Definition put_token (k : nat) (b : bool) (w : World) : World :=
  (MkFutures (promises w.1) (<[k := b]> (tokens w.1)), w.2).

Definition next_sys (r : result (T := T) (W := World)) (js : gmap nat Job) : option FutureSys :=
  match r with Next s => Some (MkSys s js) | _ => None end.

Definition sys_step (v : FutureSys) (e : future_event) : option FutureSys :=
  if gone (pool_ v) then None else
  match e with
  | EResult c j =>
      let '(p, r) := SubmitWithResult c (job_item j) (job_fn j) (job_token j) (pool_ v) in
      next_sys r (<[p := j]> (issued v))
  | EToken k b => Some (MkSys (set_user (put_token k b (user (pool_ v))) (pool_ v)) (issued v))
  | EPool l => next_sys (pool_step (pool_ v) l) (issued v)
  end.

Fixpoint sys_run (v : FutureSys) (es : list future_event) : option FutureSys :=
  match es with
  | [] => Some v
  | e :: es => v' ← sys_step v e; sys_run v' es
  end.

(** The calls that go with the tasks turned away. *)
Definition step_lost (v : FutureSys) (e : future_event) : list (T * Callback) :=
  match e with EPool l => queue_calls (turned_away (pool_ v) l) | _ => [] end.

Fixpoint lost (v : FutureSys) (es : list future_event) : list (T * Callback) :=
  match es with
  | [] => []
  | e :: es => step_lost v e ++ match sys_step v e with Some v' => lost v' es | None => [] end
  end.

(** Code that is given no promise leaves the promises alone: the caller's
    functions and the registered callbacks. *)
Definition same_promises : relation World := λ w w', promises w'.1 = promises w.1.

Definition spares {A} (m : M World A) : Prop := keeps same_promises m.

(** The callbacks an event gives to the pool satisfy [P]. *)
Definition event_calls (P : M World () → Prop) (e : future_event) : Prop :=
  match e with
  | EPool (LSetFinalCallback f) => P f
  | EPool (LRegisterCallback g) => ∀ x, P (g x)
  | _ => True
  end.

Definition event_ok (n : nat) (m : ScheduleMode) (e : future_event) : Prop :=
  event_calls spares e ∧
  match e with
  | EResult _ j => ∀ x, spares (job_fn j x)
  | EPool (LSubmit _ t) => plain t
  | EPool l => label_ok n m l
  | EToken _ _ => True
  end.

Definition tame_worker (P : M World () → Prop) (pc : wpc (T := T) (W := World)) : Prop :=
  match pc with WGlobal _ rest => Forall (λ g, ∀ x, P (g x)) rest | _ => True end.

(** The pool's callbacks, and those a worker is going through, satisfy [P]. *)
Record tame (P : M World () → Prop) (s : FPool) : Prop := {
  tame_callbacks : Forall (λ g, ∀ x, P (g x)) (global_callbacks_ s);
  tame_workers : Forall (tame_worker P) (workers_ s);
  tame_final : ∀ f, final_callback_ s = Some f → P f
}.

(** The call that settles a promise, and what it may settle it to. *)
Definition call_of (pj : nat * Job) : T * Callback :=
  (job_item pj.2, result_wrapper (job_fn pj.2) pj.1 (job_token pj.2)).

Definition settled_by (j : Job) (o : shared_state (R := R)) : Prop :=
  (job_token j ≠ None ∧ o = HasException (runtime_error "Task canceled before enqueue"))
  ∨ ∃ w w', outcome_of (job_fn j) (job_item j) (job_token j) w = Some (o, w').

Definition future_state (v : FutureSys) (p : nat) : option shared_state :=
  promises (user (pool_ v)).1 !! p.

(** [waiting]: the promises whose tasks are under way; [broken]: those whose tasks
    were turned away. *)
Record futures_ok (gone_calls : list (T * Callback)) (waiting broken : list (nat * Job))
    (v : FutureSys) : Prop := {
  futures_distinct : NoDup ((waiting ++ broken).*1);
  futures_waiting : open_calls (pool_ v) ≡ₚ call_of <$> waiting;
  futures_broken : gone_calls ≡ₚ call_of <$> broken;
  futures_pending p j : (p, j) ∈ waiting ++ broken →
    issued v !! p = Some j ∧ future_state v p = Some Pending;
  futures_settled p j : issued v !! p = Some j →
    (p, j) ∈ waiting ++ broken ∨ ∃ o, future_state v p = Some o ∧ settled_by j o;
  futures_functions p j : issued v !! p = Some j → ∀ x, spares (job_fn j x);
  futures_tame : tame spares (pool_ v)
}.

Lemma settled_not_pending j o : settled_by j o → o ≠ Pending.
Proof.
  intros [[_ ->]|(w & w' & Ho)]; [done|]. rw /outcome_of in Ho.
  destruct (token_set _ _); [by simplify_eq|]. destruct (job_fn j _ _); by simplify_eq.
Qed.

Lemma tame_wakes P (ws : list (wpc (T := T) (W := World))) :
  Forall (tame_worker P) ws → Forall (tame_worker P) (wake <$> ws).
Proof. intros Hw. apply Forall_fmap. eapply Forall_impl; [|exact Hw]. by intros []. Qed.

Lemma after_keeps (m : M World ()) w : spares m → promises (after m w).1 = promises w.1.
Proof. intros Hm. rw /after. specialize (Hm w). by destruct (m w). Qed.

Lemma pool_step_tame P s l s' :
  event_calls P (EPool l) → pool_step s l = Next s' → tame P s → tame P s'.
Proof.
  intros Hl Hs [Hg Hw Hf].
  destruct l as [c t|c|c r|i now|i|now|cfg|fn|cb|cb|]; pool_cases Hs;
    split; cbn; try done; try (by apply tame_wakes); plain_lookup;
    try (apply Forall_insert; [done|]); cbn in *; try done.
  all: try match goal with H : final_callback_ _ = _ |- _ => by rw H end.
  - by apply list.Forall_cons in Hp as [_ ?].
  - by intros f [= <-].
  - apply list.Forall_app. by rw list.Forall_singleton.
Qed.

(** Steps that call no wrapper leave the promises as they are. *)
Lemma step_keeps_promises s l s' :
  tame spares s → call_made s l = [] → pool_step s l = Next s' →
  promises (user s').1 = promises (user s).1.
Proof.
  intros [Hg Hw Hf] Hcall Hs. rw /call_made in Hcall.
  destruct l as [c t|c|c r|i now|i|now|cfg|fn|cb|cb|]; pool_cases Hs; try done; plain_lookup; cbn in *.
  - apply after_keeps. apply list.Forall_cons in Hp as [Hc _]. by apply Hc.
  - apply after_keeps. by apply Hf.
Qed.

Lemma split_calls {A B} (f : A → B) k l1 l2 :
  f <$> k ≡ₚ l1 ++ l2 → ∃ k1 k2, k ≡ₚ k1 ++ k2 ∧ l1 = f <$> k1 ∧ l2 = f <$> k2.
Proof.
  intros Hp. symmetry in Hp. destruct (Permutation_map_inv _ _ Hp) as (k' & Heq & Hk).
  symmetry in Heq. apply fmap_app_inv in Heq as (k1 & k2 & -> & -> & ->).
  by exists k1, k2.
Qed.

(** The lists in another order. *)
Lemma futures_ok_perm gc gc' ws ws' bs bs' v :
  gc ≡ₚ gc' → ws ≡ₚ ws' → bs ≡ₚ bs' → futures_ok gc ws bs v → futures_ok gc' ws' bs' v.
Proof.
  intros Hg Hw Hb [Hnd Hopen Hlost Hpend Hset Hfn Ht].
  assert (Hwb : ws ++ bs ≡ₚ ws' ++ bs') by by rw Hw Hb.
  split; [by rw -Hwb|by rw -Hw|by rw -Hg -Hb|..|done|done]; intros p j; rw -Hwb; auto.
Qed.

(** A step that calls no wrapper: some waiting promises may be broken. *)
Lemma quiet_step_ok gc ws bs v l s' :
  tame spares s' → call_made (pool_ v) l = [] → queue_calls (submitted [l]) = [] →
  pool_step (pool_ v) l = Next s' → futures_ok gc ws bs v →
  ∃ ws' bs', futures_ok (gc ++ queue_calls (turned_away (pool_ v) l)) ws' bs' (MkSys s' (issued v)).
Proof.
  intros Ht' Hcall Hsub Hs [Hnd Hopen Hlost Hpend Hset Hfn Ht].
  pose proof (open_calls_step _ _ _ Hs) as Hc. rw Hcall Hsub app_nil_l app_nil_r Hopen in Hc.
  symmetry in Hc. destruct (split_calls call_of _ _ _ Hc) as (w1 & w2 & Hw & Ho & Hl).
  assert (Hp : ∀ p, future_state (MkSys s' (issued v)) p = future_state v p).
  { intros p. by rw /future_state /= (step_keeps_promises _ _ _ Ht Hcall Hs). }
  assert (Hwb : w1 ++ bs ++ w2 ≡ₚ ws ++ bs) by (rw Hw; aac_reflexivity).
  exists w1, (bs ++ w2). split; [by rw Hwb|by rw /= Ho|by rw Hlost Hl fmap_app|..|done|done];
    intros p j; rw Hwb Hp; auto.
Qed.

Lemma result_wrapper_undef (fn : T → M World R) p token t (w : World) :
  outcome_of fn t token w = None → ∃ u, result_wrapper fn p token t w = Undef u.
Proof.
  rw /outcome_of /result_wrapper /catch /mbind /M_bind /gets.
  destruct (token_set token w); [done|]. destruct (fn t w) as [| |u]; try done. intros _. by exists u.
Qed.

Lemma outcome_keeps (fn : T → M World R) t token (w w' : World) o :
  (∀ x, spares (fn x)) → outcome_of fn t token w = Some (o, w') → promises w'.1 = promises w.1.
Proof.
  intros Hfn. rw /outcome_of. destruct (token_set token w); [by intros [= _ <-]|].
  specialize (Hfn t w). destruct (fn t w); intros [= _ <-]; done.
Qed.

(** A worker runs a wrapper: its promise is set. *)
Lemma wrapper_step s i now p j t rest s' :
  workers_ s !! i = Some (WWrap t (result_wrapper (job_fn j) p (job_token j) :: rest)) →
  payload t = job_item j → (∀ x, spares (job_fn j x)) → promises (user s).1 !! p = Some Pending →
  pool_step s (LWorker i now) = Next s' →
  ∃ o, settled_by j o ∧ promises (user s').1 = <[p := o]> (promises (user s).1).
Proof.
  intros Hi Hpay Hfn Hp. rw /pool_step. destruct (gone s); [done|].
  rw /ProcessLoop_step Hi /call_swallowed Hpay.
  destruct (outcome_of (job_fn j) (job_item j) (job_token j) (user s)) as [[o w']|] eqn:Ho.
  - pose proof (outcome_keeps _ _ _ _ _ _ Hfn Ho) as Hk.
    rw (result_wrapper_runs _ _ _ _ _ w' o) //; [by rw Hk|]. intros [= <-].
    exists o. rw /= Hk. split; [|done]. right. by exists (user s), w'.
  - destruct (result_wrapper_undef _ p _ _ _ Ho) as [u Hu]. by rw Hu.
Qed.

(** [once v v']: what is settled stays as it is. *)
Definition once (v v' : FutureSys) : Prop :=
  ∀ p o, future_state v p = Some o → o ≠ Pending → future_state v' p = Some o.

Lemma call_step_ok gc ws bs v i now t w rest s' :
  tame spares s' → workers_ (pool_ v) !! i = Some (WWrap t (w :: rest)) →
  pool_step (pool_ v) (LWorker i now) = Next s' → futures_ok gc ws bs v →
  ∃ ws', futures_ok gc ws' bs (MkSys s' (issued v)) ∧ once v (MkSys s' (issued v)).
Proof.
  intros Ht' Hi Hs [Hnd Hopen Hlost Hpend Hset Hfn Ht].
  pose proof (open_calls_step _ _ _ Hs) as Hc. rw /call_made Hi /queue_calls /= !app_nil_r Hopen in Hc.
  symmetry in Hc. destruct (split_calls call_of _ _ _ Hc) as (w1 & w2 & Hw & Ho & Hl).
  destruct w2 as [|[p j] [|? ?]]; try done. injection Hl as Hpay ->. cbn in Hpay.
  assert (Hwb : ws ++ bs ≡ₚ (p, j) :: w1 ++ bs) by by rw Hw -Permutation_cons_append.
  destruct (Hpend p j) as [Hj Hp]; [rw Hwb; by left|].
  destruct (wrapper_step _ _ _ p j t rest s' Hi Hpay (Hfn p j Hj) Hp Hs) as (o & Hso & Hpr).
  rw Hwb /= in Hnd. apply list.NoDup_cons in Hnd as [Hnot Hnd].
  assert (Hne : ∀ q k, (q, k) ∈ w1 ++ bs → q ≠ p).
  { intros q k Hq ->. apply Hnot. by apply (list_elem_of_fmap_2 fst _ (p, k)). }
  assert (Hkeep : ∀ q, q ≠ p → future_state (MkSys s' (issued v)) q = future_state v q).
  { intros q Hq. by rw /future_state /= Hpr lookup_insert_ne. }
  exists w1. split.
  - split; [done|by rw /= Ho|done|..|done|done].
    + intros q k Hq. rw (Hkeep q (Hne q k Hq)). apply Hpend. rw Hwb. by right.
    + intros q k Hk. destruct (decide (q = p)) as [->|Hqp].
      * right. exists o. rw /future_state /= Hpr lookup_insert_eq. split; [done|].
        cbn in Hk. by simplify_eq.
      * rw (Hkeep q Hqp). destruct (Hset q k Hk) as [Hin|?]; [|by right].
        rw Hwb in Hin. apply elem_of_cons in Hin as [?|?]; [by simplify_eq|by left].
  - intros q o' Hq Hpen. rw Hkeep //. intros ->. congruence.
Qed.

(** A new promise, pending with its task or settled at once. *)
Lemma new_promise_ok gc ws bs v v' p j :
  future_state v p = None → (∀ q, q ≠ p → future_state v' q = future_state v q) →
  issued v' = <[p := j]> (issued v) → (∀ x, spares (job_fn j x)) → tame spares (pool_ v') →
  future_state v' p = Some Pending
    ∧ open_calls (pool_ v') ≡ₚ open_calls (pool_ v) ++ [call_of (p, j)]
  ∨ (∃ o, future_state v' p = Some o ∧ settled_by j o)
    ∧ open_calls (pool_ v') ≡ₚ open_calls (pool_ v) →
  futures_ok gc ws bs v → ∃ ws', futures_ok gc ws' bs v' ∧ once v v'.
Proof.
  intros Hp Hkeep Hiss Hfnj Ht' Hcase [Hnd Hopen Hlost Hpend Hset Hfn Ht].
  assert (Hnot : ∀ k, (p, k) ∉ ws ++ bs) by (intros k Hk; destruct (Hpend p k Hk); congruence).
  assert (Hfresh : p ∉ (ws ++ bs).*1).
  { intros ([? k] & -> & Hk)%list_elem_of_fmap. by destruct (Hnot k). }
  assert (Hold : ∀ q k, (q, k) ∈ ws ++ bs → issued v' !! q = Some k ∧ future_state v' q = Some Pending).
  { intros q k Hq. assert (q ≠ p) by (intros ->; by destruct (Hnot k)).
    rw Hiss lookup_insert_ne // Hkeep //. by apply Hpend. }
  assert (Hrest : ∀ q k, q ≠ p → issued v' !! q = Some k →
            (q, k) ∈ ws ++ bs ∨ ∃ o, future_state v' q = Some o ∧ settled_by k o).
  { intros q k Hq. rw Hiss lookup_insert_ne // Hkeep //. apply Hset. }
  assert (Hfns : ∀ q k, issued v' !! q = Some k → ∀ x, spares (job_fn k x)).
  { intros q k. rw Hiss lookup_insert. case_decide; [by intros [= <-]|apply Hfn]. }
  assert (Honce : once v v') by (intros q o Hq Ho; rw Hkeep //; intros ->; congruence).
  assert (Hj : issued v' !! p = Some j) by by rw Hiss lookup_insert_eq.
  destruct Hcase as [[Hpen Hop]|[Hso Hop]]; rw Hopen in Hop.
  - assert (Hwb : (ws ++ [(p, j)]) ++ bs ≡ₚ (p, j) :: ws ++ bs) by by rw -(Permutation_cons_append ws).
    exists (ws ++ [(p, j)]). split; [|done]. split; [|by rw fmap_app|done|..|done|done].
    + rw Hwb. by constructor.
    + intros q k. rw Hwb elem_of_cons. intros [?|?]; [by simplify_eq|by apply Hold].
    + intros q k Hq. rw Hwb elem_of_cons. destruct (decide (q = p)) as [->|Hqp]; [left; left; congruence|].
      destruct (Hrest q k Hqp Hq) as [?|?]; [left; by right|by right].
  - exists ws. split; [|done]. split; [done|done|done|done| |done|done].
    intros q k Hq. destruct (decide (q = p)) as [->|Hqp]; [right|by apply Hrest].
    assert (k = j) as -> by congruence. done.
Qed.

Lemma Submit_call_Next c t s s' :
  Submit_call c t s = Next s' → s' = at_submitter (T := T) (W := World) c (SLoad t) s.
Proof. rw /Submit_call. destruct (submitters s !! c) as [[]|]; try done. by intros [= <-]. Qed.

(** A call of [SubmitWithResult]. *)
Lemma result_step_ok n m gc ws bs v c j v' :
  event_ok n m (EResult c j) → sys_step v (EResult c j) = Some v' → futures_ok gc ws bs v →
  ∃ ws', futures_ok gc ws' bs v' ∧ once v v'.
Proof.
  intros [_ Hok] Hs Hv. pose proof (futures_tame _ _ _ _ Hv) as Ht.
  rw /sys_step in Hs. destruct (gone (pool_ v)) eqn:Hg; [done|].
  rw /SubmitWithResult /new_promise in Hs. set (p := fresh _) in Hs.
  assert (Hp : promises (user (pool_ v)).1 !! p = None) by apply not_elem_of_dom, is_fresh.
  clearbody p. change (token_set _ _) with (token_set (job_token j) (user (pool_ v))) in Hs.
  destruct (token_set (job_token j) (user (pool_ v))) eqn:Htok.
  - injection Hs as <-. eapply (new_promise_ok gc ws bs v _ p j Hp); [|reflexivity|exact Hok| | |exact Hv].
    + intros q Hq. by rw /future_state /= !lookup_insert_ne.
    + by destruct Ht.
    + right. split; [|done]. eexists. split; [by rw /future_state /= lookup_insert_eq|].
      left. split; [|done]. by destruct (job_token j).
  - set (t := Task _ _) in Hs. set (s1 := set_user _ _) in Hs.
    destruct (Submit_call c t s1) as [s2| |] eqn:Hs2; try done. injection Hs as <-.
    assert (Hs : pool_step s1 (LSubmit c t) = Next s2).
    { rw /pool_step. change (gone s1) with (gone (pool_ v)). by rw Hg. }
    pose proof (open_calls_step s1 (LSubmit c t) s2 Hs) as Hop.
    rw /= queue_calls_one /queue_calls /= app_nil_r in Hop.
    apply Submit_call_Next in Hs2 as ->.
    eapply (new_promise_ok gc ws bs v _ p j Hp); [|reflexivity|exact Hok| | |exact Hv].
    + intros q Hq. by rw /future_state /= lookup_insert_ne.
    + by destruct Ht.
    + left. split; [|exact Hop]. by rw /future_state /= lookup_insert_eq.
Qed.

Lemma plain_calls n m l : event_ok n m (EPool l) → queue_calls (submitted [l]) = [].
Proof. intros [_ Hp]. destruct l; try done. by rw /queue_calls /= /own_calls Hp. Qed.

Lemma sys_step_ok n m gc ws bs v e v' :
  event_ok n m e → sys_step v e = Some v' → futures_ok gc ws bs v →
  ∃ ws' bs', futures_ok (gc ++ step_lost v e) ws' bs' v' ∧ once v v'.
Proof.
  intros Hok Hs Hv. pose proof (futures_tame _ _ _ _ Hv) as Ht. destruct e as [c j|k b|l].
  - destruct (result_step_ok n m gc ws bs v c j v' Hok Hs Hv) as (ws' & Hv' & Ho).
    exists ws', bs. by rw app_nil_r.
  - rw /sys_step in Hs. destruct (gone _); [done|]. injection Hs as <-. exists ws, bs.
    rw app_nil_r. split; [|by intros p o]. by destruct Hv, Ht.
  - rw /sys_step in Hs. destruct (gone (pool_ v)); [done|].
    destruct (pool_step (pool_ v) l) as [s'| |] eqn:Hl; try done. injection Hs as <-.
    pose proof (pool_step_tame spares _ _ _ (proj1 Hok) Hl Ht) as Ht'.
    destruct (call_made (pool_ v) l) as [|call calls] eqn:Hcall.
    + destruct (quiet_step_ok gc ws bs v l s' Ht' Hcall (plain_calls n m l Hok) Hl Hv) as (ws' & bs' & Hv').
      exists ws', bs'. split; [done|]. intros p o. by rw /future_state (step_keeps_promises _ _ _ Ht Hcall Hl).
    + destruct l as [| | |i now| | | | | | |]; try done. cbn in Hcall.
      destruct (workers_ (pool_ v) !! i) as [[]|] eqn:Hi; try done. destruct rest as [|w rest]; [done|].
      destruct (call_step_ok gc ws bs v i now t w rest s' Ht' Hi Hl Hv) as (ws' & Hv' & Ho).
      exists ws', bs. by rw app_nil_r.
Qed.

Lemma sys_run_ok n m gc ws bs v es v' :
  Forall (event_ok n m) es → sys_run v es = Some v' → futures_ok gc ws bs v →
  ∃ ws' bs', futures_ok (gc ++ lost v es) ws' bs' v' ∧ once v v'.
Proof.
  intros Hes. induction Hes as [|e es He Hes IH] in gc, ws, bs, v |- *; cbn.
  { intros [= <-] Hv. exists ws, bs. rw app_nil_r. split; [done|by intros p o]. }
  destruct (sys_step v e) as [v1|] eqn:Hs; [|done]. intros Hrun Hv.
  destruct (sys_step_ok n m gc ws bs v e v1 He Hs Hv) as (ws1 & bs1 & Hv1 & Ho1).
  destruct (IH _ _ _ _ Hrun Hv1) as (ws' & bs' & Hv' & Ho'). exists ws', bs'.
  rw app_assoc. split; [done|]. intros p o Hp Hne. apply (Ho' p o); [by apply Ho1|done].
Qed.

(** ** The pool's own invariant, and the beginning *)
(** What the pool's steps keep, whatever the user's world is, a call of
    [SubmitWithResult] keeps. *)
Lemma sys_step_lift (P : FPool → Prop) (ok : label → Prop) v e v' :
  (∀ w s, P s → P (set_user w s)) → (∀ s l s', ok l → pool_step s l = Next s' → P s → P s') →
  (∀ c t, ok (LSubmit c t)) → (∀ l, e = EPool l → ok l) →
  sys_step v e = Some v' → P (pool_ v) → P (pool_ v').
Proof.
  intros Huser Hstep Hsubmit Hok Hs Hv. rw /sys_step in Hs. destruct (gone (pool_ v)) eqn:Hg; [done|].
  destruct e as [c j|k b|l].
  - rw /SubmitWithResult /new_promise in Hs. set (p := fresh _) in Hs. clearbody p.
    destruct (token_set _ _); [injection Hs as <-; by do 2 apply Huser|].
    set (t := Task _ _) in Hs. set (s1 := set_user _ _) in Hs.
    destruct (Submit_call c t s1) as [s2| |] eqn:Hs2; try done. injection Hs as <-.
    apply (Hstep s1 (LSubmit c t)); [done| |by apply Huser].
    rw /pool_step. change (gone s1) with (gone (pool_ v)). by rw Hg.
  - injection Hs as <-. by apply Huser.
  - destruct (pool_step (pool_ v) l) as [s'| |] eqn:Hl; try done. injection Hs as <-.
    by apply (Hstep (pool_ v) l); [apply Hok| |].
Qed.

Lemma sys_run_invariant (P : FutureSys → Prop) (ok : future_event → Prop) v es v' :
  (∀ v e v', ok e → sys_step v e = Some v' → P v → P v') →
  Forall ok es → sys_run v es = Some v' → P v → P v'.
Proof.
  intros Hstep Hes. induction Hes as [|e es He Hes IH] in v |- *; cbn; [by intros [= <-]|].
  destruct (sys_step v e) as [v1|] eqn:Hs; [|done]. intros Hrun Hv.
  apply (IH v1 Hrun). by eapply Hstep.
Qed.

Lemma sys_run_pool n m v es v' :
  0 < n → Forall (event_ok n m) es → sys_run v es = Some v' → pool_ok n m (pool_ v) →
  pool_ok n m (pool_ v').
Proof.
  intros Hn. apply (sys_run_invariant (λ v, pool_ok n m (pool_ v))). clear v v' es.
  intros v e v' [_ Hok] Hs. apply (sys_step_lift (pool_ok n m) (label_ok n m) v e); [| |done| |done].
  - intros w s. apply pool_ok_set_user.
  - intros s l s' Hl Hstep. by apply (pool_step_ok n m s l).
  - intros l ->. by destruct l.
Qed.

Lemma open_calls_rest n m s :
  0 < n → pool_ok n m s → at_rest s → (Z.of_nat (length (pushed s)) < 2 ^ 64)%Z →
  open_calls (T := T) (W := World) s = [].
Proof.
  intros Hn Hok [Hr Hidle Hasleep] Hb.
  destruct (asleep_drained n m s Hn Hok Hr Hb Hidle Hasleep) as [Hq _]. rw /open_calls.
  assert (concat (submitter_calls <$> submitters s) = []) as ->.
  { clear -Hidle. by induction Hidle as [|pc ss <- _ IH]. }
  by rw (rest_nothing worker_calls) // queue_calls_concat Hq.
Qed.

Lemma futures_new gs hw cfg now k w s0 :
  registered gs hw cfg now k w s0 → Forall (λ g, ∀ x, spares (g x)) gs →
  futures_ok [] [] [] (MkSys s0 ∅).
Proof.
  intros (s1 & Hnew & Hreg) Hgs. apply register_all in Hreg as ->. apply constructed in Hnew as [b ->].
  split; [by constructor| |done| | | |].
  - by rw /open_calls /= !fmap_replicate !concat_nils.
  - by intros p j ?%not_elem_of_nil.
  - by intros p j.
  - by intros p j.
  - split; [done| |done]. by apply Forall_replicate.
Qed.

(** C6: the futures of [SubmitWithResult] on the whole pool.  In every interleaving
    of callers, workers, tokens set and further submissions, when neither the callers'
    functions nor the registered callbacks touch a promise (they are given none):
    every promise made is set to what its own function has done with its own item in
    the world the worker found, value or exception, or to the cancellation its token
    asked for, and then stays as it is whatever follows; or it is unset, and its
    wrapper, which is its own, is one of those still with the pool's tasks, each there
    once, or one of those turned away with their tasks (the future is then broken).
    Once the pool is at rest only the latter are unset. *)
Theorem futures_settled_once gs hw cfg now k w s0 es v es' v' :
  setup_ok cfg → registered gs hw cfg now k w s0 → Forall (λ g, ∀ x, spares (g x)) gs →
  Forall (event_ok (num_threads cfg) (mode cfg)) es → sys_run (MkSys s0 ∅) es = Some v →
  Forall (event_ok (num_threads cfg) (mode cfg)) es' → sys_run v es' = Some v' →
  ∃ waiting broken, NoDup ((waiting ++ broken).*1)
    ∧ open_calls (pool_ v) ≡ₚ call_of <$> waiting
    ∧ lost (MkSys s0 ∅) es ≡ₚ call_of <$> broken
    ∧ (∀ p j, issued v !! p = Some j →
         (p, j) ∈ waiting ++ broken ∧ future_state v p = Some Pending
         ∨ ∃ o, future_state v p = Some o ∧ settled_by j o ∧ future_state v' p = Some o)
    ∧ (at_rest (pool_ v) → (Z.of_nat (length (pushed (pool_ v))) < 2 ^ 64)%Z → waiting = []).
Proof.
  intros Hsetup Hreg Hgs Hes Hrun Hes' Hrun'. pose proof (some_threads _ Hsetup) as Hn.
  pose proof (futures_new _ _ _ _ _ _ _ Hreg Hgs) as H0.
  destruct (answers_new _ _ _ _ _ _ _ Hsetup Hreg) as ([Hpool _ _ _ _ _] & _).
  destruct (sys_run_ok _ _ _ _ _ _ _ _ Hes Hrun H0) as (waiting & broken & Hv & _).
  destruct (sys_run_ok _ _ _ _ _ _ _ _ Hes' Hrun' Hv) as (_ & _ & _ & Ho).
  destruct Hv as [Hnd Hopen Hlost Hpend Hset _ _]. exists waiting, broken. split_and!; [done..| |].
  - intros p j Hj. destruct (Hset p j Hj) as [Hin|(o & Hp & Hs)].
    + left. split; [done|]. by destruct (Hpend p j Hin).
    + right. exists o. split_and!; [done..|]. apply (Ho p o Hp). by eapply settled_not_pending.
  - intros Hrest Hb. pose proof (sys_run_pool _ _ _ _ _ Hn Hes Hrun Hpool) as Hok.
    rw (open_calls_rest _ _ _ Hn Hok Hrest Hb) in Hopen. symmetry in Hopen.
    by apply Permutation_nil_r, fmap_nil_inv in Hopen.
Qed.
End FuturePool.

(** ** Witness: room for one task.  The first future gets its value, the second is
    cancelled by its token, the third finds no room; then a fourth is on its way. *)
Definition tight_cfg : TaskProcessorConfig :=
  Cfg "futures" 1 FIFO None 1 5000 10 1 1000 5000 true true false true.

Definition tight_pool : Pool (T := nat) (W := Futures (R := nat) * ()) :=
  members tight_cfg 0 1 (MkFutures ∅ ∅, ()).

Definition double_job (x : nat) (token : option nat) : Job (T := nat) (U := ()) (R := nat) :=
  MkJob x double token.

Definition tight_events : list (future_event (T := nat) (U := ()) (R := nat)) :=
  EResult 0 (double_job 21 None) :: (EPool <$> replicate 5 (LSubmitter 0))
  ++ [EToken 5 true; EResult 0 (double_job 3 (Some 5)); EResult 0 (double_job 4 None)]
  ++ (EPool <$> (replicate 2 (LSubmitter 0) ++ replicate 18 (LWorker 0 0))).

Definition later_events : list (future_event (T := nat) (U := ()) (R := nat)) :=
  [EResult 0 (double_job 5 None); EToken 5 false; EPool (LSubmitter 0)].

Definition after_events {T U R} (v : FutureSys (T := T) (U := U) (R := R)) es : FutureSys :=
  default v (sys_run v es).

Lemma futures_settled_once_witness :
  let v0 := MkSys tight_pool ∅ in
  let v := after_events v0 tight_events in let v' := after_events v later_events in
  (∃ waiting broken, NoDup ((waiting ++ broken).*1)
    ∧ open_calls (pool_ v) ≡ₚ call_of <$> waiting ∧ lost v0 tight_events ≡ₚ call_of <$> broken
    ∧ (∀ p j, issued v !! p = Some j →
         (p, j) ∈ waiting ++ broken ∧ future_state v p = Some Pending
         ∨ ∃ o, future_state v p = Some o ∧ settled_by j o ∧ future_state v' p = Some o)
    ∧ (at_rest (pool_ v) → (Z.of_nat (length (pushed (pool_ v))) < 2 ^ 64)%Z → waiting = []))
  ∧ sys_run v0 tight_events = Some v ∧ workers_ (pool_ v) = [WAsleep]
  ∧ future_state v <$> [0; 1; 2; 3]
    = [Some (HasValue 42); Some (HasException (runtime_error "Task canceled before enqueue"));
       Some Pending; None]
  ∧ future_state v' 3 = Some Pending.
Proof.
  cbv zeta. split; [|by vm_compute].
  apply (futures_settled_once []) with (hw := 4) (cfg := tight_cfg) (now := 0%Z) (k := 1)
    (w := (MkFutures ∅ ∅, ())) (es' := later_events); 
    [split; [cbn; lia|]|by exists tight_pool|done| |by vm_compute| |by vm_compute].
  - intros sizes Hl. apply DefaultStealPolicy_range; [cbn; lia|done].
  - by repeat (apply list.Forall_cons; split; [done|]).
  - by repeat (apply list.Forall_cons; split; [done|]).
Defined.
