(* ===== verification/TaskFutureAnswers.v ===== *)
(** * Every future that is not refused can be had

    The pool with futures comes to rest from wherever it is, as a pool with
    nothing but callbacks does: no wrapper is undefined, since its promise is there
    and unset when its turn comes.  So nothing a caller of [SubmitWithResult] waits
    for is lost, unless its task was turned away. *)
From S2P Require Import Prelude TaskPool TaskPoolSpec TaskPoolCounters TaskPoolTheorems TaskPoolSubmit TaskPoolCallbacks TaskPoolRest TaskPoolSettles TaskFuture TaskPoolFutures.

Section Answers.
Context {T U R : Type}.
Abbreviation World := (Futures (R := R) * U)%type.
Abbreviation FPool := (Pool (T := T) (W := World)).
Implicit Types (v : FutureSys (T := T) (U := U) (R := R)) (s : FPool)
  (e : future_event (T := T) (U := U) (R := R)).

Definition no_undef {A} (m : M World A) : Prop := ∀ w u, m w ≠ Undef u.

(** The callers' functions and the callbacks have no undefined behaviour of their own. *)
Definition event_defined e : Prop :=
  event_calls no_undef e ∧ match e with EResult _ j => ∀ x, no_undef (job_fn j x) | _ => True end.

Record code_defined v : Prop := {
  callbacks_defined : tame no_undef (pool_ v);
  jobs_defined p j : issued v !! p = Some j → ∀ x, no_undef (job_fn j x)
}.

Lemma tame_user P w s : tame P s → tame P (set_user w s).
Proof. intros []. by split. Qed.

Lemma sys_step_issued v e v' :
  sys_step v e = Some v' →
  issued v' = issued v ∨ ∃ c j p, e = EResult c j ∧ issued v' = <[p := j]> (issued v).
Proof.
  rw /sys_step. destruct (gone _); [done|]. destruct e as [c j|k b|l].
  - rw /SubmitWithResult /new_promise. set (p := fresh _). clearbody p.
    destruct (token_set _ _); [intros [= <-]; right; by exists c, j, p|].
    destruct (Submit_call _ _ _); intros [= <-]. right. by exists c, j, p.
  - intros [= <-]. by left.
  - destruct (pool_step _ _); intros [= <-]. by left.
Qed.

Lemma sys_step_defined v e v' :
  event_defined e → sys_step v e = Some v' → code_defined v → code_defined v'.
Proof.
  intros [Hcalls Hjob] Hs [Ht Hj]. split.
  - apply (sys_step_lift (tame no_undef) (λ l, event_calls no_undef (EPool l)) v e); try done.
    + intros w s. apply tame_user.
    + intros s l s'. apply pool_step_tame.
    + by intros l ->.
  - intros p j. destruct (sys_step_issued v e v' Hs) as [->|(c & k & q & -> & ->)]; [apply Hj|].
    rw lookup_insert. case_decide; [by intros [= <-]|apply Hj].
Qed.

(** The invariant under which the workers' calls are defined. *)
Definition futures_callable s : Prop :=
  ∃ v gc ws bs, pool_ v = s ∧ futures_ok gc ws bs v ∧ code_defined v.

(** A wrapper whose turn has come is that of a promise that waits. *)
Lemma wrapper_waits gc ws bs v i t w rest :
  futures_ok gc ws bs v → workers_ (pool_ v) !! i = Some (WWrap t (w :: rest)) →
  ∃ p j, issued v !! p = Some j ∧ future_state v p = Some Pending
    ∧ payload t = job_item j ∧ w = result_wrapper (job_fn j) p (job_token j).
Proof.
  intros [Hnd Hopen Hlost Hpend Hset Hfn Ht] Hi.
  assert (Hin : (payload t, w) ∈ open_calls (pool_ v)).
  { rw /open_calls !elem_of_app. right. right. apply list_elem_of_In, in_concat.
    exists (worker_calls (WWrap t (w :: rest))). split; [|by left].
    apply list_elem_of_In. apply list_elem_of_fmap_2. by apply list_elem_of_lookup_2 in Hi. }
  rw Hopen list_elem_of_fmap in Hin. destruct Hin as ([p j] & Heq & Hin). injection Heq as Hpay ->.
  destruct (Hpend p j) as [Hj Hp]; [rw elem_of_app; by left|]. by exists p, j.
Qed.

#[export] Instance futures_are_callable : Callable futures_callable.
Proof.
  split.
  - intros s l s' Hl Hs (v & gc & ws & bs & <- & Hv & Hd).
    assert (Hsys : sys_step v (EPool l) = Some (MkSys s' (issued v))).
    { rw /sys_step Hs. rw /pool_step in Hs. by destruct (gone (pool_ v)). }
    destruct (sys_step_ok 0 FIFO gc ws bs v (EPool l) _ ltac:(by destruct l) Hsys Hv)
      as (ws' & bs' & Hv' & _).
    eexists _, _, ws', bs'. split_and!; [|exact Hv'|]; [done|].
    apply (sys_step_defined v (EPool l)); [by destruct l|done..].
  - intros s i t g rest u (v & gc & ws & bs & <- & Hv & Hd) [Hi|Hi] Hu.
    + pose proof (tame_workers _ _ (callbacks_defined v Hd)) as Ht.
      pose proof (proj1 (list.Forall_lookup _ _) Ht _ _ Hi) as Hg. cbn in Hg.
      apply list.Forall_cons in Hg as [Hg _]. by apply (Hg (payload t) (user (pool_ v)) u).
    + destruct (wrapper_waits gc ws bs v i t g rest Hv Hi) as (p & j & Hj & Hp & Hpay & ->).
      pose proof (futures_functions _ _ _ _ Hv p j Hj) as Hsp.
      destruct (outcome_of (job_fn j) (payload t) (job_token j) (user (pool_ v))) as [[o w']|] eqn:Ho.
      * pose proof (outcome_keeps _ _ _ _ _ _ Hsp Ho) as Hk.
        rw (result_wrapper_runs _ _ _ _ _ w' o) in Hu; [exact Hp|done|by rw Hk|done].
      * rw /outcome_of in Ho. destruct (token_set _ _); [done|].
        destruct (job_fn j (payload t) (user (pool_ v))) eqn:Hf; try done.
        by apply (jobs_defined v Hd p j Hj (payload t) (user (pool_ v)) u0).
Qed.

(** ** Runs *)
Lemma sys_run_app v es1 es2 :
  sys_run v (es1 ++ es2) = (v' ← sys_run v es1; sys_run v' es2).
Proof.
  induction es1 as [|e es1 IH] in v |- *; cbn; [done|]. destruct (sys_step v e) as [v1|]; [apply IH|done].
Qed.

Lemma sys_run_labels v ks s' :
  pool_run (pool_ v) ks = Next s' → sys_run v (EPool <$> ks) = Some (MkSys s' (issued v)).
Proof.
  induction ks as [|l ks IH] in v |- *; cbn; [intros [= <-]; by destruct v|].
  intros (s1 & Hs & Hrun)%and_then_Next. rw /sys_step Hs /=.
  assert (gone (pool_ v) = false) as ->; [|by apply (IH (MkSys s1 (issued v)))].
  rw /pool_step in Hs. by destruct (gone (pool_ v)).
Qed.

Definition event_backoff e : Prop := match e with EPool l => backoff_label l | _ => True end.

(** Steps of the threads in the pool, as events. *)
Lemma unprompted_events n m ks :
  Forall unprompted ks →
  Forall (event_ok n m) (EPool <$> ks) ∧ Forall (λ e, event_defined e ∧ event_backoff e) (EPool <$> ks).
Proof. intros Hks. split; apply list.Forall_fmap; (eapply Forall_impl; [|exact Hks]); by intros []. Qed.

Lemma lost_turns now turns v : lost v (EPool <$> ((λ i, LWorker i now) <$> turns)) = [].
Proof.
  induction turns as [|i turns IH] in v |- *; [done|].
  rw !fmap_cons /=. destruct (sys_step v (EPool (LWorker i now))); [apply IH|done].
Qed.

(** Everything that holds of a reached state. *)
Record reached_ok (n : nat) (m : ScheduleMode) (gc : list (T * Callback)) v : Prop := {
  reached_way : under_way n m (pool_ v);
  reached_code : code_defined v;
  reached_futures : ∃ ws bs, futures_ok gc ws bs v
}.

Lemma reached_run n m gc v es v' :
  0 < n → Forall (event_ok n m) es → Forall (λ e, event_defined e ∧ event_backoff e) es →
  sys_run v es = Some v' → reached_ok n m gc v → reached_ok n m (gc ++ lost v es) v'.
Proof.
  intros Hn Hok Hdef Hrun [Hw Hc (ws & bs & Hv)].
  pose proof (proj2 (list.Forall_and _ _) (conj Hok Hdef)) as Hall. split.
  - refine (sys_run_invariant (λ v, under_way n m (pool_ v)) _ v es v' _ Hall Hrun Hw).
    intros v1 e v2 [[_ He] [_ Hb]] Hs.
    apply (sys_step_lift (under_way n m) (λ l, label_ok n m l ∧ backoff_label l) v1 e); try done.
    + intros w s. apply under_way_user.
    + intros s l s' [? ?]. by apply under_way_step.
    + intros l ->. by destruct l.
  - refine (sys_run_invariant code_defined _ v es v' _ Hdef Hrun Hc).
    intros v1 e v2 [? _]. by apply sys_step_defined.
  - destruct (sys_run_ok _ _ _ _ _ _ _ _ Hok Hrun Hv) as (ws' & bs' & Hv' & _). by exists ws', bs'.
Qed.

Lemma reached_new gs hw cfg now k w s0 :
  setup_ok cfg → registered gs hw cfg now k w s0 → backoff_ok cfg →
  Forall (λ g, ∀ x, spares (g x)) gs → Forall (λ g, ∀ x, no_undef (g x)) gs →
  reached_ok (num_threads cfg) (mode cfg) [] (MkSys s0 ∅).
Proof.
  intros Hsetup Hreg Hback Hsp Hgs. split.
  - by apply (registered_under_way gs hw cfg now k w s0 [] s0).
  - destruct Hreg as (s1 & Hnew & Hreg). apply register_all in Hreg as ->.
    apply constructed in Hnew as [b ->]. split; [|done]. split; [done| |done]. by apply Forall_replicate.
  - exists [], []. by eapply futures_new.
Qed.

(** C7: nobody waits for a future in vain: from every state that any interleaving of
    callers of [SubmitWithResult], other submissions, token setters and workers reaches
    in a running pool, when the callers' functions and the registered callbacks touch no
    promise and have no undefined behaviour, a bounded number of steps of the threads
    that are in the pool brings it to rest, and then the future of every call made so
    far holds what its function did with its item, or the cancellation; only those
    whose tasks were refused are without (and broken), each of them one of the calls
    turned away. *)
Theorem futures_answered gs hw cfg now k w s0 es v now' :
  setup_ok cfg → registered gs hw cfg now k w s0 → backoff_ok cfg →
  Forall (λ g, ∀ x, spares (g x)) gs → Forall (λ g, ∀ x, no_undef (g x)) gs →
  Forall (event_ok (num_threads cfg) (mode cfg)) es → Forall event_defined es →
  Forall event_backoff es → sys_run (MkSys s0 ∅) es = Some v → running_ (pool_ v) = true →
  (Z.of_nat (length (pushed (pool_ v)) + length (carrying (pool_ v))) < 2 ^ 64)%Z →
  ∃ ks s1 turns s' broken,
    length ks ≤ to_return (pool_ v) + to_release (pool_ v) ∧ Forall unprompted ks
    ∧ pool_run (pool_ v) ks = Next s1 ∧ length turns ≤ distance s1
    ∧ pool_run s1 ((λ i, LWorker i now') <$> turns) = Next s' ∧ at_rest s'
    ∧ NoDup broken.*1 ∧ lost (MkSys s0 ∅) (es ++ (EPool <$> ks)) ≡ₚ call_of <$> broken
    ∧ ∀ p j, issued v !! p = Some j →
        (p, j) ∈ broken ∧ future_state (MkSys s' (issued v)) p = Some Pending
        ∨ ∃ o, future_state (MkSys s' (issued v)) p = Some o ∧ settled_by j o.
Proof.
  intros Hsetup Hreg Hback Hsp Hnu Hok Hdef Hbl Hrun Hr Hb. pose proof (some_threads _ Hsetup) as Hn.
  pose proof (reached_new _ _ _ _ _ _ _ Hsetup Hreg Hback Hsp Hnu) as H0.
  pose proof (proj2 (list.Forall_and _ _) (conj Hdef Hbl)) as Hboth.
  pose proof (reached_run _ _ _ _ _ _ Hn Hok Hboth Hrun H0) as [Hway Hc (ws & bs & Hv)].
  assert (HJ : futures_callable (pool_ v)) by by eexists v, _, ws, bs.
  destruct (comes_to_rest futures_callable _ _ now' _ Hn Hway HJ Hr Hb)
    as (ks & s1 & turns & s' & Hlen & Hks & Hrun1 & Hidle & Hb1 & Hlen' & Hrun' & Hrest & Hp).
  destruct (unprompted_events (num_threads cfg) (mode cfg) ks Hks) as [Hok1 Hdef1].
  set (v1 := MkSys s1 (issued v)).
  assert (Hall : sys_run (MkSys s0 ∅) (es ++ (EPool <$> ks)) = Some v1).
  { by rw sys_run_app Hrun /= (sys_run_labels v ks s1). }
  assert (Hv1 := reached_run _ _ _ _ _ _ Hn (proj2 (list.Forall_app _ _ _) (conj Hok Hok1))
    (proj2 (list.Forall_app _ _ _) (conj Hboth Hdef1)) Hall H0). rw app_nil_l in Hv1.
  destruct (unprompted_events (num_threads cfg) (mode cfg) _ (unprompted_turns now' turns)) as [Hok2 Hdef2].
  pose proof (sys_run_labels v1 _ s' Hrun') as Hturns.
  pose proof (reached_run _ _ _ _ _ _ Hn Hok2 Hdef2 Hturns Hv1) as [[Hp' _ _] _ (waiting & broken & Hf)].
  rw lost_turns app_nil_r in Hf. destruct Hf as [Hnd Hopen Hlost Hpend Hset _ _].
  rw (open_calls_rest _ _ _ Hn Hp' Hrest) in Hopen; [cbn; rw Hp; lia|].
  symmetry in Hopen. apply Permutation_nil_r, fmap_nil_inv in Hopen as ->.
  exists ks, s1, turns, s', broken. split_and!; try done.
  intros p j Hj. destruct (Hset p j Hj) as [Hin|?]; [left|by right]. split; [done|].
  by destruct (Hpend p j Hin).
Qed.
End Answers.

(** ** Witness: a worker has the first task, the second is queued and its token then set,
    the third is being submitted. *)
Definition twin_cfg : TaskProcessorConfig := default_cfg 2 WorkStealing.

Definition twin_pool : Pool (T := nat) (W := Futures (R := nat) * ()) :=
  members twin_cfg 0 2 (MkFutures ∅ ∅, ()).

Definition twin_events : list (future_event (T := nat) (U := ()) (R := nat)) :=
  EToken 5 false :: EResult 0 (double_job 21 None) :: (EPool <$> replicate 5 (LSubmitter 0))
  ++ (EPool <$> replicate 6 (LWorker 0 0))
  ++ EResult 0 (double_job 3 (Some 5)) :: (EPool <$> replicate 5 (LSubmitter 0))
  ++ [EToken 5 true; EResult 1 (double_job 4 None); EPool (LSubmitter 1)].

Lemma futures_answered_witness :
  let v0 := MkSys twin_pool ∅ in let v := after_events v0 twin_events in
  (∃ ks s1 turns s' broken,
    length ks ≤ to_return (pool_ v) + to_release (pool_ v) ∧ Forall unprompted ks
    ∧ pool_run (pool_ v) ks = Next s1 ∧ length turns ≤ distance s1
    ∧ pool_run s1 ((λ i, LWorker i 7) <$> turns) = Next s' ∧ at_rest s'
    ∧ NoDup broken.*1 ∧ lost v0 (twin_events ++ (EPool <$> ks)) ≡ₚ call_of <$> broken
    ∧ ∀ p j, issued v !! p = Some j →
        (p, j) ∈ broken ∧ future_state (MkSys s' (issued v)) p = Some Pending
        ∨ ∃ o, future_state (MkSys s' (issued v)) p = Some o ∧ settled_by j o)
  ∧ sys_run v0 twin_events = Some v
  ∧ future_state v <$> [0; 1; 2] = [Some Pending; Some Pending; Some Pending]
  ∧ length (open_calls (pool_ v)) = 3.
Proof.
  cbv zeta. split; [|by vm_compute].
  apply (futures_answered []) with (hw := 4) (cfg := twin_cfg) (now := 0%Z) (k := 2)
    (w := (MkFutures ∅ ∅, ()));
    [split; [cbn; lia|]|by exists twin_pool|rw /backoff_ok /=; lia|done|done| | | |by vm_compute..].
  - intros sizes Hl. apply DefaultStealPolicy_range; [cbn; lia|done].
  - by repeat (apply list.Forall_cons; split; [done|]).
  - by repeat (apply list.Forall_cons; split; [done|]).
  - by repeat (apply list.Forall_cons; split; [done|]).
Defined.
