(* ===== verification/PoolTests.v ===== *)
(** * The pool's own tests (tests/pool/task_multi_processor/task_multi_processor_test.cc)

    Each test case as a configuration, the callbacks it registers, the items its
    thread submits and what it requires in the end, together with every
    interleaving of the workers: which of them pass whatever the schedule, once
    the sleep before the requirements has been long enough for the pool to come
    to rest, and which depend on the schedule. *)
From S2P Require Import Prelude TaskPool TaskPoolSpec TaskPoolCounters TaskPoolTheorems TaskPoolSubmit TaskPoolCallbacks TaskFuture.

Section Tests.
Context {W : Type}.

Record test := MkTest {
  test_cfg : TaskProcessorConfig;
  test_callbacks : list (Z → M W ());
  test_world : W;
  test_items : list Z;
  test_require : Pool (T := Z) (W := W) → Prop
}.

(** What the thread of the test and the pool do, in some order: the items are
    submitted one after the other. *)
Record test_run (t : test) (ls : list (label (T := Z) (W := W))) : Prop := {
  run_items : submitted ls = (λ x, Task x []) <$> test_items t;
  run_serving : Forall (serving (num_threads (test_cfg t)) (mode (test_cfg t))) ls;
  run_steady : Forall steady ls
}.

(** The constructed pool with the test's callbacks. *)
Definition test_pool (t : test) : Pool (T := Z) (W := W) :=
  set_global_callbacks (test_callbacks t) (members (test_cfg t) 0 1 (test_world t)).

(** Some schedule brings the pool to rest, and whatever the schedule, when the
    pool is at rest the requirement holds. *)
Definition passes (t : test) : Prop :=
  (∃ ls s, test_run t ls ∧ pool_run (test_pool t) ls = Next s ∧ at_rest s)
  ∧ ∀ hw now s0 ls s, registered (test_callbacks t) hw (test_cfg t) now 1 (test_world t) s0 →
    test_run t ls → pool_run s0 ls = Next s → at_rest s → test_require t s.

Lemma test_answers t hw now s0 ls s :
  setup_ok (test_cfg t) → roomy (test_cfg t) (length (test_items t)) →
  (Z.of_nat (length (test_items t)) < 2 ^ 64)%Z →
  registered (test_callbacks t) hw (test_cfg t) now 1 (test_world t) s0 →
  test_run t ls → pool_run s0 ls = Next s → at_rest s →
  ∃ items, items ≡ₚ test_items t ∧ (mode (test_cfg t) = FIFO → items = test_items t)
    ∧ user s = foldl (λ w x, foldl (λ w g, after (g x) w) w (test_callbacks t)) (test_world t) items.
Proof.
  intros Hsetup Hroom Hb Hreg [Hitems Hok Hst] Hrun Hrest.
  assert (Hlen : length (submitted ls) = length (test_items t)) by by rw Hitems length_fmap.
  destruct (answers_everything _ _ _ _ _ _ _ _ Hsetup Hreg Hok Hst ltac:(by rw Hlen)
              ltac:(by rw Hlen) Hrun Hrest) as (hist & _ & Hu & Hp & Hf & _).
  exists (payload <$> hist). rw Hitems in Hp Hf.
  assert (Hpay : payload <$> ((λ x, Task x []) <$> test_items t : list (TaskItem (W := W))) = test_items t).
  { rw -list_fmap_compose. by apply list_fmap_id. }
  split_and!.
  - by rw -Hp Hpay.
  - intros Hm. by rw (Hf Hm) Hpay.
  - rw Hu. clear. generalize (test_world t) as w.
    induction hist as [|x hist IH]; intros w; [done|]. apply IH.
Qed.
End Tests.

(** ["Basic FIFO preserves strict order"]: [output.push_back(x)]. *)
Definition push_output (x : Z) : M (list Z) () := modify (λ output, output ++ [x]).

Definition fifo_test : test :=
  MkTest (Cfg "fifo-test" 1 FIFO None 10000 5000 10 1 1000 5000 true true false true)
    [push_output] [] [0; 1; 2; 3; 4]%Z
    (λ s, length (user s) = 5 ∧ user s = [0; 1; 2; 3; 4]%Z).

(** ["RoundRobin processes all tasks"]: [sum += x]. *)
Definition add_to_sum (x : Z) : M Z () := modify (Z.add x).

Definition rr_test : test :=
  MkTest (Cfg "rr-test" 2 RoundRobin None 10000 5000 10 1 1000 5000 true true false true)
    [add_to_sum] 0%Z [1; 2; 3; 4]%Z (λ s, user s = 10%Z).

(** ["Backpressure does not drop tasks"]: [count++]; a tenth of a millisecond of
    jitter is cut to none. *)
Definition count_up (x : Z) : M Z () := modify Z.succ.

Definition backpressure_test : test :=
  MkTest (Cfg "TaskProcessor" 1 FIFO None 10000 1 1 0 1000 5000 true true false true)
    [count_up] 0%Z [1; 2]%Z (λ s, user s = 2%Z).

(** ["Metrics getters reflect activity"]. *)
Definition metrics_test : test :=
  MkTest (default_cfg 1 FIFO) [] () [10; 20]%Z
    (λ s, (1 ≤ GetHighWaterMark s)%Z ∧ GetQueueSize s = 0%Z ∧ GetProcessedCount s = 2%Z).

(** ["Exception in callbacks are isolated and do not kill worker threads"]. *)
Definition oops (x : Z) : M Z () := throw (runtime_error "oops").

Definition exception_test : test :=
  MkTest (default_cfg 1 FIFO) [oops; add_to_sum] 0%Z [1; 2; 3; 4; 5]%Z (λ s, user s = 15%Z).

(** [do_test]: a test whose requirement is on the user's world. *)
Lemma default_setup cfg : 0 < num_threads cfg → steal_policy cfg = None → setup_ok cfg.
Proof. intros Hn Hp. split; [done|]. rw Hp. intros sizes Hl. by apply DefaultStealPolicy_range. Qed.

(** A worker runs as long as it can, at most [fuel] steps. *)
Fixpoint worker_goes {T W} (fuel i : nat) (s : Pool (T := T) (W := W)) : list (label (T := T) (W := W)) :=
  match fuel with
  | 0 => []
  | S fuel =>
      match pool_step s (LWorker i 0) with
      | Next s' => LWorker i 0 :: worker_goes fuel i s'
      | _ => []
      end
  end.

Fixpoint workers_go {T W} (turns : list (nat * nat)) (s : Pool (T := T) (W := W))
    : list (label (T := T) (W := W)) :=
  match turns with
  | [] => []
  | (i, fuel) :: turns =>
      let ls := worker_goes fuel i s in ls ++ workers_go turns (reached s ls)
  end.

(** Everything is submitted, then the workers run in these turns. *)
Definition submit_item {W} (x : Z) : list (label (T := Z) (W := W)) :=
  LSubmit 0 (Task x []) :: replicate 5 (LSubmitter 0).

Definition schedule {W} (ls : list (label (T := Z) (W := W))) (turns : list (nat * nat))
    (t : test (W := W)) : list (label (T := Z) (W := W)) :=
  ls ++ workers_go turns (reached (test_pool t) ls).

Lemma worker_goes_worker {T W} fuel i : ∀ s : Pool (T := T) (W := W),
  Forall (λ l, l = LWorker i 0) (worker_goes fuel i s).
Proof.
  induction fuel as [|fuel IH]; intros s; rw /=; [done|].
  destruct (pool_step s (LWorker i 0)) as [s'| |u]; [|done..]. by constructor.
Qed.

Lemma workers_go_workers {T W} turns : ∀ s : Pool (T := T) (W := W),
  Forall (λ l, ∃ i, l = LWorker i 0) (workers_go turns s).
Proof.
  induction turns as [|[i fuel] turns IH]; intros s; rw /=; [done|].
  apply list.Forall_app. split; [|apply IH].
  eapply Forall_impl; [|apply worker_goes_worker]. by intros l ->; exists i.
Qed.

Lemma schedule_run {W} (ls : list (label (T := Z) (W := W))) turns t :
  test_run t ls → test_run t (schedule ls turns t).
Proof.
  intros [Hitems Hok Hst]. pose proof (workers_go_workers turns (reached (test_pool t) ls)) as Hw.
  rw /schedule. split.
  - rw -Hitems /submitted omap_app -{2}[omap _ ls]app_nil_r. f_equal.
    induction Hw as [|l ks [i ->] _ IH]; [done|exact IH].
  - apply list.Forall_app. split; [done|]. eapply Forall_impl; [|exact Hw]. by intros l [i ->].
  - apply list.Forall_app. split; [done|]. eapply Forall_impl; [|exact Hw]. by intros l [i ->].
Qed.

(** [a_schedule]: the run of a schedule, evaluated. *)
Ltac a_schedule ls turns :=
  match goal with |- context [test_run ?t _] =>
    exists (schedule ls turns t), (reached (test_pool t) (schedule ls turns t));
    split; [apply schedule_run; split; [done|by repeat constructor..]|];
    split; [by vm_compute|]; split; vm_compute; by repeat constructor end.

Ltac run_test :=
  intros hw now s0 ls s Hreg Hls Hrun Hrest;
  match goal with |- test_require ?t _ =>
    destruct (test_answers t hw now s0 ls s) as (items & Hp & Hf & Hu);
      [by apply default_setup; [cbn; lia|]|right; cbn; lia|cbn; lia|done..|] end.

Lemma fifo_test_passes : passes fifo_test.
Proof.
  split; [a_schedule (test_items fifo_test ≫= submit_item (W := list Z)) [(0, 200)]|].
  run_test. rw (Hf eq_refl) in Hu. by rw /= Hu. Qed.

Lemma sum_items (items : list Z) : ∀ w,
  foldl (λ w x, foldl (λ w g, after (g x) w) w [add_to_sum]) w items = (w + foldr Z.add 0 items)%Z.
Proof.
  induction items as [|x items IH]; intros w; rw /=; [by rw Z.add_0_r|].
  rw IH /after /=. lia.
Qed.

Lemma rr_test_passes : passes rr_test.
Proof.
  split; [a_schedule (test_items rr_test ≫= submit_item (W := Z)) [(1, 24); (0, 200); (1, 200)]|].
  run_test. rw /= Hu (sum_items items) Z.add_0_l.
  by rw (foldr_permutation_proper' _ _ _ _ _ Hp).
Qed.

Lemma backpressure_test_passes : passes backpressure_test.
Proof.
  split; [a_schedule (submit_item (W := Z) 1
    ++ [LSubmit 0 (Task 2%Z []); LSubmitter 0; LBackoff 0 (Some 0%Z)] ++ replicate 4 (LSubmitter 0))
    [(0, 200)]|].
  run_test. rw (Hf eq_refl) in Hu. by rw /= Hu. Qed.

Lemma exception_test_passes : passes exception_test.
Proof.
  split; [a_schedule (test_items exception_test ≫= submit_item (W := Z)) [(0, 200)]|].
  run_test. rw (Hf eq_refl) in Hu. by rw /= Hu. Qed.

(** The metrics of a pool at rest. *)
Lemma registered_metrics {T W} cbs hw cfg now k (w : W) (s : Pool (T := T)) :
  registered cbs hw cfg now k w s → metrics_ok s.
Proof.
  intros (s0 & Hnew & Hreg). apply register_all in Hreg as ->. apply constructed in Hnew as [b ->].
  split; cbn; [|by apply Forall_replicate|done]. by rw sum_replicate_zero.
Qed.

Lemma rest_metrics {T W} n m cbs (w : W) hist (s : Pool (T := T)) :
  0 < n → metrics_ok s → answers cbs n m w hist s → at_rest s →
  (Z.of_nat (length (pushed s)) < 2 ^ 64)%Z →
  GetQueueSize s = 0%Z ∧ GetProcessedCount s = Z.of_nat (length (pushed s))
  ∧ (pushed s ≠ [] → 1 ≤ GetHighWaterMark s)%Z.
Proof.
  intros Hn [Hpr _ Hmark] [Hp _ _ _ _ _] [Hr Hidle Hasleep] Hb.
  destruct (asleep_drained _ _ s Hn Hp Hr Hb Hidle Hasleep) as [Hq Hfin].
  destruct (ok_conserved _ _ _ Hp) as [_ HK]. cbn in HK.
  rw (rest_nothing hand) // app_nil_r in HK.
  assert (Hws : ∀ f : wpc (T := T) (W := W) → nat, f WAsleep = 0 → sum_list_with f (workers_ s) = 0).
  { intros f Hf. clear -Hasleep Hf. induction Hasleep as [|pc ws <- _ IH]; [done|]. by rw /= Hf IH. }
  assert (Hss : in_count s = 0).
  { rw /in_count. clear -Hidle. induction Hidle as [|pc ss <- _ IH]; [done|exact IH]. }
  split_and!; [| |exact Hmark].
  - pose proof (ok_counters _ _ _ Hp) as Hc. rw /counters_ok /tasks_counted in Hc.
    rw /GetQueueSize Hc Hss /in_pop (Hws popped) // /in_queues -length_concat_sum Hq. done.
  - rw /GetProcessedCount Hpr (Hws uncounted) // Z.sub_0_r -(length_fmap snd) HK Hfin length_fmap.
    apply u64_small. rw /is_u64. lia.
Qed.

Lemma metrics_test_passes : passes metrics_test.
Proof.
  split; [a_schedule (test_items metrics_test ≫= submit_item (W := ())) [(0, 200)]|].
  intros hw now s0 ls s Hreg [Hitems Hok Hst] Hrun Hrest.
  assert (Hsetup : setup_ok (test_cfg metrics_test)) by by apply default_setup; [cbn; lia|].
  destruct (answers_everything _ _ _ _ _ _ ls s Hsetup Hreg Hok Hst) as (hist & Hans & _ & _ & _ & Hpush);
    [rw Hitems; right; cbn; lia|by rw Hitems|done..|].
  assert (Hlen : length (pushed s) = 2) by by rw -(length_fmap snd) Hpush Hitems.
  assert (Hm : metrics_ok s).
  { refine (pool_run_invariant metrics_ok (λ _, True) _ ls s0 s _ (registered_metrics _ _ _ _ _ _ _ Hreg) Hrun).
    - intros s1 l s2 _ H1 Hs. by eapply pool_step_metrics.
    - by apply list.Forall_forall. }
  destruct (rest_metrics 1 FIFO [] () hist s) as (Hq & Hd & Hw); [lia|done..|by rw Hlen|].
  rw Hlen in Hd. split_and!; [|done..]. apply Hw. by destruct (pushed s).
Qed.

(** C35: the test cases about order, completeness, backpressure, metrics and throwing
    callbacks pass: each has a schedule that brings the pool to rest, and
    whatever the interleaving of the test's thread with the workers (spurious
    wake-ups, backoffs of any length and dropped-count readings by others
    included), what the test requires holds as soon as the pool is at rest. *)
Theorem pool_tests_pass :
  passes fifo_test ∧ passes rr_test ∧ passes backpressure_test
  ∧ passes metrics_test ∧ passes exception_test.
Proof.
  exact (conj fifo_test_passes (conj rr_test_passes (conj backpressure_test_passes
    (conj metrics_test_passes exception_test_passes)))).
Qed.

(** ** Test cases that depend on the schedule

    ["Circuit breaker drops excess tasks"]: three items are submitted where two
    have room; then [GetDroppedCount()] is required to be 1 and, after the sleep,
    [GetProcessedCount()] to be 2. *)
Definition cb_test : test :=
  MkTest (Cfg "cb-test" 1 FIFO None 2 5000 10 1 1000 5000 true true false true)
    [] () [1; 2; 3]%Z (λ s, GetProcessedCount s = 2%Z).

Definition cb_outcome (ls1 ls2 : list (label (T := Z) (W := ()))) (dropped processed : Z) : Prop :=
  test_run cb_test (ls1 ++ LGetDroppedCount :: ls2) ∧ submitted ls2 = []
  ∧ let s1 := reached (test_pool cb_test) ls1 in
    let s := reached s1 (LGetDroppedCount :: ls2) in
    pool_run (test_pool cb_test) ls1 = Next s1 ∧ submitters s1 = [SIdle]
    ∧ (GetDroppedCount s1).1 = dropped
    ∧ pool_run s1 (LGetDroppedCount :: ls2) = Next s ∧ at_rest s
    ∧ GetProcessedCount s = processed.

Definition submit_dropped (x : Z) : list (label (T := Z) (W := ())) :=
  LSubmit 0 (Task x []) :: replicate 2 (LSubmitter 0).

Ltac cb_schedule ls1 n :=
  exists ls1, (replicate n (LWorker 0 0));
  split; [split; [done|by repeat constructor..]|split; [done|]];
  cbv zeta; split_and!; try by vm_compute; split; vm_compute; by repeat constructor.

(** The worker waits for the thread; it takes the first item before the third is
    submitted; it finds the drop before the thread asks for it. *)
Theorem circuit_breaker_test_depends :
  (∃ ls1 ls2, cb_outcome ls1 ls2 1 2)
  ∧ (∃ ls1 ls2, cb_outcome ls1 ls2 0 3)
  ∧ (∃ ls1 ls2, cb_outcome ls1 ls2 0 2).
Proof.
  split_and!.
  - cb_schedule (submit_item (W := ()) 1 ++ submit_item 2 ++ submit_dropped 3) 27.
  - cb_schedule (submit_item (W := ()) 1 ++ replicate 6 (LWorker 0 0) ++ submit_item 2 ++ submit_item 3) 32.
  - cb_schedule (submit_item (W := ()) 1 ++ submit_item 2 ++ submit_dropped 3 ++ replicate 12 (LWorker 0 0)) 16.
Qed.

(** The test case that is commented out, ["Drop notifications are rate-limited"],
    expects one notice of a first flood of ten items within 250 ms: the interval
    counts from the construction, so a worker that finds the drops within the first
    200 ms prints nothing, and forgets them.  (Nor would the test see a notice: it
    redirects [std::cerr], and the pool prints with [std::fprintf].) *)
Definition flood_test : test :=
  MkTest (Cfg "TaskProcessor" 1 FIFO None 1 5000 10 1 200 5000 true true false true)
    [] () [0; 1; 2; 3; 4; 5; 6; 7; 8; 9]%Z (λ _, True).

Definition flood : list (label (T := Z) (W := ())) :=
  submit_item 0 ++ ([1; 2; 3; 4; 5; 6; 7; 8; 9]%Z ≫= submit_dropped).

Theorem flood_unreported :
  let ls := flood ++ replicate 17 (LWorker 0 199) in
  let s := reached (test_pool flood_test) ls in
  pool_run (test_pool flood_test) ls = Next s ∧ submitted ls = (λ x, Task x []) <$> test_items flood_test
  ∧ at_rest s ∧ length (refused (test_pool flood_test) ls) = 9
  ∧ err_out s = [] ∧ GetDroppedCount s = (0%Z, s).
Proof.
  cbv zeta. split_and!; [by vm_compute|by vm_compute| |by vm_compute..].
  split; vm_compute; by repeat constructor.
Qed.

(** ** The test cases with deadlines, futures and tokens *)
Abbreviation FutureWorld := (Futures (R := Z) * ())%type.

(** ["SubmitWithTimeout respects past deadline"]. *)
Lemma timeout_test (s : Pool (T := Z) (W := FutureWorld)) now :
  SubmitWithTimeout 0 42%Z now (now - 1000) None s = (false, Next s).
Proof. rw /SubmitWithTimeout /=. by destruct (Z.leb_spec (now - 1000) now); [|lia]. Qed.

(** A pool of one worker and a token with this value. *)
Definition token_pool (b : bool) : Pool (T := Z) (W := FutureWorld) :=
  members (default_cfg 1 FIFO) 0 1 (MkFutures ∅ {[0 := b]}, ()).

Definition store_token (b : bool) (s : Pool (T := Z) (W := FutureWorld)) : Pool :=
  set_user (MkFutures (promises (user s).1) (<[0 := b]> (tokens (user s).1)), (user s).2) s.

Definition future_state (p : nat) (s : Pool (T := Z) (W := FutureWorld)) : option shared_state :=
  promises (user s).1 !! p.

(** ["SubmitWithResult cancellation before enqueue"]. *)
Lemma cancel_before_enqueue_test :
  ∃ p s, SubmitWithResult 0 5%Z (λ x, mret x) (Some 0) (token_pool true) = (p, Next s)
    ∧ future_state p s = Some (HasException (runtime_error "Task canceled before enqueue")).
Proof. eexists _, _. split; [done|by vm_compute]. Qed.

(** ["SubmitWithResult cancellation before execution"]: after the submission the
    test's thread sets the token and expects the future to throw.  When the worker
    is faster, it does not. *)
Definition cancel_outcome (ls1 ls2 : list (label (T := Z) (W := FutureWorld))) (v : shared_state) : Prop :=
  ∃ p s1, SubmitWithResult 0 5%Z (λ x, mret (x + 1)%Z) (Some 0) (token_pool false) = (p, Next s1)
    ∧ let s2 := reached s1 ls1 in
      pool_run s1 ls1 = Next s2 ∧ submitters s2 = [SIdle]
      ∧ let s := reached (store_token true s2) ls2 in
        pool_run (store_token true s2) ls2 = Next s ∧ future_state p s = Some v.

Theorem cancel_before_execution_test_depends :
  (∃ ls1 ls2, cancel_outcome ls1 ls2
     (HasException (runtime_error "Task canceled before execution")))
  ∧ ∃ ls1 ls2, cancel_outcome ls1 ls2 (HasValue 6%Z).
Proof.
  split.
  - exists (replicate 5 (LSubmitter 0)), (replicate 12 (LWorker 0 0)).
    eexists _, _. split; [done|]. split_and!; by vm_compute.
  - exists (replicate 5 (LSubmitter 0) ++ replicate 12 (LWorker 0 0)), [].
    eexists _, _. split; [done|]. split_and!; by vm_compute.
Qed.
