(* ===== verification/Channel.v ===== *)
(** * Channel and ChannelManager (channel.h)

    A channel wraps a worker pool and calls the user's hooks.  What it does to
    its pool [proc_] is a sequence of calls, logged here, each of which needs the
    pool to be alive: a call on a destroyed object, a second destruction too, is
    undefined behaviour. *)
From S2P Require Import Prelude TaskPool.

Section Channel.
Context {Msg W : Type}.

(** [struct ChannelConfig]. *)
Record ChannelConfig := ChanCfg {
  channel_id : string;
  proc_cfg : TaskProcessorConfig
}.

(** The members that are [std::function]s; [None] is the empty function. *)
Record Hooks := MkHooks {
  OnStart : option (M W ());
  OnStop : option (M W ());
  OnShutdown : option (bool → M W ());
  OnEnqueue : option (Msg → M W ());
  OnProcessed : option (Msg → M W ());
  OnDropped : option (Msg → M W ());
  OnError : option (Msg → exn → M W ())
}.

Definition no_hooks : Hooks := MkHooks None None None None None None None.

(** The calls a channel makes on its pool. *)
Inductive proc_call :=
  | PConstruct (cfg : TaskProcessorConfig)
  | PRegisterCallback
  | PSubmit (m : Msg)
  | PUpdateConfig (cfg : TaskProcessorConfig)
  | PDestroy.

Record Channel := Chan {
  hooks : Hooks;
  chan_cfg_ : ChannelConfig;
  proc_alive : bool;
  proc_calls : list proc_call;
  outside : W
}.

Definition with_proc (alive : bool) (calls : list proc_call) (ch : Channel) : Channel :=
  Chan (hooks ch) (chan_cfg_ ch) alive calls (outside ch).
Definition with_outside (w : W) (ch : Channel) : Channel :=
  Chan (hooks ch) (chan_cfg_ ch) (proc_alive ch) (proc_calls ch) w.

(** [if (hook) hook(...)]. *)
Definition run_hook (h : option (M W ())) : M Channel () := λ ch,
  match h with
  | None => Ret () ch
  | Some f =>
      match f (outside ch) with
      | Ret _ w => Ret () (with_outside w ch)
      | Throw e w => Throw e (with_outside w ch)
      | Undef u => Undef u
      end
  end.

(** A call of a member function of [proc_]. *)
Definition call_proc (c : proc_call) : M Channel () := λ ch,
  if proc_alive ch then Ret () (with_proc true (proc_calls ch ++ [c]) ch)
  else Undef outside_lifetime.

(** [proc_.~TaskMultiProcessor()], explicit or implied. *)
Definition destroy_proc : M Channel () := λ ch,
  if proc_alive ch then Ret () (with_proc false (proc_calls ch ++ [PDestroy]) ch)
  else Undef outside_lifetime.

(** The constructor: the hooks are still empty when it tests [OnStart]. *)
Definition Channel_ctor (cfg : ChannelConfig) (w : W) : outcome Channel () :=
  (h ← gets hooks; run_hook (OnStart h) ;; call_proc PRegisterCallback)
    (Chan no_hooks cfg true [PConstruct (proc_cfg cfg)] w).

(** The callback the constructor registers with the pool. *)
Definition process (m : Msg) : M Channel () :=
  h ← gets hooks;
  catch (run_hook ((λ f, f m) <$> OnProcessed h))
    (λ e, h ← gets hooks; run_hook ((λ f, f m e) <$> OnError h)).

Definition Enqueue (m : Msg) : M Channel () :=
  h ← gets hooks;
  run_hook ((λ f, f m) <$> OnEnqueue h) ;; call_proc (PSubmit m).

Definition shutdown (force : bool) : M Channel () :=
  h ← gets hooks;
  run_hook ((λ f, f force) <$> OnShutdown h) ;;
  destroy_proc ;;
  h ← gets hooks;
  run_hook (OnStop h).

Definition ShutdownGraceful : M Channel () := shutdown false.
Definition ShutdownForce : M Channel () := shutdown true.

(** [~Channel]: its body, then the destruction of its members. *)
Definition Channel_dtor : M Channel () := ShutdownForce ;; destroy_proc.

Definition chan_UpdateConfig (cfg : TaskProcessorConfig) : M Channel () :=
  call_proc (PUpdateConfig cfg).

(** ** ChannelManager

    Channels are shared; a channel is a name in the store of channels. *)
Record ChannelManager := Manager {
  default_cfg_ : ChannelConfig;
  handler_ : Msg → M W ();
  channels_ : gmap string nat;
  store : gmap nat Channel
}.

Definition ChannelManager_ctor (cfg : ChannelConfig) (handler : Msg → M W ()) : ChannelManager :=
  Manager cfg handler ∅ ∅.

(** Run a channel's operation in the store. *)
Definition on_channel (c : nat) (op : M Channel ()) : M ChannelManager () := λ mgr,
  match store mgr !! c with
  | None => Undef use_after_free
  | Some ch =>
      let back ch := Manager (default_cfg_ mgr) (handler_ mgr) (channels_ mgr)
                       (<[c := ch]> (store mgr)) in
      match op ch with
      | Ret _ ch => Ret () (back ch)
      | Throw e ch => Throw e (back ch)
      | Undef u => Undef u
      end
  end.

(** Both branches of the lookup return; what follows them is never reached. *)
Definition GetChannel (id : string) : M ChannelManager (option nat) :=
  mgr ← get;
  mret (match channels_ mgr !! id with Some c => Some c | None => None end).

(** The test for a missing channel has an empty body. *)
Definition Dispatch (id : string) (m : Msg) : M ChannelManager () :=
  ch ← GetChannel id;
  match ch with
  | None => undef null_dereference
  | Some c => on_channel c (Enqueue m)
  end.

Definition clear_channels : M ChannelManager () :=
  modify (λ mgr, Manager (default_cfg_ mgr) (handler_ mgr) ∅ (store mgr)).

(** [channels_.clear()] also destroys the channels nobody else shares:
    [last_owner]. *)
Definition shutdown_all (order : gmap string nat → list nat) (last_owner : nat → bool)
    (op : M Channel ()) : M ChannelManager () :=
  mgr ← get;
  for_each (λ c, on_channel c op) (order (channels_ mgr)) ;;
  clear_channels ;;
  for_each (λ c, if last_owner c then on_channel c Channel_dtor else mret ())
    (order (channels_ mgr)).

Definition ShutdownAllGraceful order last_owner := shutdown_all order last_owner ShutdownGraceful.
Definition ShutdownAllForce order last_owner := shutdown_all order last_owner ShutdownForce.
End Channel.

Section ChannelTheorems.
Context {Msg W : Type}.
Implicit Types (ch : Channel (Msg := Msg) (W := W)).

(** Shutdown hooks that return. *)
Definition hooks_return (h : Hooks (Msg := Msg) (W := W)) : Prop :=
  (∀ f, OnShutdown h = Some f → ∀ b w, ∃ w', f b w = Ret () w')
  ∧ (∀ f, OnStop h = Some f → ∀ w, ∃ w', f w = Ret () w').

Lemma run_hook_returns (h : option (M W ())) ch :
  (∀ f, h = Some f → ∀ w, ∃ w', f w = Ret () w') →
  ∃ w, run_hook h ch = Ret () (with_outside w ch).
Proof.
  intros Hh. rw /run_hook. destruct h as [f|]; [|exists (outside ch); by destruct ch].
  destruct (Hh f eq_refl (outside ch)) as [w' ->]. by exists w'.
Qed.

Lemma shutdown_returns force ch :
  hooks_return (hooks ch) → proc_alive ch = true →
  ∃ w, shutdown force ch = Ret () (with_outside w (with_proc false (proc_calls ch ++ [PDestroy]) ch)).
Proof.
  intros [Hsh Hst] Hal. rw /shutdown /mbind /M_bind /gets /=.
  destruct (run_hook_returns ((λ f, f force) <$> OnShutdown (hooks ch)) ch) as [w1 Hr1].
  { intros f. destruct (OnShutdown (hooks ch)) as [g|] eqn:Hg; [|done].
    intros [= <-]. exact (Hsh g eq_refl force). }
  rw Hr1 /destroy_proc /= Hal.
  destruct (run_hook_returns (OnStop (hooks ch))
              (with_proc false (proc_calls ch ++ [PDestroy]) (with_outside w1 ch))) as [w2 Hr2].
  { intros f. exact (Hst f). }
  rw Hr2. by exists w2.
Qed.

Lemma shutdown_dead force ch :
  hooks_return (hooks ch) → proc_alive ch = false → shutdown force ch = Undef outside_lifetime.
Proof.
  intros [Hsh Hst] Hal. rw /shutdown /mbind /M_bind /gets /=.
  destruct (run_hook_returns ((λ f, f force) <$> OnShutdown (hooks ch)) ch) as [w1 Hr1].
  { intros f. destruct (OnShutdown (hooks ch)) as [g|] eqn:Hg; [|done].
    intros [= <-]. exact (Hsh g eq_refl force). }
  by rw Hr1 /destroy_proc /= Hal.
Qed.

(** A channel destroys its pool more than once: the destructor's body calls
    the pool's destructor and the pool is then destroyed again as a member, so
    destroying any channel, shut down before or not, is undefined behaviour;
    after an explicit shutdown the hooks have run, the pool is gone, and a
    second shutdown or an [Enqueue] is undefined too. *)
Theorem channel_lifecycle ch (m : Msg) force force' :
  hooks_return (hooks ch) → OnEnqueue (hooks ch) = None →
  Channel_dtor ch = Undef outside_lifetime
  ∧ (proc_alive ch = true →
     ∃ ch', shutdown force ch = Ret () ch'
       ∧ proc_alive ch' = false ∧ proc_calls ch' = proc_calls ch ++ [PDestroy]
       ∧ shutdown force' ch' = Undef outside_lifetime
       ∧ Enqueue m ch' = Undef outside_lifetime
       ∧ Channel_dtor ch' = Undef outside_lifetime).
Proof.
  intros Hh He.
  assert (Hdead : ∀ ch' b, hooks ch' = hooks ch → proc_alive ch' = false →
                           shutdown b ch' = Undef outside_lifetime).
  { intros ch' b Heq Hal. apply shutdown_dead; [by rw Heq|done]. }
  split.
  - rw /Channel_dtor /ShutdownForce /mbind /M_bind. destruct (proc_alive ch) eqn:Hal.
    + by destruct (shutdown_returns true ch Hh Hal) as [w ->].
    + by rw Hdead.
  - intros Hal. destruct (shutdown_returns force ch Hh Hal) as [w Hs].
    eexists. split_and!; [exact Hs|done|done|by apply Hdead| |].
    + by rw /Enqueue /mbind /M_bind /gets /= He.
    + rw /Channel_dtor /ShutdownForce /mbind /M_bind. by rw Hdead.
Qed.

(** What a handler throws never reaches the pool's worker with the channel
    broken: an exception of [OnProcessed] goes to [OnError] with the message, and
    without [OnError] it ends there; the pool and its calls are as before. *)
Theorem channel_process_errors ch (m : Msg) f e w :
  OnProcessed (hooks ch) = Some f → f m (outside ch) = Throw e w →
  match OnError (hooks ch) with
  | None => process m ch = Ret () (with_outside w ch)
  | Some g => process m ch = match g m e w with
                             | Ret _ w' => Ret () (with_outside w' ch)
                             | Throw e' w' => Throw e' (with_outside w' ch)
                             | Undef u => Undef u
                             end
  end.
Proof.
  intros Hf He. rw /process /mbind /M_bind /gets /catch /= Hf /run_hook /= He /=.
  destruct (OnError (hooks ch)) as [g|] eqn:Hg; [|done].
  rw /=. by destruct (g m e w).
Qed.

(** The operations of a manager. *)
Inductive manager_op :=
  | MDispatch (id : string) (m : Msg)
  | MShutdownAllGraceful
  | MShutdownAllForce.

Definition manager_step order last_owner (o : manager_op) : M ChannelManager () :=
  match o with
  | MDispatch id m => Dispatch (W := W) id m
  | MShutdownAllGraceful => ShutdownAllGraceful order last_owner
  | MShutdownAllForce => ShutdownAllForce order last_owner
  end.

Definition is_dispatch (o : manager_op) : bool :=
  match o with MDispatch _ _ => true | _ => false end.

(** A channel manager never has a channel: [GetChannel] does not create the
    channel it does not find, so in any history of a manager the shutdowns have
    nothing to do and the first [Dispatch], whatever the channel and the
    message, follows a null pointer. *)
Theorem manager_cannot_dispatch cfg handler (order : gmap string nat → list nat) last_owner ops :
  order ∅ = [] →
  for_each (manager_step order last_owner) ops (ChannelManager_ctor (Msg := Msg) cfg handler)
  = if existsb is_dispatch ops then Undef null_dereference
    else Ret () (ChannelManager_ctor cfg handler).
Proof.
  intros Ho. induction ops as [|o ops IH]; [done|]. rw /= /mbind /M_bind.
  destruct o as [id m| |]; rw /=.
  - by rw /Dispatch /GetChannel /mbind /M_bind /get /= lookup_empty.
  - by rw /ShutdownAllGraceful /shutdown_all /mbind /M_bind /get /= Ho.
  - by rw /ShutdownAllForce /shutdown_all /mbind /M_bind /get /= Ho.
Qed.
End ChannelTheorems.

(** ** Witnesses *)
Definition demo_channel : Channel (Msg := nat) (W := list nat) :=
  Chan (MkHooks None (Some (modify (λ l, l ++ [0]))) (Some (λ b, modify (λ l, l ++ [1])))
          None (Some (λ m, throw (other_exception 3))) None
          (Some (λ m e, modify (λ l, l ++ [m])))) (ChanCfg "orders" (default_cfg 1 FIFO))
    true [PConstruct (default_cfg 1 FIFO); PRegisterCallback] [].

Lemma channel_lifecycle_witness :
  Channel_dtor demo_channel = Undef outside_lifetime
  ∧ (proc_alive demo_channel = true →
     ∃ ch', shutdown false demo_channel = Ret () ch'
       ∧ proc_alive ch' = false ∧ proc_calls ch' = proc_calls demo_channel ++ [PDestroy]
       ∧ shutdown true ch' = Undef outside_lifetime
       ∧ Enqueue 5 ch' = Undef outside_lifetime
       ∧ Channel_dtor ch' = Undef outside_lifetime).
Proof.
  apply (channel_lifecycle demo_channel 5 false true); [|done].
  split; intros f [= <-]; intros; by eexists.
Defined.

Lemma channel_process_errors_witness :
  process 7 demo_channel = Ret () (with_outside [7] demo_channel).
Proof.
  exact (channel_process_errors demo_channel 7 _ (other_exception 3) [] eq_refl eq_refl).
Defined.

Lemma manager_cannot_dispatch_witness :
  for_each (manager_step (λ m, (map_to_list m).*2) (λ _, true))
    [MShutdownAllGraceful; MDispatch "orders" 1]
    (ChannelManager_ctor (Msg := nat) (W := ()) (ChanCfg "d" (default_cfg 1 FIFO)) (λ _, mret ()))
  = Undef null_dereference.
Proof. by apply (manager_cannot_dispatch (Msg := nat) (W := ())). Defined.
