(* ===== verification/ChannelPool.v ===== *)
(** * A channel on its worker pool (channel.h, pool/task_multi_processor.h)

    The operations of [Channel.v] run on the pool of [TaskPool.v]: the channel is
    the world of the pool's callbacks, its constructor registers [process] with
    the pool, and the calls a channel's operation logs are made on the pool.
    Threads enqueue while workers process, so the hooks interleave; the theorem
    is about every interleaving, through the channel's shutdown. *)
From S2P Require Import Prelude TaskPool TaskPoolSpec TaskPoolCounters TaskPoolTheorems TaskPoolSubmit TaskPoolCallbacks Channel.

Section ChannelPool.
Context {Msg W : Type}.
Abbreviation channel := (Channel (Msg := Msg) (W := W)).
Abbreviation task := (TaskItem (T := Msg) (W := channel)).
Abbreviation pool := (Pool (T := Msg) (W := channel)).
Abbreviation res := (result (T := Msg) (W := channel)).
Abbreviation worker_pc := (wpc (T := Msg) (W := channel)).
Abbreviation submitter_pc := (spc (T := Msg) (W := channel)).
Implicit Types (s : pool) (t : task) (m : Msg) (ch : channel).

(** [Channel::Channel]: [proc_] is constructed, [OnStart] is empty, the callback
    is registered.  The hooks are public members, set afterwards. *)
Definition new_channel (hw : nat) (cfg : ChannelConfig) (now : Z) (k : nat) (w : W) : res :=
  and_then (TaskMultiProcessor hw (proc_cfg cfg) now k
              (Chan no_hooks cfg true [PConstruct (proc_cfg cfg)] w))
    (RegisterCallback process).

Definition set_hooks (h : Hooks (Msg := Msg) (W := W)) (s : pool) : pool :=
  let ch := user s in
  set_user (Chan h (chan_cfg_ ch) (proc_alive ch) (proc_calls ch) (outside ch)) s.

(** A thread runs an operation of the channel, then the pool is called; when the
    operation throws it is not. *)
Definition channel_op (op : M channel ()) (call : pool → res) (s : pool) : res :=
  match op (user s) with
  | Ret _ ch => call (set_user ch s)
  | Throw _ ch => Next (set_user ch s)
  | Undef u => Crash u
  end.

(** The part of [ShutdownGraceful] and [ShutdownForce] before the pool's
    destructor, and the part after it. *)
Definition shutdown_begin (force : bool) : M channel () :=
  h ← gets hooks;
  run_hook ((λ f, f force) <$> OnShutdown h) ;; destroy_proc.

Definition shutdown_end : M channel () := h ← gets hooks; run_hook (OnStop h).

Inductive channel_label :=
  | CEnqueue (c : nat) (m : Msg)
  | CUpdateConfig (cfg : TaskProcessorConfig)
  | CShutdown (force : bool) (now : Z)
  | CDestructor (now : Z)
  | CSubmitter (c : nat)
  | CBackoff (c : nat) (r : option Z)
  | CWorker (i : nat) (now : Z)
  | CSpurious (i : nat).

Definition channel_step (s : pool) (l : channel_label) : res :=
  match l with
  | CEnqueue c m =>
      match submitters s !! c with
      | Some SIdle => channel_op (Enqueue m) (λ s, pool_step s (LSubmit c (Task m []))) s
      | _ => Blocked
      end
  | CUpdateConfig cfg =>
      channel_op (chan_UpdateConfig cfg) (λ s, pool_step s (LUpdateConfig cfg)) s
  | CShutdown force now =>
      channel_op (shutdown_begin force) (λ s, pool_step s (LDestructor now)) s
  | CDestructor now =>
      match destructor s with
      | DLive => Blocked
      | _ => and_then (pool_step s (LDestructor now))
               (λ s, if gone s then channel_op shutdown_end Next s else Next s)
      end
  | CSubmitter c => pool_step s (LSubmitter c)
  | CBackoff c r => pool_step s (LBackoff c r)
  | CWorker i now => pool_step s (LWorker i now)
  | CSpurious i => pool_step s (LSpurious i)
  end.

Fixpoint channel_run (s : pool) (ls : list channel_label) : res :=
  match ls with
  | [] => Next s
  | l :: ls => and_then (channel_step s l) (λ s, channel_run s ls)
  end.

(** ** The channel's history

    What the hooks see is a sequence of operations on the channel. *)
Inductive happening :=
  | HEnqueue (m : Msg)
  | HProcess (m : Msg)
  | HUpdateConfig (cfg : TaskProcessorConfig)
  | HShutdown (force : bool)
  | HStop.

Definition happens (e : happening) : M channel () :=
  match e with
  | HEnqueue m => Enqueue m
  | HProcess m => process m
  | HUpdateConfig cfg => chan_UpdateConfig cfg
  | HShutdown force => shutdown_begin force
  | HStop => shutdown_end
  end.

Definition replay (ch : channel) (hist : list happening) : channel :=
  foldl (λ ch e, after (happens e) ch) ch hist.

Definition handled (hist : list happening) : list Msg :=
  omap (λ e, match e with HProcess m => Some m | _ => None end) hist.

(** A task whose callback has been called and that is not finished. *)
Definition ran (pc : worker_pc) : list task :=
  match pc with WGlobal t [] | WWrap t _ => [t] | _ => [] end.

Lemma ran_wake (pc : worker_pc) : ran (wake pc) = ran pc.
Proof. by destruct pc. Qed.

(** A step of the pool calls the channel at most once, with a task that counts as
    run from then on. *)
Lemma pool_step_history n md s l s' :
  serving n md l → serves [process] s → (md = FIFO → in_line (bag s)) → pool_step s l = Next s' →
  ∃ ts, done_more ran md ts s s' ∧ length ts ≤ 1
    ∧ user s' = foldl (λ ch t, after (process (payload t)) ch) (user s) ts.
Proof.
  intros Hl [Hcb Hfin Hq Hw Hsub] Hline Hs.
  destruct l as [c t|c|c r|i now|i|now|cfg|fn|cb|cb|]; try done; pool_cases Hs; try congruence;
    try match goal with H : workers_ s !! _ = Some ?pc |- _ =>
      pose proof (proj1 (list.Forall_lookup _ _) Hw _ _ H) as Hpc end;
    try (exists []; split_and!; [|cbn; lia|done]; apply done_same; cbn; first
      [ done | by apply (done_wakes ran _ ran_wake)
      | match goal with H : workers_ _ !! _ = Some ?pc |- _ => by apply (done_at _ _ pc) end ]).
  - exists []. split_and!; [|cbn; lia|done].
    apply done_same; [done|]. rw Hcb. by apply (done_at _ _ (WCbLock t)).
  - destruct Hpc as [_ [[|g gs] Hgs]]; simplify_eq/=; [|by destruct gs].
    exists [t]. split_and!; [|cbn; lia|done].
    by apply (done_call ran md s _ i (WGlobal t [process]) (WGlobal t []) t).
  - exists []. split_and!; [by apply (done_finish ran md s _ i (WWrap t []) WDrops t)|cbn; lia|done].
  - by destruct Hpc.
Qed.

(** ** The invariant *)
Record channel_ok (n : nat) (md : ScheduleMode) (ch0 : channel) (hist : list happening)
    (s : pool) : Prop := {
  channel_pool : pool_ok n md s;
  channel_line : md = FIFO → in_line (bag s);
  channel_serves : serves [process] s;
  channel_replay : user s = replay ch0 hist;
  channel_handled : handled hist ≡ₚ payload <$> done_tasks ran s;
  channel_first : md = FIFO → handled hist = payload <$> first_done ran s
}.

Lemma handled_app hist1 hist2 : handled (hist1 ++ hist2) = handled hist1 ++ handled hist2.
Proof. apply omap_app. Qed.

Lemma replay_app ch hist1 hist2 : replay ch (hist1 ++ hist2) = replay (replay ch hist1) hist2.
Proof. apply foldl_app. Qed.

Lemma replay_process (ts : list task) ch :
  replay ch ((HProcess ∘ payload) <$> ts) = foldl (λ ch t, after (process (payload t)) ch) ch ts.
Proof. induction ts as [|t ts IH] in ch |- *; [done|apply IH]. Qed.

Lemma handled_process (ts : list task) : handled ((HProcess ∘ payload) <$> ts) = payload <$> ts.
Proof. induction ts as [|t ts IH]; [done|]. exact (f_equal (cons (payload t)) IH). Qed.

Lemma pool_step_channel n md ch0 hist s l s' :
  0 < n → serving n md l → pool_step s l = Next s' → channel_ok n md ch0 hist s →
  ∃ hist', channel_ok n md ch0 hist' s'.
Proof.
  intros Hn Hl Hs [Hp Hline Hsv Hrep Hh Hf].
  destruct (pool_step_history n md s l s' Hl Hsv Hline Hs) as (ts & [Hr Hrf] & _ & Hu).
  exists (hist ++ (HProcess ∘ payload <$> ts)). split.
  - eapply pool_step_ok; [done|by apply serving_ok|done..].
  - intros Hm. destruct (pool_step_bag _ _ _ _ _ (ok_shape _ _ _ Hp) Hs) as [->|Hb]; [by apply Hline|].
    rw Hm in Hb. by eapply bag_step_in_line; [|apply Hline].
  - by eapply pool_step_serves.
  - by rw replay_app -Hrep replay_process.
  - by rw handled_app handled_process Hr fmap_app Hh.
  - intros Hm. by rw handled_app handled_process (Hrf Hm) fmap_app (Hf Hm).
Qed.

(** An operation of the channel that handles no message. *)
Lemma channel_ok_happens n md ch0 hist s e :
  handled [e] = [] → channel_ok n md ch0 hist s →
  channel_ok n md ch0 (hist ++ [e]) (set_user (after (happens e) (user s)) s).
Proof.
  intros He [Hp Hline Hsv Hrep Hh Hf]. split.
  - by apply pool_ok_set_user.
  - done.
  - by destruct Hsv.
  - by rw replay_app -Hrep.
  - by rw handled_app He app_nil_r Hh.
  - intros Hm. by rw handled_app He app_nil_r (Hf Hm).
Qed.

Lemma channel_op_Next op call s s' :
  channel_op op call s = Next s' →
  s' = set_user (after op (user s)) s ∨ call (set_user (after op (user s)) s) = Next s'.
Proof.
  rw /channel_op /after. destruct (op (user s)); intros; simplify_eq; [by right|by left].
Qed.

(** Reconfigurations keep the number of threads and the mode. *)
Definition channel_label_ok (n : nat) (md : ScheduleMode) (l : channel_label) : Prop :=
  match l with CUpdateConfig cfg => cfg_ok n md cfg | _ => True end.

Lemma channel_step_ok n md ch0 hist s l s' :
  0 < n → channel_label_ok n md l → channel_step s l = Next s' → channel_ok n md ch0 hist s →
  ∃ hist', channel_ok n md ch0 hist' s'.
Proof.
  intros Hn Hl Hs Hok.
  assert (Hop : ∀ e hist s l, handled [e] = [] → serving n md l →
    channel_op (happens e) (λ s, pool_step s l) s = Next s' → channel_ok n md ch0 hist s →
    ∃ hist', channel_ok n md ch0 hist' s').
  { intros e hist1 s1 l1 He Hl1 [->|Hs1]%channel_op_Next Hok1.
    - eexists. by apply channel_ok_happens.
    - eapply pool_step_channel; [done..|]. by apply channel_ok_happens. }
  destruct l as [c m|cfg|force now|now|c|c r|i now|i]; rw /= in Hs;
    try (by eapply pool_step_channel; [..|exact Hs|exact Hok]).
  - repeat case_match; simplify_eq. by apply (Hop (HEnqueue m) hist s (LSubmit c (Task m []))).
  - by apply (Hop (HUpdateConfig cfg) hist s (LUpdateConfig cfg)).
  - by apply (Hop (HShutdown force) hist s (LDestructor now)).
  - assert (Hs' : ∃ s1, pool_step s (LDestructor now) = Next s1 ∧
      (if gone s1 then channel_op shutdown_end Next s1 else Next s1) = Next s').
    { by destruct (destructor s); [done|apply and_then_Next in Hs as (s1 & ? & ?); exists s1..]. }
    destruct Hs' as (s1 & Hs1 & Hend).
    destruct (pool_step_channel n md ch0 hist s (LDestructor now) s1 Hn I Hs1 Hok) as [hist1 Hok1].
    destruct (gone s1); simplify_eq; [|by exists hist1].
    apply channel_op_Next in Hend as [->|[= <-]];
      exists (hist1 ++ [HStop]); by apply (channel_ok_happens n md ch0 hist1 s1 HStop).
Qed.

Lemma channel_run_ok n md ch0 ls : ∀ hist s s',
  0 < n → Forall (channel_label_ok n md) ls → channel_run s ls = Next s' →
  channel_ok n md ch0 hist s → ∃ hist', channel_ok n md ch0 hist' s'.
Proof.
  induction ls as [|l ls IH]; intros hist s s' Hn Hok Hrun H0; simplify_eq/=; [by exists hist|].
  apply list.Forall_cons in Hok as [Hl Hok].
  apply and_then_Next in Hrun as (s1 & Hs & Hrun).
  destruct (channel_step_ok n md ch0 hist s l s1 Hn Hl Hs H0) as [hist1 H1].
  exact (IH hist1 s1 s' Hn Hok Hrun H1).
Qed.

Lemma channel_ok_new hw cfg now k w h s :
  setup_ok (proc_cfg cfg) → new_channel hw cfg now k w = Next s →
  channel_ok (num_threads (proc_cfg cfg)) (mode (proc_cfg cfg)) (user (set_hooks h s)) []
    (set_hooks h s).
Proof.
  intros Hsetup (s0 & Hnew & Hreg)%and_then_Next.
  pose proof (pool_ok_new _ _ _ _ _ _ Hsetup Hnew) as Hp.
  pose proof (proj2 (bag_new _ _ _ _ _ _ Hnew)) as Hline.
  assert (Hstep : pool_step s0 (LRegisterCallback process) = Next s).
  { by apply constructed in Hnew as [b ->]. }
  assert (Hs : s = set_global_callbacks [process] s0).
  { apply constructed in Hnew as [b ->]. by injection Hreg as <-. }
  split.
  - apply pool_ok_set_user. by eapply pool_step_ok; [apply some_threads| |exact Hstep|].
  - intros _. by rw Hs.
  - apply constructed in Hnew as [b ->]. rw Hs.
    split; cbn; try done; apply Forall_replicate; [constructor|done..].
  - done.
  - apply constructed in Hnew as [b ->]. rw Hs /done_tasks /= fmap_replicate /=.
    by rw concat_nils.
  - intros _. apply constructed in Hnew as [b ->]. rw Hs /first_done /=.
    by destruct (num_threads (proc_cfg cfg)).
Qed.

Lemma first_ran_prefix s : in_line (bag s) → first_done ran s `prefix_of` (pushed s).*2.
Proof.
  intros [HP _ HK _ _]. cbn in HP, HK. rw HP HK /first_done -!app_assoc list_lookup_fmap.
  apply prefix_app. destruct (workers_ s !! 0) as [pc|]; rw /=; [|apply prefix_nil].
  assert (ran pc `prefix_of` hand pc) as [r ->].
  { destruct pc as [| | | | | | | | | | | | |t [|? ?]| | | | | |]; try (by eexists); apply prefix_nil. }
  rw -app_assoc. by eexists.
Qed.

(** C10: a channel handles its messages one at a time and in order: in every
    interleaving of the threads that enqueue, the pool's workers, reconfigurations
    and a shutdown, the channel is as after a sequence of its own operations
    (enqueues, [process] calls, the shutdown's hooks) run one after the other;
    the messages processed in it are exactly those whose callback has run, each
    once; in FIFO mode they are a prefix of the messages queued, in order; and
    when the channel is at rest every message queued has been processed. *)
Theorem channel_handles_in_order hw cfg now k w h s0 ls s :
  setup_ok (proc_cfg cfg) → new_channel hw cfg now k w = Next s0 →
  Forall (channel_label_ok (num_threads (proc_cfg cfg)) (mode (proc_cfg cfg))) ls →
  channel_run (set_hooks h s0) ls = Next s →
  ∃ hist, user s = replay (user (set_hooks h s0)) hist
    ∧ handled hist ≡ₚ payload <$> (finished s ++ concat (ran <$> workers_ s))
    ∧ (mode (proc_cfg cfg) = FIFO → handled hist `prefix_of` (payload <$> (pushed s).*2))
    ∧ (running_ s = true → (Z.of_nat (length (pushed s)) < 2 ^ 64)%Z →
       Forall (eq SIdle) (submitters s) → Forall (eq WAsleep) (workers_ s) →
       handled hist ≡ₚ payload <$> (pushed s).*2).
Proof.
  intros Hsetup Hnew Hok Hrun. pose proof (some_threads _ Hsetup) as Hn.
  destruct (channel_run_ok _ _ _ _ _ _ _ Hn Hok Hrun (channel_ok_new hw cfg now k w h s0 Hsetup Hnew))
    as [hist [Hp Hline Hsv Hrep Hh Hf]].
  exists hist. split_and!; [done|done|..].
  - intros Hm. rw (Hf Hm). destruct (first_ran_prefix s (Hline Hm)) as [r ->].
    rw fmap_app. by eexists.
  - intros Hr Hb Hidle Hasleep. rw Hh.
    destruct (asleep_drained _ _ s Hn Hp Hr Hb Hidle Hasleep) as [_ <-].
    rw /done_tasks. assert (concat (ran <$> workers_ s) = []) as ->; [|by rw app_nil_r].
    clear -Hasleep. induction Hasleep as [|pc ws <- _ IH]; [done|exact IH].
Qed.
End ChannelPool.

(** ** Witness: two threads enqueue on a channel of one worker; the hooks log
    enqueues ([false]) and processed messages ([true]). *)
Definition logging_hooks : Hooks (Msg := nat) (W := list (bool * nat)) :=
  MkHooks None None None (Some (λ m, modify (λ l, l ++ [(false, m)])))
    (Some (λ m, modify (λ l, l ++ [(true, m)]))) None None.

Definition fifo_channel : ChannelConfig := ChanCfg "orders" (default_cfg 1 FIFO).

Definition result_or (s : Pool (T := nat) (W := Channel (Msg := nat) (W := list (bool * nat))))
    (r : result) : Pool :=
  match r with Next s' => s' | _ => s end.

Definition fresh_channel : Pool (T := nat) (W := Channel (Msg := nat) (W := list (bool * nat))) :=
  set_global_callbacks [process]
    (members (default_cfg 1 FIFO) 0 2
       (Chan no_hooks fifo_channel true [PConstruct (default_cfg 1 FIFO)] [])).

Definition channel_labels : list (channel_label (Msg := nat)) :=
  [CEnqueue 0 7] ++ replicate 3 (CSubmitter 0) ++ [CEnqueue 1 8] ++ replicate 5 (CSubmitter 1)
  ++ replicate 2 (CSubmitter 0) ++ replicate 26 (CWorker 0 0) ++ replicate 3 (CWorker 0 0).

Definition channel_end := result_or fresh_channel (channel_run (set_hooks logging_hooks fresh_channel) channel_labels).

Lemma channel_handles_in_order_witness :
  (∃ hist, user channel_end = replay (user (set_hooks logging_hooks fresh_channel)) hist
    ∧ handled hist ≡ₚ payload <$> (finished channel_end ++ concat (ran <$> workers_ channel_end))
    ∧ (mode (proc_cfg fifo_channel) = FIFO →
       handled hist `prefix_of` (payload <$> (pushed channel_end).*2))
    ∧ (running_ channel_end = true → (Z.of_nat (length (pushed channel_end)) < 2 ^ 64)%Z →
       Forall (eq SIdle) (submitters channel_end) → Forall (eq WAsleep) (workers_ channel_end) →
       handled hist ≡ₚ payload <$> (pushed channel_end).*2))
  ∧ outside (user channel_end) = [(false, 7); (false, 8); (true, 7); (true, 8)]
  ∧ workers_ channel_end = [WAsleep].
Proof.
  split; [|by vm_compute].
  apply (channel_handles_in_order 4 fifo_channel 0 2 [] logging_hooks fresh_channel channel_labels).
  - split; [cbn; lia|]. intros sizes Hl. apply DefaultStealPolicy_range; [cbn; lia|done].
  - done.
  - by repeat (apply list.Forall_cons; split; [done|]).
  - by vm_compute.
Defined.
