(* ===== verification/ChannelSettles.v ===== *)
(** * Every message a channel has queued can be handled

    The channel on its pool ([ChannelPool.v]) comes to rest from wherever it is while
    it has not been shut down, when its hooks have no undefined behaviour: another
    client of the pool's interface [Callable]. *)
From S2P Require Import Prelude TaskPool TaskPoolSpec TaskPoolCounters TaskPoolTheorems TaskPoolSubmit TaskPoolCallbacks TaskPoolRest TaskPoolSettles Channel ChannelPool.

Section ChannelSettles.
Context {Msg W : Type}.
Abbreviation channel := (Channel (Msg := Msg) (W := W)).
Abbreviation pool := (Pool (T := Msg) (W := channel)).
Implicit Types (s : pool) (ch : channel).

(** The hooks a worker runs have no undefined behaviour. *)
Definition hooks_defined (h : Hooks (Msg := Msg) (W := W)) : Prop :=
  (∀ f m w u, OnProcessed h = Some f → f m w ≠ Undef u)
  ∧ ∀ f m e w u, OnError h = Some f → f m e w ≠ Undef u.

(** No operation of a channel replaces its hooks. *)
Definition same_hooks : relation channel := λ ch ch', hooks ch' = hooks ch.

#[local] Instance same_hooks_preorder : PreOrder same_hooks.
Proof. split; [done|]. intros ch1 ch2 ch3 H1 H2. by rw /same_hooks H2 H1. Qed.

Lemma run_hook_hooks h : keeps same_hooks (run_hook (Msg := Msg) (W := W) h).
Proof. intros ch. rw /run_hook. destruct h as [f|]; [|done]. by destruct (f (outside ch)). Qed.

Lemma call_proc_hooks c : keeps same_hooks (call_proc (Msg := Msg) (W := W) c).
Proof. intros ch. rw /call_proc. by destruct (proc_alive ch). Qed.

Lemma destroy_proc_hooks : keeps same_hooks (destroy_proc (Msg := Msg) (W := W)).
Proof. intros ch. rw /destroy_proc. by destruct (proc_alive ch). Qed.

#[local] Hint Resolve run_hook_hooks call_proc_hooks destroy_proc_hooks : keeps.
#[local] Hint Extern 3 (PreOrder _) => exact same_hooks_preorder : keeps.

Lemma keeps_same_hooks (m : M channel ()) ch : keeps same_hooks m → hooks (after m ch) = hooks ch.
Proof. intros Hm. rw /after. specialize (Hm ch). by destruct (m ch). Qed.

Lemma happens_hooks e ch : hooks (after (happens e) ch) = hooks ch.
Proof.
  apply keeps_same_hooks.
  destruct e; cbn; rw /Enqueue /process /chan_UpdateConfig /shutdown_begin /shutdown_end; eauto 7 with keeps.
Qed.

Lemma replay_hooks hist : ∀ ch, hooks (replay ch hist) = hooks ch.
Proof. induction hist as [|e hist IH]; intros ch; [done|]. by rw /= IH happens_hooks. Qed.

Lemma process_defined m ch u : hooks_defined (hooks ch) → process m ch ≠ Undef u.
Proof.
  intros [Hp He]. rw /process /mbind /M_bind /gets /catch /run_hook.
  destruct (OnProcessed (hooks ch)) as [f|] eqn:Hf; [|done]. cbn. specialize (Hp f m (outside ch)).
  destruct (f m (outside ch)) as [a w|e w|u1]; [done| |by destruct (Hp u1)].
  cbn. destruct (OnError (hooks ch)) as [g|] eqn:Hg; [|done]. cbn. specialize (He g m e w).
  destruct (g m e w) as [| |u1]; [done..|by destruct (He u1)].
Qed.

(** The pool's invariant under which a worker's calls of the channel are defined. *)
Definition channel_callable s : Prop := serves [process] s ∧ hooks_defined (hooks (user s)).

#[export] Instance channels_are_callable : Callable channel_callable.
Proof.
  split.
  - intros s l s' Hl Hs [Hsv Hh].
    assert (Hserving : serving 0 RoundRobin l) by by destruct l.
    split; [by apply (pool_step_serves [process] 0 RoundRobin s l)|].
    destruct (pool_step_history 0 RoundRobin s l s' Hserving Hsv ltac:(done) Hs) as (ts & _ & _ & ->).
    by rw -replay_process replay_hooks.
  - intros s i t g rest u [[_ _ _ Hw _] Hh] Hi Hu. destruct Hi as [Hi|Hi];
      pose proof (proj1 (list.Forall_lookup _ _) Hw _ _ Hi) as Hp; cbn in Hp; destruct Hp as [_ Hp]; [|done].
    destruct Hp as [[|g1 [|? gs]] Hgs]; simplify_eq/=. by eapply process_defined.
Qed.

(** ** Runs of the channel *)
(** Reconfigurations keep the threads and the mode, and the backoff defined. *)
Definition channel_backoff (l : channel_label (Msg := Msg)) : Prop :=
  match l with CUpdateConfig cfg => backoff_ok cfg | _ => True end.

Lemma channel_op_under_way n md op l s s' :
  0 < n → label_ok n md l → backoff_label l →
  channel_op op (λ s, pool_step s l) s = Next s' → under_way n md s → under_way n md s'.
Proof.
  intros Hn Hl Hb [->|Hs]%channel_op_Next Hw; [by apply under_way_user|].
  by eapply (under_way_step n md _ l); [..|exact Hs|apply under_way_user].
Qed.

Lemma channel_step_under_way n md l s s' :
  0 < n → channel_label_ok n md l → channel_backoff l → channel_step s l = Next s' →
  under_way n md s → under_way n md s'.
Proof.
  intros Hn Hl Hb Hs Hw.
  destruct l as [c m|cfg|force now|now|c|c r|i now|i]; rw /= in Hs;
    try (by eapply (under_way_step n md s); [..|exact Hs|exact Hw]);
    try (by eapply (channel_op_under_way n md _ _ s); [..|exact Hs|exact Hw]).
  - destruct (submitters s !! c) as [[]|]; try done.
    by eapply (channel_op_under_way n md _ (LSubmit c (Task m [])) s).
  - assert (Hs' : ∃ s1, pool_step s (LDestructor now) = Next s1 ∧
      (if gone s1 then channel_op shutdown_end Next s1 else Next s1) = Next s').
    { by destruct (destructor s); [done|apply and_then_Next in Hs as (s1 & ? & ?); exists s1..]. }
    destruct Hs' as (s1 & Hs1 & Hend).
    pose proof (under_way_step n md s (LDestructor now) s1 Hn I I Hs1 Hw) as Hw1.
    destruct (gone s1); simplify_eq; [|done].
    apply channel_op_Next in Hend as [->|[= <-]]; by apply under_way_user.
Qed.

Lemma channel_run_under_way n md ls : ∀ s s',
  0 < n → Forall (channel_label_ok n md) ls → Forall channel_backoff ls → channel_run s ls = Next s' →
  under_way n md s → under_way n md s'.
Proof.
  induction ls as [|l ls IH]; intros s s' Hn Hok Hb Hrun Hw; simplify_eq/=; [done|].
  apply list.Forall_cons in Hok as [Hl Hok]. apply list.Forall_cons in Hb as [Hbl Hb].
  apply and_then_Next in Hrun as (s1 & Hs & Hrun).
  apply (IH s1 s' Hn Hok Hb Hrun). by eapply channel_step_under_way.
Qed.

(** The steps of the threads in the pool, as the channel's. *)
Definition inside (l : label (T := Msg) (W := channel)) : channel_label (Msg := Msg) :=
  match l with
  | LBackoff c r => CBackoff c r
  | LWorker i now => CWorker i now
  | LSubmitter c => CSubmitter c
  | _ => CSpurious 0
  end.

Lemma inside_run ks : Forall unprompted ks → ∀ s, channel_run s (inside <$> ks) = pool_run s ks.
Proof.
  intros Hks. induction Hks as [|l ks Hl _ IH]; intros s; [done|]. cbn.
  assert (channel_step s (inside l) = pool_step s l) as -> by by destruct l.
  destruct (pool_step s l); [apply IH|done..].
Qed.

(** ** The channel handles everything *)
Lemma inside_ok n md ks : Forall (channel_label_ok n md) (inside <$> ks).
Proof. apply list.Forall_fmap, list.Forall_forall. by intros []. Qed.

Lemma new_channel_way hw cfg now k w h s :
  setup_ok (proc_cfg cfg) → backoff_ok (proc_cfg cfg) → new_channel hw cfg now k w = Next s →
  under_way (num_threads (proc_cfg cfg)) (mode (proc_cfg cfg)) (set_hooks h s).
Proof.
  intros Hsetup Hback (s0 & Hnew & Hreg)%and_then_Next. apply under_way_user.
  apply (registered_under_way [process] hw (proc_cfg cfg) now k
    (Chan no_hooks cfg true [PConstruct (proc_cfg cfg)] w) s [] s); try done.
  exists s0. split; [done|]. apply constructed in Hnew as [b ->]. by injection Hreg as <-.
Qed.

(** From every state that enqueues, reconfigurations and workers' steps reach on a
    channel that is not being shut down, when its hooks have no undefined behaviour, a
    bounded number of steps of the threads in the pool brings it to rest with every
    message queued handled, each once, in order when the mode is FIFO. *)
Theorem channel_settles hw cfg now k w h s0 ls s now' :
  setup_ok (proc_cfg cfg) → backoff_ok (proc_cfg cfg) → hooks_defined h →
  new_channel hw cfg now k w = Next s0 →
  Forall (channel_label_ok (num_threads (proc_cfg cfg)) (mode (proc_cfg cfg))) ls →
  Forall channel_backoff ls → channel_run (set_hooks h s0) ls = Next s → running_ s = true →
  (Z.of_nat (length (pushed s) + length (carrying s)) < 2 ^ 64)%Z →
  ∃ ks s1 turns s' hist,
    length ks ≤ to_return s + to_release s ∧ Forall unprompted ks
    ∧ channel_run s (inside <$> ks) = Next s1 ∧ length turns ≤ distance s1
    ∧ channel_run s1 (inside <$> ((λ i, LWorker i now') <$> turns)) = Next s'
    ∧ at_rest s' ∧ user s' = replay (user (set_hooks h s0)) hist
    ∧ handled hist ≡ₚ payload <$> (pushed s').*2
    ∧ (mode (proc_cfg cfg) = FIFO → handled hist = payload <$> (pushed s').*2).
Proof.
  intros Hsetup Hback Hdef Hnew Hok Hb Hrun Hr Hbound. pose proof (some_threads _ Hsetup) as Hn.
  pose proof (channel_ok_new hw cfg now k w h s0 Hsetup Hnew) as H0.
  pose proof (channel_run_under_way _ _ ls _ s Hn Hok Hb Hrun
    (new_channel_way hw cfg now k w h s0 Hsetup Hback Hnew)) as Hway.
  destruct (channel_run_ok _ _ _ ls _ _ s Hn Hok Hrun H0) as [hist1 H1].
  assert (HJ : channel_callable s).
  { split; [exact (channel_serves _ _ _ _ _ H1)|]. by rw (channel_replay _ _ _ _ _ H1) replay_hooks. }
  destruct (comes_to_rest channel_callable _ _ now' s Hn Hway HJ Hr Hbound)
    as (ks & s1 & turns & s' & Hlen & Hks & Hrun1 & Hidle & Hb1 & Hlen' & Hrun' & Hrest & Hp).
  exists ks, s1, turns, s'.
  rw -(inside_run ks Hks) in Hrun1.
  rw -(inside_run _ (unprompted_turns now' turns)) in Hrun'.
  destruct (channel_run_ok _ _ _ _ _ _ s1 Hn (inside_ok _ _ ks) Hrun1 H1) as [hist2 H2].
  destruct (channel_run_ok _ _ _ _ _ _ s' Hn (inside_ok _ _ _) Hrun' H2) as [hist [Hp' Hline Hsv Hrep Hh Hf]].
  destruct (rest_done _ _ ran s' Hn Hp' Hrest ltac:(by rw Hp) eq_refl) as [Hall Hfirst].
  exists hist. split_and!; try done; [by rw Hh Hall|]. intros Hm. by rw (Hf Hm) Hfirst; [by apply Hline|].
Qed.
End ChannelSettles.

(** ** An instance: one message is with the worker, the next is being enqueued. *)
Definition half_way : list (channel_label (Msg := nat)) :=
  [CEnqueue 0 7] ++ replicate 5 (CSubmitter 0) ++ replicate 8 (CWorker 0 0)
  ++ [CEnqueue 1 8; CSubmitter 1; CSubmitter 1].

#[local] Abbreviation logging := (Channel (Msg := nat) (W := list (bool * nat))).

Definition half_way_end :=
  result_or fresh_channel (channel_run (set_hooks logging_hooks fresh_channel) half_way).

Lemma channel_settles_instance :
  (∃ (ks : list (label (W := logging))) s1 turns s' hist,
    length ks ≤ to_return half_way_end + to_release half_way_end ∧ Forall unprompted ks
    ∧ channel_run half_way_end (inside <$> ks) = Next s1 ∧ length turns ≤ distance s1
    ∧ channel_run s1 (inside <$> ((λ i, LWorker (W := logging) i 9) <$> turns)) = Next s'
    ∧ at_rest s' ∧ user s' = replay (user (set_hooks logging_hooks fresh_channel)) hist
    ∧ handled hist ≡ₚ payload <$> (pushed s').*2
    ∧ (mode (proc_cfg fifo_channel) = FIFO → handled hist = payload <$> (pushed s').*2))
  ∧ outside (user half_way_end) = [(false, 7); (false, 8)]
  ∧ length (pushed half_way_end) = 1 ∧ length (carrying half_way_end) = 1.
Proof.
  split; [|by vm_compute].
  apply (channel_settles 4 fifo_channel 0 2 [] logging_hooks fresh_channel half_way);
    [split; [cbn; lia|]|rw /backoff_ok /=; lia| |done| | |by vm_compute..].
  - intros sizes Hl. apply DefaultStealPolicy_range; [cbn; lia|done].
  - split; intros f; [|done]. intros m w u [= <-]. done.
  - by repeat (apply list.Forall_cons; split; [done|]).
  - by repeat (apply list.Forall_cons; split; [done|]).
Defined.
