(* ===== verification/Session.v ===== *)
(** * Session: one connection (session.h)

    Every handler the session gives to asio runs on its executor; a step here is
    one handler, or one call from outside.  [asio::dispatch] from inside a
    handler runs its function at once, from outside it is a step of its own.

    The socket and the timers are asio's: the model keeps how many reads and
    timer waits are pending, the writes in flight and whether the session has
    cancelled or closed the socket.  [expires_after] and [cancel] abort the
    waits of their timer, whose handlers then do nothing; a wait that has
    expired before is past cancelling ([ready]).  The framer ([FrameBase], a
    header the repository does not have), the interceptor plugin and the user's
    handlers are parameters; a user's handler is given by the calls it makes
    back into the session. *)
From S2P Require Import Prelude PluginBundle.

Section Session.
Context {F Msg Buf P : Type}.

(** [FrameBase]: prepare a read, give the messages of [n] new bytes, frame. *)
Context (framer_PrepareRead : M F ()) (framer_OnData : Z → M F (list Msg))
  (framer_Frame : Msg → M F Buf).

(** [dynamic_pointer_cast<Interceptor>] and [Interceptor::Filter], which may
    change the message. *)
Context (as_Interceptor : P → option (Msg → bool * Msg)).

(** What a user's handler calls. *)
Inductive request :=
  | RSend (m : Msg)
  | RClose (force : bool).

Definition MessageHandler : Type := Msg → list request.
Definition DisconnectHandler : Type := list request.

Inductive effect :=
  | Deliver (m : Msg)
  | Disconnected
  | WriteStarted (b : Buf)
  | QueueSend (b : Buf)
  | QueueClose (force : bool)
  | SocketClosed.

Record Session := Sess {
  framer_ : option F;
  write_deque_ : list Buf;
  write_in_progress_ : bool;
  use_write_queue_ : bool;
  shutdown_in_progress_ : bool;
  graceful_shutdown_ : bool;
  on_message_ : option MessageHandler;
  on_disconnect_ : option DisconnectHandler;
  plugin_bundle_ : PluginBundle (P := P);
  reads : nat;
  in_flight : list Buf;
  read_waits : nat;
  read_ready : nat;
  idle_waits : nat;
  idle_ready : nat;
  effects : list effect
}.

Definition Session_ctor (framer : F) : Session :=
  Sess (Some framer) [] false false false false None None ∅ 0 [] 0 0 0 0 [].

Definition set_framer (v : option F) (s : Session) : Session :=
  Sess v (write_deque_ s) (write_in_progress_ s) (use_write_queue_ s)
    (shutdown_in_progress_ s) (graceful_shutdown_ s) (on_message_ s) (on_disconnect_ s)
    (plugin_bundle_ s) (reads s) (in_flight s) (read_waits s) (read_ready s)
    (idle_waits s) (idle_ready s) (effects s).
Definition set_write_deque (v : list Buf) (s : Session) : Session :=
  Sess (framer_ s) v (write_in_progress_ s) (use_write_queue_ s) (shutdown_in_progress_ s)
    (graceful_shutdown_ s) (on_message_ s) (on_disconnect_ s) (plugin_bundle_ s)
    (reads s) (in_flight s) (read_waits s) (read_ready s) (idle_waits s) (idle_ready s)
    (effects s).
Definition set_write_in_progress (v : bool) (s : Session) : Session :=
  Sess (framer_ s) (write_deque_ s) v (use_write_queue_ s) (shutdown_in_progress_ s)
    (graceful_shutdown_ s) (on_message_ s) (on_disconnect_ s) (plugin_bundle_ s)
    (reads s) (in_flight s) (read_waits s) (read_ready s) (idle_waits s) (idle_ready s)
    (effects s).
Definition set_use_write_queue (v : bool) (s : Session) : Session :=
  Sess (framer_ s) (write_deque_ s) (write_in_progress_ s) v (shutdown_in_progress_ s)
    (graceful_shutdown_ s) (on_message_ s) (on_disconnect_ s) (plugin_bundle_ s)
    (reads s) (in_flight s) (read_waits s) (read_ready s) (idle_waits s) (idle_ready s)
    (effects s).
Definition set_shutdown_in_progress (v : bool) (s : Session) : Session :=
  Sess (framer_ s) (write_deque_ s) (write_in_progress_ s) (use_write_queue_ s) v
    (graceful_shutdown_ s) (on_message_ s) (on_disconnect_ s) (plugin_bundle_ s)
    (reads s) (in_flight s) (read_waits s) (read_ready s) (idle_waits s) (idle_ready s)
    (effects s).
Definition set_graceful_shutdown (v : bool) (s : Session) : Session :=
  Sess (framer_ s) (write_deque_ s) (write_in_progress_ s) (use_write_queue_ s)
    (shutdown_in_progress_ s) v (on_message_ s) (on_disconnect_ s) (plugin_bundle_ s)
    (reads s) (in_flight s) (read_waits s) (read_ready s) (idle_waits s) (idle_ready s)
    (effects s).
Definition set_on_message (v : option MessageHandler) (s : Session) : Session :=
  Sess (framer_ s) (write_deque_ s) (write_in_progress_ s) (use_write_queue_ s)
    (shutdown_in_progress_ s) (graceful_shutdown_ s) v (on_disconnect_ s)
    (plugin_bundle_ s) (reads s) (in_flight s) (read_waits s) (read_ready s)
    (idle_waits s) (idle_ready s) (effects s).
Definition set_on_disconnect (v : option DisconnectHandler) (s : Session) : Session :=
  Sess (framer_ s) (write_deque_ s) (write_in_progress_ s) (use_write_queue_ s)
    (shutdown_in_progress_ s) (graceful_shutdown_ s) (on_message_ s) v
    (plugin_bundle_ s) (reads s) (in_flight s) (read_waits s) (read_ready s)
    (idle_waits s) (idle_ready s) (effects s).
Definition set_plugin_bundle (v : PluginBundle (P := P)) (s : Session) : Session :=
  Sess (framer_ s) (write_deque_ s) (write_in_progress_ s) (use_write_queue_ s)
    (shutdown_in_progress_ s) (graceful_shutdown_ s) (on_message_ s) (on_disconnect_ s)
    v (reads s) (in_flight s) (read_waits s) (read_ready s) (idle_waits s)
    (idle_ready s) (effects s).
Definition set_reads (v : nat) (s : Session) : Session :=
  Sess (framer_ s) (write_deque_ s) (write_in_progress_ s) (use_write_queue_ s)
    (shutdown_in_progress_ s) (graceful_shutdown_ s) (on_message_ s) (on_disconnect_ s)
    (plugin_bundle_ s) v (in_flight s) (read_waits s) (read_ready s) (idle_waits s)
    (idle_ready s) (effects s).
Definition set_in_flight (v : list Buf) (s : Session) : Session :=
  Sess (framer_ s) (write_deque_ s) (write_in_progress_ s) (use_write_queue_ s)
    (shutdown_in_progress_ s) (graceful_shutdown_ s) (on_message_ s) (on_disconnect_ s)
    (plugin_bundle_ s) (reads s) v (read_waits s) (read_ready s) (idle_waits s)
    (idle_ready s) (effects s).
Definition set_read_waits (v : nat) (s : Session) : Session :=
  Sess (framer_ s) (write_deque_ s) (write_in_progress_ s) (use_write_queue_ s)
    (shutdown_in_progress_ s) (graceful_shutdown_ s) (on_message_ s) (on_disconnect_ s)
    (plugin_bundle_ s) (reads s) (in_flight s) v (read_ready s) (idle_waits s)
    (idle_ready s) (effects s).
Definition set_read_ready (v : nat) (s : Session) : Session :=
  Sess (framer_ s) (write_deque_ s) (write_in_progress_ s) (use_write_queue_ s)
    (shutdown_in_progress_ s) (graceful_shutdown_ s) (on_message_ s) (on_disconnect_ s)
    (plugin_bundle_ s) (reads s) (in_flight s) (read_waits s) v (idle_waits s)
    (idle_ready s) (effects s).
Definition set_idle_waits (v : nat) (s : Session) : Session :=
  Sess (framer_ s) (write_deque_ s) (write_in_progress_ s) (use_write_queue_ s)
    (shutdown_in_progress_ s) (graceful_shutdown_ s) (on_message_ s) (on_disconnect_ s)
    (plugin_bundle_ s) (reads s) (in_flight s) (read_waits s) (read_ready s) v
    (idle_ready s) (effects s).
Definition set_idle_ready (v : nat) (s : Session) : Session :=
  Sess (framer_ s) (write_deque_ s) (write_in_progress_ s) (use_write_queue_ s)
    (shutdown_in_progress_ s) (graceful_shutdown_ s) (on_message_ s) (on_disconnect_ s)
    (plugin_bundle_ s) (reads s) (in_flight s) (read_waits s) (read_ready s)
    (idle_waits s) v (effects s).
Definition set_effects (v : list effect) (s : Session) : Session :=
  Sess (framer_ s) (write_deque_ s) (write_in_progress_ s) (use_write_queue_ s)
    (shutdown_in_progress_ s) (graceful_shutdown_ s) (on_message_ s) (on_disconnect_ s)
    (plugin_bundle_ s) (reads s) (in_flight s) (read_waits s) (read_ready s)
    (idle_waits s) (idle_ready s) v.

Abbreviation Act := (M Session ()).

Definition log_effect (e : effect) : Act := modify (λ s, set_effects (effects s ++ [e]) s).

(** A call of the framer: a null pointer after [framer_.reset()]. *)
Definition on_framer {A} (m : M F A) : M Session A := λ s,
  match framer_ s with
  | None => Undef null_dereference
  | Some f =>
      match m f with
      | Ret a f => Ret a (set_framer (Some f) s)
      | Throw e f => Throw e (set_framer (Some f) s)
      | Undef u => Undef u
      end
  end.

(** [if (cond(s)) m]. *)
Definition when (cond : Session → bool) (m : Act) : Act := λ s,
  if cond s then m s else Ret () s.

(** [if (cond(s)) return; m]. *)
Definition unless (cond : Session → bool) (m : Act) : Act := λ s,
  if cond s then Ret () s else m s.

Definition SetPluginBundle (b : PluginBundle) : Act := modify (set_plugin_bundle b).
Definition EnableWriteQueue (enable : bool) : Act := modify (set_use_write_queue enable).

(** The forced branch of [Close]. *)
Definition Close_force : Act :=
  unless shutdown_in_progress_
    (modify (set_shutdown_in_progress true) ;;
     log_effect SocketClosed ;;
     modify (set_write_deque []) ;;
     when use_write_queue_ (log_effect (QueueClose true))).

(** [read_timer_.cancel()] and [idle_timer_.cancel()]; [expires_after] aborts
    the waits too. *)
Definition cancel_read_timer : Act := modify (set_read_waits 0).
Definition cancel_idle_timer : Act := modify (set_idle_waits 0).

Definition idle_writes (s : Session) : bool :=
  negb (use_write_queue_ s) && negb (write_in_progress_ s) && bool_decide (write_deque_ s = []).

Definition Close (force : bool) : Act :=
  if force then Close_force
  else
    unless shutdown_in_progress_
      (modify (set_graceful_shutdown true) ;;
       cancel_read_timer ;;
       cancel_idle_timer ;;
       when use_write_queue_ (log_effect (QueueClose false)) ;;
       when idle_writes Close_force).

Definition WriteNext : Act := λ s,
  match write_deque_ s with
  | [] => when graceful_shutdown_ (Close true) (set_write_in_progress false s)
  | b :: rest =>
      (log_effect (WriteStarted b) ;; modify (λ s, set_in_flight (in_flight s ++ [b]) s))
        (set_write_deque rest (set_write_in_progress true s))
  end.

(** The interceptor, when the bundle has one under its key: whether the message
    goes on, and the message. *)
Definition intercept (m : Msg) (s : Session) : bool * Msg :=
  match GetTypedPlugin as_Interceptor (plugin_bundle_ s) kInterceptor with
  | Some filter => filter m
  | None => (true, m)
  end.

Definition queue_or_write (b : Buf) : Act := λ s,
  if use_write_queue_ s then log_effect (QueueSend b) s
  else unless write_in_progress_ WriteNext (set_write_deque (write_deque_ s ++ [b]) s).

(** Exceptions derived from [std::exception] are swallowed. *)
Definition is_std_exception (e : exn) : bool :=
  match e with other_exception _ => false | _ => true end.

Definition AsyncSend (m : Msg) : Act :=
  catch
    (passed ← gets (intercept m);
     if passed.1 : bool then b ← on_framer (framer_Frame passed.2); queue_or_write b
     else mret ())
    (λ e, if is_std_exception e then mret () else throw e).

(** The calls of a user's handler; an exception ends the handler. *)
Definition run_request (r : request) : Act :=
  match r with RSend m => AsyncSend m | RClose force => Close force end.
Definition run_requests (rs : list request) : Act := for_each run_request rs.

(** The cleanup at the end of [Shutdown]; its [Close(true)] finds
    [shutdown_in_progress_] set. *)
Definition Shutdown_cleanup : Act :=
  Close true ;;
  modify (set_write_deque []) ;;
  when use_write_queue_ (log_effect (QueueClose true)) ;;
  modify (set_framer None) ;;
  modify (set_plugin_bundle ∅) ;;
  modify (set_on_message None) ;;
  modify (set_on_disconnect None).

Definition Shutdown : Act :=
  unless shutdown_in_progress_
    (modify (set_shutdown_in_progress true) ;;
     h ← gets on_disconnect_;
     match h with
     | Some rs => log_effect Disconnected ;; run_requests rs
     | None => mret ()
     end ;;
     Shutdown_cleanup).

Definition StartRead : Act :=
  unless shutdown_in_progress_
    (on_framer framer_PrepareRead ;;
     modify (λ s, set_reads (S (reads s)) s) ;;
     cancel_read_timer ;;
     modify (λ s, set_read_waits (S (read_waits s)) s)).

Definition StartIdleTimer : Act :=
  cancel_idle_timer ;; modify (λ s, set_idle_waits (S (idle_waits s)) s).

Definition Start (on_message : MessageHandler) (on_disconnect : DisconnectHandler) : Act :=
  modify (set_on_message (Some on_message)) ;;
  modify (set_on_disconnect (Some on_disconnect)) ;;
  StartRead ;; StartIdleTimer.

(** One message of a read, [catch (...)] around the handler. *)
Definition deliver (m : Msg) : Act :=
  h ← gets on_message_;
  match h with
  | Some f => catch (log_effect (Deliver m) ;; run_requests (f m)) (λ _, mret ())
  | None => mret ()
  end.

(** The handler of [async_read_some]. *)
Definition read_handler (ec : bool) (n : Z) : Act :=
  unless shutdown_in_progress_
    (if ec then Shutdown
     else cancel_read_timer ;; cancel_read_timer ;; cancel_idle_timer ;;
          msgs ← on_framer (framer_OnData n);
          for_each deliver msgs ;;
          StartRead).

(** The handler of [read_timer_] and of [idle_timer_], not aborted. *)
Definition timer_handler : Act := unless shutdown_in_progress_ Shutdown.

(** The handler of [async_write]. *)
Definition write_handler (ec : bool) : Act :=
  if ec then Shutdown else modify (set_write_in_progress false) ;; WriteNext.

(** ** Events *)
Inductive event :=
  | EStart (on_message : MessageHandler) (on_disconnect : DisconnectHandler)
  | ESend (m : Msg)
  | EClose (force : bool)
  | EEnableWriteQueue (enable : bool)
  | ESetPluginBundle (b : PluginBundle (P := P))
  | ERead (ec : bool) (n : Z)
  | EWritten (i : nat) (ec : bool)
  | EReadExpires
  | EReadTimer
  | EIdleExpires
  | EIdleTimer.

(** A handler that is not pending cannot run: [None]. *)
Definition handle (e : event) (s : Session) : option (outcome Session ()) :=
  match e with
  | EStart f g => Some (Start f g s)
  | ESend m => Some (AsyncSend m s)
  | EClose force => Some (Close force s)
  | EEnableWriteQueue b => Some (EnableWriteQueue b s)
  | ESetPluginBundle b => Some (SetPluginBundle b s)
  | ERead ec n =>
      match reads s with 0 => None | S r => Some (read_handler ec n (set_reads r s)) end
  | EWritten i ec =>
      if decide (i < length (in_flight s))
      then Some (write_handler ec (set_in_flight (delete i (in_flight s)) s)) else None
  | EReadExpires =>
      match read_waits s with
      | 0 => None
      | S w => Some (Ret () (set_read_ready (S (read_ready s)) (set_read_waits w s)))
      end
  | EReadTimer =>
      match read_ready s with 0 => None | S w => Some (timer_handler (set_read_ready w s)) end
  | EIdleExpires =>
      match idle_waits s with
      | 0 => None
      | S w => Some (Ret () (set_idle_ready (S (idle_ready s)) (set_idle_waits w s)))
      end
  | EIdleTimer =>
      match idle_ready s with 0 => None | S w => Some (timer_handler (set_idle_ready w s)) end
  end.

(** A run: an exception that leaves a handler leaves it to the thread that runs
    the executor, and the session stays in the state it is in. *)
Fixpoint session_run (s : Session) (es : list event) : option (outcome Session ()) :=
  match es with
  | [] => Some (Ret () s)
  | e :: es =>
      match handle e s with
      | Some (Ret _ s') | Some (Throw _ s') => session_run s' es
      | r => r
      end
  end.
End Session.
