(* ===== verification/SessionTheorems.v ===== *)
(** * How a session ends

    At most one disconnection and nothing after it, and what an error leaves open. *)
From S2P Require Import Prelude PluginBundle Session.

Section Lifecycle.
Context {F Msg Buf P : Type} (framer_PrepareRead : M F ()) (framer_OnData : Z → M F (list Msg))
  (framer_Frame : Msg → M F Buf) (as_Interceptor : P → option (Msg → bool * Msg)).
Abbreviation session := (Session (F := F) (Msg := Msg) (Buf := Buf) (P := P)).
Abbreviation act := (M session ()).
Abbreviation Send := (AsyncSend framer_Frame as_Interceptor).
Abbreviation requests := (run_requests framer_Frame as_Interceptor).
Implicit Types (s : session) (m : act).

(** ** Computations on a session *)
Lemma keeps_when (R : relation session) `{!PreOrder R} cond m : keeps R m → keeps R (when cond m).
Proof. intros Hm s. rw /when. destruct (cond s); [exact (Hm s)|exact (keeps_ret R () s)]. Qed.

Lemma keeps_unless (R : relation session) `{!PreOrder R} cond m :
  keeps R m → keeps R (unless cond m).
Proof. intros Hm s. rw /unless. destruct (cond s); [exact (keeps_ret R () s)|exact (Hm s)]. Qed.

Lemma keeps_at (R : relation session) `{!PreOrder R} f m :
  (∀ s, R s (f s)) → keeps R m → keeps R (λ s, m (f s)).
Proof. intros Hf Hm s. specialize (Hm (f s)). destruct (m (f s)); [by etrans; [apply Hf|]..|done]. Qed.

(** The effects of a step that is not a shutdown: no disconnection, and messages
    delivered only where [d] says so. *)
Definition allowed (d : bool) (e : effect (Msg := Msg) (Buf := Buf)) : Prop :=
  match e with Disconnected => False | Deliver _ => d = true | _ => True end.

(** Neither a delivery, nor a disconnection, nor a close. *)
Definition is_quiet (e : effect (Msg := Msg) (Buf := Buf)) : bool :=
  match e with Deliver _ | Disconnected | SocketClosed => false | _ => true end.

(** What such a step may do: the socket is closed only by what sets
    [shutdown_in_progress_], and never once it is set. *)
Definition calm (d : bool) s s' : Prop :=
  ∃ l, effects s' = effects s ++ l ∧ Forall (allowed d) l
    ∧ (shutdown_in_progress_ s = true →
         shutdown_in_progress_ s' = true ∧ SocketClosed ∉ l)
    ∧ (shutdown_in_progress_ s' = false → SocketClosed ∉ l).

Lemma not_in_nil (e : effect (Msg := Msg) (Buf := Buf)) : e ∉ [].
Proof. apply not_elem_of_nil. Qed.

#[export] Instance calm_preorder d : PreOrder (calm d).
Proof.
  split.
  - intros s. exists []. rw app_nil_r. split_and!; [done..| |]; intros; [split; [done|]|];
      apply not_in_nil.
  - intros s1 s2 s3 (l1 & H1 & Hd1 & Hs1 & Hf1) (l2 & H2 & Hd2 & Hs2 & Hf2).
    exists (l1 ++ l2). rw H2 H1 app_assoc. split_and!; [done|by apply list.Forall_app| |].
    + intros Hs. destruct (Hs1 Hs) as [Hs' ?]. destruct (Hs2 Hs'). split; [done|].
      by rw elem_of_app; intros [].
    + intros Hs. specialize (Hf2 Hs). destruct (shutdown_in_progress_ s2) eqn:E.
      * destruct (Hs2 eq_refl). congruence.
      * specialize (Hf1 eq_refl). by rw elem_of_app; intros [].
Qed.

(** A step that changes neither the effects nor the flag. *)
Lemma calm_same d s s' :
  effects s' = effects s → shutdown_in_progress_ s' = shutdown_in_progress_ s → calm d s s'.
Proof.
  intros He Hs. exists []. rw app_nil_r. split_and!; [done|done| |].
  - intros. split; [congruence|apply not_in_nil].
  - intros. apply not_in_nil.
Qed.

Lemma calm_weaken m : keeps (calm false) m → keeps (calm true) m.
Proof.
  intros Hm s. specialize (Hm s). destruct (m s) as [a s'|e s'|]; [..|done];
    destruct Hm as (l & He & Hd & Hl); exists l; (split_and!; [done| |apply Hl..]);
    by eapply Forall_impl; [|exact Hd]; intros [].
Qed.

Lemma calm_log d e :
  allowed d e → e ≠ SocketClosed → keeps (calm d) (log_effect e : act).
Proof.
  intros Hd Hc s. exists [e]. split_and!; [done|by apply list.Forall_singleton| |];
    intros; [split; [done|]|]; by rw list_elem_of_singleton.
Qed.

Hint Resolve keeps_when keeps_unless calm_log : keeps.
Hint Extern 3 (keeps (calm _) (modify _)) =>
  (apply keeps_modify; intros; by apply calm_same) : keeps.
Hint Extern 3 (PreOrder _) => typeclasses eauto : keeps.
Hint Extern 3 (_ ≠ _) => discriminate : keeps.
Hint Extern 3 (allowed _ _) => exact I : keeps.

Lemma calm_Close_force d : keeps (calm d) (Close_force : act).
Proof.
  intros s. rw /Close_force /unless. destruct (shutdown_in_progress_ s) eqn:Hs.
  { exact (keeps_ret (calm d) () s). }
  assert (H1 : calm d s (set_effects (effects s ++ [SocketClosed])
                                 (set_shutdown_in_progress true s))).
  { exists [SocketClosed]. rw /= Hs. split_and!; [done|by apply list.Forall_singleton|done|done]. }
  assert (H2 : keeps (calm d)
    (modify (set_write_deque []) ;; when use_write_queue_ (log_effect (QueueClose true)) : act)).
  { apply keeps_bind; [typeclasses eauto|auto with keeps..]. }
  specialize (H2 (set_effects (effects s ++ [SocketClosed]) (set_shutdown_in_progress true s))).
  rw /mbind /M_bind /= in H2 *. repeat case_match; try done; by etrans; [exact H1|].
Qed.
Hint Resolve calm_Close_force : keeps.

Lemma calm_Close d force : keeps (calm d) (Close force : act).
Proof. rw /Close /cancel_read_timer /cancel_idle_timer. destruct force; auto 10 with keeps. Qed.
Hint Resolve calm_Close : keeps.

Lemma calm_WriteNext d : keeps (calm d) (WriteNext : act).
Proof.
  intros s. rw /WriteNext. destruct (write_deque_ s) as [|b rest].
  - apply (keeps_at (calm d) (set_write_in_progress false)); [|auto with keeps].
    intros. by apply calm_same.
  - apply (keeps_at (calm d) (λ s, set_write_deque rest (set_write_in_progress true s)));
      [intros; by apply calm_same|auto with keeps].
Qed.
Hint Resolve calm_WriteNext : keeps.

Lemma calm_on_framer {A} d (f : M F A) : keeps (calm d) (on_framer f : M session A).
Proof.
  intros s. rw /on_framer. destruct (framer_ s) as [fr|]; [|done].
  destruct (f fr); [by apply calm_same..|done].
Qed.
Hint Resolve calm_on_framer : keeps.

Lemma calm_AsyncSend d (x : Msg) : keeps (calm d) (Send x : act).
Proof.
  rw /AsyncSend. apply keeps_catch; [typeclasses eauto| |].
  - apply keeps_bind; [typeclasses eauto|auto with keeps|]. intros [[] m']; rw /=; [|auto with keeps].
    apply keeps_bind; [typeclasses eauto|auto with keeps|]. intros b s. rw /queue_or_write.
    destruct (use_write_queue_ s); [by apply (calm_log d (QueueSend b))|].
    apply (keeps_at (calm d) (λ s, set_write_deque (write_deque_ s ++ [b]) s));
      [intros; by apply calm_same|auto with keeps].
  - intros e. destruct (is_std_exception e); auto with keeps.
Qed.

Lemma calm_requests d rs : keeps (calm d) (requests rs : act).
Proof.
  apply keeps_for_each; [typeclasses eauto|].
  intros [m|f]; [apply calm_AsyncSend|apply calm_Close].
Qed.
Hint Resolve calm_AsyncSend calm_requests : keeps.

Lemma calm_deliver (x : Msg) : keeps (calm true) (deliver framer_Frame as_Interceptor x : act).
Proof.
  rw /deliver. apply keeps_bind; [typeclasses eauto|auto with keeps|]. intros [f|]; [|auto with keeps].
  apply keeps_catch; [typeclasses eauto| |auto with keeps].
  apply keeps_bind; [typeclasses eauto|by apply calm_log|auto with keeps].
Qed.

Lemma calm_StartRead d : keeps (calm d) (StartRead framer_PrepareRead : act).
Proof.
  rw /StartRead /cancel_read_timer. apply keeps_unless; [typeclasses eauto|].
  repeat (apply keeps_bind; [typeclasses eauto|auto with keeps|]; intros []). auto with keeps.
Qed.

(** The reads of a read handler that has no error. *)
Lemma calm_read_ok n :
  keeps (calm true)
    (cancel_read_timer ;; cancel_read_timer ;; cancel_idle_timer ;;
     msgs ← on_framer (framer_OnData n);
     for_each (deliver framer_Frame as_Interceptor) msgs ;; StartRead framer_PrepareRead : act).
Proof.
  rw /cancel_read_timer /cancel_idle_timer.
  do 3 (apply keeps_bind; [typeclasses eauto|auto with keeps|]; intros []).
  apply keeps_bind; [typeclasses eauto|auto with keeps|]. intros msgs.
  apply keeps_bind; [typeclasses eauto| |intros; apply calm_StartRead].
  apply keeps_for_each; [typeclasses eauto|]. apply calm_deliver.
Qed.

(** What a shutdown does to a live session: it reports the disconnection once
    and neither delivers anything nor closes the socket. *)
Definition shut s s' : Prop :=
  shutdown_in_progress_ s' = true ∧
  ∃ l, effects s' = effects s ++ (if on_disconnect_ s is Some _ then [Disconnected] else []) ++ l
    ∧ Forall (allowed false) l ∧ SocketClosed ∉ l.

Lemma shut_calm s s1 s2 : shut s s1 → calm false s1 s2 → shut s s2.
Proof.
  intros (Hf & l & He & Hl & Hc) (l2 & He2 & Hl2 & Hs2 & _).
  destruct (Hs2 Hf) as [Hf2 Hc2]. split; [done|]. exists (l ++ l2).
  rw He2 He -!app_assoc. split_and!; [done|by apply list.Forall_app|].
  by rw elem_of_app; intros [].
Qed.

Lemma Shutdown_shut s :
  shutdown_in_progress_ s = false →
  match Shutdown framer_Frame as_Interceptor s with
  | Ret _ s' | Throw _ s' => shut s s' | Undef _ => True end.
Proof.
  intros Hs. rw /Shutdown /unless Hs.
  assert (Hclean : keeps (calm false) (Shutdown_cleanup : act)).
  { rw /Shutdown_cleanup.
    repeat (apply keeps_bind; [typeclasses eauto|auto with keeps|]; intros []). auto with keeps. }
  rw /mbind /M_bind /modify /gets /=. destruct (on_disconnect_ s) as [rs|] eqn:Hd.
  - set (s1 := set_effects _ _).
    assert (H1 : shut s s1).
    { split; [done|]. exists []. rw Hd. split_and!; [done|done|apply not_in_nil]. }
    assert (H2 : keeps (calm false) (requests rs ;; Shutdown_cleanup : act)).
    { apply keeps_bind; [typeclasses eauto|apply calm_requests|done]. }
    specialize (H2 s1). rw /mbind /M_bind /= in H2.
    repeat case_match; simplify_eq; try done; by eapply shut_calm.
  - set (s1 := set_shutdown_in_progress true s).
    assert (H1 : shut s s1).
    { split; [done|]. exists []. rw Hd !app_nil_r. split_and!; [done|done|apply not_in_nil]. }
    specialize (Hclean s1). rw /mret /M_ret /=.
    repeat case_match; simplify_eq; try done; by eapply shut_calm.
Qed.

(** ** Events *)
Abbreviation ev := (event (Msg := Msg) (P := P)).
Abbreviation handle_ev :=
  (handle framer_PrepareRead framer_OnData framer_Frame as_Interceptor).
Abbreviation run_ev :=
  (session_run framer_PrepareRead framer_OnData framer_Frame as_Interceptor).

(** The events whose handler shuts the session down. *)
Definition fatal (e : ev) : bool :=
  match e with ERead true _ | EWritten _ true | EReadTimer | EIdleTimer => true | _ => false end.

(** The state a handler ends in. *)
Definition ends (o : outcome session ()) s' : Prop :=
  match o with Ret _ s1 | Throw _ s1 => s1 = s' | Undef _ => False end.

Lemma ends_keeps (R : relation session) m s o s' :
  keeps R m → m s = o → ends o s' → R s s'.
Proof. intros Hm <- He. specialize (Hm s). by destruct (m s); simplify_eq/=. Qed.

Lemma fatal_shuts e s o s' :
  fatal e = true → shutdown_in_progress_ s = false → handle_ev e s = Some o → ends o s' →
  shut s s'.
Proof.
  intros Hf Hs He Hend.
  assert (Hsd : ∀ s1, effects s1 = effects s → shutdown_in_progress_ s1 = false →
     on_disconnect_ s1 = on_disconnect_ s →
     ends (Shutdown framer_Frame as_Interceptor s1) s' → shut s s').
  { intros s1 He1 Hs1 Hd1 Hend1. pose proof (Shutdown_shut s1 Hs1) as Hsh.
    rw /shut He1 Hd1 in Hsh. by destruct (Shutdown _ _ s1); simplify_eq/=. }
  destruct e as [f g|x|force|b|b|[] n|i []| | | |]; simplify_eq/=; repeat case_match; simplify_eq/=;
    rw /read_handler /timer_handler /write_handler /unless /= ?Hs in Hend;
    by apply Hsd in Hend.
Qed.

Lemma calm_handle d e s o s' :
  (fatal e = false ∧ d = true) ∨ shutdown_in_progress_ s = true → handle_ev e s = Some o → ends o s' →
  calm d s s'.
Proof.
  intros Hf He Hend.
  assert (Hfrom : ∀ s1 m, effects s1 = effects s →
     shutdown_in_progress_ s1 = shutdown_in_progress_ s → keeps (calm d) m → m s1 = o →
     calm d s s').
  { intros s1 m He1 Hs1 Hm Ho. etrans; [by apply calm_same|by eapply (ends_keeps _ m)]. }
  destruct e as [f g|x|force|b|b|ec n|i ec| | | |]; simplify_eq/=.
  - eapply Hfrom; [done..| |reflexivity]. rw /Start /StartIdleTimer /cancel_idle_timer.
    do 2 (apply keeps_bind; [typeclasses eauto|auto with keeps|]; intros []).
    apply keeps_bind; [typeclasses eauto|apply calm_StartRead|]. intros [].
    apply keeps_bind; auto with keeps.
  - eapply Hfrom; [done..| |reflexivity]. apply calm_AsyncSend.
  - eapply Hfrom; [done..| |reflexivity]. apply calm_Close.
  - eapply Hfrom; [done..| |reflexivity]. rw /EnableWriteQueue. auto with keeps.
  - eapply Hfrom; [done..| |reflexivity]. rw /SetPluginBundle. auto with keeps.
  - destruct (reads s) as [|r] eqn:Hr; simplify_eq/=.
    destruct (shutdown_in_progress_ s) eqn:Hs.
    + rw /read_handler /unless /= Hs /= in Hend. subst. by apply calm_same; [|rw Hs].
    + destruct ec; [by destruct Hf as [[]|]|]. destruct Hf as [[_ ->]|]; [|done].
      eapply Hfrom; [| | |reflexivity]; [done|done|].
      rw /read_handler. apply keeps_unless; [typeclasses eauto|apply calm_read_ok].
  - case_decide; simplify_eq/=. destruct ec.
    + destruct Hf as [[]|Hs]; [done|]. rw /write_handler /Shutdown /unless /= Hs /= in Hend.
      subst. by apply calm_same.
    + eapply Hfrom; [| | |reflexivity]; [done|done|]. rw /write_handler.
      apply keeps_bind; [typeclasses eauto|auto with keeps|intros; apply calm_WriteNext].
  - case_match; simplify_eq/=. by apply calm_same.
  - case_match; simplify_eq/=. destruct Hf as [[]|Hs]; [done|].
    rw /timer_handler /unless /= Hs /= in Hend. subst. by apply calm_same.
  - case_match; simplify_eq/=. by apply calm_same.
  - case_match; simplify_eq/=. destruct Hf as [[]|Hs]; [done|].
    rw /timer_handler /unless /= Hs /= in Hend. subst. by apply calm_same.
Qed.

(** At most one disconnection, and nothing after it. *)
Definition settled s : Prop :=
  (shutdown_in_progress_ s = false → (Disconnected ∉ effects s) ∧ (SocketClosed ∉ effects s))
  ∧ ∀ pre post, effects s = pre ++ Disconnected :: post →
      shutdown_in_progress_ s = true ∧ Forall (λ e, is_quiet e = true) post.

Lemma allowed_quiet l : Forall (allowed false) l → SocketClosed ∉ l →
  Forall (λ e, is_quiet e = true) l.
Proof.
  rw !list.Forall_forall. intros Hl Hc e He. specialize (Hl e He).
  by destruct e; simplify_eq/=.
Qed.

Lemma allowed_not_disconnected d l : Forall (allowed d) l → Disconnected ∉ l.
Proof. rw list.Forall_forall. intros Hl He. exact (Hl _ He). Qed.

Lemma app_split_not_in {A} (l1 l2 pre post : list A) x :
  x ∉ l2 → l1 ++ l2 = pre ++ x :: post → ∃ post', l1 = pre ++ x :: post' ∧ post = post' ++ l2.
Proof.
  intros Hx Heq. apply app_eq_app in Heq as [k [[-> Hk]|[-> Hk]]].
  - destruct k as [|y k]; simplify_eq/=; [by destruct Hx; left|]. by exists k.
  - destruct Hx. rw Hk elem_of_app. right. left.
Qed.

Lemma settled_handle e s o s' :
  settled s → handle_ev e s = Some o → ends o s' → settled s'.
Proof.
  intros [Hlive Hpost] He Hend. destruct (shutdown_in_progress_ s) eqn:Hs.
  - destruct (calm_handle false e s o s' (or_intror Hs) He Hend) as (l & Heff & Hl & Hst & _).
    destruct (Hst Hs) as [Hs' Hc]. split; [by rw Hs'|].
    intros pre post Hsplit. rw Heff in Hsplit.
    apply app_split_not_in in Hsplit as (post' & Hpre & ->); [|by eapply allowed_not_disconnected].
    destruct (Hpost pre post' Hpre) as [_ Hq]. split; [done|].
    apply list.Forall_app. split; [done|by apply allowed_quiet].
  - destruct (Hlive eq_refl) as [Hd Hc]. destruct (fatal e) eqn:Hf.
    + destruct (fatal_shuts e s o s' Hf Hs He Hend) as (Hs' & l & Heff & Hl & Hcl).
      split; [by rw Hs'|]. intros pre post Hsplit. split; [done|].
      rw Heff app_assoc in Hsplit.
      apply app_split_not_in in Hsplit as (post' & Hpre & ->); [|by eapply allowed_not_disconnected].
      apply list.Forall_app. split; [|by apply allowed_quiet].
      destruct (on_disconnect_ s) as [rs|].
      * apply (app_eq_app (effects s) [Disconnected]) in Hpre as [k [[Heq Hk]|[Heq Hk]]];
          (destruct k as [|y k]; simplify_eq/=; [done|]).
        -- destruct Hd. rw Heq elem_of_app. right. left.
        -- by destruct k.
      * rw app_nil_r in Hpre. destruct Hd. rw Hpre elem_of_app. right. left.
    + destruct (calm_handle true e s o s' (or_introl (conj Hf eq_refl)) He Hend)
        as (l & Heff & Hl & _ & Hcl).
      assert (Hnd : Disconnected ∉ effects s').
      { rw Heff elem_of_app. intros [|Hin]; [done|]. by eapply allowed_not_disconnected. }
      split.
      * intros Hs'. split; [done|]. rw Heff elem_of_app. intros [|Hin]; [done|]. by apply Hcl.
      * intros pre post Hsplit. destruct Hnd. rw Hsplit elem_of_app. right. left.
Qed.

Lemma run_settled es : ∀ s s', settled s → run_ev s es = Some (Ret () s') → settled s'.
Proof.
  induction es as [|e es IH]; intros s s' Hs Hrun; simplify_eq/=; [done|].
  destruct (handle_ev e s) as [[[] s1|x s1|u]|] eqn:He; simplify_eq/=;
    (eapply IH; [|exact Hrun]); by eapply settled_handle; [|exact He|].
Qed.

Lemma settled_new (framer : F) : settled (Session_ctor framer : session).
Proof.
  split; [intros _; split; apply not_in_nil|]. intros pre post Hsplit. by destruct pre.
Qed.

Lemma run_after_shutdown es : ∀ s s',
  shutdown_in_progress_ s = true → run_ev s es = Some (Ret () s') → calm false s s'.
Proof.
  induction es as [|e es IH]; intros s s' Hs Hrun; simplify_eq/=; [done|].
  destruct (handle_ev e s) as [o|] eqn:He; [|done].
  assert (Hend : ∃ s1, ends o s1 ∧ run_ev s1 es = Some (Ret () s')).
  { destruct o as [[] s1|x s1|u]; simplify_eq/=; by exists s1. }
  destruct Hend as (s1 & Hend & Hrun1).
  pose proof (calm_handle false e s o s1 (or_intror Hs) He Hend) as Hcalm.
  destruct Hcalm as (l & Heff & Hl & Hst & Hop). destruct (Hst Hs) as [Hs1 _].
  etrans; [by exists l|by apply IH].
Qed.

(** C9: the disconnect handler is called at most once in the life of a session,
    and it is the end: after it no message is delivered, it is not called again
    and the socket is not closed, whatever events follow and whatever the
    handlers do, exceptions included. *)
Theorem session_disconnect_final (framer : F) es s' pre post :
  run_ev (Session_ctor framer) es = Some (Ret () s') →
  effects s' = pre ++ Disconnected :: post →
  (Disconnected ∉ pre) ∧ Forall (λ e, is_quiet e = true) post.
Proof.
  intros Hrun Hsplit. destruct (run_settled es _ _ (settled_new framer) Hrun) as [_ Hpost].
  split; [|by destruct (Hpost pre post Hsplit)]. intros Hin.
  apply list_elem_of_split in Hin as (l1 & l2 & ->).
  destruct (Hpost l1 (l2 ++ Disconnected :: post)) as [_ Hq]; [by rw Hsplit -app_assoc|].
  apply list.Forall_app in Hq as [_ Hq]. by apply list.Forall_cons in Hq as [Hq _].
Qed.

(** An error does not close the connection.  When a read or a write fails,
    or a read or idle timeout fires, on a live session, the session reports the
    disconnection and stops, but its socket is neither cancelled nor closed,
    then or ever after: [Shutdown] sets the flag that makes its own
    [Close(true)] return at once. *)
Theorem session_error_leaves_socket_open (framer : F) es s e o s1 es' s2 :
  run_ev (Session_ctor framer) es = Some (Ret () s) → shutdown_in_progress_ s = false →
  fatal e = true → handle_ev e s = Some o → ends o s1 →
  run_ev s1 es' = Some (Ret () s2) →
  (SocketClosed ∉ effects s2) ∧ shutdown_in_progress_ s2 = true
  ∧ (on_disconnect_ s ≠ None → Disconnected ∈ effects s2).
Proof.
  intros Hrun Hs Hf He Hend Hrun'.
  destruct (run_settled es _ _ (settled_new framer) Hrun) as [Hlive _].
  destruct (Hlive Hs) as [_ Hc].
  pose proof (fatal_shuts e s o s1 Hf Hs He Hend) as Hshut.
  pose proof (run_after_shutdown es' s1 s2 (proj1 Hshut) Hrun') as Hcalm.
  destruct (shut_calm s s1 s2 Hshut Hcalm) as (Hs2 & l & Heff & _ & Hcl).
  rw Heff !elem_of_app. split_and!; [|done|].
  - intros [|[Hin|]]; [done| |done]. destruct (on_disconnect_ s).
    + by apply list_elem_of_singleton in Hin.
    + by apply not_in_nil in Hin.
  - intros Hd. right. left. destruct (on_disconnect_ s); [left|done].
Qed.
End Lifecycle.

(** ** Witnesses

    A framer that frames a number as itself and reads one message, the number of
    bytes; a session that echoes. *)
Definition echo_PrepareRead : M () () := mret ().
Definition echo_OnData (n : Z) : M () (list Z) := mret [n].
Definition echo_Frame (m : Z) : M () Z := mret m.
Definition no_interceptor (p : nat) : option (Z → bool * Z) := None.

Abbreviation echo_run := (session_run echo_PrepareRead echo_OnData echo_Frame no_interceptor).
Abbreviation echo_event := (event (Msg := Z) (P := nat)).
Definition echo_session : Session (F := ()) (Msg := Z) (Buf := Z) (P := nat) := Session_ctor ().

(** It starts, echoes a message and then its read times out. *)
Definition echo_start : list echo_event :=
  [EStart (λ m, [RSend m]) []; ERead false 5; EReadExpires].

Definition final_state (s : Session (F := ()) (Msg := Z) (Buf := Z) (P := nat))
    (es : list echo_event) := match echo_run s es with Some (Ret _ s') => s' | _ => s end.

Definition echo_live := final_state echo_session echo_start.
Definition echo_timed_out := final_state echo_live [EReadTimer].
Definition echo_end := final_state echo_timed_out [ERead false 7; EWritten 0 false; EClose true].

Lemma session_disconnect_final_witness :
  (Disconnected ∉ [Deliver (Buf := Z) 5%Z; WriteStarted 5%Z])
  ∧ Forall (λ e, is_quiet e = true) (tail (tail (tail (effects echo_end)))).
Proof.
  exact (session_disconnect_final echo_PrepareRead echo_OnData echo_Frame no_interceptor ()
           (echo_start ++ [EReadTimer; ERead false 7; EWritten 0 false; EClose true])
           echo_end [Deliver 5%Z; WriteStarted 5%Z] (tail (tail (tail (effects echo_end))))
           ltac:(by vm_compute) ltac:(by vm_compute)).
Defined.

Lemma session_error_leaves_socket_open_witness :
  (SocketClosed ∉ effects echo_end) ∧ shutdown_in_progress_ echo_end = true
  ∧ (on_disconnect_ echo_live ≠ None → Disconnected ∈ effects echo_end).
Proof.
  exact (session_error_leaves_socket_open echo_PrepareRead echo_OnData echo_Frame no_interceptor ()
           echo_start echo_live EReadTimer (Ret () echo_timed_out) echo_timed_out
           [ERead false 7; EWritten 0 false; EClose true] echo_end
           ltac:(by vm_compute) ltac:(by vm_compute) ltac:(by vm_compute) ltac:(by vm_compute)
           ltac:(by vm_compute) ltac:(by vm_compute)).
Defined.
