(* ===== verification/SessionDrains.v ===== *)
(** * The graceful close of a session on the direct write path

    From the close on, whatever is sent, read, written or times out without ending the
    session, the writes go on in order; the completion of the last closes the socket. *)
From S2P Require Import Prelude PluginBundle Session SessionTheorems.

Section Drains.
Context {F Msg Buf P : Type} (framer_PrepareRead : M F ()) (framer_OnData : Z → M F (list Msg))
  (framer_Frame : Msg → M F Buf) (as_Interceptor : P → option (Msg → bool * Msg)).
Abbreviation session := (Session (F := F) (Msg := Msg) (Buf := Buf) (P := P)).
Abbreviation act := (M session ()).
Abbreviation handle_ev := (handle framer_PrepareRead framer_OnData framer_Frame as_Interceptor).
Abbreviation run_ev := (session_run framer_PrepareRead framer_OnData framer_Frame as_Interceptor).
Abbreviation Send := (AsyncSend framer_Frame as_Interceptor).
Implicit Types (s : session) (m : act).

(** ** The completions of what is queued *)
Lemma written_last s b :
  shutdown_in_progress_ s = false → graceful_shutdown_ s = true → use_write_queue_ s = false →
  in_flight s = [b] → write_deque_ s = [] →
  ∃ s', handle_ev (EWritten 0 false) s = Some (Ret () s')
    ∧ shutdown_in_progress_ s' = true ∧ in_flight s' = []
    ∧ effects s' = effects s ++ [SocketClosed].
Proof.
  intros Hs Hg Hu Hfl Hq. eexists. rw /= Hfl /=. split.
  { rw /write_handler /mbind /M_bind /modify /WriteNext /= Hq /when /= Hg.
    rw /Close /Close_force /unless /= Hs /mbind /M_bind /modify /log_effect /when /= Hu. done. }
  by split_and!.
Qed.

Lemma written_more s b c l :
  in_flight s = [b] → write_deque_ s = c :: l →
  ∃ s', handle_ev (EWritten 0 false) s = Some (Ret () s')
    ∧ shutdown_in_progress_ s' = shutdown_in_progress_ s
    ∧ graceful_shutdown_ s' = graceful_shutdown_ s ∧ use_write_queue_ s' = use_write_queue_ s
    ∧ in_flight s' = [c] ∧ write_deque_ s' = l ∧ effects s' = effects s ++ [WriteStarted c].
Proof.
  intros Hfl Hq. eexists. rw /= Hfl /=. split.
  { rw /write_handler /mbind /M_bind /modify /WriteNext /= Hq. done. }
  by split_and!.
Qed.

Lemma drains l : ∀ s b,
  shutdown_in_progress_ s = false → graceful_shutdown_ s = true → use_write_queue_ s = false →
  in_flight s = [b] → write_deque_ s = l →
  ∃ s', run_ev s (replicate (S (length l)) (EWritten 0 false)) = Some (Ret () s')
    ∧ shutdown_in_progress_ s' = true ∧ in_flight s' = []
    ∧ effects s' = effects s ++ (WriteStarted <$> l) ++ [SocketClosed].
Proof.
  induction l as [|c l IH]; intros s b Hs Hg Hu Hfl Hq.
  - destruct (written_last s b Hs Hg Hu Hfl Hq) as (s' & He & ?).
    exists s'. rw /= in He *. by rw He.
  - destruct (written_more s b c l Hfl Hq) as (s1 & He & Hs1 & Hg1 & Hu1 & Hfl1 & Hq1 & Heff1).
    destruct (IH s1 c) as (s' & Hrun & ? & ? & Heff); [congruence..|].
    exists s'. split_and!; [|done|done|by rw Heff Heff1 -app_assoc].
    change (replicate (S (length (c :: l))) (EWritten (P := P) (Msg := Msg) 0 false))
      with (EWritten (P := P) (Msg := Msg) 0 false :: replicate (S (length l)) (EWritten 0 false)).
    cbn [session_run]. by rw He.
Qed.

(** ** Events that do not end the session *)

(** Neither an error nor a timeout that is handled, nor a forced close, nor another mode. *)
Definition lasting (e : event (Msg := Msg) (P := P)) : bool :=
  match e with
  | ESend _ | EClose false | ESetPluginBundle _ | ERead false _ | EWritten _ false
  | EReadExpires | EIdleExpires => true
  | _ => false
  end.

(** A message handler that does not force a close. *)
Definition polite (h : option (MessageHandler (Msg := Msg))) : Prop :=
  ∀ f x, h = Some f → RClose true ∉ f x.

(** The buffers whose write has been started. *)
Definition begun (es : list (effect (Msg := Msg) (Buf := Buf))) : list Buf :=
  omap (λ e, match e with WriteStarted b => Some b | _ => None end) es.

Section Run.
Context (h : option (MessageHandler (Msg := Msg))) (Hpolite : polite h).
Context (e0 : list (effect (Msg := Msg) (Buf := Buf))) (q0 : list Buf).

(** The session is writing: [q0] was queued when the log was [e0], [more] since. *)
Record writing s : Prop := {
  wr_open : shutdown_in_progress_ s = false;
  wr_graceful : graceful_shutdown_ s = true;
  wr_direct : use_write_queue_ s = false;
  wr_busy : write_in_progress_ s = true;
  wr_flight : ∃ b, in_flight s = [b];
  wr_handler : on_message_ s = h;
  wr_log : ∃ l more, effects s = e0 ++ l ∧ (SocketClosed ∉ l) ∧ begun l ++ write_deque_ s = q0 ++ more
}.

(** It has written all there was, and closed. *)
Definition written_out s : Prop :=
  shutdown_in_progress_ s = true ∧
  ∃ l1 l2 more, effects s = e0 ++ l1 ++ SocketClosed :: l2 ∧ (SocketClosed ∉ l1 ++ l2)
    ∧ begun l1 = q0 ++ more.

Definition goes_on : relation session := λ s s', writing s → writing s'.

#[local] Instance goes_on_preorder : PreOrder goes_on.
Proof. split; [by intros s ?|]. intros s1 s2 s3 H12 H23 H1. by apply H23, H12. Qed.

Lemma keeps_if {A} (m : M session A) :
  (∀ s, writing s → match m s with Ret _ s' | Throw _ s' => writing s' | Undef _ => True end) →
  keeps goes_on m.
Proof. intros Hm s. specialize (Hm s). destruct (m s); [exact Hm..|done]. Qed.

Lemma goes_on_same s s' :
  shutdown_in_progress_ s' = shutdown_in_progress_ s → graceful_shutdown_ s' = graceful_shutdown_ s →
  use_write_queue_ s' = use_write_queue_ s → write_in_progress_ s' = write_in_progress_ s →
  in_flight s' = in_flight s → on_message_ s' = on_message_ s → effects s' = effects s →
  write_deque_ s' = write_deque_ s → goes_on s s'.
Proof. intros H1 H2 H3 H4 H5 H6 H7 H8 []. by split; rw ?H1 ?H2 ?H3 ?H4 ?H5 ?H6 ?H7 ?H8. Qed.

Hint Resolve keeps_when keeps_unless : keeps.
Hint Extern 3 (keeps goes_on (modify _)) =>
  (apply keeps_modify; intros; by apply goes_on_same) : keeps.
Hint Extern 3 (PreOrder _) => exact goes_on_preorder : keeps.

Lemma goes_on_deliver_log x : keeps goes_on (log_effect (Deliver x) : act).
Proof.
  apply keeps_modify. intros s [H1 H2 H3 H4 H5 H6 (l & more & He & Hc & Hb)]. split; try done.
  exists (l ++ [Deliver x]), more. rw /= He -app_assoc /begun omap_app /= app_nil_r.
  split_and!; [done| |done]. rw elem_of_app list_elem_of_singleton. by intros [|].
Qed.

Lemma goes_on_framer {A} (f : M F A) : keeps goes_on (on_framer f : M session A).
Proof.
  intros s. rw /on_framer. destruct (framer_ s) as [fr|]; [|done].
  destruct (f fr); [by apply goes_on_same..|done].
Qed.

Lemma goes_on_queue b : keeps goes_on (queue_or_write b : act).
Proof.
  apply keeps_if. intros s [H1 H2 H3 H4 H5 H6 (l & more & He & Hc & Hb)].
  rw /queue_or_write H3 /unless /= H4. split; try done.
  exists l, (more ++ [b]). split_and!; [done..|]. by rw /= app_assoc Hb -app_assoc.
Qed.
Hint Resolve goes_on_deliver_log goes_on_framer goes_on_queue : keeps.

Lemma goes_on_Send x : keeps goes_on (Send x : act).
Proof.
  rw /AsyncSend. apply keeps_catch; [typeclasses eauto| |].
  - apply keeps_bind; [typeclasses eauto|auto with keeps|]. intros [[] x']; cbn [fst snd]; auto with keeps.
  - intros e. destruct (is_std_exception e); auto with keeps.
Qed.

Lemma goes_on_Close : keeps goes_on (Close false : act).
Proof.
  apply keeps_if. intros s Hw. pose proof Hw as [H1 H2 H3 H4 _ _ _].
  rw /Close /unless H1 /cancel_read_timer /cancel_idle_timer /mbind /M_bind /modify /when /= H3.
  rw /idle_writes /= H3 H4 /=. by eapply goes_on_same; [..|exact Hw].
Qed.
Hint Resolve goes_on_Send goes_on_Close : keeps.

Lemma goes_on_requests rs :
  RClose true ∉ rs → keeps goes_on (run_requests framer_Frame as_Interceptor rs).
Proof.
  rw /run_requests. induction rs as [|r rs IH]; intros Hrs; [apply keeps_ret; typeclasses eauto|].
  apply not_elem_of_cons in Hrs as [Hr Hrs]. cbn [for_each]. apply keeps_bind; [typeclasses eauto| |auto].
  destruct r as [x|[]]; [exact (goes_on_Send x)|done|exact goes_on_Close].
Qed.

Lemma goes_on_deliver x : keeps goes_on (deliver framer_Frame as_Interceptor x).
Proof.
  apply keeps_if. intros s Hw. rw /deliver /mbind /M_bind /gets.
  destruct (on_message_ s) as [f|] eqn:Hf; [|done].
  assert (Hk : keeps goes_on (catch (log_effect (Deliver x) ;;
    run_requests framer_Frame as_Interceptor (f x)) (λ _, mret ()))).
  { apply keeps_catch; [typeclasses eauto| |auto with keeps].
    apply keeps_bind; [typeclasses eauto|auto with keeps|]. intros _. apply goes_on_requests.
    apply Hpolite. by rw -(wr_handler s Hw). }
  specialize (Hk s). destruct (catch _ _ s); [by apply Hk..|done].
Qed.
Hint Resolve goes_on_deliver : keeps.

Lemma goes_on_read n :
  keeps goes_on (read_handler framer_PrepareRead framer_OnData framer_Frame as_Interceptor false n).
Proof.
  rw /read_handler /StartRead /cancel_read_timer /cancel_idle_timer.
  apply keeps_unless; [typeclasses eauto|]. do 3 (apply keeps_bind; [typeclasses eauto|auto with keeps|]; intros _).
  apply keeps_bind; [typeclasses eauto|auto with keeps|]. intros ms.
  apply keeps_bind; [typeclasses eauto|apply keeps_for_each; auto with keeps|]. intros _.
  auto 10 with keeps.
Qed.

(** A completion: the next write is started, or the socket is closed. *)
Lemma writing_written s o s' :
  handle_ev (EWritten 0 false) s = Some o → ends o s' → writing s → writing s' ∨ written_out s'.
Proof.
  intros Ho Hend Hw. pose proof Hw as [H1 H2 H3 H4 [b H5] H6 (l & more & He & Hc & Hb)].
  destruct (write_deque_ s) as [|c q] eqn:Hq.
  - destruct (written_last s b H1 H2 H3 H5 Hq) as (s1 & Hs1 & Hsd & _ & Heff).
    rw Hs1 in Ho. simplify_eq/=. right. split; [done|]. exists l, [], more.
    rw Heff He -app_assoc !app_nil_r in Hb *. done.
  - left. rw /= H5 /write_handler /mbind /M_bind /modify /WriteNext /= Hq in Ho. simplify_eq/=.
    split; try done; [by exists c|]. exists (l ++ [WriteStarted c]), more.
    rw /= He -app_assoc /begun omap_app -/(begun l) /= -app_assoc. split_and!; [done| |done].
    rw elem_of_app list_elem_of_singleton. by intros [|].
Qed.

Lemma writing_step e s o s' :
  lasting e = true → handle_ev e s = Some o → ends o s' → writing s → writing s' ∨ written_out s'.
Proof.
  intros Hl Ho Hend Hw.
  assert (Hact : ∀ m s1, keeps goes_on m → goes_on s s1 → m s1 = o → writing s').
  { intros m s1 Hm H1 Hms. specialize (Hm s1). rw Hms in Hm.
    destruct o; cbn in Hend, Hm; subst; [by apply Hm, H1..|done]. }
  destruct e as [f g|x|[]|b|b|[] n|i []| | | |]; try done; cbn [handle] in Ho.
  - left. apply (Hact (Send x) s); [auto with keeps|done|congruence].
  - left. apply (Hact (Close false) s); [auto with keeps|done|congruence].
  - left. apply (Hact (SetPluginBundle b) s); [rw /SetPluginBundle; auto with keeps|done|congruence].
  - left. destruct (reads s) as [|r]; [done|]. apply (Hact _ (set_reads r s) (goes_on_read n)); [|congruence].
    by apply goes_on_same.
  - destruct (wr_flight s Hw) as [b Hb]. rw Hb in Ho. case_decide as Hi; [|done].
    destruct i as [|i]; [|cbn in Hi; lia].
    apply (writing_written s o s'); [|done|done]. by rw /= Hb.
  - left. destruct (read_waits s) as [|w]; simplify_eq/=. by eapply goes_on_same; [..|exact Hw].
  - left. destruct (idle_waits s) as [|w]; simplify_eq/=. by eapply goes_on_same; [..|exact Hw].
Qed.

Lemma writing_run es : ∀ s s',
  Forall (λ e, lasting e = true) es → run_ev s es = Some (Ret () s') → writing s →
  writing s' ∨ written_out s'.
Proof.
  induction es as [|e es IH]; intros s s' Hl Hrun Hw; simplify_eq/=; [by left|].
  apply list.Forall_cons in Hl as [He Hl].
  destruct (handle_ev e s) as [o|] eqn:Ho; [|done].
  assert (Hend : ∃ s1, ends o s1 ∧ run_ev s1 es = Some (Ret () s')).
  { destruct o as [[] s1|x s1|u]; simplify_eq/=; by exists s1. }
  destruct Hend as (s1 & Hend & Hrun1).
  destruct (writing_step e s o s1 He Ho Hend Hw) as [Hw1|[Hsd (l1 & l2 & more & Heff & Hc & Hb)]].
  { by apply (IH s1). }
  right. destruct (run_after_shutdown _ _ _ _ es s1 s' Hsd Hrun1) as (l & He' & _ & Hs & _).
  destruct (Hs Hsd) as [Hsd' Hnc]. split; [done|]. exists l1, (l2 ++ l), more.
  rw He' Heff -!app_assoc /=. split_and!; [done| |done]. rw app_assoc elem_of_app. by intros [|].
Qed.
End Run.

(** C33: a graceful close on the direct write path drains and then closes.  A session that
    is writing is closed gracefully; then messages are sent and read, writes complete,
    timers expire, in any order, but no read or write fails, no timeout is handled and
    nobody forces a close, the message handler neither (an error or a timeout drops the
    queue and leaves the socket open: [session_error_leaves_socket_open]).  Then either
    the socket is still open: the writes started since and the queue are what was queued
    at the close and then what was sent, in order, and as many completions as there are
    writes left write the rest, in order, and close the socket.  Or the socket has been
    closed, once, after the writes of everything that had been queued by then. *)
Theorem session_graceful_drains s b es s1 :
  shutdown_in_progress_ s = false → use_write_queue_ s = false →
  write_in_progress_ s = true → in_flight s = [b] → polite (on_message_ s) →
  Forall (λ e, lasting e = true) es → run_ev s (EClose false :: es) = Some (Ret () s1) →
  (shutdown_in_progress_ s1 = false
   ∧ (∃ l more, effects s1 = effects s ++ l ∧ (SocketClosed ∉ l)
        ∧ begun l ++ write_deque_ s1 = write_deque_ s ++ more)
   ∧ ∃ s', run_ev s1 (replicate (S (length (write_deque_ s1))) (EWritten 0 false)) = Some (Ret () s')
       ∧ effects s' = effects s1 ++ (WriteStarted <$> write_deque_ s1) ++ [SocketClosed]
       ∧ shutdown_in_progress_ s' = true ∧ in_flight s' = [])
  ∨ (shutdown_in_progress_ s1 = true
     ∧ ∃ l1 l2 more, effects s1 = effects s ++ l1 ++ SocketClosed :: l2
         ∧ (SocketClosed ∉ l1 ++ l2) ∧ begun l1 = write_deque_ s ++ more).
Proof.
  intros Hs Hu Hw Hfl Hpol Hl Hrun.
  set (s0 := set_idle_waits 0 (set_read_waits 0 (set_graceful_shutdown true s))).
  assert (He : handle_ev (EClose false) s = Some (Ret () s0)).
  { rw /= /Close /unless Hs /mbind /M_bind /modify /cancel_read_timer /cancel_idle_timer /when /= Hu.
    by rw /idle_writes /= Hu Hw. }
  cbn [session_run] in Hrun. rw He in Hrun.
  assert (H0 : writing (on_message_ s) (effects s) (write_deque_ s) s0).
  { split; try done; [by exists b|]. exists [], []. rw !app_nil_r. split_and!; [done| |done].
    apply not_elem_of_nil. }
  destruct (writing_run _ Hpol _ _ es s0 s1 Hl Hrun H0) as [[H1 H2 H3 H4 [b1 H5] _ Hlog]|Hout];
    [left|by right]. split_and!; [done|done|].
  destruct (drains (write_deque_ s1) s1 b1) as (s' & Hd & ? & ? & ?); [done..|]. by exists s'.
Qed.
End Drains.

(** ** Witness: one message is being written and one queued; a third is sent and the first
    write completes. *)
Definition echo_writing := final_state echo_session [ESend 1%Z; ESend 2%Z].

Definition echo_closing : list echo_event := [ESend 3%Z; EWritten 0 false; EClose false].

Lemma session_graceful_drains_witness :
  let s1 := final_state echo_writing (EClose false :: echo_closing) in
  ((shutdown_in_progress_ s1 = false
    ∧ (∃ l more, effects s1 = effects echo_writing ++ l ∧ (SocketClosed ∉ l)
         ∧ begun l ++ write_deque_ s1 = write_deque_ echo_writing ++ more)
    ∧ ∃ s', echo_run s1 (replicate (S (length (write_deque_ s1))) (EWritten 0 false)) = Some (Ret () s')
        ∧ effects s' = effects s1 ++ (WriteStarted <$> write_deque_ s1) ++ [SocketClosed]
        ∧ shutdown_in_progress_ s' = true ∧ in_flight s' = [])
   ∨ (shutdown_in_progress_ s1 = true
      ∧ ∃ l1 l2 more, effects s1 = effects echo_writing ++ l1 ++ SocketClosed :: l2
          ∧ (SocketClosed ∉ l1 ++ l2) ∧ begun l1 = write_deque_ echo_writing ++ more))
  ∧ effects s1 = [WriteStarted 1%Z; WriteStarted 2%Z] ∧ write_deque_ s1 = [3%Z].
Proof.
  cbv zeta. split; [|by vm_compute].
  apply (session_graceful_drains echo_PrepareRead echo_OnData echo_Frame no_interceptor
           echo_writing 1%Z echo_closing); try by vm_compute.
  by repeat (apply list.Forall_cons; split; [done|]).
Defined.
