(* ===== verification/SessionQueue.v ===== *)
(** * A session on its write queue (session.h, stream/write_queue_sg.h)

    The session of [Session.v] with the queue of [WriteQueueSG.v] as its
    [write_queue_sg_].  What the session's handlers do to the queue are lambdas
    on the queue's strand: they are added in the order of the calls and run one
    at a time, at once or later, interleaved with the completions of the queue's
    writes.  The completion handler the session passes does nothing but keep the
    session alive. *)
From S2P Require Import Prelude PluginBundle WriteQueueSG WriteQueueTheorems Session SessionTheorems.

Section SessionQueue.
Context {F Msg Buf P : Type} (framer_PrepareRead : M F ()) (framer_OnData : Z → M F (list Msg))
  (framer_Frame : Msg → M F Buf) (as_Interceptor : P → option (Msg → bool * Msg)).
Abbreviation session := (Session (F := F) (Msg := Msg) (Buf := Buf) (P := P)).
Abbreviation session_event := (event (Msg := Msg) (P := P)).
Abbreviation session_effect := (effect (Msg := Msg) (Buf := Buf)).
Abbreviation strand_label := (WriteQueueSG.label (B := Buf) (H := ())).
Abbreviation queue_world := (WriteQueueSG.world (B := Buf) (H := ())).
Abbreviation handle_ev :=
  (handle framer_PrepareRead framer_OnData framer_Frame as_Interceptor).

(** The session, its queue, and the lambdas on the strand that have not run. *)
Record Connection := Conn {
  session_ : session;
  write_queue_sg_ : queue_world;
  strand_ : list strand_label
}.

Definition Connection_ctor (framer : F) (max_queue : Z) : Connection :=
  Conn (Session_ctor framer) (WriteQueueSG.world0 max_queue) [].

(** The call of the queue behind an effect of the session. *)
Definition queue_call (e : session_effect) : option strand_label :=
  match e with
  | QueueSend b => Some (SSend b (Some ()))
  | QueueClose force => Some (SClose force)
  | _ => None
  end.

(** The session goes from [s] to [s']. *)
Definition after_handler (s' : session) (c : Connection) : Connection :=
  Conn s' (write_queue_sg_ c)
    (strand_ c ++ omap queue_call (drop (length (effects (session_ c))) (effects s'))).

Inductive connection_label :=
  | KSession (e : session_event)
  | KStrand
  | KEnableMaxQueue (enable : bool)
  | KComplete (i : nat) (ec : bool)
  | KResume.

Definition on_queue (l : strand_label) (c : Connection) : option (outcome Connection ()) :=
  w ← WriteQueueSG.step (write_queue_sg_ c) l;
  Some (Ret () (Conn (session_ c) w (strand_ c))).

Definition connection_step (c : Connection) (l : connection_label) : option (outcome Connection ()) :=
  match l with
  | KSession e =>
      match handle_ev e (session_ c) with
      | Some (Ret _ s') => Some (Ret () (after_handler s' c))
      | Some (Throw x s') => Some (Throw x (after_handler s' c))
      | Some (Undef u) => Some (Undef u)
      | None => None
      end
  | KStrand =>
      match strand_ c with
      | [] => None
      | l :: rest => on_queue l (Conn (session_ c) (write_queue_sg_ c) rest)
      end
  | KEnableMaxQueue b => on_queue (SEnable b) c
  | KComplete i ec => on_queue (SComplete i ec) c
  | KResume => on_queue SResume c
  end.

Fixpoint connection_run (c : Connection) (ls : list connection_label)
    : option (outcome Connection ()) :=
  match ls with
  | [] => Some (Ret () c)
  | l :: ls =>
      match connection_step c l with
      | Some (Ret _ c') | Some (Throw _ c') => connection_run c' ls
      | r => r
      end
  end.

(** ** What was sent and what became of it *)
Definition element_of (l : strand_label) : option (element (B := Buf) (H := ())) :=
  match l with SSend b h => Some (b, h) | _ => None end.

(** The messages the session has framed and sent, in order. *)
Definition sends (es : list session_effect) : list (element (B := Buf) (H := ())) :=
  omap element_of (omap queue_call es).

(** The handlers told of a failure. *)
Definition failures (w : queue_world) : list () :=
  omap (λ c : () * bool, if c.2 then None else Some c.1) (calls w).

Lemma sends_app es1 es2 : sends (es1 ++ es2) = sends es1 ++ sends es2.
Proof. by rw /sends !omap_app. Qed.

(** Handlers only add effects. *)
Lemma handle_grows e s o s' :
  handle_ev e s = Some o → ends o s' → ∃ l, effects s' = effects s ++ l.
Proof.
  intros He Hend. destruct (shutdown_in_progress_ s) eqn:Hs.
  - destruct (calm_handle framer_PrepareRead framer_OnData framer_Frame as_Interceptor false e s o s')
      as (l & Hl & _); [by right|done..|]. by exists l.
  - destruct (fatal e) eqn:Hf.
    + destruct (fatal_shuts framer_PrepareRead framer_OnData framer_Frame as_Interceptor e s o s')
        as (_ & l & Hl & _); [done..|]. by eexists.
    + destruct (calm_handle framer_PrepareRead framer_OnData framer_Frame as_Interceptor true e s o s')
        as (l & Hl & _); [by left|done..|]. by exists l.
Qed.

(** The steps, as the queue sees them: the session adds to the strand, the strand
    runs its first lambda, or asio (or the user) steps the queue itself; [err]:
    that may be a completion with an error. *)
Definition conn_ends (o : outcome Connection ()) (c' : Connection) : Prop :=
  match o with Ret _ c1 | Throw _ c1 => c1 = c' | Undef _ => False end.

Inductive conn_move (err : bool) (c : Connection) : Connection → Prop :=
  | move_session s' l :
      effects s' = effects (session_ c) ++ l →
      conn_move err c (Conn s' (write_queue_sg_ c) (strand_ c ++ omap queue_call l))
  | move_strand l rest w :
      strand_ c = l :: rest → WriteQueueSG.step (write_queue_sg_ c) l = Some w →
      conn_move err c (Conn (session_ c) w rest)
  | move_queue l w :
      element_of l = None → is_force l = false → (is_error l = true → err = true) →
      WriteQueueSG.step (write_queue_sg_ c) l = Some w →
      conn_move err c (Conn (session_ c) w (strand_ c)).

Definition write_fails (l : connection_label) : bool :=
  match l with KComplete _ true => true | _ => false end.

Lemma on_queue_ends l c o c' :
  on_queue l c = Some o → conn_ends o c' →
  ∃ w, WriteQueueSG.step (write_queue_sg_ c) l = Some w ∧ c' = Conn (session_ c) w (strand_ c).
Proof.
  rw /on_queue. destruct (WriteQueueSG.step _ l) as [w|]; [|done].
  intros [= <-] <-. by exists w.
Qed.

Lemma connection_step_moves c l o c' :
  connection_step c l = Some o → conn_ends o c' → conn_move (write_fails l) c c'.
Proof.
  intros Hs Hend. destruct l as [e| |b|i ec|]; rw /= in Hs.
  - destruct (handle_ev e (session_ c)) as [oe|] eqn:He; [|done].
    assert (Hs' : ∃ s', ends oe s' ∧ c' = after_handler s' c).
    { destruct oe as [[] s1|x s1|u]; injection Hs as <-; [by exists s1..|done]. }
    destruct Hs' as (s' & Hoe & ->). destruct (handle_grows e _ _ _ He Hoe) as [l Hl].
    rw /after_handler Hl drop_app_length. by apply move_session.
  - destruct (strand_ c) as [|l rest] eqn:Hst; [done|].
    apply on_queue_ends with (c' := c') in Hs as (w & Hw & ->); [|done].
    rw /= in Hw *. by eapply move_strand.
  - apply on_queue_ends with (c' := c') in Hs as (w & Hw & ->); [|done].
    by apply (move_queue _ _ (SEnable b)).
  - apply on_queue_ends with (c' := c') in Hs as (w & Hw & ->); [|done].
    by apply (move_queue _ _ (SComplete i ec)); [..|destruct ec|].
  - apply on_queue_ends with (c' := c') in Hs as (w & Hw & ->); [|done].
    by apply (move_queue _ _ SResume).
Qed.

Lemma connection_run_invariant (err : bool) (I : Connection → Prop) :
  (∀ c c', conn_move err c c' → I c → I c') →
  ∀ ls c c', Forall (λ l, write_fails l = true → err = true) ls →
  connection_run c ls = Some (Ret () c') → I c → I c'.
Proof.
  intros Hmove ls. induction ls as [|l ls IH]; intros c c' Hok Hrun HI; simplify_eq/=; [done|].
  apply list.Forall_cons in Hok as [Hl Hok].
  destruct (connection_step c l) as [o|] eqn:Hs; [|done].
  assert (Ho : ∃ c1, conn_ends o c1 ∧ connection_run c1 ls = Some (Ret () c')).
  { destruct o as [[] c1|x c1|u]; simplify_eq/=; by exists c1. }
  destruct Ho as (c1 & Hend & Hrun1). eapply IH; [done|exact Hrun1|].
  eapply Hmove; [|exact HI]. pose proof (connection_step_moves c l o c1 Hs Hend) as Hm.
  destruct err; [|destruct (write_fails l); [by specialize (Hl eq_refl)|done]].
  destruct Hm as [s' es He|l' rest w Hst Hw|l' w He Hf Herr Hw].
  - by apply move_session.
  - by eapply move_strand.
  - by apply (move_queue _ _ l').
Qed.

(** ** Order *)
Definition pending (c : Connection) : list (element (B := Buf) (H := ())) :=
  omap element_of (strand_ c).

Lemma accepts_element w l : sublist (accepts w l) (omap element_of [l]).
Proof. destruct l as [b|b h|f|i ec|]; rw /=; try done. destruct (rejects _); [apply sublist_nil_l|done]. Qed.

Definition sent_in_order (c : Connection) : Prop :=
  ∃ acc, in_order (write_queue_sg_ c) acc
    ∧ sublist (acc ++ pending c) (sends (effects (session_ c))).

Lemma conn_move_in_order c c' : conn_move true c c' → sent_in_order c → sent_in_order c'.
Proof.
  intros Hm (acc & Hin & Hsub). destruct Hm as [s' es He|l rest w Hst Hw|l w He Hf _ Hw].
  - exists acc. split; [done|]. rw /pending /= He sends_app omap_app app_assoc.
    by apply sublist_app.
  - exists (acc ++ accepts (write_queue_sg_ c) l). split; [by eapply step_in_order|].
    etrans; [|exact Hsub]. rw -app_assoc. apply sublist_app; [done|].
    rw /pending Hst. change (l :: rest) with ([l] ++ rest). rw omap_app.
    apply sublist_app; [apply accepts_element|done].
  - exists (acc ++ accepts (write_queue_sg_ c) l). split; [by eapply step_in_order|].
    etrans; [|exact Hsub]. apply sublist_app; [|done].
    assert (accepts (write_queue_sg_ c) l = []) as ->; [by destruct l|by rw app_nil_r].
Qed.

(** ** Accounting, while nothing is forced and no write fails *)
(** The lambdas the session adds, a forced close apart: sends have a handler. *)
Definition handled_send (l : strand_label) : Prop :=
  smooth l ∧ match l with SSend _ None => False | _ => True end.

Lemma failures_call (h : ()) ok (w : queue_world) :
  failures (call_handler (Some h) ok w) = failures w ++ (if ok then [] else [h]).
Proof. rw /failures calls_call omap_app. by destruct ok. Qed.

Lemma failures_DoWrite (w : queue_world) : failures (DoWrite w) = failures w.
Proof.
  rw DoWrite_eq. destruct (write_queue_ (queue w)); [done|].
  by rw /failures /start_write calls_emit app_nil_r.
Qed.

Lemma accepts_failures w l w' :
  handled_send l → WriteQueueSG.step w l = Some w' →
  length (accepts w l) + length (failures w') = length (omap element_of [l]) + length (failures w).
Proof.
  intros [[Hf He] Hh] Hs. destruct l as [b|b [[]|]|f|i ec|]; simplify_eq/=; try done.
  - rw /WriteQueueSG.AsyncSend. destruct (rejects _); [rw failures_call length_app /=; lia|].
    destruct (writing_ (queue w)); [done|by rw failures_DoWrite].
  - by destruct f.
  - rw /complete in Hs. repeat case_match; simplify_eq/=. destruct (_.2) as [h|]; [|done].
    by rw failures_call app_nil_r.
  - rw /resume in Hs. repeat case_match; simplify_eq/=; [done|by rw failures_DoWrite].
Qed.

Record settled_queue (c : Connection) (acc : list element) : Prop := {
  queue_accounted : accounted (write_queue_sg_ c) acc;
  queue_busy : busy (write_queue_sg_ c);
  queue_waits : waits_only_writing (write_queue_sg_ c);
  queue_strand : Forall handled_send (strand_ c);
  queue_total : length acc + length (pending c) + length (failures (write_queue_sg_ c))
                = length (sends (effects (session_ c)))
}.

Definition forced (c : Connection) : Prop := QueueClose true ∈ effects (session_ c).

Lemma queue_calls_handled (l : list session_effect) :
  QueueClose true ∉ l → Forall handled_send (omap queue_call l).
Proof.
  intros Hl. induction l as [|e l IH]; [by constructor|].
  rw not_elem_of_cons in Hl. destruct Hl as [He Hl]. specialize (IH Hl).
  destruct e as [| | | |[]|]; rw /= ?list.Forall_cons; try done; try by rw list.Forall_cons.
Qed.

Lemma step_settled c l w acc session strand :
  handled_send l → WriteQueueSG.step (write_queue_sg_ c) l = Some w →
  settled_queue c acc → Forall handled_send strand →
  length (omap element_of [l]) + length (omap element_of strand) = length (pending c) →
  effects session = effects (session_ c) →
  settled_queue (Conn session w strand) (acc ++ accepts (write_queue_sg_ c) l).
Proof.
  intros [Hl Hh] Hw [Ha Hb Hwt _ Ht] Hst Hlen He. split; rw /= ?He; [..|done|].
  - by eapply step_accounted.
  - eapply step_busy; [exact Hl|apply Ha|done..].
  - by eapply step_waits.
  - pose proof (accepts_failures _ _ _ (conj Hl Hh) Hw) as Hf.
    rw length_app -Ht -Hlen /pending /=. rw /= in Hf. lia.
Qed.

Lemma conn_move_settled c c' :
  conn_move false c c' → (¬ forced c → ∃ acc, settled_queue c acc) →
  ¬ forced c' → ∃ acc, settled_queue c' acc.
Proof.
  intros Hm Hinv Hf. destruct Hm as [s' es He|l rest w Hst Hw|l w He Hnf Herr Hw].
  - rw /forced /= He in Hf. apply not_elem_of_app in Hf as [Hf1 Hf2].
    destruct (Hinv Hf1) as [acc [Ha Hb Hwt Hs Ht]]. exists acc. split; rw /=; [done..| |].
    + apply list.Forall_app. split; [done|by apply queue_calls_handled].
    + rw /pending /= omap_app He sends_app !length_app -Ht /pending /sends. lia.
  - destruct (Hinv Hf) as [acc Hs]. eexists. pose proof (queue_strand _ _ Hs) as Hh.
    rw Hst in Hh. apply list.Forall_cons in Hh as [Hl Hrest].
    eapply (step_settled c l w acc); [exact Hl|done|done|done| |done].
    rw /pending Hst. change (l :: rest) with ([l] ++ rest). by rw omap_app length_app.
  - destruct (Hinv Hf) as [acc Hs]. eexists.
    eapply (step_settled c l w acc); [|done|done|exact (queue_strand _ _ Hs)| |done].
    + split; [split; [done|]|by destruct l as [|? []| | |]].
      destruct (is_error l); [by specialize (Herr eq_refl)|done].
    + by destruct l.
Qed.

Lemma settled_new_queue (framer : F) max : settled_queue (Connection_ctor framer max) [].
Proof.
  split; [|done..|by constructor|done].
  split; [by split; [cbn; lia|]|]. by split; [done|exists []].
Qed.

(** C12: a session on its write queue loses nothing and keeps the order: in every
    interleaving of the session's handlers, the strand's lambdas and the
    completions, the writes started on the socket, then what waits in the queue,
    then what is still on the strand, are a subsequence of the messages the
    session has sent.  While the session has forced no close and no write has
    failed, each message sent is exactly one of: written, in flight, waiting, on
    the strand, or refused by the backpressure, its handler told so; and when
    nothing is in flight or on the strand, every message sent that was not
    refused has been written. *)
Theorem session_queue_accounts (framer : F) max ls c :
  connection_run (Connection_ctor framer max) ls = Some (Ret () c) →
  let w := write_queue_sg_ c in
  let sent := sends (effects (session_ c)) in
  sublist (started w ++ write_queue_ (queue w) ++ pending c) sent
  ∧ (Forall (λ l, write_fails l = false) ls → ¬ forced c →
     (∃ finished, started w = finished ++ WriteQueueSG.in_flight w
       ∧ length finished + length (WriteQueueSG.in_flight w) + length (write_queue_ (queue w))
         + length (pending c) + length (failures w) = length sent)
     ∧ (strand_ c = [] → WriteQueueSG.in_flight w = [] → completing w = None →
        sublist (started w) sent ∧ length (started w) + length (failures w) = length sent)).
Proof.
  intros Hrun; cbv zeta.
  assert (Horder : sublist (started (write_queue_sg_ c) ++ write_queue_ (queue (write_queue_sg_ c))
                              ++ pending c) (sends (effects (session_ c)))).
  { assert (sent_in_order c) as (acc & Hin & Hsub).
    { refine (connection_run_invariant true sent_in_order conn_move_in_order ls _ _ _ Hrun _);
        [by apply list.Forall_forall|]. exists []. split; apply sublist_nil_l. }
    etrans; [|exact Hsub]. rw app_assoc. by apply sublist_app. }
  split; [done|]. intros Hok Hforced.
  assert (Hs : ∃ acc, settled_queue c acc).
  { refine (connection_run_invariant false (λ c, ¬ forced c → ∃ acc, settled_queue c acc)
              conn_move_settled ls _ _ _ Hrun _ Hforced).
    - eapply Forall_impl; [|exact Hok]. by intros l ->.
    - intros _. exists []. apply settled_new_queue. }
  destruct Hs as [acc [((Hone & Hidle) & _ & fin & Hst & Hacc & _) Hb Hwt _ Ht]].
  rw -Hacc length_app Hst length_app in Ht.
  split; [exists fin; split; [done|lia]|].
  intros Hstrand Hfl Hc. rw /pending Hstrand Hfl /= in Ht Horder.
  assert (Hwr : writing_ (queue (write_queue_sg_ c)) = false).
  { destruct (writing_ (queue (write_queue_sg_ c))) eqn:Hwr; [|done]. by destruct (Hb Hwr). }
  rw (Hwt Hwr) !app_nil_r in Horder. rw (Hwt Hwr) in Ht. split; [done|].
  rw Hst Hfl app_nil_r. cbn in Ht. lia.
Qed.
End SessionQueue.

(** ** Closing *)
Section QueueClosing.
Context {F Msg Buf P : Type} (framer_PrepareRead : M F ()) (framer_OnData : Z → M F (list Msg))
  (framer_Frame : Msg → M F Buf) (as_Interceptor : P → option (Msg → bool * Msg)).
Abbreviation session := (Session (F := F) (Msg := Msg) (Buf := Buf) (P := P)).
Abbreviation act := (M session ()).
Implicit Types (s : session).

Definition gentle_requests (rs : list (request (Msg := Msg))) : Prop :=
  Forall (λ r, match r with RClose force => force = false | _ => True end) rs.

(** A session in queue mode whose socket is open and whose handlers force no
    close. *)
Record stays_open s : Prop := {
  open_queue : use_write_queue_ s = true;
  open_writes : in_flight s = [];
  open_message : ∀ f m, on_message_ s = Some f → gentle_requests (f m);
  open_disconnect : ∀ rs, on_disconnect_ s = Some rs → gentle_requests rs;
  open_socket : SocketClosed ∉ effects s
}.

(** What keeps it so: in any state, or ([d]) once [shutdown_in_progress_] is set. *)
Definition keeps_open (d : bool) : relation session := λ s s',
  (d = true → shutdown_in_progress_ s = true) → stays_open s →
  stays_open s' ∧ (shutdown_in_progress_ s = true → shutdown_in_progress_ s' = true).

#[local] Instance keeps_open_preorder d : PreOrder (keeps_open d).
Proof.
  split; [done|]. intros s1 s2 s3 H12 H23 Hd H1. destruct (H12 Hd H1) as [H2 Hs2].
  destruct H23 as [H3 Hs3]; [by auto|done|]. by auto.
Qed.

Lemma open_modify d f :
  (∀ s, use_write_queue_ (f s) = use_write_queue_ s ∧ in_flight (f s) = in_flight s
        ∧ (on_message_ (f s) = on_message_ s ∨ on_message_ (f s) = None)
        ∧ (on_disconnect_ (f s) = on_disconnect_ s ∨ on_disconnect_ (f s) = None)
        ∧ effects (f s) = effects s
        ∧ (shutdown_in_progress_ s = true → shutdown_in_progress_ (f s) = true)) →
  keeps (keeps_open d) (modify f).
Proof.
  intros Hf. apply keeps_modify. intros s _ [Hu Hw Hm Hdis Hs].
  destruct (Hf s) as (Hu' & Hw' & Hm' & Hdis' & He & Hsd). split; [|done].
  split; rw ?Hu' ?Hw' ?He //.
  - intros g m Hg. destruct Hm' as [Hm'|Hm']; rw Hm' in Hg; [by eapply Hm|done].
  - intros g Hg. destruct Hdis' as [Hd'|Hd']; rw Hd' in Hg; [by apply Hdis|done].
Qed.

Lemma open_log d e : e ≠ SocketClosed → keeps (keeps_open d) (log_effect e : act).
Proof.
  intros He. apply keeps_modify. intros s _ [Hu Hw Hm Hdis Hs]. split; [|done].
  split; rw //= elem_of_app list_elem_of_singleton. by intros [].
Qed.

Hint Resolve keeps_when keeps_unless open_log : keeps.
Hint Extern 3 (keeps (keeps_open _) (modify _)) =>
  (apply open_modify; intros; split_and!; auto) : keeps.
Hint Extern 3 (PreOrder _) => typeclasses eauto : keeps.
Hint Extern 3 (_ ≠ _) => discriminate : keeps.

Lemma open_Close_graceful d : keeps (keeps_open d) (Close false : act).
Proof.
  rw /Close /cancel_read_timer /cancel_idle_timer.
  apply keeps_unless; [typeclasses eauto|].
  do 4 (apply keeps_bind; [typeclasses eauto|auto with keeps|]; intros []).
  intros s. rw /when /idle_writes. destruct (use_write_queue_ s) eqn:Hu; [exact (keeps_ret (keeps_open d) () s)|].
  destruct (negb _ && _ && _); [|exact (keeps_ret (keeps_open d) () s)].
  destruct (Close_force s); [..|done]; intros _ [Hu' _ _ _ _]; congruence.
Qed.

(** The forced close of a session that is shutting down. *)
Lemma open_Close_shut : keeps (keeps_open true) (Close true : act).
Proof.
  intros s. rw /Close /Close_force /unless. destruct (shutdown_in_progress_ s) eqn:Hs.
  { exact (keeps_ret (keeps_open true) () s). }
  rw /mbind /M_bind /=. repeat case_match; try done; intros Hd; specialize (Hd eq_refl); congruence.
Qed.
Hint Resolve open_Close_graceful open_Close_shut : keeps.

Lemma open_on_framer {A} d (f : M F A) : keeps (keeps_open d) (on_framer f : M session A).
Proof.
  intros s. rw /on_framer. destruct (framer_ s) as [fr|]; [|done].
  destruct (f fr); [..|done]; intros _ []; by split.
Qed.
Hint Resolve open_on_framer : keeps.

Lemma open_AsyncSend d (x : Msg) :
  keeps (keeps_open d) (AsyncSend framer_Frame as_Interceptor x : act).
Proof.
  rw /AsyncSend. apply keeps_catch; [typeclasses eauto| |].
  - apply keeps_bind; [typeclasses eauto|auto with keeps|]. intros [[] m']; rw /=; [|auto with keeps].
    apply keeps_bind; [typeclasses eauto|auto with keeps|]. intros b s. rw /queue_or_write.
    destruct (use_write_queue_ s) eqn:Hu; [by apply (open_log d (QueueSend b))|].
    destruct (unless _ _ _); [..|done]; intros _ []; congruence.
  - intros e. destruct (is_std_exception e); auto with keeps.
Qed.
Hint Resolve open_AsyncSend : keeps.

Lemma open_requests d rs :
  gentle_requests rs → keeps (keeps_open d) (run_requests framer_Frame as_Interceptor rs : act).
Proof.
  rw /run_requests. induction 1 as [|r rs Hr Hrs IH]; [by exact (keeps_ret (keeps_open d) ())|].
  apply keeps_bind; [typeclasses eauto| |done].
  destruct r as [m|force]; rw /run_request ?Hr; auto with keeps.
Qed.

Lemma open_deliver d (x : Msg) :
  keeps (keeps_open d) (deliver framer_Frame as_Interceptor x : act).
Proof.
  intros s. rw /deliver /gets /mbind /M_bind. destruct (on_message_ s) as [f|] eqn:Hf;
    [|by exact (keeps_ret (keeps_open d) () s)].
  assert (Hk : gentle_requests (f x) → keeps (keeps_open d)
    (catch (log_effect (Deliver x) ;; run_requests framer_Frame as_Interceptor (f x)) (λ _, mret ()) : act)).
  { intros Hg. apply keeps_catch; [typeclasses eauto| |auto with keeps].
    apply keeps_bind; [typeclasses eauto|auto with keeps|intros; by apply open_requests]. }
  destruct (catch _ _ s) eqn:Hc; [..|done]; intros Hd Ho;
    specialize (Hk (open_message _ Ho f x Hf) s); rw Hc in Hk; by apply Hk.
Qed.

Lemma open_StartRead d : keeps (keeps_open d) (StartRead framer_PrepareRead : act).
Proof.
  rw /StartRead /cancel_read_timer. apply keeps_unless; [typeclasses eauto|].
  repeat (apply keeps_bind; [typeclasses eauto|auto with keeps|]; intros []). auto with keeps.
Qed.
Hint Resolve open_StartRead : keeps.

Lemma open_Shutdown d : keeps (keeps_open d) (Shutdown framer_Frame as_Interceptor : act).
Proof.
  intros s. rw /Shutdown /unless. destruct (shutdown_in_progress_ s) eqn:Hs;
    [by exact (keeps_ret (keeps_open d) () s)|].
  assert (Hclean : keeps (keeps_open true) (Shutdown_cleanup : act)).
  { rw /Shutdown_cleanup.
    repeat (apply keeps_bind; [typeclasses eauto|auto with keeps|]; intros []). auto with keeps. }
  assert (Hk : (∀ rs, on_disconnect_ s = Some rs → gentle_requests rs) → keeps (keeps_open true)
    (match on_disconnect_ s with
     | Some rs => log_effect Disconnected ;; run_requests framer_Frame as_Interceptor rs
     | None => mret ()
     end ;; Shutdown_cleanup : act)).
  { intros Hg. apply keeps_bind; [typeclasses eauto| |done].
    destruct (on_disconnect_ s) as [rs|]; [|auto with keeps].
    apply keeps_bind; [typeclasses eauto|auto with keeps|]. intros. by apply open_requests, Hg. }
  rw /mbind /M_bind /modify /gets /=. rw /mbind /M_bind in Hk.
  match goal with |- match ?m with _ => _ end => destruct m eqn:Hm; [..|done] end;
    intros _ Ho; specialize (Hk (open_disconnect _ Ho) (set_shutdown_in_progress true s));
    rw Hm in Hk; (destruct (Hk (λ _, eq_refl)) as [Ho' _]; [by destruct Ho|by split; [|rw Hs]]).
Qed.
Hint Resolve open_Shutdown : keeps.

(** ** Events *)
Definition gentle (e : event (Msg := Msg) (P := P)) : Prop :=
  match e with
  | EStart f g => (∀ m, gentle_requests (f m)) ∧ gentle_requests g
  | EClose force => force = false
  | EEnableWriteQueue enable => enable = true
  | _ => True
  end.

Lemma gentle_handle e s o s' :
  gentle e → handle framer_PrepareRead framer_OnData framer_Frame as_Interceptor e s = Some o →
  ends o s' → stays_open s → stays_open s'.
Proof.
  intros Hg He Hend Ho.
  assert (Hfrom : ∀ s1 m, stays_open s1 → keeps (keeps_open false) m → m s1 = o → stays_open s').
  { intros s1 m Ho1 Hm Ho2. by apply (ends_keeps _ m s1 o s' Hm Ho2 Hend). }
  destruct e as [f g|x|force|b|b|ec n|i ec| | | |]; rw /= in Hg He.
  - injection He as He. destruct Hg as [Hgf Hgg].
    apply (Hfrom (set_on_disconnect (Some g) (set_on_message (Some f) s))
             (StartRead framer_PrepareRead ;; StartIdleTimer)); [| |done].
    + destruct Ho. split; rw //=; [by intros ? ? [= <-]|by intros ? [= <-]].
    + apply keeps_bind; [typeclasses eauto|apply open_StartRead|]. intros [].
      rw /StartIdleTimer /cancel_idle_timer. auto with keeps.
  - injection He as He. eapply (Hfrom s); [done|apply open_AsyncSend|exact He].
  - injection He as He. rw Hg in He. eapply (Hfrom s); [done|apply open_Close_graceful|exact He].
  - injection He as He. rw /EnableWriteQueue Hg in He. subst o. rw /= in Hend. subst s'. by destruct Ho.
  - injection He as He. subst o. rw /= in Hend. subst s'. by destruct Ho.
  - destruct (reads s) as [|r]; [done|]. injection He as He.
    eapply (Hfrom (set_reads r s)); [by destruct Ho| |exact He].
    rw /read_handler. apply keeps_unless; [typeclasses eauto|].
    destruct ec; [auto with keeps|]. rw /cancel_read_timer /cancel_idle_timer.
    do 3 (apply keeps_bind; [typeclasses eauto|auto with keeps|]; intros []).
    apply keeps_bind; [typeclasses eauto|auto with keeps|]. intros msgs.
    apply keeps_bind; [typeclasses eauto| |auto with keeps].
    apply keeps_for_each; [typeclasses eauto|]. apply open_deliver.
  - by rw (open_writes _ Ho) /= in He.
  - destruct (read_waits s); [done|]. injection He as <-. rw /= in Hend. subst s'. by destruct Ho.
  - destruct (read_ready s) as [|r]; [done|]. injection He as He.
    eapply (Hfrom (set_read_ready r s)); [by destruct Ho| |exact He]. rw /timer_handler. auto with keeps.
  - destruct (idle_waits s); [done|]. injection He as <-. rw /= in Hend. subst s'. by destruct Ho.
  - destruct (idle_ready s) as [|r]; [done|]. injection He as He.
    eapply (Hfrom (set_idle_ready r s)); [by destruct Ho| |exact He]. rw /timer_handler. auto with keeps.
Qed.

Abbreviation connection := (Connection (F := F) (Msg := Msg) (Buf := Buf) (P := P)).
Abbreviation conn_step :=
  (connection_step framer_PrepareRead framer_OnData framer_Frame as_Interceptor).
Abbreviation conn_run :=
  (connection_run framer_PrepareRead framer_OnData framer_Frame as_Interceptor).

Definition gentle_label (l : connection_label (Msg := Msg) (P := P)) : Prop :=
  match l with KSession e => gentle e | _ => True end.

Lemma gentle_step (c : connection) l o c' :
  gentle_label l → conn_step c l = Some o → conn_ends o c' →
  stays_open (session_ c) → stays_open (session_ c').
Proof.
  intros Hg Hs Hend Ho. destruct l as [e| |b|i ec|]; rw /= in Hs.
  - destruct (handle _ _ _ _ e (session_ c)) as [oe|] eqn:He; [|done].
    destruct oe as [[] s1|x s1|u]; injection Hs as <-; rw /= in Hend; [..|done]; subst c';
      (eapply gentle_handle; [exact Hg|exact He|done|exact Ho]).
  - destruct (strand_ c) as [|l rest]; [done|].
    by apply on_queue_ends with (c' := c') in Hs as (w & _ & ->).
  - by apply on_queue_ends with (c' := c') in Hs as (w & _ & ->).
  - by apply on_queue_ends with (c' := c') in Hs as (w & _ & ->).
  - by apply on_queue_ends with (c' := c') in Hs as (w & _ & ->).
Qed.

Lemma gentle_run ls : ∀ (c c' : connection),
  Forall gentle_label ls → conn_run c ls = Some (Ret () c') →
  stays_open (session_ c) → stays_open (session_ c').
Proof.
  induction ls as [|l ls IH]; intros c c' Hok Hrun Ho; simplify_eq/=; [done|].
  apply list.Forall_cons in Hok as [Hl Hok].
  destruct (conn_step c l) as [[[] c1|x c1|u]|] eqn:Hs; [..|done|done];
    (eapply IH; [exact Hok|exact Hrun|]; by eapply gentle_step).
Qed.

(** C37: in queue mode a graceful close closes nothing.  Whatever a session on its
    write queue does, closed gracefully any number of times, by its owner or by
    its handlers, its queue drained or not, its reads failing or timing out, its
    socket is never closed: only a forced close closes it. *)
Theorem session_queue_never_closes (framer : F) max ls c :
  connection_run framer_PrepareRead framer_OnData framer_Frame as_Interceptor
    (Connection_ctor framer max) (KSession (EEnableWriteQueue true) :: ls) = Some (Ret () c) →
  Forall gentle_label ls →
  (SocketClosed ∉ effects (session_ c)) ∧ use_write_queue_ (session_ c) = true
  ∧ in_flight (session_ c) = [].
Proof.
  intros Hrun Hok.
  destruct (gentle_run ls _ c Hok Hrun) as [Hu Hw _ _ Hs]; [|done].
  split; [done..|]. rw /=. apply not_elem_of_nil.
Qed.
End QueueClosing.

(** ** Witnesses: the echo session, on a queue of at most one waiting element. *)
Abbreviation echo_conn_run :=
  (connection_run echo_PrepareRead echo_OnData echo_Frame no_interceptor).
Abbreviation echo_label := (connection_label (Msg := Z) (P := nat)).

(** Three sends, the third refused; the session is closed gracefully, sends
    again, and the queue drains. *)
Definition queue_labels : list echo_label :=
  [KSession (EStart (λ m, [RSend m]) [RClose false]); KSession (ESend 1%Z); KStrand;
   KSession (ERead false 2); KStrand; KSession (ESend 3%Z); KStrand; KSession (EClose false);
   KComplete 0 false; KResume; KStrand; KComplete 0 false; KResume; KSession (ESend 4%Z);
   KStrand; KComplete 0 false; KResume].

Definition queue_start : Connection (F := ()) (Msg := Z) (Buf := Z) (P := nat) :=
  Connection_ctor () 1.

Definition queue_run : list echo_label := KSession (EEnableWriteQueue true) :: queue_labels.

Definition queue_end : Connection (F := ()) (Msg := Z) (Buf := Z) (P := nat) :=
  match echo_conn_run queue_start queue_run with Some (Ret _ c) => c | _ => queue_start end.

Lemma queue_runs : echo_conn_run queue_start queue_run = Some (Ret () queue_end).
Proof. by vm_compute. Qed.

Lemma session_queue_accounts_witness :
  sublist (started (write_queue_sg_ queue_end)) (sends (effects (session_ queue_end)))
  ∧ length (started (write_queue_sg_ queue_end)) + length (failures (write_queue_sg_ queue_end))
    = length (sends (effects (session_ queue_end)))
  ∧ started (write_queue_sg_ queue_end) = [(1%Z, Some ()); (2%Z, Some ()); (4%Z, Some ())]
  ∧ failures (write_queue_sg_ queue_end) = [()].
Proof.
  destruct (session_queue_accounts echo_PrepareRead echo_OnData echo_Frame no_interceptor ()
              1 queue_run queue_end queue_runs) as [_ H].
  destruct H as [_ H].
  - by repeat (apply list.Forall_cons; split; [done|]).
  - intros Hf. rw /forced in Hf.
    assert (Heff : effects (session_ queue_end)
      = [QueueSend 1%Z; Deliver 2%Z; QueueSend 2%Z; QueueSend 3%Z; QueueClose false; QueueSend 4%Z])
      by by vm_compute.
    rw Heff in Hf. by repeat (apply elem_of_cons in Hf as [Hf|Hf]; [done|]); apply not_elem_of_nil in Hf.
  - destruct H; [by vm_compute..|]. by split_and!; [..|vm_compute|vm_compute].
Defined.

Lemma session_queue_never_closes_witness :
  (SocketClosed ∉ effects (session_ queue_end)) ∧ use_write_queue_ (session_ queue_end) = true
  ∧ in_flight (session_ queue_end) = [].
Proof.
  apply (session_queue_never_closes echo_PrepareRead echo_OnData echo_Frame no_interceptor ()
           1 queue_labels queue_end queue_runs).
  repeat (apply list.Forall_cons; split; [|]); try done.
  split; [by intros m; apply list.Forall_singleton|by apply list.Forall_singleton].
Defined.
