(* ===== verification/SessionRelay.v ===== *)
(** * A session relays what its framer gives

    The interface between a session and its framer: what a session may expect of
    a framer is a class, [FramerRelay], and against it the session hands to its
    message handler exactly the messages the framer gives, in order, whatever
    events come and whatever the handlers call.  [SessionLines.v] has the line
    framer at work. *)
From S2P Require Import Prelude PluginBundle Session.

(** [sound n out f]: [f] is the framer's state after [n] calls of [OnData] that
    gave the messages [out].  Only framing a message may throw. *)
Class FramerRelay {F Msg Buf : Type} (framer_PrepareRead : M F ())
    (framer_OnData : Z → M F (list Msg)) (framer_Frame : Msg → M F Buf)
    (sound : nat → list Msg → F → Prop) : Prop := {
  relay_PrepareRead n out f :
    sound n out f → wp framer_PrepareRead (λ _, sound n out) no_throw f;
  relay_OnData len n out f :
    sound n out f → wp (framer_OnData len) (λ ms, sound (S n) (out ++ ms)) no_throw f;
  relay_Frame m n out f :
    sound n out f → wp (framer_Frame m) (λ _, sound n out) (λ _, sound n out) f
}.

Create HintDb relay.

Section Relay.
Context {F Msg Buf P : Type} (framer_PrepareRead : M F ()) (framer_OnData : Z → M F (list Msg))
  (framer_Frame : Msg → M F Buf) (as_Interceptor : P → option (Msg → bool * Msg)).
Context (sound : nat → list Msg → F → Prop).
Context `{!FramerRelay framer_PrepareRead framer_OnData framer_Frame sound}.
Abbreviation session := (Session (F := F) (Msg := Msg) (Buf := Buf) (P := P)).
Abbreviation act := (M session ()).
Implicit Types (s : session) (p : list Msg).

(** The messages given to the message handler so far. *)
Definition delivery (e : effect (Msg := Msg) (Buf := Buf)) : option Msg :=
  match e with Deliver m => Some m | _ => None end.
Definition received s : list Msg := omap delivery (effects s).

Lemma received_snoc s s' e :
  effects s' = effects s ++ [e] → received s' = received s ++ omap delivery [e].
Proof. intros He. by rw /received He omap_app. Qed.

(** ** Computations that may follow a null pointer

    [runs P Q E m]: from a state of [P], [m] returns in one of [Q] or throws in
    one of [E]; the only undefined behaviour it can have is a null pointer. *)
Definition runs {A} (P : session → Prop) (Q : A → session → Prop) (E : session → Prop)
    (m : M session A) : Prop :=
  ∀ s, P s → match m s with
             | Ret a s' => Q a s' | Throw _ s' => E s' | Undef u => u = null_dereference end.

Lemma runs_bind {A B} P0 (R : A → session → Prop) (Q : B → session → Prop) E (m : M session A) f :
  runs P0 R E m → (∀ a, runs (R a) Q E (f a)) → runs P0 Q E (m ≫= f).
Proof.
  intros Hm Hf s Hs. specialize (Hm s Hs). rw /mbind /M_bind. destruct (m s) as [a s1|e s1|u]; [|done..].
  exact (Hf a s1 Hm).
Qed.

Lemma runs_conseq {A} (P0 P1 : session → Prop) (Q Q1 : A → session → Prop) (E E1 : session → Prop) m :
  (∀ s, P0 s → P1 s) → (∀ a s, Q1 a s → Q a s) → (∀ s, E1 s → E s) →
  runs P1 Q1 E1 m → runs P0 Q E m.
Proof.
  intros HP HQ HE Hm s Hs. specialize (Hm s (HP s Hs)). destruct (m s); [by apply HQ|by apply HE|done].
Qed.

Lemma runs_modify (P0 : session → Prop) (Q : () → session → Prop) E f :
  (∀ s, P0 s → Q () (f s)) → runs P0 Q E (modify f).
Proof. intros H s Hs. by apply H. Qed.

Lemma runs_catch {A} P0 (Q : A → session → Prop) (E E1 : session → Prop) m h :
  runs P0 Q E1 m → (∀ e, runs E1 Q E (h e)) → runs P0 Q E (catch m h).
Proof.
  intros Hm Hh s Hs. specialize (Hm s Hs). rw /catch. destruct (m s) as [a s1|e s1|u]; [done| |done].
  exact (Hh e s1 Hm).
Qed.

Lemma runs_for_each {A} (I : list A → session → Prop) E f l :
  (∀ x l, runs (I (x :: l)) (λ _, I l) E (f x)) → runs (I l) (λ _, I []) E (for_each f l).
Proof.
  intros Hf. induction l as [|x l IH]; [by intros s Hs|].
  by apply (runs_bind _ (λ _, I l)).
Qed.

(** ** Any run

    [relays b p s]: the framer has given what the handler has received and the
    messages [p] of the batch at hand. *)
Inductive phase := Idle | InBatch | Closing.

Definition phase_ok (b : phase) s : Prop :=
  match b with
  | Idle => True
  | InBatch => on_message_ s ≠ None
  | Closing => shutdown_in_progress_ s = true
  end.

Record relays (b : phase) p s : Prop := {
  relays_sound : ∃ n f, sound n (received s ++ p) f
    ∧ (framer_ s = Some f ∨ framer_ s = None ∧ shutdown_in_progress_ s = true);
  relays_reading : shutdown_in_progress_ s = false → 0 < reads s → on_message_ s ≠ None;
  relays_phase : phase_ok b s
}.
Abbreviation relaying b p m := (runs (relays b p) (λ _, relays b p) (relays b p) m).

(** What the relay does not look at. *)
Lemma relays_same b p s s' :
  received s' = received s → framer_ s' = framer_ s → on_message_ s' = on_message_ s →
  reads s' ≤ reads s →
  (shutdown_in_progress_ s' = shutdown_in_progress_ s ∨ shutdown_in_progress_ s' = true) →
  relays b p s → relays b p s'.
Proof.
  intros Hr Hf Hm Hd Hs [Hsound Hread Hphase]. split; rw ?Hr ?Hf ?Hm; [|intros H0 H1|].
  - destruct Hsound as (n & f & H1 & H2). exists n, f. split; [done|].
    destruct H2 as [H2|[H2 H3]]; [by left|right]. split; [done|]. destruct Hs; congruence.
  - apply Hread; [destruct Hs; congruence|lia].
  - destruct b; rw /phase_ok ?Hm // in Hphase *. destruct Hs; congruence.
Qed.

(** A step the relay does not look at. *)
Ltac same_relay :=
  intros; eapply relays_same; [..|eassumption];
    [reflexivity|reflexivity|reflexivity|cbn; lia|first [left; reflexivity|right; reflexivity]].

Lemma relaying_ret {A} b p (a : A) : relaying b p (mret a).
Proof. by intros s Hs. Qed.
Lemma relaying_gets {A} b p (f : session → A) : relaying b p (gets f).
Proof. by intros s Hs. Qed.
Lemma relaying_bind {A B} b p (m : M session A) (f : A → M session B) :
  relaying b p m → (∀ a, relaying b p (f a)) → relaying b p (m ≫= f).
Proof. intros Hm Hf. by eapply runs_bind. Qed.
Lemma relaying_when b p cond (m : act) : relaying b p m → relaying b p (when cond m).
Proof. intros Hm s Hs. rw /when. destruct (cond s); [by apply Hm|done]. Qed.
Lemma relaying_unless b p cond (m : act) : relaying b p m → relaying b p (unless cond m).
Proof. intros Hm s Hs. rw /unless. destruct (cond s); [done|by apply Hm]. Qed.
Lemma relaying_at {A} b p f (m : M session A) :
  (∀ s, relays b p s → relays b p (f s)) → relaying b p m → relaying b p (λ s, m (f s)).
Proof. intros Hf Hm s Hs. by apply Hm, Hf. Qed.
Lemma relaying_log b p e : delivery e = None → relaying b p (log_effect e : act).
Proof.
  intros He s Hs. apply (relays_same b p s); [|done|done|done|by left|done].
  rw (received_snoc s _ e) //= He. by rw app_nil_r.
Qed.
Lemma relaying_modify b p f :
  (∀ s, received (f s) = received s ∧ framer_ (f s) = framer_ s ∧ on_message_ (f s) = on_message_ s
        ∧ reads (f s) ≤ reads s
        ∧ (shutdown_in_progress_ (f s) = shutdown_in_progress_ s ∨ shutdown_in_progress_ (f s) = true)) →
  relaying b p (modify f : act).
Proof. intros Hf s Hs. destruct (Hf s) as (?&?&?&?&?). by apply (relays_same b p s). Qed.

Hint Resolve relaying_ret relaying_gets relaying_bind relaying_when relaying_unless : relay.
Hint Extern 2 (relaying _ _ (log_effect _)) => (by apply relaying_log) : relay.
Hint Extern 2 (relaying _ _ (modify _)) =>
  (apply relaying_modify; intros; by (split_and!; [..|first [left; reflexivity|right; reflexivity]]))
  : relay.

Lemma relaying_Close b p force : relaying b p (Close force : act).
Proof.
  rw /Close /Close_force /cancel_read_timer /cancel_idle_timer. destruct force; auto 20 with relay.
Qed.
Hint Resolve relaying_Close : relay.

Lemma relaying_WriteNext b p : relaying b p (WriteNext : act).
Proof.
  intros s Hs. rw /WriteNext. destruct (write_deque_ s) as [|x rest].
  - revert s Hs. apply (relaying_at b p (set_write_in_progress false)); [|auto with relay].
    same_relay.
  - revert s Hs. apply (relaying_at b p (λ s, set_write_deque rest (set_write_in_progress true s)));
      [|auto with relay]. same_relay.
Qed.
Hint Resolve relaying_WriteNext : relay.

Lemma relaying_frame b p m : relaying b p (on_framer (framer_Frame m) : M session Buf).
Proof.
  intros s Hs. rw /on_framer. destruct (framer_ s) as [f|] eqn:Hf; [|done].
  destruct Hs as [(n & f' & Hsound & [Hf'|[Hf' _]]) Hr Hb]; [|congruence].
  rw Hf in Hf'. injection Hf' as <-. pose proof (relay_Frame m n _ f Hsound) as Hw. rw /wp in Hw.
  destruct (framer_Frame m f) as [x f'|e f'|u]; [..|done];
    (split; [exists n, f'; split; [exact Hw|by left]|exact Hr|exact Hb]).
Qed.
Hint Resolve relaying_frame : relay.

Lemma relaying_AsyncSend b p (x : Msg) : relaying b p (AsyncSend framer_Frame as_Interceptor x : act).
Proof.
  rw /AsyncSend. eapply runs_catch.
  - apply relaying_bind; [auto with relay|]. intros [[] m']; rw /=; [|auto with relay].
    apply relaying_bind; [auto with relay|]. intros x' s Hs. rw /queue_or_write.
    destruct (use_write_queue_ s); [by apply (relaying_log b p (QueueSend x'))|].
    revert s Hs. apply (relaying_at b p (λ s, set_write_deque (write_deque_ s ++ [x']) s));
      [|auto with relay]. same_relay.
  - intros e. by destruct (is_std_exception e); intros s Hs.
Qed.

Lemma relaying_requests b p rs : relaying b p (run_requests framer_Frame as_Interceptor rs : act).
Proof.
  apply (runs_for_each (λ _, relays b p)). intros [m|f] _; [apply relaying_AsyncSend|apply relaying_Close].
Qed.
Hint Resolve relaying_AsyncSend relaying_requests : relay.

(** The parts that need a handler, or give out a message. *)
Lemma runs_deliver p (x : Msg) :
  runs (relays InBatch (x :: p)) (λ _, relays InBatch p) (λ _, False)
    (deliver framer_Frame as_Interceptor x : act).
Proof.
  rw /deliver. intros s Hs. rw /mbind /M_bind /gets.
  pose proof (relays_phase _ _ _ Hs) as Hb.
  destruct (on_message_ s) as [f|] eqn:Hm; [|done].
  revert s Hs Hb Hm. intros s Hs Hb Hm.
  assert (H1 : relays InBatch p (set_effects (effects s ++ [Deliver x]) s)).
  { destruct Hs as [(n & fr & Hsound & Hfr) Hr _]. split; [|exact Hr|by rw /= Hm].
    exists n, fr. split; [|done]. by rw (received_snoc s _ (Deliver x)) //= -app_assoc. }
  pose proof (relaying_requests InBatch p (f x) _ H1) as H2.
  rw /catch /log_effect /mbind /M_bind /modify. by destruct (run_requests _ _ _ _).
Qed.

Lemma runs_StartRead (b : phase) :
  runs (λ s, relays b [] s ∧ on_message_ s ≠ None) (λ _, relays Idle []) (relays Idle [])
    (StartRead framer_PrepareRead : act).
Proof.
  intros s [Hs Hm]. rw /StartRead /unless. destruct (shutdown_in_progress_ s) eqn:Hsd.
  { destruct Hs as [H1 H2 _]. by split. }
  rw /mbind /M_bind /on_framer. destruct Hs as [(n & f & Hsound & Hfr) H2 H3].
  destruct (framer_ s) as [f'|] eqn:Hf; [|done].
  destruct Hfr as [[= <-]|[]]; [|done].
  pose proof (relay_PrepareRead n _ f' Hsound) as Hw. rw /wp in Hw.
  destruct (framer_PrepareRead f') as [a f1|e f1|u]; [|done..].
  rw /cancel_read_timer /modify /=. split; [|done|done]. exists n, f1. split; [exact Hw|by left].
Qed.

Lemma relays_phases b p s : phase_ok b s → relays Idle p s → relays b p s.
Proof. by intros Hb [H1 H2 _]. Qed.
Lemma relays_idle b p s : relays b p s → relays Idle p s.
Proof. by intros [H1 H2 _]. Qed.

Lemma runs_cleanup : relaying Closing [] (Shutdown_cleanup : act).
Proof.
  rw /Shutdown_cleanup. do 3 (apply relaying_bind; [auto with relay|intros []]).
  apply relaying_bind; [|intros []; apply relaying_bind; [auto with relay|intros []]].
  - intros s Hs. pose proof (relays_phase _ _ _ Hs) as Hsd.
    destruct Hs as [(n & f & Hsound & _) H2 H3]. split; [|done|done].
    exists n, f. split; [exact Hsound|by right].
  - apply relaying_bind; [|intros []; auto with relay].
    intros s Hs. pose proof (relays_phase _ _ _ Hs) as Hsd.
    destruct Hs as [(n & f & Hsound & Hf) H2 H3]. split; [by exists n, f| |done].
    intros Hx. rw /= in Hsd Hx. congruence.
Qed.

Lemma runs_Shutdown :
  relaying Idle [] (Shutdown framer_Frame as_Interceptor : act).
Proof.
  rw /Shutdown. apply relaying_unless.
  apply (runs_conseq _ (relays Idle []) _ (λ _, relays Closing []) _ (relays Closing []));
    [done|by intros a s; apply relays_idle|by intros s; apply relays_idle|].
  eapply (runs_bind _ (λ _, relays Closing [])).
  - apply runs_modify. intros s Hs. apply relays_phases; [done|].
    same_relay.
  - intros []. apply relaying_bind; [auto with relay|]. intros h.
    apply relaying_bind; [destruct h; auto with relay|intros []; apply runs_cleanup].
Qed.

Lemma relaying_read_handler ec n s :
  relays Idle [] s → 0 < reads s →
  match read_handler framer_PrepareRead framer_OnData framer_Frame as_Interceptor ec n
          (set_reads (pred (reads s)) s : session) with
  | Ret _ s' | Throw _ s' => relays Idle [] s'
  | Undef u => u = null_dereference
  end.
Proof.
  intros Hs Hr. set (s0 := set_reads _ s).
  assert (Hs0 : relays Idle [] s0).
  { apply (relays_same Idle [] s); [done..|rw /=; lia|by left|done]. }
  rw /read_handler /unless. destruct (shutdown_in_progress_ s0) eqn:Hsd; [done|].
  destruct ec; [by apply runs_Shutdown|].
  assert (Hb : relays InBatch [] s0).
  { apply relays_phases; [|done]. by apply (relays_reading _ _ _ Hs). }
  revert Hb. generalize s0. rw /cancel_read_timer /cancel_idle_timer.
  change (runs (relays InBatch []) (λ _, relays Idle []) (relays Idle [])
    (modify (set_read_waits 0) ;; modify (set_read_waits 0) ;; modify (set_idle_waits 0) ;;
     msgs ← on_framer (framer_OnData n);
     for_each (deliver framer_Frame as_Interceptor) msgs ;; StartRead framer_PrepareRead : act)).
  do 3 (eapply (runs_bind _ (λ _, relays InBatch []));
    [apply runs_modify; intros s1; same_relay|intros []]).
  eapply (runs_bind _ (λ msgs, relays InBatch msgs)).
  - intros s1 [(k & f & Hsound & Hf) H2 H3]. rw /on_framer.
    destruct (framer_ s1) as [f1|] eqn:Hf1; [|done]. destruct Hf as [[= <-]|[]]; [|done].
    pose proof (relay_OnData n k _ f1 Hsound) as Hw. rw /wp in Hw.
    destruct (framer_OnData n f1) as [ms f2|e f2|u]; [|done..].
    split; [|exact H2|exact H3]. exists (S k), f2. split; [|by left].
    by rw /= app_nil_r in Hw.
  - intros msgs. eapply (runs_bind _ (λ _, relays InBatch [])).
    + eapply (runs_conseq _ (relays InBatch msgs) _ (λ _, relays InBatch []) _ (λ _, False)); [done..|].
      apply (runs_for_each (relays InBatch)). intros x l. apply runs_deliver.
    + intros []. eapply runs_conseq; [| | |apply (runs_StartRead InBatch)]; [|done|done].
      intros s1 Hs1. split; [done|]. exact (relays_phase _ _ _ Hs1).
Qed.

Lemma relaying_Start f g : relaying Idle [] (Start framer_PrepareRead f g : act).
Proof.
  rw /Start /StartIdleTimer /cancel_idle_timer.
  eapply (runs_bind _ (λ _ s, relays Idle [] s ∧ on_message_ s ≠ None)).
  { apply runs_modify. intros s [H1 H2 _]. by split; [split|]. }
  intros []. eapply (runs_bind _ (λ _ s, relays Idle [] s ∧ on_message_ s ≠ None)).
  { apply runs_modify. intros s [Hs Hm]. split; [|done]. same_relay. }
  intros []. eapply runs_bind; [apply runs_StartRead|]. intros []. auto 20 with relay.
Qed.

Abbreviation ev := (event (Msg := Msg) (P := P)).
Abbreviation handle_ev :=
  (handle framer_PrepareRead framer_OnData framer_Frame as_Interceptor).
Abbreviation run_ev :=
  (session_run framer_PrepareRead framer_OnData framer_Frame as_Interceptor).

Lemma handle_relays e s :
  relays Idle [] s →
  match handle_ev e s with
  | Some (Ret _ s') | Some (Throw _ s') => relays Idle [] s'
  | Some (Undef u) => u = null_dereference
  | None => True
  end.
Proof.
  intros Hs. destruct e as [f g|x|force|b|b|ec n|i ec| | | |]; rw /=.
  - by apply relaying_Start.
  - by apply relaying_AsyncSend.
  - by apply relaying_Close.
  - same_relay.
  - same_relay.
  - pose proof (relaying_read_handler ec n s Hs) as H. destruct (reads s) as [|r]; [done|].
    apply H. lia.
  - case_decide; [|done]. destruct ec.
    + apply runs_Shutdown. same_relay.
    + assert (Hw : relaying Idle [] (write_handler framer_Frame as_Interceptor false : act)).
      { rw /write_handler. auto 20 with relay. }
      apply Hw. same_relay.
  - destruct (read_waits s); [done|]. same_relay.
  - destruct (read_ready s); [done|]. apply relaying_unless; [apply runs_Shutdown|].
    same_relay.
  - destruct (idle_waits s); [done|]. same_relay.
  - destruct (idle_ready s); [done|]. apply relaying_unless; [apply runs_Shutdown|].
    same_relay.
Qed.

(** In any run the handler has received what the framer gave. *)
Lemma run_relays es : ∀ s,
  relays Idle [] s →
  match run_ev s es with
  | Some (Ret _ s') => relays Idle [] s'
  | Some (Throw _ _) => False
  | Some (Undef u) => u = null_dereference
  | None => True
  end.
Proof.
  induction es as [|e es IH]; intros s Hs; [done|]. cbn [session_run].
  pose proof (handle_relays e s Hs) as H.
  destruct (handle_ev e s) as [[[] s1|x s1|u]|]; [by apply IH..|done|done].
Qed.

Lemma relays_new f : sound 0 [] f → relays Idle [] (Session_ctor f : session).
Proof. intros Hf. split; [|cbn; lia|done]. exists 0, f. split; [done|by left]. Qed.

(** ** A session that lives

    A message handler that never closes. *)
Definition only_sends (rs : list (request (Msg := Msg))) : bool :=
  forallb (λ r, match r with RSend _ => true | RClose _ => false end) rs.

Section Live.
Context (h : MessageHandler (Msg := Msg)) (Hh : ∀ m, only_sends (h m) = true).

(** Neither closed nor closing, [r] reads pending, [n] read. *)
Record live (r n : nat) p s : Prop := {
  live_open : shutdown_in_progress_ s = false ∧ graceful_shutdown_ s = false;
  live_handler : on_message_ s = Some h ∧ reads s = r;
  live_sound : ∃ f, framer_ s = Some f ∧ sound n (received s ++ p) f
}.

Lemma live_same r n p s s' :
  shutdown_in_progress_ s' = shutdown_in_progress_ s → graceful_shutdown_ s' = graceful_shutdown_ s →
  on_message_ s' = on_message_ s → reads s' = reads s → framer_ s' = framer_ s →
  received s' = received s → live r n p s → live r n p s'.
Proof.
  intros H1 H2 H3 H4 H5 H6 [Ho Hm Hs].
  by split; rw ?H1 ?H2 ?H3 ?H4 ?H5 ?H6.
Qed.
Ltac same_live := eapply live_same; [..|eassumption]; reflexivity.

Lemma wp_unless cond (m : act) Q E s : cond s = false → wp m Q E s → wp (unless cond m) Q E s.
Proof. intros Hc Hm. by rw /wp /unless Hc. Qed.

Lemma live_log r n p e s :
  delivery e = None → live r n p s → live r n p (set_effects (effects s ++ [e]) s).
Proof.
  intros He Hs. apply (live_same r n p s); [done..| |done].
  rw (received_snoc s _ e) //= He. by rw app_nil_r.
Qed.

Lemma live_WriteNext r n p s : live r n p s → wp WriteNext (λ _, live r n p) no_throw s.
Proof.
  intros Hs. rw /wp /WriteNext. destruct (write_deque_ s) as [|x rest].
  - rw /when /=. destruct (live_open _ _ _ _ Hs) as [_ ->]. same_live.
  - assert (H1 : live r n p (set_write_deque rest (set_write_in_progress true s))) by same_live.
    apply (live_log _ _ _ (WriteStarted x)) in H1; [|done]. rw /mbind /M_bind /=. same_live.
Qed.

Lemma live_AsyncSend r n p (x : Msg) s :
  live r n p s →
  wp (AsyncSend framer_Frame as_Interceptor x) (λ _, live r n p) (λ _, live r n p) s.
Proof.
  intros Hs. rw /AsyncSend. wp_step. eapply wp_mono with (Q := λ _, live r n p) (E := λ _, live r n p);
    [|done|by intros e s1 H1; destruct (is_std_exception e)].
  wp_step. apply wp_gets. destruct (intercept as_Interceptor x s) as [[] y]; rw /=; [|done].
  destruct (live_sound _ _ _ _ Hs) as (f & Hf & Hsound).
  pose proof (relay_Frame y n _ f Hsound) as Hw. wp_step.
  rw /wp /on_framer Hf in Hw *. destruct (framer_Frame y f) as [x' f1|e f1|u]; [| |done].
  - assert (H1 : live r n p (set_framer (Some f1) s)).
    { destruct Hs as [Ho Hm _]. split; [exact Ho|exact Hm|by exists f1]. }
    revert H1. generalize (set_framer (Some f1) s). intros s1 H1. rw /queue_or_write.
    destruct (use_write_queue_ s1).
    { by apply (live_log _ _ _ (QueueSend x')). }
    rw /unless. destruct (write_in_progress_ _); [same_live|].
    change (wp WriteNext (λ _, live r n p) (λ _, live r n p)
      (set_write_deque (write_deque_ s1 ++ [x']) s1)).
    eapply wp_mono; [apply live_WriteNext; same_live|done|done].
  - destruct Hs as [Ho Hm _]. split; [exact Ho|exact Hm|by exists f1].
Qed.

Lemma live_requests r n p rs s :
  only_sends rs = true → live r n p s →
  wp (run_requests framer_Frame as_Interceptor rs) (λ _, live r n p) (λ _, live r n p) s.
Proof.
  rw /run_requests. revert s. induction rs as [|[x|f] rs IH]; intros s Hrs Hs; [done| |done].
  cbn [for_each run_request]. wp_step. eapply wp_mono; [by apply live_AsyncSend| |done].
  intros [] s1 Hs1. by apply IH.
Qed.

Lemma live_deliver r n p (x : Msg) s :
  live r n (x :: p) s →
  wp (deliver framer_Frame as_Interceptor x) (λ _, live r n p) no_throw s.
Proof.
  intros Hs. rw /deliver. wp_step. apply wp_gets. destruct (live_handler _ _ _ _ Hs) as [-> _].
  wp_step. assert (H1 : live r n p (set_effects (effects s ++ [Deliver x]) s)).
  { destruct Hs as [Ho Hm (f & Hf & Hsound)]. split; [exact Ho|exact Hm|]. exists f. split; [exact Hf|].
    by rw (received_snoc s _ (Deliver x)) //= -app_assoc. }
  wp_step. apply wp_modify. eapply wp_mono; [by apply live_requests|done|done].
Qed.

Lemma live_StartRead r n s :
  live r n [] s → wp (StartRead framer_PrepareRead) (λ _, live (S r) n []) no_throw s.
Proof.
  intros Hs. apply wp_unless; [apply (live_open _ _ _ _ Hs)|].
  destruct (live_sound _ _ _ _ Hs) as (f & Hf & Hsound).
  pose proof (relay_PrepareRead n _ f Hsound) as Hw.
  rw /wp /mbind /M_bind /on_framer Hf in Hw *.
  destruct (framer_PrepareRead f) as [a f1|e f1|u]; [|done..].
  rw /cancel_read_timer /modify. destruct Hs as [Ho [Hm Hr] _].
  split; [exact Ho|by rw /= Hr|by exists f1].
Qed.

Lemma live_read r n len s :
  live (S r) n [] s →
  wp (read_handler framer_PrepareRead framer_OnData framer_Frame as_Interceptor false len)
    (λ _, live (S r) (S n) []) no_throw (set_reads r s).
Proof.
  intros Hs. assert (H0 : live r n [] (set_reads r s)).
  { destruct Hs as [Ho [Hm _] Hsound]. by split. }
  revert H0. generalize (set_reads r s). clear s Hs. intros s Hs.
  apply wp_unless; [apply (live_open _ _ _ _ Hs)|].
  rw /cancel_read_timer /cancel_idle_timer. wp_step. wp_step. wp_step. wp_step. wp_step. wp_step.
  assert (H1 : live r n [] (set_idle_waits 0 (set_read_waits 0 (set_read_waits 0 s)))) by same_live.
  revert H1. generalize (set_idle_waits 0 (set_read_waits 0 (set_read_waits 0 s))).
  clear s Hs. intros s Hs. wp_step.
  destruct (live_sound _ _ _ _ Hs) as (f & Hf & Hsound).
  pose proof (relay_OnData len n _ f Hsound) as Hw.
  rw /wp /on_framer Hf in Hw *. destruct (framer_OnData len f) as [ms f1|e f1|u]; [|done..].
  assert (H1 : live r (S n) ms (set_framer (Some f1) s)).
  { destruct Hs as [Ho Hm _]. split; [exact Ho|exact Hm|]. exists f1. split; [done|].
    by rw app_nil_r in Hw. }
  revert H1. generalize (set_framer (Some f1) s). clear s Hs Hf Hsound Hw f f1. intros s Hs.
  change (wp (for_each (deliver framer_Frame as_Interceptor) ms ;; StartRead framer_PrepareRead)
    (λ _, live (S r) (S n) []) no_throw s).
  wp_step. revert s Hs. induction ms as [|x ms IH]; intros s Hs.
  - by apply live_StartRead.
  - cbn [for_each]. wp_step. eapply wp_mono; [by apply live_deliver| |done].
    intros [] s1 Hs1. by apply IH.
Qed.

Lemma live_Start (g : DisconnectHandler (Msg := Msg)) f :
  sound 0 [] f →
  wp (Start framer_PrepareRead h g) (λ _, live 1 0 []) no_throw (Session_ctor f : session).
Proof.
  intros Hf. rw /Start. do 4 wp_step.
  set (s := set_on_disconnect _ _).
  assert (Hs : live 0 0 [] s) by (split; [done|done|by exists f]).
  wp_step. eapply wp_mono; [by apply live_StartRead| |done]. intros [] s1 Hs1.
  rw /StartIdleTimer /cancel_idle_timer. wp_steps. same_live.
Qed.

(** Every read that completes is handled, and the session goes on. *)
Lemma live_run lens : ∀ n s,
  live 1 n [] s → ∃ s', run_ev s (ERead false <$> lens) = Some (Ret () s')
    ∧ live 1 (n + length lens) [] s'.
Proof.
  induction lens as [|len lens IH]; intros n s Hs.
  { exists s. by rw Nat.add_0_r. }
  pose proof (live_read 0 n len s Hs) as Hw. apply wp_returns in Hw as ([] & s1 & Hret & H1).
  destruct (IH (S n) s1 H1) as (s' & Hrun & Hs'). exists s'. split.
  - rw fmap_cons /=. destruct (live_handler _ _ _ _ Hs) as [_ ->]. by rw Hret.
  - by rw /= Nat.add_succ_r.
Qed.
End Live.
End Relay.
