(* ===== verification/SessionLines.v ===== *)
(** * A session on the line framer

    The components put together: a [Session] whose framer is a
    [SimpleLineFramer] on a machine with a heap, and whose socket has the chunks
    of a stream to give.  A read that completes fills the buffer [PrepareRead]
    returned from its beginning, as session.h:133-136 asks asio to do; what asio
    reports is the chunk's length. *)
From S2P Require Import Prelude Machine RawBuffer InternalMessage SimpleLineFramer LineSplit FramerCorrect FramerTheorems PluginBundle Session SessionRelay.

(** The chunks still to come, and the framer. *)
Definition wire : Type := list (list byte) * framer_state.

(** A chunk is in the buffer: the read handler's call of [OnData]. *)
Definition socket_fills (c : list byte) : M framer_state (list InternalMessage) :=
  fr ← gets fst;
  match RawBuffer_data (scratch_ fr) with
  | None => undef null_dereference
  | Some p => on_snd (mem_write p 0 (cells c)) ;; OnData (Z.of_nat (length c))
  end.

Definition wire_PrepareRead : M wire () := on_snd PrepareRead ;; mret ().

Definition wire_OnData (_ : Z) : M wire (list InternalMessage) :=
  w ← get;
  match w.1 with
  | [] => mret []
  | c :: rest => modify (λ w, (rest, w.2)) ;; on_snd (socket_fills c)
  end.

(** The repository's framer has no [Frame]: any function of the message. *)
Definition wire_Frame {Buf} (frame : InternalMessage → Buf + exn) (m : InternalMessage) : M wire Buf :=
  match frame m with inl b => mret b | inr e => throw e end.

(** Chunks the framer can take: whole lines, none empty, no longer than the
    buffer. *)
Definition whole_lines (c : list byte) : bool :=
  bool_decide ((split_lines c).2 = []) && nonempty_lines c && (length c <=? 4096).

Lemma whole_lines_elim c :
  whole_lines c = true →
  (split_lines c).2 = [] ∧ nonempty_lines c = true ∧ length c ≤ 4096.
Proof.
  rw /whole_lines !andb_true_iff bool_decide_eq_true Nat.leb_le. by intros [[??]?].
Qed.

Lemma whole_lines_split cs :
  forallb whole_lines cs = true → (split_lines (concat cs)).2 = [].
Proof.
  induction cs as [|c cs IH]; intros Hc; [done|]. rw /= in Hc *.
  apply andb_true_iff in Hc as [[Hr _]%whole_lines_elim Hc].
  rw split_lines_app /= Hr. by apply IH.
Qed.

Lemma forallb_take {A} (f : A → bool) n (l : list A) : forallb f l = true → forallb f (take n l) = true.
Proof.
  intros H. apply forallb_forall. intros x Hx. rw forallb_forall in H. apply H.
  apply list_elem_of_In in Hx. apply list_elem_of_In. by eapply (subseteq_take n).
Qed.

Section Lines.
Context (chunks : list (list byte)) (Hchunks : forallb whole_lines chunks = true).

(** After [n] reads: the framer holds nothing, and the messages are the lines of
    the first [n] chunks, each in a block of the heap. *)
Definition line_sound (n : nat) (out : list InternalMessage) (w : wire) : Prop :=
  let '(rest, (fr, m)) := w in
  rest = drop n chunks
  ∧ framer_holds fr (heap m) [] ∧ size_ (scratch_ fr) = 4096%Z ∧ never_oom m
  ∧ ∃ ds, out = message_of <$> ds ∧ d_line <$> ds = (split_lines (concat (take n chunks))).1
      ∧ Forall (in_heap (heap m)) ds ∧ Forall (λ d, Some (d_loc d) ≠ data_ (scratch_ fr)) ds.

Lemma socket_fills_read fr m pend c :
  framer_holds fr (heap m) pend → has_room fr pend = true →
  socket_fills c (fr, m) = read_at at_front c (fr, m).
Proof.
  intros Hf Hr. by rw /read_at /mbind /M_bind (PrepareRead_room _ _ _ Hf Hr).
Qed.

Lemma sound_room n out rest fr m : line_sound n out (rest, (fr, m)) → has_room fr [] = true.
Proof. intros (_ & _ & Hsz & _). by rw /has_room Hsz. Qed.

Lemma line_OnData n out c rest fr m :
  line_sound n out (c :: rest, (fr, m)) →
  wp (on_snd (socket_fills c)) (λ ms, line_sound (S n) (out ++ ms)) no_throw (rest, (fr, m)).
Proof.
  intros Hs. pose proof (sound_room _ _ _ _ _ Hs) as Hroom.
  destruct Hs as (Hrest & Hf & Hsz & Hoom & ds & Hout & Hl & Hin & Hne).
  assert (Hc : chunks !! n = Some c).
  { rw -(Nat.add_0_r n) -lookup_drop -Hrest. done. }
  assert (Hrest' : rest = drop (S n) chunks).
  { by rw -Nat.add_1_r -drop_drop -Hrest. }
  assert (Hw : whole_lines c = true).
  { apply (proj1 (forallb_forall _ _) Hchunks), list_elem_of_In. by eapply list_elem_of_lookup_2. }
  apply whole_lines_elim in Hw as (Hr & Hnl & Hlen).
  wp_step. rw /wp (socket_fills_read fr m []) //.
  apply (wp_read_at at_front fr m [] c); [done|done|done|done| |done|].
  { rw Hsz app_nil_l. lia. }
  intros ds' fr' m' Hl' Hf' Hs' Hoom' Hin' Hne' Hkeep. rw app_nil_l in Hl' Hf'.
  split_and!; [done|by rw -Hr|by rw Hs'|done|]. exists (ds ++ ds').
  rw (take_S_r _ _ _ Hc) concat_app /= app_nil_r split_lines_app /=.
  rw (whole_lines_split (take n chunks)); [by apply forallb_take|].
  rw !fmap_app Hout Hl Hl' app_nil_l Hs'. split_and!; [done|done|..].
  - apply list.Forall_app. split; [|done]. rw !list.Forall_forall in Hin Hne *.
    intros d Hd. apply Hkeep; [by apply Hne|by apply Hin].
  - by apply list.Forall_app.
Qed.

#[export] Instance line_framer_relay {Buf} (frame : InternalMessage → Buf + exn) :
  FramerRelay wire_PrepareRead wire_OnData (wire_Frame frame) line_sound.
Proof.
  split.
  - intros n out [rest [fr m]] Hs. rw /wire_PrepareRead. wp_step. wp_step.
    eapply wp_of_ret; [apply (PrepareRead_room fr m []); [apply Hs|by eapply sound_room]|].
    by apply wp_ret.
  - intros len n out [rest [fr m]] Hs. rw /wire_OnData. wp_step. apply wp_get. rw /=.
    destruct rest as [|c rest]; [|wp_step; wp_step; by apply line_OnData].
    wp_step. rw app_nil_r. destruct Hs as (Hrest & Hs). symmetry in Hrest.
    apply drop_nil_inv in Hrest. split; [symmetry; apply drop_ge; lia|].
    rw (take_ge chunks n Hrest) in Hs. rw (take_ge chunks (S n)); [lia|exact Hs].
  - intros m n out [rest [fr mm]] Hs. rw /wire_Frame. by destruct (frame m).
Qed.

(** A new framer, which has read nothing. *)
Lemma line_sound_new m fr m' :
  never_oom m → SimpleLineFramer_ctor m = Ret fr m' → line_sound 0 [] (chunks, (fr, m')).
Proof.
  intros Hoom Hctor. destruct (ctor_fresh_framer m Hoom) as (l & fr' & m1 & Hctor' & Hb & Hwp & Hoom1).
  rw Hctor in Hctor'. injection Hctor' as <- <-. split_and!; [done| | |done|by exists []].
  - by eapply framer_block_holds_nil.
  - destruct Hb as (-> & _). rw /size_ length_replicate Z2Nat.id; [lia|done].
Qed.
End Lines.

Section SessionLines.
Context {Buf P : Type} (frame : InternalMessage → Buf + exn)
  (as_Interceptor : P → option (InternalMessage → bool * InternalMessage)).
Abbreviation run := (session_run (P := P) wire_PrepareRead wire_OnData (wire_Frame frame) as_Interceptor).

Definition line_session (chunks : list (list byte)) (st : framer_state) :
    Session (F := wire) (Msg := InternalMessage) (Buf := Buf) (P := P) :=
  Session_ctor (chunks, st).

(** The messages are the lines of [bs], in blocks of [m]'s heap. *)
Definition are_lines (out : list InternalMessage) (bs : list byte) (m : mach) : Prop :=
  ∃ ds, out = message_of <$> ds ∧ d_line <$> ds = (split_lines bs).1
    ∧ Forall (in_heap (heap m)) ds.

End SessionLines.

(** ** Witness

    A session that sends every line back, on a stream of three lines in two
    reads. *)
Definition demo_stream : list (list byte) := [bytes "GET a" ++ nl ++ bytes "b" ++ nl; bytes "PUT" ++ nl].
Definition demo_start : framer_state :=
  match SimpleLineFramer_ctor mach0 with Ret fr m => (fr, m) | _ => (SLF empty_buffer 0, mach0) end.
Definition demo_frame (m : InternalMessage) : Z + exn := inl (size_ (buffer_ m)).
Definition demo_interceptor (p : nat) : option (InternalMessage → bool * InternalMessage) := None.

