(* ===== verification/TcpClient.v ===== *)
(** * TcpClient: requests, responses and their time limits (tcp/tcp_client.h)

    A step is one handler of asio or one call of the client; the delivery of the
    messages of a read is split, one message a step ([batch]), since the user's
    handlers run in between and may call back into the client; the next read's
    handler runs when this one has ended.  The framer, the
    messages' correlation ids and the user's handlers are parameters; what the
    client does to its socket, its write queue and its callers is logged.  The
    sockets and timers are asio's: the model keeps which operations and waits are
    pending and whether the socket is open, and has a class for the socket's calls that
    throw.  An exception that leaves a handler leaves it to the thread that runs the
    executor, which goes on with the next. *)
From S2P Require Import Prelude SslContext.

(** asio's [cancel()] and [close()] of a socket, the overloads without an error code:
    the exception each throws, if any, for the state of the socket, open or not, and the
    moment, told by the length of the client's log.  asio documents that
    cancelling throws on a socket that is not open. *)
Class SocketCalls := {
  cancel_error : nat → bool → option exn;
  close_error : nat → bool → option exn
}.

Class SocketLaws {socket : SocketCalls} : Prop :=
  cancel_not_open n : is_Some (cancel_error n false).

Section TcpClient.
Context {socket : SocketCalls}.
Context {F Msg H : Type}.
Context (framer_PrepareRead : M F ()) (framer_OnData : Z → M F (list Msg))
  (framer_Frame : Msg → M F ()).
Context (correlation_id : Msg → Z) (set_correlation_id : Z → Msg → Msg).

(** What a response handler is given. *)
Inductive response :=
  | Response (m : Msg)
  | TimedOut.

Inductive client_effect :=
  | Asked (cid : Z) (h : option H)
  | Settled (cid : Z) (h : option H) (r : response)
  | Received (m : Msg)
  | ConnectResult (ec : bool)
  | Disconnect
  | QueueSend (m : Msg)
  | QueueClose (force : bool)
  | SocketClose
  | SocketCancel.

(** [Settled] is the removal of a pending request: its handler is called when it
    is not empty. *)
Record TcpClient := Client {
  framer_ : F;
  next_correlation_id_ : Z;
  pending_requests_ : Z;
  pending_responses_ : gmap Z (option H);
  shutdown_ : bool;
  on_message_ : bool;
  on_connect_ : bool;
  on_disconnect_ : bool;
  socket_open : bool;
  resolves : nat;
  connects : nat;
  reads : nat;
  batch : option (list Msg);
  connect_waits : nat;
  read_waits : nat;
  idle_waits : nat;
  request_timers : list Z;
  effects : list client_effect
}.

(** The members as the constructor leaves them. *)
Definition TcpClient_ctor (framer : F) : TcpClient :=
  Client framer 1 0 ∅ false false false false false 0 0 0 None 0 0 0 [] [].

(** The constructor's body: the stream, which needs a TLS context when it is one
    of TLS, and the framer.  [GetContext] may give a null pointer. *)
Definition make_stream {P Ctx W} (t : StreamType) (GetContext : P → M W (option Ctx))
    (tls_provider : option P) : M W () :=
  if is_tls_stream_v t then
    match tls_provider with
    | None => throw (runtime_error "TlsClientContextProvider required")
    | Some p =>
        ctx ← GetContext p;
        match ctx with Some _ => mret () | None => undef null_dereference end
    end
  else mret ().
Definition TcpClient_make {P Ctx W} (t : StreamType) (GetContext : P → M W (option Ctx))
    (tls_provider : option P) (framer_factory : M W F) : M W TcpClient :=
  make_stream t GetContext tls_provider ;;
  framer ← framer_factory;
  mret (TcpClient_ctor framer).

Definition set_framer (v : F) (s : TcpClient) : TcpClient :=
  Client v (next_correlation_id_ s) (pending_requests_ s) (pending_responses_ s) (shutdown_ s)
    (on_message_ s) (on_connect_ s) (on_disconnect_ s) (socket_open s) (resolves s) (connects s)
    (reads s) (batch s) (connect_waits s) (read_waits s) (idle_waits s) (request_timers s)
    (effects s).
Definition set_next_correlation_id (v : Z) (s : TcpClient) : TcpClient :=
  Client (framer_ s) v (pending_requests_ s) (pending_responses_ s) (shutdown_ s)
    (on_message_ s) (on_connect_ s) (on_disconnect_ s) (socket_open s) (resolves s) (connects s)
    (reads s) (batch s) (connect_waits s) (read_waits s) (idle_waits s) (request_timers s)
    (effects s).
Definition set_pending_requests (v : Z) (s : TcpClient) : TcpClient :=
  Client (framer_ s) (next_correlation_id_ s) v (pending_responses_ s) (shutdown_ s)
    (on_message_ s) (on_connect_ s) (on_disconnect_ s) (socket_open s) (resolves s) (connects s)
    (reads s) (batch s) (connect_waits s) (read_waits s) (idle_waits s) (request_timers s)
    (effects s).
Definition set_pending_responses (v : gmap Z (option H)) (s : TcpClient) : TcpClient :=
  Client (framer_ s) (next_correlation_id_ s) (pending_requests_ s) v (shutdown_ s)
    (on_message_ s) (on_connect_ s) (on_disconnect_ s) (socket_open s) (resolves s) (connects s)
    (reads s) (batch s) (connect_waits s) (read_waits s) (idle_waits s) (request_timers s)
    (effects s).
Definition set_shutdown (v : bool) (s : TcpClient) : TcpClient :=
  Client (framer_ s) (next_correlation_id_ s) (pending_requests_ s) (pending_responses_ s) v
    (on_message_ s) (on_connect_ s) (on_disconnect_ s) (socket_open s) (resolves s) (connects s)
    (reads s) (batch s) (connect_waits s) (read_waits s) (idle_waits s) (request_timers s)
    (effects s).
Definition set_on_message (v : bool) (s : TcpClient) : TcpClient :=
  Client (framer_ s) (next_correlation_id_ s) (pending_requests_ s) (pending_responses_ s)
    (shutdown_ s) v (on_connect_ s) (on_disconnect_ s) (socket_open s) (resolves s) (connects s)
    (reads s) (batch s) (connect_waits s) (read_waits s) (idle_waits s) (request_timers s)
    (effects s).
Definition set_on_connect (v : bool) (s : TcpClient) : TcpClient :=
  Client (framer_ s) (next_correlation_id_ s) (pending_requests_ s) (pending_responses_ s)
    (shutdown_ s) (on_message_ s) v (on_disconnect_ s) (socket_open s) (resolves s) (connects s)
    (reads s) (batch s) (connect_waits s) (read_waits s) (idle_waits s) (request_timers s)
    (effects s).
Definition set_on_disconnect (v : bool) (s : TcpClient) : TcpClient :=
  Client (framer_ s) (next_correlation_id_ s) (pending_requests_ s) (pending_responses_ s)
    (shutdown_ s) (on_message_ s) (on_connect_ s) v (socket_open s) (resolves s) (connects s)
    (reads s) (batch s) (connect_waits s) (read_waits s) (idle_waits s) (request_timers s)
    (effects s).
Definition set_socket_open (v : bool) (s : TcpClient) : TcpClient :=
  Client (framer_ s) (next_correlation_id_ s) (pending_requests_ s) (pending_responses_ s)
    (shutdown_ s) (on_message_ s) (on_connect_ s) (on_disconnect_ s) v (resolves s) (connects s)
    (reads s) (batch s) (connect_waits s) (read_waits s) (idle_waits s) (request_timers s)
    (effects s).
Definition set_resolves (v : nat) (s : TcpClient) : TcpClient :=
  Client (framer_ s) (next_correlation_id_ s) (pending_requests_ s) (pending_responses_ s)
    (shutdown_ s) (on_message_ s) (on_connect_ s) (on_disconnect_ s) (socket_open s) v
    (connects s) (reads s) (batch s) (connect_waits s) (read_waits s) (idle_waits s)
    (request_timers s) (effects s).
Definition set_connects (v : nat) (s : TcpClient) : TcpClient :=
  Client (framer_ s) (next_correlation_id_ s) (pending_requests_ s) (pending_responses_ s)
    (shutdown_ s) (on_message_ s) (on_connect_ s) (on_disconnect_ s) (socket_open s)
    (resolves s) v (reads s) (batch s) (connect_waits s) (read_waits s) (idle_waits s)
    (request_timers s) (effects s).
Definition set_reads (v : nat) (s : TcpClient) : TcpClient :=
  Client (framer_ s) (next_correlation_id_ s) (pending_requests_ s) (pending_responses_ s)
    (shutdown_ s) (on_message_ s) (on_connect_ s) (on_disconnect_ s) (socket_open s)
    (resolves s) (connects s) v (batch s) (connect_waits s) (read_waits s) (idle_waits s)
    (request_timers s) (effects s).
Definition set_batch (v : option (list Msg)) (s : TcpClient) : TcpClient :=
  Client (framer_ s) (next_correlation_id_ s) (pending_requests_ s) (pending_responses_ s)
    (shutdown_ s) (on_message_ s) (on_connect_ s) (on_disconnect_ s) (socket_open s)
    (resolves s) (connects s) (reads s) v (connect_waits s) (read_waits s) (idle_waits s)
    (request_timers s) (effects s).
Definition set_connect_waits (v : nat) (s : TcpClient) : TcpClient :=
  Client (framer_ s) (next_correlation_id_ s) (pending_requests_ s) (pending_responses_ s)
    (shutdown_ s) (on_message_ s) (on_connect_ s) (on_disconnect_ s) (socket_open s)
    (resolves s) (connects s) (reads s) (batch s) v (read_waits s) (idle_waits s)
    (request_timers s) (effects s).
Definition set_read_waits (v : nat) (s : TcpClient) : TcpClient :=
  Client (framer_ s) (next_correlation_id_ s) (pending_requests_ s) (pending_responses_ s)
    (shutdown_ s) (on_message_ s) (on_connect_ s) (on_disconnect_ s) (socket_open s)
    (resolves s) (connects s) (reads s) (batch s) (connect_waits s) v (idle_waits s)
    (request_timers s) (effects s).
Definition set_idle_waits (v : nat) (s : TcpClient) : TcpClient :=
  Client (framer_ s) (next_correlation_id_ s) (pending_requests_ s) (pending_responses_ s)
    (shutdown_ s) (on_message_ s) (on_connect_ s) (on_disconnect_ s) (socket_open s)
    (resolves s) (connects s) (reads s) (batch s) (connect_waits s) (read_waits s) v
    (request_timers s) (effects s).
Definition set_request_timers (v : list Z) (s : TcpClient) : TcpClient :=
  Client (framer_ s) (next_correlation_id_ s) (pending_requests_ s) (pending_responses_ s)
    (shutdown_ s) (on_message_ s) (on_connect_ s) (on_disconnect_ s) (socket_open s)
    (resolves s) (connects s) (reads s) (batch s) (connect_waits s) (read_waits s)
    (idle_waits s) v (effects s).
Definition set_effects (v : list client_effect) (s : TcpClient) : TcpClient :=
  Client (framer_ s) (next_correlation_id_ s) (pending_requests_ s) (pending_responses_ s)
    (shutdown_ s) (on_message_ s) (on_connect_ s) (on_disconnect_ s) (socket_open s)
    (resolves s) (connects s) (reads s) (batch s) (connect_waits s) (read_waits s)
    (idle_waits s) (request_timers s) v.

Abbreviation Act := (M TcpClient ()).

Definition log_effect (e : client_effect) : Act := modify (λ s, set_effects (effects s ++ [e]) s).

Definition on_framer {A} (m : M F A) : M TcpClient A := λ s,
  match m (framer_ s) with
  | Ret a f => Ret a (set_framer f s)
  | Throw e f => Throw e (set_framer f s)
  | Undef u => Undef u
  end.

Definition when (cond : TcpClient → bool) (m : Act) : Act := λ s,
  if cond s then m s else Ret () s.

Definition SetOnMessage : Act := modify (set_on_message true).
Definition SetOnDisconnect : Act := modify (set_on_disconnect true).

(** [Send]: the write queue's handler only reports a dropped message to a
    plugin. *)
Definition Send (m : Msg) : Act := on_framer (framer_Frame m) ;; log_effect (QueueSend m).

Definition SendRequest (request : Msg) (on_response : option H) : Act :=
  s ← get;
  let cid := next_correlation_id_ s in
  modify (set_next_correlation_id (add64 cid 1)) ;;
  match pending_responses_ s !! cid with
  | Some _ => mret ()
  | None =>
      modify (set_pending_responses (<[cid := on_response]> (pending_responses_ s))) ;;
      log_effect (Asked cid on_response)
  end ;;
  modify (λ s, set_pending_requests (add64 (pending_requests_ s) 1) s) ;;
  Send (set_correlation_id cid request) ;;
  modify (λ s, set_request_timers (request_timers s ++ [cid]) s).

(** The removal of a pending request, under [pending_mu_]. *)
Definition settle (cid : Z) (h : option H) (r : response) : Act :=
  modify (λ s, set_pending_responses (delete cid (pending_responses_ s)) s) ;;
  log_effect (Settled cid h r).

Definition count_down : Act :=
  modify (λ s, set_pending_requests (sub64 (pending_requests_ s) 1) s).

(** A request's timer, not aborted. *)
Definition request_timeout (cid : Z) : Act :=
  s ← get;
  match pending_responses_ s !! cid with
  | None => mret ()
  | Some h => settle cid h TimedOut ;; count_down
  end.

(** [socket_->lowest_layer().cancel()] and [close()].  A close that throws has closed
    the socket all the same. *)
Definition lowest_cancel : Act :=
  s ← get;
  log_effect SocketCancel ;;
  match cancel_error (length (effects s)) (socket_open s) with
  | None => mret ()
  | Some e => throw e
  end.

Definition lowest_close : Act :=
  s ← get;
  log_effect SocketClose ;;
  modify (set_socket_open false) ;;
  match close_error (length (effects s)) (socket_open s) with
  | None => mret ()
  | Some e => throw e
  end.

(** Closing cancels the client's three timers, not those of the requests; an exception
    of the socket's leaves at once. *)
Definition Close (force : bool) : Act :=
  modify (set_shutdown true) ;;
  (if force then lowest_cancel ;; lowest_close ;; log_effect (QueueClose true)
   else log_effect (QueueClose false)) ;;
  modify (set_connect_waits 0) ;;
  modify (set_read_waits 0) ;;
  modify (set_idle_waits 0) ;;
  when on_disconnect_ (log_effect Disconnect).

(** A destructor does not let an exception out. *)
Definition TcpClient_dtor : Act := catch (Close true) (λ _, undef std_terminate).

Definition StartRead : Act :=
  s ← get;
  if shutdown_ s then mret ()
  else
    on_framer framer_PrepareRead ;;
    modify (λ s, set_reads (S (reads s)) s) ;;
    modify (set_read_waits 1) ;;
    modify (set_idle_waits 1).

(** The handler of [async_read_some], up to its loop over the messages. *)
Definition read_handler (ec : bool) (n : Z) : Act :=
  if ec then Close true
  else
    modify (set_read_waits 0) ;;
    modify (set_idle_waits 0) ;;
    msgs ← on_framer (framer_OnData n);
    modify (set_batch (Some msgs)).

(** One message of the loop. *)
Definition deliver (m : Msg) : Act :=
  s ← get;
  let cid := correlation_id m in
  match pending_responses_ s !! cid with
  | Some (Some h) => settle cid (Some h) (Response m) ;; count_down
  | Some None => settle cid None (Response m) ;; when on_message_ (log_effect (Received m))
  | None => when on_message_ (log_effect (Received m))
  end.

(** The loop's next step: the next message, or the next read. *)
Definition batch_step (msgs : list Msg) : Act :=
  match msgs with
  | m :: rest => modify (set_batch (Some rest)) ;; deliver m
  | [] => modify (set_batch None) ;; StartRead
  end.

(** [Connect], with its resolution and connection as one event each: [async_connect]
    opens and closes the socket on its way; for TLS the handshake belongs to the
    connection. *)
Definition Connect : Act :=
  modify (set_on_connect true) ;; modify (set_connect_waits 1) ;;
  modify (λ s, set_resolves (S (resolves s)) s).
Definition resolved (ec : bool) : Act :=
  modify (set_connect_waits 0) ;;
  if ec then when on_connect_ (log_effect (ConnectResult true))
  else modify (λ s, set_connects (S (connects s)) s).
Definition connected (ec : bool) : Act :=
  when on_connect_ (log_effect (ConnectResult ec)) ;;
  if ec then mret () else StartRead.

Definition SnapshotMetrics (s : TcpClient) : Z := pending_requests_ s.

(** ** Events *)
Inductive client_event :=
  | EConnect
  | EResolved (ec : bool)
  | ESocket (opened : bool)
  | EConnected (ec : bool)
  | EConnectTimeout
  | ESetOnMessage
  | ESetOnDisconnect
  | ESend (m : Msg)
  | ESendRequest (m : Msg) (h : option H)
  | EClose (force : bool)
  | ERead (ec : bool) (n : Z)
  | EBatch
  | EReadTimeout
  | EIdleTimeout
  | ERequestTimeout (i : nat).

Definition client_handle (e : client_event) (s : TcpClient) : option (outcome TcpClient ()) :=
  match e with
  | EConnect => Some (Connect s)
  | EResolved ec =>
      match resolves s with 0 => None | S r => Some (resolved ec (set_resolves r s)) end
  | ESocket opened =>
      match connects s with 0 => None | S _ => Some (Ret () (set_socket_open opened s)) end
  | EConnected ec =>
      match connects s with 0 => None | S c => Some (connected ec (set_connects c s)) end
  | EConnectTimeout =>
      match connect_waits s with
      | 0 => None
      | S w => Some (lowest_cancel (set_connect_waits w s))
      end
  | ESetOnMessage => Some (SetOnMessage s)
  | ESetOnDisconnect => Some (SetOnDisconnect s)
  | ESend m => Some (Send m s)
  | ESendRequest m h => Some (SendRequest m h s)
  | EClose force => Some (Close force s)
  | ERead ec n =>
      match reads s, batch s with
      | S r, None => Some (read_handler ec n (set_reads r s))
      | _, _ => None
      end
  | EBatch => match batch s with None => None | Some msgs => Some (batch_step msgs s) end
  | EReadTimeout =>
      match read_waits s with 0 => None | S w => Some (Close true (set_read_waits w s)) end
  | EIdleTimeout =>
      match idle_waits s with 0 => None | S w => Some (Close true (set_idle_waits w s)) end
  | ERequestTimeout i =>
      match request_timers s !! i with
      | None => None
      | Some cid =>
          Some (request_timeout cid (set_request_timers (delete i (request_timers s)) s))
      end
  end.

Fixpoint client_run (s : TcpClient) (es : list client_event) : option (outcome TcpClient ()) :=
  match es with
  | [] => Some (Ret () s)
  | e :: es =>
      match client_handle e s with
      | Some (Ret _ s') | Some (Throw _ s') => client_run s' es
      | r => r
      end
  end.
End TcpClient.
