(* ===== verification/TcpClientTheorems.v ===== *)
(** * Every request is answered once

    The bookkeeping of [TcpClient]'s requests over every sequence of events, and
    what closing the client does and does not do to it. *)
From S2P Require Import Prelude TcpClient.

Section Requests.
Context {socket : SocketCalls}.
Context {F Msg H : Type}.
Context (framer_PrepareRead : M F ()) (framer_OnData : Z → M F (list Msg))
  (framer_Frame : Msg → M F ()).
Context (correlation_id : Msg → Z) (set_correlation_id : Z → Msg → Msg).
Abbreviation client := (TcpClient (F := F) (Msg := Msg) (H := H)).
Abbreviation handle_ev :=
  (client_handle framer_PrepareRead framer_OnData framer_Frame correlation_id set_correlation_id).
Abbreviation run_ev :=
  (client_run framer_PrepareRead framer_OnData framer_Frame correlation_id set_correlation_id).
Implicit Types (s : client).

(** Framing does not throw. *)
Definition frames : Prop := ∀ m f, ∃ f', framer_Frame m f = Ret () f'.

(** The requests made and the requests settled, with their handlers. *)
Definition asked s : list (Z * option H) :=
  omap (λ e, match e with Asked cid h => Some (cid, h) | _ => None end) (effects s).
Definition settled s : list (Z * option H) :=
  omap (λ e, match e with Settled cid h _ => Some (cid, h) | _ => None end) (effects s).

(** The requests with an empty handler that got a response: the code does not
    count them down. *)
Definition leaked s : nat :=
  length (omap (λ e, match e with Settled _ None (Response _) => Some () | _ => None end)
            (effects s)).

Record books s : Prop := {
  books_next : next_correlation_id_ s = Z.of_nat (S (length (asked s)));
  books_ids : Forall (λ cid, 1 ≤ cid < next_correlation_id_ s)%Z (asked s).*1;
  books_nodup : NoDup (asked s).*1;
  books_balance : asked s ≡ₚ settled s ++ map_to_list (pending_responses_ s);
  books_timers : frames → ∀ cid, is_Some (pending_responses_ s !! cid) → cid ∈ request_timers s;
  books_count : pending_requests_ s
                = u64 (Z.of_nat (size (pending_responses_ s)) + Z.of_nat (leaked s))
}.

(** The steps that leave the books alone. *)
Definition unbooked s s' : Prop :=
  asked s' = asked s ∧ settled s' = settled s ∧ leaked s' = leaked s
  ∧ pending_responses_ s' = pending_responses_ s
  ∧ next_correlation_id_ s' = next_correlation_id_ s
  ∧ pending_requests_ s' = pending_requests_ s
  ∧ request_timers s' = request_timers s.

#[local] Instance unbooked_preorder : PreOrder unbooked.
Proof.
  split; [by intros s|]. intros s1 s2 s3 (?&?&?&?&?&?&?) (?&?&?&?&?&?&?).
  split_and!; congruence.
Qed.

Lemma books_unbooked s s' : unbooked s s' → books s → books s'.
Proof.
  intros (Ha & Hs & Hl & Hp & Hn & Hc & Ht) [H1 H2 H3 H4 H5 H6].
  split; rw ?Ha ?Hs ?Hl ?Hp ?Hn ?Hc ?Ht //.
Qed.

(** An entry of the log that is neither a request nor an answer. *)
Definition plain (e : client_effect (Msg := Msg) (H := H)) : bool :=
  match e with Asked _ _ | Settled _ _ _ => false | _ => true end.

Lemma unbooked_log e : plain e = true → keeps unbooked (log_effect e).
Proof.
  intros He s. rw /log_effect /modify /unbooked /asked /settled /leaked /= !omap_app.
  by destruct e; simplify_eq/=; rw !app_nil_r.
Qed.

Lemma unbooked_on_framer {A} (m : M F A) : keeps unbooked (on_framer m).
Proof. intros s. rw /on_framer. by destruct (m (framer_ s)). Qed.

Lemma unbooked_when cond (m : M client ()) : keeps unbooked m → keeps unbooked (when cond m).
Proof. intros Hm s. rw /when. destruct (cond s); [exact (Hm s)|exact (keeps_ret unbooked () s)]. Qed.

Lemma keeps_get_bind {A} (R : relation client) (f : client → M client A) :
  (∀ s, keeps R (f s)) → keeps R (s ← get; f s).
Proof. intros Hf s. exact (Hf s s). Qed.

Hint Resolve unbooked_log unbooked_on_framer unbooked_when : keeps.
Hint Extern 3 (keeps unbooked (modify _)) => (apply keeps_modify; intros; by split_and!) : keeps.
Hint Extern 3 (PreOrder _) => exact unbooked_preorder : keeps.
Hint Extern 3 (plain _ = true) => reflexivity : keeps.

Lemma unbooked_lowest_cancel : keeps unbooked lowest_cancel.
Proof.
  rw /lowest_cancel. apply keeps_get_bind. intros s. destruct (cancel_error _ _); auto with keeps.
Qed.

Lemma unbooked_lowest_close : keeps unbooked lowest_close.
Proof.
  rw /lowest_close. apply keeps_get_bind. intros s. destruct (close_error _ _); auto with keeps.
Qed.
Hint Resolve unbooked_lowest_cancel unbooked_lowest_close : keeps.

Lemma unbooked_Close force : keeps unbooked (Close force).
Proof.
  rw /Close. apply keeps_bind; [typeclasses eauto|auto with keeps|]. intros [].
  apply keeps_bind; [typeclasses eauto|destruct force; auto 10 with keeps|]. intros [].
  auto 10 with keeps.
Qed.

Lemma unbooked_StartRead : keeps unbooked (StartRead framer_PrepareRead).
Proof.
  rw /StartRead. apply keeps_get_bind. intros s.
  destruct (shutdown_ s); auto 10 with keeps.
Qed.

Lemma unbooked_Send m : keeps unbooked (Send framer_Frame m).
Proof. rw /Send. auto with keeps. Qed.

Lemma unbooked_read_handler ec n : keeps unbooked (read_handler framer_OnData ec n).
Proof. rw /read_handler. destruct ec; [apply unbooked_Close|auto 10 with keeps]. Qed.

(** ** The steps that write the books *)

(** Requests not yet wrapped around. *)
Definition few s : Prop := (Z.of_nat (S (S (length (asked s)))) < 2 ^ 64)%Z.

Lemma books_pending_fresh s : books s → pending_responses_ s !! next_correlation_id_ s = None.
Proof.
  intros Hb. apply eq_None_not_Some. intros [h Hh].
  assert (Hin : (next_correlation_id_ s, h) ∈ asked s).
  { rw (books_balance s Hb) elem_of_app. right. by apply elem_of_map_to_list. }
  pose proof (books_ids s Hb) as Hids. rw list.Forall_forall in Hids.
  specialize (Hids (next_correlation_id_ s)). rw list_elem_of_fmap in Hids.
  destruct Hids as [_ Hlt]; [by eexists (_, _)|lia].
Qed.

Lemma books_ask s s' (h : option H) :
  books s → few s →
  asked s' = asked s ++ [(next_correlation_id_ s, h)] → settled s' = settled s →
  leaked s' = leaked s →
  pending_responses_ s' = <[next_correlation_id_ s := h]> (pending_responses_ s) →
  next_correlation_id_ s' = add64 (next_correlation_id_ s) 1 →
  pending_requests_ s' = add64 (pending_requests_ s) 1 →
  (frames → request_timers s' = request_timers s ++ [next_correlation_id_ s]) →
  books s'.
Proof.
  intros Hb Hfew Ha Hs Hl Hp Hn Hc Ht. pose proof (books_pending_fresh s Hb) as Hfresh.
  destruct Hb as [H1 H2 H3 H4 H5 H6].
  assert (Hnext : next_correlation_id_ s' = (next_correlation_id_ s + 1)%Z).
  { rw Hn. apply add64_small. rw /few in Hfew. rw /is_u64. lia. }
  split.
  - rw Hnext Ha length_app /= H1. lia.
  - rw Ha fmap_app. apply list.Forall_app. split; [|apply list.Forall_singleton; rw /=; lia].
    eapply Forall_impl; [|exact H2]. cbn. intros cid ?. lia.
  - rw Ha fmap_app. apply list.NoDup_app. split_and!; [done| |apply NoDup_singleton].
    intros cid Hin ->%list_elem_of_singleton. rw list.Forall_forall in H2.
    specialize (H2 _ Hin). cbn in H2. lia.
  - rw Ha Hs Hp H4 map_to_list_insert //. rw -app_assoc.
    apply Permutation_app_head. by rw Permutation_app_comm.
  - intros Hf cid. rw Hp (Ht Hf) elem_of_app. intros Hcid.
    destruct (decide (cid = next_correlation_id_ s)) as [->|Hne].
    + right. apply list_elem_of_singleton. done.
    + left. apply H5; [done|]. by rw lookup_insert_ne in Hcid.
  - rw Hc H6 Hp Hl map_size_insert_None // /add64 u64_add_idemp_l. f_equal. lia.
Qed.

(** [counted]: whether the code counts the request down. *)
Lemma books_settle s s' cid (h : option H) (counted : bool) :
  books s → pending_responses_ s !! cid = Some h →
  asked s' = asked s → settled s' = settled s ++ [(cid, h)] →
  leaked s' = leaked s + (if counted then 0 else 1) →
  pending_responses_ s' = delete cid (pending_responses_ s) →
  next_correlation_id_ s' = next_correlation_id_ s →
  pending_requests_ s' = (if counted then sub64 (pending_requests_ s) 1 else pending_requests_ s) →
  (∀ c, c ∈ request_timers s → c = cid ∨ c ∈ request_timers s') →
  books s'.
Proof.
  intros [H1 H2 H3 H4 H5 H6] Hcid Ha Hs Hl Hp Hn Hc Ht.
  split; rw ?Ha ?Hn ?Hs //.
  - rw Hp H4 -app_assoc. apply Permutation_app_head. by rw /= map_to_list_delete.
  - intros Hf c. rw Hp. intros Hc'. destruct (decide (c = cid)) as [->|Hne].
    { rw lookup_delete_eq in Hc'. by destruct Hc'. }
    rw lookup_delete_ne // in Hc'. by destruct (Ht c (H5 Hf c Hc')).
  - pose proof (map_size_delete_Some cid (pending_responses_ s) (ex_intro _ h Hcid)) as Hsz.
    assert (size (pending_responses_ s) ≠ 0).
    { intros H0%map_size_empty_iff. by rw H0 in Hcid. }
    rw Hc Hl Hp Hsz H6. destruct counted; rw /sub64 ?u64_sub_idemp_l; f_equal; lia.
Qed.

Definition ends (o : outcome client ()) s' : Prop :=
  match o with Ret _ s1 | Throw _ s1 => s1 = s' | Undef _ => False end.

Lemma ends_unbooked (m : M client ()) s o s' :
  keeps unbooked m → m s = o → ends o s' → unbooked s s'.
Proof. intros Hm <- He. specialize (Hm s). by destruct (m s); simplify_eq/=. Qed.

Lemma books_SendRequest m h s s' :
  books s → few s → ends (SendRequest framer_Frame set_correlation_id m h s) s' →
  books s' ∧ length (asked s') = S (length (asked s)).
Proof.
  intros Hb Hfew Hend. pose proof (books_pending_fresh s Hb) as Hfresh.
  rw /SendRequest /mbind /M_bind /get /modify /= Hfresh /= /log_effect /modify /= /Send in Hend.
  rw /mbind /M_bind /on_framer /= in Hend.
  destruct (framer_Frame (set_correlation_id (next_correlation_id_ s) m) (framer_ s))
    as [[] f'|e f'|u] eqn:Hf; [| |done]; rw /log_effect /modify /= in Hend; subst s'; split;
    try (rw /asked /= !omap_app !length_app /=; lia);
    apply (books_ask s _ h); try done;
    try (by rw /asked /settled /leaked /= ?omap_app /= ?app_nil_r).
  intros Hframes. destruct (Hframes (set_correlation_id (next_correlation_id_ s) m) (framer_ s)). congruence.
Qed.

Lemma books_deliver m s s' :
  books s → ends (deliver correlation_id m s) s' → books s' ∧ asked s' = asked s.
Proof.
  intros Hb Hend. rw /deliver /mbind /M_bind /get in Hend.
  assert (Hrecv : keeps unbooked (when on_message_ (log_effect (Received m)))) by auto with keeps.
  destruct (pending_responses_ s !! correlation_id m) as [[h|]|] eqn:Hp;
    rw ?/settle ?/count_down ?/mbind ?/M_bind /= in Hend.
  - subst s'. split; [|by rw /asked /= omap_app app_nil_r].
    apply (books_settle s _ (correlation_id m) (Some h) true); try done;
      [by rw /asked /settled /leaked /= ?omap_app /= ?app_nil_r ?Nat.add_0_r..|].
    by right.
  - set (s1 := set_effects _ _) in Hend.
    assert (Hs1 : unbooked s1 s') by by eapply (ends_unbooked _ s1).
    split; [|by rw (proj1 Hs1) /asked /= omap_app app_nil_r].
    apply (books_unbooked s1); [done|].
    apply (books_settle s _ (correlation_id m) None false); try done.
    + by rw /asked /= omap_app app_nil_r.
    + by rw /settled /= omap_app.
    + by rw /leaked /= omap_app length_app.
    + by right.
  - assert (Hs1 : unbooked s s') by by eapply (ends_unbooked _ s).
    split; [by apply (books_unbooked s)|exact (proj1 Hs1)].
Qed.

Lemma books_request_timeout i cid s s' :
  books s → request_timers s !! i = Some cid →
  ends (request_timeout cid (set_request_timers (delete i (request_timers s)) s)) s' →
  books s' ∧ asked s' = asked s.
Proof.
  intros Hb Hi Hend. rw /request_timeout /mbind /M_bind /get /= in Hend.
  assert (Ht : ∀ c, c ∈ request_timers s → c = cid ∨ c ∈ delete i (request_timers s)).
  { intros c [j Hj]%list_elem_of_lookup_1. destruct (decide (i = j)) as [->|Hne].
    - left. congruence.
    - right. apply list_elem_of_lookup_2 with (if decide (j < i) then j else pred j).
      case_decide; [by rw list_lookup_delete_lt|].
      destruct j as [|j]; [lia|]. rw /= list_lookup_delete_ge //. lia. }
  destruct (pending_responses_ s !! cid) as [h|] eqn:Hp;
    rw /settle /count_down /mbind /M_bind /log_effect /modify /= in Hend; subst s'.
  - split; [|by rw /asked /= omap_app app_nil_r].
    apply (books_settle s _ cid h true); try done;
      by rw /asked /settled /leaked /= ?omap_app /=; destruct h; rw ?app_nil_r ?Nat.add_0_r.
  - destruct Hb as [H1 H2 H3 H4 H5 H6]. split; [|done]. split; try done.
    intros Hf c Hc. destruct (Ht c (H5 Hf c Hc)) as [->|]; [|done]. by rw Hp in Hc; destruct Hc.
Qed.

Lemma books_step e s o s' :
  books s → few s → handle_ev e s = Some o → ends o s' →
  books s' ∧ length (asked s') ≤ S (length (asked s)).
Proof.
  intros Hb Hfew He Hend.
  assert (Hplain : ∀ s1 (m : M client ()), unbooked s s1 → keeps unbooked m → m s1 = o →
     books s' ∧ length (asked s') ≤ S (length (asked s))).
  { intros s1 m Hs1 Hm Ho. pose proof (ends_unbooked m s1 o s' Hm Ho Hend) as Hs2.
    split; [by apply (books_unbooked s1), (books_unbooked s)|].
    rw (proj1 Hs2) (proj1 Hs1). lia. }
  destruct e as [|ec|b|ec| | | |m|m h|f|ec n| | | |i]; simplify_eq/=.
  - eapply Hplain; [reflexivity| |reflexivity]. rw /Connect. auto 10 with keeps.
  - destruct (resolves s) as [|r]; simplify_eq/=.
    eapply (Hplain (set_resolves r s)); [done| |reflexivity]. rw /resolved. destruct ec; auto 10 with keeps.
  - destruct (connects s) as [|c]; simplify_eq/=.
    by eapply (Hplain (set_socket_open b s) (mret ())); [|auto with keeps|].
  - destruct (connects s) as [|c]; simplify_eq/=.
    eapply (Hplain (set_connects c s)); [done| |reflexivity]. rw /connected.
    destruct ec; apply keeps_bind; auto with keeps. intros. apply unbooked_StartRead.
  - destruct (connect_waits s) as [|w]; simplify_eq/=.
    eapply (Hplain (set_connect_waits w s)); [done| |reflexivity]. auto with keeps.
  - eapply Hplain; [reflexivity| |reflexivity]. rw /SetOnMessage. auto with keeps.
  - eapply Hplain; [reflexivity| |reflexivity]. rw /SetOnDisconnect. auto with keeps.
  - eapply Hplain; [reflexivity|apply unbooked_Send|reflexivity].
  - destruct (books_SendRequest m h s s' Hb Hfew Hend) as [? ->]. by split.
  - eapply Hplain; [reflexivity|apply unbooked_Close|reflexivity].
  - destruct (reads s) as [|r], (batch s); simplify_eq/=.
    eapply (Hplain (set_reads r s)); [done|apply unbooked_read_handler|reflexivity].
  - destruct (batch s) as [[|m rest]|]; simplify_eq/=.
    + eapply (Hplain (set_batch None s)); [done|apply unbooked_StartRead|reflexivity].
    + destruct (books_deliver m (set_batch (Some rest) s) s') as [? Ha]; [|done|].
      { by apply (books_unbooked s). }
      split; [done|]. rw Ha /asked /=. lia.
  - destruct (read_waits s) as [|w]; simplify_eq/=.
    eapply (Hplain (set_read_waits w s)); [done|apply unbooked_Close|reflexivity].
  - destruct (idle_waits s) as [|w]; simplify_eq/=.
    eapply (Hplain (set_idle_waits w s)); [done|apply unbooked_Close|reflexivity].
  - destruct (request_timers s !! i) as [cid|] eqn:Hi; simplify_eq/=.
    destruct (books_request_timeout i cid s s' Hb Hi Hend) as [? ->]. split; [done|lia].
Qed.

Lemma books_run es : ∀ s s',
  books s → (Z.of_nat (2 + length (asked s) + length es) < 2 ^ 64)%Z →
  run_ev s es = Some (Ret () s') → books s'.
Proof.
  induction es as [|e es IH]; intros s s' Hb Hfew Hrun; simplify_eq/=; [done|].
  destruct (handle_ev e s) as [o|] eqn:He; [|done].
  assert (Hend : ∃ s1, ends o s1 ∧ run_ev s1 es = Some (Ret () s')).
  { destruct o as [[] s1|x s1|u]; simplify_eq/=; by exists s1. }
  destruct Hend as (s1 & Hend & Hrun1).
  destruct (books_step e s o s1 Hb) as [Hb1 Hlen]; [rw /few; lia|done|done|].
  apply (IH s1); [done|lia|done].
Qed.

Lemma books_new framer : books (TcpClient_ctor framer).
Proof.
  split; cbn; [done|constructor|constructor| |by intros _ cid [? ?]|done].
  by rw map_to_list_empty.
Qed.

(** C23: every request is answered exactly once, or still pending.  Over any sequence of
    events, whether the framer and the socket throw or not, the requests made are, up to
    order, the settled ones and the pending ones; no correlation id is used twice,
    so no handler is called twice, by a response and a timeout or by two responses.  If
    framing never throws, every pending request also has a timer, whose expiry settles it
    with the timeout, whether the client has been closed or not.  The metric is, modulo
    [2^64], the number of pending requests and of those with an empty handler that got a
    response, which the code does not count down. *)
Theorem client_requests_settled (framer : F) es s :
  (Z.of_nat (2 + length es) < 2 ^ 64)%Z →
  run_ev (TcpClient_ctor framer) es = Some (Ret () s) →
  asked s ≡ₚ settled s ++ map_to_list (pending_responses_ s)
  ∧ NoDup (asked s).*1
  ∧ (frames → ∀ cid h, pending_responses_ s !! cid = Some h →
       ∃ i s', handle_ev (ERequestTimeout i) s = Some (Ret () s')
         ∧ effects s' = effects s ++ [Settled cid h TimedOut]
         ∧ pending_responses_ s' = delete cid (pending_responses_ s))
  ∧ SnapshotMetrics s
    = u64 (Z.of_nat (size (pending_responses_ s)) + Z.of_nat (leaked s)).
Proof.
  intros Hfew Hrun.
  pose proof (books_run es _ _ (books_new framer) Hfew Hrun) as [_ _ Hnd Hbal Ht Hc].
  split_and!; [done|done| |done]. intros Hframes cid h Hp.
  destruct (list_elem_of_lookup_1 _ _ (Ht Hframes cid (ex_intro _ h Hp))) as [i Hi].
  eexists i, _. rw /= Hi /request_timeout /mbind /M_bind /get /= Hp.
  by split_and!.
Qed.

(** ** Closing *)

(** The socket is open and its calls do not fail. *)
Definition closable s : Prop :=
  socket_open s = true ∧ ∀ n, cancel_error n true = None ∧ close_error n true = None.

Lemma Close_force_spec s :
  on_disconnect_ s = true → closable s →
  ∃ s', Close true s = Ret () s'
    ∧ effects s' = effects s ++ [SocketCancel; SocketClose; QueueClose true; Disconnect]
    ∧ pending_responses_ s' = pending_responses_ s ∧ shutdown_ s' = true ∧ socket_open s' = false
    ∧ on_disconnect_ s' = true ∧ reads s' = reads s ∧ batch s' = batch s.
Proof.
  intros Hd [Ho Hc]. destruct s; cbn in Hd, Ho; subst. eexists.
  rw /Close /lowest_cancel /lowest_close /mbind /M_bind /get /modify /log_effect /when. cbn.
  rw (proj1 (Hc _)). cbn. rw (proj2 (Hc _)). cbn. split; [reflexivity|]. cbn. by rw -!app_assoc.
Qed.

Lemma Close_graceful_spec s :
  on_disconnect_ s = true →
  ∃ s', Close false s = Ret () s' ∧ effects s' = effects s ++ [QueueClose false; Disconnect]
    ∧ pending_responses_ s' = pending_responses_ s ∧ socket_open s' = socket_open s
    ∧ on_disconnect_ s' = true ∧ reads s' = reads s ∧ batch s' = batch s.
Proof.
  intros Hd. destruct s; cbn in Hd; subst. eexists.
  rw /Close /mbind /M_bind /modify /log_effect /when. cbn. split; [reflexivity|].
  cbn. by rw -!app_assoc.
Qed.

(** On a socket that is not open [Close(true)] throws at once: nothing is done but to
    mark the client: the queue is not closed, the timers go on, and the disconnect
    handler is not called. *)
Lemma Close_force_not_open `{!SocketLaws} s :
  socket_open s = false →
  ∃ e s', Close true s = Throw e s' ∧ effects s' = effects s ++ [SocketCancel]
    ∧ pending_responses_ s' = pending_responses_ s ∧ shutdown_ s' = true
    ∧ read_waits s' = read_waits s ∧ idle_waits s' = idle_waits s.
Proof.
  intros Ho. destruct (cancel_not_open (length (effects s))) as [e He]. eexists e, _.
  rw /Close /lowest_cancel /mbind /M_bind /get /modify /log_effect. cbn. rw Ho He. by split.
Qed.

(** A forced close is not the end: the read that it aborts closes the client again, on a
    socket that is not open any more, and the exception leaves its handler.  The
    disconnect handler has been called once; the requests that were pending are not
    told: they stay pending. *)
Theorem client_close_throws `{!SocketLaws} s r n :
  on_disconnect_ s = true → closable s → reads s = S r → batch s = None →
  ∃ s1 e s2, handle_ev (EClose true) s = Some (Ret () s1)
    ∧ handle_ev (ERead true n) s1 = Some (Throw e s2)
    ∧ effects s2 = effects s ++ [SocketCancel; SocketClose; QueueClose true; Disconnect; SocketCancel]
    ∧ pending_responses_ s2 = pending_responses_ s.
Proof.
  intros Hd Hc Hr Hb.
  destruct (Close_force_spec s Hd Hc) as (s1 & Hc1 & He1 & Hp1 & _ & Ho1 & _ & Hr1 & Hb1).
  destruct (Close_force_not_open (set_reads r s1) Ho1) as (e & s2 & Hc2 & He2 & Hp2 & _).
  exists s1, e, s2. cbn [client_handle]. rw Hc1 Hr1 Hr Hb1 Hb /read_handler Hc2.
  split_and!; [done|done| |by rw Hp2 -Hp1]. by rw He2 /= He1 -app_assoc.
Qed.

(** After a graceful close the client is closed again, with force, by the end of its read:
    the disconnect handler is called twice. *)
Theorem client_close_repeats s r n :
  on_disconnect_ s = true → closable s → reads s = S r → batch s = None →
  ∃ s', run_ev s [EClose false; ERead true n] = Some (Ret () s')
    ∧ effects s' = effects s ++ [QueueClose false; Disconnect]
                     ++ [SocketCancel; SocketClose; QueueClose true; Disconnect]
    ∧ pending_responses_ s' = pending_responses_ s ∧ shutdown_ s' = true.
Proof.
  intros Hd [Ho Hc] Hr Hb.
  destruct (Close_graceful_spec s Hd) as (s1 & Hc1 & He1 & Hp1 & Ho1 & Hd1 & Hr1 & Hb1).
  destruct (Close_force_spec (set_reads r s1) Hd1) as (s2 & Hc2 & He2 & Hp2 & Hs2 & _).
  { split; [by rw /= Ho1|done]. }
  exists s2. cbn [client_run client_handle]. rw Hc1 Hr1 Hr Hb1 Hb /read_handler Hc2.
  split_and!; [done| |by rw Hp2 -Hp1|done]. by rw He2 /= He1 -app_assoc.
Qed.

(** Destroying a client whose socket is not open, one never connected or one closed
    before, ends the program: the exception leaves the destructor. *)
Theorem client_dtor_terminates `{!SocketLaws} s :
  socket_open s = false → TcpClient_dtor s = Undef std_terminate.
Proof.
  intros Ho. destruct (Close_force_not_open s Ho) as (e & s' & Hc & _).
  by rw /TcpClient_dtor /catch Hc.
Qed.

(** A request whose framing throws is neither sent nor failed: it is
    registered and counted, but no timer is started for it, so without a
    response that nobody will send it stays pending for ever. *)
Theorem client_unframed_request s m h e f' :
  pending_responses_ s !! next_correlation_id_ s = None →
  framer_Frame (set_correlation_id (next_correlation_id_ s) m) (framer_ s) = Throw e f' →
  ∃ s', SendRequest framer_Frame set_correlation_id m h s = Throw e s'
    ∧ pending_responses_ s' = <[next_correlation_id_ s := h]> (pending_responses_ s)
    ∧ pending_requests_ s' = add64 (pending_requests_ s) 1
    ∧ request_timers s' = request_timers s.
Proof.
  intros Hfresh Hf. eexists.
  rw /SendRequest /mbind /M_bind /get /modify /= Hfresh /= /log_effect /modify /= /Send.
  by rw /mbind /M_bind /on_framer /= Hf.
Qed.
End Requests.

(** ** Witnesses: messages are their correlation ids, and the socket's calls fail exactly
    when it is not open. *)
Definition plain_socket : SocketCalls := {|
  cancel_error _ opened := if opened then None else Some (runtime_error "cancel: Bad file descriptor");
  close_error _ _ := None
|}.
#[export] Instance plain_socket_laws : SocketLaws (socket := plain_socket).
Proof. intros n. by eexists. Qed.
#[local] Existing Instance plain_socket.

Definition id_OnData (n : Z) : M () (list Z) := mret [n].
Definition id_Frame (m : Z) : M () () := mret ().
Definition set_id (cid m : Z) : Z := cid.

Definition demo_events : list (client_event (Msg := Z) (H := string)) :=
  [EConnect; EResolved false; ESocket true; EConnected false; ESetOnDisconnect; ESendRequest 0%Z (Some "a"); ESendRequest 0%Z (Some "b");
   ERead false 2; EBatch; EBatch].

Definition demo_client : TcpClient (F := ()) (Msg := Z) (H := string) :=
  match client_run (mret ()) id_OnData id_Frame id set_id (TcpClient_ctor ()) demo_events with
  | Some (Ret _ s) => s
  | _ => TcpClient_ctor ()
  end.

Lemma client_requests_settled_witness :
  asked demo_client ≡ₚ settled demo_client ++ map_to_list (pending_responses_ demo_client)
  ∧ (∀ cid h, pending_responses_ demo_client !! cid = Some h →
       ∃ i s', client_handle (mret ()) id_OnData id_Frame id set_id (ERequestTimeout i) demo_client
               = Some (Ret () s')
         ∧ effects s' = effects demo_client ++ [Settled cid h TimedOut]
         ∧ pending_responses_ s' = delete cid (pending_responses_ demo_client))
  ∧ asked demo_client = [(1%Z, Some "a"); (2%Z, Some "b")]
  ∧ settled demo_client = [(2%Z, Some "b")].
Proof.
  destruct (client_requests_settled (mret ()) id_OnData id_Frame id set_id () demo_events demo_client)
    as (Ha & _ & Ht & _); [done|by vm_compute|].
  split_and!; [exact Ha| |by vm_compute..]. apply Ht. intros m f. by exists f.
Defined.

Lemma demo_closable : closable demo_client.
Proof. by split; [vm_compute|]. Qed.

Lemma client_close_throws_instance :
  ∃ s1 e s2,
    client_handle (mret ()) id_OnData id_Frame id set_id (EClose true) demo_client = Some (Ret () s1)
    ∧ client_handle (mret ()) id_OnData id_Frame id set_id (ERead true 0) s1 = Some (Throw e s2)
    ∧ effects s2 = effects demo_client
        ++ [SocketCancel; SocketClose; QueueClose true; Disconnect; SocketCancel]
    ∧ pending_responses_ s2 = pending_responses_ demo_client.
Proof.
  apply (client_close_throws _ _ _ _ _ demo_client 0 0); [by vm_compute|exact demo_closable|by vm_compute..].
Defined.

Lemma client_close_repeats_witness :
  ∃ s', client_run (mret ()) id_OnData id_Frame id set_id demo_client
          [EClose false; ERead true 0] = Some (Ret () s')
    ∧ effects s' = effects demo_client ++ [QueueClose false; Disconnect]
                     ++ [SocketCancel; SocketClose; QueueClose true; Disconnect]
    ∧ pending_responses_ s' = pending_responses_ demo_client ∧ shutdown_ s' = true.
Proof.
  apply (client_close_repeats _ _ _ _ _ demo_client 0 0); [by vm_compute|exact demo_closable|by vm_compute..].
Defined.

Lemma client_dtor_terminates_instance :
  TcpClient_dtor (TcpClient_ctor () : TcpClient (F := ()) (Msg := Z) (H := string)) = Undef std_terminate.
Proof. by apply client_dtor_terminates. Defined.

Lemma client_unframed_request_witness :
  ∃ s', SendRequest (λ _ : Z, throw (other_exception 1)) set_id 0%Z (Some "c")
          (TcpClient_ctor () : TcpClient (F := ()) (H := string)) = Throw (other_exception 1) s'
    ∧ pending_responses_ s' = {[1%Z := Some "c"]} ∧ pending_requests_ s' = 1%Z
    ∧ request_timers s' = [].
Proof.
  exact (client_unframed_request (λ _ : Z, throw (other_exception 1)) set_id (TcpClient_ctor ())
           0%Z (Some "c") (other_exception 1) () eq_refl eq_refl).
Defined.
