(* ===== verification/ClientLines.v ===== *)
(** * A client on a framer, and on the line framer

    What [SessionRelay.v] and [SessionLines.v] show for sessions, for
    [TcpClient]: against the interface of a framer, every message it gives is
    given out once, in order, to a response handler or to the message handler;
    then the client on a [SimpleLineFramer], a heap and a socket that has the
    chunks of a stream to give. *)
From S2P Require Import Prelude Machine RawBuffer InternalMessage SimpleLineFramer LineSplit FramerCorrect FramerTheorems SessionRelay SessionLines TcpClient TcpClientTheorems.

Section ClientRelay.
Context {socket : SocketCalls}.
Context {F Msg H : Type} (framer_PrepareRead : M F ()) (framer_OnData : Z → M F (list Msg))
  (framer_Frame : Msg → M F ()).
Context (correlation_id : Msg → Z) (set_correlation_id : Z → Msg → Msg).
Context (sound : nat → list Msg → F → Prop).
Context `{!FramerRelay framer_PrepareRead framer_OnData framer_Frame sound}.
Abbreviation client := (TcpClient (F := F) (Msg := Msg) (H := H)).
Abbreviation act := (M client ()).
Abbreviation handle_ev :=
  (client_handle framer_PrepareRead framer_OnData framer_Frame correlation_id set_correlation_id).
Abbreviation run_ev :=
  (client_run framer_PrepareRead framer_OnData framer_Frame correlation_id set_correlation_id).
Implicit Types (s : client) (p : list Msg).

(** A message given out: to the response handler of its request, or to the
    message handler. *)
Definition gives (e : client_effect (Msg := Msg) (H := H)) : option Msg :=
  match e with
  | Settled _ (Some _) (Response m) | Received m => Some m
  | _ => None
  end.
Definition given s : list Msg := omap gives (effects s).

(** The framer has given what was given out and the messages [p] of the read
    at hand. *)
Record passes p s : Prop := {
  passes_sound : ∃ n, sound n (given s ++ p) (framer_ s);
  passes_handler : on_message_ s = true
}.

(** [passing p m]: from a state in which [p] is left, [m] has no undefined
    behaviour, and [p] is left after it. *)
Definition passing {A} p (m : M client A) : Prop :=
  ∀ s, passes p s → wp m (λ _ s', passes p s' ∧ batch s' = batch s)
                      (λ _ s', passes p s' ∧ batch s' = batch s) s.

Lemma passing_ret {A} p (a : A) : passing p (mret a).
Proof. by intros s Hs. Qed.

Lemma passing_throw {A} p e : passing p (throw e : M client A).
Proof. by intros s Hs. Qed.

Lemma passing_bind {A B} p (m : M client A) (f : A → M client B) :
  passing p m → (∀ a, passing p (f a)) → passing p (m ≫= f).
Proof.
  intros Hm Hf s Hs. wp_step. eapply wp_mono; [exact (Hm s Hs)| |done].
  intros a s1 [H1 Hb]. eapply wp_mono; [exact (Hf a s1 H1)|..]; intros ? s2 [H2 Hb2];
    (split; [done|congruence]).
Qed.

Lemma passing_get {A} p (f : client → M client A) : (∀ s, passing p (f s)) → passing p (s ← get; f s).
Proof. intros Hf s Hs. exact (Hf s s Hs). Qed.

Lemma passing_when p cond (m : act) : passing p m → passing p (when cond m).
Proof. intros Hm s Hs. rw /wp /when. destruct (cond s); [exact (Hm s Hs)|done]. Qed.

Lemma passes_same p s s' :
  given s' = given s → framer_ s' = framer_ s → on_message_ s' = on_message_ s →
  passes p s → passes p s'.
Proof. intros Hg Hf Hm [Hs Ho]. by split; rw ?Hg ?Hf ?Hm. Qed.

Lemma passing_modify p f :
  (∀ s, given (f s) = given s ∧ framer_ (f s) = framer_ s
        ∧ (on_message_ (f s) = on_message_ s ∨ on_message_ (f s) = true) ∧ batch (f s) = batch s) →
  passing p (modify f : act).
Proof.
  intros Hf s Hs. destruct (Hf s) as (Hg & Hfr & Hm & Hb). wp_step. split; [|done].
  apply (passes_same p s); [done|done| |done]. destruct Hm as [|Hm]; [done|].
  by rw Hm (passes_handler _ _ Hs).
Qed.

Lemma given_snoc s s' e : effects s' = effects s ++ [e] → given s' = given s ++ omap gives [e].
Proof. intros He. by rw /given He omap_app. Qed.

Lemma passing_log p e : gives e = None → passing p (log_effect e : act).
Proof.
  intros He s Hs. rw /log_effect. wp_step. split; [|done].
  apply (passes_same p s); [|done..]. rw (given_snoc s _ e) //= He. by rw app_nil_r.
Qed.

Create HintDb pass.
Hint Resolve passing_ret passing_throw passing_bind passing_when passing_get : pass.
Hint Extern 2 (passing _ (log_effect _)) => (by apply passing_log) : pass.
Hint Extern 2 (passing _ (modify _)) =>
  (apply passing_modify; intros; by (split_and!; [..|first [left; reflexivity|right; reflexivity]|]))
  : pass.

Lemma passing_framer {A} p (m : M F A) :
  (∀ n out f, sound n out f → wp m (λ _, sound n out) (λ _, sound n out) f) →
  passing p (on_framer m : M client A).
Proof.
  intros Hm s [[n Hn] Ho]. specialize (Hm n _ _ Hn). rw /wp /on_framer in Hm *.
  by destruct (m (framer_ s)); [(split; [split; [by exists n|done]|done])..|].
Qed.

Lemma passing_Send p x : passing p (Send framer_Frame x : act).
Proof.
  rw /Send. apply passing_bind; [|auto with pass].
  apply passing_framer. intros. by apply (relay_Frame x).
Qed.

Lemma passing_StartRead p : passing p (StartRead framer_PrepareRead : act).
Proof.
  rw /StartRead. apply passing_get. intros s. destruct (shutdown_ s); [auto with pass|].
  apply passing_bind; [|auto 10 with pass].
  apply passing_framer. intros n out f Hf. eapply wp_mono; [by apply (relay_PrepareRead n out f)|done..].
Qed.

Lemma passing_lowest_cancel p : passing p (lowest_cancel : act).
Proof.
  rw /lowest_cancel. apply passing_get. intros s. apply passing_bind; [auto with pass|]. intros [].
  destruct (cancel_error _ _); auto with pass.
Qed.

Lemma passing_lowest_close p : passing p (lowest_close : act).
Proof.
  rw /lowest_close. apply passing_get. intros s. do 2 (apply passing_bind; [auto with pass|]; intros []).
  destruct (close_error _ _); auto with pass.
Qed.
Hint Resolve passing_lowest_cancel passing_lowest_close : pass.

Lemma passing_Close p force : passing p (Close force : act).
Proof. rw /Close. destruct force; auto 20 with pass. Qed.
Hint Resolve passing_Send passing_StartRead passing_Close : pass.

Lemma passing_SendRequest p x h : passing p (SendRequest framer_Frame set_correlation_id x h : act).
Proof.
  rw /SendRequest. apply passing_get. intros s. apply passing_bind; [auto with pass|]. intros [].
  apply passing_bind; [destruct (_ !! _); auto with pass|]. auto 20 with pass.
Qed.

Lemma passing_timeout p cid : passing p (request_timeout cid : act).
Proof.
  rw /request_timeout /settle /count_down. apply passing_get. intros s.
  destruct (pending_responses_ s !! cid) as [h|]; [|auto with pass].
  apply passing_bind; [|auto with pass]. apply passing_bind; [auto with pass|]. intros [].
  apply passing_log. by destruct h.
Qed.
Hint Resolve passing_SendRequest passing_timeout : pass.

(** The message at hand is given out, once. *)
Lemma given_out p x s s' :
  passes (x :: p) s → effects s' = effects s ++ [Received x] ∨
    (∃ cid h, effects s' = effects s ++ [Settled cid (Some h) (Response x)]) ∨
    (∃ cid, effects s' = (effects s ++ [Settled cid None (Response x)]) ++ [Received x]) →
  framer_ s' = framer_ s → on_message_ s' = on_message_ s → passes p s'.
Proof.
  intros [[n Hn] Ho] He Hf Hm. split; [|congruence]. exists n. rw Hf.
  assert (given s' = given s ++ [x]) as ->; [|by rw -app_assoc].
  rw /given. destruct He as [->|[(cid & h & ->)|(cid & ->)]]; rw !omap_app //=. by rw app_nil_r.
Qed.

Lemma deliver_gives p x s :
  passes (x :: p) s →
  wp (deliver correlation_id x) (λ _ s', passes p s' ∧ batch s' = batch s) no_throw s.
Proof.
  intros Hs. pose proof (passes_handler _ _ Hs) as Ho. rw /deliver. wp_step. wp_step.
  destruct (pending_responses_ s !! correlation_id x) as [[h|]|];
    rw /settle /count_down /log_effect; repeat wp_step; rw ?/wp /when /= ?Ho;
    (split; [|done]); apply (given_out p x s); try done; eauto.
Qed.

Lemma batch_step_passes msgs s :
  passes msgs s → batch s = Some msgs →
  wp (batch_step framer_PrepareRead correlation_id msgs)
    (λ _ s', passes (default [] (batch s')) s') (λ _ s', passes (default [] (batch s')) s') s.
Proof.
  intros Hs Hb. destruct msgs as [|x rest]; rw /batch_step; wp_step; wp_step.
  - eapply wp_mono; [apply (passing_StartRead [])|..]; [by apply (passes_same [] s)|..];
      by intros ? s' [? ->].
  - eapply wp_mono; [apply (deliver_gives rest)|..]; [by apply (passes_same (x :: rest) s)| |done].
    by intros ? s' [? ->].
Qed.

Lemma read_handler_passes ec n s :
  passes [] s → batch s = None →
  wp (read_handler framer_OnData ec n) (λ _ s', passes (default [] (batch s')) s')
    (λ _ s', passes (default [] (batch s')) s') s.
Proof.
  intros Hs Hb. rw /read_handler. destruct ec.
  { eapply wp_mono; [by apply (passing_Close [])|..]; intros ? s' [? ->]; by rw Hb. }
  do 5 wp_step. destruct Hs as [[k Hk] Ho]. pose proof (relay_OnData n k _ _ Hk) as Hw.
  rw /wp /on_framer in Hw *. cbn [framer_ set_idle_waits set_read_waits].
  destruct (framer_OnData n (framer_ s)) as [ms f|e f|u]; [|done..].
  split; [|done]. exists (S k). by rw app_nil_r in Hw.
Qed.

(** ** Any run *)
Lemma handle_passes e s :
  passes (default [] (batch s)) s →
  match handle_ev e s with
  | Some (Ret _ s') | Some (Throw _ s') => passes (default [] (batch s')) s'
  | Some (Undef _) => False
  | None => True
  end.
Proof.
  intros Hs.
  assert (Hp : ∀ (m : act) s1, passing (default [] (batch s)) m → passes (default [] (batch s)) s1 →
    batch s1 = batch s →
    match m s1 with
    | Ret _ s' | Throw _ s' => passes (default [] (batch s')) s' | Undef _ => False end).
  { intros m s1 Hm H1 Hb1. specialize (Hm s1 H1). rw /wp in Hm.
    by destruct (m s1) as [[] s'|x s'|u]; [destruct Hm as [? ->]; rw Hb1..|]. }
  destruct e as [|ec|b|ec| | | |m|m h|force|ec n| | | |i]; rw /=.
  - apply (Hp Connect); [|done..]. rw /Connect. auto 10 with pass.
  - destruct (resolves s) as [|r]; [done|].
    apply (Hp (resolved ec)); [|by apply (passes_same _ s)|done].
    rw /resolved. destruct ec; auto 10 with pass.
  - destruct (connects s) as [|c]; [done|]. by apply (passes_same _ s).
  - destruct (connects s) as [|c]; [done|].
    apply (Hp (connected framer_PrepareRead ec)); [|by apply (passes_same _ s)|done].
    rw /connected. destruct ec; auto 10 with pass.
  - destruct (connect_waits s) as [|w]; [done|].
    by apply (Hp lowest_cancel); [auto with pass|apply (passes_same _ s)|].
  - apply (Hp SetOnMessage); [|done..]. rw /SetOnMessage. auto with pass.
  - apply (Hp SetOnDisconnect); [|done..]. rw /SetOnDisconnect. auto with pass.
  - by apply (Hp (Send framer_Frame m)); [auto with pass|..].
  - by apply (Hp (SendRequest framer_Frame set_correlation_id m h)); [auto with pass|..].
  - by apply (Hp (Close force)); [auto with pass|..].
  - destruct (reads s) as [|r]; [done|]. destruct (batch s) as [msgs|] eqn:Hb; [done|].
    assert (Hw := read_handler_passes ec n (set_reads r s)). rw /wp in Hw.
    by destruct (read_handler _ _ _ _); (apply Hw; [by apply (passes_same [] s)|]).
  - destruct (batch s) as [msgs|] eqn:Hb; [|done].
    assert (Hw := batch_step_passes msgs s Hs Hb). rw /wp in Hw. by destruct (batch_step _ _ _ _).
  - destruct (read_waits s) as [|w]; [done|].
    apply (Hp (Close true)); [auto with pass|by apply (passes_same _ s)|done].
  - destruct (idle_waits s) as [|w]; [done|].
    apply (Hp (Close true)); [auto with pass|by apply (passes_same _ s)|done].
  - destruct (request_timers s !! i) as [cid|]; [|done].
    apply (Hp (request_timeout cid)); [auto with pass|by apply (passes_same _ s)|done].
Qed.

Lemma run_passes es : ∀ s,
  passes (default [] (batch s)) s →
  match run_ev s es with
  | Some (Ret _ s') => passes (default [] (batch s')) s'
  | Some _ => False
  | None => True
  end.
Proof.
  induction es as [|e es IH]; intros s Hs; [done|]. cbn [client_run].
  pose proof (handle_passes e s Hs) as Hh.
  destruct (handle_ev e s) as [[[] s1|x s1|u]|]; [by apply IH..|done|done].
Qed.

(** ** A client that reads

    Not shut down, [n] reads handled, [r] pending. *)
Record reading (r n : nat) p s : Prop := {
  reading_open : shutdown_ s = false ∧ reads s = r;
  reading_sound : sound n (given s ++ p) (framer_ s);
  reading_handler : on_message_ s = true
}.

Lemma reading_StartRead r n s :
  reading r n [] s →
  wp (StartRead framer_PrepareRead)
    (λ _ s', reading (S r) n [] s' ∧ batch s' = batch s ∧ given s' = given s) no_throw s.
Proof.
  intros [[Hsd Hr] Hs Ho]. rw /StartRead. wp_step. wp_step. rw Hsd. wp_step.
  pose proof (relay_PrepareRead n _ _ Hs) as Hw. rw /wp /on_framer in Hw *.
  destruct (framer_PrepareRead (framer_ s)) as [a f|e f|u]; [|done..].
  split; [|done]. by split; [rw /= Hr|..].
Qed.

Lemma reading_deliver r n p x s :
  reading r n (x :: p) s →
  wp (deliver correlation_id x)
    (λ _ s', reading r n p s' ∧ batch s' = batch s ∧ given s' = given s ++ [x]) no_throw s.
Proof.
  intros [Hsd Hs Ho]. rw /deliver. wp_step. wp_step.
  assert (Hg : ∀ s', given s' = given s ++ [x] → framer_ s' = framer_ s →
    on_message_ s' = on_message_ s → shutdown_ s' = shutdown_ s → reads s' = reads s →
    batch s' = batch s → reading r n p s' ∧ batch s' = batch s ∧ given s' = given s ++ [x]).
  { intros s' Hg Hf Hm Hd Hr Hb. split; [|done]. split; rw ?Hd ?Hr ?Hf ?Hm ?Hg //.
    by rw -app_assoc. }
  destruct (pending_responses_ s !! correlation_id x) as [[h|]|];
    rw /settle /count_down /log_effect; repeat wp_step; rw ?/wp /when /= ?Ho;
    (refine (Hg _ _ _ _ _ _ _); [|done..]); rw /given !omap_app //=; by rw app_nil_r.
Qed.

Lemma run_batch r n p : ∀ s,
  reading r n p s → batch s = Some p →
  ∃ s', run_ev s (replicate (S (length p)) EBatch) = Some (Ret () s')
    ∧ reading (S r) n [] s' ∧ batch s' = None ∧ given s' = given s ++ p.
Proof.
  induction p as [|x p IH]; intros s Hs Hb.
  - assert (Hw : wp (batch_step framer_PrepareRead correlation_id [])
      (λ _ s', reading (S r) n [] s' ∧ batch s' = None ∧ given s' = given s) no_throw s).
    { rw /batch_step. wp_step. wp_step. apply (reading_StartRead r n (set_batch None s)). by destruct Hs. }
    apply wp_returns in Hw as ([] & s' & Hret & H1 & H2 & H3). exists s'. rw /= Hb Hret app_nil_r. done.
  - assert (Hw : wp (batch_step framer_PrepareRead correlation_id (x :: p))
      (λ _ s', reading r n p s' ∧ batch s' = Some p ∧ given s' = given s ++ [x]) no_throw s).
    { rw /batch_step. wp_step. wp_step.
      apply (reading_deliver r n p x (set_batch (Some p) s)). by destruct Hs. }
    apply wp_returns in Hw as ([] & s1 & Hret & H1 & H2 & H3).
    destruct (IH s1 H1 H2) as (s' & Hrun & H4 & H5 & H6). exists s'.
    split; [|by rw H6 H3 -app_assoc].
    change (replicate (S (length (x :: p))) (EBatch (Msg := Msg) (H := H)))
      with (EBatch (Msg := Msg) (H := H) :: replicate (S (length p)) EBatch).
    cbn [client_run client_handle]. by rw Hb Hret.
Qed.

(** One read, and the messages it gives. *)
Definition read_events (k : nat) : list (client_event (Msg := Msg) (H := H)) :=
  ERead false 0 :: replicate k EBatch.

Lemma run_read n s :
  reading 1 n [] s → batch s = None →
  ∃ k s', run_ev s (read_events k) = Some (Ret () s') ∧ reading 1 (S n) [] s' ∧ batch s' = None.
Proof.
  intros [[Hsd Hr] Hs Ho] Hb.
  pose proof (relay_OnData 0%Z n _ _ Hs) as Hw. rw /wp in Hw.
  destruct (framer_OnData 0 (framer_ s)) as [ms f|e f|u] eqn:Hdata; [|done..].
  set (s1 := set_batch (Some ms) (set_framer f (set_idle_waits 0 (set_read_waits 0 (set_reads 0 s))))).
  assert (H1 : reading 0 (S n) ms s1).
  { split; [done| |done]. by rw app_nil_r in Hw. }
  destruct (run_batch 0 (S n) ms s1 H1 eq_refl) as (s' & Hrun & H2 & H3 & _).
  exists (S (length ms)), s'. split; [|done].
  cbn [read_events client_run client_handle]. rw Hr Hb.
  assert (read_handler framer_OnData false 0 (set_reads 0 s) = Ret () s1) as ->; [|exact Hrun].
  by rw /read_handler /mbind /M_bind /modify /on_framer /= Hdata.
Qed.

Lemma client_run_app es1 es2 : ∀ s s1,
  run_ev s es1 = Some (Ret () s1) → run_ev s (es1 ++ es2) = run_ev s1 es2.
Proof.
  induction es1 as [|e es1 IH]; intros s s1 Hrun; [by simplify_eq/=|]. rw /= in Hrun *.
  by destruct (handle_ev e s) as [[[] s2|x s2|u]|]; [apply IH..|done|done].
Qed.

(** Every read that completes is handled to its end, and the next one begins. *)
Lemma run_reads j : ∀ n s,
  reading 1 n [] s → batch s = None →
  ∃ ks s', length ks = j ∧ run_ev s (concat (read_events <$> ks)) = Some (Ret () s')
    ∧ reading 1 (n + j) [] s' ∧ batch s' = None.
Proof.
  induction j as [|j IH]; intros n s Hs Hb.
  { exists [], s. by rw Nat.add_0_r. }
  destruct (run_read n s Hs Hb) as (k & s1 & Hrun & H1 & Hb1).
  destruct (IH (S n) s1 H1 Hb1) as (ks & s' & Hlen & Hrun' & H2 & Hb2).
  exists (k :: ks), s'. split_and!; [by rw /= Hlen| |by rw Nat.add_succ_r|done].
  by rw fmap_cons concat_cons (client_run_app _ _ _ s1 Hrun).
Qed.

(** The events of a connection that comes about. *)
Definition connecting : list (client_event (Msg := Msg) (H := H)) :=
  [EConnect; EResolved false; ESocket true; EConnected false].

Lemma run_connected f :
  sound 0 [] f →
  ∃ s, run_ev (TcpClient_ctor f) (ESetOnMessage :: connecting) = Some (Ret () s)
    ∧ reading 1 0 [] s ∧ batch s = None.
Proof.
  intros Hf. set (s0 := set_effects [ConnectResult false] (set_connects 0 (set_socket_open true
    (set_connects 1 (set_connect_waits 0 (set_resolves 0 (set_on_connect true (set_on_message true
      (TcpClient_ctor f)))))))) : client).
  assert (H0 : reading 0 0 [] s0) by by split.
  pose proof (reading_StartRead 0 0 s0 H0) as Hw.
  apply wp_returns in Hw as ([] & s & Hret & H1 & Hb & _). exists s. split; [|done].
  transitivity (match StartRead framer_PrepareRead s0 with
                | Ret _ s' | Throw _ s' => Some (Ret () s') | Undef u => Some (Undef u) end);
    [done|by rw Hret].
Qed.
End ClientRelay.

Section ClientLines.
Context {socket : SocketCalls}.
Context {H : Type} (frame : InternalMessage → () + exn).
Context (correlation_id : InternalMessage → Z) (set_correlation_id : Z → InternalMessage → InternalMessage).
Abbreviation line_client := (TcpClient (F := wire) (Msg := InternalMessage) (H := H)).
Abbreviation run :=
  (client_run wire_PrepareRead wire_OnData (wire_Frame frame) correlation_id set_correlation_id).

(** C15: a client with a message handler, on a line framer, whose reads are each of whole,
    non-empty lines (a line over two reads is undefined behaviour, [split_line_undefined],
    and an empty one throws).  Whatever other events come, requests, time-outs, closes,
    those that throw too, and reconnections in any order, and whatever ids the lines carry
    and framing does, nothing is undefined, and the lines of the first [k] reads are given
    out, each to its response handler or to the message handler, in order, exactly once,
    the rest of the last read's waiting for their turn.  And every read that completes on
    an open client is handled to its end: after [j] reads all of their lines have been
    given out and the next read is pending. *)
Theorem client_delivers_lines chunks m fr m' :
  forallb whole_lines chunks = true → never_oom m → SimpleLineFramer_ctor m = Ret fr m' →
  (∀ es, match run (TcpClient_ctor (chunks, (fr, m')) : line_client) (ESetOnMessage :: es) with
         | Some (Ret _ s) => ∃ k st, framer_ s = (drop k chunks, st)
             ∧ are_lines (given s ++ default [] (batch s)) (concat (take k chunks)) st.2
         | Some _ => False
         | None => True
         end)
  ∧ ∀ j, ∃ ks s st, length ks = j
      ∧ run (TcpClient_ctor (chunks, (fr, m')) : line_client)
          (ESetOnMessage :: connecting ++ concat (read_events <$> ks)) = Some (Ret () s)
      ∧ framer_ s = (drop j chunks, st) ∧ batch s = None ∧ reads s = 1
      ∧ are_lines (given s) (concat (take j chunks)) st.2.
Proof.
  intros Hc Hoom Hctor. pose proof (line_sound_new chunks m fr m' Hoom Hctor) as H0.
  pose proof (line_framer_relay chunks Hc frame) as Hrelay. split.
  - intros es. set (s0 := set_on_message true (TcpClient_ctor (chunks, (fr, m'))) : line_client).
    assert (Hp : passes (line_sound chunks) (default [] (batch s0)) s0) by by split; [exists 0|].
    pose proof (run_passes _ _ _ correlation_id set_correlation_id _ es s0 Hp) as Hrun.
    cbn [client_run client_handle]. rw /SetOnMessage /modify. change (set_on_message true _) with s0.
    destruct (run s0 es) as [[[] s|e s|u]|]; [|done..].
    destruct Hrun as [[k Hk] _]. destruct (framer_ s) as [rest [fr1 m1]].
    destruct Hk as (-> & _ & _ & _ & ds & H1 & H2 & H3 & _).
    exists k, (fr1, m1). split; [done|by exists ds].
  - intros j.
    destruct (run_connected (H := H) _ _ (wire_Frame frame) correlation_id set_correlation_id _ _ H0)
      as (s1 & Hrun1 & Hr1 & Hb1).
    destruct (run_reads _ _ (wire_Frame frame) correlation_id set_correlation_id _ j 0 s1 Hr1 Hb1)
      as (ks & s & Hlen & Hrun & [[_ Hr] Hs _] & Hb).
    destruct (framer_ s) as [rest [fr1 m1]] eqn:Hf. rw app_nil_r in Hs.
    destruct Hs as (-> & _ & _ & _ & ds & H1 & H2 & H3 & _).
    exists ks, s, (fr1, m1). split_and!; [done| |done|done|done|by exists ds].
    by rw app_comm_cons (client_run_app _ _ _ _ _ _ _ _ s1 Hrun1).
Qed.
End ClientLines.

(** ** Witness

    A client on the stream of [SessionLines.v]; a line's id is its length, so the
    first request is answered by the line [b]. *)
Definition line_id (m : InternalMessage) : Z := size_ (buffer_ m).

#[local] Existing Instance plain_socket.

Lemma client_delivers_lines_witness :
  ∃ ks s st, length ks = 2
    ∧ client_run wire_PrepareRead wire_OnData (wire_Frame (λ _, inl ())) line_id (λ _ m, m)
        (TcpClient_ctor (demo_stream, demo_start) : TcpClient (F := wire) (H := string))
        (ESetOnMessage :: connecting ++ concat (read_events <$> ks)) = Some (Ret () s)
    ∧ framer_ s = (drop 2 demo_stream, st) ∧ batch s = None ∧ reads s = 1
    ∧ are_lines (given s) (concat (take 2 demo_stream)) st.2.
Proof.
  destruct (client_delivers_lines (H := string) (λ _, inl ()) line_id (λ _ m, m) demo_stream mach0
    demo_start.1 demo_start.2) as [_ Hw]; [by vm_compute|done|by vm_compute|].
  exact (Hw 2).
Defined.
