(* ===== verification/ClientExample.v ===== *)
(** * The example client (examples/tcp/client_main_example.h)

    The handlers that [main] installs and the calls it makes, on the client, the
    messages and the memory of the other files.  The example does not compile
    ([rb.deleter()] is no member of [RawBuffer]); what comes before that is
    modelled: the handler of messages prints the stream's lines, the handler of
    disconnections reconnects a client that will not read again, and the
    heartbeat writes to a null pointer. *)
From S2P Require Import Prelude Machine RawBuffer InternalMessage SimpleLineFramer LineSplit FramerCorrect FramerTheorems SessionLines TcpClient TcpClientTheorems ClientLines.

(** ** Messages

    [std::string line(data, size); std::cout << "[Server] " << line << "\n"]: the
    line is read from memory and printed; [outside] is what was printed. *)
Definition print_message (msg : InternalMessage) : M (list block * mach) () :=
  let b := Message_buffer msg in
  line ← match RawBuffer_data b with
         | Some p => on_snd (mem_read p 0 (RawBuffer_size b))
         | None => mret []
         end;
  modify (λ st, (st.1 ++ [line], st.2)).

Lemma print_line d out m :
  in_heap (heap m) d → print_message (message_of d) (out, m) = Ret () (out ++ [cells (d_line d)], m).
Proof.
  intros Hd. rw /print_message /mbind /M_bind /on_snd /mem_read /= Hd length_fmap.
  rw decide_True; [by rw Z.add_0_l|].
  by rw drop_0 Nat2Z.id -(length_fmap Some (d_line d)) firstn_all.
Qed.

(** The client prints exactly the stream's lines: whatever it is given for a stream
    [bs] ([client_delivers_lines]), the handler prints the lines of [bs] in order. *)
Theorem client_example_prints ms bs out m :
  are_lines ms bs m →
  for_each print_message ms (out, m) = Ret () (out ++ (cells <$> (split_lines bs).1), m).
Proof.
  intros (ds & -> & <- & Hds). induction Hds as [|d ds Hd _ IH] in out |- *; [by rw app_nil_r|].
  cbn [fmap list_fmap for_each]. rw /mbind /M_bind (print_line d out m Hd) /= (IH (out ++ [_])).
  by rw -app_assoc.
Qed.

(** ** The heartbeat

    A default message has no memory; the bytes of ["PING\n"] are copied to it. *)
Definition ping : list byte := bytes "PING" ++ [newline].

Definition send_heartbeat : M mach () :=
  let rb := Message_buffer default_message in
  match RawBuffer_data rb with
  | Some p => mem_write p 0 (Some <$> ping)
  | None => undef null_dereference
  end.

Lemma send_heartbeat_undefined m : send_heartbeat m = Undef null_dereference.
Proof. done. Qed.

(** ** Connecting again *)
Section Reconnect.
Context {socket : SocketCalls}.
Context {F Msg H : Type} (framer_PrepareRead : M F ()) (framer_OnData : Z → M F (list Msg))
  (framer_Frame : Msg → M F ()).
Context (correlation_id : Msg → Z) (set_correlation_id : Z → Msg → Msg).
Abbreviation client := (TcpClient (F := F) (Msg := Msg) (H := H)).
Abbreviation handle_ev :=
  (client_handle framer_PrepareRead framer_OnData framer_Frame correlation_id set_correlation_id).
Abbreviation run_ev :=
  (client_run framer_PrepareRead framer_OnData framer_Frame correlation_id set_correlation_id).
Implicit Types (s : client).

(** What [main] does before its first heartbeat. *)
Definition main_calls : list (client_event (Msg := Msg) (H := H)) :=
  [ESetOnMessage; ESetOnDisconnect; EConnect].

(** The handler of disconnections: the timer is a local variable, so its wait ends
    with [operation_aborted] when the handler returns, and the lambda, which does
    not look at its argument, connects at once. *)
Definition on_disconnected : list (client_event (Msg := Msg) (H := H)) := [EConnect].

Definition is_read (e : client_event (Msg := Msg) (H := H)) : bool :=
  match e with ERead _ _ => true | _ => false end.

Definition reads_in (es : list (client_event (Msg := Msg) (H := H))) : nat :=
  sum_list_with (λ e, Nat.b2n (is_read e)) es.

(** A client that is shut down starts no read. *)
Definition no_new_read s s' : Prop :=
  shutdown_ s = true → shutdown_ s' = true ∧ reads s' ≤ reads s.

#[local] Instance no_new_read_preorder : PreOrder no_new_read.
Proof.
  split; [by intros s ?|]. intros s1 s2 s3 H12 H23 H1.
  destruct (H12 H1) as [H2 ?]. destruct (H23 H2) as [H3 ?]. split; [done|lia].
Qed.

Lemma no_new_read_framer {A} (m : M F A) : keeps no_new_read (on_framer m).
Proof. intros s. rw /on_framer. by destruct (m (framer_ s)). Qed.

Lemma no_new_read_when cond (m : M client ()) :
  keeps no_new_read m → keeps no_new_read (when cond m).
Proof. intros Hm s. rw /when. destruct (cond s); [exact (Hm s)|exact (keeps_ret no_new_read () s)]. Qed.

Lemma no_new_read_log e : keeps no_new_read (log_effect e).
Proof. by apply keeps_modify. Qed.

Hint Resolve no_new_read_framer no_new_read_when no_new_read_log : keeps.
Hint Extern 3 (keeps no_new_read (modify _)) => (apply keeps_modify; intros ? ?; by split) : keeps.
Hint Extern 3 (PreOrder _) => exact no_new_read_preorder : keeps.

Lemma no_new_read_lowest_cancel : keeps no_new_read lowest_cancel.
Proof.
  rw /lowest_cancel. apply keeps_get_bind. intros s. destruct (cancel_error _ _); auto with keeps.
Qed.

Lemma no_new_read_lowest_close : keeps no_new_read lowest_close.
Proof.
  rw /lowest_close. apply keeps_get_bind. intros s. destruct (close_error _ _); auto with keeps.
Qed.
Hint Resolve no_new_read_lowest_cancel no_new_read_lowest_close : keeps.

Lemma no_new_read_Close force : keeps no_new_read (Close force).
Proof. rw /Close. destruct force; auto 20 with keeps. Qed.

Lemma no_new_read_StartRead : keeps no_new_read (StartRead framer_PrepareRead).
Proof.
  intros s. rw /StartRead /mbind /M_bind /get /=. destruct (shutdown_ s) eqn:Hs; [by intros ?|].
  destruct (on_framer _ s); try done; rw /no_new_read Hs; done.
Qed.
Hint Resolve no_new_read_Close no_new_read_StartRead : keeps.

Lemma no_new_read_Send m : keeps no_new_read (Send framer_Frame m).
Proof. rw /Send. auto with keeps. Qed.
Hint Resolve no_new_read_Send : keeps.

Lemma no_new_read_SendRequest m h : keeps no_new_read (SendRequest framer_Frame set_correlation_id m h).
Proof.
  rw /SendRequest. apply keeps_get_bind. intros s. apply keeps_bind; [auto with keeps..|].
  intros []. apply keeps_bind; [auto with keeps| |auto 10 with keeps].
  destruct (_ !! _); auto with keeps.
Qed.

Lemma no_new_read_deliver m : keeps no_new_read (deliver correlation_id m).
Proof.
  rw /deliver /settle /count_down. apply keeps_get_bind. intros s.
  destruct (_ !! _) as [[h|]|]; auto 20 with keeps.
Qed.

Lemma no_new_read_timeout cid : keeps no_new_read (request_timeout cid : M client ()).
Proof.
  rw /request_timeout /settle /count_down. apply keeps_get_bind. intros s.
  destruct (_ !! _); auto 20 with keeps.
Qed.
Hint Resolve no_new_read_SendRequest no_new_read_deliver no_new_read_timeout : keeps.

(** Every event leaves it so, and a read that completes is one less to come. *)
Lemma closed_step e s o s' :
  handle_ev e s = Some o → ends o s' → shutdown_ s = true →
  shutdown_ s' = true ∧ reads s' + Nat.b2n (is_read e) ≤ reads s.
Proof.
  intros He Hend Hsd.
  assert (Hact : ∀ (m : M client ()) s1, keeps no_new_read m → m s1 = o → shutdown_ s1 = true →
    shutdown_ s' = true ∧ reads s' ≤ reads s1).
  { intros m s1 Hm Ho H1. specialize (Hm s1). rw Ho in Hm. destruct o; cbn in Hend, Hm.
    - subst. by apply Hm.
    - subst. by apply Hm.
    - done. }
  destruct e as [|ec|b|ec| | | |m|m h|f|ec n| | | |i]; cbn [client_handle] in He; rw /= ?Nat.add_0_r.
  - injection He as He. apply (Hact Connect s); [|done..]. rw /Connect. auto 10 with keeps.
  - destruct (resolves s) as [|r]; [done|]. injection He as He.
    apply (Hact (resolved ec) (set_resolves r s)); [|done..]. rw /resolved. destruct ec; auto 10 with keeps.
  - destruct (connects s) as [|c]; [done|]. injection He as He.
    by apply (Hact (mret ()) (set_socket_open b s)); [auto with keeps|..].
  - destruct (connects s) as [|c]; [done|]. injection He as He.
    apply (Hact (connected framer_PrepareRead ec) (set_connects c s)); [|done..].
    rw /connected. destruct ec; auto 10 with keeps.
  - destruct (connect_waits s) as [|w]; [done|]. injection He as He.
    by apply (Hact lowest_cancel (set_connect_waits w s)); [auto with keeps|..].
  - injection He as He. apply (Hact SetOnMessage s); [|done..]. rw /SetOnMessage. auto with keeps.
  - injection He as He. apply (Hact SetOnDisconnect s); [|done..]. rw /SetOnDisconnect. auto with keeps.
  - injection He as He. by apply (Hact (Send framer_Frame m) s); [auto with keeps|..].
  - injection He as He.
    by apply (Hact (SendRequest framer_Frame set_correlation_id m h) s); [auto with keeps|..].
  - injection He as He. by apply (Hact (Close f) s); [auto with keeps|..].
  - destruct (reads s) as [|r] eqn:Hr, (batch s); try done. injection He as He.
    destruct (Hact (read_handler framer_OnData ec n) (set_reads r s)) as [? Hle]; [|done..|].
    + rw /read_handler. destruct ec; auto 10 with keeps.
    + split; [done|]. cbn in Hle. lia.
  - destruct (batch s) as [msgs|]; [|done]. injection He as He.
    apply (Hact (batch_step framer_PrepareRead correlation_id msgs) s); [|done..].
    rw /batch_step. destruct msgs; auto with keeps.
  - destruct (read_waits s) as [|w]; [done|]. injection He as He.
    by apply (Hact (Close true) (set_read_waits w s)); [auto with keeps|..].
  - destruct (idle_waits s) as [|w]; [done|]. injection He as He.
    by apply (Hact (Close true) (set_idle_waits w s)); [auto with keeps|..].
  - destruct (request_timers s !! i) as [cid|]; [|done]. injection He as He.
    by apply (Hact (request_timeout cid) (set_request_timers (delete i (request_timers s)) s));
      [auto with keeps|..].
Qed.

Lemma closed_run es : ∀ s s',
  run_ev s es = Some (Ret () s') → shutdown_ s = true →
  shutdown_ s' = true ∧ reads s' + reads_in es ≤ reads s.
Proof.
  induction es as [|e es IH]; intros s s' Hrun Hsd; simplify_eq/=; [split; [done|lia]|].
  destruct (handle_ev e s) as [o|] eqn:He; [|done].
  assert (Hend : ∃ s1, ends o s1 ∧ run_ev s1 es = Some (Ret () s')).
  { destruct o as [[] s1|x s1|u]; simplify_eq/=; by exists s1. }
  destruct Hend as (s1 & Hend & Hrun1).
  destruct (closed_step e s o s1 He Hend Hsd) as [Hsd1 Hle].
  destruct (IH s1 s' Hrun1 Hsd1) as [Hsd2 Hle2]. split; [done|].
  rw /reads_in /= -/(reads_in es). lia.
Qed.

(** A client that has been disconnected cannot be connected again: after [main]'s
    calls and any events, once the client has shut down, on its own or by [Close],
    the handler's new connection, and whatever else happens, starts no read: at
    most the reads that were pending are still handled, and when none was, no
    data is ever received again. *)
Theorem client_example_cannot_reconnect framer es1 es2 s1 s2 :
  run_ev (TcpClient_ctor framer) (main_calls ++ es1) = Some (Ret () s1) → shutdown_ s1 = true →
  run_ev s1 (on_disconnected ++ es2) = Some (Ret () s2) →
  shutdown_ s2 = true ∧ reads_in es2 ≤ reads s1.
Proof.
  intros _ Hsd Hrun. destruct (closed_run _ _ _ Hrun Hsd) as [H2 Hle]. split; [done|].
  rw /reads_in /= in Hle *. lia.
Qed.
End Reconnect.
