(* ===== verification/TcpAcceptorLoop.v ===== *)
(** * AcceptorLoop: accepting connections (tcp/tcp_acceptor_loop.h)

    Everything the loop does runs on its strand, one handler at a time in the
    order they were posted: [strand_] is the queue of handlers, and a step is a
    call from outside, a completion that asio posts, or the run of the first
    handler of the queue.

    asio's acceptor and timers are what the loop relies on: an accept that is
    pending completes with a connection or an error, or is aborted by [cancel]
    and [close], after which its completion is on its way ([aborted]); on an
    acceptor that is not open an accept fails at once; the wait of a timer ends
    when the timer expires, unless it was cancelled before.  An accept and its
    timer have a number.

    The filter, the drain callback, the framer factory, the session's [Start]
    and the controller's [RegisterSession] are user code or other components:
    computations on a world [W], which may throw.  They do not call the loop
    back.  [effects] is history: what became of each connection. *)
From S2P Require Import Prelude.

Section AcceptorLoop.
Context {Conn Endpoint W : Type}.

Definition OnAcceptFilter : Type := Endpoint → M W bool.
Definition DrainCallback : Type := bool → Z → M W ().

(** What [async_accept] gives, with what [remote_endpoint] will say of it. *)
Inductive accept_result :=
  | AcceptFailed
  | Connected (c : Conn) (remote : option Endpoint).

Inductive task :=
  | TDoAccept
  | TStop
  | TEnableDraining (enable : bool)
  | TSetDrainCallback (cb : DrainCallback)
  | TAccepted (k : nat) (r : accept_result)
  | TTimer.

(** [Unwound]: an exception destroyed the connection, before its session was started.
    [StartFailed]: an exception left the session's [Start]; the session is destroyed,
    unless [Start] had begun to read: then the handlers it started keep it.
    [Unregistered]: an exception left [RegisterSession]; the session goes on. *)
Inductive loop_effect :=
  | LoopStarted
  | SessionCreated (id : Z) (c : Conn) (remote : Endpoint)
  | ConnClosed (c : Conn)
  | ConnDropped (c : Conn)
  | Unwound (c : Conn)
  | StartFailed (id : Z) (c : Conn) (remote : Endpoint)
  | Unregistered (id : Z) (c : Conn) (remote : Endpoint).

Record AcceptorLoop := Acceptor {
  filter_ : option OnAcceptFilter;
  drain_callback_ : option DrainCallback;
  stopped_ : bool;
  draining_ : bool;
  acceptor_open : bool;
  strand_ : list task;
  next_accept : nat;
  accepts : list nat;
  aborted : list nat;
  timers : list nat;
  loop_effects : list loop_effect
}.

(** [acceptor] as it was given, open or not. *)
Definition AcceptorLoop_ctor (opened : bool) (filter : option OnAcceptFilter) : AcceptorLoop :=
  Acceptor filter None false false opened [] 0 [] [] [] [].

(** The [static] counter of [OnSessionAccepted], one for all loops, and what
    the user's code works on. *)
Record Shared := Sh { id_seq : Z; user_world : W }.

Abbreviation Loop := (AcceptorLoop * Shared)%type.
Abbreviation Act := (M Loop ()).

Definition set_strand (v : list task) (l : AcceptorLoop) : AcceptorLoop :=
  Acceptor (filter_ l) (drain_callback_ l) (stopped_ l) (draining_ l) (acceptor_open l) v
    (next_accept l) (accepts l) (aborted l) (timers l) (loop_effects l).
Definition set_draining (v : bool) (l : AcceptorLoop) : AcceptorLoop :=
  Acceptor (filter_ l) (drain_callback_ l) (stopped_ l) v (acceptor_open l) (strand_ l)
    (next_accept l) (accepts l) (aborted l) (timers l) (loop_effects l).
Definition set_drain_callback (v : option DrainCallback) (l : AcceptorLoop) : AcceptorLoop :=
  Acceptor (filter_ l) v (stopped_ l) (draining_ l) (acceptor_open l) (strand_ l)
    (next_accept l) (accepts l) (aborted l) (timers l) (loop_effects l).
Definition set_timers (v : list nat) (l : AcceptorLoop) : AcceptorLoop :=
  Acceptor (filter_ l) (drain_callback_ l) (stopped_ l) (draining_ l) (acceptor_open l)
    (strand_ l) (next_accept l) (accepts l) (aborted l) v (loop_effects l).
Definition set_pending (p a : list nat) (l : AcceptorLoop) : AcceptorLoop :=
  Acceptor (filter_ l) (drain_callback_ l) (stopped_ l) (draining_ l) (acceptor_open l)
    (strand_ l) (next_accept l) p a (timers l) (loop_effects l).
Definition add_effects (v : list loop_effect) (l : AcceptorLoop) : AcceptorLoop :=
  Acceptor (filter_ l) (drain_callback_ l) (stopped_ l) (draining_ l) (acceptor_open l)
    (strand_ l) (next_accept l) (accepts l) (aborted l) (timers l) (loop_effects l ++ v).

Definition on_loop (f : AcceptorLoop → AcceptorLoop) : Act := modify (λ st, (f st.1, st.2)).
Definition post (t : task) (l : AcceptorLoop) : AcceptorLoop := set_strand (strand_ l ++ [t]) l.
Definition log_loop (e : loop_effect) : Act := on_loop (add_effects [e]).

(** A call of the user's code. *)
Definition on_user {A} (m : M W A) : M Loop A := λ st,
  match m (user_world st.2) with
  | Ret a w => Ret a (st.1, Sh (id_seq st.2) w)
  | Throw e w => Throw e (st.1, Sh (id_seq st.2) w)
  | Undef u => Undef u
  end.

(** [if (stopped_) a else b]. *)
Definition if_stopped (a b : Act) : Act := λ st, if stopped_ st.1 then a st else b st.

Definition if_draining (a b : Act) : Act := λ st, if draining_ st.1 then a st else b st.

(** [acceptor_->cancel(ec)], and [close(ec)], which cancels too. *)
Definition acceptor_cancel (l : AcceptorLoop) : AcceptorLoop :=
  set_pending [] (aborted l ++ accepts l) l.
Definition acceptor_close (l : AcceptorLoop) : AcceptorLoop :=
  let l := acceptor_cancel l in
  Acceptor (filter_ l) (drain_callback_ l) (stopped_ l) (draining_ l) false (strand_ l)
    (next_accept l) (accepts l) (aborted l) (timers l) (loop_effects l).
Definition set_stopped (l : AcceptorLoop) : AcceptorLoop :=
  Acceptor (filter_ l) (drain_callback_ l) true (draining_ l) (acceptor_open l) (strand_ l)
    (next_accept l) (accepts l) (aborted l) (timers l) (loop_effects l).

(** [DoAccept] past its test: a new timer, [async_accept], [async_wait]. *)
Definition issue_accept (l : AcceptorLoop) : AcceptorLoop :=
  let k := next_accept l in
  Acceptor (filter_ l) (drain_callback_ l) (stopped_ l) (draining_ l) (acceptor_open l)
    (strand_ l) (S k)
    (if acceptor_open l then accepts l ++ [k] else accepts l)
    (if acceptor_open l then aborted l else aborted l ++ [k])
    (timers l ++ [k]) (loop_effects l).

Definition DoAccept : Act := if_stopped (mret ()) (on_loop issue_accept).

(** ** The handlers *)
Context (framer_factory_ : M W ()).
Context (Session_Start : Z → Conn → Endpoint → M W ()).
Context (RegisterSession : Z → Conn → M W ()).

(** [id_seq++]. *)
Definition next_id : M Loop Z := λ st,
  Ret (id_seq st.2) (st.1, Sh (add64 (id_seq st.2) 1) (user_world st.2)).

(** [acceptor_->local_endpoint()] throws when the acceptor is not open. *)
Definition local_endpoint : Act := λ st,
  if acceptor_open st.1 then Ret () st else Throw (runtime_error "local_endpoint") st.

(** What becomes of a connection when an exception leaves [m]. *)
Definition unwinding {A} (f : loop_effect) (m : M Loop A) : M Loop A :=
  catch m (λ e, log_loop f ;; throw e).

Definition OnSessionAccepted (c : Conn) (remote : Endpoint) : Act :=
  id ← next_id;
  unwinding (Unwound c) local_endpoint ;;
  unwinding (StartFailed id c remote) (on_user (Session_Start id c remote)) ;;
  unwinding (Unregistered id c remote) (on_user (RegisterSession id c)) ;;
  log_loop (SessionCreated id c remote).

Definition CreateSession (c : Conn) (remote : Endpoint) : Act :=
  unwinding (Unwound c) (on_user framer_factory_) ;; OnSessionAccepted c remote.

Definition passes_filter (remote : Endpoint) : M Loop bool := λ st,
  match filter_ st.1 with Some f => on_user (f remote) st | None => Ret true st end.

(** The handler's code for a connection. *)
Definition handle_connection (c : Conn) (remote : option Endpoint) : Act :=
  match remote with
  | None => log_loop (ConnClosed c)
  | Some ep =>
      pass ← unwinding (Unwound c) (passes_filter ep);
      if pass : bool then
        if_draining (log_loop (ConnClosed c)) (CreateSession c ep)
      else log_loop (ConnClosed c)
  end.

Definition drop_connection (r : accept_result) : Act :=
  match r with Connected c _ => log_loop (ConnDropped c) | AcceptFailed => mret () end.

(** The handler of [async_accept]; [timer->cancel()] comes first. *)
Definition accept_handler (k : nat) (r : accept_result) : Act :=
  on_loop (λ l, set_timers (filter (.≠ k) (timers l)) l) ;;
  if_stopped (drop_connection r)
    (match r with
     | AcceptFailed => mret ()
     | Connected c remote => handle_connection c remote
     end ;;
     DoAccept).

(** The handler of the timer, expired. *)
Definition timer_handler : Act := on_loop acceptor_cancel.

Definition stop_handler : Act :=
  on_loop set_stopped ;; on_loop acceptor_cancel ;; on_loop acceptor_close.

Definition call_drain_callback (enable : bool) (now : Z) : Act := λ st,
  match drain_callback_ st.1 with
  | Some cb => on_user (cb enable now) st
  | None => Ret () st
  end.

Definition drain_handler (enable : bool) (now : Z) : Act :=
  on_loop (set_draining enable) ;; call_drain_callback enable now.

Definition run_task (t : task) (now : Z) : Act :=
  match t with
  | TDoAccept => DoAccept
  | TStop => stop_handler
  | TEnableDraining enable => drain_handler enable now
  | TSetDrainCallback cb => on_loop (set_drain_callback (Some cb))
  | TAccepted k r => accept_handler k r
  | TTimer => timer_handler
  end.

(** ** Calls from outside the strand *)
Definition Start (l : AcceptorLoop) : AcceptorLoop :=
  if stopped_ l then l else post TDoAccept (add_effects [LoopStarted] l).
Definition Stop : AcceptorLoop → AcceptorLoop := post TStop.
Definition EnableDraining (enable : bool) : AcceptorLoop → AcceptorLoop :=
  post (TEnableDraining enable).
Definition SetDrainCallback (cb : DrainCallback) : AcceptorLoop → AcceptorLoop :=
  post (TSetDrainCallback cb).

Inductive event :=
  | EStart
  | EStop
  | EEnableDraining (enable : bool)
  | ESetDrainCallback (cb : DrainCallback)
  | EAccepted (k : nat) (r : accept_result)
  | EAborted (k : nat)
  | EExpired (k : nat)
  | ERun (now : Z).

(** What cannot happen is [None]. *)
Definition acceptor_step (e : event) (st : Loop) : option (outcome Loop ()) :=
  let l := st.1 in
  match e with
  | EStart => Some (Ret () (Start l, st.2))
  | EStop => Some (Ret () (Stop l, st.2))
  | EEnableDraining b => Some (Ret () (EnableDraining b l, st.2))
  | ESetDrainCallback cb => Some (Ret () (SetDrainCallback cb l, st.2))
  | EAccepted k r =>
      if decide (k ∈ accepts l) then
        Some (Ret () (post (TAccepted k r) (set_pending (filter (.≠ k) (accepts l)) (aborted l) l), st.2))
      else None
  | EAborted k =>
      if decide (k ∈ aborted l) then
        Some (Ret () (post (TAccepted k AcceptFailed)
                        (set_pending (accepts l) (filter (.≠ k) (aborted l)) l), st.2))
      else None
  | EExpired k =>
      if decide (k ∈ timers l) then
        Some (Ret () (post TTimer (set_timers (filter (.≠ k) (timers l)) l), st.2))
      else None
  | ERun now =>
      match strand_ l with
      | [] => None
      | t :: rest => Some (run_task t now (set_strand rest l, st.2))
      end
  end.

(** A run: an exception that leaves a handler leaves it to the thread that runs
    the executor. *)
Fixpoint acceptor_run (st : Loop) (es : list event) : option (outcome Loop ()) :=
  match es with
  | [] => Some (Ret () st)
  | e :: es =>
      match acceptor_step e st with
      | Some (Ret _ st') | Some (Throw _ st') => acceptor_run st' es
      | r => r
      end
  end.
End AcceptorLoop.
