(* ===== verification/TcpAcceptorTheorems.v ===== *)
(** * The accept loop over every schedule

    One accept chain per [Start], each watched by a timer, ended only by [Stop]
    or by an exception; every connection has one fate; nothing is accepted after
    [Stop] and nothing served while draining. *)
From S2P Require Import Prelude TcpAcceptorLoop.

(** [simpl] unfolds [omap] on a cons; put it back. *)
Ltac fold_omap :=
  repeat match goal with
  | H : context [@list_omap ?A ?B ?f ?l] |- _ =>
      change (@list_omap A B f l) with (@omap list list_omap A B f l) in H
  | |- context [@list_omap ?A ?B ?f ?l] =>
      change (@list_omap A B f l) with (@omap list list_omap A B f l)
  end.

Section Acceptor.
Context {Conn Endpoint W : Type}.
Context (framer_factory : M W ()) (session_start : Z → Conn → Endpoint → M W ())
  (register : Z → Conn → M W ()).
Abbreviation loop := (AcceptorLoop (Conn := Conn) (Endpoint := Endpoint) (W := W)).
Abbreviation shared := (Shared (W := W)).
Abbreviation ev := (event (Conn := Conn) (Endpoint := Endpoint) (W := W)).
Abbreviation step_ev := (acceptor_step framer_factory session_start register).
Abbreviation run_ev := (acceptor_run framer_factory session_start register).
Implicit Types (l : loop) (sh : shared) (c : Conn) (e : ev).

(** ** What a step does to the loop itself *)

(** The fate a handler gives a connection, when it returns. *)
Definition fate l c (remote : option Endpoint) (f : loop_effect) : Prop :=
  f = ConnClosed c
  ∨ ∃ id ep, remote = Some ep ∧ draining_ l = false ∧ f = SessionCreated id c ep.

Lemma on_user_cases {A} (m : M W A) l sh :
  match on_user m (l, sh) with
  | Ret _ st | Throw _ st => st.1 = l ∧ id_seq st.2 = id_seq sh
  | Undef _ => True
  end.
Proof. rw /on_user /=. by destruct (m (user_world sh)). Qed.

(** ... and when an exception leaves it. *)
Definition fell l c (remote : option Endpoint) (f : loop_effect) : Prop :=
  f = Unwound c
  ∨ ∃ id ep, remote = Some ep ∧ draining_ l = false ∧ (f = StartFailed id c ep ∨ f = Unregistered id c ep).

(** A part of the handler that leaves the loop as it is, or logs [f] and throws. *)
Lemma unwinding_cases {A} f (m : M (loop * shared) A) l sh :
  match m (l, sh) with Ret _ st | Throw _ st => st.1 = l | Undef _ => True end →
  match unwinding f m (l, sh) with
  | Ret _ st => st.1 = l | Throw _ st => st.1 = add_effects [f] l | Undef _ => True end.
Proof.
  rw /unwinding /catch. destruct (m (l, sh)) as [a st|e [l1 sh1]|u]; [done| |done].
  intros H1. by rw /= in H1 *; subst.
Qed.

Lemma on_user_keeps {A} (m : M W A) l sh :
  match on_user m (l, sh) with Ret _ st | Throw _ st => st.1 = l | Undef _ => True end.
Proof. pose proof (on_user_cases m l sh) as Hu. by destruct (on_user m (l, sh)); [apply Hu..|]. Qed.

Lemma CreateSession_cases c ep l sh :
  draining_ l = false →
  match CreateSession framer_factory session_start register c ep (l, sh) with
  | Ret _ st => ∃ id, st.1 = add_effects [SessionCreated id c ep] l
  | Throw _ st => ∃ f, fell l c (Some ep) f ∧ st.1 = add_effects [f] l
  | Undef _ => True
  end.
Proof.
  intros Hd. rw /CreateSession /OnSessionAccepted /mbind /M_bind.
  pose proof (unwinding_cases (Unwound c) _ l sh (on_user_keeps framer_factory l sh)) as H1.
  destruct (unwinding _ _ (l, sh)) as [[] [l1 sh1]|x [l1 sh1]|u];
    [|by exists (Unwound c); split; [left|]|done].
  rw /= in H1. subst l1. rw /next_id /=. set (id := id_seq sh1). set (sh2 := Sh _ _).
  assert (Hle : match local_endpoint (l, sh2) with Ret _ st | Throw _ st => st.1 = l | Undef _ => True end).
  { rw /local_endpoint /=. by destruct (acceptor_open l). }
  pose proof (unwinding_cases (Unwound c) _ l sh2 Hle) as H2.
  destruct (unwinding _ local_endpoint (l, sh2)) as [[] [l2 sh3]|x [l2 sh3]|u];
    [|by exists (Unwound c); split; [left|]|done].
  rw /= in H2. subst l2.
  pose proof (unwinding_cases (StartFailed id c ep) _ l sh3
    (on_user_keeps (session_start id c ep) l sh3)) as H3.
  destruct (unwinding _ _ (l, sh3)) as [[] [l3 sh4]|x [l3 sh4]|u];
    [|by exists (StartFailed id c ep); split; [right; exists id, ep; auto|]|done].
  rw /= in H3. subst l3.
  pose proof (unwinding_cases (Unregistered id c ep) _ l sh4 (on_user_keeps (register id c) l sh4)) as H4.
  destruct (unwinding _ _ (l, sh4)) as [[] [l4 sh5]|x [l4 sh5]|u];
    [|by exists (Unregistered id c ep); split; [right; exists id, ep; auto|]|done].
  rw /= in H4. subst l4. by eexists.
Qed.

Lemma handle_connection_cases c remote l sh :
  match handle_connection framer_factory session_start register c remote (l, sh) with
  | Ret _ st => ∃ f, fate l c remote f ∧ st.1 = add_effects [f] l
  | Throw _ st => ∃ f, fell l c remote f ∧ st.1 = add_effects [f] l
  | Undef _ => True
  end.
Proof.
  rw /handle_connection. destruct remote as [ep|]; [|by eexists; split; [left|]].
  rw /mbind /M_bind.
  assert (Hp : match passes_filter ep (l, sh) with
               | Ret _ st | Throw _ st => st.1 = l | Undef _ => True end).
  { rw /passes_filter /=. destruct (filter_ l) as [f|]; [apply on_user_keeps|done]. }
  pose proof (unwinding_cases (Unwound c) _ l sh Hp) as H1.
  destruct (unwinding _ _ (l, sh)) as [b [l1 sh1]|x [l1 sh1]|u];
    [|by exists (Unwound c); split; [left|]|done].
  rw /= in H1. subst l1. destruct b; [|by eexists; split; [left|]].
  rw /if_draining /=. destruct (draining_ l) eqn:Hd; [by eexists; split; [left|]|].
  pose proof (CreateSession_cases c ep l sh1 Hd) as Hc.
  destruct (CreateSession _ _ _ c ep (l, sh1)) as [[] st|x st|u]; [|done..].
  destruct Hc as [id Hc]. eexists. split; [|exact Hc]. right. by eexists _, _.
Qed.

(** The steps, as transitions of the loop. *)
Abbreviation popped rest l := (set_strand rest l).
Abbreviation untimed k l := (set_timers (filter (.≠ k) (timers l)) l).

Inductive loop_tr : ev → loop → loop → Prop :=
  | tr_start l : stopped_ l = false →
      loop_tr EStart l (post TDoAccept (add_effects [LoopStarted] l))
  | tr_start_stopped l : stopped_ l = true → loop_tr EStart l l
  | tr_stop l : loop_tr EStop l (post TStop l)
  | tr_drain b l : loop_tr (EEnableDraining b) l (post (TEnableDraining b) l)
  | tr_callback cb l : loop_tr (ESetDrainCallback cb) l (post (TSetDrainCallback cb) l)
  | tr_accepted k r l : k ∈ accepts l →
      loop_tr (EAccepted k r) l
        (post (TAccepted k r) (set_pending (filter (.≠ k) (accepts l)) (aborted l) l))
  | tr_aborted k l : k ∈ aborted l →
      loop_tr (EAborted k) l
        (post (TAccepted k AcceptFailed) (set_pending (accepts l) (filter (.≠ k) (aborted l)) l))
  | tr_expired k l : k ∈ timers l → loop_tr (EExpired k) l (post TTimer (untimed k l))
  | tr_do_stopped now rest l : strand_ l = TDoAccept :: rest → stopped_ l = true →
      loop_tr (ERun now) l (popped rest l)
  | tr_do now rest l : strand_ l = TDoAccept :: rest → stopped_ l = false →
      loop_tr (ERun now) l (issue_accept (popped rest l))
  | tr_handle_stopped now k r rest l : strand_ l = TAccepted k r :: rest → stopped_ l = true →
      loop_tr (ERun now) l
        (add_effects (match r with Connected c _ => [ConnDropped c] | _ => [] end)
           (untimed k (popped rest l)))
  | tr_handle_failed now k rest l :
      strand_ l = TAccepted k AcceptFailed :: rest → stopped_ l = false →
      loop_tr (ERun now) l (issue_accept (untimed k (popped rest l)))
  | tr_handle now k c remote f rest l :
      strand_ l = TAccepted k (Connected c remote) :: rest → stopped_ l = false →
      fate l c remote f →
      loop_tr (ERun now) l (issue_accept (add_effects [f] (untimed k (popped rest l))))
  | tr_unwound now k c remote f rest l :
      strand_ l = TAccepted k (Connected c remote) :: rest → stopped_ l = false →
      fell l c remote f →
      loop_tr (ERun now) l (add_effects [f] (untimed k (popped rest l)))
  | tr_timer now rest l : strand_ l = TTimer :: rest →
      loop_tr (ERun now) l (acceptor_cancel (popped rest l))
  | tr_run_stop now rest l : strand_ l = TStop :: rest →
      loop_tr (ERun now) l (acceptor_close (acceptor_cancel (set_stopped (popped rest l))))
  | tr_run_drain now b rest l : strand_ l = TEnableDraining b :: rest →
      loop_tr (ERun now) l (set_draining b (popped rest l))
  | tr_run_callback now cb rest l : strand_ l = TSetDrainCallback cb :: rest →
      loop_tr (ERun now) l (set_drain_callback (Some cb) (popped rest l)).

Lemma DoAccept_run l sh :
  DoAccept (l, sh) = Ret () (if stopped_ l then l else issue_accept l, sh).
Proof. rw /DoAccept /if_stopped /=. by destruct (stopped_ l). Qed.

Lemma accept_handler_tr now k r rest l sh :
  strand_ l = TAccepted k r :: rest →
  match accept_handler framer_factory session_start register k r (popped rest l, sh) with
  | Ret _ st | Throw _ st => loop_tr (ERun now) l st.1
  | Undef _ => True
  end.
Proof.
  intros Hq. rw /accept_handler /mbind /M_bind /on_loop /modify /if_stopped /=.
  destruct (stopped_ l) eqn:Hs.
  { destruct r as [|c remote]; rw /=; [|by apply (tr_handle_stopped now k _ rest l Hq Hs)].
    pose proof (tr_handle_stopped now k _ rest l Hq Hs) as Ht.
    by rw /add_effects app_nil_r in Ht. }
  destruct r as [|c remote].
  { rw /= DoAccept_run /= Hs. by apply tr_handle_failed. }
  pose proof (handle_connection_cases c remote (untimed k (popped rest l)) sh) as Hc.
  destruct (handle_connection _ _ _ c remote _) as [[] [l1 sh1]|x [l1 sh1]|u]; [| |done].
  - destruct Hc as (f & Hf & Hl). rw /= in Hl. subst l1. rw DoAccept_run /= Hs.
    by eapply tr_handle.
  - destruct Hc as (f & Hf & Hl). rw /= in Hl *. subst l1. by eapply tr_unwound.
Qed.

Lemma acceptor_step_tr e l sh o :
  step_ev e (l, sh) = Some o →
  match o with Ret _ st | Throw _ st => loop_tr e l st.1 | Undef _ => True end.
Proof.
  rw /acceptor_step /=. destruct e as [| |b|cb|k r|k|k|now]; intros He.
  - simplify_eq. rw /Start /=. destruct (stopped_ l) eqn:Hs; by constructor.
  - simplify_eq. constructor.
  - simplify_eq. constructor.
  - simplify_eq. constructor.
  - case_decide; simplify_eq. by constructor.
  - case_decide; simplify_eq. by constructor.
  - case_decide; simplify_eq. by constructor.
  - destruct (strand_ l) as [|t rest] eqn:Hq; [done|]. simplify_eq.
    destruct t as [| |b|cb|k r|]; rw /run_task.
    + rw DoAccept_run /=. destruct (stopped_ l) eqn:Hs; by constructor.
    + by apply tr_run_stop.
    + rw /drain_handler /mbind /M_bind /on_loop /modify /call_drain_callback /=.
      pose proof (tr_run_drain now b rest l Hq). destruct (drain_callback_ l) as [cb|]; [|done].
      pose proof (on_user_cases (cb b now) (set_draining b (popped rest l)) sh) as Hu.
      by destruct (on_user _ _) as [[] st|x st|u]; [destruct Hu as [-> _]..|].
    + by apply tr_run_callback.
    + by apply accept_handler_tr.
    + by apply tr_timer.
Qed.

(** What every transition keeps holds after every run. *)
Lemma acceptor_run_invariant (P : list ev → loop → Prop) l sh es l' sh' :
  (∀ es e l l', loop_tr e l l' → P es l → P (es ++ [e]) l') →
  P [] l → run_ev (l, sh) es = Some (Ret () (l', sh')) → P es l'.
Proof.
  intros Hstep.
  enough (Hpre : ∀ pre, P pre l → run_ev (l, sh) es = Some (Ret () (l', sh')) → P (pre ++ es) l').
  { exact (Hpre []). }
  induction es as [|e es IH] in l, sh |- *; intros pre H0 Hrun.
  { simplify_eq/=. by rw app_nil_r. }
  rw /= in Hrun. destruct (step_ev e (l, sh)) as [r|] eqn:He; [|done].
  pose proof (acceptor_step_tr e l sh r He) as Ht. rw (app_assoc pre [e] es : pre ++ e :: es = _).
  destruct r as [[] [l1 sh1]|x [l1 sh1]|u]; [| |done]; (eapply IH; [by eapply Hstep|done]).
Qed.

(** ** The invariant *)
Definition task_key (t : task (Conn := Conn) (Endpoint := Endpoint) (W := W)) : option nat :=
  match t with TAccepted k _ => Some k | _ => None end.
Definition posted_accept (t : task (Conn := Conn) (Endpoint := Endpoint) (W := W)) : option () :=
  match t with TDoAccept => Some () | _ => None end.

(** The accepts under way: waiting, aborted, or with their handler posted. *)
Definition keys l : list nat := accepts l ++ aborted l ++ omap task_key (strand_ l).

(** The accept chains: the accepts under way and the [DoAccept]s posted. *)
Definition chains l : nat := length (keys l) + length (omap posted_accept (strand_ l)).

Definition is_start (f : loop_effect (Conn := Conn) (Endpoint := Endpoint)) : option () :=
  match f with LoopStarted => Some () | _ => None end.
Definition is_unwound (f : loop_effect (Conn := Conn) (Endpoint := Endpoint)) : option Conn :=
  match f with Unwound c | StartFailed _ c _ | Unregistered _ c _ => Some c | _ => None end.
Definition started l : nat := length (omap is_start (loop_effects l)).
Definition unwound l : list Conn := omap is_unwound (loop_effects l).

(** [d]: the chains in the hands of the handler that is running. *)
Record loop_ok (d : nat) l : Prop := {
  ok_keys : NoDup (keys l);
  ok_fresh : Forall (λ k, k < next_accept l) (keys l);
  ok_chains : d + chains l + length (unwound l) ≤ started l;
  ok_running : stopped_ l = false → d + chains l + length (unwound l) = started l;
  ok_stopped : stopped_ l = true → acceptor_open l = false ∧ accepts l = [];
  ok_watched : ∀ k, k ∈ accepts l → k ∈ timers l ∨ TTimer ∈ strand_ l
}.

Lemma loop_ok_ctor opened f : loop_ok 0 (AcceptorLoop_ctor opened f).
Proof.
  split; [apply NoDup_nil_2|apply list.Forall_nil_2|done..|].
  by intros k Hk%not_elem_of_nil.
Qed.

(** Transitions that move accepts under way without starting or ending one. *)
Lemma loop_ok_move l l' :
  keys l' ≡ₚ keys l → omap posted_accept (strand_ l') = omap posted_accept (strand_ l) →
  next_accept l' = next_accept l → loop_effects l' = loop_effects l →
  (stopped_ l' = true → acceptor_open l' = false ∧ accepts l' = []) →
  (stopped_ l' = false → stopped_ l = false) →
  (∀ k, k ∈ accepts l' → k ∈ timers l' ∨ TTimer ∈ strand_ l') →
  loop_ok 0 l → loop_ok 0 l'.
Proof.
  intros Hk Hp Hn He Hs Hr Hw [H1 H2 H3 H4 H5 H6].
  assert (Hc : chains l' = chains l) by by rw /chains Hp Hk.
  split; [by rw Hk|by rw Hk Hn|by rw Hc /unwound /started He| |done..].
  intros Hs'. rw Hc /unwound /started He. auto.
Qed.

(** Posting something else than a link of a chain. *)
Lemma loop_ok_post t l :
  task_key t = None → posted_accept t = None → loop_ok 0 l → loop_ok 0 (post t l).
Proof.
  intros Hk Hp Hl. apply (loop_ok_move l); try done.
  - by rw /keys /= omap_app /= Hk app_nil_r.
  - by rw /= omap_app /= Hp app_nil_r.
  - apply Hl.
  - intros k Hk'. destruct (ok_watched _ _ Hl k Hk'); [by left|]. right. by apply elem_of_app; left.
Qed.

(** The handler of accept [k] starts to run, or a posted [DoAccept]. *)
Lemma loop_ok_pop k r rest l :
  strand_ l = TAccepted k r :: rest → loop_ok 0 l → loop_ok 1 (untimed k (popped rest l)).
Proof.
  intros Hq [H1 H2 H3 H4 H5 H6]. rw /chains in H3 H4. rw /keys Hq /= in H1 H2 H3 H4. fold_omap.
  assert (HP : accepts l ++ aborted l ++ k :: omap task_key rest
               ≡ₚ k :: accepts l ++ aborted l ++ omap task_key rest).
  { by rw !app_assoc -Permutation_middle. }
  pose proof (Permutation_length HP) as Hlen. simpl in Hlen. rw HP in H1 H2.
  apply list.NoDup_cons in H1 as [Hk H1]. apply list.Forall_cons in H2 as [_ H2].
  rw /started /unwound in H3 H4.
  split; rw /chains /keys /started /unwound /=; try done;
    [lia|intros Hs; specialize (H4 Hs); lia|].
  intros k' Hk'. destruct (H6 k' Hk') as [Ht|Ht].
  - left. apply list_elem_of_filter. split; [|done]. intros ->. apply Hk. by apply elem_of_app; left.
  - right. rw Hq in Ht. by apply elem_of_cons in Ht as [|].
Qed.

Lemma loop_ok_pop_posted rest l :
  strand_ l = TDoAccept :: rest → loop_ok 0 l → loop_ok 1 (popped rest l).
Proof.
  intros Hq [H1 H2 H3 H4 H5 H6]. rw /chains /started /unwound in H3 H4.
  rw /keys Hq /= in H1 H2 H3 H4. fold_omap.
  split; rw /chains /keys /started /unwound /=; try done;
    [lia|intros Hs; specialize (H4 Hs); lia|].
  intros k' Hk'. destruct (H6 k' Hk') as [Ht|Ht]; [by left|]. right.
  rw Hq in Ht. by apply elem_of_cons in Ht as [|].
Qed.

(** ... and ends by issuing an accept, by an exception, or after [Stop]. *)
Lemma loop_ok_issue l : stopped_ l = false → loop_ok 1 l → loop_ok 0 (issue_accept l).
Proof.
  intros Hs [H1 H2 H3 H4 H5 H6].
  assert (HP : keys (issue_accept l) ≡ₚ next_accept l :: keys l).
  { rw /keys /=. destruct (acceptor_open l).
    - by rw -app_assoc /= -Permutation_middle.
    - by rw -(app_assoc (aborted l)) /= -Permutation_middle -Permutation_middle. }
  specialize (H4 Hs). split; rw /chains ?HP /=; try congruence.
  - apply list.NoDup_cons. split; [|done]. intros Hin. rw list.Forall_forall in H2.
    specialize (H2 _ Hin). lia.
  - apply list.Forall_cons. split; [lia|]. eapply Forall_impl; [|exact H2]. simpl. lia.
  - rw /chains /started /unwound in H3 *. simpl. lia.
  - intros _. rw /chains /started /unwound in H4 *. simpl. lia.
  - intros k Hk. destruct (acceptor_open l); [apply elem_of_app in Hk as [Hk|Hk]|].
    + destruct (H6 k Hk); [left|by right]. by apply elem_of_app; left.
    + left. by apply elem_of_app; right.
    + destruct (H6 k Hk); [left|by right]. by apply elem_of_app; left.
Qed.

Lemma loop_ok_effects d fs l :
  omap is_start fs = [] → omap is_unwound fs = [] → loop_ok d l → loop_ok d (add_effects fs l).
Proof.
  intros Hf Hu [H1 H2 H3 H4 H5 H6].
  split; try done; rw /started /unwound /= !omap_app Hf Hu !app_nil_r; done.
Qed.

Lemma fell_unwound l c remote f : fell l c remote f → is_unwound f = Some c ∧ is_start f = None.
Proof. by intros [->|(id & ep & _ & _ & [->| ->])]. Qed.

Lemma loop_ok_unwound f c l :
  is_unwound f = Some c → is_start f = None → loop_ok 1 l → loop_ok 0 (add_effects [f] l).
Proof.
  intros Hfu Hfs [H1 H2 H3 H4 H5 H6].
  assert (Hu : length (unwound (add_effects [f] l)) = S (length (unwound l))).
  { rw /unwound /= omap_app /= Hfu length_app /=. lia. }
  assert (Hst : started (add_effects [f] l) = started l).
  { by rw /started /= omap_app /= Hfs app_nil_r. }
  change (chains l) with (chains (add_effects [f] l)) in H3, H4.
  split; try done; rw Hu Hst; [lia|]. intros Hs. specialize (H4 Hs). lia.
Qed.

Lemma loop_ok_end l : stopped_ l = true → loop_ok 1 l → loop_ok 0 l.
Proof. intros Hs [H1 H2 H3 H4 H5 H6]. split; try done; [lia|congruence]. Qed.

(** Accepts moved to the strand keep their keys. *)
Lemma keys_moved k (p a : list nat) :
  NoDup p → k ∈ p → filter (.≠ k) p ++ a ++ [k] ≡ₚ p ++ a.
Proof.
  intros Hnd Hk. pose proof (filter_ne_Permutation k p Hnd Hk) as HP.
  generalize dependent (filter (.≠ k) p). intros q HP. rw HP /=.
  by rw app_assoc -Permutation_cons_append.
Qed.

Lemma watched_post t l :
  loop_ok 0 l → ∀ k, k ∈ accepts l → k ∈ timers l ∨ TTimer ∈ strand_ l ++ [t].
Proof.
  intros Hl k Hk. destruct (ok_watched _ _ Hl k Hk); [by left|].
  right. by apply elem_of_app; left.
Qed.

(** A handler that is no link of a chain is popped. *)
Lemma loop_ok_popped t rest l :
  strand_ l = t :: rest → task_key t = None → posted_accept t = None → t ≠ TTimer →
  loop_ok 0 l → loop_ok 0 (popped rest l).
Proof.
  intros Hq Hk Hp Ht Hl. apply (loop_ok_move l); try done.
  - by rw /keys /= Hq /= Hk.
  - by rw /= Hq /= Hp.
  - apply Hl.
  - intros k Hin. destruct (ok_watched _ _ Hl k Hin) as [|Hw]; [by left|]. right.
    rw Hq in Hw. by apply elem_of_cons in Hw as [|].
Qed.

Lemma loop_ok_start l :
  stopped_ l = false → loop_ok 0 l → loop_ok 0 (post TDoAccept (add_effects [LoopStarted] l)).
Proof.
  intros Hs Hl. pose proof (watched_post TDoAccept l Hl) as Hw.
  destruct Hl as [H1 H2 H3 H4 H5 _]. specialize (H4 Hs).
  set l' := post _ _.
  assert (Hkeys : keys l' = keys l) by by rw /keys /= omap_app /= app_nil_r.
  assert (Hch : chains l' = S (chains l)) by (rw /chains Hkeys /= omap_app length_app /=; lia).
  assert (Hst : started l' = S (started l)) by (rw /started /= omap_app length_app /=; lia).
  assert (Hu : unwound l' = unwound l) by by rw /unwound /= omap_app app_nil_r.
  split; rw ?Hkeys ?Hch ?Hst ?Hu; try done; [lia|intros; lia].
Qed.

(** [cancel]: the accepts that wait are aborted. *)
Lemma loop_ok_cancel rest l :
  strand_ l = TTimer :: rest → loop_ok 0 l → loop_ok 0 (acceptor_cancel (popped rest l)).
Proof.
  intros Hq Hl. apply (loop_ok_move l); try done.
  - rw /keys /= Hq /= -app_assoc. apply Permutation_app_swap_app.
  - by rw /= Hq.
  - intros Hs. split; [|done]. by apply (ok_stopped _ _ Hl).
  - by intros k Hk%not_elem_of_nil.
Qed.

Lemma loop_ok_stop rest l :
  strand_ l = TStop :: rest → loop_ok 0 l →
  loop_ok 0 (acceptor_close (acceptor_cancel (set_stopped (popped rest l)))).
Proof.
  intros Hq Hl. apply (loop_ok_move l); try done.
  - rw /keys /= Hq /= app_nil_r -app_assoc. apply Permutation_app_swap_app.
  - by rw /= Hq.
  - by intros k Hk%not_elem_of_nil.
Qed.

Lemma loop_tr_ok e l l' : loop_tr e l l' → loop_ok 0 l → loop_ok 0 l'.
Proof.
  intros Ht Hl. destruct Ht as [l Hs|l Hs|l|b l|cb l|k r l Hk|k l Hk|k l Hk|now rest l Hq Hs
    |now rest l Hq Hs|now k r rest l Hq Hs|now k rest l Hq Hs|now k c remote f rest l Hq Hs Hf
    |now k c remote f rest l Hq Hs Hf|now rest l Hq|now rest l Hq|now b rest l Hq|now cb rest l Hq];
    try done; try by apply loop_ok_post.
  - by apply loop_ok_start.
  - apply (loop_ok_move l); try done.
    + pose proof (proj1 (list.NoDup_app _ _) (ok_keys _ _ Hl)) as [Hnd _].
      rw /keys /= omap_app /= (app_assoc (aborted l)). by apply keys_moved.
    + by rw /= omap_app app_nil_r.
    + intros Hs. destruct (ok_stopped _ _ Hl Hs) as [? Ha]. rw Ha in Hk.
      by apply not_elem_of_nil in Hk.
    + intros k' [_ Hk']%list_elem_of_filter. exact (watched_post _ l Hl k' Hk').
  - apply (loop_ok_move l); try done.
    + pose proof (proj1 (list.NoDup_app _ _) (ok_keys _ _ Hl)) as (_ & _ & Hnd).
      apply list.NoDup_app in Hnd as [Hnd _].
      rw /keys /= omap_app /=. apply Permutation_app; [done|]. by apply keys_moved.
    + by rw /= omap_app app_nil_r.
    + apply Hl.
    + exact (watched_post _ l Hl).
  - apply (loop_ok_move l); try done.
    + by rw /keys /= omap_app /= app_nil_r.
    + by rw /= omap_app app_nil_r.
    + apply Hl.
    + intros k' Hk'. right. apply elem_of_app. right. apply list_elem_of_here.
  - apply loop_ok_end; [done|]. by apply loop_ok_pop_posted.
  - apply loop_ok_issue; [done|]. by apply loop_ok_pop_posted.
  - apply loop_ok_end; [done|]. apply loop_ok_effects; [by destruct r..|]. by eapply loop_ok_pop.
  - apply loop_ok_issue; [done|]. by eapply loop_ok_pop.
  - apply loop_ok_issue; [done|]. destruct Hf as [->|(id & ep & _ & _ & ->)];
      (apply loop_ok_effects; [done..|by eapply loop_ok_pop]).
  - apply fell_unwound in Hf as [Hu Hst]. apply (loop_ok_unwound f c); [done..|]. by eapply loop_ok_pop.
  - by apply loop_ok_cancel.
  - by apply loop_ok_stop.
  - apply (loop_ok_move (popped rest l)); try done;
      try (apply Hl); by eapply loop_ok_popped.
  - apply (loop_ok_move (popped rest l)); try done;
      try (apply Hl); by eapply loop_ok_popped.
Qed.

(** ** Connections *)
Definition result_conn (r : accept_result (Conn := Conn) (Endpoint := Endpoint)) : option Conn :=
  match r with Connected c _ => Some c | AcceptFailed => None end.
Definition event_conn e : option Conn := match e with EAccepted _ r => result_conn r | _ => None end.
Definition task_conn (t : task (Conn := Conn) (Endpoint := Endpoint) (W := W)) : option Conn :=
  match t with TAccepted _ r => result_conn r | _ => None end.
Definition fate_conn (f : loop_effect (Conn := Conn) (Endpoint := Endpoint)) : option Conn :=
  match f with
  | LoopStarted => None
  | SessionCreated _ c _ | ConnClosed c | ConnDropped c | Unwound c
  | StartFailed _ c _ | Unregistered _ c _ => Some c
  end.

(** The connections asio gave, the ones the loop is done with, and the ones
    whose handler has not run. *)
Definition arrived (es : list ev) : list Conn := omap event_conn es.
Definition decided l : list Conn := omap fate_conn (loop_effects l).
Definition queued l : list Conn := omap task_conn (strand_ l).

Lemma arrived_snoc es e : arrived (es ++ [e]) = arrived es ++ arrived [e].
Proof. apply omap_app. Qed.

Lemma loop_tr_conns e l l' :
  loop_tr e l l' → decided l' ++ queued l' = decided l ++ queued l ++ arrived [e].
Proof.
  intros Ht. rw /decided /queued /arrived.
  destruct Ht as [l Hs|l Hs|l|b l|cb l|k r l Hk|k l Hk|k l Hk|now rest l Hq Hs
    |now rest l Hq Hs|now k r rest l Hq Hs|now k rest l Hq Hs|now k c remote f rest l Hq Hs Hf
    |now k c remote f rest l Hq Hs Hf|now rest l Hq|now rest l Hq|now b rest l Hq|now cb rest l Hq];
    rw /= ?Hq ?omap_app /= ?app_nil_r; try done.
  - destruct r as [|c remote]; rw /= -?app_assoc /= ?app_nil_r //.
  - destruct Hf as [->|(id & ep & _ & _ & ->)]; by rw /= -app_assoc.
  - destruct Hf as [->|(id & ep & _ & _ & [->| ->])]; by rw /= -app_assoc.
Qed.

(** The sessions created, registered or not, and those whose [Start] threw. *)
Definition created (f : loop_effect (Conn := Conn) (Endpoint := Endpoint)) : option Conn :=
  match f with
  | SessionCreated _ c _ | StartFailed _ c _ | Unregistered _ c _ => Some c
  | _ => None
  end.
Definition served l : list Conn := omap created (loop_effects l).

Definition drain_off (t : task (Conn := Conn) (Endpoint := Endpoint) (W := W)) : bool :=
  match t with TEnableDraining false => true | _ => false end.
Definition calls_drain_off e : bool := match e with EEnableDraining false => true | _ => false end.

(** Draining, with nothing on its way that ends it. *)
Definition drains l : Prop := draining_ l = true ∧ existsb drain_off (strand_ l) = false.

Lemma drains_tr e l l' :
  loop_tr e l l' → calls_drain_off e = false → drains l → drains l' ∧ served l' = served l.
Proof.
  intros Ht He [Hd Ho].
  destruct Ht as [l Hs|l Hs|l|b l|cb l|k r l Hk|k l Hk|k l Hk|now rest l Hq Hs
    |now rest l Hq Hs|now k r rest l Hq Hs|now k rest l Hq Hs|now k c remote f rest l Hq Hs Hf
    |now k c remote f rest l Hq Hs Hf|now rest l Hq|now rest l Hq|now b rest l Hq|now cb rest l Hq];
    try rw Hq /= in Ho; rw /drains /served /= ?existsb_app ?Ho ?Hd ?omap_app /= ?app_nil_r; try done.
  - by destruct b.
  - by destruct r; rw /= ?app_nil_r.
  - destruct Hf as [->|(id & ep & _ & Hn & ->)]; [by rw /= app_nil_r|congruence].
  - destruct Hf as [->|(id & ep & _ & Hn & _)]; [by rw /= app_nil_r|congruence].
  - destruct b; [|done]. by rw /= in Ho *.
Qed.

(** Stopped: nothing waits at the acceptor and it is closed. *)
Definition is_stopped l : Prop :=
  stopped_ l = true ∧ acceptor_open l = false ∧ accepts l = [].

Lemma stopped_tr e l l' :
  loop_tr e l l' → is_stopped l → is_stopped l' ∧ served l' = served l ∧ arrived [e] = [].
Proof.
  intros Ht (Hs & Ho & Ha).
  destruct Ht as [l Hs'|l Hs'|l|b l|cb l|k r l Hk|k l Hk|k l Hk|now rest l Hq Hs'
    |now rest l Hq Hs'|now k r rest l Hq Hs'|now k rest l Hq Hs'|now k c remote f rest l Hq Hs' Hf
    |now k c remote f rest l Hq Hs' Hf|now rest l Hq|now rest l Hq|now b rest l Hq|now cb rest l Hq];
    try congruence; rw /is_stopped /served /= ?omap_app; try done.
  - rw Ha in Hk. by apply not_elem_of_nil in Hk.
  - by destruct r; rw /= ?app_nil_r.
Qed.

(** Without a chain the loop does nothing until the next [Start]. *)
Definition is_start_call e : bool := match e with EStart => true | _ => false end.

Lemma chainless_tr e l l' :
  loop_tr e l l' → is_start_call e = false → chains l = 0 → chains l' = 0 ∧ arrived [e] = [].
Proof.
  intros Ht He Hc. rw /chains /keys !length_app in Hc.
  assert (Ha : accepts l = []) by (apply length_zero_iff_nil; lia).
  assert (Hb : aborted l = []) by (apply length_zero_iff_nil; lia).
  assert (Hk : omap task_key (strand_ l) = []) by (apply length_zero_iff_nil; lia).
  assert (Hp : omap posted_accept (strand_ l) = []) by (apply length_zero_iff_nil; lia).
  destruct Ht as [l Hs|l Hs|l|b l|cb l|k r l Hin|k l Hin|k l Hin|now rest l Hq Hs
    |now rest l Hq Hs|now k r rest l Hq Hs|now k rest l Hq Hs|now k c remote f rest l Hq Hs Hf
    |now k c remote f rest l Hq Hs Hf|now rest l Hq|now rest l Hq|now b rest l Hq|now cb rest l Hq];
    try done; try (rw Ha in Hin; by apply not_elem_of_nil in Hin);
    try (rw Hb in Hin; by apply not_elem_of_nil in Hin);
    try rw Hq /= in Hk Hp; try done; split; try done;
    rw /chains /keys /= ?Ha ?Hb ?omap_app /=; fold_omap; by rw ?Hk ?Hp.
Qed.

Lemma acceptor_run_ok opened f sh es l sh' :
  run_ev (AcceptorLoop_ctor opened f, sh) es = Some (Ret () (l, sh')) → loop_ok 0 l.
Proof.
  apply (acceptor_run_invariant (λ _, loop_ok 0)); [|apply loop_ok_ctor].
  intros _ e l1 l2 Ht Hl. by eapply loop_tr_ok.
Qed.

(** C14: one accept chain per [Start]: in every run of the loop, with any user code
    and any completions, each [Start] that found the loop running has exactly
    one [async_accept] waiting, aborted or with its handler posted, or its
    [DoAccept] posted, unless an exception left the chain's handler; no accept
    waits without a timer that will cancel it, or a cancellation posted; and
    once [Stop] has run the acceptor is closed and nothing waits at it. *)
Theorem acceptor_chains opened f sh es l sh' :
  run_ev (AcceptorLoop_ctor opened f, sh) es = Some (Ret () (l, sh')) →
  NoDup (keys l)
  ∧ (stopped_ l = false → chains l + length (unwound l) = started l)
  ∧ (∀ k, k ∈ accepts l → k ∈ timers l ∨ TTimer ∈ strand_ l)
  ∧ (stopped_ l = true → acceptor_open l = false ∧ accepts l = []).
Proof.
  intros Hrun. pose proof (acceptor_run_ok _ _ _ _ _ _ Hrun) as Hl. split_and!; apply Hl.
Qed.

(** C20: no connection is lost and none is decided twice: in every run the
    connections the acceptor gave are, in the order they came, those that became
    a session, were closed, dropped after [Stop], destroyed by an exception before their
    session was started, or left, by an exception of the session's [Start] or of
    [RegisterSession], with a session that was never registered; followed by those whose
    handler is still posted. *)
Theorem acceptor_accounts opened f sh es l sh' :
  run_ev (AcceptorLoop_ctor opened f, sh) es = Some (Ret () (l, sh')) →
  decided l ++ queued l = arrived es.
Proof.
  apply (acceptor_run_invariant (λ es l, decided l ++ queued l = arrived es)); [|done].
  intros es1 e l1 l2 Ht Hl.
  by rw (loop_tr_conns _ _ _ Ht) app_assoc Hl arrived_snoc.
Qed.

(** C26: from the moment draining is on with nothing posted that ends it, as long
    as nobody calls [EnableDraining(false)], no run creates a session, registered or not;
    and from the moment [Stop] has run no connection is accepted any more and no session
    created, whatever is called. *)
Theorem acceptor_gates l sh es l' sh' :
  run_ev (l, sh) es = Some (Ret () (l', sh')) →
  (drains l → Forall (λ e, calls_drain_off e = false) es → served l' = served l)
  ∧ (is_stopped l → served l' = served l ∧ arrived es = []).
Proof.
  intros Hrun. split.
  - intros Hd. refine (λ Hes, proj2 (_ Hes)).
    refine (acceptor_run_invariant
      (λ es l', Forall (λ e, calls_drain_off e = false) es → drains l' ∧ served l' = served l)
      _ _ _ _ _ _ _ Hrun); [|done].
    intros es1 e l1 l2 Ht IH [H1 [H2 _]%list.Forall_cons]%list.Forall_app.
    destruct (IH H1) as [Hd1 <-]. exact (drains_tr e l1 l2 Ht H2 Hd1).
  - intros Hs. refine (proj2 (_ : is_stopped l' ∧ _)).
    refine (acceptor_run_invariant
      (λ es l', is_stopped l' ∧ served l' = served l ∧ arrived es = []) _ _ _ _ _ _ _ Hrun); [|done].
    intros es1 e l1 l2 Ht (Hs1 & <- & Ha). destruct (stopped_tr _ _ _ Ht Hs1) as (? & ? & He).
    by rw arrived_snoc Ha He.
Qed.

(** C38: an exception that leaves an accept handler (from the filter, the framer
    factory, a session's [Start] or the controller) ends its chain: once every
    chain has ended that way the acceptor is still open, but no accept is
    pending and none will be, nor any connection accepted, until somebody calls
    [Start] again. *)
Theorem acceptor_exception_ends_loop opened f sh es l sh' :
  run_ev (AcceptorLoop_ctor opened f, sh) es = Some (Ret () (l, sh')) →
  stopped_ l = false → started l ≤ length (unwound l) →
  ∀ es' l' sh'', run_ev (l, sh') es' = Some (Ret () (l', sh'')) →
    Forall (λ e, is_start_call e = false) es' → chains l' = 0 ∧ arrived es' = [].
Proof.
  intros Hrun Hs Hst es' l' sh'' Hrun'.
  pose proof (ok_running _ _ (acceptor_run_ok _ _ _ _ _ _ Hrun) Hs).
  refine (acceptor_run_invariant
    (λ es l, Forall (λ e, is_start_call e = false) es → chains l = 0 ∧ arrived es = [])
    _ _ _ _ _ _ _ Hrun'); [|intros _; split; [simpl; lia|done]].
  intros es1 e l1 l2 Ht IH [H1 [H2 _]%list.Forall_cons]%list.Forall_app.
  destruct (IH H1) as [Hc Ha]. destruct (chainless_tr _ _ _ Ht H2 Hc) as [? He].
  by rw arrived_snoc Ha He.
Qed.

(** An exception of [RegisterSession] leaves the session running, by the handlers that its
    [Start] has started, with nobody to know it: the connection is neither closed nor
    registered, and its acceptor's chain is at its end. *)
Theorem unregistered_session_runs c ep l sh w1 w2 w3 x :
  filter_ l = None → draining_ l = false → acceptor_open l = true →
  framer_factory (user_world sh) = Ret () w1 →
  session_start (id_seq sh) c ep w1 = Ret () w2 → register (id_seq sh) c w2 = Throw x w3 →
  handle_connection framer_factory session_start register c (Some ep) (l, sh)
  = Throw x (add_effects [Unregistered (id_seq sh) c ep] l, Sh (add64 (id_seq sh) 1) w3).
Proof.
  intros Hf Hd Ho H1 H2 H3.
  rw /handle_connection /mbind /M_bind /unwinding /catch /passes_filter /= Hf /if_draining /= Hd.
  rw /CreateSession /OnSessionAccepted /unwinding /catch /mbind /M_bind /on_user /= H1 /=.
  by rw /local_endpoint /= Ho /= H2 /= H3.
Qed.
End Acceptor.

(** ** Witnesses *)
Section Demo.
Abbreviation ev := (event (Conn := nat) (Endpoint := nat) (W := ())).
Abbreviation loop := (AcceptorLoop (Conn := nat) (Endpoint := nat) (W := ())).

(** A filter that lets even ports in and throws on port 9. *)
Definition even_ports (ep : nat) : M () bool :=
  if decide (ep = 9) then throw (other_exception 1) else mret (Nat.even ep).

Definition demo_run (l : loop) (es : list ev) :=
  acceptor_run (mret ()) (λ _ _ _, mret ()) (λ _ _, mret ()) (l, Sh 1 ()) es.
Definition demo_loop : loop := AcceptorLoop_ctor true (Some even_ports).
Definition demo_final (es : list ev) : loop * Shared :=
  match demo_run demo_loop es with Some (Ret _ st) => st | _ => (demo_loop, Sh 0 ()) end.

(** Two connections, of which the filter takes one; then the timer of the third
    accept expires. *)
Definition demo_events : list ev :=
  [EStart; ERun 0; EAccepted 0 (Connected 70 (Some 2)); ERun 0;
   EAccepted 1 (Connected 71 (Some 3)); ERun 0; EExpired 2; ERun 0; EAborted 2; ERun 0].
Definition throwing_events : list ev :=
  [EStart; ERun 0; EAccepted 0 (Connected 70 (Some 9)); ERun 0].
Definition draining_events : list ev := [EStart; ERun 0; EEnableDraining true; ERun 5].
Definition stopping_events : list ev := [EStart; ERun 0; EStop; ERun 0].
End Demo.

Lemma acceptor_chains_witness :
  accepts (demo_final demo_events).1 = [3] ∧ chains (demo_final demo_events).1 = 1
  ∧ NoDup (keys (demo_final demo_events).1)
  ∧ (stopped_ (demo_final demo_events).1 = false →
     chains (demo_final demo_events).1 + length (unwound (demo_final demo_events).1)
     = started (demo_final demo_events).1)
  ∧ (∀ k, k ∈ accepts (demo_final demo_events).1 →
       k ∈ timers (demo_final demo_events).1 ∨ TTimer ∈ strand_ (demo_final demo_events).1)
  ∧ (stopped_ (demo_final demo_events).1 = true →
     acceptor_open (demo_final demo_events).1 = false ∧ accepts (demo_final demo_events).1 = []).
Proof.
  split; [by vm_compute|]. split; [by vm_compute|].
  apply (acceptor_chains (mret ()) (λ _ _ _, mret ()) (λ _ _, mret ()) true (Some even_ports)
           (Sh 1 ()) demo_events (demo_final demo_events).1 (demo_final demo_events).2).
  by vm_compute.
Defined.

Lemma acceptor_accounts_witness :
  decided (demo_final demo_events).1 ++ queued (demo_final demo_events).1 = arrived demo_events
  ∧ decided (demo_final demo_events).1 = [70; 71].
Proof.
  split; [|by vm_compute].
  apply (acceptor_accounts (mret ()) (λ _ _ _, mret ()) (λ _ _, mret ()) true (Some even_ports)
           (Sh 1 ()) demo_events (demo_final demo_events).1 (demo_final demo_events).2).
  by vm_compute.
Defined.

(** A connection that comes while draining, and one that was on its way when
    [Stop] ran. *)
Lemma acceptor_gates_witness :
  served (demo_final (draining_events
            ++ [EAccepted 0 (Connected 70 (Some 2)); ERun 0])).1 = []
  ∧ served (demo_final (stopping_events ++ [EAborted 0; ERun 0; EStart])).1 = [].
Proof.
  split.
  - refine (proj1 (acceptor_gates (mret ()) (λ _ _ _, mret ()) (λ _ _, mret ())
      (demo_final draining_events).1 (demo_final draining_events).2
      [EAccepted 0 (Connected 70 (Some 2)); ERun 0] _
      (demo_final (draining_events ++ [EAccepted 0 (Connected 70 (Some 2)); ERun 0])).2 _) _ _).
    + by vm_compute.
    + by vm_compute.
    + by repeat constructor.
  - refine (proj1 (proj2 (acceptor_gates (mret ()) (λ _ _ _, mret ()) (λ _ _, mret ())
      (demo_final stopping_events).1 (demo_final stopping_events).2
      [EAborted 0; ERun 0; EStart] _
      (demo_final (stopping_events ++ [EAborted 0; ERun 0; EStart])).2 _) _)).
    + by vm_compute.
    + by vm_compute.
Defined.

Lemma acceptor_exception_ends_loop_witness :
  chains (demo_final (throwing_events ++ [EEnableDraining false; ERun 0])).1 = 0
  ∧ arrived [EEnableDraining (Conn := nat) (Endpoint := nat) (W := ()) false; ERun 0] = [].
Proof.
  refine (acceptor_exception_ends_loop (mret ()) (λ _ _ _, mret ()) (λ _ _, mret ())
    true (Some even_ports) (Sh 1 ()) throwing_events (demo_final throwing_events).1
    (demo_final throwing_events).2 _ _ _ _ _
    (demo_final (throwing_events ++ [EEnableDraining false; ERun 0])).2 _ _).
  - by vm_compute.
  - by vm_compute.
  - vm_compute. lia.
  - by vm_compute.
  - by repeat constructor.
Defined.
