(* ===== verification/TcpServer.v ===== *)
(** * TcpServer: ports and their accept loops (tcp/tcp_server.h)

    The server keeps a loop per port and drives it through the interface of
    tcp/tcp_acceptor_interface.h, which is a type class here: [Start], [Stop] and
    [EnableDraining], and what a client may count on.  [AcceptorLoop] implements
    it (tcp_acceptor_loop.h).

    Every member function holds [mu_] for its whole body, but for the call of the
    controller at the end of [Stop], so a step is a call.  A loop is shared: its
    handlers keep it alive, so [loops] has every loop ever made, by number, and
    [acceptors_] maps ports to numbers.  The code makes its loops with arguments
    that no constructor of [AcceptorLoop] takes, so [make_loop] is a parameter;
    the five hooks it gives the loop have empty bodies. *)
From S2P Require Import Prelude SslContext TcpAcceptorLoop.

(** ** The interface

    [will_stop]: the loop has stopped or has a [Stop] on its way;
    [will_drain]: its mode when the calls on their way have run. *)
Class AcceptorLoopInterface (L : Type) := {
  loop_Start : L → L;
  loop_Stop : L → L;
  loop_EnableDraining : bool → L → L;
  will_stop : L → bool;
  will_drain : L → bool;
  will_stop_Start l : will_stop (loop_Start l) = will_stop l;
  will_stop_Stop l : will_stop (loop_Stop l) = true;
  will_stop_EnableDraining b l : will_stop (loop_EnableDraining b l) = will_stop l;
  will_drain_Start l : will_drain (loop_Start l) = will_drain l;
  will_drain_Stop l : will_drain (loop_Stop l) = will_drain l;
  will_drain_EnableDraining b l : will_drain (loop_EnableDraining b l) = b
}.

Create Rewrite HintDb acceptor.
#[export] Hint Rewrite @will_stop_Start @will_stop_Stop @will_stop_EnableDraining
  @will_drain_Start @will_drain_Stop @will_drain_EnableDraining : acceptor.

(** [AcceptorLoop] keeps its promises: the calls it has posted say what it will
    do. *)
Section AcceptorLoopImplements.
Context {Conn Endpoint W : Type}.
Implicit Types l : AcceptorLoop (Conn := Conn) (Endpoint := Endpoint) (W := W).

Definition is_TStop (t : task (Conn := Conn) (Endpoint := Endpoint) (W := W)) : bool :=
  match t with TStop => true | _ => false end.
Definition drain_after (b : bool) (t : task (Conn := Conn) (Endpoint := Endpoint) (W := W)) : bool :=
  match t with TEnableDraining b' => b' | _ => b end.

Definition acceptor_will_stop l : bool := stopped_ l || existsb is_TStop (strand_ l).
Definition acceptor_will_drain l : bool := foldl drain_after (draining_ l) (strand_ l).

#[export] Program Instance AcceptorLoop_AcceptorLoopInterface :
    AcceptorLoopInterface (AcceptorLoop (Conn := Conn) (Endpoint := Endpoint) (W := W)) := {
  loop_Start := Start;
  loop_Stop := Stop;
  loop_EnableDraining := EnableDraining;
  will_stop := acceptor_will_stop;
  will_drain := acceptor_will_drain
}.
Next Obligation.
  intros l. rw /acceptor_will_stop /Start. destruct (stopped_ l) eqn:Hs; [by rw Hs|].
  by rw /= Hs existsb_app orb_false_r.
Qed.
Next Obligation. intros l. by rw /acceptor_will_stop /= existsb_app /= !orb_true_r. Qed.
Next Obligation. intros b l. by rw /acceptor_will_stop /= existsb_app /= orb_false_r. Qed.
Next Obligation.
  intros l. rw /acceptor_will_drain /Start. destruct (stopped_ l); [done|]. by rw /= foldl_snoc.
Qed.
Next Obligation. intros l. by rw /acceptor_will_drain /= foldl_snoc. Qed.
Next Obligation. intros b l. by rw /acceptor_will_drain /= foldl_snoc. Qed.
End AcceptorLoopImplements.

(** ** The server *)
Section Server.
Context {L Bundle Provider Ctx W : Type} `{!AcceptorLoopInterface L}.

Record PortConfig := MkPort {
  port : Z;
  bundle : Bundle;
  tls_provider : option Provider;
  accept_timeout : Z;
  delayed_accept : bool
}.

Record TcpServer := Server {
  ports_ : list PortConfig;
  acceptors_ : gmap Z nat;
  shutting_down_ : bool;
  loops : list L;
  outside : W
}.

Definition TcpServer_ctor (w : W) : TcpServer := Server [] ∅ false [] w.

Context (stream : StreamType) (GetContext : Provider → M W Ctx).
Context (make_loop : PortConfig → option Ctx → L).
Context (ShutdownAllSessions : bool → M W ()).
(** The iteration order of the hash map. *)
Context (order : gmap Z nat → list nat).

Abbreviation Act := (M TcpServer ()).

Definition on_outside {A} (m : M W A) : M TcpServer A := λ s,
  let back w := Server (ports_ s) (acceptors_ s) (shutting_down_ s) (loops s) w in
  match m (outside s) with
  | Ret a w => Ret a (back w)
  | Throw e w => Throw e (back w)
  | Undef u => Undef u
  end.

(** A call of loop [i]. *)
Definition at_loop (f : L → L) (i : nat) (s : TcpServer) : TcpServer :=
  Server (ports_ s) (acceptors_ s) (shutting_down_ s) (alter f i (loops s)) (outside s).

Definition AddPort (p : Z) (b : Bundle) (provider : option Provider) (timeout : Z)
    (delayed : bool) : Act :=
  modify (λ s, Server (ports_ s ++ [MkPort p b provider timeout delayed]) (acceptors_ s)
                 (shutting_down_ s) (loops s) (outside s)).

Definition stop_and_erase (p : Z) (s : TcpServer) : TcpServer :=
  match acceptors_ s !! p with
  | Some i =>
      let s := at_loop loop_Stop i s in
      Server (ports_ s) (delete p (acceptors_ s)) (shutting_down_ s) (loops s) (outside s)
  | None => s
  end.

Definition RemovePort (p : Z) : Act :=
  modify (stop_and_erase p) ;;
  modify (λ s, Server (filter (λ c, port c ≠ p) (ports_ s)) (acceptors_ s) (shutting_down_ s)
                 (loops s) (outside s)).

(** The TLS context of a port, for a stream that needs one. *)
Definition port_context (cfg : PortConfig) : M TcpServer (option Ctx) :=
  if is_tls_stream_v stream then
    match tls_provider cfg with
    | None => throw (runtime_error "TLS stream requires TlsContextProvider")
    | Some p => ctx ← on_outside (GetContext p); mret (Some ctx)
    end
  else mret None.

(** [loop->EnableDraining(true)] if shutting down, [loop->Start()],
    [acceptors_[cfg.port] = loop]. *)
Definition launch (cfg : PortConfig) (ctx : option Ctx) (s : TcpServer) : TcpServer :=
  let l := make_loop cfg ctx in
  let l := if shutting_down_ s then loop_EnableDraining true l else l in
  Server (ports_ s) (<[port cfg := length (loops s)]> (acceptors_ s)) (shutting_down_ s)
    (loops s ++ [loop_Start l]) (outside s).

Definition start_port (cfg : PortConfig) : Act :=
  ctx ← port_context cfg; modify (launch cfg ctx).

Definition server_Start : Act := s ← get; for_each start_port (ports_ s).

(** A call of the loop of every port. *)
Definition at_all_loops (f : L → L) : Act :=
  modify (λ s, foldr (at_loop f) s (order (acceptors_ s))).
Definition set_shutting_down (b : bool) : Act :=
  modify (λ s, Server (ports_ s) (acceptors_ s) b (loops s) (outside s)).

Definition server_Stop (force : bool) : Act :=
  at_all_loops loop_Stop ;; set_shutting_down true ;; on_outside (ShutdownAllSessions force).

Definition EnableDrainingMode (enable : bool) : Act :=
  set_shutting_down enable ;; at_all_loops (loop_EnableDraining enable).

(** Histories. *)
Inductive server_op :=
  | SAddPort (p : Z) (b : Bundle) (provider : option Provider) (timeout : Z) (delayed : bool)
  | SRemovePort (p : Z)
  | SStart
  | SStop (force : bool)
  | SDrain (enable : bool).

Definition server_call (o : server_op) : Act :=
  match o with
  | SAddPort p b provider timeout delayed => AddPort p b provider timeout delayed
  | SRemovePort p => RemovePort p
  | SStart => server_Start
  | SStop force => server_Stop force
  | SDrain enable => EnableDrainingMode enable
  end.

(** The caller may catch what a call throws and go on. *)
Fixpoint server_run (s : TcpServer) (ops : list server_op) : outcome TcpServer () :=
  match ops with
  | [] => Ret () s
  | o :: ops =>
      match server_call o s with
      | Ret _ s | Throw _ s => server_run s ops
      | Undef u => Undef u
      end
  end.
End Server.
