(* ===== verification/TcpServerTheorems.v ===== *)
(** * What the server can still reach

    Every loop started is reached by [Stop] and follows the server's mode, if no
    port is started twice; a port started twice leaves a loop nobody can stop; a
    TLS port without a provider breaks off [Start] half way. *)
From S2P Require Import Prelude SslContext TcpAcceptorLoop TcpAcceptorTheorems TcpServer.

Section Server.
Context {L Bundle Provider Ctx W : Type} `{!AcceptorLoopInterface L}.
Abbreviation server := (TcpServer (L := L) (Bundle := Bundle) (Provider := Provider) (W := W)).
Abbreviation op := (server_op (Bundle := Bundle) (Provider := Provider)).
Context (stream : StreamType) (GetContext : Provider → M W Ctx).
Context (make_loop : PortConfig (Bundle := Bundle) (Provider := Provider) → option Ctx → L).
Context (ShutdownAllSessions : bool → M W ()) (order : gmap Z nat → list nat).
Abbreviation call := (server_call stream GetContext make_loop ShutdownAllSessions order).
Abbreviation run_ops := (server_run stream GetContext make_loop ShutdownAllSessions order).
Implicit Types (s : server) (p : Z) (i : nat) (l : L) (o : op).

(** A new loop is neither stopped nor draining; the order has each entry once. *)
Context (make_fresh : ∀ cfg ctx,
  will_stop (make_loop cfg ctx) = false ∧ will_drain (make_loop cfg ctx) = false).
Context (order_perm : ∀ m, order m ≡ₚ (map_to_list m).*2).

Record server_ok s : Prop := {
  sok_range : ∀ p i, acceptors_ s !! p = Some i → i < length (loops s);
  sok_inj : ∀ p q i, acceptors_ s !! p = Some i → acceptors_ s !! q = Some i → p = q;
  sok_drain : ∀ p i l, acceptors_ s !! p = Some i → loops s !! i = Some l →
                will_stop l = false → will_drain l = shutting_down_ s
}.

(** The loops that run on, all known to the server. *)
Definition all_reached s : Prop :=
  ∀ i l, loops s !! i = Some l → will_stop l = false → ∃ p, acceptors_ s !! p = Some i.

Lemma order_elem s i : i ∈ order (acceptors_ s) ↔ ∃ p, acceptors_ s !! p = Some i.
Proof.
  rw order_perm list_elem_of_fmap. split.
  - intros [[p j] [-> Hin%elem_of_map_to_list]]. by exists p.
  - intros [p Hp]. exists (p, i). by rw elem_of_map_to_list.
Qed.

Lemma order_NoDup s : server_ok s → NoDup (order (acceptors_ s)).
Proof.
  intros Hok. rw order_perm. apply NoDup_fmap_2_strong; [|apply NoDup_map_to_list].
  intros [p i] [q j] Hp%elem_of_map_to_list Hq%elem_of_map_to_list Heq. simpl in *. subst.
  by rw (sok_inj _ Hok p q j Hp Hq).
Qed.

(** A call of some loops changes those loops only. *)
Lemma at_loops_spec (f : L → L) js s :
  NoDup js →
  let s' := foldr (at_loop f) s js in
  ports_ s' = ports_ s ∧ acceptors_ s' = acceptors_ s ∧ shutting_down_ s' = shutting_down_ s
  ∧ outside s' = outside s ∧ length (loops s') = length (loops s)
  ∧ ∀ i, loops s' !! i = if decide (i ∈ js) then f <$> loops s !! i else loops s !! i.
Proof.
  induction js as [|j js IH]; intros Hnd.
  { done. }
  apply list.NoDup_cons in Hnd as [Hj Hnd]. destruct (IH Hnd) as (H1 & H2 & H3 & H4 & H5 & H6).
  rw /=. split_and!; [done..|by rw length_alter|]. intros i. destruct (decide (i = j)) as [->|Hne].
  - rw list_lookup_alter_eq H6 decide_False; [done|]. rw decide_True; [by left|done].
  - rw list_lookup_alter_ne; [done|]. rw H6.
    destruct (decide (i ∈ js)) as [Hin'|Hin'], (decide (i ∈ j :: js)) as [Hin|Hin]; try done.
    + by destruct Hin; right.
    + by apply elem_of_cons in Hin as [|].
Qed.

(** A step under which a server stays as it should. *)
Definition good s s' : Prop := server_ok s → server_ok s'.
#[local] Instance good_preorder : PreOrder good.
Proof. split; [by intros s H|]. intros s1 s2 s3 H1 H2 H. auto. Qed.

Lemma server_ok_ctor w : server_ok (TcpServer_ctor w).
Proof. by split. Qed.

Lemma good_same s s' :
  acceptors_ s' = acceptors_ s → loops s' = loops s → shutting_down_ s' = shutting_down_ s →
  good s s'.
Proof. intros Ha Hl Hs [H1 H2 H3]. split; rw Ha ?Hl ?Hs; done. Qed.

Lemma good_on_outside {A} (m : M W A) : keeps good (on_outside m : M server A).
Proof. intros s. rw /on_outside. destruct (m (outside s)); [by apply good_same..|done]. Qed.

Lemma good_launch cfg ctx s : good s (launch make_loop cfg ctx s).
Proof.
  intros [H1 H2 H3]. rw /launch. set l := if shutting_down_ s then _ else _.
  assert (Hl : will_drain l = shutting_down_ s).
  { rw /l. destruct (shutting_down_ s); [by autorewrite with acceptor|apply make_fresh]. }
  split; rw /=.
  - intros p i. rw length_app /= lookup_insert_Some. intros [[_ <-]|[_ Hp]]; [lia|].
    specialize (H1 p i Hp). lia.
  - intros p q i. rw !lookup_insert_Some. intros [[<- <-]|[? Hp]] [[<- Hi]|[? Hq]]; [done|..].
    + specialize (H1 q _ Hq). lia.
    + subst i. specialize (H1 p _ Hp). lia.
    + by eapply H2.
  - intros p i l'. rw lookup_insert_Some lookup_app_Some. intros [[_ <-]|[_ Hp]] [Hl'|[Hge Hl']].
    + apply lookup_lt_Some in Hl'. lia.
    + rw Nat.sub_diag /= in Hl'. injection Hl' as <-. by autorewrite with acceptor.
    + by eapply H3.
    + specialize (H1 p i Hp). lia.
Qed.

Lemma good_start_port cfg : keeps good (start_port stream GetContext make_loop cfg : M server ()).
Proof.
  apply keeps_bind; [apply _| |].
  - rw /port_context. destruct (is_tls_stream_v stream); [|apply keeps_ret, _].
    destruct (tls_provider cfg); [|apply keeps_throw, _].
    apply keeps_bind; [apply _|apply good_on_outside|intros; apply keeps_ret, _].
  - intros ctx. apply keeps_modify. intros s. apply good_launch.
Qed.

(** Calls of the server's loops. *)
Lemma good_stop_and_erase p s : good s (stop_and_erase p s).
Proof.
  intros Hok. rw /stop_and_erase. destruct (acceptors_ s !! p) as [i|] eqn:Hp; [|done].
  destruct Hok as [H1 H2 H3]. split; rw /=.
  - intros q j. rw length_alter lookup_delete_Some. intros [_ Hq]. by eapply H1.
  - intros q r j. rw !lookup_delete_Some. intros [_ Hq] [_ Hr]. by eapply H2.
  - intros q j l. rw lookup_delete_Some. intros [Hne Hq] Hl. apply (H3 q j l Hq).
    rw list_lookup_alter_ne in Hl; [|done]. intros ->. apply Hne. by eapply H2.
Qed.

Lemma good_at_all_loops (f : L → L) b s s' :
  (∀ l, will_stop l = false → will_stop (f l) = false → will_drain (f l) = b) →
  (∀ l, will_stop l = true → will_stop (f l) = true) →
  s' = foldr (at_loop f) s (order (acceptors_ s)) →
  server_ok s →
  server_ok (Server (ports_ s') (acceptors_ s') b (loops s') (outside s')).
Proof.
  intros Hf Hst -> Hok.
  destruct (at_loops_spec f _ s (order_NoDup s Hok)) as (_ & Ha & _ & _ & Hlen & Hl).
  destruct Hok as [H1 H2 H3]. split; rw /= Ha.
  - intros p i Hp. rw Hlen. by eapply H1.
  - done.
  - intros p i l Hp Hi. rw Hl decide_True in Hi; [by apply order_elem; exists p|].
    destruct (loops s !! i) as [l0|] eqn:Hl0; simplify_eq/=. intros Hws. apply Hf; [|done].
    destruct (will_stop l0) eqn:Hw; [|done]. by rw (Hst l0 Hw) in Hws.
Qed.

Abbreviation with_mode b s := (Server (ports_ s) (acceptors_ s) b (loops s) (outside s)).

Lemma at_loops_mode (f : L → L) b js s :
  foldr (at_loop f) (with_mode b s) js = with_mode b (foldr (at_loop f) s js).
Proof. induction js as [|j js IH]; [done|]. by rw /= IH. Qed.

(** The mode a call leaves. *)
Definition mode_after (b : bool) o : bool :=
  match o with SStop _ => true | SDrain b' => b' | _ => b end.

Lemma with_mode_id s : with_mode (shutting_down_ s) s = s.
Proof. by destruct s. Qed.

(** Every call but [Start], exactly. *)
Lemma server_call_ret o s :
  match o with
  | SAddPort p b pr t d =>
      call o s = Ret () (Server (ports_ s ++ [MkPort p b pr t d]) (acceptors_ s)
                           (shutting_down_ s) (loops s) (outside s))
  | SRemovePort p =>
      ∃ ps, call o s = Ret () (let s' := stop_and_erase p s in
                               Server ps (acceptors_ s') (shutting_down_ s) (loops s') (outside s))
  | SStart => True
  | SStop force =>
      match call o s with
      | Ret _ s' | Throw _ s' =>
          ∃ w, s' = let s1 := foldr (at_loop loop_Stop) s (order (acceptors_ s)) in
                    Server (ports_ s1) (acceptors_ s1) true (loops s1) w
      | Undef _ => True
      end
  | SDrain b =>
      call o s = Ret () (with_mode b
        (foldr (at_loop (loop_EnableDraining b)) s (order (acceptors_ s))))
  end.
Proof.
  destruct o as [p b pr t d|p| |force|b]; try done.
  - rw /= /RemovePort /mbind /M_bind /modify /stop_and_erase.
    destruct (acceptors_ s !! p); by eexists.
  - rw /= /server_Stop /mbind /M_bind /at_all_loops /set_shutting_down /modify /on_outside /=.
    by destruct (ShutdownAllSessions force _) as [[] w|e w|u]; [exists w..|].
  - rw /= /EnableDrainingMode /mbind /M_bind /at_all_loops /set_shutting_down /modify /=.
    by rw at_loops_mode.
Qed.

(** [Start] does not change the mode. *)
Definition same_mode s s' : Prop := shutting_down_ s' = shutting_down_ s.
#[local] Instance same_mode_preorder : PreOrder same_mode.
Proof. split; rw /same_mode; [by intros s|]. intros s1 s2 s3 H1 H2. congruence. Qed.

Lemma same_mode_start_port cfg :
  keeps same_mode (start_port stream GetContext make_loop cfg : M server ()).
Proof.
  apply keeps_bind; [apply _| |by intros ctx; apply keeps_modify].
  rw /port_context. destruct (is_tls_stream_v stream); [|apply keeps_ret, _].
  destruct (tls_provider cfg) as [pr|]; [|apply keeps_throw, _].
  apply keeps_bind; [apply _| |intros; apply keeps_ret, _].
  intros s. rw /on_outside. by destruct (GetContext pr (outside s)).
Qed.

Lemma server_call_ok o s :
  server_ok s →
  match call o s with
  | Ret _ s' | Throw _ s' => server_ok s' ∧ shutting_down_ s' = mode_after (shutting_down_ s) o
  | Undef _ => True
  end.
Proof.
  intros Hok. pose proof (server_call_ret o s) as Hc. destruct o as [p b pr t d|p| |force|b].
  - rw Hc. split; [|done]. by apply (good_same s).
  - destruct Hc as [ps ->]. split; [|done]. pose proof (good_stop_and_erase p s Hok) as Hg.
    refine (good_same _ _ _ _ _ Hg); try done. rw /= /stop_and_erase. by destruct (acceptors_ s !! p).
  - rw /= /server_Start /mbind /M_bind /get.
    pose proof (keeps_for_each good (start_port stream GetContext make_loop) (ports_ s)
                  good_start_port s) as H1.
    pose proof (keeps_for_each same_mode (start_port stream GetContext make_loop) (ports_ s)
                  same_mode_start_port s) as H2.
    destruct (for_each _ _ s); [by split; [apply H1|]..|done].
  - assert (Hs : ∀ w, server_ok (let s1 := foldr (at_loop loop_Stop) s (order (acceptors_ s)) in
                    Server (ports_ s1) (acceptors_ s1) true (loops s1) w)).
    { intros w. refine (good_same _ _ _ _ _ (good_at_all_loops loop_Stop true s _ _ _ eq_refl Hok));
        [done..| |]; intros l; by autorewrite with acceptor. }
    destruct (call (SStop force) s); [destruct Hc as [w ->]; by split..|done].
  - rw Hc. split; [|done]. apply (good_at_all_loops (loop_EnableDraining b) b s); [| |done..];
      intros l; by autorewrite with acceptor.
Qed.

(** In every history of calls a loop the server knows and that will not stop
    drains exactly when the server is in its draining mode, which is what the
    last [Stop] or [EnableDrainingMode] left: [Stop] turns it on for good, so
    ports started after a [Stop] only close what they accept until
    [EnableDrainingMode(false)]. *)
Theorem server_drain_mode w ops s :
  run_ops (TcpServer_ctor w) ops = Ret () s →
  ∀ p i l, acceptors_ s !! p = Some i → loops s !! i = Some l → will_stop l = false →
    will_drain l = foldl mode_after false ops.
Proof.
  enough (Hgen : ∀ s0, server_ok s0 → run_ops s0 ops = Ret () s →
            server_ok s ∧ shutting_down_ s = foldl mode_after (shutting_down_ s0) ops).
  { intros Hrun p i l Hp Hl Hs. destruct (Hgen _ (server_ok_ctor w) Hrun) as [Hok Hm].
    rw -Hm. by eapply sok_drain. }
  induction ops as [|o ops IH]; intros s0 Hok Hrun; simplify_eq/=; [done|].
  pose proof (server_call_ok o s0 Hok) as Hc.
  destruct (call o s0) as [[] s1|e s1|u]; [| |done];
    (destruct Hc as [Hok1 <-]; by apply IH).
Qed.

(** ** Reaching the loops *)

(** No configured port is there twice or runs already. *)
Definition start_tidy s : Prop :=
  NoDup (port <$> ports_ s) ∧ Forall (λ c, acceptors_ s !! port c = None) (ports_ s).

(** Every [Start] of the history comes to such a server. *)
Fixpoint tidy s (ops : list op) : Prop :=
  match ops with
  | [] => True
  | o :: ops =>
      (o = SStart → start_tidy s)
      ∧ match call o s with Ret _ s' | Throw _ s' => tidy s' ops | Undef _ => True end
  end.

Lemma launch_reached cfg ctx s :
  acceptors_ s !! port cfg = None → all_reached s → all_reached (launch make_loop cfg ctx s).
Proof.
  intros Hp Hall i l. rw /launch /= lookup_app_Some. intros [Hl|[Hge Hl]] Hs.
  - destruct (Hall i l Hl Hs) as [p Hpi]. exists p.
    rw lookup_insert_ne; [|done]. intros <-. congruence.
  - exists (port cfg). rw lookup_insert_eq.
    destruct (i - length (loops s)) eqn:Hi; [|done]. f_equal. lia.
Qed.

Lemma port_context_same cfg s :
  match port_context stream GetContext cfg s with
  | Ret _ s' | Throw _ s' => acceptors_ s' = acceptors_ s ∧ loops s' = loops s
  | Undef _ => True
  end.
Proof.
  rw /port_context. destruct (is_tls_stream_v stream); [|done].
  destruct (tls_provider cfg) as [pr|]; [|done].
  rw /mbind /M_bind /on_outside. by destruct (GetContext pr (outside s)).
Qed.

Lemma all_reached_same s s' :
  acceptors_ s' = acceptors_ s → loops s' = loops s → all_reached s → all_reached s'.
Proof. intros Ha Hl Hall i l. rw Ha Hl. apply Hall. Qed.

Lemma start_reached cs s :
  NoDup (port <$> cs) → Forall (λ c, acceptors_ s !! port c = None) cs → all_reached s →
  match for_each (start_port stream GetContext make_loop) cs s with
  | Ret _ s' | Throw _ s' => all_reached s'
  | Undef _ => True
  end.
Proof.
  induction cs as [|c cs IH] in s |- *; [done|]. intros Hnd Hfree Hall.
  apply list.NoDup_cons in Hnd as [Hc Hnd]. apply list.Forall_cons in Hfree as [Hf Hfree].
  rw /= /mbind /M_bind /start_port /mbind /M_bind.
  pose proof (port_context_same c s) as Hctx.
  destruct (port_context stream GetContext c s) as [ctx s1|e s1|u]; [| |done].
  - destruct Hctx as [Ha Hl]. rw /modify. apply IH; [done| |].
    + apply list.Forall_forall. intros c' Hin.
      pose proof (proj1 (list.Forall_forall _ _) Hfree c' Hin) as Hc'.
      rw /launch /= Ha lookup_insert_ne; [|exact Hc'].
      intros Heq. apply Hc. rw Heq. by apply list_elem_of_fmap_2.
    + apply launch_reached; [by rw Ha|]. by apply (all_reached_same s).
  - by apply (all_reached_same s); [apply Hctx..|].
Qed.

Lemma calls_reached (f : L → L) js s w b :
  NoDup js → (∀ l, will_stop l = true → will_stop (f l) = true) →
  all_reached s →
  all_reached (let s1 := foldr (at_loop f) s js in Server (ports_ s1) (acceptors_ s1) b (loops s1) w).
Proof.
  intros Hnd Hf Hall i l. destruct (at_loops_spec f js s Hnd) as (_ & Ha & _ & _ & _ & Hl).
  rw /= Hl Ha. case_decide; [|apply Hall].
  destruct (loops s !! i) as [l0|] eqn:Hi; [|done]. intros [= <-] Hs. apply (Hall i l0 Hi).
  destruct (will_stop l0) eqn:Hw; [|done]. by rw (Hf l0 Hw) in Hs.
Qed.

Lemma server_call_reached o s :
  server_ok s → (o = SStart → start_tidy s) → all_reached s →
  match call o s with Ret _ s' | Throw _ s' => all_reached s' | Undef _ => True end.
Proof.
  intros Hok Ht Hall. pose proof (server_call_ret o s) as Hc. destruct o as [p b pr t d|p| |force|b].
  - by rw Hc.
  - destruct Hc as [ps ->]. rw /stop_and_erase. destruct (acceptors_ s !! p) as [i|] eqn:Hp; [|done].
    intros j l. rw /=. destruct (decide (i = j)) as [<-|Hne].
    + rw list_lookup_alter_eq. destruct (loops s !! i); [|done]. intros [= <-].
      by autorewrite with acceptor.
    + rw list_lookup_alter_ne; [done|]. intros Hl Hs. destruct (Hall j l Hl Hs) as [q Hq].
      exists q. rw lookup_delete_ne; [|done]. intros <-. congruence.
  - destruct (Ht eq_refl) as [Hnd Hfree]. exact (start_reached _ s Hnd Hfree Hall).
  - assert (Hs : ∀ w, all_reached (let s1 := foldr (at_loop loop_Stop) s (order (acceptors_ s)) in
                    Server (ports_ s1) (acceptors_ s1) true (loops s1) w)).
    { intros w. apply calls_reached; [by apply order_NoDup| |done]. intros l.
      by autorewrite with acceptor. }
    by destruct (call (SStop force) s); [destruct Hc as [w ->]..|].
  - rw Hc. apply calls_reached; [by apply order_NoDup| |done]. intros l. by autorewrite with acceptor.
Qed.

Lemma server_run_reached ops s s' :
  server_ok s → tidy s ops → all_reached s → run_ops s ops = Ret () s' →
  server_ok s' ∧ all_reached s'.
Proof.
  induction ops as [|o ops IH] in s |- *; intros Hok Ht Hall Hrun; simplify_eq/=; [done|].
  destruct Ht as [Ho Ht].
  pose proof (server_call_ok o s Hok) as Hc. pose proof (server_call_reached o s Hok Ho Hall) as Hr.
  destruct (call o s) as [[] s1|e s1|u]; [| |done]; destruct Hc as [Hok1 _]; by apply (IH s1).
Qed.

Lemma stop_all_reached force s :
  server_ok s → all_reached s →
  match server_Stop ShutdownAllSessions order force s with
  | Ret _ s' | Throw _ s' => Forall (λ l, will_stop l = true) (loops s')
  | Undef _ => True
  end.
Proof.
  intros Hok Hall. pose proof (server_call_ret (SStop force) s) as Hc. rw /= in Hc.
  assert (Hs : Forall (λ l, will_stop l = true)
                 (loops (foldr (at_loop loop_Stop) s (order (acceptors_ s))))).
  { apply list.Forall_lookup. intros i l.
    destruct (at_loops_spec loop_Stop _ s (order_NoDup s Hok)) as (_ & _ & _ & _ & _ & Hl).
    rw Hl. case_decide as Hi.
    - destruct (loops s !! i); [|done]. intros [= <-]. by autorewrite with acceptor.
    - intros Hli. destruct (will_stop l) eqn:Hw; [done|]. destruct (Hall i l Hli Hw) as [p Hp].
      destruct Hi. apply order_elem. by exists p. }
  by destruct (server_Stop _ _ force s); [destruct Hc as [w ->]..|].
Qed.

(** C25: if no [Start] comes when a configured port is there twice or is running
    already, then after any history [Stop] reaches every loop ever started:
    each has stopped or has a [Stop] on its way, also when shutting the sessions
    down throws. *)
Theorem server_stop_reaches w ops s force :
  tidy (TcpServer_ctor w) ops → run_ops (TcpServer_ctor w) ops = Ret () s →
  match server_Stop ShutdownAllSessions order force s with
  | Ret _ s' | Throw _ s' => Forall (λ l, will_stop l = true) (loops s')
  | Undef _ => True
  end.
Proof.
  intros Ht Hrun.
  assert (Hnone : all_reached (TcpServer_ctor w)) by by intros i l Hl.
  destruct (server_run_reached ops _ s (server_ok_ctor w) Ht Hnone Hrun) as [Hok Hall].
  by apply stop_all_reached.
Qed.

(** ** Loops lost *)

(** Loop [i] is known under no port but [p], or under none. *)
Definition only_at p i s : Prop :=
  i < length (loops s) ∧ ∀ q, acceptors_ s !! q = Some i → q = p.
Definition lost i s : Prop := i < length (loops s) ∧ ∀ q, acceptors_ s !! q ≠ Some i.

Lemma launch_other cfg ctx i s :
  i < length (loops s) → loops (launch make_loop cfg ctx s) !! i = loops s !! i.
Proof. intros Hi. rw /launch /=. by apply lookup_app_l. Qed.

Lemma launch_only_at cfg ctx p i s :
  only_at p i s → only_at p i (launch make_loop cfg ctx s)
                  ∧ (port cfg = p ∨ lost i s → lost i (launch make_loop cfg ctx s)).
Proof.
  intros [Hi Ho]. assert (Hi' : i < length (loops (launch make_loop cfg ctx s))).
  { rw /launch /= length_app /=. lia. }
  split; [split; [done|]|intros Hp; split; [done|]]; intros q; rw /launch /= lookup_insert_Some.
  - intros [[_ Heq]|[_ Hq]]; [lia|by apply Ho].
  - intros [[_ Heq]|[Hne Hq]]; [lia|]. destruct Hp as [<-|[_ Hl]]; [|by apply (Hl q)].
    by rw (Ho q Hq) in Hne.
Qed.

Lemma lost_same i s s' :
  acceptors_ s' = acceptors_ s → loops s' = loops s → lost i s → lost i s'.
Proof. rw /lost. by intros -> ->. Qed.

Lemma start_loses p i cs s :
  only_at p i s →
  match for_each (start_port stream GetContext make_loop) cs s with
  | Ret _ s' => loops s' !! i = loops s !! i ∧ (p ∈ port <$> cs ∨ lost i s → lost i s')
  | Throw _ s' => loops s' !! i = loops s !! i ∧ (lost i s → lost i s')
  | Undef _ => True
  end.
Proof.
  induction cs as [|c cs IH] in s |- *; intros Ho.
  { split; [done|]. by intros [Hin%not_elem_of_nil|]. }
  rw /= /mbind /M_bind /start_port /mbind /M_bind.
  pose proof (port_context_same c s) as Hctx.
  destruct (port_context stream GetContext c s) as [ctx s1|e s1|u]; [| |done]; destruct Hctx as [Ha Hl].
  - assert (Ho1 : only_at p i s1) by by rw /only_at Ha Hl.
    destruct (launch_only_at c ctx p i s1 Ho1) as [Ho2 Hlost].
    specialize (IH _ Ho2). rw /modify.
    pose proof (launch_other c ctx i s1 (proj1 Ho1)) as Hsame.
    destruct (for_each _ cs _) as [[] s2|e s2|u]; [| |done]; destruct IH as [Hs2 Hlost2];
      (split; [by rw Hs2 Hsame Hl|]).
    + intros Hp. apply Hlost2. destruct Hp as [[Hp|Hp]%elem_of_cons|Hp]; [right|by left|right];
        apply Hlost; [by left|right; by apply (lost_same i s)].
    + intros Hp. apply Hlost2, Hlost. right. by apply (lost_same i s).
  - split; [by rw Hl|]. by apply lost_same.
Qed.

(** A lost loop stays lost and gets no call. *)
Lemma lost_call i o s :
  server_ok s → lost i s →
  match call o s with
  | Ret _ s' | Throw _ s' => lost i s' ∧ loops s' !! i = loops s !! i
  | Undef _ => True
  end.
Proof.
  intros Hok Hi.
  assert (Hcalls : ∀ f b w, let s1 := foldr (at_loop f) s (order (acceptors_ s)) in
     let s' := Server (ports_ s1) (acceptors_ s1) b (loops s1) w in
     lost i s' ∧ loops s' !! i = loops s !! i).
  { intros f b w. destruct (at_loops_spec f _ s (order_NoDup s Hok)) as (_ & Ha & _ & _ & Hlen & Hl).
    rw /lost /= Ha Hlen Hl. split; [exact Hi|]. rw decide_False; [|done].
    intros [q Hq]%order_elem. by apply (proj2 Hi q). }
  pose proof (server_call_ret o s) as Hc. destruct o as [p b pr t d|p| |force|b].
  - by rw Hc.
  - destruct Hc as [ps ->]. destruct Hi as [Hi Hno]. rw /stop_and_erase.
    destruct (acceptors_ s !! p) as [j|] eqn:Hp; [|done]. rw /lost /= length_alter.
    split; [split; [done|]|].
    + intros q [_ Hq]%lookup_delete_Some. by apply (Hno q).
    + rw list_lookup_alter_ne; [|done]. intros ->. by apply (Hno p).
  - assert (Ho : only_at 0 i s) by (split; [apply Hi|]; intros q Hq; by destruct (proj2 Hi q)).
    pose proof (start_loses 0 i (ports_ s) s Ho) as Hs.
    rw /= /server_Start /mbind /M_bind /get.
    destruct (for_each _ (ports_ s) s) as [[] s1|e s1|u]; [| |done]; destruct Hs as [? Hs];
      (split; [|done]); apply Hs; [by right|done].
  - destruct (call (SStop force) s); [destruct Hc as [w ->]; by apply Hcalls..|done].
  - rw Hc. by apply Hcalls.
Qed.

(** Starting a port that runs already, by a second [Start] or by a port
    configured twice, loses the loop that ran: no later call reaches it, [Stop],
    [RemovePort] and [EnableDrainingMode] included, so it goes on accepting in
    the mode it was in. *)
Theorem server_restart_orphans s p i l s1 ops s2 :
  server_ok s → acceptors_ s !! p = Some i → loops s !! i = Some l →
  p ∈ port <$> ports_ s →
  server_Start stream GetContext make_loop s = Ret () s1 → run_ops s1 ops = Ret () s2 →
  loops s2 !! i = Some l ∧ ∀ q, acceptors_ s2 !! q ≠ Some i.
Proof.
  intros Hok Hp Hl Hin Hst Hrun.
  assert (Ho : only_at p i s).
  { split; [by eapply sok_range|]. intros q Hq. by apply (sok_inj _ Hok q p i). }
  pose proof (start_loses p i (ports_ s) s Ho) as Hs.
  pose proof (server_call_ok SStart s Hok) as Hc. rw /= Hst in Hc. destruct Hc as [Hok1 _].
  rw /server_Start /mbind /M_bind /get in Hst. rw Hst in Hs. destruct Hs as [Hsame Hlost].
  specialize (Hlost (or_introl Hin)). rw Hl in Hsame. clear Hst Hok Ho Hin Hp.
  induction ops as [|o ops IH] in s1, Hok1, Hsame, Hlost, Hrun |- *; simplify_eq/=.
  { split; [done|apply Hlost]. }
  pose proof (server_call_ok o s1 Hok1) as Hc. pose proof (lost_call i o s1 Hok1 Hlost) as Hl1.
  destruct (call o s1) as [[] s3|e s3|u]; [| |done]; destruct Hc as [Hok3 _], Hl1 as [? Hs3];
    (apply (IH s3); first [done|congruence]).
Qed.

(** ** TLS *)
Definition has_context (c : PortConfig (Bundle := Bundle) (Provider := Provider)) : Prop :=
  ∃ pr, tls_provider c = Some pr ∧ ∀ w, ∃ ctx w', GetContext pr w = Ret ctx w'.

Lemma start_port_tls c s :
  has_context c →
  ∃ ctx w, start_port stream GetContext make_loop c s
           = Ret () (launch make_loop c ctx
                       (Server (ports_ s) (acceptors_ s) (shutting_down_ s) (loops s) w)).
Proof.
  intros (pr & Hpr & Hctx). destruct (Hctx (outside s)) as (ctx & w & Hg).
  rw /start_port /port_context /mbind /M_bind Hpr.
  destruct (is_tls_stream_v stream).
  - exists (Some ctx), w. by rw /mbind /M_bind /on_outside Hg.
  - exists None, (outside s). by destruct s.
Qed.

(** What the ports before the one without a provider leave. *)
Definition started_only (pre : list (PortConfig (Bundle := Bundle) (Provider := Provider))) s s' : Prop :=
  ports_ s' = ports_ s ∧ length (loops s') = length (loops s) + length pre
  ∧ (∀ p, p ∈ port <$> pre → ∃ i, acceptors_ s' !! p = Some i ∧ length (loops s) ≤ i)
  ∧ ∀ p, p ∉ port <$> pre → acceptors_ s' !! p = acceptors_ s !! p.

Lemma start_breaks pre c post s :
  is_tls_stream_v stream = true → tls_provider c = None → Forall has_context pre →
  ∃ s', for_each (start_port stream GetContext make_loop) (pre ++ c :: post) s
        = Throw (runtime_error "TLS stream requires TlsContextProvider") s'
    ∧ started_only pre s s'.
Proof.
  intros Htls Hc. induction pre as [|c' pre IH] in s |- *; intros Hpre.
  - exists s. rw /= /mbind /M_bind {1}/start_port /mbind /M_bind /port_context Htls Hc.
    split; [done|]. split_and!; [done|simpl; lia| |done]. by intros p Hp%not_elem_of_nil.
  - apply list.Forall_cons in Hpre as [Hc' Hpre].
    destruct (start_port_tls c' s Hc') as (ctx & w & Hs).
    set s1 := launch _ _ _ _ in Hs. destruct (IH s1 Hpre) as (s' & Hrun & Hp & Hlen & Hin & Hout).
    exists s'. split; [by rw /= /mbind /M_bind Hs|].
    assert (Hlen1 : length (loops s1) = S (length (loops s))).
    { rw /s1 /launch /= length_app /=. lia. }
    split_and!; [done|simpl; lia| |].
    + intros p [->|Hp']%elem_of_cons.
      * destruct (decide (port c' ∈ port <$> pre)) as [Hd|Hd].
        { destruct (Hin _ Hd) as (i & ? & ?). exists i. split; [done|lia]. }
        exists (length (loops s)). split; [|done]. rw (Hout _ Hd). apply lookup_insert_eq.
      * destruct (Hin p Hp') as (i & ? & ?). exists i. split; [done|lia].
    + intros p [Hne Hd]%not_elem_of_cons. rw (Hout p Hd). by apply lookup_insert_ne.
Qed.

(** A TLS server with a port that has no provider: [Start] throws when it
    gets there, and the ports configured before it have been started and go on
    running, each registered with a new loop, while the others have not been
    touched. *)
Theorem server_start_without_tls s pre c post :
  is_tls_stream_v stream = true → ports_ s = pre ++ c :: post → tls_provider c = None →
  Forall has_context pre →
  ∃ s', server_Start stream GetContext make_loop s
        = Throw (runtime_error "TLS stream requires TlsContextProvider") s'
    ∧ started_only pre s s'.
Proof.
  intros Htls Hp Hc Hpre. rw /server_Start /mbind /M_bind /get Hp. by apply start_breaks.
Qed.
End Server.

(** ** The accept loop's side of the promise *)
Section AcceptorStops.
Context {Conn Endpoint W : Type}.
Context (framer_factory : M W ()) (session_start : Z → Conn → Endpoint → M W ())
  (register : Z → Conn → M W ()).
Abbreviation loop := (AcceptorLoop (Conn := Conn) (Endpoint := Endpoint) (W := W)).
Abbreviation ev := (event (Conn := Conn) (Endpoint := Endpoint) (W := W)).
Implicit Types (l : loop) (e : ev).

Definition is_run e : option () := match e with ERun _ => Some () | _ => None end.

(** [Stop] comes within the next [n] handlers, or has come. *)
Definition stops_within n l : Prop :=
  is_stopped l ∨ existsb is_TStop (take n (strand_ l)) = true.

Lemma existsb_take_app {A} (f : A → bool) n (l k : list A) :
  existsb f (take n l) = true → existsb f (take n (l ++ k)) = true.
Proof. intros H. by rw take_app existsb_app H. Qed.

Lemma stops_within_tr n e l l' :
  loop_tr e l l' → stops_within n l →
  stops_within (n - length (omap is_run [e])) l'.
Proof.
  intros Ht [Hst|Hn]; [by left; eapply stopped_tr|].
  destruct Ht as [l Hs|l Hs|l|b l|cb l|k r l Hk|k l Hk|k l Hk|now rest l Hq Hs
    |now rest l Hq Hs|now k r rest l Hq Hs|now k rest l Hq Hs|now k c remote f rest l Hq Hs Hf
    |now k c remote f rest l Hq Hs Hf|now rest l Hq|now rest l Hq|now b rest l Hq|now cb rest l Hq];
    rw /= ?Nat.sub_0_r; try (right; rw /=; by try apply existsb_take_app);
    (destruct n as [|n]; [done|]; rw Hq /= in Hn; rw /= Nat.sub_0_r).
  all: try (right; done). by left.
Qed.

(** What the server's [Stop] asks for happens: from any state of a loop that
    will stop, after as many handlers as its strand has queued, in any run with
    any user code, the acceptor is closed and nothing is accepted again. *)
Theorem acceptor_stop_takes_effect l (sh : Shared (W := W)) es l' sh' :
  (stopped_ l = true → is_stopped l) → will_stop l = true →
  acceptor_run framer_factory session_start register (l, sh) es = Some (Ret () (l', sh')) →
  length (strand_ l) ≤ length (omap is_run es) → is_stopped l'.
Proof.
  intros Hl Hw Hrun Hlen.
  assert (H0 : stops_within (length (strand_ l)) l).
  { rw /= /acceptor_will_stop in Hw. apply orb_true_iff in Hw as [Hs|Hs]; [left; auto|right].
    by rw firstn_all. }
  assert (Hend : stops_within (length (strand_ l) - length (omap is_run es)) l').
  { refine (acceptor_run_invariant framer_factory session_start register
      (λ es l', stops_within (length (strand_ l) - length (omap is_run es)) l') _ _ _ _ _ _ _ Hrun).
    - intros es1 e l1 l2 Ht H1. rw omap_app length_app Nat.sub_add_distr.
      by apply (stops_within_tr _ e l1).
    - by rw Nat.sub_0_r. }
  destruct Hend as [Hend|Hend]; [done|].
  by replace (length (strand_ l) - length (omap is_run es)) with 0 in Hend by lia.
Qed.
End AcceptorStops.

(** ** Witnesses

    A server on real accept loops. *)
Section Demo.
Abbreviation loop := (AcceptorLoop (Conn := nat) (Endpoint := nat) (W := ())).
Abbreviation server := (TcpServer (L := loop) (Bundle := ()) (Provider := nat) (W := ())).
Abbreviation op := (server_op (Bundle := ()) (Provider := nat)).
Abbreviation config := (PortConfig (Bundle := ()) (Provider := nat)).

Definition demo_make_loop (c : config) (ctx : option nat) : loop := AcceptorLoop_ctor true None.
Definition demo_order (m : gmap Z nat) : list nat := (map_to_list m).*2.
Definition demo_context (p : nat) : M () nat := mret p.

Definition demo_server_run (t : StreamType) (ops : list op) : outcome server () :=
  server_run t demo_context demo_make_loop (λ _, mret ()) demo_order (TcpServer_ctor ()) ops.
Definition demo_server (t : StreamType) (ops : list op) : server :=
  match demo_server_run t ops with Ret _ s | Throw _ s => s | Undef _ => TcpServer_ctor () end.

Definition one_start : list op := [SAddPort 80 () None 10 false; SAddPort 81 () None 10 false; SStart].

Lemma demo_fresh c ctx : will_stop (demo_make_loop c ctx) = false ∧ will_drain (demo_make_loop c ctx) = false.
Proof. done. Qed.
Lemma demo_order_perm m : demo_order m ≡ₚ (map_to_list m).*2.
Proof. done. Qed.
End Demo.

(** The loop of port 80 after a [Stop] and another [Start]. *)
Lemma server_drain_mode_witness :
  match loops (demo_server OtherStream (one_start ++ [SStop false; SStart])) !! 2 with
  | Some l => will_stop l = false ∧ will_drain l = true
  | None => False
  end.
Proof.
  destruct (loops (demo_server OtherStream (one_start ++ [SStop false; SStart])) !! 2) as [l|] eqn:Hl;
    [|by vm_compute in Hl].
  assert (Hs : will_stop l = false) by (vm_compute in Hl; by injection Hl as <-).
  split; [exact Hs|].
  refine (server_drain_mode OtherStream demo_context demo_make_loop (λ _, mret ()) demo_order
    demo_fresh demo_order_perm () (one_start ++ [SStop false; SStart])
    (demo_server OtherStream (one_start ++ [SStop false; SStart])) _ 80%Z 2 l _ Hl Hs);
    by vm_compute.
Defined.

Lemma server_stop_reaches_witness :
  match server_Stop (λ _, mret ()) demo_order true (demo_server OtherStream one_start) with
  | Ret _ s' | Throw _ s' => Forall (λ l, will_stop l = true) (loops s')
  | Undef _ => True
  end.
Proof.
  apply (server_stop_reaches OtherStream demo_context demo_make_loop (λ _, mret ()) demo_order
           demo_fresh demo_order_perm () one_start).
  - do 2 (split; [done|]). split; [|by split]. intros _. split; [|by repeat constructor].
    apply (bool_decide_unpack _). by vm_compute.
  - by vm_compute.
Defined.

(** A second [Start], then [Stop]: the first loop of port 80 goes on. *)
Lemma server_restart_orphans_witness :
  ∃ l, loops (demo_server OtherStream (one_start ++ [SStart; SStop true])) !! 0 = Some l
    ∧ will_stop l = false
    ∧ ∀ q, acceptors_ (demo_server OtherStream (one_start ++ [SStart; SStop true])) !! q ≠ Some 0.
Proof.
  assert (Hok : server_ok (demo_server OtherStream one_start)).
  { pose proof (server_run_reached OtherStream demo_context demo_make_loop (λ _, mret ()) demo_order
      demo_fresh demo_order_perm one_start (TcpServer_ctor ()) (demo_server OtherStream one_start)
      (server_ok_ctor ())) as H.
    apply H; [|by intros i l Hl|by vm_compute].
    do 2 (split; [done|]). split; [|by split]. intros _. split; [|by repeat constructor].
    apply (bool_decide_unpack _). by vm_compute. }
  destruct (loops (demo_server OtherStream one_start) !! 0) as [l|] eqn:Hl; [|by vm_compute in Hl].
  exists l.
  destruct (server_restart_orphans OtherStream demo_context demo_make_loop (λ _, mret ()) demo_order
    demo_fresh demo_order_perm (demo_server OtherStream one_start) 80%Z 0 l
    (demo_server OtherStream (one_start ++ [SStart])) [SStop true]
    (demo_server OtherStream (one_start ++ [SStart; SStop true])) Hok) as [H1 H2].
  - by vm_compute.
  - exact Hl.
  - left.
  - by vm_compute.
  - by vm_compute.
  - split_and!; [exact H1| |exact H2]. vm_compute in Hl. by injection Hl as <-.
Defined.

Definition tls_ports := demo_server OtherStream
  [SAddPort 443 () (Some 5) 10 false; SAddPort 444 () None 10 false].

Lemma server_start_without_tls_witness :
  ∃ s', server_Start (SslStream OtherStream) demo_context demo_make_loop tls_ports
        = Throw (runtime_error "TLS stream requires TlsContextProvider") s'
    ∧ started_only [MkPort 443 () (Some 5) 10 false] tls_ports s'.
Proof.
  apply (server_start_without_tls (SslStream OtherStream) demo_context demo_make_loop tls_ports
           [MkPort 443 () (Some 5) 10 false] (MkPort 444 () None 10 false) []); [by vm_compute..|].
  apply list.Forall_singleton. exists 5. split; [done|]. by eexists _, _.
Defined.

(** [Stop] after two [Start]s of a loop: three handlers later nothing waits. *)
Definition two_starts : AcceptorLoop (Conn := nat) (Endpoint := nat) (W := ()) :=
  Stop (Start (Start (AcceptorLoop_ctor true None))).
Definition run_all (l : AcceptorLoop (Conn := nat) (Endpoint := nat) (W := ())) (es : list event) :=
  match acceptor_run (mret ()) (λ _ _ _, mret ()) (λ _ _, mret ()) (l, Sh 1 ()) es with
  | Some (Ret _ st) => st | _ => (l, Sh 0 ()) end.

Lemma acceptor_stop_takes_effect_witness :
  is_stopped (run_all two_starts [ERun 0; ERun 0; EAccepted 0 (Connected 7 (Some 1)); ERun 0]).1.
Proof.
  apply (acceptor_stop_takes_effect (mret ()) (λ _ _ _, mret ()) (λ _ _, mret ())
    two_starts (Sh 1 ()) [ERun 0; ERun 0; EAccepted 0 (Connected 7 (Some 1)); ERun 0] _
    (run_all two_starts [ERun 0; ERun 0; EAccepted 0 (Connected 7 (Some 1)); ERun 0]).2);
    [done|done|by vm_compute|by vm_compute].
Defined.
