(* ===== verification/Controller.v ===== *)
(** * Controller: routing between sessions and channels (controller.h)

    The controller owns the registry of sessions ([SessionManager.v]) and two
    channel managers ([Channel.v]), and runs the handlers of the channels'
    messages on its strand: [tasks_] is the strand's queue, and a step of it is
    [run_task].  A message is a shared pointer, which may be null.

    The header uses members that the classes it names do not have:
    [meta().channel] and [meta().dest_session] of a message, [meta()] of a
    session, [SessionManager::Drain], and the types of [router_] and
    [callbacks_].  They are parameters.  [router_] and [callbacks_] are private
    and nothing sets them: they are null for ever, as the constructor leaves
    them.  [self = shared_from_this()] presumes that a shared pointer owns the
    controller. *)
From S2P Require Import Prelude SessionManager TaskPool Channel.
From stdpp Require Import pretty.

Section Controller.
Context {Message Session U : Type}.

Definition Msg : Type := option Message.

(** The members of [InternalMessageMeta] and of a session's meta data that the
    controller uses, [AsyncSend], and [SessionManager::Drain]. *)
Context (meta_channel meta_dest_session : Message → option Z).
Context (set_session_channel : Z → Session → M U ()).
Context (session_AsyncSend : Session → Message → M U ()).
Context (registry_Drain : bool → M (SessionManager (S := Session) * U) ()).

(** The three public hooks. *)
Record ControllerHooks := MkControllerHooks {
  OnInbound : option (Msg → M U bool);
  OnProcess : option (Msg → M U ());
  OnOutbound : option (Msg → M U ())
}.

(** [IMessageRouter] and [ControllerCallbacks], as far as they are called. *)
Definition Router : Type := Message → M U ().
Record ControllerCallbacks := MkCallbacks {
  OnSessionConnected : Z → M U ();
  OnControllerError : Message → exn → M U ()
}.

Inductive strand_task := TProcess (m : Msg) | TOutbound (m : Msg).

Record Controller := Ctrl {
  controller_hooks : ControllerHooks;
  num_channels_ : Z;
  channel_cfg_ : ChannelConfig;
  inbound_manager_ : ChannelManager (Msg := Msg) (W := list strand_task);
  outbound_manager_ : ChannelManager (Msg := Msg) (W := list strand_task);
  session_manager_ : SessionManager (S := Session);
  router_ : option Router;
  callbacks_ : option ControllerCallbacks;
  tasks_ : list strand_task;
  user_ : U
}.

(** The constructor: the handlers of the channels post to the strand. *)
Definition HandleProcessing (m : Msg) : M (list strand_task) () := modify (λ q, q ++ [TProcess m]).
Definition HandleOutbound (m : Msg) : M (list strand_task) () := modify (λ q, q ++ [TOutbound m]).

Definition Controller_ctor (num_channels : Z) (cfg : ChannelConfig) (hooks : ControllerHooks)
    (u : U) : Controller :=
  Ctrl hooks num_channels cfg (ChannelManager_ctor cfg HandleProcessing)
    (ChannelManager_ctor cfg HandleOutbound) new_manager None None [] u.

Abbreviation Act := (M Controller ()).

Definition set_user (u : U) (c : Controller) : Controller :=
  Ctrl (controller_hooks c) (num_channels_ c) (channel_cfg_ c) (inbound_manager_ c)
    (outbound_manager_ c) (session_manager_ c) (router_ c) (callbacks_ c) (tasks_ c) u.
Definition set_inbound (v : ChannelManager) (c : Controller) : Controller :=
  Ctrl (controller_hooks c) (num_channels_ c) (channel_cfg_ c) v
    (outbound_manager_ c) (session_manager_ c) (router_ c) (callbacks_ c) (tasks_ c) (user_ c).
Definition set_outbound (v : ChannelManager) (c : Controller) : Controller :=
  Ctrl (controller_hooks c) (num_channels_ c) (channel_cfg_ c) (inbound_manager_ c)
    v (session_manager_ c) (router_ c) (callbacks_ c) (tasks_ c) (user_ c).
Definition set_registry (st : SessionManager (S := Session) * U) (c : Controller) : Controller :=
  Ctrl (controller_hooks c) (num_channels_ c) (channel_cfg_ c) (inbound_manager_ c)
    (outbound_manager_ c) st.1 (router_ c) (callbacks_ c) (tasks_ c) st.2.

(** A computation on a part of the controller. *)
Definition on_part {P A} (part : Controller → P) (put : P → Controller → Controller)
    (m : M P A) : M Controller A := λ c,
  match m (part c) with
  | Ret a p => Ret a (put p c)
  | Throw e p => Throw e (put p c)
  | Undef u => Undef u
  end.

Definition on_world {A} (m : M U A) : M Controller A := on_part user_ set_user m.
Definition on_registry {A} (m : M (SessionManager * U) A) : M Controller A :=
  on_part (λ c, (session_manager_ c, user_ c)) set_registry m.
Definition on_inbound {A} (m : M ChannelManager A) : M Controller A :=
  on_part inbound_manager_ set_inbound m.
Definition on_outbound {A} (m : M ChannelManager A) : M Controller A :=
  on_part outbound_manager_ set_outbound m.

Definition deref {A B} (p : option A) (k : A → M Controller B) : M Controller B :=
  match p with None => undef null_dereference | Some a => k a end.

(** ** Public members *)

(** [id % num_channels_] is computed in [uint64_t]. *)
Definition assign_channel (id n : Z) : M Controller Z :=
  if decide (n = 0)%Z then undef division_by_zero else mret (id `mod` n)%Z.

Definition call_connected (id : Z) : Act :=
  cb ← gets callbacks_;
  match cb with Some cb => on_world (OnSessionConnected cb id) | None => mret () end.

Definition RegisterSession (id : Z) (session : SessionPtr (S := Session)) : Act :=
  n ← gets num_channels_;
  ch ← assign_channel id n;
  deref session (λ s, on_world (set_session_channel ch s)) ;;
  on_registry (SessionManager.Add id session) ;;
  call_connected id.

(** [std::to_string(... .value_or(0))]. *)
Definition channel_key (ch : option Z) : string := pretty (Z.to_N (default 0%Z ch)).

Definition passes_inbound (m : Msg) : M Controller bool :=
  h ← gets controller_hooks;
  match OnInbound h with Some f => on_world (f m) | None => mret true end.

Definition RouteMessage (m : Msg) : Act :=
  pass ← passes_inbound m;
  if pass : bool then
    deref m (λ msg, on_inbound (Dispatch (channel_key (meta_channel msg)) m))
  else mret ().

Definition call_outbound (m : Msg) : Act :=
  h ← gets controller_hooks;
  match OnOutbound h with Some f => on_world (f m) | None => mret () end.

Definition SendResponse (m : Msg) : Act :=
  call_outbound m ;;
  deref m (λ msg, on_outbound (Dispatch (channel_key (meta_channel msg)) m)).

(** The orders of the channel maps, and which channels nobody else shares. *)
Context (order : gmap string nat → list nat) (last_owner : nat → bool).

Definition ShutdownAllSessions (force : bool) : Act :=
  on_registry (registry_Drain force) ;;
  on_inbound (ShutdownAllGraceful order last_owner) ;;
  on_outbound (ShutdownAllGraceful order last_owner).

(** ** Handlers on the strand *)

(** [catch (...) { if (callbacks_) callbacks_->OnError( *msg, ...) }]. *)
Definition report_error (m : Msg) (e : exn) : Act :=
  cb ← gets callbacks_;
  match cb with
  | Some cb => deref m (λ msg, on_world (OnControllerError cb msg e))
  | None => mret ()
  end.

Definition call_process (m : Msg) : Act :=
  h ← gets controller_hooks;
  match OnProcess h with Some f => on_world (f m) | None => mret () end.

Definition call_router (m : Msg) : Act :=
  r ← gets router_;
  match r with Some route => deref m (λ msg, on_world (route msg)) | None => mret () end.

Definition process_handler (m : Msg) : Act :=
  catch (call_process m ;; call_router m) (report_error m).

Definition send_to (s : SessionPtr (S := Session)) (msg : Message) : Act :=
  match s with Some s => on_world (session_AsyncSend s msg) | None => mret () end.

Definition outbound_handler (m : Msg) : Act :=
  catch
    (deref m (λ msg,
       s ← on_registry (Get (default 0%Z (meta_dest_session msg)));
       send_to s msg))
    (report_error m).

Definition run_strand_task (t : strand_task) : Act :=
  match t with TProcess m => process_handler m | TOutbound m => outbound_handler m end.

(** ** Histories *)
Inductive controller_op :=
  | CRegisterSession (id : Z) (session : SessionPtr (S := Session))
  | CRouteMessage (m : Msg)
  | CSendResponse (m : Msg)
  | CShutdownAllSessions (force : bool).

Definition controller_call (o : controller_op) : Act :=
  match o with
  | CRegisterSession id s => RegisterSession id s
  | CRouteMessage m => RouteMessage m
  | CSendResponse m => SendResponse m
  | CShutdownAllSessions force => ShutdownAllSessions force
  end.

Fixpoint controller_run (c : Controller) (ops : list controller_op) : outcome Controller () :=
  match ops with
  | [] => Ret () c
  | o :: ops =>
      match controller_call o c with
      | Ret _ c | Throw _ c => controller_run c ops
      | Undef u => Undef u
      end
  end.
End Controller.
