(* ===== verification/ControllerTheorems.v ===== *)
(** * What the controller delivers

    Over every history of calls: no message gets past a channel manager, the
    registry keeps the first session of every id, and what runs on the strand
    keeps its exceptions to itself. *)
From S2P Require Import Prelude SessionManager TaskPool Channel Controller.

Section ControllerTheorems.
Context {Message Session U : Type}.
Context (meta_channel meta_dest_session : Message → option Z).
Context (set_session_channel : Z → Session → M U ()).
Context (session_AsyncSend : Session → Message → M U ()).
Context (registry_Drain : bool → M (SessionManager (S := Session) * U) ()).
Context (order : gmap string nat → list nat) (last_owner : nat → bool).
Abbreviation controller := (Controller (Message := Message) (Session := Session) (U := U)).
Abbreviation op := (controller_op (Message := Message) (Session := Session)).
Abbreviation call :=
  (controller_call meta_channel set_session_channel registry_Drain order last_owner).
Abbreviation run_ops :=
  (controller_run meta_channel set_session_channel registry_Drain order last_owner).
Implicit Types (c : controller) (m : Msg (Message := Message)).

(** ** What no call changes *)

(** No channel, no router, no callbacks; the number of channels is fixed. *)
Record bare (n : Z) c : Prop := {
  bare_in : channels_ (inbound_manager_ c) = ∅;
  bare_out : channels_ (outbound_manager_ c) = ∅;
  bare_router : router_ c = None;
  bare_callbacks : callbacks_ c = None;
  bare_num : num_channels_ c = n
}.
Definition keeps_bare c c' : Prop := ∀ n, bare n c → bare n c'.
#[local] Instance keeps_bare_preorder : PreOrder keeps_bare.
Proof. split; [by intros c n H|]. intros c1 c2 c3 H1 H2 n H. auto. Qed.

Lemma bare_on_world {A} (f : M U A) : keeps keeps_bare (on_world f : M controller A).
Proof. intros c. rw /on_world /on_part. by destruct (f (user_ c)); [intros n []..|]. Qed.

Lemma bare_on_registry {A} (f : M (SessionManager * U) A) :
  keeps keeps_bare (on_registry f : M controller A).
Proof. intros c. rw /on_registry /on_part. by destruct (f _); [intros n []..|]. Qed.

Lemma bare_deref {A B} (p : option A) (k : A → M controller B) :
  (∀ a, keeps keeps_bare (k a)) → keeps keeps_bare (deref p k).
Proof. intros Hk. by destruct p; [apply Hk|]. Qed.

Hint Resolve bare_on_world bare_on_registry bare_deref : keeps.
Hint Extern 3 (PreOrder _) => typeclasses eauto : keeps.

Lemma bare_register id s : keeps keeps_bare (RegisterSession set_session_channel id s : M controller ()).
Proof.
  rw /RegisterSession /assign_channel /call_connected.
  apply keeps_bind; [auto with keeps..|]. intros n.
  apply keeps_bind; [auto with keeps| |].
  { by case_decide; [|auto with keeps]. }
  intros ch. repeat (apply keeps_bind; [auto with keeps..|intros]). destruct a1; auto with keeps.
Qed.

Lemma bare_passes m : keeps keeps_bare (passes_inbound m : M controller bool).
Proof.
  apply keeps_bind; [auto with keeps..|]. intros h. destruct (OnInbound h); auto with keeps.
Qed.

Lemma bare_call_outbound m : keeps keeps_bare (call_outbound m : M controller ()).
Proof.
  apply keeps_bind; [auto with keeps..|]. intros h. destruct (OnOutbound h); auto with keeps.
Qed.

(** A manager without channels follows a null pointer. *)
Lemma dispatch_inbound key m n c :
  bare n c → on_inbound (Dispatch key m) c = Undef null_dereference.
Proof.
  intros [Hi _ _ _ _]. by rw /on_inbound /on_part /Dispatch /GetChannel /mbind /M_bind /get /= Hi lookup_empty.
Qed.
Lemma dispatch_outbound key m n c :
  bare n c → on_outbound (Dispatch key m) c = Undef null_dereference.
Proof.
  intros [_ Ho _ _ _]. by rw /on_outbound /on_part /Dispatch /GetChannel /mbind /M_bind /get /= Ho lookup_empty.
Qed.

Lemma route_undefined m n c :
  bare n c →
  RouteMessage meta_channel m c
  = match passes_inbound m c with
    | Ret true _ => Undef null_dereference
    | Ret false c' => Ret () c'
    | Throw e c' => Throw e c'
    | Undef u => Undef u
    end.
Proof.
  intros Hc. rw /RouteMessage {1}/mbind /M_bind. pose proof (bare_passes m c) as Hp.
  destruct (passes_inbound m c) as [[] c1|e c1|u]; [|done..].
  destruct m as [msg|]; [|done]. rw /deref. apply (dispatch_inbound _ _ n). by apply Hp.
Qed.

Lemma send_undefined m n c :
  bare n c →
  SendResponse meta_channel m c
  = match call_outbound m c with
    | Ret _ _ => Undef null_dereference
    | Throw e c' => Throw e c'
    | Undef u => Undef u
    end.
Proof.
  intros Hc. rw /SendResponse {1}/mbind /M_bind. pose proof (bare_call_outbound m c) as Hp.
  destruct (call_outbound m c) as [[] c1|e c1|u]; [|done..].
  destruct m as [msg|]; [|done]. rw /deref. apply (dispatch_outbound _ _ n). by apply Hp.
Qed.

Hypothesis order_empty : order ∅ = [].

Lemma shutdown_manager (mgr : ChannelManager (Msg := Msg (Message := Message))
    (W := list (strand_task (Message := Message)))) :
  channels_ mgr = ∅ →
  ∃ mgr', ShutdownAllGraceful order last_owner mgr = Ret () mgr' ∧ channels_ mgr' = ∅.
Proof.
  intros Hm. rw /ShutdownAllGraceful /shutdown_all /mbind /M_bind /get Hm order_empty /=.
  by eexists.
Qed.

Lemma shutdown_bare n force c :
  bare n c →
  match ShutdownAllSessions registry_Drain order last_owner force c with
  | Ret _ c' | Throw _ c' => bare n c'
  | Undef _ => True
  end.
Proof.
  intros Hc. rw /ShutdownAllSessions /mbind /M_bind.
  pose proof (bare_on_registry (registry_Drain force) c) as Hd.
  destruct (on_registry (registry_Drain force) c) as [[] c1|e c1|u]; [|by apply Hd|done].
  destruct (Hd n Hc) as [Hi Ho Hr Hcb Hn]. rw /on_inbound /on_outbound /on_part.
  destruct (shutdown_manager _ Hi) as (mi & -> & Hmi).
  change (outbound_manager_ (set_inbound mi c1)) with (outbound_manager_ c1).
  by destruct (shutdown_manager _ Ho) as (mo & -> & Hmo).
Qed.

Lemma call_bare n o c :
  bare n c → match call o c with Ret _ c' | Throw _ c' => bare n c' | Undef _ => True end.
Proof.
  intros Hc. destruct o as [id s|m|m|force]; rw /controller_call.
  - pose proof (bare_register id s c) as H. destruct (RegisterSession _ id s c); [by apply H..|done].
  - rw (route_undefined m n c Hc). pose proof (bare_passes m c) as H.
    destruct (passes_inbound m c) as [[] c1|e c1|u]; [done|by apply H..|done].
  - rw (send_undefined m n c Hc). pose proof (bare_call_outbound m c) as H.
    destruct (call_outbound m c) as [[] c1|e c1|u]; [done|by apply H|done].
  - by apply shutdown_bare.
Qed.

Lemma run_bare n ops c c' : bare n c → run_ops c ops = Ret () c' → bare n c'.
Proof.
  induction ops as [|o ops IH] in c |- *; intros Hc Hrun; simplify_eq/=; [done|].
  pose proof (call_bare n o c Hc). by destruct (call o c) as [[] c1|e c1|u]; [apply (IH c1)..|].
Qed.

Lemma ctor_bare n cfg hooks u : bare n (Controller_ctor n cfg hooks u).
Proof. done. Qed.

(** C39: the controller routes nothing: after any history of registrations,
    messages and shutdowns, a message that [OnInbound] does not drop makes
    [RouteMessage] follow a null pointer, and [SendResponse] always does, unless
    the hook throws; and there is still no router to route to and nobody to tell
    of errors. *)
Theorem controller_cannot_route n cfg hooks u ops c m :
  run_ops (Controller_ctor n cfg hooks u) ops = Ret () c →
  RouteMessage meta_channel m c
  = match passes_inbound m c with
    | Ret true _ => Undef null_dereference
    | Ret false c' => Ret () c'
    | Throw e c' => Throw e c'
    | Undef u => Undef u
    end
  ∧ SendResponse meta_channel m c
    = match call_outbound m c with
      | Ret _ _ => Undef null_dereference
      | Throw e c' => Throw e c'
      | Undef u => Undef u
      end
  ∧ router_ c = None ∧ callbacks_ c = None.
Proof.
  intros Hrun. pose proof (run_bare n _ _ _ (ctor_bare n cfg hooks u) Hrun) as Hc.
  split_and!; [by eapply route_undefined|by eapply send_undefined|apply Hc..].
Qed.

(** ** The registry *)
Context (channel_set : ∀ ch s w, ∃ w', set_session_channel ch s w = Ret () w').

Lemma register_run id s c reg :
  session_manager_ c = SM false reg → callbacks_ c = None → (num_channels_ c ≠ 0)%Z →
  ∃ w, RegisterSession set_session_channel id (Some s) c
       = Ret () (set_registry (SM false (match reg !! id with Some _ => reg
                                         | None => <[id := Some s]> reg end), w) c).
Proof.
  intros Hreg Hcb Hn. rw /RegisterSession /assign_channel /mbind /M_bind /gets.
  rw decide_False; [done|]. destruct (channel_set (id `mod` num_channels_ c) s (user_ c)) as [w Hw].
  exists w. rw /= /on_world /on_part Hw /= /on_registry /on_part /= Hreg.
  rw /SessionManager.Add /locked /mbind /M_bind /get_sessions /gets /=.
  by destruct (reg !! id) as [p|]; rw /call_connected /mbind /M_bind /gets /= Hcb.
Qed.

(** With at least one channel every session registered stays: no call takes
    one out, an id keeps the first session registered under it, and the channel
    a session gets is its id modulo the number of channels, hence in range. *)
Theorem controller_registers n cfg hooks u (regs : list (Z * Session)) :
  (0 < n)%Z →
  ∃ c reg, run_ops (Controller_ctor n cfg hooks u)
             ((λ r, CRegisterSession r.1 (Some r.2)) <$> regs) = Ret () c
    ∧ session_manager_ c = SM false reg
    ∧ (∀ id, reg !! id = foldl (id_step id) None ((λ r, RAdd r.1 (Some r.2)) <$> regs))
    ∧ Forall (λ r, ∃ ch, assign_channel r.1 n c = Ret ch c ∧ (0 ≤ ch < n)%Z) regs.
Proof.
  intros Hn.
  enough (Hgen : ∀ c0 reg0, bare n c0 → session_manager_ c0 = SM false reg0 →
    ∃ c reg, run_ops c0 ((λ r, CRegisterSession r.1 (Some r.2)) <$> regs) = Ret () c
      ∧ session_manager_ c = SM false reg
      ∧ ∀ id, reg !! id = foldl (id_step id) (reg0 !! id) ((λ r, RAdd r.1 (Some r.2)) <$> regs)).
  { destruct (Hgen _ ∅ (ctor_bare n cfg hooks u) eq_refl) as (c & reg & Hrun & Hreg & Hid).
    exists c, reg. split_and!; [done..| |].
    - intros id. by rw Hid lookup_empty.
    - apply list.Forall_forall. intros r _. exists (r.1 `mod` n)%Z.
      rw /assign_channel decide_False; [lia|]. split; [done|by apply Z.mod_pos_bound]. }
  induction regs as [|[id s] regs IH]; intros c0 reg0 Hc0 Hreg0; [by exists c0, reg0|].
  destruct (register_run id s c0 reg0 Hreg0 (bare_callbacks _ _ Hc0)) as [w Hw].
  { rw (bare_num _ _ Hc0). lia. }
  pose proof (call_bare n (CRegisterSession id (Some s)) c0 Hc0) as Hc1. rw /= Hw in Hc1.
  destruct (IH _ _ Hc1 eq_refl) as (c & reg & Hrun & Hreg & Hid).
  exists c, reg. split_and!; [by rw /= Hw|done|]. intros id'. rw Hid /=. f_equal.
  case_decide as Heq.
  - subst id'. destruct (reg0 !! id) as [p|] eqn:Hp; [by rw Hp|by rw lookup_insert_eq].
  - destruct (reg0 !! id); [done|by rw lookup_insert_ne].
Qed.

(** ** The strand *)
Lemma report_error_silent m e c : callbacks_ c = None → report_error m e c = Ret () c.
Proof. intros Hcb. by rw /report_error /mbind /M_bind /gets Hcb. Qed.

(** A handler's [catch (...)] without callbacks. *)
Lemma catch_silent n (body : M controller ()) m c :
  keeps keeps_bare body → bare n c → ∀ e c', catch body (report_error m) c ≠ Throw e c'.
Proof.
  intros Hk Hc e c'. rw /catch. pose proof (Hk c) as H. destruct (body c) as [[] c1|e1 c1|u]; [done| |done].
  rw report_error_silent; [|done]. apply (bare_callbacks n). by apply H.
Qed.

Lemma bare_process m : keeps keeps_bare (call_process m ;; call_router m : M controller ()).
Proof.
  apply keeps_bind; [apply _| |intros _].
  - apply keeps_bind; [auto with keeps..|]. intros h. destruct (OnProcess h); auto with keeps.
  - apply keeps_bind; [auto with keeps..|]. intros r. destruct r; auto with keeps.
Qed.

Lemma bare_outbound m :
  keeps keeps_bare (deref m (λ msg, s ← on_registry (Get (default 0%Z (meta_dest_session msg)));
                                    send_to session_AsyncSend s msg) : M controller ()).
Proof.
  apply bare_deref. intros msg. apply keeps_bind; [auto with keeps..|]. intros s.
  rw /send_to. destruct s; auto with keeps.
Qed.

Lemma registry_get id c reg :
  session_manager_ c = SM false reg →
  on_registry (Get id) c = Ret (default None (reg !! id)) c.
Proof.
  intros Hreg. rw /on_registry /on_part /= Hreg.
  rw /Get /locked /= /mbind /M_bind /get_sessions /gets /=.
  destruct c; simpl in Hreg |- *; subst. by destruct (reg !! id).
Qed.

(** Nothing escapes a handler of the strand, and a message goes where it is
    addressed: on a controller as its constructor and any calls leave it, a
    handler never throws; an outbound message is sent to the session registered
    under its [dest_session] (0 if it has none) and to no other, and is dropped
    without a word when there is none or when sending throws. *)
Theorem controller_handlers_contain n cfg hooks u ops c :
  run_ops (Controller_ctor n cfg hooks u) ops = Ret () c →
  (∀ t e c', run_strand_task meta_dest_session session_AsyncSend t c ≠ Throw e c')
  ∧ ∀ reg msg, session_manager_ c = SM false reg →
      outbound_handler meta_dest_session session_AsyncSend (Some msg) c
      = match reg !! default 0%Z (meta_dest_session msg) with
        | Some (Some s) =>
            match session_AsyncSend s msg (user_ c) with
            | Ret _ w | Throw _ w => Ret () (set_user w c)
            | Undef u => Undef u
            end
        | _ => Ret () c
        end.
Proof.
  intros Hrun. pose proof (run_bare n _ _ _ (ctor_bare n cfg hooks u) Hrun) as Hc. split.
  - intros [m|m]; (eapply catch_silent; [|exact Hc]); [apply bare_process|apply bare_outbound].
  - intros reg msg Hreg. rw /outbound_handler /catch /= /mbind /M_bind (registry_get _ _ _ Hreg).
    destruct (reg !! _) as [[s|]|]; [|done..].
    rw /= /on_world /on_part. destruct (session_AsyncSend s msg (user_ c)) as [[] w|e w|ub]; [done| |done].
    apply report_error_silent. apply Hc.
Qed.
End ControllerTheorems.

(** ** Witnesses: sessions and messages that are numbers; the user's world is
    the log of channel assignments and sends. *)
Section Demo.
Abbreviation world := (list (Z * Z)).

Definition channel_order (m : gmap string nat) : list nat := (map_to_list m).*2.
Lemma channel_order_empty : channel_order ∅ = [].
Proof. done. Qed.

Definition log_pair (a b : Z) : M world () := modify (λ l, l ++ [(a, b)]).
Definition demo_hooks : ControllerHooks (Message := Z) (U := world) :=
  MkControllerHooks (Some (λ m, mret (bool_decide (m ≠ Some 0%Z)))) None None.
Definition demo_ctor : Controller (Message := Z) (Session := Z) (U := world) :=
  Controller_ctor 4 (ChanCfg "c" (default_cfg 1 FIFO)) demo_hooks [].
Definition demo_run (ops : list (controller_op (Message := Z) (Session := Z))) :=
  controller_run (λ m, Some m) log_pair (λ _, mret ()) channel_order (λ _, true)
    demo_ctor ops.
Definition demo_state (ops : list (controller_op (Message := Z) (Session := Z))) :=
  match demo_run ops with Ret _ c | Throw _ c => c | Undef _ => demo_ctor end.
Definition demo_ops : list (controller_op (Message := Z) (Session := Z)) :=
  [CRegisterSession 7 (Some 70%Z); CRouteMessage (Some 0%Z); CShutdownAllSessions false].
End Demo.

(** Message 0 is dropped by [OnInbound]; message 5 is not. *)
Lemma controller_cannot_route_witness :
  RouteMessage (λ m, Some m) (Some 5%Z) (demo_state demo_ops) = Undef null_dereference.
Proof.
  refine (eq_trans (proj1 (controller_cannot_route (λ m, Some m) log_pair (λ _, mret ())
    channel_order (λ _, true) channel_order_empty 4 (ChanCfg "c" (default_cfg 1 FIFO)) demo_hooks []
    demo_ops (demo_state demo_ops) (Some 5%Z) _)) _); by vm_compute.
Defined.

Lemma controller_registers_witness :
  ∃ c reg, demo_run ((λ r, CRegisterSession r.1 (Some r.2)) <$> [(1%Z, 10%Z); (6%Z, 60%Z); (1%Z, 11%Z)])
           = Ret () c
    ∧ session_manager_ c = SM false reg
    ∧ (∀ id, reg !! id = foldl (id_step id) None
         ((λ r, RAdd r.1 (Some r.2)) <$> [(1%Z, 10%Z); (6%Z, 60%Z); (1%Z, 11%Z)]))
    ∧ Forall (λ r, ∃ ch, assign_channel r.1 4 c = Ret ch c ∧ (0 ≤ ch < 4)%Z)
        [(1%Z, 10%Z); (6%Z, 60%Z); (1%Z, 11%Z)].
Proof.
  apply (controller_registers (λ m, Some m) log_pair (λ _, mret ())
    channel_order (λ _, true) channel_order_empty); [|done].
  intros ch s w. by eexists.
Defined.

Lemma controller_handlers_contain_witness :
  (∀ t e c', run_strand_task (λ _, Some 7%Z) log_pair t (demo_state demo_ops) ≠ Throw e c')
  ∧ outbound_handler (λ _, Some 7%Z) log_pair (Some 5%Z) (demo_state demo_ops)
    = Ret () (set_user (user_ (demo_state demo_ops) ++ [(70%Z, 5%Z)]) (demo_state demo_ops)).
Proof.
  destruct (controller_handlers_contain (λ m, Some m) (λ _, Some 7%Z) log_pair log_pair
    (λ _, mret ()) channel_order (λ _, true) channel_order_empty 4
    (ChanCfg "c" (default_cfg 1 FIFO)) demo_hooks [] demo_ops (demo_state demo_ops)) as [H1 H2].
  { by vm_compute. }
  split; [exact H1|]. refine (eq_trans (H2 {[7%Z := Some 70%Z]} 5%Z _) _); by vm_compute.
Defined.
