(* ===== verification/LogAdapter.v ===== *)
(** * LogAdapter: asynchronous logging (log/log_adapter.h)

    An interleaving model, as for the worker pool: the worker thread, the threads
    that log, the threads that register callbacks and the one that destroys the
    adapter are program counters, and a step runs one of them up to the end of
    its next access to shared state.  A critical section of [queue_mu_] is one
    step: the sections touch the queue and atomics only and never block but in
    the worker's wait, which ends its section.  The raising of
    [high_water_mark_], under the lock, belongs to its section.

    The user's callbacks are computations on a world [W]; a call is one step.
    [jitter_of] is [static_cast<int64_t>(base * jitter_fraction_)], a function of
    the base, [None] where the product fits no [int64_t].  The clock and [absl::FormatTime] are given;
    a thread's id is the number [std::hash] makes of it, the worker's own is 0.  [pushed] and
    [delivered] are history: what entered the queue, and what every callback, or
    the default, has been given. *)
From S2P Require Import Prelude.
From stdpp Require Import pretty.

(** ** Levels *)
Inductive LogLevel :=
  | Trace | Debug | Info | Notice | Warning | Error | Critical | Alert | Emergency.

#[export] Instance LogLevel_eq_dec : EqDecision LogLevel.
Proof. solve_decision. Defined.

Definition LogLevel_value (l : LogLevel) : Z :=
  match l with
  | Trace => 0 | Debug => 1 | Info => 2 | Notice => 3 | Warning => 4 | Error => 5
  | Critical => 6 | Alert => 7 | Emergency => 8
  end.

Definition kNames : list string :=
  ["TRACE"; "DEBUG"; "INFO"; "NOTICE"; "WARNING"; "ERROR"; "CRITICAL"; "ALERT"; "EMERGENCY"].

(** The enumeration's value as a [size_t]: a value outside the enumeration has
    no name. *)
Definition ToString (value : Z) : string :=
  let i := u64 value in
  if (i <? Z.of_nat (length kNames))%Z then default EmptyString (kNames !! Z.to_nat i) else "UNKNOWN".

Record LogMessage := LogMsg {
  logger_id : string;
  level : LogLevel;
  timestamp : Z;
  thread_id : N;
  message : string
}.

Definition endl : string := String (Ascii.ascii_of_nat 10) EmptyString.

Section LogAdapter.
Context {W : Type} (format_time : Z → string) (logger_id_ : string).

Definition Callback : Type := LogMessage → M W ().

(** [jitter_of base]: the product cut to an integer, when it has one. *)
Record LogConfig := LogCfg {
  max_queue_size_ : Z;
  backpressure_threshold_ : Z;
  backoff_duration_ms_ : Z;
  jitter_of : Z → option Z;
  drop_notification_interval_ms_ : Z;
  shutdown_timeout_ms_ : Z
}.

(** A thread in [Enqueue]. *)
Inductive lpc :=
  | LIdle
  | LSize (lm : LogMessage)
  | LCheck (lm : LogMessage) (sz : nat)
  | LDrop
  | LThreshold (lm : LogMessage) (sz : nat)
  | LBackoff (lm : LogMessage)
  | LPush (lm : LogMessage)
  | LSignal.

(** The worker in [ProcessLoop]; [final]: past the loop. *)
Inductive lwpc :=
  | PTop
  | PAsleep
  | PWoken
  | PBatch (batch : list LogMessage) (final : bool)
  | PCall (lm : LogMessage) (cbs : list (option Callback)) (batch : list LogMessage) (final : bool)
  | PDrops (final : bool)
  | PNotify (d : Z) (final : bool)
  | PFinal
  | PStopping
  | PDone.

(** A thread in [RegisterCallback]: [old_ptr] and [*new_ptr]. *)
Inductive rpc :=
  | RIdle
  | RCas (old : nat) (vec : list (option Callback)).

Inductive ldpc :=
  | DLive
  | DStart
  | DWait (start : Z)
  | DDecide
  | DJoin
  | DDead.

(** [callbacks_]: null, or a vector with its identity; an entry [None] is an
    empty [std::function]. *)
Record LogAdapter := Adapter {
  config : LogConfig;
  running_ : bool;
  stopped_ : bool;
  queue_ : list LogMessage;
  dropped_messages_ : Z;
  high_water_mark_ : Z;
  callbacks_ : option (nat * list (option Callback));
  next_vector : nat;
  last_drop_notification_ : Z;
  error_buffer_ : string;
  worker_ : lwpc;
  loggers : list lpc;
  registrars : list rpc;
  destructor : ldpc;
  user : W;
  err_out : list string;
  pushed : list LogMessage;
  delivered : list LogMessage
}.

Definition set_config (v : LogConfig) (a : LogAdapter) : LogAdapter :=
  Adapter v (running_ a) (stopped_ a) (queue_ a) (dropped_messages_ a) (high_water_mark_ a)
    (callbacks_ a) (next_vector a) (last_drop_notification_ a) (error_buffer_ a) (worker_ a)
    (loggers a) (registrars a) (destructor a) (user a) (err_out a) (pushed a) (delivered a).
Definition set_running (v : bool) (a : LogAdapter) : LogAdapter :=
  Adapter (config a) v (stopped_ a) (queue_ a) (dropped_messages_ a) (high_water_mark_ a)
    (callbacks_ a) (next_vector a) (last_drop_notification_ a) (error_buffer_ a) (worker_ a)
    (loggers a) (registrars a) (destructor a) (user a) (err_out a) (pushed a) (delivered a).
Definition set_stopped (v : bool) (a : LogAdapter) : LogAdapter :=
  Adapter (config a) (running_ a) v (queue_ a) (dropped_messages_ a) (high_water_mark_ a)
    (callbacks_ a) (next_vector a) (last_drop_notification_ a) (error_buffer_ a) (worker_ a)
    (loggers a) (registrars a) (destructor a) (user a) (err_out a) (pushed a) (delivered a).
Definition set_queue (v : list LogMessage) (a : LogAdapter) : LogAdapter :=
  Adapter (config a) (running_ a) (stopped_ a) v (dropped_messages_ a) (high_water_mark_ a)
    (callbacks_ a) (next_vector a) (last_drop_notification_ a) (error_buffer_ a) (worker_ a)
    (loggers a) (registrars a) (destructor a) (user a) (err_out a) (pushed a) (delivered a).
Definition set_dropped_messages (v : Z) (a : LogAdapter) : LogAdapter :=
  Adapter (config a) (running_ a) (stopped_ a) (queue_ a) v (high_water_mark_ a) (callbacks_
    a) (next_vector a) (last_drop_notification_ a) (error_buffer_ a) (worker_ a) (loggers a)
    (registrars a) (destructor a) (user a) (err_out a) (pushed a) (delivered a).
Definition set_high_water_mark (v : Z) (a : LogAdapter) : LogAdapter :=
  Adapter (config a) (running_ a) (stopped_ a) (queue_ a) (dropped_messages_ a) v (callbacks_
    a) (next_vector a) (last_drop_notification_ a) (error_buffer_ a) (worker_ a) (loggers a)
    (registrars a) (destructor a) (user a) (err_out a) (pushed a) (delivered a).
Definition set_callbacks (v : option (nat * list (option Callback))) (a : LogAdapter) : LogAdapter :=
  Adapter (config a) (running_ a) (stopped_ a) (queue_ a) (dropped_messages_ a)
    (high_water_mark_ a) v (next_vector a) (last_drop_notification_ a) (error_buffer_ a)
    (worker_ a) (loggers a) (registrars a) (destructor a) (user a) (err_out a) (pushed a)
    (delivered a).
Definition set_last_drop_notification (v : Z) (a : LogAdapter) : LogAdapter :=
  Adapter (config a) (running_ a) (stopped_ a) (queue_ a) (dropped_messages_ a)
    (high_water_mark_ a) (callbacks_ a) (next_vector a) v (error_buffer_ a) (worker_ a) (loggers
    a) (registrars a) (destructor a) (user a) (err_out a) (pushed a) (delivered a).
Definition set_error_buffer (v : string) (a : LogAdapter) : LogAdapter :=
  Adapter (config a) (running_ a) (stopped_ a) (queue_ a) (dropped_messages_ a)
    (high_water_mark_ a) (callbacks_ a) (next_vector a) (last_drop_notification_ a) v (worker_
    a) (loggers a) (registrars a) (destructor a) (user a) (err_out a) (pushed a) (delivered a).
Definition set_worker (v : lwpc) (a : LogAdapter) : LogAdapter :=
  Adapter (config a) (running_ a) (stopped_ a) (queue_ a) (dropped_messages_ a)
    (high_water_mark_ a) (callbacks_ a) (next_vector a) (last_drop_notification_ a)
    (error_buffer_ a) v (loggers a) (registrars a) (destructor a) (user a) (err_out a) (pushed
    a) (delivered a).
Definition set_loggers (v : list lpc) (a : LogAdapter) : LogAdapter :=
  Adapter (config a) (running_ a) (stopped_ a) (queue_ a) (dropped_messages_ a)
    (high_water_mark_ a) (callbacks_ a) (next_vector a) (last_drop_notification_ a)
    (error_buffer_ a) (worker_ a) v (registrars a) (destructor a) (user a) (err_out a) (pushed
    a) (delivered a).
Definition set_registrars (v : list rpc) (a : LogAdapter) : LogAdapter :=
  Adapter (config a) (running_ a) (stopped_ a) (queue_ a) (dropped_messages_ a)
    (high_water_mark_ a) (callbacks_ a) (next_vector a) (last_drop_notification_ a)
    (error_buffer_ a) (worker_ a) (loggers a) v (destructor a) (user a) (err_out a) (pushed a)
    (delivered a).
Definition set_destructor (v : ldpc) (a : LogAdapter) : LogAdapter :=
  Adapter (config a) (running_ a) (stopped_ a) (queue_ a) (dropped_messages_ a)
    (high_water_mark_ a) (callbacks_ a) (next_vector a) (last_drop_notification_ a)
    (error_buffer_ a) (worker_ a) (loggers a) (registrars a) v (user a) (err_out a) (pushed a)
    (delivered a).
Definition set_user (v : W) (a : LogAdapter) : LogAdapter :=
  Adapter (config a) (running_ a) (stopped_ a) (queue_ a) (dropped_messages_ a)
    (high_water_mark_ a) (callbacks_ a) (next_vector a) (last_drop_notification_ a)
    (error_buffer_ a) (worker_ a) (loggers a) (registrars a) (destructor a) v (err_out a)
    (pushed a) (delivered a).
Definition set_err_out (v : list string) (a : LogAdapter) : LogAdapter :=
  Adapter (config a) (running_ a) (stopped_ a) (queue_ a) (dropped_messages_ a)
    (high_water_mark_ a) (callbacks_ a) (next_vector a) (last_drop_notification_ a)
    (error_buffer_ a) (worker_ a) (loggers a) (registrars a) (destructor a) (user a) v (pushed
    a) (delivered a).
Definition set_pushed (v : list LogMessage) (a : LogAdapter) : LogAdapter :=
  Adapter (config a) (running_ a) (stopped_ a) (queue_ a) (dropped_messages_ a)
    (high_water_mark_ a) (callbacks_ a) (next_vector a) (last_drop_notification_ a)
    (error_buffer_ a) (worker_ a) (loggers a) (registrars a) (destructor a) (user a) (err_out a)
    v (delivered a).
Definition set_delivered (v : list LogMessage) (a : LogAdapter) : LogAdapter :=
  Adapter (config a) (running_ a) (stopped_ a) (queue_ a) (dropped_messages_ a)
    (high_water_mark_ a) (callbacks_ a) (next_vector a) (last_drop_notification_ a)
    (error_buffer_ a) (worker_ a) (loggers a) (registrars a) (destructor a) (user a) (err_out a)
    (pushed a) v.

Inductive lresult := LNext (a : LogAdapter) | LBlocked | LCrash (u : ub).

(** The constructor's body; [k] and [r] threads that may log and register.  The product with
    the default fraction, 0.1, cut, is a tenth, as it is for a backoff below 2^50 ms. *)
Definition LogAdapter_ctor (now : Z) (k r : nat) (w : W) : LogAdapter :=
  Adapter (LogCfg 10000 5000 10 (λ base, Some (Z.quot base 10)) 1000 5000) true false [] 0 0 None 0 now
    EmptyString PTop (replicate k LIdle) (replicate r RIdle) DLive w [] [] [].

(** ** Output *)
Definition DefaultLog (lm : LogMessage) (a : LogAdapter) : LogAdapter :=
  set_err_out (err_out a ++
    ["[" +:+ format_time (timestamp lm) +:+ "] [" +:+ logger_id lm +:+ "] ["
     +:+ ToString (LogLevel_value (level lm)) +:+ "] [t" +:+ pretty (thread_id lm) +:+ "] "
     +:+ message lm +:+ endl]) a.

Definition what (e : exn) : string :=
  match e with
  | invalid_argument w | runtime_error w => w
  | bad_alloc => "std::bad_alloc"
  | other_exception _ => EmptyString
  end.

Definition callback_error (e : exn) : string :=
  match e with
  | other_exception _ => "[Callback unknown exception]" +:+ endl
  | _ => "[Callback exception] " +:+ what e +:+ endl
  end.

(** ** [Enqueue] *)
Definition at_logger (c : nat) (pc : lpc) (a : LogAdapter) : LogAdapter :=
  set_loggers (<[c := pc]> (loggers a)) a.
Definition count_drop (a : LogAdapter) : LogAdapter :=
  set_dropped_messages (add64 (dropped_messages_ a) 1) a.

Definition full (n : nat) (a : LogAdapter) : bool := (max_queue_size_ (config a) <=? Z.of_nat n)%Z.
Definition backs_off (n : nat) (a : LogAdapter) : bool :=
  (backpressure_threshold_ (config a) <=? Z.of_nat n)%Z.

(** The second critical section. *)
Definition push_message (lm : LogMessage) (a : LogAdapter) : LogAdapter :=
  let q := queue_ a ++ [lm] in
  set_high_water_mark (Z.max (high_water_mark_ a) (Z.of_nat (length q)))
    (set_pushed (pushed a ++ [lm]) (set_queue q a)).

Definition enqueue_error : string :=
  "[LogAdapter] Enqueue exception: random_device" +:+ endl.

(** [queue_cv_.Signal()]: the worker is the only one that waits. *)
Definition Signal (a : LogAdapter) : LogAdapter :=
  match worker_ a with PAsleep => set_worker PWoken a | _ => a end.

(** The time to sleep, [ms]: the product is cut, the generator made on a thread's first
    use ([rng] is [None] when [std::random_device] throws), and the distribution asked,
    whose bounds have to be in order and which gives a number between them. *)
Definition backoff_step (c : nat) (lm : LogMessage) (rng : option Z) (a : LogAdapter) : lresult :=
  let base := backoff_duration_ms_ (config a) in
  match jitter_of (config a) base with
  | None => LCrash signed_overflow
  | Some jitter =>
      match rng with
      | None => LNext (at_logger c LIdle (set_err_out (err_out a ++ [enqueue_error]) a))
      | Some d =>
          if (jitter <? 0)%Z then LCrash broken_precondition
          else if ((- jitter <=? d) && (d <=? jitter))%Z then
            if int64 (base + d) then LNext (at_logger c (LPush lm) a) else LCrash signed_overflow
          else LBlocked
      end
  end.

Definition Enqueue_step (c : nat) (rng : option Z) (a : LogAdapter) : lresult :=
  match loggers a !! c with
  | None | Some LIdle => LBlocked
  | Some (LSize lm) => LNext (at_logger c (LCheck lm (length (queue_ a))) a)
  | Some (LCheck lm sz) => LNext (at_logger c (if full sz a then LDrop else LThreshold lm sz) a)
  | Some LDrop => LNext (at_logger c LIdle (count_drop a))
  | Some (LThreshold lm sz) =>
      LNext (at_logger c (if backs_off sz a then LBackoff lm else LPush lm) a)
  | Some (LBackoff lm) => backoff_step c lm rng a
  | Some (LPush lm) =>
      LNext (if full (length (queue_ a)) a then at_logger c LIdle (count_drop a)
             else at_logger c LSignal (push_message lm a))
  | Some LSignal => LNext (at_logger c LIdle (Signal a))
  end.

(** [Log]: the message is made, and [Enqueue] called. *)
Definition Log_call (c : nat) (lvl : LogLevel) (now : Z) (tid : N) (msg : string)
    (a : LogAdapter) : lresult :=
  match loggers a !! c with
  | Some LIdle => LNext (at_logger c (LSize (LogMsg logger_id_ lvl now tid msg)) a)
  | _ => LBlocked
  end.

(** ** [ProcessLoop], [Dispatch], [HandleDrops] *)
Definition to (pc : lwpc) (a : LogAdapter) : lresult := LNext (set_worker pc a).
Definition deliver (lm : LogMessage) (a : LogAdapter) : LogAdapter :=
  set_delivered (delivered a ++ [lm]) a.

(** One callback, with both [catch] clauses. *)
Definition call_callback (cb : option Callback) (lm : LogMessage) (a : LogAdapter) : lresult :=
  let fails e a := LNext (set_error_buffer (error_buffer_ a +:+ callback_error e) a) in
  match cb with
  | None => fails (runtime_error "bad_function_call") a
  | Some f =>
      match f lm (user a) with
      | Ret _ w => LNext (set_user w a)
      | Throw e w => fails e (set_user w a)
      | Undef u => LCrash u
      end
  end.

(** The error buffer is written and cleared. *)
Definition flush_errors (a : LogAdapter) : LogAdapter :=
  if decide (error_buffer_ a = EmptyString) then a
  else set_error_buffer EmptyString (set_err_out (err_out a ++ [error_buffer_ a]) a).

Definition after_drops (final : bool) : lwpc := if final then PStopping else PTop.

Definition ProcessLoop_step (now : Z) (a : LogAdapter) : lresult :=
  match worker_ a with
  | PTop =>
      match queue_ a with
      | [] => to (if running_ a then PAsleep else PFinal) a
      | batch => to (PBatch batch false) (set_queue [] a)
      end
  | PAsleep | PDone => LBlocked
  | PWoken => to PTop a
  | PBatch [] final => to (PDrops final) a
  | PBatch (lm :: batch) final =>
      match callbacks_ a with
      | None => LCrash null_dereference
      | Some (_, []) => to (PBatch batch final) (deliver lm (DefaultLog lm a))
      | Some (_, cbs) => to (PCall lm cbs batch final) a
      end
  | PCall lm (cb :: cbs) batch final =>
      match call_callback cb lm a with
      | LNext a => to (PCall lm cbs batch final) a
      | r => r
      end
  | PCall lm [] batch final => to (PBatch batch final) (deliver lm (flush_errors a))
  | PDrops final =>
      let d := dropped_messages_ a in
      to (if (d =? 0)%Z then after_drops final else PNotify d final) (set_dropped_messages 0 a)
  | PNotify d final =>
      to (after_drops final)
        (if (drop_notification_interval_ms_ (config a) <=? now - last_drop_notification_ a)%Z then
           set_last_drop_notification now
             (DefaultLog (LogMsg logger_id_ Warning now 0
                ("[" +:+ logger_id_ +:+ "] dropped " +:+ pretty (Z.to_N d) +:+ " msgs")) a)
         else a)
  | PFinal => to (PBatch (queue_ a) true) (set_queue [] a)
  | PStopping => to PDone (set_stopped true a)
  end.

(** ** [RegisterCallback] and [ClearCallbacks] *)
Definition at_registrar (c : nat) (pc : rpc) (a : LogAdapter) : LogAdapter :=
  set_registrars (<[c := pc]> (registrars a)) a.
Definition publish (vec : list (option Callback)) (a : LogAdapter) : LogAdapter :=
  Adapter (config a) (running_ a) (stopped_ a) (queue_ a) (dropped_messages_ a) (high_water_mark_ a)
    (Some (next_vector a, vec)) (S (next_vector a)) (last_drop_notification_ a) (error_buffer_ a)
    (worker_ a) (loggers a) (registrars a) (destructor a) (user a) (err_out a) (pushed a)
    (delivered a).

Definition ClearCallbacks (a : LogAdapter) : LogAdapter := publish [] a.

(** The load of [callbacks_] and the first copy, into which [cb] is moved. *)
Definition RegisterCallback_call (c : nat) (cb : Callback) (a : LogAdapter) : lresult :=
  match registrars a !! c with
  | Some RIdle =>
      match callbacks_ a with
      | None => LCrash null_dereference
      | Some (p, vec) => LNext (at_registrar c (RCas p (vec ++ [Some cb])) a)
      end
  | _ => LBlocked
  end.

(** [compare_exchange_weak], which may fail without a reason; after a failure
    [cb], moved from, is copied: it is empty. *)
Definition RegisterCallback_step (c : nat) (spurious : bool) (a : LogAdapter) : lresult :=
  match registrars a !! c with
  | Some (RCas old vec) =>
      match callbacks_ a with
      | None => LCrash null_dereference
      | Some (p, cur) =>
          if decide (p = old ∧ spurious = false) then LNext (at_registrar c RIdle (publish vec a))
          else LNext (at_registrar c (RCas p (cur ++ [None])) a)
      end
  | _ => LBlocked
  end.

(** ** [~LogAdapter] *)
Definition LogAdapter_dtor_step (now : Z) (a : LogAdapter) : lresult :=
  match destructor a with
  | DLive => LNext (set_destructor DStart (Signal (set_running false a)))
  | DStart => LNext (set_destructor (DWait now) a)
  | DWait start =>
      LNext (if negb (stopped_ a) && (now - start <? shutdown_timeout_ms_ (config a))%Z then a
             else set_destructor DDecide a)
  | DDecide => LNext (set_destructor (if stopped_ a then DJoin else DDead) a)
  | DJoin => match worker_ a with PDone => LNext (set_destructor DDead a) | _ => LBlocked end
  | DDead => LBlocked
  end.

(** ** Members that are one access *)
Inductive log_setter :=
  | SetMaxQueueSize (max : Z)
  | SetBackpressureThreshold (threshold : Z)
  | SetBackoffDuration (dur : Z)
  | SetJitterFraction (jitter : Z → option Z)
  | SetDropNotificationInterval (interval : Z)
  | SetShutdownTimeout (timeout : Z).

Definition apply_setter (s : log_setter) (g : LogConfig) : LogConfig :=
  match g with
  | LogCfg m t b j i d =>
      match s with
      | SetMaxQueueSize m => LogCfg m t b j i d
      | SetBackpressureThreshold t => LogCfg m t b j i d
      | SetBackoffDuration b => LogCfg m t b j i d
      | SetJitterFraction j => LogCfg m t b j i d
      | SetDropNotificationInterval i => LogCfg m t b j i d
      | SetShutdownTimeout d => LogCfg m t b j i d
      end
  end.

Definition log_GetDroppedCount (a : LogAdapter) : Z * LogAdapter :=
  (dropped_messages_ a, set_dropped_messages 0 a).
Definition log_GetQueueSize (a : LogAdapter) : nat := length (queue_ a).
Definition log_GetHighWaterMark (a : LogAdapter) : Z := high_water_mark_ a.

(** ** Runs *)
Inductive log_label :=
  | ALog (c : nat) (lvl : LogLevel) (now : Z) (tid : N) (msg : string)
  | ALogger (c : nat) (rng : option Z)
  | AWorker (now : Z)
  | ASpurious
  | ARegister (c : nat) (cb : Callback)
  | ARegistrar (c : nat) (spurious : bool)
  | AClearCallbacks
  | ASet (s : log_setter)
  | AGetDroppedCount
  | ADestructor (now : Z).

Definition log_gone (a : LogAdapter) : bool := match destructor a with DDead => true | _ => false end.
Definition worker_done (a : LogAdapter) : bool := match worker_ a with PDone => true | _ => false end.

(** Once the destructor is through, any access is to a dead object; a worker
    that has ended makes none. *)
Definition log_step (a : LogAdapter) (l : log_label) : lresult :=
  if log_gone a then
    match l with AWorker _ => if worker_done a then LBlocked else LCrash use_after_free
            | _ => LCrash use_after_free end
  else
  match l with
  | ALog c lvl now tid msg => Log_call c lvl now tid msg a
  | ALogger c rng => Enqueue_step c rng a
  | AWorker now => ProcessLoop_step now a
  | ASpurious => match worker_ a with PAsleep => to PWoken a | _ => LBlocked end
  | ARegister c cb => RegisterCallback_call c cb a
  | ARegistrar c spurious => RegisterCallback_step c spurious a
  | AClearCallbacks => LNext (ClearCallbacks a)
  | ASet s => LNext (set_config (apply_setter s (config a)) a)
  | AGetDroppedCount => LNext (log_GetDroppedCount a).2
  | ADestructor now => LogAdapter_dtor_step now a
  end.

Fixpoint log_run (a : LogAdapter) (ls : list log_label) : lresult :=
  match ls with
  | [] => LNext a
  | l :: ls => match log_step a l with LNext a => log_run a ls | r => r end
  end.
End LogAdapter.
