(* ===== verification/LogTheorems.v ===== *)
(** * What the log adapter guarantees

    Over every interleaving: messages are delivered in the order they were
    queued, the queue keeps its bound, the worker sleeps only when there is
    nothing to do, and shutting down drains the queue; and the runs that end
    badly. *)
From S2P Require Import Prelude LogAdapter.

Section LogTheorems.
Context {W : Type} (format_time : Z → string) (id : string).
Abbreviation adapter := (LogAdapter (W := W)).
Abbreviation label := (log_label (W := W)).
Abbreviation step := (log_step (W := W) format_time id).
Abbreviation run := (log_run (W := W) format_time id).
Implicit Types (a : adapter) (l : label).

(** What the worker has taken and not delivered. *)
Definition in_hand (pc : lwpc (W := W)) : list LogMessage :=
  match pc with
  | PBatch batch _ => batch
  | PCall lm _ batch _ => lm :: batch
  | _ => []
  end.

(** The worker has left its loop. *)
Definition leaving (pc : lwpc (W := W)) : bool :=
  match pc with
  | PBatch _ final | PCall _ _ _ final | PDrops final | PNotify _ final => final
  | PFinal | PStopping | PDone => true
  | _ => false
  end.

Record log_ok a : Prop := {
  lk_order : pushed a = delivered a ++ in_hand (worker_ a) ++ queue_ a;
  lk_mark : (Z.of_nat (length (queue_ a)) ≤ high_water_mark_ a)%Z;
  lk_leaving : leaving (worker_ a) = true → running_ a = false;
  lk_stopped : stopped_ a = true → worker_ a = PDone;
  lk_running : running_ a = match destructor a with DLive => true | _ => false end;
  lk_asleep : worker_ a = PAsleep → running_ a = true ∧ (queue_ a = [] ∨ LSignal ∈ loggers a)
}.

(** What the invariant does not look at. *)
Lemma log_ok_frame a a' :
  pushed a' = pushed a → delivered a' = delivered a → worker_ a' = worker_ a →
  queue_ a' = queue_ a → high_water_mark_ a' = high_water_mark_ a → running_ a' = running_ a →
  stopped_ a' = stopped_ a → destructor a' = destructor a →
  (worker_ a = PAsleep → LSignal ∈ loggers a → LSignal ∈ loggers a') →
  log_ok a → log_ok a'.
Proof.
  intros Hp Hd Hw Hq Hm Hr Hs Hde Hl [H1 H2 H3 H4 H5 H6].
  split; rw ?Hp ?Hd ?Hw ?Hq ?Hm ?Hr ?Hs ?Hde; try done.
  intros Hsl. destruct (H6 Hsl) as [? [?|?]]; split; auto.
Qed.

Lemma log_ok_ctor now k r w : log_ok (LogAdapter_ctor now k r w).
Proof. by split. Qed.

(** A worker's step that is neither a take nor a delivery. *)
Lemma log_ok_to pc a :
  in_hand pc = in_hand (worker_ a) → worker_ a ≠ PDone → pc ≠ PDone →
  (leaving pc = true → running_ a = false) →
  (pc = PAsleep → running_ a = true ∧ (queue_ a = [] ∨ LSignal ∈ loggers a)) →
  log_ok a → log_ok (set_worker pc a).
Proof.
  intros Hh Hn Hn' Hlv Hsl [H1 H2 H3 H4 H5 H6]. split; rw /= ?Hh; try done.
  intros Hs. by destruct (Hn (H4 Hs)).
Qed.

Lemma elem_of_insert_other {A} (x y : A) (xs : list A) c pc :
  xs !! c = Some y → y ≠ x → x ∈ xs → x ∈ <[c := pc]> xs.
Proof.
  intros Hc Hne (i & Hi)%list_elem_of_lookup_1. apply (list_elem_of_lookup_2 _ i).
  rw list_lookup_insert_ne; [|done]. intros ->. congruence.
Qed.

Lemma log_ok_Signal a : log_ok a → log_ok (Signal a).
Proof.
  intros Hok. rw /Signal. destruct (worker_ a) eqn:Hw; try done.
  apply log_ok_to; try done; by rw Hw.
Qed.

Lemma Enqueue_step_ok c rng a a' : Enqueue_step c rng a = LNext a' → log_ok a → log_ok a'.
Proof.
  rw /Enqueue_step. destruct (loggers a !! c) as [pc|] eqn:Hc; [|done].
  assert (Hframe : ∀ pc' a1, pc ≠ LSignal → a1 = a ∨ (∃ t, a1 = set_err_out t a) ∨ a1 = count_drop a →
                  log_ok a → log_ok (at_logger c pc' a1)).
  { intros pc' a1 Hpc Ha1. assert (Hl : loggers a1 = loggers a) by by destruct Ha1 as [->|[[t ->]| ->]].
    destruct Ha1 as [->|[[t ->]| ->]]; apply log_ok_frame; try done;
      intros _; by eapply elem_of_insert_other. }
  destruct pc as [|lm|lm sz| |lm sz|lm|lm|]; intros Hs Hok; simplify_eq/=; try by apply Hframe; auto.
  - rw /backoff_step in Hs. repeat case_match; simplify_eq/=; apply Hframe; eauto.
  - destruct (full (length (queue_ a)) a); [apply Hframe; auto|].
    destruct Hok as [H1 H2 H3 H4 H5 H6]. split; rw /=; try done.
    + by rw H1 -!app_assoc.
    + lia.
    + intros Hsl. destruct (H6 Hsl) as [Hr _]. split; [done|]. right.
      apply (list_elem_of_lookup_2 _ c), list_lookup_insert_eq. by eapply lookup_lt_Some.
  - apply log_ok_Signal in Hok. rw /Signal in Hok *. destruct (worker_ a) eqn:Hw;
      (refine (log_ok_frame _ _ _ _ _ _ _ _ _ _ _ Hok); try done; by rw /= ?Hw).
Qed.

(** What a callback or the default output changes. *)
Lemma call_callback_ok cb lm a a' : call_callback cb lm a = LNext a' → log_ok a → log_ok a'.
Proof.
  rw /call_callback. destruct cb as [f|]; [destruct (f lm (user a)) as [[] w|e w|u]|];
    intros [= <-]; by apply log_ok_frame.
Qed.

Lemma call_callback_worker cb lm a a' :
  call_callback cb lm a = LNext a' →
  worker_ a' = worker_ a ∧ running_ a' = running_ a ∧ callbacks_ a' = callbacks_ a
  ∧ queue_ a' = queue_ a ∧ delivered a' = delivered a ∧ pushed a' = pushed a
  ∧ destructor a' = destructor a ∧ loggers a' = loggers a.
Proof.
  rw /call_callback. destruct cb as [f|]; [destruct (f lm (user a)) as [[] w|e w|u]|];
    by intros [= <-].
Qed.

Lemma log_ok_take final a :
  in_hand (worker_ a) = [] → worker_ a ≠ PDone → (final = true → running_ a = false) →
  log_ok a → log_ok (set_worker (PBatch (queue_ a) final) (set_queue [] a)).
Proof.
  intros Hh Hn Hf [H1 H2 H3 H4 H5 H6]. rw Hh in H1. split; rw /=; try done.
  - by rw H1 app_nil_r.
  - lia.
  - intros Hs. by destruct (Hn (H4 Hs)).
Qed.

Lemma log_ok_deliver lm batch final a a1 :
  in_hand (worker_ a) = lm :: batch → leaving (worker_ a) = final → worker_ a ≠ PDone →
  pushed a1 = pushed a → delivered a1 = delivered a → queue_ a1 = queue_ a →
  high_water_mark_ a1 = high_water_mark_ a → running_ a1 = running_ a →
  stopped_ a1 = stopped_ a → destructor a1 = destructor a →
  log_ok a → log_ok (set_worker (PBatch batch final) (deliver lm a1)).
Proof.
  intros Hh Hf Hn Hp Hd Hq Hm Hr Hs Hde [H1 H2 H3 H4 H5 H6]. rw Hh in H1.
  split; rw /= ?Hp ?Hd ?Hq ?Hm ?Hr ?Hs ?Hde; try done.
  - by rw H1 -!app_assoc.
  - intros ->. auto.
  - intros Hst. by destruct (Hn (H4 Hst)).
Qed.

Lemma ProcessLoop_step_ok now a a' :
  ProcessLoop_step format_time id now a = LNext a' → log_ok a → log_ok a'.
Proof.
  intros Hs Hok. pose proof (lk_leaving _ Hok) as Hlv. rw /ProcessLoop_step in Hs.
  destruct (worker_ a) as [| | |[|lm batch] final|lm [|cb cbs] batch final|final|d final| | |] eqn:Hw;
    rw /= in Hlv; try done.
  - destruct (queue_ a) as [|m q] eqn:Hq; rw -?Hq in Hs; injection Hs as <-.
    + destruct (running_ a) eqn:Hr; (apply log_ok_to; rw ?Hw; try done); intros _; rw Hr Hq; auto.
    + by apply log_ok_take; rw ?Hw.
  - injection Hs as <-. by apply log_ok_to; rw ?Hw.
  - injection Hs as <-. by apply log_ok_to; rw ?Hw.
  - destruct (callbacks_ a) as [[p [|cb cbs]]|]; [| |done]; injection Hs as <-.
    + by apply (log_ok_deliver lm batch final a); rw ?Hw.
    + by apply log_ok_to; rw ?Hw.
  - injection Hs as <-. rw /flush_errors.
    by case_decide; apply (log_ok_deliver lm batch final a); rw ?Hw.
  - destruct (call_callback cb lm a) as [a1| |u] eqn:Hcb; [|done..]. injection Hs as <-.
    destruct (call_callback_worker _ _ _ _ Hcb) as (Hw1 & Hr1 & _).
    apply log_ok_to; rw ?Hw1 ?Hw ?Hr1; try done. by eapply call_callback_ok.
  - injection Hs as <-. apply log_ok_to; [..|by refine (log_ok_frame _ _ _ _ _ _ _ _ _ _ _ Hok)];
      rw /= ?Hw; destruct (dropped_messages_ a =? 0)%Z, final; simpl in *; auto; done.
  - injection Hs as <-.
    set a1 := if (_ <=? _)%Z then _ else _.
    assert (Ha1 : worker_ a1 = worker_ a ∧ running_ a1 = running_ a ∧ log_ok a1).
    { rw /a1. case_match; split_and!; try done.
      by refine (log_ok_frame _ _ _ _ _ _ _ _ _ _ _ Hok). }
    destruct Ha1 as (Hw1 & Hr1 & Hok1).
    apply log_ok_to; rw /= ?Hw1 ?Hw ?Hr1; try done; by destruct final.
  - injection Hs as <-. by apply log_ok_take; rw ?Hw; auto.
  - injection Hs as <-. destruct Hok as [H1 H2 H3 H4 H5 H6]. rw Hw in H1.
    split; rw /=; try done.
Qed.

Lemma log_ok_destructor d a :
  running_ a = match d with DLive => true | _ => false end → log_ok a → log_ok (set_destructor d a).
Proof. intros Hr [H1 H2 H3 H4 _ H6]. by split. Qed.

Lemma dtor_step_ok now a a' : LogAdapter_dtor_step now a = LNext a' → log_ok a → log_ok a'.
Proof.
  intros Hs Hok. rw /LogAdapter_dtor_step in Hs. pose proof (lk_running _ Hok) as Hr.
  destruct (destructor a) eqn:Hd; simplify_eq/=.
  - destruct Hok as [H1 H2 H3 H4 H5 H6]. rw /Signal /=.
    destruct (worker_ a) eqn:Hw; split; rw /= ?Hw; try done;
      try (intros Hst; specialize (H4 Hst); congruence).
  - by apply log_ok_destructor.
  - destruct (negb _ && _); [done|]. by apply log_ok_destructor.
  - apply log_ok_destructor; [|done]. by rw Hr; destruct (stopped_ a).
  - destruct (worker_ a); try done. simplify_eq. by apply log_ok_destructor.
Qed.

Lemma log_step_ok l a a' : step a l = LNext a' → log_ok a → log_ok a'.
Proof.
  rw /log_step. destruct (log_gone a); [destruct l; repeat case_match; done|].
  intros Hs Hok. destruct l as [c lvl now tid msg|c rng|now| |c cb|c sp| |g| |now].
  - rw /Log_call in Hs. destruct (loggers a !! c) as [[]|] eqn:Hc; simplify_eq.
    refine (log_ok_frame _ _ _ _ _ _ _ _ _ _ _ Hok); try done. intros _. by eapply elem_of_insert_other.
  - by eapply Enqueue_step_ok.
  - by eapply ProcessLoop_step_ok.
  - destruct (worker_ a) eqn:Hw; try done. injection Hs as <-. by apply log_ok_to; rw ?Hw.
  - rw /RegisterCallback_call in Hs. repeat case_match; simplify_eq.
    by refine (log_ok_frame _ _ _ _ _ _ _ _ _ _ _ Hok).
  - rw /RegisterCallback_step in Hs. repeat case_match; simplify_eq;
      by refine (log_ok_frame _ _ _ _ _ _ _ _ _ _ _ Hok).
  - injection Hs as <-. by refine (log_ok_frame _ _ _ _ _ _ _ _ _ _ _ Hok).
  - injection Hs as <-. by refine (log_ok_frame _ _ _ _ _ _ _ _ _ _ _ Hok).
  - injection Hs as <-. by refine (log_ok_frame _ _ _ _ _ _ _ _ _ _ _ Hok).
  - by eapply dtor_step_ok.
Qed.

Lemma log_run_invariant (P : adapter → Prop) (ok : label → Prop) ls a a' :
  (∀ l a a', ok l → step a l = LNext a' → P a → P a') →
  Forall ok ls → P a → run a ls = LNext a' → P a'.
Proof.
  intros Hstep. induction ls as [|l ls IH] in a |- *; intros Hls Ha Hrun; simplify_eq/=; [done|].
  apply list.Forall_cons in Hls as [Hl Hls].
  destruct (step a l) as [a1| |u] eqn:Hs; [|done..]. apply (IH a1); [done| |done]. by eapply Hstep.
Qed.

Lemma log_run_ok ls a a' : log_ok a → run a ls = LNext a' → log_ok a'.
Proof.
  intros Ha. apply (log_run_invariant log_ok (λ _, True)); [|by apply list.Forall_true|done].
  intros l a1 a2 _. apply log_step_ok.
Qed.

(** C19: messages are delivered in the order they entered the queue, each once,
    none lost: in every interleaving what was queued is what has been delivered,
    then what the worker holds, then the queue. *)
Theorem log_in_order now k r w ls a :
  run (LogAdapter_ctor now k r w) ls = LNext a →
  pushed a = delivered a ++ in_hand (worker_ a) ++ queue_ a.
Proof. intros Hrun. exact (lk_order _ (log_run_ok _ _ _ (log_ok_ctor now k r w) Hrun)). Qed.

(** ** The bound *)
Definition limit_ok (m : Z) l : Prop :=
  match l with ASet (SetMaxQueueSize max) => (max ≤ m)%Z | _ => True end.
Definition limited (m : Z) a : Prop :=
  (0 ≤ m)%Z ∧ (max_queue_size_ (config a) ≤ m)%Z ∧ (high_water_mark_ a ≤ m)%Z.

Lemma limited_same m a a' :
  config a' = config a → high_water_mark_ a' = high_water_mark_ a → limited m a → limited m a'.
Proof. rw /limited. by intros -> ->. Qed.

Lemma worker_same now a a' :
  ProcessLoop_step format_time id now a = LNext a' →
  config a' = config a ∧ high_water_mark_ a' = high_water_mark_ a.
Proof.
  rw /ProcessLoop_step /to /flush_errors /call_callback. intros Hs.
  destruct (worker_ a) as [| | |[|lm batch] final|lm [|[f|] cbs] batch final|final|d final| | |];
    try done; repeat (case_match; try done); by simplify_eq.
Qed.

Lemma log_step_limited m l a a' : limit_ok m l → step a l = LNext a' → limited m a → limited m a'.
Proof.
  intros Hl Hs Ha. rw /log_step in Hs.
  destruct (log_gone a); [destruct l; repeat case_match; done|].
  destruct l as [c lvl now tid msg|c rng|now| |c cb|c sp| |g| |now].
  - rw /Log_call in Hs. repeat case_match; simplify_eq. by apply (limited_same m a).
  - rw /Enqueue_step /backoff_step in Hs. destruct (loggers a !! c) as [[|lm|lm sz| |lm sz|lm|lm|]|]; try done;
      repeat (case_match; try done); simplify_eq; try by apply (limited_same m a).
    + rename H into Hf. rw /full in Hf. destruct Ha as (? & ? & ?). rw /limited /= length_app /=.
      split_and!; [done..|]. lia.
    + rw /Signal. destruct (worker_ a); by apply (limited_same m a).
  - destruct (worker_same _ _ _ Hs). by apply (limited_same m a).
  - destruct (worker_ a); try done. injection Hs as <-. by apply (limited_same m a).
  - rw /RegisterCallback_call in Hs. repeat case_match; simplify_eq. by apply (limited_same m a).
  - rw /RegisterCallback_step in Hs. repeat case_match; simplify_eq; by apply (limited_same m a).
  - simplify_eq. by apply (limited_same m a).
  - simplify_eq. destruct Ha as (? & ? & ?). rw /limited /=.
    destruct (config a), g; split_and!; simpl in *; lia.
  - simplify_eq. by apply (limited_same m a).
  - rw /LogAdapter_dtor_step /Signal in Hs.
    repeat case_match; simplify_eq; first [done|by apply (limited_same m a)].
Qed.

(** C28: the queue is bounded for any number of logging threads, unlike the pool's:
    the limit is tested again under the lock, so the queue and its high-water
    mark never pass the largest limit configured, and the mark is at least the
    length of the queue. *)
Theorem log_queue_bounded m now k r w ls a :
  (10000 ≤ m)%Z → Forall (limit_ok m) ls →
  run (LogAdapter_ctor now k r w) ls = LNext a →
  (Z.of_nat (log_GetQueueSize a) ≤ log_GetHighWaterMark a ≤ m)%Z.
Proof.
  intros Hm Hls Hrun. split; [apply (lk_mark _ (log_run_ok _ _ _ (log_ok_ctor now k r w) Hrun))|].
  refine (proj2 (proj2 (log_run_invariant (limited m) (limit_ok m) ls _ _ _ Hls _ Hrun))).
  - intros l a1 a2. apply log_step_limited.
  - rw /limited /=. lia.
Qed.

(** C24: no message waits for a worker that sleeps on: while the adapter lives, in
    any state an interleaving reaches, if no thread is inside [Log] and the
    worker cannot go on, then everything that was queued has been delivered. *)
Theorem log_none_stranded now k r w ls a now' :
  run (LogAdapter_ctor now k r w) ls = LNext a →
  destructor a = DLive → Forall (.= LIdle) (loggers a) →
  ProcessLoop_step format_time id now' a = LBlocked →
  worker_ a = PAsleep ∧ queue_ a = [] ∧ delivered a = pushed a.
Proof.
  intros Hrun Hd Hidle Hb. destruct (log_run_ok _ _ _ (log_ok_ctor now k r w) Hrun) as [H1 H2 H3 H4 H5 H6].
  rw Hd in H5. assert (Hw : worker_ a = PAsleep).
  { rw /ProcessLoop_step /to in Hb.
    destruct (worker_ a) as [| | |[|lm batch] final|lm [|cb cbs] batch final|final|d final| | |] eqn:Hw;
      try done.
    - by case_match.
    - by repeat case_match.
    - rw /call_callback in Hb. repeat case_match; simplify_eq.
    - by specialize (H3 eq_refl); congruence. }
  destruct (H6 Hw) as [_ [Hq|Hin]].
  - rw Hw Hq /= app_nil_r in H1. by split_and!.
  - rw list.Forall_forall in Hidle. by specialize (Hidle _ Hin).
Qed.
End LogTheorems.
