(* ===== verification/LogShutdown.v ===== *)
(** * The end of the log adapter's worker, and its callbacks

    Destroying an adapter makes its worker end, with everything delivered; a
    registration counts only if its first exchange succeeds; and without
    [ClearCallbacks] the first message is the last. *)
From S2P Require Import Prelude LogAdapter LogTheorems.

Section Shutdown.
Context {W : Type} (format_time : Z → string) (id : string).
Abbreviation adapter := (LogAdapter (W := W)).
Abbreviation label := (log_label (W := W)).
Abbreviation worker_step := (ProcessLoop_step (W := W) format_time id).
Abbreviation step := (log_step (W := W) format_time id).
Abbreviation run := (log_run (W := W) format_time id).
Implicit Types (a : adapter) (l : label).

(** User code without undefined behaviour, among the callbacks registered and
    the ones the worker is calling. *)
Definition defined_callback (cb : option (Callback (W := W))) : Prop :=
  ∀ f lm w u, cb = Some f → f lm w ≠ Undef u.
Definition calling a : list (option Callback) :=
  match worker_ a with PCall _ cbs _ _ => cbs | _ => [] end.
Definition callable a : Prop :=
  (∃ p vec, callbacks_ a = Some (p, vec) ∧ Forall defined_callback vec)
  ∧ Forall defined_callback (calling a).

(** ** The work left for the worker, in steps *)
Definition message_cost a : nat :=
  S (S (match callbacks_ a with Some (_, vec) => length vec | None => 0 end)).

(** From the top of the loop with [n] messages queued. *)
Definition loop_work (cost n : nat) : nat := (if n is 0 then 6 else 10) + cost * n.

Definition work_of (c n : nat) (pc : lwpc (W := W)) : nat :=
  let after (final : bool) := if final then 1 else loop_work c n in
  match pc with
  | PDone => 0
  | PStopping => 1
  | PNotify _ final => S (after final)
  | PDrops final => S (S (after final))
  | PBatch batch final => 3 + c * length batch + after final
  | PCall _ cbs batch final => S (length cbs) + 3 + c * length batch + after final
  | PFinal => 5 + c * n
  | PTop => loop_work c n
  | PWoken => S (loop_work c n)
  | PAsleep => S (S (loop_work c n))
  end.
Definition log_work a : nat := work_of (message_cost a) (length (queue_ a)) (worker_ a).

Lemma log_work_set pc a a1 q :
  callbacks_ a1 = callbacks_ a → queue_ a1 = q →
  log_work (set_worker pc a1) = work_of (message_cost a) (length q) pc.
Proof. intros Hcb Hq. by rw /log_work /message_cost /= Hcb Hq. Qed.

(** Past the loop the queue is empty, if nobody logs. *)
Definition drained a : Prop := leaving (worker_ a) = true → queue_ a = [].

Record closing a : Prop := {
  cl_running : running_ a = false;
  cl_callable : callable a;
  cl_drained : drained a
}.

(** The next state of a step that only the worker sees. *)
Lemma closing_next pc a a1 :
  running_ a1 = running_ a → callbacks_ a1 = callbacks_ a →
  (∀ lm cbs batch final, pc = PCall lm cbs batch final → Forall defined_callback cbs) →
  (leaving pc = true → queue_ a1 = []) →
  closing a → closing (set_worker pc a1).
Proof.
  intros Hr Hcb Hpc Hq [H1 [H2 H3] H4]. split; [by rw /= Hr|split; [by rw /= Hcb|]|done].
  rw /calling /=. destruct pc; try by apply list.Forall_nil_2. by eapply Hpc.
Qed.

Lemma work_after_drops c n final :
  work_of c n (after_drops final) = if final then 1 else loop_work c n.
Proof. by destruct final. Qed.

Lemma closing_drops (final : bool) a a1 :
  running_ a1 = running_ a → callbacks_ a1 = callbacks_ a → queue_ a1 = queue_ a →
  (final = true → queue_ a = []) → closing a → closing (set_worker (after_drops final) a1).
Proof.
  intros Hr Hcb Hq Hf Hc. apply (closing_next _ a); [done|done| | |done].
  - by destruct final.
  - rw Hq. by destruct final.
Qed.

Lemma callback_step cb lm a :
  defined_callback cb →
  ∃ a1, call_callback cb lm a = LNext a1.
Proof.
  intros Hcb. rw /call_callback. destruct cb as [f|]; [|by eexists].
  destruct (f lm (user a)) as [[] w|e w|u] eqn:Hf; [by eexists..|]. by destruct (Hcb f lm (user a) u).
Qed.

(** A worker's step, and that it leaves less work. *)
Definition progress (r : lresult) a : Prop :=
  ∃ a', r = LNext a' ∧ log_work a' < log_work a ∧ closing a' ∧ pushed a' = pushed a
        ∧ destructor a' = destructor a.

Lemma progress_to pc a1 a q :
  callbacks_ a1 = callbacks_ a → queue_ a1 = q → pushed a1 = pushed a →
  destructor a1 = destructor a → running_ a1 = running_ a →
  work_of (message_cost a) (length q) pc < work_of (message_cost a) (length (queue_ a)) (worker_ a) →
  (∀ lm cbs batch final, pc = PCall lm cbs batch final → Forall defined_callback cbs) →
  (leaving pc = true → q = []) →
  closing a → progress (to pc a1) a.
Proof.
  intros Hcb Hq Hp Hd Hr Hw Hpc Hlv Hc. eexists. split_and!; [done| | |done..].
  - by rw (log_work_set pc a a1 q).
  - apply (closing_next _ a); [done..| |done]. rw Hq. exact Hlv.
Qed.

Lemma worker_step_progress now a :
  closing a → log_ok a → worker_ a ≠ PDone → progress (worker_step now a) a.
Proof.
  intros Hc Hok Hnd. pose proof Hc as [Hr [(p & vec & Hvec & Hdef) Hcall] Hdr].
  assert (Hasleep : worker_ a ≠ PAsleep).
  { intros Hw. destruct (lk_asleep _ Hok Hw). congruence. }
  rw /ProcessLoop_step. rw /calling in Hcall. rw /drained in Hdr.
  assert (Hcost : message_cost a = S (S (length vec))) by by rw /message_cost Hvec.
  destruct (worker_ a) as [| | |[|lm batch] final|lm [|cb cbs] batch final|final|d final| | |] eqn:Hw;
    try done; simpl in Hdr.
  - destruct (queue_ a) as [|m q] eqn:Hq.
    + rw Hr. apply (progress_to _ _ _ []); rw ?Hq ?Hw; try done. rw /= /loop_work. lia.
    + apply (progress_to _ _ _ []); rw ?Hq ?Hw; try done. rw /work_of /loop_work /=. lia.
  - apply (progress_to _ _ _ (queue_ a)); rw ?Hw; try done. rw /work_of. lia.
  - apply (progress_to _ _ _ (queue_ a)); rw ?Hw; try done. rw /work_of /=. lia.
  - rw Hvec. destruct vec as [|cb vec].
    + apply (progress_to _ _ _ (queue_ a)); rw ?Hw; try done. rw /work_of Hcost /=. lia.
    + apply (progress_to _ _ _ (queue_ a)); rw ?Hw; try done.
      * rw /work_of Hcost /=. lia.
      * intros lm' cbs' batch' final' [= <- <- <- <-]. exact Hdef.
  - assert (Hfl : flush_errors a = a ∨ ∃ t, flush_errors a
                  = set_error_buffer EmptyString (set_err_out t a)).
    { rw /flush_errors. case_decide; [by left|right]. by eexists. }
    destruct Hfl as [->|[t ->]]; apply (progress_to _ _ _ (queue_ a)); rw ?Hw; try done;
      rw /work_of /=; lia.
  - apply list.Forall_cons in Hcall as [Hcb Hcbs].
    destruct (callback_step cb lm a Hcb) as [a1 Ha1]. rw Ha1.
    destruct (call_callback_worker _ _ _ _ Ha1) as (Hw1 & Hr1 & Hcb1 & Hq1 & Hd1 & Hp1 & Hde1 & _).
    apply (progress_to _ _ _ (queue_ a)); rw ?Hw; try done.
    + rw /work_of /=. lia.
    + intros lm' cbs' batch' final' [= <- <- <- <-]. exact Hcbs.
  - destruct (dropped_messages_ a =? 0)%Z; apply (progress_to _ _ _ (queue_ a)); rw ?Hw;
      try done; try (by destruct final); rw ?work_after_drops /work_of; lia.
  - set a1 := if (_ <=? _)%Z then _ else _.
    assert (Ha1 : callbacks_ a1 = callbacks_ a ∧ queue_ a1 = queue_ a ∧ pushed a1 = pushed a
                  ∧ destructor a1 = destructor a ∧ running_ a1 = running_ a) by (rw /a1; by case_match).
    destruct Ha1 as (H1 & H2 & H3 & H4 & H5).
    apply (progress_to _ a1 _ (queue_ a)); rw ?Hw; try done; try (by destruct final).
    rw work_after_drops /work_of. lia.
  - apply (progress_to _ _ _ []); rw ?Hw; try done. rw /work_of /=. lia.
  - apply (progress_to _ _ _ (queue_ a)); rw ?Hw; try done; auto.
Qed.

Lemma worker_step_ended now a a' :
  worker_step now a = LNext a' → worker_ a' = PDone → stopped_ a' = true.
Proof.
  rw /ProcessLoop_step /to. intros Hs Hw.
  destruct (worker_ a) as [| | |[|lm batch] final|lm [|cb cbs] batch final|final|d final| | |]; try done.
  - repeat case_match; by simplify_eq.
  - by simplify_eq.
  - by simplify_eq.
  - repeat case_match; by simplify_eq.
  - by simplify_eq.
  - repeat case_match; by simplify_eq.
  - simplify_eq/=. case_match; [by destruct final|done].
  - simplify_eq/=. by destruct final.
  - by simplify_eq.
  - by simplify_eq.
Qed.

(** Left alone the worker ends. *)
Lemma worker_ends (now_of : nat → Z) n0 a :
  closing a → log_ok a → log_gone a = false → (worker_ a = PDone → stopped_ a = true) →
  ∃ n a', n ≤ log_work a ∧ run a ((λ i, AWorker (now_of i)) <$> seq n0 n) = LNext a'
    ∧ worker_ a' = PDone ∧ stopped_ a' = true ∧ closing a' ∧ log_ok a' ∧ pushed a' = pushed a.
Proof.
  remember (log_work a) as m eqn:Hm. revert n0 a Hm.
  induction m as [m IH] using lt_wf_ind. intros n0 a -> Hc Hok Hg Hst.
  destruct (worker_done a) eqn:Hd.
  { assert (Hw : worker_ a = PDone) by (rw /worker_done in Hd; by destruct (worker_ a)).
    exists 0, a. split_and!; try done; [lia|by apply Hst]. }
  assert (Hnd : worker_ a ≠ PDone) by (intros Hw; by rw /worker_done Hw in Hd).
  destruct (worker_step_progress (now_of n0) a Hc Hok Hnd) as (a1 & Hs & Hlt & Hc1 & Hp1 & Hd1).
  assert (Hs1 : step a (AWorker (now_of n0)) = LNext a1) by by rw /log_step Hg.
  assert (Hg1 : log_gone a1 = false) by by rw /log_gone Hd1.
  destruct (IH _ Hlt (S n0) a1 eq_refl Hc1 (log_step_ok _ _ _ _ _ Hs1 Hok) Hg1
              (worker_step_ended _ _ _ Hs)) as (n & a' & Hn & Hrun & ? & ? & ? & ? & ?).
  exists (S n), a'. split_and!; [lia| |done..|congruence].
  by rw /= Hs1.
Qed.

(** C13: destroying an adapter whose callbacks can be called makes its worker end, with
    nothing lost.  From any state that an interleaving reaches while the adapter lives, if
    [ClearCallbacks] has been called (without, the first message is a null dereference)
    and the registered callbacks have no undefined behaviour: once the destructor has
    signalled, the worker, left to run by itself with whatever times the clock gives it,
    delivers within [log_work] steps everything that was queued, in order, and stops.  A
    destructor that times out before that lets go of the worker: [log_detached_worker]. *)
Theorem log_worker_terminates now k r w ls a a1 now' (now_of : nat → Z) :
  run (LogAdapter_ctor now k r w) ls = LNext a → destructor a = DLive → callable a →
  LogAdapter_dtor_step now' a = LNext a1 →
  ∃ n a2, n ≤ log_work a1 ∧ run a1 ((λ i, AWorker (now_of i)) <$> seq 0 n) = LNext a2
    ∧ worker_ a2 = PDone ∧ stopped_ a2 = true ∧ delivered a2 = pushed a.
Proof.
  intros Hrun Hlive Hcall Hs.
  pose proof (log_run_ok _ _ _ _ _ (log_ok_ctor now k r w) Hrun) as Hok.
  pose proof (dtor_step_ok _ _ _ Hs Hok) as Hok1. rw /LogAdapter_dtor_step Hlive in Hs.
  pose proof (lk_running _ Hok) as Hr. rw Hlive in Hr.
  assert (Hlv : leaving (worker_ a) = false).
  { destruct (leaving (worker_ a)) eqn:Hlv; [|done]. rw (lk_leaving _ Hok Hlv) in Hr. done. }
  assert (Hw1 : leaving (worker_ a1) = false ∧ closing a1 ∧ pushed a1 = pushed a
                ∧ log_gone a1 = false).
  { destruct Hcall as [Hvec Hcs]. rw /calling in Hcs. injection Hs as <-.
    rw /Signal /=. destruct (worker_ a) eqn:Hw; rw ?Hw /= in Hcs Hlv;
      (split_and!; [by rw /= ?Hw| |done..]); (split; [done|split; [done|]|]);
      rw /calling /drained /= ?Hw /= ?Hlv; done. }
  destruct Hw1 as (Hlv1 & Hc1 & Hp1 & Hg1).
  destruct (worker_ends now_of 0 a1 Hc1 Hok1 Hg1) as (n & a2 & Hn & Hrun2 & Hw2 & Hst2 & Hc2 & Hok2 & Hp2).
  { intros Hd. by rw Hd in Hlv1. }
  exists n, a2. split_and!; try done.
  pose proof (lk_order _ Hok2) as Ho. rw Hw2 (cl_drained _ Hc2) ?Hw2 // /= app_nil_r in Ho. congruence.
Qed.

(** ** Callbacks *)

(** The versions of [callbacks_]: each publication is a new vector. *)
Definition fresh_vector a : Prop := ∀ p vec, callbacks_ a = Some (p, vec) → p < next_vector a.
Definition same_vector a a' : Prop :=
  callbacks_ a' = callbacks_ a ∧ next_vector a' = next_vector a.
Definition new_vector a a' : Prop :=
  ∃ vec, callbacks_ a' = Some (next_vector a, vec) ∧ next_vector a' = S (next_vector a).

Lemma worker_same_vector now a a' : worker_step now a = LNext a' → same_vector a a'.
Proof.
  rw /ProcessLoop_step /to. intros Hs.
  destruct (worker_ a) as [| | |[|lm batch] final|lm [|cb cbs] batch final|final|d final| | |]; try done.
  - by repeat case_match; simplify_eq.
  - by simplify_eq.
  - by simplify_eq.
  - by repeat case_match; simplify_eq.
  - simplify_eq. rw /flush_errors. by case_decide.
  - destruct (call_callback cb lm a) as [a1| |u] eqn:Hcb; simplify_eq.
    rw /call_callback in Hcb. by repeat case_match; simplify_eq.
  - by simplify_eq.
  - simplify_eq. by case_match.
  - by simplify_eq.
  - by simplify_eq.
Qed.

Lemma step_vector l a a' : step a l = LNext a' → same_vector a a' ∨ new_vector a a'.
Proof.
  rw /log_step. destruct (log_gone a); [destruct l; repeat case_match; done|].
  intros Hs. destruct l as [c lvl now tid msg|c rng|now| |c cb|c sp| |g| |now].
  - rw /Log_call in Hs. left. by repeat case_match; simplify_eq.
  - rw /Enqueue_step /backoff_step in Hs. left. destruct (loggers a !! c) as [[]|]; try done;
      repeat (case_match; try done); simplify_eq; try done. rw /Signal. by case_match.
  - left. by eapply worker_same_vector.
  - left. destruct (worker_ a); try done. by injection Hs as <-.
  - rw /RegisterCallback_call in Hs. left. by repeat case_match; simplify_eq.
  - rw /RegisterCallback_step in Hs. repeat case_match; simplify_eq; [right|by left]. by eexists.
  - simplify_eq. right. by eexists.
  - simplify_eq. by left.
  - simplify_eq. by left.
  - left. rw /LogAdapter_dtor_step /Signal in Hs. repeat case_match; by simplify_eq.
Qed.

Lemma run_vector ls a a' p vec :
  run a ls = LNext a' → fresh_vector a → callbacks_ a = Some (p, vec) →
  fresh_vector a' ∧ (callbacks_ a' = Some (p, vec) ∨ ∃ p' vec', callbacks_ a' = Some (p', vec') ∧ p' ≠ p).
Proof.
  intros Hrun Hf Hp.
  assert (H : fresh_vector a' ∧ next_vector a ≤ next_vector a' ∧
    (callbacks_ a' = Some (p, vec) ∨ ∃ p' vec', callbacks_ a' = Some (p', vec') ∧ next_vector a ≤ p')).
  { refine (log_run_invariant format_time id (λ a', fresh_vector a' ∧ next_vector a ≤ next_vector a' ∧
      (callbacks_ a' = Some (p, vec) ∨ ∃ p' vec', callbacks_ a' = Some (p', vec') ∧ next_vector a ≤ p'))
      (λ _, True) ls a a' _ _ _ Hrun); [|by apply list.Forall_true|by split_and!; [|lia|left]].
    intros l a1 a2 _ Hs (Hf1 & Hn1 & Hc1). destruct (step_vector _ _ _ Hs) as [[Hcb Hn]|[v [Hcb Hn]]].
    - rw /fresh_vector Hcb Hn. by split_and!.
    - rw /fresh_vector Hcb Hn. split_and!; [by intros q w [= <- _]; lia|lia|]. right. by eexists _, _. }
  destruct H as (Hf' & _ & [Hc|(p' & vec' & Hc & Hle)]); (split; [done|]); [by left|right].
  exists p', vec'. split; [done|]. specialize (Hf p vec Hp). lia.
Qed.

(** A registration counts only if nobody registers or clears in between: when
    [callbacks_] is still the vector that [RegisterCallback] copied, the callback
    is appended to it; when it has changed, the copy made for the second attempt
    gets the function already moved from, so an empty function is appended, on
    the call of which every message reports an exception, and the callback the
    caller gave is lost. *)
Theorem log_register_once now k r w ls0 a c cb a1 ls a2 p vec :
  run (LogAdapter_ctor now k r w) ls0 = LNext a → callbacks_ a = Some (p, vec) →
  RegisterCallback_call c cb a = LNext a1 → run a1 ls = LNext a2 →
  registrars a2 !! c = Some (RCas p (vec ++ [Some cb])) →
  ∃ p2 cur, callbacks_ a2 = Some (p2, cur)
    ∧ if decide (p2 = p) then
        cur = vec ∧ ∃ a3, RegisterCallback_step c false a2 = LNext a3
                          ∧ snd <$> callbacks_ a3 = Some (cur ++ [Some cb])
      else
        ∃ a3 a4, RegisterCallback_step c false a2 = LNext a3
                 ∧ RegisterCallback_step c false a3 = LNext a4
                 ∧ snd <$> callbacks_ a4 = Some (cur ++ [None]).
Proof.
  intros Hrun0 Hp Hcall Hrun Hreg.
  assert (Hf : fresh_vector a).
  { refine (log_run_invariant format_time id fresh_vector (λ _, True) ls0 _ a _ _ _ Hrun0);
      [|by apply list.Forall_true|done].
    intros l b b' _ Hs Hf. destruct (step_vector _ _ _ Hs) as [[Hcb Hn]|[v [Hcb Hn]]];
      rw /fresh_vector Hcb Hn; [exact Hf|]. intros q u [= <- _]. lia. }
  assert (Ha1 : callbacks_ a1 = Some (p, vec) ∧ fresh_vector a1).
  { rw /RegisterCallback_call Hp in Hcall. repeat case_match; simplify_eq. split; [done|exact Hf]. }
  destruct Ha1 as [Hp1 Hf1]. destruct (run_vector ls a1 a2 p vec Hrun Hf1 Hp1) as [_ Hc].
  destruct Hc as [Hc|(p2 & cur & Hc & Hne)].
  - exists p, vec. split; [done|]. rw decide_True; [done|]. split; [done|].
    eexists. split.
    + rw /RegisterCallback_step Hreg Hc. by rw decide_True.
    + done.
  - exists p2, cur. split; [done|]. rw decide_False; [done|].
    assert (Hlt : c < length (registrars a2)) by by eapply lookup_lt_Some.
    eexists _, _. split; [|split].
    + rw /RegisterCallback_step Hreg Hc. by rw decide_False; [intros []|].
    + rw /RegisterCallback_step /= list_lookup_insert_eq; [done|]. rw Hc. by rw decide_True.
    + done.
Qed.

(** Nobody has called [ClearCallbacks]. *)
Definition clears l : bool := match l with AClearCallbacks => true | _ => false end.
Record uncleared a : Prop := {
  un_null : callbacks_ a = None;
  un_delivered : delivered a = [];
  un_registrars : Forall (.= RIdle) (registrars a);
  un_worker : match worker_ a with PCall _ _ _ _ => False | _ => True end
}.

Lemma uncleared_same a a' :
  callbacks_ a' = callbacks_ a → delivered a' = delivered a → registrars a' = registrars a →
  worker_ a' = worker_ a → uncleared a → uncleared a'.
Proof. intros Hc Hd Hr Hw [H1 H2 H3 H4]. split; rw ?Hc ?Hd ?Hr ?Hw; done. Qed.

Lemma step_uncleared l a a' : clears l = false → step a l = LNext a' → uncleared a → uncleared a'.
Proof.
  rw /log_step. intros Hcl. destruct (log_gone a); [destruct l; repeat case_match; done|].
  intros Hs Hok. pose proof (un_null _ Hok) as H1.
  assert (Hidle : ∀ c old vec, registrars a !! c ≠ Some (RCas old vec)).
  { intros c old vec Hc. by specialize (proj1 (list.Forall_lookup _ _) (un_registrars _ Hok) c _ Hc). }
  destruct l as [c lvl now tid msg|c rng|now| |c cb|c sp| |g| |now]; try done.
  - rw /Log_call in Hs. repeat case_match; simplify_eq. by apply (uncleared_same a).
  - rw /Enqueue_step /backoff_step in Hs. destruct (loggers a !! c) as [[]|]; try done;
      repeat (case_match; try done); simplify_eq; try by apply (uncleared_same a).
    rw /Signal /=. destruct Hok as [_ H2 H3 H4].
    destruct (worker_ a) eqn:Hw; by split; rw /= ?Hw.
  - rw /ProcessLoop_step /to H1 in Hs. pose proof (un_worker _ Hok) as Hun.
    destruct (worker_ a) as [| | |[|lm batch] final|lm cbs batch final|final|d final| | |] eqn:Hw;
      try done; clear Hun Hw;
      repeat (case_match; try done); simplify_eq; destruct Hok as [_ H2 H3 H4]; split; try done;
      rw /=; repeat case_match; try done; by destruct final.
  - destruct (worker_ a) eqn:Hw; try done. injection Hs as <-. destruct Hok as [_ H2 H3 H4]. by split.
  - rw /RegisterCallback_call H1 in Hs. by repeat case_match.
  - rw /RegisterCallback_step in Hs. destruct (registrars a !! c) as [[|old vec]|] eqn:Hc; try done.
    by destruct (Hidle c old vec).
  - simplify_eq. by apply (uncleared_same a).
  - simplify_eq. by apply (uncleared_same a).
  - rw /LogAdapter_dtor_step /Signal in Hs.
    destruct Hok as [_ H2 H3 H4].
    repeat case_match; simplify_eq; try done; split; rw /=; try done; by repeat case_match.
Qed.

(** Without a call of [ClearCallbacks] the adapter cannot log: [callbacks_] is
    null from the start, so [RegisterCallback] follows a null pointer, and so
    does the worker with the first message it takes; no message is ever
    delivered. *)
Theorem log_needs_clear now k r w ls a :
  Forall (λ l, clears l = false) ls → run (LogAdapter_ctor now k r w) ls = LNext a →
  delivered a = []
  ∧ (∀ c cb, registrars a !! c = Some RIdle →
       RegisterCallback_call c cb a = LCrash null_dereference)
  ∧ (∀ lm batch final now', worker_ a = PBatch (lm :: batch) final →
       worker_step now' a = LCrash null_dereference).
Proof.
  intros Hls Hrun.
  assert (Hok : uncleared a).
  { refine (log_run_invariant format_time id uncleared (λ l, clears l = false) ls _ a _ Hls _ Hrun).
    - intros l a1 a2. apply step_uncleared.
    - split; try done. by apply list.Forall_replicate. }
  destruct Hok as [H1 H2 H3 H4]. split_and!; [done|..].
  - intros c cb Hc. by rw /RegisterCallback_call Hc H1.
  - intros lm batch final now' Hw. by rw /ProcessLoop_step Hw H1.
Qed.

(** The destructor gives up waiting after its timeout: if the worker has not
    ended by then (a callback takes its time), it is detached, the members are
    destroyed, and the worker's next step uses them: undefined behaviour, in any
    state an interleaving reaches with the destructor waiting. *)
Theorem log_detached_worker now k r w ls a start now1 now2 now3 :
  run (LogAdapter_ctor now k r w) ls = LNext a →
  destructor a = DWait start → worker_ a ≠ PDone →
  (shutdown_timeout_ms_ (config a) ≤ now1 - start)%Z →
  run a [ADestructor now1; ADestructor now2; AWorker now3] = LCrash use_after_free.
Proof.
  intros Hrun Hd Hw Ht. pose proof (log_run_ok _ _ _ _ _ (log_ok_ctor now k r w) Hrun) as Hok.
  assert (Hst : stopped_ a = false).
  { destruct (stopped_ a) eqn:Hst; [|done]. by destruct (Hw (lk_stopped _ Hok Hst)). }
  rw /= /log_step /log_gone Hd /= /LogAdapter_dtor_step Hd Hst.
  assert (Hlt : (now1 - start <? shutdown_timeout_ms_ (config a))%Z = false) by lia.
  rw Hlt /= Hst /= /worker_done /=. by destruct (worker_ a).
Qed.
End Shutdown.

(** ** Witnesses: callbacks that keep what they are given, or throw. *)
Section Demo.
Abbreviation adapter := (LogAdapter (W := list string)).
Abbreviation label := (log_label (W := list string)).

Definition keep (lm : LogMessage) : M (list string) () := modify (λ l, l ++ [message lm]).
Definition demo_log (ls : list label) := log_run (λ _, "t") "app" (LogAdapter_ctor 0 2 2 []) ls.
Definition demo_adapter (ls : list label) : adapter :=
  match demo_log ls with LNext a => a | _ => LogAdapter_ctor 0 2 2 [] end.

(** A thread's whole call of [Log] on a short queue. *)
Definition log_call (c : nat) (msg : string) : list label :=
  ALog c Info 0 1 msg :: replicate 5 (ALogger c (Some 0%Z)).
Definition one_registered : list label :=
  [AClearCallbacks; ARegister 0 keep; ARegistrar 0 false].
Definition two_queued : list label := one_registered ++ log_call 0 "a" ++ log_call 1 "b".
(** The worker takes both and calls the callback with the first; then the
    destructor starts. *)
Definition one_called : list label := two_queued ++ replicate 3 (AWorker 0).
Definition all_done : list label := two_queued ++ replicate 10 (AWorker 0).
Definition waiting : list label := one_called ++ [ADestructor 1; ADestructor 2].
(** Two registrations at the same time. *)
Definition racing : list label :=
  [AClearCallbacks; ARegister 0 keep; ARegister 1 keep; ARegistrar 1 false].
End Demo.

Lemma log_in_order_witness :
  pushed (demo_adapter one_called)
  = delivered (demo_adapter one_called) ++ in_hand (worker_ (demo_adapter one_called))
    ++ queue_ (demo_adapter one_called)
  ∧ message <$> pushed (demo_adapter one_called) = ["a"; "b"].
Proof.
  split; [|by vm_compute].
  apply (log_in_order (λ _, "t") "app" 0 2 2 [] one_called). by vm_compute.
Defined.

Lemma log_queue_bounded_witness :
  (Z.of_nat (log_GetQueueSize (demo_adapter two_queued))
   ≤ log_GetHighWaterMark (demo_adapter two_queued) ≤ 10000)%Z.
Proof.
  apply (log_queue_bounded (λ _, "t") "app" 10000 0 2 2 [] two_queued); [done| |by vm_compute].
  by repeat constructor.
Defined.

Lemma log_none_stranded_witness :
  worker_ (demo_adapter all_done) = PAsleep ∧ queue_ (demo_adapter all_done) = []
  ∧ delivered (demo_adapter all_done) = pushed (demo_adapter all_done).
Proof.
  apply (log_none_stranded (λ _, "t") "app" 0 2 2 [] all_done _ 0); [by vm_compute..| |by vm_compute].
  by repeat constructor.
Defined.

Lemma log_worker_terminates_witness :
  ∃ n a2, n ≤ log_work (demo_adapter (one_called ++ [ADestructor 1]))
    ∧ log_run (λ _, "t") "app" (demo_adapter (one_called ++ [ADestructor 1]))
        ((λ i, AWorker (Z.of_nat i)) <$> seq 0 n) = LNext a2
    ∧ worker_ a2 = PDone ∧ stopped_ a2 = true ∧ delivered a2 = pushed (demo_adapter one_called).
Proof.
  apply (log_worker_terminates (λ _, "t") "app" 0 2 2 [] one_called (demo_adapter one_called)
           (demo_adapter (one_called ++ [ADestructor 1])) 1 Z.of_nat);
    [by vm_compute|by vm_compute| |by vm_compute].
  assert (Hkeep : defined_callback (Some keep)) by by intros f lm w u [= <-].
  split.
  - exists 1, [Some keep]. split; [by vm_compute|by constructor].
  - by apply list.Forall_nil_2.
Defined.

Lemma log_register_once_witness :
  ∃ p2 cur, callbacks_ (demo_adapter racing) = Some (p2, cur)
    ∧ if decide (p2 = 0) then
        cur = [] ∧ ∃ a3, RegisterCallback_step 0 false (demo_adapter racing) = LNext a3
                         ∧ snd <$> callbacks_ a3 = Some (cur ++ [Some keep])
      else
        ∃ a3 a4, RegisterCallback_step 0 false (demo_adapter racing) = LNext a3
                 ∧ RegisterCallback_step 0 false a3 = LNext a4
                 ∧ snd <$> callbacks_ a4 = Some (cur ++ [None]).
Proof.
  apply (log_register_once (λ _, "t") "app" 0 2 2 [] [AClearCallbacks]
           (demo_adapter [AClearCallbacks]) 0 keep
           (demo_adapter [AClearCallbacks; ARegister 0 keep]) [ARegister 1 keep; ARegistrar 1 false]
           (demo_adapter racing)); by vm_compute.
Defined.

Lemma log_needs_clear_witness :
  delivered (demo_adapter (log_call 0 "a" ++ [AWorker 0])) = []
  ∧ (∀ c cb, registrars (demo_adapter (log_call 0 "a" ++ [AWorker 0])) !! c = Some RIdle →
       RegisterCallback_call c cb (demo_adapter (log_call 0 "a" ++ [AWorker 0]))
       = LCrash null_dereference)
  ∧ (∀ lm batch final now',
       worker_ (demo_adapter (log_call 0 "a" ++ [AWorker 0])) = PBatch (lm :: batch) final →
       ProcessLoop_step (λ _, "t") "app" now' (demo_adapter (log_call 0 "a" ++ [AWorker 0]))
       = LCrash null_dereference).
Proof.
  apply (log_needs_clear (λ _, "t") "app" 0 2 2 [] (log_call 0 "a" ++ [AWorker 0]));
    [by repeat constructor|by vm_compute].
Defined.

Lemma log_detached_worker_witness :
  log_run (λ _, "t") "app" (demo_adapter waiting) [ADestructor 5002; ADestructor 5003; AWorker 5004]
  = LCrash use_after_free.
Proof.
  apply (log_detached_worker (λ _, "t") "app" 0 2 2 [] waiting (demo_adapter waiting) 2 5002 5003 5004);
    by vm_compute.
Defined.
