(* ===== verification/TlsProvider.v ===== *)
(** * ReloadableTlsContextProvider (tls/reloadable_tls_context_provider.h, .cc)

    A context that is loaded again from its files, with the operations of
    [SslContext.v]; what is printed is left out.  [mutex_] is held for single
    assignments and reads. *)
From S2P Require Import Prelude SslContext.

Section Provider.
Context {Ctx W : Type} `{!SslContext Ctx W}.

Record ReloadableTlsContextProvider := Provider {
  cert_path_ : string;
  key_path_ : string;
  current_ : option Ctx;
  initialized_ : bool
}.

Abbreviation Act := (M (ReloadableTlsContextProvider * W)).

(** A new context with the files' certificates and key. *)
Definition load_context (cert_path key_path : string) : M W Ctx :=
  ctx ← make_context tlsv12_server;
  use_certificate_chain_file cert_path ctx ;;
  use_private_key_file key_path ctx ;;
  set_default_workarounds ctx ;;
  mret ctx.

Definition install (ctx : Ctx) : Act () :=
  modify (λ st, (Provider (cert_path_ st.1) (key_path_ st.1) (Some ctx) true, st.2)).

Definition try_reload : Act bool :=
  p ← gets fst;
  ctx ← on_snd (load_context (cert_path_ p) (key_path_ p));
  install ctx ;; mret true.

Definition reload_failed (e : exn) : Act bool :=
  p ← gets fst;
  if is_std e && initialized_ p then mret false else throw e.

Definition ReloadContext : Act bool := catch try_reload reload_failed.

(** The constructor; what it throws, no object is left of. *)
Definition ReloadableTlsContextProvider_ctor (cert_path key_path : string) (w : W)
    : outcome (ReloadableTlsContextProvider * W) bool :=
  ReloadContext (Provider cert_path key_path None false, w).

Definition GetContext (p : ReloadableTlsContextProvider) : option Ctx := current_ p.

(** [schedule] captures a copy of itself in its own initialiser: the copy is of
    an object that is not there yet. *)
Definition StartReloadTimer (interval : Z) : Act () := undef uninitialised_read.
Definition StopReloadTimer : Act () := mret ().
End Provider.

Section ProviderTheorems.
Context {Ctx W : Type} `{!SslContext Ctx W}.

(** Reloads that may throw, one after the other, as the timer would make them. *)
Fixpoint reloads (n : nat) (st : ReloadableTlsContextProvider (Ctx := Ctx) * W)
    : option (ReloadableTlsContextProvider * W) :=
  match n with
  | 0 => Some st
  | S n => match ReloadContext st with
           | Ret _ st | Throw _ st => reloads n st
           | Undef _ => None
           end
  end.

(** What [n] attempts to load the files give. *)
Fixpoint attempts (cert key : string) (n : nat) (w : W) : option (list (Ctx + exn) * W) :=
  match n with
  | 0 => Some ([], w)
  | S n => match load_context (Ctx := Ctx) cert key w with
           | Ret c w => (λ r, (inl c :: r.1, r.2)) <$> attempts cert key n w
           | Throw e w => (λ r, (inr e :: r.1, r.2)) <$> attempts cert key n w
           | Undef _ => None
           end
  end.

(** The last context that could be loaded. *)
Definition last_loaded (c : Ctx) (w : list (Ctx + exn)) : Ctx :=
  foldl (λ c r, match r with inl c' => c' | inr _ => c end) c w.

Lemma ReloadContext_spec cert key cur init w :
  ReloadContext (Provider cert key cur init, w)
  = match load_context (Ctx := Ctx) cert key w with
    | Ret c w => Ret true (Provider cert key (Some c) true, w)
    | Throw e w => if is_std e && init then Ret false (Provider cert key cur init, w)
                   else Throw e (Provider cert key cur init, w)
    | Undef u => Undef u
    end.
Proof.
  rw /ReloadContext /catch /try_reload /reload_failed /mbind /M_bind /gets /on_snd /=.
  destruct (load_context cert key w) as [c w1|e w1|u]; rw /=; [done| |done].
  by destruct (is_std e && init).
Qed.

Lemma reloads_spec cert key n : ∀ c w rs w',
  attempts cert key n w = Some (rs, w') →
  reloads n (Provider cert key (Some c) true, w)
  = Some (Provider cert key (Some (last_loaded c rs)) true, w').
Proof.
  induction n as [|n IH]; intros c w rs w' Ha; rw /= in Ha *; [by simplify_eq|].
  rw ReloadContext_spec.
  destruct (load_context cert key w) as [c1 w1|e w1|u]; [| |done];
    apply fmap_Some in Ha as ([rs1 w2] & Ha & Hr); simplify_eq/=.
  - by apply (IH c1).
  - by destruct (is_std e); apply (IH c).
Qed.

(** A provider always has a context, the last one that could be loaded: the
    constructor throws what the first load throws, and otherwise, whatever
    later loads do, [GetContext] gives the most recent context loaded, a load
    that failed, at whichever of its steps, leaving the one in use. *)
Theorem tls_provider_keeps_last cert key n w r rs w' :
  attempts cert key (S n) w = Some (r :: rs, w') →
  match r with
  | inr e => ∃ w1, ReloadableTlsContextProvider_ctor cert key w
                   = Throw e (Provider cert key None false, w1)
  | inl c =>
      ∃ p w1, ReloadableTlsContextProvider_ctor cert key w = Ret true (p, w1)
        ∧ ∃ p', reloads n (p, w1) = Some (p', w') ∧ GetContext p' = Some (last_loaded c rs)
  end.
Proof.
  rw /= /ReloadableTlsContextProvider_ctor ReloadContext_spec. intros Ha.
  destruct (load_context cert key w) as [c1 w1|e w1|u]; [| |done];
    apply fmap_Some in Ha as ([rs1 w2] & Ha & Hr); simplify_eq/=.
  - eexists _, _. split; [done|]. eexists. by split; [by apply reloads_spec|].
  - eexists. by rw andb_false_r.
Qed.
End ProviderTheorems.

(** ** Witness

    Contexts are numbers, the world counts them and has what the files will
    hold at each attempt: true for a good key. *)
Definition files : Type := nat * list bool.

#[export] Instance demo_SslContext : SslContext nat files := {
  make_context _ := λ w, Ret (w.1) (S w.1, w.2);
  use_certificate_chain_file _ _ := mret ();
  use_private_key_file _ _ := λ w,
    if default false (head w.2) then Ret () (w.1, tail w.2)
    else Throw (runtime_error "use_private_key_file") (w.1, tail w.2);
  set_verify_mode _ _ := mret ();
  load_verify_file _ _ := mret ();
  set_default_workarounds _ := mret ()
}.

(** A good start, a failed reload, a good one, a failed one. *)
Lemma tls_provider_keeps_last_witness :
  ∃ p w1, ReloadableTlsContextProvider_ctor "fullchain.pem" "privkey.pem"
            (0, [true; false; true; false]) = Ret true (p, w1)
    ∧ ∃ p', reloads 3 (p, w1) = Some (p', (4, [])) ∧ GetContext p' = Some 2.
Proof.
  by apply (tls_provider_keeps_last "fullchain.pem" "privkey.pem" 3 (0, [true; false; true; false])
    (inl 0) [inr (runtime_error "use_private_key_file"); inl 2;
             inr (runtime_error "use_private_key_file")] (4, [])).
Defined.
